(* ===== verification/_CoqProject ===== *)
-Q . S2P
Prelude.v
Clock.v
RequestState.v
RequestLifecycle.v
Request.v
Backend.v
MockBackend.v
MockProperties.v
FifoScheduler.v
SchedulerInvariant.v
SchedulerCorrect.v
SchedulerSpec.v
SchedulerProperties.v
SchedulerGuards.v
SchedulerOnMock.v
Telemetry.v
Double.v
Workload.v
Simulation.v
SimulationCorrect.v
Analysis.v
SimulationProperties.v
Main.v
MainProperties.v
TokenChannel.v
Engine.v
EngineInvariant.v
EngineCorrect.v
EngineTimes.v
EngineProperties.v
EngineRefinement.v
EngineCancel.v
EnginePush.v
EngineLiveness.v
EngineFairness.v
EngineBackpressure.v
EngineOrder.v
EngineLimits.v
Server.v
Conformance.v
