(* ===== verification/Prelude.v ===== *)
(** * Tokamak: a verification development

    Tokamak is an inference server for language models.  Requests walk through a
    state machine ([RequestLifecycle]); a first-come-first-served scheduler with
    continuous batching ([FifoScheduler]) drives them against an inference
    backend ([InferenceBackend], implemented by the deterministic
    [MockBackend]); an engine thread ([Engine]) feeds the scheduler from network
    threads and streams tokens through bounded channels ([TokenChannel]); a
    command-line program replays a workload file against the scheduler on a
    simulated clock ([run_simulation]) and reports statistics ([analysis]).
    This library translates that C++ code into Rocq definitions and proves it
    correct.

    ** Conventions

    - A call that can fail returns an [outcome]: [Ok], the [Panic] of
      [src/common/panic.cpp], a C++ exception ([Throw]), a failed [assert], or
      behaviour the language leaves undefined ([Undef]: dangling pointer, index
      out of range, signed overflow).  A theorem "the call returns [Ok]" rules
      all of them out.
    - Stateful code is state passing.  Objects that hold a reference to the
      clock and to the backend act on one environment [W] that carries both, so
      that a backend call can advance the clock as the simulated one does.
    - A [Request *] is an index of the scheduler's store (requests are never
      destroyed before the scheduler), a [TokenChannel *] a key of the channel
      store.
    - [std::size_t], [std::uint64_t] and [std::uint32_t] are integers of [Z]
      with their wrap-around written out ([u64], [u32]); time points and
      durations are nanosecond counts of [std::int64_t] with an explicit overflow
      check ([i64_add], [i64_sub]); [double] is exact arithmetic on multiples of
      2^-1074 with rounding to nearest even ([Double]).

    ** Files and the code they model

    - [Clock]: [common/clock.h], [clock.cpp].  [RequestState]: the enumeration and the
      transition table of [request/state.h], [state.cpp]; [RequestLifecycle]: the
      class of the same files.  [Request]: [request/request.h], [request.cpp].
    - [Backend]: [backend/backend.h], [error.h], [error.cpp], as the class
      [InferenceBackend], with [BackendContract], what an implementation
      promises to the scheduler: prefill mints fresh sequences one per success
      and answers in batch order, decode answers every live sequence, release
      forgets one.  [MockBackend]: [backend/mock_backend.h] and [.cpp];
      [MockProperties]: its exact behaviour and the instance of the contract.
    - [FifoScheduler]: [scheduler/fifo_scheduler.h], [.cpp], [tick_report.h], against
      the class only.  [SchedulerInvariant]: the invariant tying the request
      store, the two queues, the handle table and the backend's live sequences,
      and the moves that keep it.  [SchedulerCorrect]: every phase, [tick] and
      [cancel] return and do what they promise, tied to what the backend
      answers each request in a tick ([tick_answers]).  [SchedulerSpec]: the
      abstract specification (a deterministic labelled transition system over
      tickets that wait, run and finish), the step relation of a client, and the
      refinement.  [SchedulerProperties]: the resulting theorems.
      [SchedulerGuards]: what happens to a client that reuses an id or asks for
      no token.  [SchedulerOnMock]: what a tick costs on the simulated clock.
    - [Telemetry]: [telemetry/trace_event.*], [trace_writer.*].
    - [Double]: the conversions between time points and [double].  [Workload]:
      [apps/tokamak/workload.*].  [Simulation]: [apps/tokamak/simulation.*];
      [SimulationCorrect]: its loop invariant and termination measure; [Analysis]:
      [apps/tokamak/analysis.*]; [SimulationProperties]: the theorems on whole
      runs.
    - [Main]: [apps/tokamak/main.cpp], with the formatting of doubles by
      [operator<<]; [MainProperties]: from the command line to the exit status.
    - [Server]: [http/server.*], its routing, one connection, start and stop.
    - [TokenChannel]: [http/token_channel.*].  [Engine]: [http/engine.*];
      [EngineInvariant]: what ties an active entry to its request and its stream;
      [EngineCorrect]: the interleaving semantics and a turn of the loop;
      [EngineTimes]: when its time computations cannot overflow;
      [EngineProperties]: the safety theorems; [EngineRefinement]: the engine as
      a family of independent streams; [EngineCancel]: the exact effect
      of cancelling and of the backpressure timeout; [EnginePush]: the exact effect
      of [push_tokens]; [EngineLiveness]: everything
      is served when nobody disturbs; [EngineFairness]: one submission is served
      whatever everybody else does; [EngineBackpressure]: a consumer that stops
      reading is cut off in time; [EngineOrder]: the iteration order of the hash
      table does not matter; [EngineLimits]: what the engine does not promise.
    - [Conformance]: the golden tests and most unit tests of [tests/] replayed on
      these definitions, as evidence that they mean what the code means.

    ** What the theorems show

    - Scheduler: from every state a client can reach no call panics, throws or
      reads out of bounds; each step is exactly the step of the abstract
      specification with its label, which for a tick is what the backend answered
      each request; each phase applies the backend's outcomes one to one; the
      backend's live sequences are exactly those of the decoding requests; the
      queues stay in submission order; a tick gives each active request one token
      or fails it; after as many ticks as tokens are owed everything has ended.
      The guards are needed: a request without a budget panics at its first
      token and a reused id makes the decode phase throw.
    - Engine: for every interleaving of engine, network and consumer steps at
      the granularity of the critical sections, a consumer receives exactly the
      tokens of its request, in order; a reaped stream is complete and final; a
      turn of the loop returns, as long as its times are representable and the
      backend has room, and is a sequence of such steps; and, while the
      channels have room, whatever consumers and clock do between turns, every
      request is served whole after one turn more than there are tokens owed
      ([EngineLiveness.turns_lead_to], by the measure [SchedulerSpec.work]).  In
      the open system, where others submit, cancel, stop reading and are cut off
      between the turns, a submission is served within as many turns as its
      budget ([EngineFairness.open_turns]).  A turn pushes exactly what is
      left and fits; cancelling and the backpressure timeout give up exactly the
      requests they should; a consumer that stops reading holds its place until
      the timeout and loses it in the first turn after ([EngineBackpressure.held]).
    - Channel: a bounded FIFO under all interleavings, no lost wake-up.
    - Simulation: on a good workload ([SimulationCorrect.good_workload]) the loop
      ends, all requests have ended, and the invariant check passes.  The fuel
      of [sim_loop] stands for the unbounded [while]: more fuel never changes a
      result ([Simulation.sim_loop_mono]), [SimulationCorrect.sim_fuel] is
      enough, and the theorem produces the result for that fuel; for a workload
      whose arrival has a fraction of a nanosecond no fuel is enough, which is
      a defect of the code and proved as such.
    - Command line: the argument grammar, which is wider than the usage message
      says; a good workload is served, reported
      as passed, traced with one event per iteration, and exits with zero
      ([MainProperties.main_good_workload], which composes loader, simulation,
      scheduler, analysis and telemetry); every way of refusing.
    - Server: a connection answers one for one and in order; the threads follow
      the running flag; a stopped server never serves again.
    - Lifecycle, request, mock backend, analysis, workload, telemetry: each
      operation on every branch, order and bounds of the milestones and of the
      statistics, round trips of the tokenizer, the trace and the conversions.

    ** Not modelled

    - Boost.Asio and Boost.Beast (the [io_context], coroutines, sockets, parsing
      and serialising HTTP) are parameters of [Server]; that a worker thread of
      a stopped [io_context] returns at once is Boost's documented behaviour.
    - Thread creation, joining and condition variables: each critical section is
      one atomic step, a blocked [pop] is the step that is not enabled.
    - The JSON library, the file system, the order [std::sort] gives to equal
      keys, the iteration order of [unordered_map] and
      [std::chrono::steady_clock] are parameters, with their documented
      behaviour as hypotheses where a theorem needs it. *)

From stdpp Require Export base tactics numbers option list list_monad strings gmap sorting.
From Stdlib Require Export ZArith Lia.

#[global] Open Scope Z_scope.

(** ** Outcomes

    What a call of the program can do besides returning: abort through
    [tokamak::panic], leave by a C++ exception, fail an [assert], or run into
    behaviour the C++ standard leaves undefined.  Everything that can fail
    returns an [outcome]; the state after a failure is not observable (the
    process is gone or meaningless), so none is kept. *)
Inductive outcome (A : Type) : Type :=
  | Ok (a : A)
  | Panic (message : string)
  | Throw (what : string)
  | AssertFail (what : string)
  | Undef (what : string).
Arguments Ok {A} a.
Arguments Panic {A} message.
Arguments Throw {A} what.
Arguments AssertFail {A} what.
Arguments Undef {A} what.

#[export] Instance outcome_ret : MRet outcome := fun A a => Ok a.

#[export] Instance outcome_bind : MBind outcome := fun A B f o =>
  match o with
  | Ok a => f a
  | Panic m => Panic m
  | Throw m => Throw m
  | AssertFail m => AssertFail m
  | Undef m => Undef m
  end.

Definition is_ok {A} (o : outcome A) : bool :=
  match o with Ok _ => true | _ => false end.

(** An access the language does not check: out of range is undefined. *)
Definition or_undef {A} (what : string) (o : option A) : outcome A :=
  match o with Some a => Ok a | None => Undef what end.

(** [std::unordered_map::at]: throws [std::out_of_range]. *)
Definition or_throw {A} (what : string) (o : option A) : outcome A :=
  match o with Some a => Ok a | None => Throw what end.

(** ** Machine integers

    [std::size_t]/[std::uint64_t], [std::uint32_t] and [std::int64_t] as
    integers of [Z] kept in range by explicit wrap-around (unsigned) or by an
    explicit check (signed: overflow is undefined). *)
Definition u64 (z : Z) : Z := z mod 2 ^ 64.
Definition u32 (z : Z) : Z := z mod 2 ^ 32.
Definition INT64_MAX : Z := 2 ^ 63 - 1.
Definition INT64_MIN : Z := - 2 ^ 63.
Definition in_i64 (z : Z) : bool := (INT64_MIN <=? z) && (z <=? INT64_MAX).

(** Conversion of an unsigned 64-bit value to [std::int64_t] (modular since
    C++20). *)
Definition i64_of_u64 (z : Z) : Z :=
  if z <=? INT64_MAX then z else z - 2 ^ 64.

Definition i64_add (a b : Z) : outcome Z :=
  if in_i64 (a + b) then Ok (a + b) else Undef "signed integer overflow".
Definition i64_sub (a b : Z) : outcome Z :=
  if in_i64 (a - b) then Ok (a - b) else Undef "signed integer overflow".

(** The length of a container, as the [std::size_t] its [size()] returns. *)
Definition size_of {A} (l : list A) : Z := Z.of_nat (length l).
Arguments size_of : simpl never.

(** ** Containers *)

(** The erase of the first element equal to [x] ([for] loop with [erase] and
    [break]). *)
Fixpoint remove_first (x : nat) (l : list nat) : list nat :=
  match l with
  | [] => []
  | y :: l' => if decide (y = x) then l' else y :: remove_first x l'
  end.

(** [std::erase(c, x)]: every element equal to [x]. *)
Definition erase (x : nat) (l : list nat) : list nat :=
  filter (fun y => y <> x) l.

(** The sum of a list of integers. *)
Definition sum_Z (l : list Z) : Z := foldr Z.add 0 l.

Declare Scope tokamak_scope.
Delimit Scope tokamak_scope with tok.

(** ** Laws of outcomes *)

Lemma bind_Ok {A B} (m : outcome A) (f : A -> outcome B) (b : B) :
  m ≫= f = Ok b <-> exists a, m = Ok a /\ f a = Ok b.
Proof.
  destruct m; simpl; split;
    solve [ intros (? & ? & ?); simplify_eq; auto | eauto | discriminate ].
Qed.

Lemma or_undef_Some {A} (what : string) (o : option A) (a : A) :
  o = Some a -> or_undef what o = Ok a.
Proof. by intros ->. Qed.

Lemma or_undef_Ok {A} (what : string) (o : option A) (a : A) :
  or_undef what o = Ok a <-> o = Some a.
Proof. destruct o; simpl; naive_solver. Qed.

Lemma or_throw_Ok {A} (what : string) (o : option A) (a : A) :
  or_throw what o = Ok a <-> o = Some a.
Proof. destruct o; simpl; naive_solver. Qed.

(** Decompose the hypotheses that say a composed call returned. *)
Ltac inv_ok :=
  repeat match goal with
  | H : _ ≫= _ = Ok _ |- _ => apply bind_Ok in H as (? & ? & ?)
  | H : or_undef _ _ = Ok _ |- _ => apply or_undef_Ok in H
  | H : or_throw _ _ = Ok _ |- _ => apply or_throw_Ok in H
  | H : Ok _ = Ok _ |- _ => injection H as H; subst
  | H : mret _ = Ok _ |- _ => injection H as H; subst
  | p : (_ * _)%type |- _ => destruct p
  end; simpl in *; simplify_eq.

(** ** Laws of machine integers *)

Lemma u64_small (z : Z) : 0 <= z < 2 ^ 64 -> u64 z = z.
Proof. apply Z.mod_small. Qed.

Lemma u64_range (z : Z) : 0 <= u64 z < 2 ^ 64.
Proof. apply Z.mod_pos_bound. lia. Qed.

Lemma u64_add_l (a b : Z) : u64 (u64 a + b) = u64 (a + b).
Proof. apply Zplus_mod_idemp_l. Qed.

Lemma u64_add_r (a b : Z) : u64 (a + u64 b) = u64 (a + b).
Proof. apply Zplus_mod_idemp_r. Qed.

Lemma u64_sub_r (a b : Z) : u64 (a - u64 b) = u64 (a - b).
Proof. apply Zminus_mod_idemp_r. Qed.

Lemma u64_idemp (a : Z) : u64 (u64 a) = u64 a.
Proof. apply Zmod_mod. Qed.

Lemma u32_small (z : Z) : 0 <= z < 2 ^ 32 -> u32 z = z.
Proof. apply Z.mod_small. Qed.

Lemma in_i64_spec (z : Z) : in_i64 z = true <-> INT64_MIN <= z <= INT64_MAX.
Proof. unfold in_i64. rewrite andb_true_iff, !Z.leb_le. done. Qed.

Lemma i64_add_Ok (a b c : Z) :
  i64_add a b = Ok c <-> c = a + b /\ INT64_MIN <= a + b <= INT64_MAX.
Proof.
  unfold i64_add. destruct (in_i64 (a + b)) eqn:E.
  - apply in_i64_spec in E. naive_solver.
  - split; [done|]. intros [_ H%in_i64_spec]. congruence.
Qed.

Lemma i64_sub_Ok (a b c : Z) :
  i64_sub a b = Ok c <-> c = a - b /\ INT64_MIN <= a - b <= INT64_MAX.
Proof.
  unfold i64_sub. destruct (in_i64 (a - b)) eqn:E.
  - apply in_i64_spec in E. naive_solver.
  - split; [done|]. intros [_ H%in_i64_spec]. congruence.
Qed.

Lemma i64_of_u64_small (z : Z) : z <= INT64_MAX -> i64_of_u64 z = z.
Proof. unfold i64_of_u64. destruct (Z.leb_spec z INT64_MAX); lia. Qed.

Create HintDb tok.
Create Rewrite HintDb tok.
#[export] Hint Rewrite u64_add_l u64_add_r u64_idemp : tok.

(** ** Laws of the containers *)

Lemma size_of_cons {A} (a : A) (l : list A) : size_of (a :: l) = size_of l + 1.
Proof. unfold size_of. simpl. lia. Qed.

Lemma size_of_nonneg {A} (l : list A) : 0 <= size_of l.
Proof. unfold size_of. lia. Qed.

Lemma size_of_app {A} (l k : list A) : size_of (l ++ k) = size_of l + size_of k.
Proof. unfold size_of. rewrite length_app. lia. Qed.

Lemma remove_first_not_in (x : nat) (l : list nat) :
  x ∉ l -> remove_first x l = l.
Proof.
  induction l as [|y l IH]; [done|]. intros [? ?]%not_elem_of_cons. simpl.
  rewrite decide_False by done. by rewrite IH.
Qed.

Lemma elem_of_remove_first (x y : nat) (l : list nat) :
  NoDup l -> y ∈ remove_first x l <-> y ∈ l /\ y <> x.
Proof.
  induction l as [|z l IH]; intros Hnd; simpl; [set_solver|].
  apply NoDup_cons in Hnd as [Hz Hnd]. case_decide; subst; [set_solver|].
  rewrite !elem_of_cons, (IH Hnd). naive_solver.
Qed.

Lemma elem_of_remove_first_other (x y : nat) (l : list nat) :
  y <> x -> y ∈ l -> y ∈ remove_first x l.
Proof.
  intros Hne. induction l as [|z l IH]; simpl; [done|]. rewrite elem_of_cons.
  case_decide; subst; [naive_solver|]. rewrite elem_of_cons. naive_solver.
Qed.

Lemma remove_first_sublist (x : nat) (l : list nat) :
  sublist (remove_first x l) l.
Proof.
  induction l as [|y l IH]; simpl; [done|].
  case_decide; [by apply sublist_cons|by apply sublist_skip].
Qed.

Lemma size_remove_first (x : nat) (l : list nat) :
  x ∈ l -> size_of (remove_first x l) = size_of l - 1.
Proof.
  induction l as [|y l IH]; intros Hx; simpl; [set_solver|].
  case_decide as E; rewrite ?size_of_cons; [lia|].
  rewrite IH by set_solver. lia.
Qed.

Lemma remove_first_app (x : nat) (l k : list nat) :
  x ∉ l -> remove_first x (l ++ k) = l ++ remove_first x k.
Proof.
  induction l as [|y l IH]; [done|]. intros [? ?]%not_elem_of_cons. simpl.
  rewrite decide_False by done. by rewrite IH.
Qed.

Lemma erase_not_in (x : nat) (l : list nat) : x ∉ l -> erase x l = l.
Proof.
  induction l as [|y l IH]; [done|]. intros [? ?]%not_elem_of_cons.
  unfold erase in *. rewrite filter_cons_True by done. by rewrite IH.
Qed.

Lemma erase_cons_eq (x : nat) (l : list nat) :
  x ∉ l -> erase x (x :: l) = l.
Proof.
  intros. unfold erase. rewrite filter_cons_False by tauto.
  by apply erase_not_in.
Qed.

(** Strictly increasing lists of pointers: the submission order. *)
Abbreviation increasing := (StronglySorted lt).

Lemma increasing_NoDup (l : list nat) : increasing l -> NoDup l.
Proof.
  induction 1 as [|x l Hs IH Hx]; constructor; [|done].
  rewrite Forall_forall in Hx. intros H. specialize (Hx _ H). lia.
Qed.

Lemma sublist_Forall {A} (P : A -> Prop) (l k : list A) :
  sublist l k -> Forall P k -> Forall P l.
Proof.
  intros Hs Hk. rewrite Forall_forall in *. intros x Hx.
  apply Hk. by eapply elem_of_sublist.
Qed.

Lemma increasing_sublist (l k : list nat) :
  sublist l k -> increasing k -> increasing l.
Proof.
  induction 1 as [|x l k Hs IH|x l k Hs IH]; intros Hk; [done| |];
    apply StronglySorted_inv in Hk as [Hk Hx].
  - constructor; [auto|]. by eapply sublist_Forall.
  - auto.
Qed.

Lemma increasing_app_single (l : list nat) (x : nat) :
  increasing l -> Forall (fun y => y < x)%nat l -> increasing (l ++ [x]).
Proof.
  induction 1 as [|y l Hs IH Hy]; intros Hx; simpl.
  - constructor; constructor.
  - apply Forall_cons in Hx as [? Hx]. constructor; [auto|].
    apply Forall_app; split; [done|by constructor].
Qed.

Lemma sum_Z_app (l k : list Z) : sum_Z (l ++ k) = sum_Z l + sum_Z k.
Proof. induction l; simpl; [done|]. rewrite IHl. lia. Qed.

Lemma sum_Z_nonneg (l : list Z) : Forall (Z.le 0) l -> 0 <= sum_Z l.
Proof. induction 1; simpl; lia. Qed.

Lemma sum_Z_sublist (l k : list Z) :
  sublist l k -> Forall (Z.le 0) k -> 0 <= sum_Z l <= sum_Z k.
Proof.
  induction 1; simpl; intros Hk; [lia| |];
    apply Forall_cons in Hk as [? Hk]; specialize (IHsublist Hk); lia.
Qed.

(** [std::unordered_map::emplace]: no effect when the key is present. *)
Definition emplace `{Countable K} {A} (k : K) (a : A) (m : gmap K A) : gmap K A :=
  match m !! k with Some _ => m | None => <[k := a]> m end.

Lemma emplace_fresh `{Countable K} {A} (k : K) (a : A) (m : gmap K A) :
  m !! k = None -> emplace k a m = <[k := a]> m.
Proof. unfold emplace. by intros ->. Qed.

(** ** Lines of text

    [getlines] is the sequence of lines a [while (std::getline(in, line))] loop
    reads: the text up to each newline, and what follows the last one when it
    is not empty. *)
Definition newline : Ascii.ascii := Ascii.ascii_of_nat 10.

Fixpoint getlines (s : string) : list string :=
  match s with
  | EmptyString => []
  | String c s =>
      if decide (c = newline) then EmptyString :: getlines s
      else match getlines s with
           | [] => [String c EmptyString]
           | l :: ls => String c l :: ls
           end
  end.

Definition no_newline (s : string) : bool :=
  forallb (fun c => bool_decide (c <> newline)) (String.list_ascii_of_string s).

Lemma string_app_cons (c : Ascii.ascii) (a b : string) :
  String c a +:+ b = String c (a +:+ b).
Proof. done. Qed.

Lemma string_app_nil_l (b : string) : "" +:+ b = b.
Proof. done. Qed.

Lemma string_app_nil_r (a : string) : a +:+ "" = a.
Proof. induction a as [|x a IH]; [done|]. by rewrite string_app_cons, IH. Qed.

Lemma string_app_assoc (a b c : string) : (a +:+ b) +:+ c = a +:+ b +:+ c.
Proof. induction a as [|x a IH]; [done|]. by rewrite !string_app_cons, IH. Qed.

Lemma getlines_cons (c : Ascii.ascii) (s : string) :
  getlines (String c s) =
    if decide (c = newline) then "" :: getlines s
    else match getlines s with
         | [] => [String c ""]
         | l :: ls => String c l :: ls
         end.
Proof. done. Qed.

Lemma getlines_line (l rest : string) :
  no_newline l = true ->
  getlines (l +:+ String newline rest) = l :: getlines rest.
Proof.
  unfold no_newline. induction l as [|c l IH]; intros H.
  - by rewrite string_app_nil_l, getlines_cons, decide_True.
  - simpl in H. apply andb_true_iff in H as [Hc Hl]. apply bool_decide_eq_true in Hc.
    by rewrite string_app_cons, getlines_cons, decide_False, IH.
Qed.
