(* ===== verification/Clock.v ===== *)
(** * Time sources: [include/tokamak/common/clock.h], [src/common/clock.cpp]

    [TimePoint] and [Duration] are nanosecond counts of [std::int64_t].  The
    abstract [Clock] of the program is the class [Clock] below: reading a clock
    may advance it (a real clock is never read twice at the same instant), so
    [clock_now] returns the clock with the reading.  [FakeClock] is the
    deterministic clock of tests and of the simulation; [SystemClock] is
    parameterised by the readings the operating system will deliver. *)

From S2P Require Import Prelude.

Definition TimePoint : Type := Z.
Definition Duration : Type := Z.

(** The abstract time source. *)
Class Clock (C : Type) := clock_now : C -> TimePoint * C.

(** Time never goes backward: [time] is a lower bound of what the clock will
    read next, and no reading is above the bound that follows it. *)
Class ClockLaws (C : Type) `{!Clock C} := {
  time : C -> TimePoint;
  clock_now_time (c : C) :
    time c <= (clock_now c).1 /\ (clock_now c).1 <= time (clock_now c).2;
}.

(** ** [FakeClock] *)

Record FakeClock := mkFakeClock { current_ : TimePoint }.

(** [FakeClock(TimePoint start = TimePoint{})] *)
Definition fake_start : FakeClock := mkFakeClock 0.

Definition fake_now (c : FakeClock) : TimePoint := current_ c.

(** The [assert] is active in builds without [NDEBUG]; [current_ += d] is a
    signed 64-bit addition. *)
Definition advance (d : Duration) (c : FakeClock) : outcome FakeClock :=
  if d <? 0 then AssertFail "Fake must advance monotonically (non-negative duration"
  else t ← i64_add (current_ c) d; Ok (mkFakeClock t).

#[export] Instance FakeClock_Clock : Clock FakeClock := fun c => (fake_now c, c).

#[export, refine] Instance FakeClock_laws : ClockLaws FakeClock :=
  {| time := current_ |}.
Proof. intros c. simpl. unfold fake_now. lia. Defined.

(** ** [SystemClock]

    [steady n] is what the [n]-th call of [std::chrono::steady_clock::now]
    returns; [reads] counts the calls made so far. *)
Record SystemClock := mkSystemClock { steady : nat -> TimePoint; reads : nat }.

Definition system_now (c : SystemClock) : TimePoint * SystemClock :=
  (steady c (reads c), mkSystemClock (steady c) (S (reads c))).

(** ** Properties *)

Lemma advance_Ok (d : Duration) (c c' : FakeClock) :
  advance d c = Ok c' <->
  0 <= d /\ current_ c' = current_ c + d /\ INT64_MIN <= current_ c + d <= INT64_MAX.
Proof.
  unfold advance. destruct (Z.ltb_spec d 0); [split; [done|lia]|].
  rewrite bind_Ok. setoid_rewrite i64_add_Ok. destruct c, c'; simpl. split.
  - naive_solver.
  - intros (? & -> & ?). eauto.
Qed.

(** Every reading of a [FakeClock] after a successful [advance] is later by
    exactly [d], and [advance] never moves the clock back. *)
Lemma advance_monotone (d : Duration) (c c' : FakeClock) :
  advance d c = Ok c' -> time c <= time c'.
Proof. rewrite advance_Ok. simpl. lia. Qed.
