(* ===== verification/RequestState.v ===== *)
(** * Request states: [enum class RequestState] of [include/tokamak/request/state.h]
    and its predicates in [src/request/state.cpp]

    The ten states, their names, which are terminal and which transitions are
    legal.  [rank] orders the states along the lifecycle; it is not code, it is
    the measure that shows the transition graph has no cycle. *)

From S2P Require Import Prelude.

Inductive RequestState : Set :=
  | kReceived
  | kAdmitted
  | kWaitingPrefill
  | kPrefilling
  | kWaitingDecode
  | kDecoding
  | kCompleted
  | kRejected
  | kCancelled
  | kFailed.

#[export] Instance RequestState_eq_dec : EqDecision RequestState.
Proof. solve_decision. Defined.

(** The enumerators' values ([std::uint8_t], in declaration order). *)
Definition state_index (s : RequestState) : nat :=
  match s with
  | kReceived => 0 | kAdmitted => 1 | kWaitingPrefill => 2 | kPrefilling => 3
  | kWaitingDecode => 4 | kDecoding => 5 | kCompleted => 6 | kRejected => 7
  | kCancelled => 8 | kFailed => 9
  end.

Definition state_of_index (n : nat) : option RequestState :=
  match n with
  | 0 => Some kReceived | 1 => Some kAdmitted | 2 => Some kWaitingPrefill
  | 3 => Some kPrefilling | 4 => Some kWaitingDecode | 5 => Some kDecoding
  | 6 => Some kCompleted | 7 => Some kRejected | 8 => Some kCancelled
  | 9 => Some kFailed | _ => None
  end%nat.

#[export, refine] Instance RequestState_countable : Countable RequestState :=
  inj_countable state_index state_of_index _.
Proof. by intros []. Defined.

(** The [switch] covers every enumerator, so its trailing [panic] is not
    reachable from a value of the enumeration. *)
Definition to_string (state : RequestState) : string :=
  match state with
  | kReceived => "Received"
  | kAdmitted => "Admitted"
  | kWaitingPrefill => "WaitingPrefill"
  | kPrefilling => "Prefilling"
  | kWaitingDecode => "WaitingDecode"
  | kDecoding => "Decoding"
  | kCompleted => "Completed"
  | kRejected => "Rejected"
  | kCancelled => "Cancelled"
  | kFailed => "Failed"
  end.

Definition is_terminal (state : RequestState) : bool :=
  match state with
  | kCompleted | kRejected | kCancelled | kFailed => true
  | _ => false
  end.

Definition is_valid_transition (from to : RequestState) : bool :=
  match from with
  | kReceived =>
      bool_decide (to = kAdmitted) || bool_decide (to = kRejected)
      || bool_decide (to = kCancelled)
  | kAdmitted => bool_decide (to = kWaitingPrefill) || bool_decide (to = kCancelled)
  | kWaitingPrefill => bool_decide (to = kPrefilling) || bool_decide (to = kCancelled)
  | kPrefilling =>
      bool_decide (to = kWaitingDecode) || bool_decide (to = kFailed)
      || bool_decide (to = kCancelled)
  | kWaitingDecode => bool_decide (to = kDecoding) || bool_decide (to = kCancelled)
  | kDecoding =>
      bool_decide (to = kCompleted) || bool_decide (to = kFailed)
      || bool_decide (to = kCancelled)
  | kCompleted | kRejected | kCancelled | kFailed => false
  end.

(** Position along the lifecycle; the four terminal states share the last. *)
Definition rank (s : RequestState) : nat :=
  match s with
  | kReceived => 0 | kAdmitted => 1 | kWaitingPrefill => 2 | kPrefilling => 3
  | kWaitingDecode => 4 | kDecoding => 5
  | kCompleted | kRejected | kCancelled | kFailed => 6
  end.

(** ** Properties *)

Lemma to_string_inj (s1 s2 : RequestState) : to_string s1 = to_string s2 -> s1 = s2.
Proof. by destruct s1, s2. Qed.

Lemma valid_transition_rank (s1 s2 : RequestState) :
  is_valid_transition s1 s2 = true -> (rank s1 < rank s2)%nat.
Proof. destruct s1, s2; vm_compute; (discriminate || lia). Qed.

Lemma valid_transition_not_terminal (s1 s2 : RequestState) :
  is_valid_transition s1 s2 = true -> is_terminal s1 = false.
Proof. by destruct s1. Qed.

Lemma valid_transition_target (s1 s2 : RequestState) :
  is_valid_transition s1 s2 = true -> s2 <> kReceived.
Proof. by destruct s1, s2. Qed.

Lemma terminal_iff_rank (s : RequestState) : is_terminal s = true <-> rank s = 6%nat.
Proof. by destruct s. Qed.

Lemma rank_le (s : RequestState) : (rank s <= 6)%nat.
Proof. destruct s; simpl; lia. Qed.

(** Cancellation has an edge from exactly the states that are not terminal. *)
Lemma cancel_edge (s : RequestState) :
  is_valid_transition s kCancelled = negb (is_terminal s).
Proof. by destruct s. Qed.

(** Rejection has one edge only: an admitted request is never rejected. *)
Lemma only_received_is_rejected (s : RequestState) :
  is_valid_transition s kRejected = true <-> s = kReceived.
Proof. by destruct s. Qed.
