(* ===== verification/RequestLifecycle.v ===== *)
(** * [RequestLifecycle]: [include/tokamak/request/state.h], [src/request/state.cpp]

    One request's state and the instants of its milestones.  The clock is
    shared with the rest of the program, so every operation that reads it
    takes the clock and gives it back.  The invariant [lifecycle_wf] relates
    the recorded instants; every operation preserves it, and the reachable
    lifecycles are exactly those of the step relation [lifecycle_step]. *)

From S2P Require Import Prelude Clock RequestState.

Record RequestLifecycle := mkLifecycle {
  state_ : RequestState;
  entered_at_ : TimePoint;
  admitted_at_ : option TimePoint;
  first_token_at_ : option TimePoint;
  completed_at_ : option TimePoint;
  state_entered_at_ : gmap RequestState TimePoint;
}.

Section Operations.
Context {C : Type} `{!Clock C}.

(** The constructor. *)
Definition new_lifecycle (clock : C) : RequestLifecycle * C :=
  let '(t, clock) := clock_now clock in
  (mkLifecycle kReceived t None None None ∅, clock).

Definition transition_to (to : RequestState) (lc : RequestLifecycle) (clock : C)
  : outcome (RequestLifecycle * C) :=
  if negb (is_valid_transition (state_ lc) to) then
    Panic "illegal request statet transition attempted"
  else
    let '(t, clock) := clock_now clock in
    Ok (mkLifecycle to t
          (match to with kAdmitted => Some t | _ => admitted_at_ lc end)
          (first_token_at_ lc)
          (match to with kCompleted => Some t | _ => completed_at_ lc end)
          (<[to := t]> (state_entered_at_ lc)), clock).

Definition cancel (lc : RequestLifecycle) (clock : C) : outcome (RequestLifecycle * C) :=
  if is_terminal (state_ lc) then Ok (lc, clock)
  else transition_to kCancelled lc clock.

Definition record_first_token (lc : RequestLifecycle) (clock : C)
  : outcome (RequestLifecycle * C) :=
  if negb (bool_decide (state_ lc = kDecoding)) then
    Panic "record_first_token() called outside Decoding state."
  else
    match first_token_at_ lc with
    | Some _ => Ok (lc, clock)
    | None =>
        let '(t, clock) := clock_now clock in
        Ok (mkLifecycle (state_ lc) (entered_at_ lc) (admitted_at_ lc) (Some t)
              (completed_at_ lc) (state_entered_at_ lc), clock)
    end.

End Operations.

(** [entered_at(RequestState)]: [contains] then [at]. *)
Definition entered_at (state : RequestState) (lc : RequestLifecycle) : option TimePoint :=
  state_entered_at_ lc !! state.

(** ** The invariant *)

(** [lifecycle_wf t lc]: what holds of a lifecycle whose clock has reached [t]. *)
Record lifecycle_wf (t : TimePoint) (lc : RequestLifecycle) : Prop := {
  wf_now : entered_at_ lc <= t;
  (** Only the initial state has no entry. *)
  wf_current : state_ lc <> kReceived -> entered_at (state_ lc) lc = Some (entered_at_ lc);
  wf_received : state_ lc = kReceived -> state_entered_at_ lc = ∅;
  (** The two special-cased milestones agree with the per-state history. *)
  wf_admitted : admitted_at_ lc = entered_at kAdmitted lc;
  wf_completed : completed_at_ lc = entered_at kCompleted lc;
  (** A past state is before the current one, in the graph and in time. *)
  wf_past s x : entered_at s lc = Some x ->
    x <= entered_at_ lc /\ (s = state_ lc \/ (rank s < rank (state_ lc))%nat);
  (** Instants follow the lifecycle order. *)
  wf_order s1 s2 x1 x2 : entered_at s1 lc = Some x1 -> entered_at s2 lc = Some x2 ->
    (rank s1 < rank s2)%nat -> x1 <= x2;
  (** Every visited state was entered through a legal edge. *)
  wf_path s x : entered_at s lc = Some x ->
    exists p, is_valid_transition p s = true /\
      (p = kReceived \/ is_Some (entered_at p lc));
  (** The first token falls in the Decoding interval. *)
  wf_first f : first_token_at_ lc = Some f ->
    f <= t /\ (exists d, entered_at kDecoding lc = Some d /\ d <= f) /\
    (state_ lc = kDecoding \/ (is_terminal (state_ lc) = true /\ f <= entered_at_ lc));
}.

(** Nothing that was recorded is rewritten. *)
Definition history_kept (lc lc' : RequestLifecycle) : Prop :=
  (forall s x, entered_at s lc = Some x -> entered_at s lc' = Some x) /\
  (forall x, first_token_at_ lc = Some x -> first_token_at_ lc' = Some x).

#[export] Instance history_kept_preorder : PreOrder history_kept.
Proof. split; [by intros lc|]. intros lc1 lc2 lc3 [] []. split; auto. Qed.

(** The states a lifecycle moves through, with time passing in between. *)
Inductive lifecycle_step {C : Type} `{!Clock C, !ClockLaws C}
  : RequestLifecycle * C -> RequestLifecycle * C -> Prop :=
  | step_transition to lc c lc' c' :
      transition_to to lc c = Ok (lc', c') -> lifecycle_step (lc, c) (lc', c')
  | step_cancel lc c lc' c' :
      cancel lc c = Ok (lc', c') -> lifecycle_step (lc, c) (lc', c')
  | step_first_token lc c lc' c' :
      record_first_token lc c = Ok (lc', c') -> lifecycle_step (lc, c) (lc', c')
  | step_time lc c c' :
      time c <= time c' -> lifecycle_step (lc, c) (lc, c').

Lemma wf_later (t t' : TimePoint) (lc : RequestLifecycle) :
  t <= t' -> lifecycle_wf t lc -> lifecycle_wf t' lc.
Proof.
  intros Ht []. split; try done; [lia|].
  intros f Hf. destruct (wf_first0 f Hf) as (? & ? & ?). naive_solver lia.
Qed.

Section Invariant.
Context {C : Type} `{!Clock C, !ClockLaws C}.
Implicit Types (c : C) (lc : RequestLifecycle).

Lemma clock_read c t c' : clock_now c = (t, c') -> time c <= t /\ t <= time c'.
Proof. intros E. pose proof (clock_now_time c) as H. by rewrite E in H. Qed.

Lemma new_lifecycle_wf c lc c' :
  new_lifecycle c = (lc, c') -> lifecycle_wf (time c') lc /\ time c <= time c'.
Proof.
  unfold new_lifecycle. destruct (clock_now c) as [t c1] eqn:E. intros [= <- <-].
  apply clock_read in E. split; [|lia].
  split; unfold entered_at; simpl; try (done || lia); intros; simplify_map_eq.
Qed.

(** A legal transition enters the target at the instant read from the clock,
    keeps the rest of the history and preserves the invariant. *)
Lemma transition_to_total to lc c :
  is_valid_transition (state_ lc) to = true ->
  exists t c', clock_now c = (t, c') /\
    transition_to to lc c =
      Ok (mkLifecycle to t
            (match to with kAdmitted => Some t | _ => admitted_at_ lc end)
            (first_token_at_ lc)
            (match to with kCompleted => Some t | _ => completed_at_ lc end)
            (<[to := t]> (state_entered_at_ lc)), c').
Proof.
  intros Hv. unfold transition_to. rewrite Hv. simpl.
  destruct (clock_now c) as [t c'] eqn:E. eauto.
Qed.

Lemma transition_to_inv to lc c lc' c' :
  transition_to to lc c = Ok (lc', c') ->
  is_valid_transition (state_ lc) to = true /\
  exists t, clock_now c = (t, c') /\
    lc' = mkLifecycle to t
            (match to with kAdmitted => Some t | _ => admitted_at_ lc end)
            (first_token_at_ lc)
            (match to with kCompleted => Some t | _ => completed_at_ lc end)
            (<[to := t]> (state_entered_at_ lc)).
Proof.
  unfold transition_to. destruct (is_valid_transition (state_ lc) to) eqn:Hv; [|done].
  simpl. destruct (clock_now c) as [t c1] eqn:E. naive_solver.
Qed.

Lemma transition_to_wf to lc c lc' c' :
  lifecycle_wf (time c) lc -> transition_to to lc c = Ok (lc', c') ->
  lifecycle_wf (time c') lc' /\ time c <= time c'.
Proof.
  intros Hwf (Hv & t & Hc & ->)%transition_to_inv.
  apply clock_read in Hc as [Ht1 Ht2]. split; [|lia].
  pose proof (valid_transition_rank _ _ Hv) as Hr.
  pose proof (valid_transition_target _ _ Hv) as Hto.
  pose proof (wf_now _ _ Hwf) as Hnow.
  assert (Hold : forall s x, entered_at s lc = Some x ->
    x <= t /\ (rank s < rank to)%nat).
  { intros s x Hs. destruct (wf_past _ _ Hwf s x Hs) as [? [->|?]]; lia. }
  split; unfold entered_at in *; simpl.
  - done.
  - intros _. apply lookup_insert_eq.
  - intros; subst; done.
  - rewrite (wf_admitted _ _ Hwf). unfold entered_at.
    destruct (decide (to = kAdmitted)) as [->|Hne]; [by rewrite lookup_insert_eq|].
    rewrite lookup_insert_ne by done. by destruct to.
  - rewrite (wf_completed _ _ Hwf). unfold entered_at.
    destruct (decide (to = kCompleted)) as [->|Hne]; [by rewrite lookup_insert_eq|].
    rewrite lookup_insert_ne by done. by destruct to.
  - intros s x [[-> ->]|[? Hs]]%lookup_insert_Some; [auto with lia|].
    destruct (Hold s x Hs). auto.
  - intros s1 s2 x1 x2 [[<- <-]|[? H1]]%lookup_insert_Some
      [[<- <-]|[? H2]]%lookup_insert_Some Hlt.
    + lia.
    + destruct (Hold _ _ H2). lia.
    + by destruct (Hold _ _ H1).
    + by eapply (wf_order _ _ Hwf s1 s2).
  - intros s x [[<- <-]|[? Hs]]%lookup_insert_Some.
    + exists (state_ lc). split; [done|].
      destruct (decide (state_ lc = kReceived)); [by left|right].
      destruct (decide (to = state_ lc)) as [->|]; [rewrite lookup_insert_eq; eauto|].
      rewrite lookup_insert_ne by done.
      pose proof (wf_current _ _ Hwf) as Hcur. unfold entered_at in Hcur.
      rewrite Hcur by done. eauto.
    + destruct (wf_path _ _ Hwf s x Hs) as (p & Hp & Hpv). exists p. split; [done|].
      destruct Hpv as [?|Hsome]; [by left|right]. rewrite lookup_insert_is_Some'. auto.
  - intros f Hf. destruct (wf_first _ _ Hwf f Hf) as (Hft & (d & Hd & Hdf) & Hst).
    destruct Hst as [Hst|[Hst _]].
    2:{ apply valid_transition_not_terminal in Hv. congruence. }
    split; [lia|]. split.
    + exists d. split; [|done]. rewrite lookup_insert_ne; [done|].
      intros ->. rewrite Hst in Hv. done.
    + right. rewrite Hst in Hv. split; [|lia]. by destruct to.
Qed.

Lemma record_first_token_total lc c :
  state_ lc = kDecoding -> exists lc' c', record_first_token lc c = Ok (lc', c').
Proof.
  intros Hs. unfold record_first_token. rewrite bool_decide_true by done. simpl.
  destruct (first_token_at_ lc), (clock_now c); eauto.
Qed.

Lemma record_first_token_inv lc c lc' c' :
  record_first_token lc c = Ok (lc', c') ->
  state_ lc = kDecoding /\
  ((lc' = lc /\ c' = c /\ is_Some (first_token_at_ lc)) \/
   first_token_at_ lc = None /\ exists t, clock_now c = (t, c') /\
     lc' = mkLifecycle (state_ lc) (entered_at_ lc) (admitted_at_ lc) (Some t)
             (completed_at_ lc) (state_entered_at_ lc)).
Proof.
  unfold record_first_token. case_bool_decide; [|done]. simpl.
  destruct (first_token_at_ lc); [naive_solver|].
  destruct (clock_now c) as [t c1]. intros [= <- <-]. eauto 10.
Qed.

Lemma record_first_token_wf lc c lc' c' :
  lifecycle_wf (time c) lc -> record_first_token lc c = Ok (lc', c') ->
  lifecycle_wf (time c') lc' /\ time c <= time c'.
Proof.
  intros Hwf [Hst [(-> & -> & _)|(Hn & t & Hc & ->)]]%record_first_token_inv.
  { split; [done|lia]. }
  apply clock_read in Hc as [Ht1 Ht2]. split; [|lia].
  assert (Htt : time c <= time c') by lia.
  pose proof (wf_later _ _ lc Htt Hwf) as [].
  split; unfold entered_at in *; simpl in *; try done.
  intros f [= <-]. split; [done|]. rewrite Hst in *. split; [|by left].
  exists (entered_at_ lc). pose proof (wf_now _ _ Hwf). split; [auto|lia].
Qed.

(** A transition enters a state that was not visited before. *)
Lemma transition_to_kept to lc c lc' c' :
  lifecycle_wf (time c) lc -> transition_to to lc c = Ok (lc', c') -> history_kept lc lc'.
Proof.
  intros Hwf (Hv & t & _ & ->)%transition_to_inv. split; [|done].
  intros s x Hs. unfold entered_at. simpl. rewrite lookup_insert_ne; [done|]. intros <-.
  pose proof (valid_transition_rank _ _ Hv). destruct (wf_past _ _ Hwf _ _ Hs) as [_ [Heq|]]; [|lia].
  rewrite Heq in *. lia.
Qed.

Lemma record_first_token_kept lc c lc' c' :
  record_first_token lc c = Ok (lc', c') -> history_kept lc lc'.
Proof.
  intros [_ [(-> & _)|(Hn & t & _ & ->)]]%record_first_token_inv; [done|].
  split; [done|]. intros x Hx. congruence.
Qed.

Lemma cancel_total lc c : exists lc' c', cancel lc c = Ok (lc', c').
Proof.
  unfold cancel. destruct (is_terminal (state_ lc)) eqn:E; [eauto|].
  destruct (transition_to_total kCancelled lc c) as (t & c' & _ & ->); [|eauto].
  by rewrite cancel_edge, E.
Qed.

Lemma cancel_wf lc c lc' c' :
  lifecycle_wf (time c) lc -> cancel lc c = Ok (lc', c') ->
  lifecycle_wf (time c') lc' /\ time c <= time c'.
Proof.
  unfold cancel. intros Hwf. destruct (is_terminal (state_ lc)).
  - intros [= <- <-]. split; [done|lia].
  - by apply transition_to_wf.
Qed.

Lemma lifecycle_step_wf lc c lc' c' :
  lifecycle_step (lc, c) (lc', c') ->
  lifecycle_wf (time c) lc -> lifecycle_wf (time c') lc' /\ time c <= time c'.
Proof.
  inversion 1; subst; intros Hwf;
    [by eapply transition_to_wf|by eapply cancel_wf|by eapply record_first_token_wf|].
  split; [by eapply wf_later|done].
Qed.

End Invariant.

(** ** Properties *)

Section Reachable.
Context {C : Type} `{!Clock C, !ClockLaws C}.
Implicit Types (c : C) (lc : RequestLifecycle).

(** Lifecycles reachable from the constructor. *)
Definition reachable lc c : Prop :=
  exists c0 lc1 c1, new_lifecycle c0 = (lc1, c1) /\ rtc lifecycle_step (lc1, c1) (lc, c).

Lemma steps_wf x y :
  rtc lifecycle_step x y -> lifecycle_wf (time x.2) x.1 ->
  lifecycle_wf (time y.2) y.1 /\ time x.2 <= time y.2.
Proof.
  induction 1 as [x|[lc1 c1] [lc2 c2] y Hstep Hrest IH]; intros Hwf; [split; [done|lia]|].
  destruct (lifecycle_step_wf _ _ _ _ Hstep Hwf) as [Hwf2 Ht]. simpl in *.
  destruct (IH Hwf2). split; [done|lia].
Qed.

Lemma reachable_wf lc c : reachable lc c -> lifecycle_wf (time c) lc.
Proof.
  intros (c0 & lc1 & c1 & Hnew & Hsteps). apply new_lifecycle_wf in Hnew as [Hwf _].
  by apply (steps_wf _ _ Hsteps).
Qed.

Lemma entered_terminal t lc s x :
  lifecycle_wf t lc -> is_terminal s = true -> entered_at s lc = Some x ->
  state_ lc = s /\ entered_at_ lc = x.
Proof.
  intros Hwf Hs Hx. destruct (wf_past _ _ Hwf s x Hx) as [_ [Heq|Hlt]].
  - split; [done|]. pose proof (wf_current _ _ Hwf) as Hcur. rewrite <- Heq, Hx in Hcur.
    assert (s <> kReceived) by (by intros ->). naive_solver.
  - apply terminal_iff_rank in Hs. pose proof (rank_le (state_ lc)). lia.
Qed.

(** A visited state of the main path has all its predecessors visited. *)
Lemma entered_main_path t lc :
  lifecycle_wf t lc -> is_Some (entered_at kCompleted lc) ->
  is_Some (entered_at kDecoding lc) /\ is_Some (entered_at kWaitingDecode lc) /\
  is_Some (entered_at kPrefilling lc) /\ is_Some (entered_at kWaitingPrefill lc) /\
  is_Some (entered_at kAdmitted lc).
Proof.
  intros Hwf H.
  assert (Hback : forall s, is_Some (entered_at s lc) ->
    exists p, is_valid_transition p s = true /\ (p = kReceived \/ is_Some (entered_at p lc))).
  { intros s [x Hx]. by eapply wf_path. }
  assert (H5 : is_Some (entered_at kDecoding lc))
    by (destruct (Hback _ H) as ([] & ? & [?|?]); done).
  assert (H4 : is_Some (entered_at kWaitingDecode lc))
    by (destruct (Hback _ H5) as ([] & ? & [?|?]); done).
  assert (H3 : is_Some (entered_at kPrefilling lc))
    by (destruct (Hback _ H4) as ([] & ? & [?|?]); done).
  assert (H2 : is_Some (entered_at kWaitingPrefill lc))
    by (destruct (Hback _ H3) as ([] & ? & [?|?]); done).
  assert (H1 : is_Some (entered_at kAdmitted lc))
    by (destruct (Hback _ H2) as ([] & ? & [?|?]); done).
  done.
Qed.

Lemma first_after_admitted t lc a f :
  lifecycle_wf t lc -> admitted_at_ lc = Some a -> first_token_at_ lc = Some f -> a <= f.
Proof.
  intros Hwf Ha Hf. rewrite (wf_admitted _ _ Hwf) in Ha.
  destruct (wf_first _ _ Hwf f Hf) as (_ & (d & Hd & Hdf) & _).
  assert (a <= d) by (eapply (wf_order _ _ Hwf kAdmitted kDecoding); eauto; simpl; lia). lia.
Qed.

Lemma completed_after_first t lc f d :
  lifecycle_wf t lc -> first_token_at_ lc = Some f -> completed_at_ lc = Some d -> f <= d.
Proof.
  intros Hwf Hf Hd. rewrite (wf_completed _ _ Hwf) in Hd.
  destruct (entered_terminal _ _ kCompleted _ Hwf eq_refl Hd) as [Hst <-].
  destruct (wf_first _ _ Hwf f Hf) as (_ & _ & [?|[_ ?]]); [congruence|done].
Qed.

Lemma completed_after_admitted t lc a d :
  lifecycle_wf t lc -> admitted_at_ lc = Some a -> completed_at_ lc = Some d -> a <= d.
Proof.
  intros Hwf Ha Hd. rewrite (wf_admitted _ _ Hwf) in Ha. rewrite (wf_completed _ _ Hwf) in Hd.
  eapply (wf_order _ _ Hwf kAdmitted kCompleted); eauto. simpl. lia.
Qed.

(** C26. On every reachable lifecycle, whatever the clock and the order of
    operations, the milestones are ordered (admitted, then first token, then
    completed), and a completed lifecycle went through every state of the main
    path, at instants that follow its order. *)
Theorem lifecycle_milestones_ordered lc c :
  reachable lc c ->
  (forall a f, admitted_at_ lc = Some a -> first_token_at_ lc = Some f -> a <= f) /\
  (forall f d, first_token_at_ lc = Some f -> completed_at_ lc = Some d -> f <= d) /\
  (forall d, completed_at_ lc = Some d ->
     state_ lc = kCompleted /\
     exists a wp p wd dc, admitted_at_ lc = Some a /\
       entered_at kWaitingPrefill lc = Some wp /\ entered_at kPrefilling lc = Some p /\
       entered_at kWaitingDecode lc = Some wd /\ entered_at kDecoding lc = Some dc /\
       a <= wp <= p /\ p <= wd <= dc /\ dc <= d <= time c).
Proof.
  intros Hwf%reachable_wf. split; [|split].
  - intros a f. by eapply first_after_admitted.
  - intros f d. by eapply completed_after_first.
  - intros d Hd. pose proof (wf_admitted _ _ Hwf) as Ha.
    rewrite (wf_completed _ _ Hwf) in Hd.
    destruct (entered_terminal _ _ kCompleted _ Hwf eq_refl Hd) as [Hst He]. split; [done|].
    destruct (entered_main_path _ _ Hwf) as ([dc H5] & [wd H4] & [p H3] & [wp H2] & [a H1]);
      [eauto|].
    exists a, wp, p, wd, dc. rewrite Ha. pose proof (wf_now _ _ Hwf). split_and!; try done;
      try (eapply (wf_order _ _ Hwf); [eassumption|eassumption|simpl; lia]). lia.
Qed.

(** C27. Terminal states are final: no sequence of operations moves a reachable
    terminal lifecycle or records a token on it, every transition and token
    is refused by a panic, and [cancel] returns it unchanged (idempotence). *)
Theorem lifecycle_terminal_absorbing lc c lc' c' :
  is_terminal (state_ lc) = true -> rtc lifecycle_step (lc, c) (lc', c') ->
  lc' = lc /\ cancel lc' c' = Ok (lc', c') /\
  (forall to, transition_to to lc' c' = Panic "illegal request statet transition attempted") /\
  record_first_token lc' c' = Panic "record_first_token() called outside Decoding state.".
Proof.
  intros Hterm Hsteps. remember (lc, c) as x eqn:Ex. remember (lc', c') as y eqn:Ey.
  assert (Hid : lc' = lc).
  { revert lc c Hterm Ex Ey.
    induction Hsteps as [x|x y z Hstep Hrest IH]; intros lc c Hterm -> Ey; [congruence|].
    inversion Hstep as [to l1 c1 l2 c2 Hop|l1 c1 l2 c2 Hop|l1 c1 l2 c2 Hop|l1 c1 c2 Hop]; subst.
    - apply transition_to_inv in Hop as (Hv & _).
      apply valid_transition_not_terminal in Hv. congruence.
    - unfold cancel in Hop. rewrite Hterm in Hop. injection Hop as <- <-. eauto.
    - apply record_first_token_inv in Hop as [Hst _]. rewrite Hst in Hterm; discriminate.
    - by apply (IH lc c2). }
  subst lc'. split; [done|]. unfold cancel, transition_to, record_first_token. rewrite Hterm.
  split; [by rewrite Ey|]. split.
  - intros to. destruct (is_valid_transition (state_ lc) to) eqn:Hv; [|done].
    apply valid_transition_not_terminal in Hv. congruence.
  - by destruct (state_ lc).
Qed.

End Reachable.

(** A run of one request on a [FakeClock] that ticks between the steps. *)
Definition demo_run : outcome (RequestLifecycle * FakeClock) :=
  let '(lc, c) := new_lifecycle fake_start in
  '(lc, c) ← transition_to kAdmitted lc c;
  '(lc, c) ← transition_to kWaitingPrefill lc c;
  c ← advance 3 c;
  '(lc, c) ← transition_to kPrefilling lc c;
  '(lc, c) ← transition_to kWaitingDecode lc c;
  '(lc, c) ← transition_to kDecoding lc c;
  c ← advance 5 c;
  '(lc, c) ← record_first_token lc c;
  transition_to kCompleted lc c.

Definition demo_lifecycle : RequestLifecycle :=
  mkLifecycle kCompleted 8 (Some 0) (Some 8) (Some 8)
    (list_to_map [(kAdmitted, 0); (kWaitingPrefill, 0); (kPrefilling, 3);
                  (kWaitingDecode, 3); (kDecoding, 3); (kCompleted, 8)]).

Lemma demo_run_result : demo_run = Ok (demo_lifecycle, mkFakeClock 8).
Proof. vm_compute. reflexivity. Qed.

Lemma demo_reachable : reachable demo_lifecycle (mkFakeClock 8).
Proof.
  exists fake_start, (mkLifecycle kReceived 0 None None None ∅), fake_start.
  split; [reflexivity|].
  eapply rtc_l; [eapply (step_transition kAdmitted); reflexivity|].
  eapply rtc_l; [eapply (step_transition kWaitingPrefill); reflexivity|].
  eapply rtc_l; [eapply (step_time _ _ (mkFakeClock 3)); vm_compute; discriminate|].
  eapply rtc_l; [eapply (step_transition kPrefilling); reflexivity|].
  eapply rtc_l; [eapply (step_transition kWaitingDecode); reflexivity|].
  eapply rtc_l; [eapply (step_transition kDecoding); reflexivity|].
  eapply rtc_l; [eapply (step_time _ _ (mkFakeClock 8)); vm_compute; discriminate|].
  eapply rtc_l; [eapply step_first_token; reflexivity|].
  eapply rtc_l; [eapply (step_transition kCompleted); reflexivity|].
  apply rtc_refl.
Qed.

Lemma lifecycle_milestones_ordered_witness :
  reachable demo_lifecycle (mkFakeClock 8) /\ completed_at_ demo_lifecycle = Some 8 /\
  0 <= 8 /\ state_ demo_lifecycle = kCompleted.
Proof.
  split; [exact demo_reachable|]. split; [reflexivity|].
  pose proof (lifecycle_milestones_ordered _ _ demo_reachable) as (_ & H & Hd).
  split; [discriminate|]. apply (Hd 8). reflexivity.
Defined.

Lemma lifecycle_terminal_absorbing_witness :
  rtc lifecycle_step (demo_lifecycle, mkFakeClock 8) (demo_lifecycle, mkFakeClock 12) /\
  cancel demo_lifecycle (mkFakeClock 12) = Ok (demo_lifecycle, mkFakeClock 12).
Proof.
  assert (Hs : rtc lifecycle_step (demo_lifecycle, mkFakeClock 8)
                 (demo_lifecycle, mkFakeClock 12)).
  { apply rtc_once, step_time. vm_compute. discriminate. }
  split; [exact Hs|].
  apply (lifecycle_terminal_absorbing demo_lifecycle (mkFakeClock 8) demo_lifecycle); [reflexivity|exact Hs].
Defined.
