(* ===== verification/Request.v ===== *)
(** * [Request]: [include/tokamak/request/request.h], [src/request/request.cpp]

    A client request: its lifecycle, its deadline (fixed at construction), its
    output budget and the tokens emitted so far.  [request_wf] bounds the
    output by the budget and ties the counter to the tokens. *)

From S2P Require Import Prelude Clock RequestState RequestLifecycle.

Abbreviation RequestId := string.

Record Request := mkRequest {
  id_ : RequestId;
  lifecycle_ : RequestLifecycle;
  deadline_at_ : TimePoint;
  max_output_tokens_ : Z;        (** [std::size_t] *)
  output_tokens_emitted_ : Z;    (** [std::size_t] *)
  prompt_token_ids_ : list Z;    (** [std::uint32_t] *)
  priority_ : Z;                 (** [int] *)
  output_token_ids_ : list Z;    (** [std::uint32_t] *)
}.

Definition set_lifecycle (lc : RequestLifecycle) (r : Request) : Request :=
  mkRequest (id_ r) lc (deadline_at_ r) (max_output_tokens_ r)
    (output_tokens_emitted_ r) (prompt_token_ids_ r) (priority_ r) (output_token_ids_ r).

Definition req_state (r : Request) : RequestState := state_ (lifecycle_ r).

Section Operations.
Context {C : Type} `{!Clock C}.

(** The constructor with a prompt.  Members are initialised in declaration
    order: the lifecycle reads the clock first, the deadline reads it again. *)
Definition new_request (id : RequestId) (deadline_from_now : Duration)
    (max_output_tokens : Z) (prompt_token_ids : list Z) (priority : Z) (clock : C)
  : outcome (Request * C) :=
  let '(lc, clock) := new_lifecycle clock in
  let '(t, clock) := clock_now clock in
  deadline_at ← i64_add t deadline_from_now;
  Ok (mkRequest id lc deadline_at max_output_tokens 0 prompt_token_ids priority [], clock).

(** The constructor without one. *)
Definition new_request_no_prompt (id : RequestId) (deadline_from_now : Duration)
    (max_output_tokens : Z) (priority : Z) (clock : C) : outcome (Request * C) :=
  let '(lc, clock) := new_lifecycle clock in
  let '(t, clock) := clock_now clock in
  deadline_at ← i64_add t deadline_from_now;
  Ok (mkRequest id lc deadline_at max_output_tokens 0 [] priority [], clock).

Definition emit_token (token_id : Z) (r : Request) (clock : C) : outcome (Request * C) :=
  '(lc, clock) ← record_first_token (lifecycle_ r) clock;
  if max_output_tokens_ r <=? output_tokens_emitted_ r then
    Panic "emit_token() called after max_output_tokens already reached"
  else
    Ok (mkRequest (id_ r) lc (deadline_at_ r) (max_output_tokens_ r)
          (u64 (output_tokens_emitted_ r + 1)) (prompt_token_ids_ r) (priority_ r)
          (output_token_ids_ r ++ [token_id]), clock).

End Operations.

Lemma req_state_set (lc : RequestLifecycle) (r : Request) :
  req_state (set_lifecycle lc r) = state_ lc.
Proof. done. Qed.

(** ** The invariant *)

Record request_wf (t : TimePoint) (r : Request) : Prop := {
  req_lifecycle : lifecycle_wf t (lifecycle_ r);
  req_budget : 0 <= output_tokens_emitted_ r <= max_output_tokens_ r;
  req_max : max_output_tokens_ r < 2 ^ 64;
  req_output : size_of (output_token_ids_ r) = output_tokens_emitted_ r;
  (** Output implies a first token, and a first token implies output. *)
  req_first : 0 < output_tokens_emitted_ r <-> is_Some (first_token_at_ (lifecycle_ r));
}.

Lemma request_wf_later (t t' : TimePoint) (r : Request) :
  t <= t' -> request_wf t r -> request_wf t' r.
Proof. intros Ht []. split; try done. by eapply wf_later. Qed.

Section Invariant.
Context {C : Type} `{!Clock C, !ClockLaws C}.
Implicit Types (c : C) (r : Request).

Lemma new_request_Ok id d m p pr c r c' :
  new_request id d m p pr c = Ok (r, c') ->
  id_ r = id /\ req_state r = kReceived /\ max_output_tokens_ r = m /\
  output_tokens_emitted_ r = 0 /\ prompt_token_ids_ r = p /\ output_token_ids_ r = [] /\
  time c <= time c' /\ time c + d <= deadline_at_ r <= time c' + d.
Proof.
  unfold new_request, new_lifecycle. destruct (clock_now c) as [t1 c1] eqn:E1.
  destruct (clock_now c1) as [t2 c2] eqn:E2. intros H. inv_ok.
  apply clock_read in E1, E2. apply i64_add_Ok in H as [-> ?]. simpl.
  repeat split; lia.
Qed.

Lemma new_request_wf id d m p pr c r c' :
  0 <= m < 2 ^ 64 -> new_request id d m p pr c = Ok (r, c') ->
  request_wf (time c') r.
Proof.
  intros Hm. unfold new_request. destruct (new_lifecycle c) as [lc c1] eqn:E1.
  destruct (clock_now c1) as [t2 c2] eqn:E2. intros H. inv_ok.
  pose proof (new_lifecycle_wf _ _ _ E1) as [Hwf Ht].
  apply clock_read in E2.
  assert (Htt : time c1 <= time c') by lia.
  split; simpl; try (done || lia); [by eapply wf_later|].
  unfold new_lifecycle in E1. destruct (clock_now c); injection E1 as <- <-. simpl.
  split; [lia|]. by intros [? ?].
Qed.

Lemma set_lifecycle_wf t r lc :
  request_wf t r -> lifecycle_wf t lc ->
  first_token_at_ lc = first_token_at_ (lifecycle_ r) -> request_wf t (set_lifecycle lc r).
Proof. intros [] ? E. split; simpl; try done. by rewrite E. Qed.

Lemma emit_token_total tok r c :
  req_state r = kDecoding -> output_tokens_emitted_ r < max_output_tokens_ r ->
  exists r' c', emit_token tok r c = Ok (r', c').
Proof.
  intros Hs Hlt. unfold emit_token.
  destruct (record_first_token_total (lifecycle_ r) c Hs) as (lc & c' & ->). simpl.
  destruct (Z.leb_spec (max_output_tokens_ r) (output_tokens_emitted_ r)); [lia|]. eauto.
Qed.

(** Every successful [emit_token] appends exactly the token, leaves the state
    and the identity alone, and keeps the counter from wrapping. *)
Lemma emit_token_spec tok r c r' c' :
  request_wf (time c) r -> emit_token tok r c = Ok (r', c') ->
  request_wf (time c') r' /\ time c <= time c' /\
  req_state r = kDecoding /\ req_state r' = kDecoding /\ id_ r' = id_ r /\
  deadline_at_ r' = deadline_at_ r /\ max_output_tokens_ r' = max_output_tokens_ r /\
  prompt_token_ids_ r' = prompt_token_ids_ r /\
  output_tokens_emitted_ r' = output_tokens_emitted_ r + 1 /\
  output_token_ids_ r' = output_token_ids_ r ++ [tok] /\
  history_kept (lifecycle_ r) (lifecycle_ r').
Proof.
  intros Hwf. unfold emit_token. intros H. inv_ok.
  destruct (Z.leb_spec (max_output_tokens_ r) (output_tokens_emitted_ r)) as [|Hlt]; [done|].
  inv_ok. rename H into Hf.
  pose proof (record_first_token_wf _ _ _ _ (req_lifecycle _ _ Hwf) Hf) as [Hlc Ht].
  apply record_first_token_kept in Hf as Hkept.
  apply record_first_token_inv in Hf as [Hst Hf]. destruct Hwf.
  assert (Hu : u64 (output_tokens_emitted_ r + 1) = output_tokens_emitted_ r + 1)
    by (apply u64_small; lia).
  rewrite Hu. split; [|split; [done|]].
  - split; simpl; try (done || lia).
    + rewrite size_of_app, req_output0. done.
    + split; [intros _|lia].
      destruct Hf as [(-> & _ & ?)|(_ & t & _ & ->)]; [done|simpl; eauto].
  - unfold req_state in *. simpl. split_and!; auto.
    destruct Hf as [(-> & _)|(_ & t & _ & ->)]; done.
Qed.

End Invariant.

(** ** Properties *)

Section Properties.
Context {C : Type} `{!Clock C, !ClockLaws C}.
Implicit Types (c : C) (r : Request).

(** [emit_token] on every branch, for a well-formed request: outside
    Decoding and past the budget it panics; otherwise it appends exactly the
    given token, counts it without wrapping, stays within the budget, and
    records the first-token instant on the first token only. *)
Theorem emit_token_cases tok r c :
  request_wf (time c) r ->
  (req_state r <> kDecoding ->
     emit_token tok r c = Panic "record_first_token() called outside Decoding state.") /\
  (req_state r = kDecoding -> max_output_tokens_ r <= output_tokens_emitted_ r ->
     emit_token tok r c = Panic "emit_token() called after max_output_tokens already reached") /\
  (req_state r = kDecoding -> output_tokens_emitted_ r < max_output_tokens_ r ->
     exists r' c', emit_token tok r c = Ok (r', c') /\ request_wf (time c') r' /\
       output_token_ids_ r' = output_token_ids_ r ++ [tok] /\
       output_tokens_emitted_ r' = output_tokens_emitted_ r + 1 /\
       output_tokens_emitted_ r' <= max_output_tokens_ r' /\
       req_state r' = kDecoding /\ deadline_at_ r' = deadline_at_ r /\
       (forall f, first_token_at_ (lifecycle_ r) = Some f ->
          first_token_at_ (lifecycle_ r') = Some f)).
Proof.
  intros Hwf. split; [|split].
  - intros Hst. unfold emit_token, record_first_token.
    by rewrite bool_decide_false by exact Hst.
  - intros Hst Hle. unfold emit_token.
    destruct (record_first_token_total (lifecycle_ r) c Hst) as (lc & c' & ->). simpl.
    by destruct (Z.leb_spec (max_output_tokens_ r) (output_tokens_emitted_ r)); [|lia].
  - intros Hst Hlt. destruct (emit_token_total tok r c Hst Hlt) as (r' & c' & E).
    pose proof (emit_token_spec _ _ _ _ _ Hwf E) as (Hwf' & _ & _ & Hst' & _ & Hd & Hm & _ & He & Ho & _).
    exists r', c'. split_and!; try done; [by apply (req_budget _ _ Hwf')|].
    intros f Hf. unfold emit_token, record_first_token in E. rewrite Hf in E.
    destruct (bool_decide _); [|done]. simpl in E.
    destruct (max_output_tokens_ r <=? output_tokens_emitted_ r); [done|]. by inv_ok.
Qed.

(** A new request is well formed, in state Received, with no output, and
    its deadline is fixed at construction at the given distance from the
    instants read there. *)
Theorem new_request_spec id d m prompt priority c r c' :
  0 <= m < 2 ^ 64 -> new_request id d m prompt priority c = Ok (r, c') ->
  request_wf (time c') r /\ id_ r = id /\ req_state r = kReceived /\
  max_output_tokens_ r = m /\ output_token_ids_ r = [] /\ prompt_token_ids_ r = prompt /\
  time c + d <= deadline_at_ r <= time c' + d /\ first_token_at_ (lifecycle_ r) = None.
Proof.
  intros Hm E. pose proof (new_request_wf _ _ _ _ _ _ _ _ Hm E) as Hwf.
  pose proof (new_request_Ok _ _ _ _ _ _ _ _ E) as (? & ? & ? & He & ? & ? & ? & ?).
  split_and!; try done; try lia.
  destruct (first_token_at_ (lifecycle_ r)) eqn:Hf; [|done].
  assert (0 < output_tokens_emitted_ r) by (apply (req_first _ _ Hwf); rewrite Hf; eauto). lia.
Qed.

End Properties.

Definition decoding_request : Request :=
  mkRequest "a"
    (mkLifecycle kDecoding 3 (Some 0) None None
       (list_to_map [(kAdmitted, 0); (kWaitingPrefill, 0); (kPrefilling, 3);
                     (kWaitingDecode, 3); (kDecoding, 3)]))
    100 2 0 [7] 0 [].

Lemma decoding_request_wf : request_wf (time (mkFakeClock 5)) decoding_request.
Proof.
  split; simpl; try done.
  - change 5 with (time (mkFakeClock 5)). apply reachable_wf.
    exists fake_start, (mkLifecycle kReceived 0 None None None ∅), fake_start.
    split; [reflexivity|].
    eapply rtc_l; [eapply (step_transition kAdmitted); reflexivity|].
    eapply rtc_l; [eapply (step_transition kWaitingPrefill); reflexivity|].
    eapply rtc_l; [eapply (step_time _ _ (mkFakeClock 3)); vm_compute; discriminate|].
    eapply rtc_l; [eapply (step_transition kPrefilling); reflexivity|].
    eapply rtc_l; [eapply (step_transition kWaitingDecode); reflexivity|].
    eapply rtc_l; [eapply (step_transition kDecoding); reflexivity|].
    eapply rtc_l; [eapply (step_time _ _ (mkFakeClock 5)); vm_compute; discriminate|].
    apply rtc_refl.
Qed.

Lemma emit_token_cases_witness :
  exists r' c', emit_token 9 decoding_request (mkFakeClock 5) = Ok (r', c') /\
    output_token_ids_ r' = [9] /\ output_tokens_emitted_ r' = 1.
Proof.
  destruct (emit_token_cases 9 decoding_request (mkFakeClock 5) decoding_request_wf)
    as (_ & _ & H).
  destruct (H eq_refl eq_refl) as (r' & c' & E & _ & Ho & He & _).
  exists r', c'. exact (conj E (conj Ho He)).
Defined.

Lemma new_request_spec_witness :
  let r := mkRequest "a" (mkLifecycle kReceived 5 None None None ∅) 105 2 0 [7] 0 [] in
  request_wf (time (mkFakeClock 5)) r /\ deadline_at_ r = 105.
Proof.
  intros r. assert (E : new_request "a" 100 2 [7] 0 (mkFakeClock 5) = Ok (r, mkFakeClock 5))
    by reflexivity.
  split; [|reflexivity].
  exact (proj1 (new_request_spec "a" 100 2 [7] 0 (mkFakeClock 5) r (mkFakeClock 5) ltac:(lia) E)).
Defined.
