(* ===== verification/Backend.v ===== *)
(** * The backend boundary: [include/tokamak/backend/backend.h], [error.h],
    [src/backend/error.cpp]

    The data exchanged with a backend and the interface [InferenceBackend].
    A backend and the clock it shares with the scheduler live in one
    environment [W]; the virtual methods take and return it.

    [BackendContract] is what the scheduler relies on: the sequences the
    backend holds ([live]), that a prefill mints distinct fresh handles for
    the successful requests and one outcome per request, that a decode answers
    one outcome per live handle and that a release frees exactly the handle
    given.  [fits] and [fits_decode] are a backend's own preconditions (for the
    simulated backend, that its clock stays in range). *)

From S2P Require Import Prelude Clock.

Inductive BackendErrorCategory : Set :=
  | kInvalidRequest
  | kOutOfMemory
  | kInvalidState
  | kUnavailable.

Definition category_to_string (category : BackendErrorCategory) : string :=
  match category with
  | kInvalidRequest => "Invalid Request"
  | kOutOfMemory => "Out of Memory"
  | kInvalidState => "Invalid State"
  | kUnavailable => "Unavailable"
  end.

Record BackendError := mkBackendError {
  category : BackendErrorCategory;
  message : string;
}.

Record BackendCapabilities := mkCapabilities {
  supports_continuous_batching : bool;
  supports_prefix_sharing : bool;
  supports_kv_export : bool;
  max_context_tokens : Z;
}.

Record TokenizedPrompt := mkTokenizedPrompt { token_ids : list Z }.

(** [SequenceHandle]: an opaque [std::uint64_t]. *)
Record SequenceHandle := mkHandle { handle_id : Z }.

#[export] Instance SequenceHandle_eq_dec : EqDecision SequenceHandle.
Proof. solve_decision. Defined.

(** [std::expected<T, BackendError>] *)
Inductive expected (T : Type) : Type :=
  | Value (v : T)
  | Unexpected (e : BackendError).
Arguments Value {T} v.
Arguments Unexpected {T} e.

Record PrefillRequest := mkPrefillRequest { prompt : TokenizedPrompt }.
Record PrefillBatch := mkPrefillBatch { prefill_sequences : list PrefillRequest }.
Record PrefillOutcome := mkPrefillOutcome { outcome_handle : SequenceHandle }.
Record PrefillResult := mkPrefillResult {
  prefill_outcomes : list (expected PrefillOutcome);
}.

Record DecodeRequest := mkDecodeRequest { request_handle : SequenceHandle }.
Record DecodeBatch := mkDecodeBatch { decode_sequences : list DecodeRequest }.
Record DecodedToken := mkDecodedToken { token_id : Z; finished : bool }.
Record DecodeResult := mkDecodeResult {
  decode_outcomes : list (expected DecodedToken);
}.

(** The virtual methods. *)
Class InferenceBackend (W : Type) := {
  capabilities : W -> BackendCapabilities;
  tokenize : string -> W -> TokenizedPrompt * W;
  prefill : PrefillBatch -> W -> outcome (PrefillResult * W);
  decode : DecodeBatch -> W -> outcome (DecodeResult * W);
  release : SequenceHandle -> W -> outcome W;
}.

(** The handles a list of prefill outcomes mints, in batch order. *)
Definition minted_handle (o : expected PrefillOutcome) : option Z :=
  match o with Value v => Some (handle_id (outcome_handle v)) | Unexpected _ => None end.

Definition minted (outcomes : list (expected PrefillOutcome)) : list Z :=
  omap minted_handle outcomes.
Arguments minted : simpl never.

(** The number of prompt tokens of a batch, request by request. *)
Definition prompt_sizes (b : PrefillBatch) : list Z :=
  (fun r => size_of (token_ids (prompt r))) <$> prefill_sequences b.
Arguments prompt_sizes : simpl never.

Class BackendContract (W : Type) `{!Clock W, !ClockLaws W, !InferenceBackend W} := {
  live : W -> gset Z;
  fits : PrefillBatch -> W -> Prop;
  fits_decode : W -> Prop;

  prefill_contract b w : fits b w ->
    exists r w', prefill b w = Ok (r, w') /\
      length (prefill_outcomes r) = length (prefill_sequences b) /\
      NoDup (minted (prefill_outcomes r)) /\
      (forall h, h ∈ minted (prefill_outcomes r) -> h ∉ live w) /\
      live w' = live w ∪ list_to_set (minted (prefill_outcomes r)) /\
      fits_decode w' /\ time w <= time w';

  decode_contract b w : fits_decode w ->
    (forall r, r ∈ decode_sequences b -> handle_id (request_handle r) ∈ live w) ->
    exists r w', decode b w = Ok (r, w') /\
      length (decode_outcomes r) = length (decode_sequences b) /\
      live w' = live w /\ time w <= time w';

  release_contract h w : handle_id h ∈ live w ->
    exists w', release h w = Ok w' /\
      live w' = live w ∖ {[handle_id h]} /\ time w <= time w' /\
      (forall b, fits b w -> fits b w') /\ (fits_decode w -> fits_decode w');

  clock_contract w t w' : clock_now w = (t, w') ->
    live w' = live w /\
    (forall b, fits b w -> fits b w') /\ (fits_decode w -> fits_decode w');
}.

Lemma category_to_string_inj (c1 c2 : BackendErrorCategory) :
  category_to_string c1 = category_to_string c2 -> c1 = c2.
Proof. by destruct c1, c2. Qed.

Lemma minted_cons_value (v : PrefillOutcome) (l : list (expected PrefillOutcome)) :
  minted (Value v :: l) = handle_id (outcome_handle v) :: minted l.
Proof. done. Qed.

Lemma minted_cons_unexpected (e : BackendError) (l : list (expected PrefillOutcome)) :
  minted (Unexpected e :: l) = minted l.
Proof. done. Qed.

Lemma prompt_sizes_cons (r : PrefillRequest) (rs : list PrefillRequest) :
  prompt_sizes (mkPrefillBatch (r :: rs)) =
    size_of (token_ids (prompt r)) :: prompt_sizes (mkPrefillBatch rs).
Proof. done. Qed.
