(* ===== verification/MockBackend.v ===== *)
(** * [MockBackend]: [include/tokamak/backend/mock_backend.h],
    [src/backend/mock_backend.cpp]

    The deterministic backend of the tests and of the simulation.  It holds a
    reference to a [FakeClock] and advances it, so its methods act on the pair
    [MockWorld] of the clock and the backend.  It is an instance of
    [InferenceBackend], and [MockWorld_contract] discharges the contract the
    scheduler relies on. *)

From S2P Require Import Prelude Clock Backend.

Record SequenceState := mkSequenceState {
  tokens_emitted : Z;                   (** [std::uint32_t] *)
  finished_after_tokens : option Z;     (** unset: never self-terminates *)
}.

Record MockBackend := mkMockBackend {
  per_token_prefill_cost_ : Duration;
  per_decode_cost_ : Duration;
  next_sequence_id_ : Z;                (** [std::uint64_t] *)
  sequences_ : gmap Z SequenceState;
  pending_prefill_errors_ : list BackendError;
  pending_decode_errors_ : list BackendError;
}.

Record MockWorld := mkMockWorld { mock_clock : FakeClock; mock : MockBackend }.

Definition new_mock (per_token_prefill_cost per_decode_cost : Duration) : MockBackend :=
  mkMockBackend per_token_prefill_cost per_decode_cost 0 ∅ [] [].

Definition set_sequences (m : gmap Z SequenceState) (b : MockBackend) : MockBackend :=
  mkMockBackend (per_token_prefill_cost_ b) (per_decode_cost_ b) (next_sequence_id_ b) m
    (pending_prefill_errors_ b) (pending_decode_errors_ b).

Definition mock_capabilities (w : MockWorld) : BackendCapabilities :=
  mkCapabilities true false false 8192.

(** One token per byte. *)
Definition mock_tokenize (text : string) (w : MockWorld) : TokenizedPrompt * MockWorld :=
  (mkTokenizedPrompt ((fun c => Z.of_N (Ascii.N_of_ascii c)) <$> String.list_ascii_of_string text), w).

(** [per_token_prefill_cost_ * n] with [n] a [std::size_t]: the product is taken
    in [std::uint64_t] and converted back to the signed count of a [Duration]. *)
Definition prefill_cost (b : MockBackend) (n : Z) : Duration :=
  i64_of_u64 (u64 (u64 (per_token_prefill_cost_ b) * n)).

(** One iteration of the loop of [prefill]. *)
Definition prefill_one (request : PrefillRequest) (w : MockWorld)
  : outcome (expected PrefillOutcome * MockWorld) :=
  let b := mock w in
  clock ← advance (prefill_cost b (size_of (token_ids (prompt request)))) (mock_clock w);
  match pending_prefill_errors_ b with
  | error :: rest =>
      Ok (Unexpected error,
          mkMockWorld clock
            (mkMockBackend (per_token_prefill_cost_ b) (per_decode_cost_ b)
               (next_sequence_id_ b) (sequences_ b) rest (pending_decode_errors_ b)))
  | [] =>
      let handle := mkHandle (next_sequence_id_ b) in
      Ok (Value (mkPrefillOutcome handle),
          mkMockWorld clock
            (mkMockBackend (per_token_prefill_cost_ b) (per_decode_cost_ b)
               (u64 (next_sequence_id_ b + 1))
               (emplace (handle_id handle) (mkSequenceState 0 None) (sequences_ b))
               [] (pending_decode_errors_ b)))
  end.

Fixpoint prefill_requests (requests : list PrefillRequest) (w : MockWorld)
  : outcome (list (expected PrefillOutcome) * MockWorld) :=
  match requests with
  | [] => Ok ([], w)
  | request :: requests =>
      '(o, w) ← prefill_one request w;
      '(os, w) ← prefill_requests requests w;
      Ok (o :: os, w)
  end.

Definition mock_prefill (batch : PrefillBatch) (w : MockWorld)
  : outcome (PrefillResult * MockWorld) :=
  '(os, w) ← prefill_requests (prefill_sequences batch) w;
  Ok (mkPrefillResult os, w).

(** One iteration of the loop of [decode]. *)
Definition decode_one (request : DecodeRequest) (b : MockBackend)
  : outcome (expected DecodedToken * MockBackend) :=
  match pending_decode_errors_ b with
  | error :: rest =>
      Ok (Unexpected error,
          mkMockBackend (per_token_prefill_cost_ b) (per_decode_cost_ b)
            (next_sequence_id_ b) (sequences_ b) (pending_prefill_errors_ b) rest)
  | [] =>
      match sequences_ b !! handle_id (request_handle request) with
      | None => Panic "decode() called with unknown or already-released SequenceHandle"
      | Some state =>
          let state := mkSequenceState (u32 (tokens_emitted state + 1))
                         (finished_after_tokens state) in
          let finished := match finished_after_tokens state with
                          | Some n => n <=? tokens_emitted state
                          | None => false
                          end in
          Ok (Value (mkDecodedToken (tokens_emitted state) finished),
              set_sequences (<[handle_id (request_handle request) := state]> (sequences_ b)) b)
      end
  end.

Fixpoint decode_requests (requests : list DecodeRequest) (b : MockBackend)
  : outcome (list (expected DecodedToken) * MockBackend) :=
  match requests with
  | [] => Ok ([], b)
  | request :: requests =>
      '(o, b) ← decode_one request b;
      '(os, b) ← decode_requests requests b;
      Ok (o :: os, b)
  end.

Definition mock_decode (batch : DecodeBatch) (w : MockWorld)
  : outcome (DecodeResult * MockWorld) :=
  clock ← advance (per_decode_cost_ (mock w)) (mock_clock w);
  '(os, b) ← decode_requests (decode_sequences batch) (mock w);
  Ok (mkDecodeResult os, mkMockWorld clock b).

Definition mock_release (sequence : SequenceHandle) (w : MockWorld) : outcome MockWorld :=
  match sequences_ (mock w) !! handle_id sequence with
  | None => Panic "release() called with unknown or already-released SequenceHandle"
  | Some _ =>
      Ok (mkMockWorld (mock_clock w)
            (set_sequences (delete (handle_id sequence) (sequences_ (mock w))) (mock w)))
  end.

Definition configure_eos (handle : SequenceHandle) (after_tokens : Z) (w : MockWorld)
  : outcome MockWorld :=
  match sequences_ (mock w) !! handle_id handle with
  | None => Panic "configure_eos() called with unknown or already-released SequenceHandle"
  | Some state =>
      Ok (mkMockWorld (mock_clock w)
            (set_sequences (<[handle_id handle :=
                mkSequenceState (tokens_emitted state) (Some after_tokens)]>
              (sequences_ (mock w))) (mock w)))
  end.

Definition fail_next_prefill (error : BackendError) (b : MockBackend) : MockBackend :=
  mkMockBackend (per_token_prefill_cost_ b) (per_decode_cost_ b) (next_sequence_id_ b)
    (sequences_ b) (pending_prefill_errors_ b ++ [error]) (pending_decode_errors_ b).

Definition fail_next_decode (error : BackendError) (b : MockBackend) : MockBackend :=
  mkMockBackend (per_token_prefill_cost_ b) (per_decode_cost_ b) (next_sequence_id_ b)
    (sequences_ b) (pending_prefill_errors_ b) (pending_decode_errors_ b ++ [error]).

(** ** The interfaces *)

#[export] Instance MockWorld_Clock : Clock MockWorld :=
  fun w => (fake_now (mock_clock w), w).

#[export, refine] Instance MockWorld_clock_laws : ClockLaws MockWorld :=
  {| time := fun w => current_ (mock_clock w) |}.
Proof. intros w. simpl. unfold fake_now. lia. Defined.

#[export] Instance MockWorld_backend : InferenceBackend MockWorld := {|
  capabilities := mock_capabilities;
  tokenize := mock_tokenize;
  prefill := mock_prefill;
  decode := mock_decode;
  release := mock_release;
|}.

(** ** The invariant of the backend *)

(** Handles are minted in increasing order, the two costs are durations and the
    simulated clock has not started before its epoch. *)
Record mock_wf (w : MockWorld) : Prop := {
  mock_ids : forall i, i ∈ dom (sequences_ (mock w)) -> i < next_sequence_id_ (mock w);
  mock_next : 0 <= next_sequence_id_ (mock w);
  mock_costs : 0 <= per_token_prefill_cost_ (mock w) /\ 0 <= per_decode_cost_ (mock w);
  mock_time : 0 <= current_ (mock_clock w);
}.

Definition batch_cost (w : MockWorld) (b : PrefillBatch) : Z :=
  per_token_prefill_cost_ (mock w) * sum_Z (prompt_sizes b).

(** Prefilling [b] and then decoding once keeps the clock and the handle
    counter in range. *)
Definition mock_fits (b : PrefillBatch) (w : MockWorld) : Prop :=
  mock_wf w /\
  current_ (mock_clock w) + batch_cost w b + per_decode_cost_ (mock w) <= INT64_MAX /\
  next_sequence_id_ (mock w) + size_of (prefill_sequences b) < 2 ^ 64.

Definition mock_fits_decode (w : MockWorld) : Prop :=
  0 <= per_decode_cost_ (mock w) /\ 0 <= current_ (mock_clock w) /\
  current_ (mock_clock w) + per_decode_cost_ (mock w) <= INT64_MAX.

Lemma prefill_cost_exact (b : MockBackend) (n : Z) :
  0 <= per_token_prefill_cost_ b -> 0 <= n ->
  per_token_prefill_cost_ b * n <= INT64_MAX ->
  prefill_cost b n = per_token_prefill_cost_ b * n.
Proof.
  intros Hc Hn Hle. unfold prefill_cost, u64.
  rewrite Zmult_mod_idemp_l, Z.mod_small by (unfold INT64_MAX in *; nia).
  by apply i64_of_u64_small.
Qed.

Lemma advance_total (d : Duration) (c : FakeClock) :
  0 <= d -> 0 <= current_ c -> current_ c + d <= INT64_MAX ->
  advance d c = Ok (mkFakeClock (current_ c + d)).
Proof.
  intros. apply advance_Ok. simpl. unfold INT64_MIN, INT64_MAX in *. lia.
Qed.

Lemma prompt_sizes_nonneg (b : PrefillBatch) : Forall (Z.le 0) (prompt_sizes b).
Proof.
  unfold prompt_sizes, size_of. apply Forall_fmap, Forall_forall. intros. simpl. lia.
Qed.

(** What one prefilled request does: the clock pays for its prompt, and either
    a queued failure is consumed or the next handle is minted. *)
Lemma prefill_one_spec (r : PrefillRequest) (w : MockWorld) :
  let n := size_of (token_ids (prompt r)) in
  let d := per_token_prefill_cost_ (mock w) * n in
  mock_wf w -> current_ (mock_clock w) + d <= INT64_MAX ->
  next_sequence_id_ (mock w) + 1 < 2 ^ 64 ->
  exists o w', prefill_one r w = Ok (o, w') /\
    mock_wf w' /\ current_ (mock_clock w') = current_ (mock_clock w) + d /\
    per_token_prefill_cost_ (mock w') = per_token_prefill_cost_ (mock w) /\
    per_decode_cost_ (mock w') = per_decode_cost_ (mock w) /\
    pending_decode_errors_ (mock w') = pending_decode_errors_ (mock w) /\
    pending_prefill_errors_ (mock w') = tail (pending_prefill_errors_ (mock w)) /\
    match pending_prefill_errors_ (mock w) with
    | e :: _ => o = Unexpected e /\ sequences_ (mock w') = sequences_ (mock w) /\
        next_sequence_id_ (mock w') = next_sequence_id_ (mock w)
    | [] => o = Value (mkPrefillOutcome (mkHandle (next_sequence_id_ (mock w)))) /\
        next_sequence_id_ (mock w') = next_sequence_id_ (mock w) + 1 /\
        sequences_ (mock w') =
          <[next_sequence_id_ (mock w) := mkSequenceState 0 None]> (sequences_ (mock w))
    end.
Proof.
  intros n d [Hids Hnext [Hc1 Hc2] Ht] Hle Hn.
  assert (Hn0 : 0 <= n) by (unfold n, size_of; lia).
  assert (Hd : 0 <= d) by (unfold d; nia).
  unfold prefill_one. fold n. rewrite prefill_cost_exact by (subst d; lia).
  rewrite advance_total by (subst d; lia). simpl. fold d.
  destruct (pending_prefill_errors_ (mock w)) as [|e rest] eqn:Hp.
  - assert (Hfresh : sequences_ (mock w) !! next_sequence_id_ (mock w) = None).
    { apply not_elem_of_dom. intros H%Hids. lia. }
    rewrite u64_small by lia. rewrite emplace_fresh by done.
    do 2 eexists; split; [done|]; simpl; repeat split; simpl; try (done || lia).
    intros i. rewrite dom_insert. intros [->%elem_of_singleton|H%Hids]%elem_of_union; lia.
  - do 2 eexists; split; [done|]; simpl; repeat split; simpl; (done || lia).
Qed.

(** What a whole prefill batch does. *)
Lemma prefill_requests_spec (rs : list PrefillRequest) (w : MockWorld) :
  let d := per_token_prefill_cost_ (mock w) * sum_Z (prompt_sizes (mkPrefillBatch rs)) in
  mock_wf w -> current_ (mock_clock w) + d <= INT64_MAX ->
  next_sequence_id_ (mock w) + size_of rs < 2 ^ 64 ->
  exists os w', prefill_requests rs w = Ok (os, w') /\
    length os = length rs /\
    mock_wf w' /\ current_ (mock_clock w') = current_ (mock_clock w) + d /\
    per_token_prefill_cost_ (mock w') = per_token_prefill_cost_ (mock w) /\
    per_decode_cost_ (mock w') = per_decode_cost_ (mock w) /\
    pending_decode_errors_ (mock w') = pending_decode_errors_ (mock w) /\
    pending_prefill_errors_ (mock w') = drop (length rs) (pending_prefill_errors_ (mock w)) /\
    next_sequence_id_ (mock w) <= next_sequence_id_ (mock w')
      <= next_sequence_id_ (mock w) + size_of rs /\
    NoDup (minted os) /\
    (forall h, h ∈ minted os ->
       next_sequence_id_ (mock w) <= h < next_sequence_id_ (mock w')) /\
    dom (sequences_ (mock w')) = dom (sequences_ (mock w)) ∪ list_to_set (minted os).
Proof.
  revert w. induction rs as [|r rs IH]; intros w d Hwf Hle Hn.
  { exists [], w. simpl in *. subst d. unfold prompt_sizes in *. simpl.
    assert (size_of (@nil PrefillRequest) = 0) as -> by done.
    split_and!; try (done || lia || apply NoDup_nil_2 || set_solver). }
  assert (Hs : 0 <= sum_Z (prompt_sizes (mkPrefillBatch rs)))
    by apply sum_Z_nonneg, prompt_sizes_nonneg.
  assert (Hl : size_of (r :: rs) = size_of rs + 1) by (unfold size_of; simpl; lia).
  assert (Hl0 : 0 <= size_of rs) by (unfold size_of; lia).
  assert (Hd : d = per_token_prefill_cost_ (mock w) * size_of (token_ids (prompt r))
    + per_token_prefill_cost_ (mock w) * sum_Z (prompt_sizes (mkPrefillBatch rs)))
    by (unfold d; rewrite prompt_sizes_cons; simpl; lia).
  destruct (mock_costs _ Hwf) as [Hc1 _].
  destruct (prefill_one_spec r w) as
    (o & w1 & E1 & Hwf1 & Ht1 & Hpc1 & Hdc1 & Hpd1 & Hpp1 & Ho);
    [done|nia|lia|].
  assert (Hnx : next_sequence_id_ (mock w) <= next_sequence_id_ (mock w1)
                <= next_sequence_id_ (mock w) + 1).
  { destruct (pending_prefill_errors_ (mock w)); destruct Ho as (_ & H1 & H2);
      [rewrite H1|rewrite H2]; lia. }
  destruct (IH w1) as (os & w2 & E2 & Hlen & Hwf2 & Ht2 & Hpc2 & Hdc2 & Hpd2 & Hpp2 &
    Hnx2 & Hnd & Hin & Hdom); [done|rewrite Hpc1; lia|lia|].
  exists (o :: os), w2. simpl. rewrite E1. simpl. rewrite E2. simpl.
  split; [done|]. split; [by rewrite Hlen|]. split; [done|].
  split; [rewrite Ht2, Ht1, Hpc1; lia|]. split; [congruence|]. split; [congruence|].
  split; [congruence|].
  split; [rewrite Hpp2, Hpp1; by destruct (pending_prefill_errors_ (mock w)); simpl;
          rewrite ?drop_nil|].
  split; [lia|].
  destruct (pending_prefill_errors_ (mock w)) as [|e rest].
  - destruct Ho as (-> & Hnx1 & Hseq). rewrite minted_cons_value. simpl.
    split; [constructor; [|done]; intros H%Hin; lia|]. split.
    + intros h [->|H%Hin]%elem_of_cons; lia.
    + rewrite Hdom, Hseq, dom_insert_L. set_solver.
  - destruct Ho as (-> & Hseq & Hnx1). rewrite minted_cons_unexpected.
    split; [done|]. split; [intros h H%Hin; lia|]. by rewrite Hdom, Hseq.
Qed.

(** A decode step never changes which sequences are live. *)
Lemma decode_one_spec (r : DecodeRequest) (b : MockBackend) :
  handle_id (request_handle r) ∈ dom (sequences_ b) ->
  exists o b', decode_one r b = Ok (o, b') /\
    dom (sequences_ b') = dom (sequences_ b) /\
    next_sequence_id_ b' = next_sequence_id_ b /\
    per_token_prefill_cost_ b' = per_token_prefill_cost_ b /\
    per_decode_cost_ b' = per_decode_cost_ b /\
    pending_prefill_errors_ b' = pending_prefill_errors_ b /\
    pending_decode_errors_ b' = tail (pending_decode_errors_ b).
Proof.
  intros [st Hst]%elem_of_dom. unfold decode_one.
  destruct (pending_decode_errors_ b) as [|e rest] eqn:Hp.
  - rewrite Hst. do 2 eexists; split; [done|]. simpl. rewrite Hp.
    split; [|done]. apply dom_insert_lookup_L. eauto.
  - do 2 eexists; split; [done|]. done.
Qed.

Lemma decode_requests_spec (rs : list DecodeRequest) (b : MockBackend) :
  (forall r, r ∈ rs -> handle_id (request_handle r) ∈ dom (sequences_ b)) ->
  exists os b', decode_requests rs b = Ok (os, b') /\
    length os = length rs /\
    dom (sequences_ b') = dom (sequences_ b) /\
    next_sequence_id_ b' = next_sequence_id_ b /\
    per_token_prefill_cost_ b' = per_token_prefill_cost_ b /\
    per_decode_cost_ b' = per_decode_cost_ b /\
    pending_prefill_errors_ b' = pending_prefill_errors_ b /\
    pending_decode_errors_ b' = drop (length rs) (pending_decode_errors_ b).
Proof.
  revert b. induction rs as [|r rs IH]; intros b Hin; simpl.
  { eauto 10. }
  destruct (decode_one_spec r b) as (o & b1 & E1 & Hd1 & Hn1 & Hp1 & Hdc1 & Hpp1 & Hpd1);
    [apply Hin; set_solver|].
  destruct (IH b1) as (os & b2 & E2 & Hl & Hd2 & Hn2 & Hp2 & Hdc2 & Hpp2 & Hpd2).
  { intros r' Hr'. rewrite Hd1. apply Hin. set_solver. }
  exists (o :: os), b2. rewrite E1. simpl. rewrite E2. simpl.
  repeat split; try congruence. rewrite Hpd2, Hpd1.
  destruct (pending_decode_errors_ b); simpl; by rewrite ?drop_nil.
Qed.

Lemma mock_release_spec (h : SequenceHandle) (w : MockWorld) :
  handle_id h ∈ dom (sequences_ (mock w)) ->
  mock_release h w =
    Ok (mkMockWorld (mock_clock w)
          (set_sequences (delete (handle_id h) (sequences_ (mock w))) (mock w))).
Proof. unfold mock_release. by intros [st ->]%elem_of_dom. Qed.

Lemma mock_wf_release (h : SequenceHandle) (w w' : MockWorld) :
  mock_release h w = Ok w' -> mock_wf w -> mock_wf w'.
Proof.
  unfold mock_release. destruct (sequences_ (mock w) !! _); [|done].
  intros [= <-] []. split; simpl; try done.
  intros i. rewrite dom_delete. intros [? _]%elem_of_difference. auto.
Qed.

#[export, refine] Instance MockWorld_contract : BackendContract MockWorld := {|
  live := fun w => dom (sequences_ (mock w));
  fits := mock_fits;
  fits_decode := mock_fits_decode;
|}.
Proof.
  - intros [rs] w (Hwf & Hle & Hn). unfold batch_cost in Hle. simpl in *.
    destruct (mock_costs _ Hwf) as [Hc Hcd].
    destruct (prefill_requests_spec rs w) as
      (os & w' & E & Hlen & Hwf' & Ht & Hpc & Hdc & _ & _ & _ & Hnd & Hin & Hdom);
      [done|lia|done|].
    unfold mock_prefill. simpl. rewrite E. simpl.
    do 2 eexists; split; [done|]; simpl.
    split; [done|]. split; [done|]. split.
    + intros h Hh. apply Hin in Hh. intros Hd%(mock_ids _ Hwf). lia.
    + split; [done|]. pose proof (mock_time _ Hwf').
      assert (0 <= sum_Z (prompt_sizes (mkPrefillBatch rs)))
        by apply sum_Z_nonneg, prompt_sizes_nonneg.
      unfold mock_fits_decode. rewrite Hdc, Ht. pose proof (mock_time _ Hwf). nia.
  - intros b w (Hc & H0 & Hle) Hin. simpl in *. unfold mock_decode.
    rewrite advance_total by done. simpl.
    destruct (decode_requests_spec (decode_sequences b) (mock w)) as
      (os & b' & E & Hlen & Hdom & _); [done|].
    rewrite E. simpl. do 2 eexists; split; [done|]. simpl. split; [done|].
    split; [done|lia].
  - intros h w Hh. simpl. rewrite mock_release_spec by done.
    eexists; split; [done|]. simpl. rewrite dom_delete_L.
    split; [done|]. split; [lia|]. split; [|done].
    intros b (Hwf & Hrest). split; [|done].
    eapply mock_wf_release, Hwf. by apply mock_release_spec.
  - by intros w t w' [= <- <-].
Defined.
