(* ===== verification/MockProperties.v ===== *)
(** * The properties of the simulated backend

    The exact results of [prefill] and [decode] (the deterministic contract the
    golden traces rest on), the life of a handle, and the byte tokenizer. *)

From S2P Require Import Prelude Clock Backend MockBackend.

(** ** Prefill *)

(** The outcomes of a batch of [n] requests: the queued failures first, then
    consecutive handles from [next]. *)
Definition mock_prefill_outcomes (errors : list BackendError) (next n : Z)
  : list (expected PrefillOutcome) :=
  (Unexpected <$> take (Z.to_nat n) errors) ++
  ((fun h => Value (mkPrefillOutcome (mkHandle h))) <$> seqZ next (n - size_of errors)).

(** The sequence table after minting [k] handles from [next]. *)
Definition minted_table (next k : Z) (m : gmap Z SequenceState) (h : Z) : option SequenceState :=
  if (next <=? h) && (h <? next + k) then Some (mkSequenceState 0 None) else m !! h.

Lemma mock_prefill_outcomes_error e errors next n :
  0 <= n ->
  mock_prefill_outcomes (e :: errors) next (n + 1) =
    Unexpected e :: mock_prefill_outcomes errors next n.
Proof.
  intros Hn. unfold mock_prefill_outcomes. rewrite size_of_cons.
  replace (Z.to_nat (n + 1)) with (S (Z.to_nat n)) by lia.
  replace (n + 1 - (size_of errors + 1)) with (n - size_of errors) by lia. done.
Qed.

Lemma mock_prefill_outcomes_mint next n :
  0 <= n ->
  mock_prefill_outcomes [] next (n + 1) =
    Value (mkPrefillOutcome (mkHandle next)) :: mock_prefill_outcomes [] (next + 1) n.
Proof.
  intros Hn. unfold mock_prefill_outcomes. rewrite !take_nil. simpl.
  replace (size_of (@nil BackendError)) with 0 by done. rewrite !Z.sub_0_r.
  rewrite (seqZ_cons next (n + 1)) by lia. simpl. do 3 f_equal; lia.
Qed.

(** Minting none leaves the table; minting one more inserts the first. *)
Lemma minted_table_none next k m h : k <= 0 -> minted_table next k m h = m !! h.
Proof.
  intros Hk. unfold minted_table.
  destruct (Z.leb_spec next h), (Z.ltb_spec h (next + k)); simpl; try done. lia.
Qed.

Lemma minted_table_mint next k m h : 0 <= k ->
  minted_table (next + 1) k (<[next := mkSequenceState 0 None]> m) h =
    minted_table next (k + 1) m h.
Proof.
  intros Hk. unfold minted_table. destruct (decide (next = h)) as [<-|Hne].
  - rewrite lookup_insert_eq.
    destruct (Z.leb_spec (next + 1) next), (Z.leb_spec next next),
      (Z.ltb_spec next (next + (k + 1))); simpl; try done; lia.
  - rewrite lookup_insert_ne by done.
    destruct (Z.leb_spec (next + 1) h), (Z.leb_spec next h), (Z.ltb_spec h (next + 1 + k)),
      (Z.ltb_spec h (next + (k + 1))); simpl; try done; lia.
Qed.

Lemma prefill_requests_exact (rs : list PrefillRequest) (w : MockWorld) :
  let d := per_token_prefill_cost_ (mock w) * sum_Z (prompt_sizes (mkPrefillBatch rs)) in
  let errors := pending_prefill_errors_ (mock w) in
  let next := next_sequence_id_ (mock w) in
  let k := Z.max 0 (size_of rs - size_of errors) in
  mock_wf w -> current_ (mock_clock w) + d <= INT64_MAX -> next + size_of rs < 2 ^ 64 ->
  exists w', prefill_requests rs w = Ok (mock_prefill_outcomes errors next (size_of rs), w') /\
    current_ (mock_clock w') = current_ (mock_clock w) + d /\
    next_sequence_id_ (mock w') = next + k /\
    (forall h, sequences_ (mock w') !! h = minted_table next k (sequences_ (mock w)) h) /\
    pending_prefill_errors_ (mock w') = drop (length rs) errors.
Proof.
  revert w. induction rs as [|r rs IH]; intros w d errors next k Hwf Hle Hn.
  { exists w. subst d k. unfold prompt_sizes, mock_prefill_outcomes, size_of. simpl.
    rewrite seqZ_nil by (clearbody errors; lia). split; [done|]. split; [lia|].
    split; [clearbody errors; lia|]. split; [|done].
    intros h. rewrite minted_table_none; [done|]. clearbody errors; lia. }
  pose proof (sum_Z_nonneg _ (prompt_sizes_nonneg (mkPrefillBatch rs))) as Hs.
  pose proof (size_of_nonneg rs) as Hr0. destruct (mock_costs _ Hwf) as [Hc _].
  assert (Hd : d = per_token_prefill_cost_ (mock w) * size_of (token_ids (prompt r))
    + per_token_prefill_cost_ (mock w) * sum_Z (prompt_sizes (mkPrefillBatch rs)))
    by (unfold d; rewrite prompt_sizes_cons; simpl; lia).
  rewrite size_of_cons in Hn.
  destruct (prefill_one_spec r w) as
    (o & w1 & E1 & Hwf1 & Ht1 & Hpc1 & _ & _ & Hpp1 & Ho); [done|nia|lia|].
  assert (Hnx : next_sequence_id_ (mock w1) <= next + 1).
  { destruct (pending_prefill_errors_ (mock w)); destruct Ho as (_ & H1 & H2);
      [rewrite H1|rewrite H2]; unfold next; lia. }
  destruct (IH w1) as (w2 & E2 & Ht2 & Hnx2 & Hseq2 & Hpp2);
    [done|rewrite Hpc1; lia|lia|].
  exists w2. simpl. rewrite E1. simpl. rewrite E2. simpl. rewrite size_of_cons.
  split; [|split; [rewrite Ht2, Ht1, Hpc1; lia|]].
  - unfold errors, next. destruct (pending_prefill_errors_ (mock w)) as [|e rest].
    + destruct Ho as (-> & -> & _). rewrite Hpp1. simpl.
      by rewrite mock_prefill_outcomes_mint.
    + destruct Ho as (-> & _ & ->). rewrite Hpp1. simpl.
      by rewrite mock_prefill_outcomes_error.
  - rewrite Hpp2, Hnx2. unfold k, errors, next. rewrite size_of_cons.
    destruct (pending_prefill_errors_ (mock w)) as [|e rest]; rewrite Hpp1; simpl.
    + destruct Ho as (_ & Hn1 & Hs1). rewrite Hn1.
      replace (size_of (@nil BackendError)) with 0 by done.
      split; [lia|]. split; [|by rewrite drop_nil].
      intros h. rewrite Hseq2, Hn1, Hs1, Hpp1. simpl.
      replace (size_of (@nil BackendError)) with 0 by done.
      rewrite minted_table_mint by lia. f_equal. lia.
    + destruct Ho as (_ & Hs1 & Hn1). rewrite Hn1, size_of_cons.
      split; [f_equal; lia|]. split; [|done].
      intros h. rewrite Hseq2, Hs1, Hn1, Hpp1. simpl. by replace (size_of rs + 1 - (size_of rest + 1)) with (size_of rs - size_of rest) by lia.
Qed.

(** C28. Prefill on the simulated backend is exact: the clock advances by the
    per-token cost times the number of prompt tokens of the whole batch, the
    queued failures are consumed in batch order, and each remaining request
    gets the next handle, registered with no token emitted. *)
Theorem mock_prefill_exact (b : PrefillBatch) (w : MockWorld) :
  mock_fits b w ->
  exists w',
    mock_prefill b w =
      Ok (mkPrefillResult (mock_prefill_outcomes (pending_prefill_errors_ (mock w))
            (next_sequence_id_ (mock w)) (size_of (prefill_sequences b))), w') /\
    current_ (mock_clock w') = current_ (mock_clock w)
      + per_token_prefill_cost_ (mock w) * sum_Z (prompt_sizes b) /\
    (forall h, sequences_ (mock w') !! h =
       minted_table (next_sequence_id_ (mock w))
         (Z.max 0 (size_of (prefill_sequences b) - size_of (pending_prefill_errors_ (mock w))))
         (sequences_ (mock w)) h) /\
    pending_prefill_errors_ (mock w') =
      drop (length (prefill_sequences b)) (pending_prefill_errors_ (mock w)).
Proof.
  destruct b as [rs]. intros (Hwf & Hle & Hn). unfold batch_cost in Hle. simpl in *.
  destruct (mock_costs _ Hwf) as [_ Hd].
  destruct (prefill_requests_exact rs w) as (w' & E & Ht & _ & Hseq & Hpp); [done|lia|done|].
  exists w'. unfold mock_prefill. simpl. rewrite E. done.
Qed.

(** ** Decode *)

(** One more token for a sequence, and the token it produces. *)
Definition bump (st : SequenceState) : SequenceState :=
  mkSequenceState (u32 (tokens_emitted st + 1)) (finished_after_tokens st).

Definition next_token (st : SequenceState) : DecodedToken :=
  mkDecodedToken (tokens_emitted (bump st))
    match finished_after_tokens st with
    | Some n => n <=? tokens_emitted (bump st)
    | None => false
    end.

Definition handles_of (rs : list DecodeRequest) : list Z :=
  (fun r => handle_id (request_handle r)) <$> rs.

Lemma handles_of_cons r rs :
  handles_of (r :: rs) = handle_id (request_handle r) :: handles_of rs.
Proof. done. Qed.

Lemma decode_requests_exact (rs : list DecodeRequest) (b : MockBackend) :
  NoDup (handles_of rs) -> (forall h, h ∈ handles_of rs -> h ∈ dom (sequences_ b)) ->
  exists os b', decode_requests rs b = Ok (os, b') /\
    length os = length rs /\
    (forall i r, rs !! i = Some r ->
       os !! i = match pending_decode_errors_ b !! i with
                 | Some e => Some (Unexpected e)
                 | None => (fun st => Value (next_token st)) <$>
                             sequences_ b !! handle_id (request_handle r)
                 end) /\
    (forall h, sequences_ b' !! h =
       if bool_decide (h ∈ handles_of (drop (length (pending_decode_errors_ b)) rs))
       then bump <$> sequences_ b !! h else sequences_ b !! h).
Proof.
  revert b. induction rs as [|r rs IH]; intros b Hnd Hlive; simpl.
  { exists [], b. rewrite drop_nil. do 3 (split; [done|]). intros h.
    by rewrite bool_decide_false by apply not_elem_of_nil. }
  rewrite handles_of_cons in Hnd. apply NoDup_cons in Hnd as [Hr Hnd].
  unfold decode_one. destruct (pending_decode_errors_ b) as [|e rest] eqn:Hp.
  - assert (exists st, sequences_ b !! handle_id (request_handle r) = Some st) as [st Hst]
      by (apply elem_of_dom, Hlive; rewrite handles_of_cons; set_solver).
    rewrite Hst. fold (bump st). simpl. fold (bump st).
    set (b1 := set_sequences _ b).
    destruct (IH b1 Hnd) as (os & b2 & E & Hlen & Hos & Hseq).
    { intros h Hh. unfold b1. simpl. rewrite dom_insert. apply elem_of_union_r, Hlive.
      rewrite handles_of_cons. set_solver. }
    rewrite E. simpl. eexists _, b2. split; [done|]. split; [simpl; by rewrite Hlen|]. split.
    + intros [|i] r' Hi; simpl in *.
      * injection Hi as <-. by rewrite Hst.
      * rewrite (Hos i r' Hi). unfold b1. simpl. rewrite Hp, lookup_insert_ne; [done|].
        intros Heq. apply Hr. rewrite Heq.
        apply list_elem_of_fmap. exists r'. split; [done|]. by eapply list_elem_of_lookup_2.
    + intros h. rewrite Hseq. unfold b1. simpl. rewrite Hp. simpl.
      rewrite drop_0.
      destruct (decide (handle_id (request_handle r) = h)) as [<-|Hne].
      * rewrite lookup_insert_eq, bool_decide_false by done.
        rewrite bool_decide_true by set_solver. by rewrite Hst.
      * rewrite lookup_insert_ne by done.
        rewrite (bool_decide_ext _ (h ∈ handle_id (request_handle r) ::
          handles_of rs)); [done|].
        rewrite elem_of_cons. naive_solver.
  - simpl. set (b1 := mkMockBackend _ _ _ _ _ _).
    destruct (IH b1 Hnd) as (os & b2 & E & Hlen & Hos & Hseq).
    { intros h Hh. apply Hlive. rewrite handles_of_cons. set_solver. }
    rewrite E. simpl. eexists _, b2. split; [done|]. split; [simpl; by rewrite Hlen|]. split.
    + intros [|i] r' Hi; simpl in *; [done|]. by rewrite (Hos i r' Hi).
    + intros h. rewrite Hseq. done.
Qed.

(** Decode on the simulated backend is exact: the clock advances by one
    decode step for the whole batch; queued failures go to the first requests
    in batch order and leave their sequences untouched; every other sequence
    of the batch produces its own next token, numbered from one and flagged
    finished exactly from its configured end on, and no sequence outside the
    batch changes. *)
Theorem mock_decode_exact (b : DecodeBatch) (w : MockWorld) :
  mock_fits_decode w -> NoDup (handles_of (decode_sequences b)) ->
  (forall h, h ∈ handles_of (decode_sequences b) -> h ∈ dom (sequences_ (mock w))) ->
  exists os w', mock_decode b w = Ok (mkDecodeResult os, w') /\
    current_ (mock_clock w') = current_ (mock_clock w) + per_decode_cost_ (mock w) /\
    length os = length (decode_sequences b) /\
    (forall i r, decode_sequences b !! i = Some r ->
       os !! i = match pending_decode_errors_ (mock w) !! i with
                 | Some e => Some (Unexpected e)
                 | None => (fun st => Value (next_token st)) <$>
                             sequences_ (mock w) !! handle_id (request_handle r)
                 end) /\
    (forall h, sequences_ (mock w') !! h =
       if bool_decide (h ∈ handles_of
            (drop (length (pending_decode_errors_ (mock w))) (decode_sequences b)))
       then bump <$> sequences_ (mock w) !! h else sequences_ (mock w) !! h).
Proof.
  intros (Hc & H0 & Hle) Hnd Hlive. unfold mock_decode. rewrite advance_total by done. simpl.
  destruct (decode_requests_exact _ _ Hnd Hlive) as (os & b' & E & Hlen & Hos & Hseq).
  rewrite E. simpl. by exists os, (mkMockWorld (mkFakeClock (current_ (mock_clock w) + per_decode_cost_ (mock w))) b').
Qed.

(** ** The life of a handle *)

(** What other code may do to the backend after a release: prefill, decode,
    release, configure and inject failures. *)
Inductive mock_step : MockWorld -> MockWorld -> Prop :=
  | ms_prefill b r w w' : mock_fits b w -> mock_prefill b w = Ok (r, w') -> mock_step w w'
  | ms_decode b r w w' : mock_decode b w = Ok (r, w') -> mock_step w w'
  | ms_release h w w' : mock_release h w = Ok w' -> mock_step w w'
  | ms_eos h n w w' : configure_eos h n w = Ok w' -> mock_step w w'
  | ms_fail_prefill e w : mock_step w (mkMockWorld (mock_clock w) (fail_next_prefill e (mock w)))
  | ms_fail_decode e w : mock_step w (mkMockWorld (mock_clock w) (fail_next_decode e (mock w))).

(** The handle has been minted and is no longer held. *)
Definition dead (h : Z) (w : MockWorld) : Prop :=
  h < next_sequence_id_ (mock w) /\ sequences_ (mock w) !! h = None.

Lemma decode_one_frame r b o b' :
  decode_one r b = Ok (o, b') ->
  dom (sequences_ b') = dom (sequences_ b) /\ next_sequence_id_ b' = next_sequence_id_ b.
Proof.
  unfold decode_one. destruct (pending_decode_errors_ b); [|naive_solver].
  destruct (sequences_ b !! _) eqn:E; [|done]. intros [= <- <-]. simpl. split; [|done].
  apply dom_insert_lookup_L. eauto.
Qed.

Lemma decode_requests_frame rs b os b' :
  decode_requests rs b = Ok (os, b') ->
  dom (sequences_ b') = dom (sequences_ b) /\ next_sequence_id_ b' = next_sequence_id_ b.
Proof.
  revert b os b'. induction rs as [|r rs IH]; intros b os b'; simpl; [naive_solver|].
  intros H. inv_ok. apply decode_one_frame in H as [<- <-]. by eapply IH.
Qed.

Lemma dead_step h w w' : mock_step w w' -> dead h w -> dead h w'.
Proof.
  intros [b r w1 w2 Hf H|b r w1 w2 H|h' w1 w2 H|h' n w1 w2 H|e w1|e w1] [Hlt Hn];
    unfold dead in *; simpl; try done.
  - destruct b as [rs]. destruct Hf as (Hwf & Hle & Hnx). unfold batch_cost in Hle. simpl in *.
    destruct (mock_costs _ Hwf) as [_ Hdc].
    destruct (prefill_requests_exact rs w1) as (w3 & E & _ & Hnext & Hseq & _); [done|lia|done|].
    unfold mock_prefill in H. simpl in H. rewrite E in H. simpl in H. injection H as _ <-.
    rewrite Hnext, Hseq. split; [lia|]. unfold minted_table.
    destruct (Z.leb_spec (next_sequence_id_ (mock w1)) h); [lia|done].
  - unfold mock_decode in H. inv_ok.
    match goal with H : decode_requests _ _ = _ |- _ => apply decode_requests_frame in H as [Hd ->] end.
    split; [done|]. apply not_elem_of_dom. rewrite Hd. by apply not_elem_of_dom.
  - unfold mock_release in H. destruct (sequences_ (mock w1) !! handle_id h'); [|done].
    injection H as <-. simpl. split; [done|]. apply lookup_delete_None. by right.
  - unfold configure_eos in H. destruct (sequences_ (mock w1) !! handle_id h') eqn:E; [|done].
    injection H as <-. simpl. split; [done|]. apply lookup_insert_None. split; [done|congruence].
Qed.

(** A released handle is dead for good: whatever the backend does
    afterwards (handles are never minted twice), releasing it again,
    configuring it, or decoding it panics. *)
Theorem mock_use_after_release h w w1 w2 :
  mock_wf w -> mock_release h w = Ok w1 -> rtc mock_step w1 w2 ->
  mock_release h w2 = Panic "release() called with unknown or already-released SequenceHandle" /\
  (forall n, configure_eos h n w2 =
     Panic "configure_eos() called with unknown or already-released SequenceHandle") /\
  (pending_decode_errors_ (mock w2) = [] ->
   decode_one (mkDecodeRequest h) (mock w2) =
     Panic "decode() called with unknown or already-released SequenceHandle").
Proof.
  intros Hwf Hrel Hsteps.
  assert (Hdead : dead (handle_id h) w1).
  { unfold mock_release in Hrel.
    destruct (sequences_ (mock w) !! handle_id h) eqn:E; [|done]. injection Hrel as <-.
    split; simpl; [|by rewrite lookup_delete_eq].
    apply (mock_ids _ Hwf), elem_of_dom. eauto. }
  assert (Hdead2 : dead (handle_id h) w2) 
    by (clear Hwf Hrel; induction Hsteps; eauto using dead_step).
  destruct Hdead2 as [_ Hn]. unfold mock_release, configure_eos, decode_one. simpl. rewrite Hn.
  split; [done|]. split; [done|]. by intros ->.
Qed.

(** ** The tokenizer *)

Definition detokenize (p : TokenizedPrompt) : string :=
  String.string_of_list_ascii ((fun t => Ascii.ascii_of_N (Z.to_N t)) <$> token_ids p).

(** The byte tokenizer loses nothing: one token per byte, each below 256,
    and the text is recovered from the tokens. *)
Theorem mock_tokenize_roundtrip (text : string) (w : MockWorld) :
  let '(p, w') := mock_tokenize text w in
  w' = w /\ detokenize p = text /\ length (token_ids p) = String.length text /\
  Forall (fun t => 0 <= t < 256) (token_ids p).
Proof.
  simpl. split; [done|]. split; [|split].
  - unfold detokenize. simpl. rewrite <- list_fmap_compose.
    rewrite <- (String.string_of_list_ascii_of_string text) at 2. f_equal.
    rewrite <- (list_fmap_id (String.list_ascii_of_string text)) at 2.
    apply list_fmap_ext. intros _ c _. unfold compose. rewrite N2Z.id.
    apply Ascii.ascii_N_embedding.
  - rewrite length_fmap. induction text as [|c text IH]; simpl; [done|]. by rewrite IH.
  - apply Forall_fmap, Forall_forall. intros c _. unfold compose.
    pose proof (Ascii.N_ascii_bounded c). lia.
Qed.

(** ** Witnesses *)

Definition mock_example : MockWorld :=
  mkMockWorld fake_start
    (fail_next_prefill (mkBackendError kOutOfMemory "full") (new_mock 1 5)).

Definition example_batch : PrefillBatch :=
  mkPrefillBatch [mkPrefillRequest (mkTokenizedPrompt [1; 2]);
                  mkPrefillRequest (mkTokenizedPrompt [3])].

Lemma mock_prefill_exact_witness :
  exists w', mock_prefill example_batch mock_example =
    Ok (mkPrefillResult [Unexpected (mkBackendError kOutOfMemory "full");
                         Value (mkPrefillOutcome (mkHandle 0))], w') /\
    current_ (mock_clock w') = 3.
Proof.
  destruct (mock_prefill_exact example_batch mock_example) as (w' & E & Ht & _).
  { split; [|vm_compute; split; congruence].
    split; simpl; [|lia|lia|unfold fake_start; simpl; lia].
    intros i. rewrite dom_empty. set_solver. }
  exists w'. exact (conj E Ht).
Defined.

Definition decoding_example : MockWorld :=
  mkMockWorld fake_start (set_sequences {[4 := mkSequenceState 2 (Some 3)]} (new_mock 1 5)).

Lemma mock_decode_exact_witness :
  exists os w', mock_decode (mkDecodeBatch [mkDecodeRequest (mkHandle 4)]) decoding_example
      = Ok (mkDecodeResult os, w') /\
    os !! 0%nat = Some (Value (mkDecodedToken 3 true)) /\ current_ (mock_clock w') = 5.
Proof.
  destruct (mock_decode_exact (mkDecodeBatch [mkDecodeRequest (mkHandle 4)]) decoding_example)
    as (os & w' & E & Ht & _ & Hos & _).
  - vm_compute. split; [congruence|]. split; congruence.
  - apply NoDup_singleton.
  - intros h Hh. apply list_elem_of_singleton in Hh as ->. simpl.
    rewrite dom_singleton. set_solver.
  - exists os, w'. exact (conj E (conj (Hos 0%nat _ eq_refl) Ht)).
Defined.

Definition released_example : MockWorld :=
  mkMockWorld fake_start
    (mkMockBackend 1 5 5 {[4 := mkSequenceState 2 None]} [] []).

Lemma mock_use_after_release_witness :
  exists w1, mock_release (mkHandle 4) released_example = Ok w1 /\
    mock_release (mkHandle 4) w1 =
      Panic "release() called with unknown or already-released SequenceHandle".
Proof.
  eexists. split; [reflexivity|].
  apply (mock_use_after_release (mkHandle 4) released_example
    (mkMockWorld fake_start (set_sequences (delete 4 {[4 := mkSequenceState 2 None]})
       (mkMockBackend 1 5 5 {[4 := mkSequenceState 2 None]} [] [])))).
  - split; simpl; [|lia|lia|unfold fake_start; simpl; lia].
    intros i. rewrite dom_singleton. set_solver by lia.
  - reflexivity.
  - apply rtc_refl.
Defined.
