(* ===== verification/FifoScheduler.v ===== *)
(** * [FifoScheduler]: [include/tokamak/scheduler/fifo_scheduler.h],
    [tick_report.h], [src/scheduler/fifo_scheduler.cpp]

    The scheduler owns every request it was given ([requests_], never erased)
    and refers to them by pointer from the waiting queue and the decoding list.
    A [Request *] is modelled as the position of the request in [requests_]:
    pointers are stable because nothing is ever erased from it, comparing two
    pointers is comparing positions, and the two queues, the engine and the
    simulation all alias the same store.  Operations run against any
    environment [W] that has a clock and a backend. *)

From S2P Require Import Prelude Clock RequestState RequestLifecycle Request Backend.

(** A [Request *] into [requests_]. *)
Abbreviation RequestPtr := nat.

Record TickReport := mkTickReport {
  timestamp : TimePoint;
  expired_count : Z;
  prefill_attempted : Z;
  prefill_succeeded : Z;
  prefill_failed : Z;
  prefill_tokens : Z;
  decode_attempted : Z;
  decode_tokens : Z;
  decode_completed : Z;
  decode_failed : Z;
}.

Record FifoScheduler := mkScheduler {
  requests_ : list Request;
  waiting_ : list RequestPtr;
  decoding_ : list RequestPtr;
  handles_ : gmap RequestId SequenceHandle;
}.

Definition new_scheduler : FifoScheduler := mkScheduler [] [] [] ∅.

Definition set_requests (l : list Request) (s : FifoScheduler) : FifoScheduler :=
  mkScheduler l (waiting_ s) (decoding_ s) (handles_ s).
Definition set_queues (wt dc : list RequestPtr) (s : FifoScheduler) : FifoScheduler :=
  mkScheduler (requests_ s) wt dc (handles_ s).
Definition set_handles (m : gmap RequestId SequenceHandle) (s : FifoScheduler) : FifoScheduler :=
  mkScheduler (requests_ s) (waiting_ s) (decoding_ s) m.

Definition waiting_count (s : FifoScheduler) : Z := size_of (waiting_ s).
Definition decoding_count (s : FifoScheduler) : Z := size_of (decoding_ s).

Definition deref (p : RequestPtr) (s : FifoScheduler) : outcome Request :=
  or_undef "dangling Request pointer" (requests_ s !! p).

Section Operations.
Context {W : Type} `{!Clock W, !InferenceBackend W}.
Implicit Types (w : W) (s : FifoScheduler) (p : RequestPtr).

(** [p->lifecycle().transition_to(to)] *)
Definition transition p (to : RequestState) s w : outcome (FifoScheduler * W) :=
  r ← deref p s;
  '(lc, w) ← transition_to to (lifecycle_ r) w;
  Ok (set_requests (<[p := set_lifecycle lc r]> (requests_ s)) s, w).

Definition submit (request : Request) s w : outcome (RequestPtr * FifoScheduler * W) :=
  let raw := length (requests_ s) in
  let s := set_requests (requests_ s ++ [request]) s in
  '(s, w) ← transition raw kAdmitted s w;
  '(s, w) ← transition raw kWaitingPrefill s w;
  Ok (raw, set_queues (waiting_ s ++ [raw]) (decoding_ s) s, w).

Definition retire p (terminal_state : RequestState) s w : outcome (FifoScheduler * W) :=
  '(s, w) ← transition p terminal_state s w;
  request ← deref p s;
  '(s, w) ← match handles_ s !! id_ request with
            | Some h =>
                w ← release h w;
                Ok (set_handles (delete (id_ request) (handles_ s)) s, w)
            | None => Ok (s, w)
            end;
  Ok (set_queues (remove_first p (waiting_ s)) (remove_first p (decoding_ s)) s, w).

(** The two collecting loops of [expire_deadlines]; the clock is read once per
    request. *)
Fixpoint collect_expired (queue : list RequestPtr) s w : outcome (list RequestPtr * W) :=
  match queue with
  | [] => Ok ([], w)
  | p :: queue =>
      let '(t, w) := clock_now w in
      req ← deref p s;
      '(rest, w) ← collect_expired queue s w;
      Ok (if deadline_at_ req <? t then p :: rest else rest, w)
  end.

Fixpoint fail_waiting (expired : list RequestPtr) s w : outcome (FifoScheduler * W) :=
  match expired with
  | [] => Ok (s, w)
  | p :: expired =>
      '(s, w) ← transition p kPrefilling s w;
      '(s, w) ← retire p kFailed s w;
      fail_waiting expired s w
  end.

Fixpoint fail_decoding (expired : list RequestPtr) s w : outcome (FifoScheduler * W) :=
  match expired with
  | [] => Ok (s, w)
  | p :: expired =>
      '(s, w) ← retire p kFailed s w;
      fail_decoding expired s w
  end.

Definition expire_deadlines s w : outcome (TickReport * FifoScheduler * W) :=
  let '(t, w) := clock_now w in
  '(expired_waiting, w) ← collect_expired (waiting_ s) s w;
  '(expired_decoding, w) ← collect_expired (decoding_ s) s w;
  '(s, w) ← fail_waiting expired_waiting s w;
  '(s, w) ← fail_decoding expired_decoding s w;
  Ok (mkTickReport t (u64 (size_of expired_waiting + size_of expired_decoding))
        0 0 0 0 0 0 0 0, s, w).

(** The batch of [prefill_phase] and the running sum [report.prefill_tokens]. *)
Fixpoint build_prefill (pending : list RequestPtr) (tokens : Z) s
  : outcome (list PrefillRequest * Z) :=
  match pending with
  | [] => Ok ([], tokens)
  | p :: pending =>
      req ← deref p s;
      '(batch, tokens) ←
        build_prefill pending (u64 (tokens + size_of (prompt_token_ids_ req))) s;
      Ok (mkPrefillRequest (mkTokenizedPrompt (prompt_token_ids_ req)) :: batch, tokens)
  end.

(** The body of the outcome loop of [prefill_phase] for one request. *)
Definition prefill_request p (o : expected PrefillOutcome) s w
  : outcome (bool * FifoScheduler * W) :=
  match o with
  | Value v =>
      req ← deref p s;
      let s := set_handles (emplace (id_ req) (outcome_handle v) (handles_ s)) s in
      '(s, w) ← transition p kPrefilling s w;
      '(s, w) ← transition p kWaitingDecode s w;
      '(s, w) ← transition p kDecoding s w;
      Ok (true, set_queues (erase p (waiting_ s)) (decoding_ s ++ [p]) s, w)
  | Unexpected _ =>
      '(s, w) ← transition p kPrefilling s w;
      '(s, w) ← retire p kFailed s w;
      Ok (false, s, w)
  end.

(** The outcome loop: [i] is the index shared by [pending] and
    [results.outcomes]; the counters are [prefill_succeeded] and
    [prefill_failed]. *)
Fixpoint prefill_outcomes_loop (pending : list RequestPtr) (i : nat)
    (outcomes : list (expected PrefillOutcome)) (succeeded failed : Z) s w
  : outcome (Z * Z * FifoScheduler * W) :=
  match pending with
  | [] => Ok (succeeded, failed, s, w)
  | p :: pending =>
      o ← or_undef "results.outcomes out of range" (outcomes !! i);
      '(ok, s, w) ← prefill_request p o s w;
      if (ok : bool) then
        prefill_outcomes_loop pending (S i) outcomes (u64 (succeeded + 1)) failed s w
      else
        prefill_outcomes_loop pending (S i) outcomes succeeded (u64 (failed + 1)) s w
  end.

Definition prefill_phase s w : outcome (TickReport * FifoScheduler * W) :=
  let '(t, w) := clock_now w in
  let pending := waiting_ s in
  '(batch, tokens) ← build_prefill pending 0 s;
  '(results, w) ← prefill (mkPrefillBatch batch) w;
  '(succeeded, failed, s, w) ←
    prefill_outcomes_loop pending 0 (prefill_outcomes results) 0 0 s w;
  Ok (mkTickReport t 0 (size_of pending) succeeded failed tokens 0 0 0 0, s, w).

(** The batch of [decode_phase] ([handles_.at] throws on a missing id) and the
    running sum [report.decode_tokens]. *)
Fixpoint build_decode (pending : list RequestPtr) (tokens : Z) s
  : outcome (list DecodeRequest * Z) :=
  match pending with
  | [] => Ok ([], tokens)
  | p :: pending =>
      req ← deref p s;
      h ← or_throw "unordered_map::at" (handles_ s !! id_ req);
      '(batch, tokens) ← build_decode pending (u64 (tokens + 1)) s;
      Ok (mkDecodeRequest h :: batch, tokens)
  end.

Inductive DecodeStep := StepEmitted | StepCompleted | StepFailed.

(** The body of the outcome loop of [decode_phase] for one request. *)
Definition decode_request p (o : expected DecodedToken) s w
  : outcome (DecodeStep * FifoScheduler * W) :=
  match o with
  | Value v =>
      req ← deref p s;
      '(req, w) ← emit_token (token_id v) req w;
      let s := set_requests (<[p := req]> (requests_ s)) s in
      let eos := finished v in
      let exhausted := max_output_tokens_ req <=? output_tokens_emitted_ req in
      if eos || exhausted then
        '(s, w) ← retire p kCompleted s w;
        Ok (StepCompleted, s, w)
      else Ok (StepEmitted, s, w)
  | Unexpected _ =>
      '(s, w) ← retire p kFailed s w;
      Ok (StepFailed, s, w)
  end.

Fixpoint decode_outcomes_loop (pending : list RequestPtr) (i : nat)
    (outcomes : list (expected DecodedToken)) (completed failed : Z) s w
  : outcome (Z * Z * FifoScheduler * W) :=
  match pending with
  | [] => Ok (completed, failed, s, w)
  | p :: pending =>
      o ← or_undef "results.outcomes out of range" (outcomes !! i);
      '(step, s, w) ← decode_request p o s w;
      match step with
      | StepEmitted => decode_outcomes_loop pending (S i) outcomes completed failed s w
      | StepCompleted =>
          decode_outcomes_loop pending (S i) outcomes (u64 (completed + 1)) failed s w
      | StepFailed =>
          decode_outcomes_loop pending (S i) outcomes completed (u64 (failed + 1)) s w
      end
  end.

Definition decode_phase s w : outcome (TickReport * FifoScheduler * W) :=
  let '(t, w) := clock_now w in
  let pending := decoding_ s in
  '(batch, tokens) ← build_decode pending 0 s;
  '(results, w) ← decode (mkDecodeBatch batch) w;
  '(completed, failed, s, w) ←
    decode_outcomes_loop pending 0 (decode_outcomes results) 0 0 s w;
  Ok (mkTickReport t 0 0 0 0 0 (size_of pending) tokens completed failed, s, w).

Definition tick s w : outcome (TickReport * FifoScheduler * W) :=
  '(expire_report, s, w) ← expire_deadlines s w;
  '(prefill_report, s, w) ← prefill_phase s w;
  '(decode_report, s, w) ← decode_phase s w;
  let '(t, w) := clock_now w in
  Ok (mkTickReport t
        (expired_count expire_report)
        (prefill_attempted prefill_report)
        (prefill_succeeded prefill_report)
        (prefill_failed prefill_report)
        (prefill_tokens prefill_report)
        (decode_attempted decode_report)
        (decode_tokens decode_report)
        (decode_completed decode_report)
        (decode_failed decode_report), s, w).

(** One of the two loops of [cancel]: the first request with the id is retired
    and the loop is left. *)
Fixpoint cancel_in (id : RequestId) (queue : list RequestPtr) s w
  : outcome (FifoScheduler * W) :=
  match queue with
  | [] => Ok (s, w)
  | p :: queue =>
      req ← deref p s;
      if bool_decide (id_ req = id) then retire p kCancelled s w
      else cancel_in id queue s w
  end.

Definition cancel (id : RequestId) s w : outcome (FifoScheduler * W) :=
  '(s, w) ← cancel_in id (waiting_ s) s w;
  cancel_in id (decoding_ s) s w.

End Operations.
