(* ===== verification/SchedulerInvariant.v ===== *)
(** * The invariant of the scheduler and the moves that preserve it

    [sched_inv] relates the request store, the two queues, the handle table
    and the sequences the backend holds.  Every operation of the scheduler is
    a sequence of four moves on one request: it is admitted, promoted from
    waiting to decoding, given a token, or retired.  Each move has one lemma
    here; they are proved against [BackendContract] alone. *)

From S2P Require Import Prelude Clock RequestState RequestLifecycle Request Backend FifoScheduler.

Section Invariant.
Context {W : Type} `{!Clock W, !ClockLaws W, !InferenceBackend W, !BackendContract W}.
Implicit Types (w : W) (s : FifoScheduler) (p q : RequestPtr) (r : Request).

(** A pointer the scheduler is still working on. *)
Definition active s p : Prop := p ∈ decoding_ s ++ waiting_ s.

#[export] Instance active_dec s p : Decision (active s p).
Proof. unfold active. apply _. Defined.

(** The scheduler holds the backend sequence [h]. *)
Definition owns s (h : Z) : Prop := exists id, handles_ s !! id = Some (mkHandle h).

(** [extra] are the sequences minted by a prefill that has returned but whose
    outcomes the scheduler has not processed yet; it is empty between calls. *)
Record sched_inv (extra : gset Z) s w : Prop := {
  inv_order : increasing (decoding_ s ++ waiting_ s);
  inv_waiting p : p ∈ waiting_ s ->
    exists r, requests_ s !! p = Some r /\ req_state r = kWaitingPrefill;
  inv_decoding p : p ∈ decoding_ s ->
    exists r h, requests_ s !! p = Some r /\ req_state r = kDecoding /\
      handles_ s !! id_ r = Some h;
  inv_rest p r : requests_ s !! p = Some r -> ~ active s p -> is_terminal (req_state r) = true;
  inv_wf p r : requests_ s !! p = Some r -> request_wf (time w) r;
  inv_budget p r : active s p -> requests_ s !! p = Some r ->
    output_tokens_emitted_ r < max_output_tokens_ r;
  inv_ids p q r1 r2 : active s p -> active s q ->
    requests_ s !! p = Some r1 -> requests_ s !! q = Some r2 -> id_ r1 = id_ r2 -> p = q;
  inv_handles id h : handles_ s !! id = Some h ->
    exists p r, p ∈ decoding_ s /\ requests_ s !! p = Some r /\ id_ r = id;
  inv_inj id1 id2 h : handles_ s !! id1 = Some h -> handles_ s !! id2 = Some h -> id1 = id2;
  inv_live h : h ∈ live w <-> owns s h \/ h ∈ extra;
  inv_extra h : h ∈ extra -> ~ owns s h;
}.

(** What scheduler code may do to its environment between backend calls. *)
Definition world_ext w w' : Prop :=
  time w <= time w' /\ (forall b, fits b w -> fits b w') /\ (fits_decode w -> fits_decode w').

#[export] Instance world_ext_preorder : PreOrder world_ext.
Proof.
  split; [intros w; split; [lia|done]|].
  intros w1 w2 w3 (? & ? & ?) (? & ? & ?). split; [lia|]. auto.
Qed.

Lemma world_ext_time w w' : world_ext w w' -> time w <= time w'.
Proof. by intros []. Qed.

Lemma clock_now_ext w t w' :
  clock_now w = (t, w') -> world_ext w w' /\ live w' = live w /\ time w <= t <= time w'.
Proof.
  intros E. pose proof (clock_contract _ _ _ E) as (? & ? & ?).
  apply clock_read in E. split; [|split; [done|lia]]. split; [lia|done].
Qed.

(** ** Consequences of the invariant *)

Lemma active_waiting s p : p ∈ waiting_ s -> active s p.
Proof. unfold active. set_solver. Qed.

Lemma active_decoding s p : p ∈ decoding_ s -> active s p.
Proof. unfold active. set_solver. Qed.

Lemma inv_disjoint extra s w p :
  sched_inv extra s w -> p ∈ waiting_ s -> p ∈ decoding_ s -> False.
Proof.
  intros Hinv Hw Hd. pose proof (increasing_NoDup _ (inv_order _ _ _ Hinv)) as Hnd.
  apply NoDup_app in Hnd as (_ & Hx & _). by apply (Hx p).
Qed.

Lemma inv_NoDup extra s w :
  sched_inv extra s w -> NoDup (waiting_ s) /\ NoDup (decoding_ s).
Proof.
  intros Hinv. pose proof (increasing_NoDup _ (inv_order _ _ _ Hinv)) as Hnd.
  apply NoDup_app in Hnd. tauto.
Qed.

Lemma inv_active_lookup extra s w p :
  sched_inv extra s w -> active s p -> exists r, requests_ s !! p = Some r.
Proof.
  intros Hinv [Hd|Hw]%elem_of_app.
  - destruct (inv_decoding _ _ _ Hinv p Hd) as (r & h & ? & _). eauto.
  - destruct (inv_waiting _ _ _ Hinv p Hw) as (r & ? & _). eauto.
Qed.

Lemma inv_waiting_no_handle extra s w p r :
  sched_inv extra s w -> p ∈ waiting_ s -> requests_ s !! p = Some r ->
  handles_ s !! id_ r = None.
Proof.
  intros Hinv Hw Hr. destruct (handles_ s !! id_ r) as [h|] eqn:E; [exfalso|done].
  destruct (inv_handles _ _ _ Hinv _ _ E) as (q & r' & Hd & Hr' & Hid).
  assert (p = q) as <-.
  { eapply (inv_ids _ _ _ Hinv p q); eauto using active_waiting, active_decoding. }
  by eapply inv_disjoint.
Qed.

Lemma inv_later extra s w w' :
  time w <= time w' -> live w' = live w -> sched_inv extra s w -> sched_inv extra s w'.
Proof.
  intros Ht Hl []. split; try done.
  - intros p r Hr. eapply request_wf_later; eauto.
  - by rewrite Hl.
Qed.

Lemma ex_lookup_delete (m : gmap RequestId SequenceHandle) (id0 : RequestId) (h : SequenceHandle) :
  (exists id, delete id0 m !! id = Some h) ->
  exists id, id0 <> id /\ m !! id = Some h.
Proof. intros (id & [? ?]%lookup_delete_Some). eauto. Qed.

(** ** Transitions through a pointer *)

Lemma transition_ok p to s w r :
  requests_ s !! p = Some r -> request_wf (time w) r ->
  is_valid_transition (req_state r) to = true ->
  exists lc w', transition p to s w =
      Ok (set_requests (<[p := set_lifecycle lc r]> (requests_ s)) s, w') /\
    request_wf (time w') (set_lifecycle lc r) /\ history_kept (lifecycle_ r) lc /\
    state_ lc = to /\ live w' = live w /\ world_ext w w'.
Proof.
  intros Hr Hwf Hv. unfold transition, deref. rewrite Hr. simpl.
  destruct (transition_to_total to (lifecycle_ r) w Hv) as (t & w' & Hc & E).
  pose proof (transition_to_wf _ _ _ _ _ (req_lifecycle _ _ Hwf) E) as [Hlc Ht].
  pose proof (clock_now_ext _ _ _ Hc) as (Hext & Hl & _).
  pose proof (transition_to_kept _ _ _ _ _ (req_lifecycle _ _ Hwf) E) as Hkept.
  rewrite E. simpl. do 2 eexists. split; [done|]. split; [|done].
  apply set_lifecycle_wf; [by eapply request_wf_later|done|done].
Qed.

(** The entry of a transition is stamped with a reading of the clock. *)
Lemma transition_stamp p to s w s' w' r' :
  transition p to s w = Ok (s', w') -> requests_ s' !! p = Some r' ->
  entered_at to (lifecycle_ r') = Some (entered_at_ (lifecycle_ r')) /\
  time w <= entered_at_ (lifecycle_ r').
Proof.
  unfold transition, deref. intros H Hr'. inv_ok.
  match goal with H : transition_to _ _ _ = _ |- _ =>
    apply transition_to_inv in H as (_ & t & Hc & ->) end.
  rewrite list_lookup_insert_eq in Hr' by (eapply lookup_lt_Some; eauto).
  injection Hr' as <-. simpl. apply clock_read in Hc.
  split; [|lia]. unfold entered_at. simpl. apply lookup_insert_eq.
Qed.

(** ** Retiring a request

    [r] is what the store holds for [p]: the caller may already have moved it
    along its lifecycle or given it its last token. *)
Lemma retire_ok extra p term s0 s w0 w r0 r :
  sched_inv extra s0 w0 -> active s0 p -> requests_ s0 !! p = Some r0 ->
  s = set_requests (<[p := r]> (requests_ s0)) s0 -> id_ r = id_ r0 ->
  request_wf (time w) r -> time w0 <= time w -> live w = live w0 ->
  is_terminal term = true -> is_valid_transition (req_state r) term = true ->
  exists lc w', retire p term s w =
      Ok (mkScheduler (<[p := set_lifecycle lc r]> (requests_ s0))
            (remove_first p (waiting_ s0)) (remove_first p (decoding_ s0))
            (delete (id_ r) (handles_ s0)), w') /\
    state_ lc = term /\ history_kept (lifecycle_ r) lc /\
    request_wf (time w') (set_lifecycle lc r) /\ world_ext w w' /\
    (forall h, h ∈ live w' <-> h ∈ live w0 /\ handles_ s0 !! id_ r <> Some (mkHandle h)).
Proof.
  intros Hinv Hact Hr0 -> Hid Hwf Ht Hl Hterm Hv.
  assert (Hp : (p < length (requests_ s0))%nat) by (eapply lookup_lt_Some; eauto).
  unfold retire.
  destruct (transition_ok p term (set_requests (<[p := r]> (requests_ s0)) s0) w r)
    as (lc & w1 & E & Hwf1 & Hk & Hst & Hl1 & Hext1); [|done|done|].
  { simpl. by apply list_lookup_insert_eq. }
  rewrite E. simpl. rewrite list_insert_insert_eq. unfold deref.
  unfold set_requests at 1. simpl. rewrite list_lookup_insert_eq by done. simpl.
  destruct (handles_ s0 !! id_ r) as [h|] eqn:Hh.
  - destruct (release_contract h w1) as (w2 & E2 & Hl2 & Ht2 & Hf2 & Hfd2).
    { rewrite Hl1, Hl. apply (inv_live _ _ _ Hinv). left. exists (id_ r).
      destruct h; done. }
    rewrite E2. simpl. exists lc, w2. split; [done|]. split; [done|]. split; [done|].
    assert (Hext2 : world_ext w1 w2) by done.
    split; [by eapply request_wf_later|]. split; [by etrans|].
    intros h'. rewrite Hl2, Hl1, Hl, elem_of_difference, elem_of_singleton.
    destruct h; simpl. split; intros [? Hne]; (split; [done|]); congruence.
  - simpl. exists lc, w1. split.
    { by rewrite (delete_id (handles_ s0)). }
    split; [done|]. split; [done|]. split; [done|]. split; [done|].
    intros h'. rewrite Hl1, Hl. split; [|tauto]. intros ?. split; [done|]. congruence.
Qed.

Lemma increasing_remove (p : nat) (l k : list nat) :
  increasing (l ++ k) -> increasing (remove_first p l ++ remove_first p k).
Proof.
  apply increasing_sublist. apply sublist_app; apply remove_first_sublist.
Qed.

(** The handles owned after an erasure and after an insertion in [handles_]. *)
Lemma owns_delete s s' id :
  (forall id1 id2 h, handles_ s !! id1 = Some h -> handles_ s !! id2 = Some h -> id1 = id2) ->
  handles_ s' = delete id (handles_ s) ->
  forall h, owns s' h <-> owns s h /\ handles_ s !! id <> Some (mkHandle h).
Proof.
  intros Hinj Hs' h. unfold owns. rewrite Hs'. split.
  - intros (id' & Hne & Hd)%ex_lookup_delete. split; [eauto|].
    intros Heq. apply Hne. by eapply Hinj.
  - intros [(id' & Hd) Hne]. exists id'. rewrite lookup_delete_ne; [done|]. congruence.
Qed.

Lemma owns_insert s s' id h :
  handles_ s !! id = None -> handles_ s' = <[id := mkHandle h]> (handles_ s) ->
  forall k, owns s' k <-> owns s k \/ k = h.
Proof.
  intros Hnone Hs' k. unfold owns. rewrite Hs'. split.
  - intros (id' & [[_ ?]|[? ?]]%lookup_insert_Some); [right; congruence|eauto].
  - intros [(id' & Hk)| ->].
    + exists id'. rewrite lookup_insert_ne; [done|]. congruence.
    + exists id. by rewrite lookup_insert_eq.
Qed.

(** The invariant after a retirement. *)
Lemma inv_retire extra p s0 w0 s' w' r0 r' :
  sched_inv extra s0 w0 -> active s0 p -> requests_ s0 !! p = Some r0 ->
  s' = mkScheduler (<[p := r']> (requests_ s0)) (remove_first p (waiting_ s0))
         (remove_first p (decoding_ s0)) (delete (id_ r0) (handles_ s0)) ->
  is_terminal (req_state r') = true ->
  request_wf (time w') r' -> time w0 <= time w' ->
  (forall h, h ∈ live w' <-> h ∈ live w0 /\ handles_ s0 !! id_ r0 <> Some (mkHandle h)) ->
  sched_inv extra s' w'.
Proof.
  intros Hinv Hact Hr0 Hs' Hterm Hwf Ht Hlive.
  assert (Hp : (p < length (requests_ s0))%nat) by (eapply lookup_lt_Some; eauto).
  pose proof (inv_NoDup _ _ _ Hinv) as [Hnw Hnd].
  assert (Hsub : forall q, active s' q <-> active s0 q /\ q <> p).
  { intros q. rewrite Hs'. unfold active. simpl.
    rewrite !elem_of_app, !elem_of_remove_first by done. tauto. }
  assert (Hlk : forall q r, q <> p -> requests_ s' !! q = Some r -> requests_ s0 !! q = Some r).
  { intros q r Hne. rewrite Hs'. simpl. by rewrite list_lookup_insert_ne. }
  assert (Howns : forall h, owns s' h <->
    owns s0 h /\ handles_ s0 !! id_ r0 <> Some (mkHandle h)).
  { apply owns_delete; [apply (inv_inj _ _ _ Hinv)|by rewrite Hs']. }
  split.
  - rewrite Hs'. simpl. apply increasing_remove, (inv_order _ _ _ Hinv).
  - rewrite Hs'. simpl. intros q [Hq Hne]%elem_of_remove_first; [|done].
    rewrite list_lookup_insert_ne by done. by apply (inv_waiting _ _ _ Hinv).
  - rewrite Hs'. simpl. intros q [Hq Hne]%elem_of_remove_first; [|done].
    rewrite list_lookup_insert_ne by done.
    destruct (inv_decoding _ _ _ Hinv q Hq) as (r & h & Hr & Hst & Hh).
    exists r, h. split; [done|]. split; [done|].
    rewrite lookup_delete_ne; [done|]. intros Hid. apply Hne. symmetry.
    eapply (inv_ids _ _ _ Hinv p q); eauto using active_decoding.
  - intros q r Hr Hna. destruct (decide (q = p)) as [->|Hne].
    + rewrite Hs' in Hr. simpl in Hr. rewrite list_lookup_insert_eq in Hr by done.
      by simplify_eq.
    + eapply (inv_rest _ _ _ Hinv q); [by apply Hlk|]. rewrite Hsub in Hna. tauto.
  - intros q r Hr. destruct (decide (q = p)) as [->|Hne].
    + rewrite Hs' in Hr. simpl in Hr. rewrite list_lookup_insert_eq in Hr by done.
      by simplify_eq.
    + eapply request_wf_later, (inv_wf _ _ _ Hinv q); [done|]. by apply Hlk.
  - intros q r [Hq Hne]%Hsub Hr. eapply (inv_budget _ _ _ Hinv q); [done|]. by apply Hlk.
  - intros q1 q2 r1 r2 [? ?]%Hsub [? ?]%Hsub ? ? ?.
    eapply (inv_ids _ _ _ Hinv q1 q2 r1 r2); eauto.
  - rewrite Hs'. simpl. intros id h [Hne Hd]%lookup_delete_Some.
    destruct (inv_handles _ _ _ Hinv id h Hd) as (q & r & Hq & Hr & Hid).
    assert (q <> p) by (intros ->; congruence).
    exists q, r. rewrite elem_of_remove_first, list_lookup_insert_ne by done. done.
  - rewrite Hs'. simpl. intros id1 id2 h [_ H1]%lookup_delete_Some [_ H2]%lookup_delete_Some.
    by eapply (inv_inj _ _ _ Hinv).
  - intros h. rewrite Hlive, Howns, (inv_live _ _ _ Hinv h).
    pose proof (inv_extra _ _ _ Hinv h) as Hx. split; [tauto|].
    intros [?|Hh]; [tauto|]. split; [by right|]. intros Heq. apply (Hx Hh). by exists (id_ r0).
  - intros h Hh%(inv_extra _ _ _ Hinv). rewrite Howns. tauto.
Qed.

(** The two together: the call returns and the invariant holds again. *)
Lemma retire_inv extra p term s0 s w0 w r0 r :
  sched_inv extra s0 w0 -> active s0 p -> requests_ s0 !! p = Some r0 ->
  s = set_requests (<[p := r]> (requests_ s0)) s0 -> id_ r = id_ r0 ->
  request_wf (time w) r -> time w0 <= time w -> live w = live w0 ->
  is_terminal term = true -> is_valid_transition (req_state r) term = true ->
  exists lc s' w', retire p term s w = Ok (s', w') /\
    sched_inv extra s' w' /\ world_ext w w' /\ state_ lc = term /\
    history_kept (lifecycle_ r) lc /\
    s' = mkScheduler (<[p := set_lifecycle lc r]> (requests_ s0))
           (remove_first p (waiting_ s0)) (remove_first p (decoding_ s0))
           (delete (id_ r0) (handles_ s0)).
Proof.
  intros Hinv Hact Hr0 Hs Hid Hwf Ht Hl Hterm Hv.
  destruct (retire_ok extra p term s0 s w0 w r0 r) as
    (lc & w' & E & Hst & Hk & Hwf' & Hext & Hlive); [done..|].
  rewrite Hid in E, Hlive.
  do 3 eexists. split; [exact E|]. split; [|by eauto].
  pose proof (world_ext_time _ _ Hext).
  eapply inv_retire; [done..| | |lia|done]; [|done]. unfold req_state. simpl. by rewrite Hst.
Qed.

(** ** Replacing the record of one request *)

Lemma lookup_replace s p q r r' :
  (p < length (requests_ s))%nat -> <[p := r']> (requests_ s) !! q = Some r ->
  (q = p /\ r = r') \/ (q <> p /\ requests_ s !! q = Some r).
Proof.
  intros Hp. destruct (decide (q = p)) as [->|Hne].
  - rewrite list_lookup_insert_eq by done. naive_solver.
  - rewrite list_lookup_insert_ne by done. auto.
Qed.

(** ** Promotion from waiting to decoding *)
Lemma inv_promote extra p rest h s0 w0 s' w' r0 r' :
  sched_inv extra s0 w0 -> waiting_ s0 = p :: rest -> requests_ s0 !! p = Some r0 ->
  h ∈ extra ->
  s' = mkScheduler (<[p := r']> (requests_ s0)) rest (decoding_ s0 ++ [p])
         (<[id_ r0 := mkHandle h]> (handles_ s0)) ->
  id_ r' = id_ r0 -> req_state r' = kDecoding ->
  output_tokens_emitted_ r' < max_output_tokens_ r' ->
  request_wf (time w') r' -> time w0 <= time w' -> live w' = live w0 ->
  sched_inv (extra ∖ {[h]}) s' w'.
Proof.
  intros Hinv Hwt Hr0 Hh Hs' Hid Hst Hbud Hwf Ht Hlive.
  assert (Hp : (p < length (requests_ s0))%nat) by (eapply lookup_lt_Some; eauto).
  pose proof (fun q r => lookup_replace s0 p q r r' Hp) as Hlk.
  assert (Hpw : p ∈ waiting_ s0) by (rewrite Hwt; set_solver).
  pose proof (inv_NoDup _ _ _ Hinv) as [Hnw Hnd].
  rewrite Hwt in Hnw. apply NoDup_cons in Hnw as [Hpr Hnw].
  pose proof (inv_waiting_no_handle _ _ _ _ _ Hinv Hpw Hr0) as Hnone.
  assert (Hreq : requests_ s' = <[p := r']> (requests_ s0)) by (by rewrite Hs').
  assert (Hact : forall q, active s' q <-> active s0 q).
  { intros q. rewrite Hs'. unfold active. simpl. rewrite Hwt. set_solver. }
  assert (Howns : forall k, owns s' k <-> owns s0 k \/ k = h)
    by (apply (owns_insert s0 s' (id_ r0)); [done|by rewrite Hs']).
  assert (Hfresh : forall id, handles_ s0 !! id <> Some (mkHandle h)).
  { intros id Hd. eapply (inv_extra _ _ _ Hinv h Hh). by exists id. }
  split.
  - rewrite Hs'. simpl. rewrite <- (assoc_L (++)). simpl. rewrite <- Hwt.
    apply (inv_order _ _ _ Hinv).
  - rewrite Hs'. simpl. intros q Hq. rewrite list_lookup_insert_ne by set_solver.
    apply (inv_waiting _ _ _ Hinv). rewrite Hwt. set_solver.
  - rewrite Hs'. simpl. intros q [Hq| ->%list_elem_of_singleton]%elem_of_app.
    + destruct (inv_decoding _ _ _ Hinv q Hq) as (r & k & Hr & Hrs & Hk).
      rewrite list_lookup_insert_ne by (intros ->; eapply inv_disjoint; eauto).
      exists r, k. split; [done|]. split; [done|].
      rewrite lookup_insert_ne; [done|]. congruence.
    + exists r', (mkHandle h). rewrite list_lookup_insert_eq by done.
      rewrite Hid, lookup_insert_eq. done.
  - rewrite Hreq. intros q r [[-> ->]|[Hne Hr]]%Hlk Hna.
    + exfalso. apply Hna, Hact. by apply active_waiting.
    + eapply (inv_rest _ _ _ Hinv q); [done|]. by rewrite <- Hact.
  - rewrite Hreq. intros q r [[-> ->]|[Hne Hr]]%Hlk; [done|].
    eapply request_wf_later, (inv_wf _ _ _ Hinv q); done.
  - rewrite Hreq. intros q r Hq%Hact [[-> ->]|[Hne Hr]]%Hlk; [done|].
    by eapply (inv_budget _ _ _ Hinv q).
  - rewrite Hreq. intros q1 q2 r1 r2 H1%Hact H2%Hact
      [[-> ->]|[? Hr1]]%Hlk [[-> ->]|[? Hr2]]%Hlk; try done;
      rewrite ?Hid; intros; eapply (inv_ids _ _ _ Hinv); eauto.
  - rewrite Hs'. simpl. intros id k [[<- <-]|[Hne Hk]]%lookup_insert_Some.
    + exists p, r'. rewrite list_lookup_insert_eq by done. set_solver.
    + destruct (inv_handles _ _ _ Hinv id k Hk) as (q & r & Hq & Hr & Hrid).
      exists q, r. rewrite list_lookup_insert_ne
        by (intros ->; eapply inv_disjoint; eauto). set_solver.
  - rewrite Hs'. simpl. intros id1 id2 k
      [[<- <-]|[? H1]]%lookup_insert_Some [[<- H2]|[? H2]]%lookup_insert_Some;
      try done; [by destruct (Hfresh id2)|subst; by destruct (Hfresh id1)|].
    by eapply (inv_inj _ _ _ Hinv).
  - intros k. rewrite Hlive, Howns, (inv_live _ _ _ Hinv k), elem_of_difference,
      elem_of_singleton. destruct (decide (k = h)) as [->|]; tauto.
  - intros k [Hk Hne]%elem_of_difference. rewrite Howns.
    pose proof (inv_extra _ _ _ Hinv k Hk). set_solver.
Qed.

(** ** A token for a decoding request *)
Lemma inv_emit extra p s0 w0 s' w' r0 r' :
  sched_inv extra s0 w0 -> p ∈ decoding_ s0 -> requests_ s0 !! p = Some r0 ->
  s' = set_requests (<[p := r']> (requests_ s0)) s0 ->
  id_ r' = id_ r0 -> req_state r' = kDecoding ->
  output_tokens_emitted_ r' < max_output_tokens_ r' ->
  request_wf (time w') r' -> time w0 <= time w' -> live w' = live w0 ->
  sched_inv extra s' w'.
Proof.
  intros Hinv Hd Hr0 -> Hid Hst Hbud Hwf Ht Hlive.
  assert (Hp : (p < length (requests_ s0))%nat) by (eapply lookup_lt_Some; eauto).
  pose proof (fun q r => lookup_replace s0 p q r r' Hp) as Hlk.
  split; simpl; try (by destruct Hinv).
  - intros q Hq. rewrite list_lookup_insert_ne by (intros ->; eapply inv_disjoint; eauto).
    by apply (inv_waiting _ _ _ Hinv).
  - intros q Hq. destruct (inv_decoding _ _ _ Hinv q Hq) as (r & h & Hr & Hrs & Hh).
    destruct (decide (q = p)) as [->|Hne].
    + simplify_eq. exists r', h. rewrite list_lookup_insert_eq by done. by rewrite Hid.
    + exists r, h. by rewrite list_lookup_insert_ne.
  - intros q r [[-> ->]|[Hne Hr]]%Hlk Hna.
    + exfalso. apply Hna. by apply active_decoding.
    + by eapply (inv_rest _ _ _ Hinv q).
  - intros q r [[-> ->]|[Hne Hr]]%Hlk; [done|].
    eapply request_wf_later, (inv_wf _ _ _ Hinv q); done.
  - intros q r Hq [[-> ->]|[Hne Hr]]%Hlk; [done|].
    by eapply (inv_budget _ _ _ Hinv q).
  - intros q1 q2 r1 r2 H1 H2
      [[-> ->]|[? Hr1]]%Hlk [[-> ->]|[? Hr2]]%Hlk; try done;
      rewrite ?Hid; intros; eapply (inv_ids _ _ _ Hinv); eauto.
  - intros id k Hk. destruct (inv_handles _ _ _ Hinv id k Hk) as (q & r & Hq & Hr & Hrid).
    destruct (decide (q = p)) as [->|Hne].
    + simplify_eq. exists p, r'. by rewrite list_lookup_insert_eq.
    + exists q, r. by rewrite list_lookup_insert_ne.
  - rewrite Hlive. apply (inv_live _ _ _ Hinv).
Qed.

(** ** Admission of a new request *)
Lemma inv_submit extra s0 w0 s' w' r' :
  sched_inv extra s0 w0 ->
  (forall q r, active s0 q -> requests_ s0 !! q = Some r -> id_ r <> id_ r') ->
  s' = mkScheduler (requests_ s0 ++ [r']) (waiting_ s0 ++ [length (requests_ s0)])
         (decoding_ s0) (handles_ s0) ->
  req_state r' = kWaitingPrefill ->
  output_tokens_emitted_ r' < max_output_tokens_ r' ->
  request_wf (time w') r' -> time w0 <= time w' -> live w' = live w0 ->
  sched_inv extra s' w'.
Proof.
  intros Hinv Hids Hs' Hst Hbud Hwf Ht Hlive.
  set (n := length (requests_ s0)) in *.
  assert (Hlt : forall q, active s0 q -> (q < n)%nat).
  { intros q Hq. destruct (inv_active_lookup _ _ _ _ Hinv Hq) as [r Hr].
    by eapply lookup_lt_Some. }
  assert (Hreq : requests_ s' = requests_ s0 ++ [r']) by (by rewrite Hs').
  assert (Hact : forall q, active s' q <-> active s0 q \/ q = n).
  { intros q. rewrite Hs'. unfold active. simpl. set_solver. }
  assert (Hold : forall q r, active s0 q ->
    (requests_ s0 ++ [r']) !! q = Some r -> requests_ s0 !! q = Some r).
  { intros q r Hq%Hlt. by rewrite lookup_app_l. }
  assert (Hcase : forall q r, (requests_ s0 ++ [r']) !! q = Some r ->
    requests_ s0 !! q = Some r \/ (q = n /\ r = r')).
  { intros q r [?|[Hge Hr]]%lookup_app_Some; [by left|right].
    apply list_lookup_singleton_Some in Hr as [? ->]. fold n in Hge. split; [lia|done]. }
  assert (Hnew : (requests_ s0 ++ [r']) !! n = Some r').
  { unfold n. by rewrite list_lookup_middle. }
  assert (Hin : forall q r, active s0 q -> requests_ s0 !! q = Some r ->
    (requests_ s0 ++ [r']) !! q = Some r).
  { intros q r _ Hr. by apply lookup_app_l_Some. }
  split.
  - rewrite Hs'. simpl. rewrite (assoc_L (++)). apply increasing_app_single.
    + apply (inv_order _ _ _ Hinv).
    + apply Forall_forall. intros q Hq. by apply Hlt.
  - rewrite Hs'. simpl. intros q [Hq| ->%list_elem_of_singleton]%elem_of_app; [|eauto].
    destruct (inv_waiting _ _ _ Hinv q Hq) as (r & ? & ?).
    eauto using active_waiting.
  - rewrite Hs'. simpl. intros q Hq.
    destruct (inv_decoding _ _ _ Hinv q Hq) as (r & h & ? & ? & ?).
    eauto 10 using active_decoding.
  - rewrite Hreq. intros q r [Hr|[-> ->]]%Hcase Hna.
    + eapply (inv_rest _ _ _ Hinv q); [done|]. rewrite Hact in Hna. tauto.
    + exfalso. apply Hna, Hact. by right.
  - rewrite Hreq. intros q r [Hr|[-> ->]]%Hcase; [|done].
    eapply request_wf_later, (inv_wf _ _ _ Hinv q); done.
  - rewrite Hreq. intros q r [Hq| ->]%Hact Hr.
    + eapply (inv_budget _ _ _ Hinv q); eauto.
    + rewrite Hnew in Hr. by simplify_eq.
  - rewrite Hreq. intros q1 q2 r1 r2 [H1| ->]%Hact [H2| ->]%Hact Hr1 Hr2 Hid;
      rewrite ?Hnew in *; simplify_eq; try done.
    + eapply (inv_ids _ _ _ Hinv q1 q2); eauto.
    + by destruct (Hids q1 r1 H1 (Hold _ _ H1 Hr1)).
    + by destruct (Hids q2 r2 H2 (Hold _ _ H2 Hr2)).
  - rewrite Hs'. simpl. intros id k Hk.
    destruct (inv_handles _ _ _ Hinv id k Hk) as (q & r & Hq & Hr & Hrid).
    eauto 10 using active_decoding.
  - rewrite Hs'. simpl. apply (inv_inj _ _ _ Hinv).
  - intros h. rewrite Hlive, Hs'. apply (inv_live _ _ _ Hinv).
  - intros h Hh. rewrite Hs'. by apply (inv_extra _ _ _ Hinv).
Qed.

End Invariant.
