(* ===== verification/SchedulerCorrect.v ===== *)
(** * Correctness of the scheduler's operations

    [submit], the three phases of [tick], [tick] itself and [cancel]: from a
    state that satisfies [sched_inv] each of them returns (no panic, no
    exception, no bad index), the invariant holds again, and its effect on
    every request is the one stated by the relations below, as a function of
    what the backend answered ([prefill_effect], [decode_effect] for the phases,
    [answer_effect] for a whole tick). *)

From S2P Require Import Prelude Clock RequestState RequestLifecycle Request Backend FifoScheduler SchedulerInvariant.

(** ** What happens to one request *)

(** What no operation changes. *)
Definition same_meta (r r' : Request) : Prop :=
  id_ r' = id_ r /\ deadline_at_ r' = deadline_at_ r /\
  max_output_tokens_ r' = max_output_tokens_ r /\
  prompt_token_ids_ r' = prompt_token_ids_ r /\
  history_kept (lifecycle_ r) (lifecycle_ r').

(** Its lifecycle moved to [to]; its output is untouched. *)
Definition moved (to : RequestState) (r r' : Request) : Prop :=
  same_meta r r' /\ req_state r' = to /\
  output_tokens_emitted_ r' = output_tokens_emitted_ r /\
  output_token_ids_ r' = output_token_ids_ r.

(** It received the token [tok]. *)
Definition got_token (tok : Z) (r r' : Request) : Prop :=
  same_meta r r' /\
  output_tokens_emitted_ r' = output_tokens_emitted_ r + 1 /\
  output_token_ids_ r' = output_token_ids_ r ++ [tok].

(** What one tick does to a request it is working on: failure with the output
    untouched, or exactly one more token, the last one completing it. *)
Definition tick_effect (r r' : Request) : Prop :=
  moved kFailed r r' \/
  (exists tok, got_token tok r r' /\ (req_state r' = kDecoding \/ req_state r' = kCompleted)).

(** The store keeps its requests in place; the request at [p] evolves as [R p]
    says. *)
Definition evolves (R : RequestPtr -> Request -> Request -> Prop) (s s' : FifoScheduler) : Prop :=
  length (requests_ s') = length (requests_ s) /\
  forall p r, requests_ s !! p = Some r ->
    exists r', requests_ s' !! p = Some r' /\ R p r r'.

(** Only the requests of [l] change, and they change as [R] says. *)
Definition only (l : list RequestPtr) (R : RequestPtr -> Request -> Request -> Prop)
    (p : RequestPtr) (r r' : Request) : Prop :=
  (p ∈ l /\ R p r r') \/ ((p ∉ l) /\ r' = r).

Lemma same_meta_trans r1 r2 r3 : same_meta r1 r2 -> same_meta r2 r3 -> same_meta r1 r3.
Proof.
  intros (? & ? & ? & ? & ?) (? & ? & ? & ? & ?). split_and!; try congruence. by etrans.
Qed.

Lemma moved_set_lifecycle (lc : RequestLifecycle) (r : Request) :
  history_kept (lifecycle_ r) lc -> moved (state_ lc) r (set_lifecycle lc r).
Proof. done. Qed.

Lemma moved_trans s1 s2 r1 r2 r3 : moved s1 r1 r2 -> moved s2 r2 r3 -> moved s2 r1 r3.
Proof.
  intros (? & ? & ? & ?) (? & ? & ? & ?). split; [by eapply same_meta_trans|].
  split; [done|]. split; congruence.
Qed.

Lemma got_token_moved tok st r1 r2 r3 :
  got_token tok r1 r2 -> moved st r2 r3 -> got_token tok r1 r3.
Proof.
  intros (? & ? & ?) (? & ? & ? & ?). split; [by eapply same_meta_trans|]. split; congruence.
Qed.

Lemma moved_got_token tok st r1 r2 r3 :
  moved st r1 r2 -> got_token tok r2 r3 -> got_token tok r1 r3.
Proof.
  intros (? & ? & ? & ?) (? & ? & ?). split; [by eapply same_meta_trans|]. split; congruence.
Qed.

Lemma evolves_refl R s : (forall p r, R p r r) -> evolves R s s.
Proof. intros HR. split; [done|]. eauto. Qed.

Lemma evolves_trans R1 R2 (R3 : RequestPtr -> Request -> Request -> Prop) s1 s2 s3 :
  evolves R1 s1 s2 -> evolves R2 s2 s3 ->
  (forall p r1 r2 r3, R1 p r1 r2 -> R2 p r2 r3 -> R3 p r1 r3) -> evolves R3 s1 s3.
Proof.
  intros [Hl1 H1] [Hl2 H2] H12. split; [congruence|]. intros p r Hr.
  destruct (H1 p r Hr) as (r' & Hr' & ?). destruct (H2 p r' Hr') as (r'' & Hr'' & ?). eauto.
Qed.

Lemma evolves_insert (R : RequestPtr -> Request -> Request -> Prop) s s' p r r' :
  requests_ s !! p = Some r -> requests_ s' = <[p := r']> (requests_ s) ->
  R p r r' -> evolves (only [p] R) s s'.
Proof.
  intros Hr Hs' HR. rewrite <- (list_insert_id _ _ _ Hr) in Hs' at 1.
  pose proof (lookup_lt_Some _ _ _ Hr) as Hp.
  split; [by rewrite Hs', !length_insert|]. rewrite Hs', list_insert_insert_eq.
  intros q rq Hq. destruct (decide (q = p)) as [->|Hne].
  - rewrite list_lookup_insert_eq by done. simplify_eq. exists r'. split; [done|].
    left. set_solver.
  - rewrite list_lookup_insert_ne by done. exists rq. split; [done|]. right. set_solver.
Qed.

Lemma only_nil_refl R p r : only [] R p r r.
Proof. right. set_solver. Qed.

Lemma only_app (R : RequestPtr -> Request -> Request -> Prop) l1 l2 p r1 r2 r3 :
  l1 ## l2 -> only l1 R p r1 r2 -> only l2 R p r2 r3 -> only (l1 ++ l2) R p r1 r3.
Proof.
  intros Hp [[H1 ?]|[Hn ->]] [[Hl H2]|[Hl ->]].
  - by destruct (Hp p).
  - left. set_solver.
  - left. set_solver.
  - right. set_solver.
Qed.

Lemma only_cons (R : RequestPtr -> Request -> Request -> Prop) p0 l p r1 r2 r3 :
  p0 ∉ l -> only [p0] R p r1 r2 -> only l R p r2 r3 -> only (p0 :: l) R p r1 r3.
Proof.
  intros Hp [[->%list_elem_of_singleton H1]|[Hn ->]] [[Hl H2]|[Hl ->]].
  - done.
  - left. set_solver.
  - left. set_solver.
  - right. set_solver.
Qed.

Lemma evolves_mono (R1 R2 : RequestPtr -> Request -> Request -> Prop) s s' :
  (forall p r r', R1 p r r' -> R2 p r r') -> evolves R1 s s' -> evolves R2 s s'.
Proof.
  intros HR [Hl H]. split; [done|]. intros p r Hr.
  destruct (H p r Hr) as (r' & ? & ?). eauto.
Qed.

Lemma only_mono (R1 R2 : RequestPtr -> Request -> Request -> Prop) l p r r' :
  (forall p r r', R1 p r r' -> R2 p r r') -> only l R1 p r r' -> only l R2 p r r'.
Proof. intros HR [[? ?]|?]; [left; eauto|by right]. Qed.

(** The effect of a request's outcome, for the requests and outcomes of one
    batch in order. *)
Definition by_outcome {O} (eff : O -> Request -> Request -> Prop)
    (pending : list RequestPtr) (outcomes : list O)
    (p : RequestPtr) (r r' : Request) : Prop :=
  exists o, (p, o) ∈ zip pending outcomes /\ eff o r r'.

Lemma by_outcome_cons {O} (eff : O -> Request -> Request -> Prop) p o ps os q r r' :
  by_outcome eff ps os q r r' -> by_outcome eff (p :: ps) (o :: os) q r r'.
Proof. intros (o' & ? & ?). exists o'. simpl. set_solver. Qed.

Lemma evolves_by_outcome {O} (eff : O -> Request -> Request -> Prop) p o ps os s1 s2 s3 :
  p ∉ ps -> evolves (only [p] (fun _ => eff o)) s1 s2 ->
  evolves (only ps (by_outcome eff ps os)) s2 s3 ->
  evolves (only (p :: ps) (by_outcome eff (p :: ps) (o :: os))) s1 s3.
Proof.
  intros Hp H1 H2. eapply evolves_trans; [exact H1|exact H2|].
  intros q r1 r2 r3 Ho1 Ho2. eapply (only_cons _ p ps); [done| |].
  - destruct Ho1 as [[->%list_elem_of_singleton ?]|?]; [left|by right].
    split; [set_solver|]. exists o. simpl. set_solver.
  - eapply only_mono, Ho2. intros. by apply by_outcome_cons.
Qed.

(** The state a prefill outcome leads to. *)
Definition prefill_effect (o : expected PrefillOutcome) (r r' : Request) : Prop :=
  match o with
  | Value _ => moved kDecoding r r'
  | Unexpected _ => moved kFailed r r'
  end.

(** The state a decode outcome leads to: [finished] is the backend's own end of
    sequence, the budget is Tokamak's. *)
Definition decode_effect (o : expected DecodedToken) (r r' : Request) : Prop :=
  match o with
  | Value v =>
      got_token (token_id v) r r' /\
      req_state r' =
        if finished v || (max_output_tokens_ r <=? output_tokens_emitted_ r + 1)
        then kCompleted else kDecoding
  | Unexpected _ => moved kFailed r r'
  end.

(** The requests of a batch whose outcome was a success, in batch order. *)
Fixpoint promoted (pending : list RequestPtr) (outcomes : list (expected PrefillOutcome))
  : list RequestPtr :=
  match pending, outcomes with
  | p :: pending, Value _ :: outcomes => p :: promoted pending outcomes
  | _ :: pending, Unexpected _ :: outcomes => promoted pending outcomes
  | _, _ => []
  end.

(** What the outcomes of a prefill leave in the handle table: each success has
    its own handle recorded under its request's id, nothing else changes. *)
Record handles_minted (pending : list RequestPtr) (os : list (expected PrefillOutcome))
    (s s' : FifoScheduler) : Prop := {
  minted_recorded p v r : (p, Value v) ∈ zip pending os -> requests_ s !! p = Some r ->
    handles_ s' !! id_ r = Some (outcome_handle v);
  minted_kept id : (forall p r, p ∈ promoted pending os -> requests_ s !! p = Some r -> id_ r <> id) ->
    handles_ s' !! id = handles_ s !! id;
}.

Lemma elem_of_zip_fst {A B} (l : list A) (k : list B) (a : A) (b : B) :
  (a, b) ∈ zip l k -> a ∈ l.
Proof.
  revert k. induction l as [|x l IH]; intros [|y k]; simpl; try set_solver.
Qed.

Lemma promoted_in pending os p : p ∈ promoted pending os -> p ∈ pending.
Proof.
  revert os. induction pending as [|q pending IH]; intros [|[v|e] os]; simpl; try set_solver.
Qed.

(** The prefill batch of a list of requests. *)
Definition prefill_request_of (s : FifoScheduler) (p : RequestPtr) : option PrefillRequest :=
  r ← requests_ s !! p; Some (mkPrefillRequest (mkTokenizedPrompt (prompt_token_ids_ r))).

Definition batch_of (l : list RequestPtr) (s : FifoScheduler) : PrefillBatch :=
  mkPrefillBatch (omap (prefill_request_of s) l).
Arguments batch_of : simpl never.

(** The decode batch of a list of requests: their recorded handles, in order. *)
Definition decode_request_of (s : FifoScheduler) (p : RequestPtr) : option DecodeRequest :=
  r ← requests_ s !! p; h ← handles_ s !! id_ r; Some (mkDecodeRequest h).

Definition decode_batch_of (l : list RequestPtr) (s : FifoScheduler) : DecodeBatch :=
  mkDecodeBatch (omap (decode_request_of s) l).
Arguments decode_batch_of : simpl never.

Section Correct.
Context {W : Type} `{!Clock W, !ClockLaws W, !InferenceBackend W, !BackendContract W}.
Implicit Types (w : W) (s : FifoScheduler) (p q : RequestPtr) (r : Request).

(** ** [submit] *)
Lemma submit_ok s w r :
  sched_inv ∅ s w -> req_state r = kReceived -> request_wf (time w) r ->
  output_tokens_emitted_ r < max_output_tokens_ r ->
  (forall q rq, active s q -> requests_ s !! q = Some rq -> id_ rq <> id_ r) ->
  exists r' s' w', submit r s w = Ok (length (requests_ s), s', w') /\
    sched_inv ∅ s' w' /\ world_ext w w' /\ live w' = live w /\
    moved kWaitingPrefill r r' /\
    (exists a, entered_at kAdmitted (lifecycle_ r') = Some a /\ time w <= a) /\
    s' = mkScheduler (requests_ s ++ [r']) (waiting_ s ++ [length (requests_ s)])
           (decoding_ s) (handles_ s).
Proof.
  intros Hinv Hst Hwf Hbud Hids. unfold submit. set (n := length (requests_ s)).
  assert (Hins : forall r', <[n := r']> (requests_ s ++ [r]) = requests_ s ++ [r']).
  { intros r'. unfold n. by rewrite insert_app_r_alt, Nat.sub_diag by done. }
  destruct (transition_ok n kAdmitted (set_requests (requests_ s ++ [r]) s) w r)
    as (lc1 & w1 & E1 & Hwf1 & Hk1 & Hst1 & Hl1 & Hext1);
    [simpl; by apply list_lookup_middle|done|by rewrite Hst|].
  assert (Hstamp : entered_at kAdmitted lc1 = Some (entered_at_ lc1) /\ time w <= entered_at_ lc1).
  { apply (transition_stamp _ _ _ _ _ _ (set_lifecycle lc1 r) E1). simpl. rewrite Hins.
    by apply list_lookup_middle. }
  rewrite E1. simpl.
  destruct (transition_ok n kWaitingPrefill
    (set_requests (<[n := set_lifecycle lc1 r]> (requests_ s ++ [r]))
       (set_requests (requests_ s ++ [r]) s)) w1 (set_lifecycle lc1 r))
    as (lc2 & w2 & E2 & Hwf2 & Hk2 & Hst2 & Hl2 & Hext2);
    [simpl; rewrite Hins; by apply list_lookup_middle|done|by rewrite req_state_set, Hst1|].
  rewrite E2. simpl. rewrite list_insert_insert_eq, Hins.
  eexists (set_lifecycle lc2 (set_lifecycle lc1 r)), _, _. split; [done|].
  assert (Hext : world_ext w w2) by (by etrans).
  split; [|split; [done|]; split; [congruence|]; split].
  - pose proof (world_ext_time _ _ Hext).
    eapply inv_submit; [done| |done|done|done|done|done|congruence]. done.
  - split; [|done]. split_and!; try done. simpl. by trans lc1.
  - split; [|done]. exists (entered_at_ lc1). split; [apply (proj1 Hk2), Hstamp|apply Hstamp].
Qed.

(** ** Expiry *)
Lemma collect_expired_ok queue s w :
  (forall p, p ∈ queue -> exists r, requests_ s !! p = Some r) ->
  exists l w', collect_expired queue s w = Ok (l, w') /\
    sublist l queue /\ world_ext w w' /\ live w' = live w /\
    (forall p r, p ∈ l -> requests_ s !! p = Some r -> deadline_at_ r < time w') /\
    (forall p r, p ∈ queue -> p ∉ l -> requests_ s !! p = Some r -> time w <= deadline_at_ r).
Proof.
  revert w. induction queue as [|p queue IH]; intros w Hq; simpl.
  { exists [], w. repeat split; try done; set_solver. }
  destruct (clock_now w) as [t w1] eqn:E1.
  destruct (Hq p) as [r Hr]; [set_solver|]. unfold deref. rewrite Hr. simpl.
  destruct (IH w1) as (l & w2 & E2 & Hsub & Hext2 & Hl2 & Hexp & Hkeep); [set_solver|].
  rewrite E2. simpl. apply clock_now_ext in E1 as (Hext1 & Hl1 & Ht).
  pose proof (world_ext_time _ _ Hext2). pose proof (world_ext_time _ _ Hext1).
  do 2 eexists. split; [done|]. destruct (Z.ltb_spec (deadline_at_ r) t) as [Hlt|Hge].
  - split; [by apply sublist_skip|]. split; [by etrans|]. split; [congruence|]. split.
    + intros q rq [->|Hql]%elem_of_cons Hrq; [simplify_eq; lia|eauto].
    + intros q rq [->|Hql]%elem_of_cons Hnq Hrq; [set_solver|].
      assert (time w1 <= deadline_at_ rq) by (eapply Hkeep; set_solver). lia.
  - split; [by apply sublist_cons|]. split; [by etrans|]. split; [congruence|]. split; [done|].
    intros q rq [->|Hql]%elem_of_cons Hnq Hrq; [simplify_eq; lia|].
    assert (time w1 <= deadline_at_ rq) by (eapply Hkeep; set_solver). lia.
Qed.

(** Common shape of the retiring loops: the requests of [l] end in [term] with
    their output untouched, the queues shrink. *)
Definition retired_list (term : RequestState) (l : list RequestPtr) s w s' w' : Prop :=
  sched_inv ∅ s' w' /\ world_ext w w' /\
  evolves (only l (fun _ => moved term)) s s' /\
  sublist (waiting_ s') (waiting_ s) /\ sublist (decoding_ s') (decoding_ s) /\
  (forall p, p ∉ l -> (p ∈ waiting_ s' <-> p ∈ waiting_ s) /\
                      (p ∈ decoding_ s' <-> p ∈ decoding_ s)).

Lemma retired_list_nil term s w : sched_inv ∅ s w -> retired_list term [] s w s w.
Proof.
  intros. split; [done|]. split; [done|]. split; [|done].
  apply evolves_refl, only_nil_refl.
Qed.

Lemma retired_list_cons term p l s1 w1 s2 w2 s3 w3 :
  p ∉ l -> retired_list term [p] s1 w1 s2 w2 -> retired_list term l s2 w2 s3 w3 ->
  retired_list term (p :: l) s1 w1 s3 w3.
Proof.
  intros Hp (_ & Hx1 & He1 & Hw1 & Hd1 & Hk1) (? & Hx2 & He2 & Hw2 & Hd2 & Hk2).
  split; [done|]. split; [by etrans|]. split.
  { eapply evolves_trans; [exact He1|exact He2|]. intros. by eapply only_cons. }
  split; [by etrans|]. split; [by etrans|].
  intros q [??]%not_elem_of_cons. destruct (Hk1 q), (Hk2 q); set_solver.
Qed.

(** Retiring one request, whatever its lifecycle went through before. *)
Lemma retire_one p term s0 s w0 w r0 r :
  sched_inv ∅ s0 w0 -> active s0 p -> requests_ s0 !! p = Some r0 ->
  s = set_requests (<[p := r]> (requests_ s0)) s0 -> moved (req_state r) r0 r ->
  request_wf (time w) r -> world_ext w0 w -> live w = live w0 ->
  is_terminal term = true -> is_valid_transition (req_state r) term = true ->
  exists s' w', retire p term s w = Ok (s', w') /\ retired_list term [p] s0 w0 s' w'.
Proof.
  intros Hinv Hact Hr0 Hs Hmv Hwf Hext Hl Hterm Hv.
  pose proof (world_ext_time _ _ Hext).
  destruct (retire_inv ∅ p term s0 s w0 w r0 r)
    as (lc & s' & w' & E & Hinv' & Hext' & Hst & Hk & Hs'); try done; [apply Hmv|].
  exists s', w'. split; [done|]. split; [done|]. split; [by etrans|]. split.
  { eapply evolves_insert; [done|by rewrite Hs'|]. subst term.
    eapply moved_trans; [done|by apply moved_set_lifecycle]. }
  pose proof (inv_NoDup _ _ _ Hinv) as [??].
  rewrite Hs'. simpl. split; [apply remove_first_sublist|].
  split; [apply remove_first_sublist|]. intros q Hq.
  rewrite !elem_of_remove_first by done. set_solver.
Qed.

Lemma retire_unchanged p term s w r :
  sched_inv ∅ s w -> active s p -> requests_ s !! p = Some r ->
  is_terminal term = true -> is_valid_transition (req_state r) term = true ->
  exists s' w', retire p term s w = Ok (s', w') /\ retired_list term [p] s w s' w'.
Proof.
  intros Hinv Hact Hr Hterm Hv.
  apply (retire_one p term s s w w r r); try done.
  - rewrite list_insert_id by done. by destruct s.
  - by eapply inv_wf.
Qed.

(** Failing a waiting request: the stop-over in [kPrefilling], then [kFailed]. *)
Lemma fail_waiting_one p s w :
  sched_inv ∅ s w -> p ∈ waiting_ s ->
  exists s1 w1 s' w', transition p kPrefilling s w = Ok (s1, w1) /\
    retire p kFailed s1 w1 = Ok (s', w') /\ retired_list kFailed [p] s w s' w'.
Proof.
  intros Hinv Hp. destruct (inv_waiting _ _ _ Hinv p Hp) as (r & Hr & Hst).
  destruct (transition_ok p kPrefilling s w r)
    as (lc & w1 & E1 & Hwf1 & Hk1 & Hst1 & Hl1 & Hext1);
    [done|by eapply inv_wf|by rewrite Hst|].
  assert (Hst' : req_state (set_lifecycle lc r) = kPrefilling) by done.
  destruct (retire_one p kFailed s _ w w1 r (set_lifecycle lc r) Hinv
    (active_waiting _ _ Hp) Hr eq_refl) as (s' & w' & E2 & Hret); try done.
  - by rewrite Hst'.
  - eauto 10.
Qed.

Lemma fail_waiting_ok l s w :
  sched_inv ∅ s w -> NoDup l -> (forall p, p ∈ l -> p ∈ waiting_ s) ->
  exists s' w', fail_waiting l s w = Ok (s', w') /\ retired_list kFailed l s w s' w'.
Proof.
  revert s w. induction l as [|p l IH]; intros s w Hinv Hnd Hl; simpl.
  { eauto using retired_list_nil. }
  apply NoDup_cons in Hnd as [Hp Hnd].
  destruct (fail_waiting_one p s w) as (s1 & w1 & s2 & w2 & E1 & E2 & Hret);
    [done|set_solver|].
  rewrite E1. simpl. rewrite E2. simpl.
  destruct Hret as (Hinv2 & Hrest).
  destruct (IH s2 w2) as (s' & w' & E & Hret'); [done|done| |].
  { intros q Hq. apply Hrest; set_solver. }
  exists s', w'. split; [done|]. eapply retired_list_cons; [done| |done]. done.
Qed.

Lemma fail_decoding_ok l s w :
  sched_inv ∅ s w -> NoDup l -> (forall p, p ∈ l -> p ∈ decoding_ s) ->
  exists s' w', fail_decoding l s w = Ok (s', w') /\ retired_list kFailed l s w s' w'.
Proof.
  revert s w. induction l as [|p l IH]; intros s w Hinv Hnd Hl; simpl.
  { eauto using retired_list_nil. }
  apply NoDup_cons in Hnd as [Hp Hnd].
  destruct (inv_decoding _ _ _ Hinv p) as (r & h & Hr & Hst & Hh); [set_solver|].
  destruct (retire_unchanged p kFailed s w r) as (s1 & w1 & E1 & Hret);
    [done|apply active_decoding; set_solver|done|done|by rewrite Hst|].
  rewrite E1. simpl. pose proof Hret as (Hinv1 & Hrest).
  destruct (IH s1 w1) as (s' & w' & E & Hret'); [done|done| |].
  { intros q Hq. apply Hrest; set_solver. }
  exists s', w'. split; [done|]. by eapply retired_list_cons.
Qed.

Lemma retired_list_app term l1 l2 s1 w1 s2 w2 s3 w3 :
  l1 ## l2 -> retired_list term l1 s1 w1 s2 w2 -> retired_list term l2 s2 w2 s3 w3 ->
  retired_list term (l1 ++ l2) s1 w1 s3 w3.
Proof.
  intros Hp (_ & Hx1 & He1 & Hw1 & Hd1 & Hk1) (? & Hx2 & He2 & Hw2 & Hd2 & Hk2).
  split; [done|]. split; [by etrans|]. split.
  { eapply evolves_trans; [exact He1|exact He2|]. intros. by eapply only_app. }
  split; [by etrans|]. split; [by etrans|].
  intros q [??]%not_elem_of_app. destruct (Hk1 q), (Hk2 q); set_solver.
Qed.

(** [expire_deadlines] fails exactly a set of requests whose deadline has
    passed; whatever it leaves was not late when the phase began. *)
Lemma expire_deadlines_ok s w :
  sched_inv ∅ s w ->
  exists rep l s' w', expire_deadlines s w = Ok (rep, s', w') /\
    retired_list kFailed l s w s' w' /\
    NoDup l /\ (forall p, p ∈ l -> active s p) /\
    expired_count rep = u64 (size_of l) /\
    (forall p r, p ∈ l -> requests_ s !! p = Some r -> deadline_at_ r < time w') /\
    (forall p r, active s p -> p ∉ l -> requests_ s !! p = Some r -> time w <= deadline_at_ r).
Proof.
  intros Hinv. unfold expire_deadlines. destruct (clock_now w) as [t w1] eqn:E1.
  apply clock_now_ext in E1 as (Hx1 & Hl1 & _).
  destruct (collect_expired_ok (waiting_ s) s w1) as (ew & w2 & E2 & Hs2 & Hx2 & Hl2 & Hd2 & Hk2).
  { intros. eauto using inv_active_lookup, active_waiting. }
  destruct (collect_expired_ok (decoding_ s) s w2) as (ed & w3 & E3 & Hs3 & Hx3 & Hl3 & Hd3 & Hk3).
  { intros. eauto using inv_active_lookup, active_decoding. }
  rewrite E2. simpl. rewrite E3. simpl.
  assert (Hx : world_ext w w3) by (etrans; [done|]; by etrans).
  assert (Hl : live w3 = live w) by congruence.
  pose proof (world_ext_time _ _ Hx1). pose proof (world_ext_time _ _ Hx2).
  pose proof (world_ext_time _ _ Hx3).
  pose proof (inv_NoDup _ _ _ Hinv) as [Hnw Hnd].
  assert (Hew : forall p, p ∈ ew -> p ∈ waiting_ s) by (intros; by eapply elem_of_sublist).
  assert (Hed : forall p, p ∈ ed -> p ∈ decoding_ s) by (intros; by eapply elem_of_sublist).
  assert (Hdisj : ew ## ed) by (intros p ? ?; eapply inv_disjoint; eauto).
  destruct (fail_waiting_ok ew s w3) as (s4 & w4 & E4 & R4);
    [by eapply inv_later; [| |done]; [lia|done]|by (eapply sublist_NoDup; [|eassumption])|done|].
  rewrite E4. simpl.
  assert (R4' : retired_list kFailed ew s w s4 w4).
  { destruct R4 as (? & ? & ?). split; [done|]. split; [by etrans|]. done. }
  destruct (fail_decoding_ok ed s4 w4) as (s5 & w5 & E5 & R5);
    [apply R4|by (eapply sublist_NoDup; [|eassumption])| |].
  { intros p Hp. apply R4; [|by auto]. intros ?. by apply (Hdisj p). }
  rewrite E5. simpl. eexists _, (ew ++ ed), _, _. split; [done|].
  pose proof (world_ext_time _ _ ltac:(apply R4)). pose proof (world_ext_time _ _ ltac:(apply R5)).
  split; [by eapply retired_list_app|]. split.
  { apply NoDup_app. split; [by (eapply sublist_NoDup; [|eassumption])|]. split; [|eapply sublist_NoDup; by eauto].
    intros p ? ?. by apply (Hdisj p). }
  split.
  { intros p [?|?]%elem_of_app; eauto using active_waiting, active_decoding. }
  split; [simpl; by rewrite size_of_app|]. split.
  - intros p r [Hp|Hp]%elem_of_app Hr; [pose proof (Hd2 p r Hp Hr)|pose proof (Hd3 p r Hp Hr)]; lia.
  - intros p r [Hp|Hp]%elem_of_app [??]%not_elem_of_app Hr.
    + assert (time w2 <= deadline_at_ r) by eauto. lia.
    + assert (time w1 <= deadline_at_ r) by eauto. lia.
Qed.

Lemma emit_token_ext tok r w r' w' :
  emit_token tok r w = Ok (r', w') -> world_ext w w' /\ live w' = live w.
Proof.
  unfold emit_token. intros H. inv_ok.
  destruct (max_output_tokens_ r <=? output_tokens_emitted_ r); [done|]. inv_ok.
  apply record_first_token_inv in H as [_ [(_ & -> & _)|(_ & t & Hc & _)]]; [done|].
  apply clock_now_ext in Hc. tauto.
Qed.

(** ** Prefill *)

(** One promotion: the handle enters the table, the request moves through
    [kPrefilling] and [kWaitingDecode] to [kDecoding] and changes queue. *)
Lemma promote_ok extra p rest v s w :
  sched_inv extra s w -> waiting_ s = p :: rest ->
  handle_id (outcome_handle v) ∈ extra ->
  exists s' w', prefill_request p (Value v) s w = Ok (true, s', w') /\
    sched_inv (extra ∖ {[handle_id (outcome_handle v)]}) s' w' /\ world_ext w w' /\
    evolves (only [p] (fun _ => moved kDecoding)) s s' /\
    waiting_ s' = rest /\ decoding_ s' = decoding_ s ++ [p] /\
    (forall r, requests_ s !! p = Some r ->
       handles_ s' = <[id_ r := outcome_handle v]> (handles_ s)).
Proof.
  intros Hinv Hwt Hh. assert (Hp : p ∈ waiting_ s) by (rewrite Hwt; set_solver).
  destruct (inv_waiting _ _ _ Hinv p Hp) as (r & Hr & Hst).
  pose proof (inv_waiting_no_handle _ _ _ _ _ Hinv Hp Hr) as Hnone.
  pose proof (lookup_lt_Some _ _ _ Hr) as Hlt.
  unfold prefill_request, deref. rewrite Hr. simpl. rewrite emplace_fresh by done.
  set (s1 := set_handles _ s).
  destruct (transition_ok p kPrefilling s1 w r) as (lc1 & w1 & E1 & Hwf1 & Hk1 & Hst1 & Hl1 & Hx1);
    [done|by eapply inv_wf|by rewrite Hst|]. rewrite E1. simpl.
  set (s2 := set_requests _ s1).
  destruct (transition_ok p kWaitingDecode s2 w1 (set_lifecycle lc1 r))
    as (lc2 & w2 & E2 & Hwf2 & Hk2 & Hst2 & Hl2 & Hx2);
    [simpl; by apply list_lookup_insert_eq|done|by rewrite req_state_set, Hst1|].
  rewrite E2. simpl. set (s3 := set_requests _ s2).
  destruct (transition_ok p kDecoding s3 w2 (set_lifecycle lc2 (set_lifecycle lc1 r)))
    as (lc3 & w3 & E3 & Hwf3 & Hk3 & Hst3 & Hl3 & Hx3);
    [simpl; apply list_lookup_insert_eq; by rewrite length_insert|done
    |by rewrite req_state_set, Hst2|].
  rewrite E3. simpl.
  rewrite !list_insert_insert_eq, Hwt, erase_cons_eq.
  2:{ pose proof (inv_NoDup _ _ _ Hinv) as [Hn _]. rewrite Hwt in Hn. by apply NoDup_cons in Hn as [? _]. }
  do 2 eexists. split; [done|].
  assert (Hx : world_ext w w3) by (etrans; [done|]; by etrans).
  split; [|split; [done|]; split; [|split; [done|]; split; [done|]; by intros; simplify_eq]].
  - eapply (inv_promote extra p rest _ s w _ w3 r
      (set_lifecycle lc3 (set_lifecycle lc2 (set_lifecycle lc1 r)))); try done.
    + unfold s3, s2, s1, set_requests, set_queues, set_handles. simpl. by destruct v as [[h]].
    + eapply (inv_budget _ _ _ Hinv p r); [by apply active_waiting|done].
    + apply Hx.
    + congruence.
  - eapply evolves_insert; [done|done|]. rewrite <- Hst3.
    eapply moved_trans, moved_set_lifecycle, Hk3.
    eapply moved_trans; by apply moved_set_lifecycle.
Qed.

Lemma prefill_failed_ok extra p rest e s w :
  sched_inv extra s w -> waiting_ s = p :: rest ->
  exists s' w', prefill_request p (Unexpected e) s w = Ok (false, s', w') /\
    sched_inv extra s' w' /\ world_ext w w' /\
    evolves (only [p] (fun _ => moved kFailed)) s s' /\
    waiting_ s' = rest /\ decoding_ s' = decoding_ s /\ handles_ s' = handles_ s.
Proof.
  intros Hinv Hwt. assert (Hp : p ∈ waiting_ s) by (rewrite Hwt; set_solver).
  destruct (inv_waiting _ _ _ Hinv p Hp) as (r & Hr & Hst).
  destruct (transition_ok p kPrefilling s w r) as (lc1 & w1 & E1 & Hwf1 & Hk1 & Hst1 & Hl1 & Hx1);
    [done|by eapply inv_wf|by rewrite Hst|]. unfold prefill_request. rewrite E1. simpl.
  pose proof (world_ext_time _ _ Hx1).
  destruct (retire_inv extra p kFailed s (set_requests (<[p := set_lifecycle lc1 r]> (requests_ s)) s)
    w w1 r (set_lifecycle lc1 r)) as (lc & s' & w' & E2 & Hinv' & Hx2 & Hst2 & Hk2 & Hs');
    try done; [by apply active_waiting|by rewrite req_state_set, Hst1|].
  rewrite E2. simpl. do 2 eexists. split; [done|]. split; [done|]. split; [by etrans|].
  split; [|rewrite Hs'; simpl; split_and!].
  - eapply evolves_insert; [done|by rewrite Hs'|]. rewrite <- Hst2.
    eapply moved_trans; by apply moved_set_lifecycle.
  - rewrite Hwt. simpl. by rewrite decide_True.
  - apply remove_first_not_in. intros ?. by eapply (inv_disjoint _ _ _ _ Hinv).
  - rewrite delete_id; [done|]. by eapply inv_waiting_no_handle.
Qed.

Lemma evolves_other (R : RequestPtr -> Request -> Request -> Prop) s s' p q r :
  evolves (only [p] R) s s' -> q <> p -> requests_ s !! q = Some r -> requests_ s' !! q = Some r.
Proof.
  intros [_ H] Hne Hr. destruct (H q r Hr) as (r' & Hr' & [[->%list_elem_of_singleton _]|[_ ->]]); done.
Qed.

(** The handle a success answers is the one recorded for its request; every
    other entry of the table is left alone. *)
Lemma handles_minted_cons extra p v pending os s w s1 s' :
  sched_inv extra s w -> active s p -> p ∉ pending -> (forall q, q ∈ pending -> active s q) ->
  evolves (only [p] (fun _ => moved kDecoding)) s s1 ->
  (forall r, requests_ s !! p = Some r ->
     handles_ s1 = <[id_ r := outcome_handle v]> (handles_ s)) ->
  handles_minted pending os s1 s' -> handles_minted (p :: pending) (Value v :: os) s s'.
Proof.
  intros Hinv Ha Hp Hact Hev Hh [Hrec Hkeep].
  destruct (inv_active_lookup _ _ _ _ Hinv Ha) as [r Hr]. specialize (Hh r Hr).
  assert (Hids : forall id, (forall q rq, q ∈ promoted pending os -> requests_ s !! q = Some rq ->
      id_ rq <> id) -> handles_ s' !! id = handles_ s1 !! id).
  { intros id Hid. apply Hkeep. intros q rq Hq Hrq.
    destruct (inv_active_lookup _ _ _ _ Hinv (Hact q (promoted_in _ _ _ Hq))) as [r0 Hr0].
    assert (Hne : q <> p) by (intros ->; by apply Hp, (promoted_in _ os)).
    rewrite (evolves_other _ _ _ _ _ _ Hev Hne Hr0) in Hrq. simplify_eq. by apply (Hid q). }
  split.
  - intros q v' rq [Heq|Hq]%elem_of_cons Hrq.
    + simplify_eq. rewrite Hids, Hh; [by rewrite lookup_insert_eq|].
      intros q rq Hq Hrq Hid. apply Hp.
      rewrite <- (inv_ids _ _ _ Hinv q p rq r (Hact q (promoted_in _ _ _ Hq)) Ha Hrq Hr Hid).
      by eapply promoted_in.
    + assert (Hne : q <> p) by (intros ->; by apply Hp, (elem_of_zip_fst _ _ _ _ Hq)).
      apply (Hrec q v' rq Hq). by apply (evolves_other _ _ _ _ _ _ Hev Hne).
  - intros id Hid. rewrite Hids, Hh.
    + apply lookup_insert_ne. apply (Hid p r); [simpl; set_solver|done].
    + intros q rq Hq. apply Hid. simpl. set_solver.
Qed.

Lemma size_promoted pending os :
  length os = length pending -> size_of (promoted pending os) = size_of (minted os).
Proof.
  revert pending. induction os as [|[v|e] os IH]; intros [|p pending] Hlen; simpl; try done.
  - rewrite minted_cons_value, !size_of_cons, IH; [done|]. by injection Hlen.
  - rewrite minted_cons_unexpected, IH; [done|]. by injection Hlen.
Qed.

Lemma drop_cons_lookup {A} (i : nat) (l : list A) (a : A) (k : list A) :
  drop i l = a :: k -> l !! i = Some a /\ drop (S i) l = k.
Proof.
  intros H. split.
  - rewrite <- (Nat.add_0_r i), <- lookup_drop, H. done.
  - by rewrite <- Nat.add_1_r, <- drop_drop, H.
Qed.

Lemma batch_of_cons p l s r :
  requests_ s !! p = Some r ->
  prefill_sequences (batch_of (p :: l) s) =
    mkPrefillRequest (mkTokenizedPrompt (prompt_token_ids_ r)) :: prefill_sequences (batch_of l s).
Proof. intros Hr. unfold batch_of, prefill_request_of at 1. simpl. by rewrite Hr. Qed.

Lemma prompt_sizes_batch_cons p l s r :
  requests_ s !! p = Some r ->
  prompt_sizes (batch_of (p :: l) s) =
    size_of (prompt_token_ids_ r) :: prompt_sizes (batch_of l s).
Proof. intros Hr. unfold prompt_sizes. by rewrite (batch_of_cons _ _ _ _ Hr). Qed.

Lemma length_batch_of l s :
  (forall p, p ∈ l -> exists r, requests_ s !! p = Some r) ->
  length (prefill_sequences (batch_of l s)) = length l.
Proof.
  induction l as [|p l IH]; intros Hl; [done|].
  destruct (Hl p) as [r Hr]; [set_solver|].
  rewrite (batch_of_cons _ _ _ _ Hr). simpl. f_equal. apply IH. set_solver.
Qed.

Lemma build_prefill_ok l t s :
  (forall p, p ∈ l -> exists r, requests_ s !! p = Some r) -> u64 t = t ->
  build_prefill l t s =
    Ok (prefill_sequences (batch_of l s), u64 (t + sum_Z (prompt_sizes (batch_of l s)))).
Proof.
  revert t. induction l as [|p l IH]; intros t Hl Ht.
  { simpl. rewrite Z.add_0_r. by rewrite Ht. }
  destruct (Hl p) as [r Hr]; [set_solver|].
  rewrite (batch_of_cons _ _ _ _ Hr), (prompt_sizes_batch_cons _ _ _ _ Hr).
  cbn [build_prefill]. unfold deref. rewrite Hr. cbn [or_undef mbind outcome_bind].
  rewrite IH; [|set_solver|apply u64_idemp]. cbn [mbind outcome_bind].
  rewrite u64_add_l, <- Z.add_assoc. done.
Qed.

Lemma Zplus_minus_both (a b c : Z) : a + c - (b + c) = a - b.
Proof. lia. Qed.

Lemma handles_minted_failed p e pending os s s1 s' :
  evolves (only [p] (fun _ => moved kFailed)) s s1 -> handles_ s1 = handles_ s ->
  p ∉ pending ->
  handles_minted pending os s1 s' -> handles_minted (p :: pending) (Unexpected e :: os) s s'.
Proof.
  intros Hev Hh Hp [Hrec Hkeep]. split.
  - intros q v r [?|Hq]%elem_of_cons Hr; [by simplify_eq|].
    assert (Hne : q <> p) by (intros ->; by apply Hp, (elem_of_zip_fst _ _ _ _ Hq)).
    apply (Hrec q v r Hq). by apply (evolves_other _ _ _ _ _ _ Hev Hne).
  - intros id Hid. rewrite Hkeep, Hh; [done|]. intros q r1 Hq Hr1.
    assert (Hne : q <> p) by (intros ->; by apply Hp, (promoted_in _ os)).
    apply (Hid q); [done|]. destruct Hev as [Hlen Hev].
    destruct (lookup_lt_is_Some_2 (requests_ s) q) as [r Hr];
      [rewrite <- Hlen; by eapply lookup_lt_Some|].
    rewrite (evolves_other _ _ _ _ _ _ (conj Hlen Hev) Hne Hr) in Hr1. by simplify_eq.
Qed.

(** The outcome loop of the prefill phase. *)
Lemma prefill_outcomes_loop_ok os pending i outcomes su fa s w :
  drop i outcomes = os -> length os = length pending -> waiting_ s = pending ->
  NoDup (minted os) -> sched_inv (list_to_set (minted os)) s w ->
  u64 su = su -> u64 fa = fa ->
  exists s' w', prefill_outcomes_loop pending i outcomes su fa s w =
      Ok (u64 (su + size_of (minted os)),
          u64 (fa + (size_of pending - size_of (minted os))), s', w') /\
    sched_inv ∅ s' w' /\ world_ext w w' /\
    evolves (only pending (by_outcome prefill_effect pending os)) s s' /\
    waiting_ s' = [] /\ decoding_ s' = decoding_ s ++ promoted pending os /\
    handles_minted pending os s s'.
Proof.
  revert os i su fa s w. induction pending as [|p pending IH];
    intros os i su fa s w Hos Hlen Hwt Hnd Hinv Hsu Hfa.
  { destruct os; [|done]. exists s, w. simpl. rewrite !Z.add_0_r, Hsu, Hfa.
    split; [done|]. split; [done|]. split; [done|].
    split; [apply evolves_refl, only_nil_refl|]. rewrite app_nil_r.
    split; [done|]. split; [done|]. by split; [set_solver|]. }
  destruct os as [|o os]; [done|]. apply drop_cons_lookup in Hos as [Ho Hos].
  pose proof (inv_NoDup _ _ _ Hinv) as [Hnw _]. rewrite Hwt in Hnw.
  apply NoDup_cons in Hnw as [Hp _].
  pose proof (size_of_cons p pending) as Hsz.
  assert (Hpw : p ∈ waiting_ s) by (rewrite Hwt; set_solver).
  simpl. rewrite Ho. simpl. destruct o as [v|e].
  - rewrite minted_cons_value in *. apply NoDup_cons in Hnd as [Hh Hnd].
    destruct (promote_ok _ p pending v s w Hinv Hwt) as
      (s1 & w1 & E1 & Hinv1 & Hx1 & Hev1 & Hwt1 & Hdc1 & Hh1); [set_solver|].
    rewrite E1. simpl.
    destruct (IH os (S i) (u64 (su + 1)) fa s1 w1) as
      (s' & w' & E & Hinv' & Hx' & Hev' & Hwt' & Hdc' & Hh'); try done; [by injection Hlen| |apply u64_idemp|].
    { replace (list_to_set (minted os) : gset Z) with
        ((list_to_set (handle_id (outcome_handle v) :: minted os) : gset Z)
           ∖ {[handle_id (outcome_handle v)]}) by set_solver. done. }
    exists s', w'. rewrite E, u64_add_l, Hsz, size_of_cons.
    split; [by rewrite <- Z.add_assoc, (Z.add_comm 1), Zplus_minus_both|].
    split; [done|]. split; [by etrans|]. split; [by eapply evolves_by_outcome|].
    split; [done|]. split; [rewrite Hdc', Hdc1; by rewrite <- (assoc_L (++))|].
    eapply handles_minted_cons; [done|by apply active_waiting|done| |done..].
    intros q Hq. apply active_waiting. rewrite Hwt. set_solver.
  - rewrite minted_cons_unexpected in *.
    destruct (prefill_failed_ok _ p pending e s w Hinv Hwt) as
      (s1 & w1 & E1 & Hinv1 & Hx1 & Hev1 & Hwt1 & Hdc1 & Hh1).
    rewrite E1. simpl.
    destruct (IH os (S i) su (u64 (fa + 1)) s1 w1) as
      (s' & w' & E & Hinv' & Hx' & Hev' & Hwt' & Hdc' & Hh'); try done; [by injection Hlen|apply u64_idemp|].
    exists s', w'. rewrite E, u64_add_l, Hsz.
    split; [by rewrite <- Z.add_assoc, Z.add_sub_assoc, (Z.add_comm 1)|].
    split; [done|]. split; [by etrans|]. split; [by eapply evolves_by_outcome|].
    split; [done|]. rewrite Hdc', Hdc1. split; [done|]. by eapply handles_minted_failed.
Qed.

(** What a prefill returns is accounted as [extra] until it is processed. *)
Lemma inv_prefilled s w w' ids :
  sched_inv ∅ s w -> time w <= time w' -> (forall h, h ∈ ids -> h ∉ live w) ->
  live w' = live w ∪ list_to_set ids -> sched_inv (list_to_set ids) s w'.
Proof.
  intros Hinv Ht Hfresh Hl. pose proof (inv_live _ _ _ Hinv) as Hlive.
  split; try (by destruct Hinv).
  - intros p r Hr. eapply request_wf_later; [done|]. by eapply inv_wf.
  - intros h. rewrite Hl. specialize (Hlive h). set_solver.
  - intros h Hh Ho. apply (Hfresh h); [set_solver|]. apply Hlive. by left.
Qed.

(** The prefill phase answers every waiting request: afterwards none waits. *)
Lemma prefill_phase_ok s w :
  sched_inv ∅ s w -> fits (batch_of (waiting_ s) s) w ->
  exists rep os w2 s' w', prefill_phase s w = Ok (rep, s', w') /\
    prefill (batch_of (waiting_ s) s) (clock_now w).2 = Ok (mkPrefillResult os, w2) /\
    handles_minted (waiting_ s) os s s' /\
    sched_inv ∅ s' w' /\ fits_decode w' /\ time w <= time w' /\
    length os = length (waiting_ s) /\
    evolves (only (waiting_ s) (by_outcome prefill_effect (waiting_ s) os)) s s' /\
    waiting_ s' = [] /\ decoding_ s' = decoding_ s ++ promoted (waiting_ s) os /\
    prefill_attempted rep = size_of (waiting_ s) /\
    prefill_succeeded rep = u64 (size_of (minted os)) /\
    prefill_failed rep = u64 (size_of (waiting_ s) - size_of (minted os)) /\
    prefill_tokens rep = u64 (sum_Z (prompt_sizes (batch_of (waiting_ s) s))).
Proof.
  intros Hinv Hfits. unfold prefill_phase. destruct (clock_now w) as [t w1] eqn:E1.
  apply clock_now_ext in E1 as (Hx1 & Hl1 & _).
  assert (Hptr : forall p, p ∈ waiting_ s -> exists r, requests_ s !! p = Some r)
    by eauto using inv_active_lookup, active_waiting.
  rewrite build_prefill_ok by done. cbn [mbind outcome_bind].
  destruct (prefill_contract (batch_of (waiting_ s) s) w1) as
    ([os] & w2 & E2 & Hlen & Hnd & Hfresh & Hl2 & Hfd & Ht2); [by apply Hx1|].
  change (mkPrefillBatch (prefill_sequences (batch_of (waiting_ s) s)))
    with (batch_of (waiting_ s) s).
  rewrite E2. cbn [mbind outcome_bind prefill_outcomes] in *.
  assert (Hlen' : length os = length (waiting_ s)).
  { rewrite Hlen. by apply length_batch_of. }
  pose proof (world_ext_time _ _ Hx1).
  destruct (prefill_outcomes_loop_ok os (waiting_ s) 0 os 0 0 s w2) as
    (s' & w' & E & Hinv' & Hx' & Hev & Hwt & Hdc & Hh); try done.
  { apply (inv_prefilled s w1 w2); try done. by eapply inv_later; [| |done]; [lia|]. }
  rewrite E. cbn [mbind outcome_bind]. eexists _, os, w2, s', w'. split; [done|].
  pose proof (world_ext_time _ _ Hx').
  do 3 (split; [done|]). split; [by apply Hx'|]. split; [lia|]. done.
Qed.

(** ** Decode *)

Lemma build_decode_ok l t s w :
  sched_inv ∅ s w -> (forall p, p ∈ l -> p ∈ decoding_ s) -> u64 t = t ->
  build_decode l t s = Ok (decode_sequences (decode_batch_of l s), u64 (t + size_of l)) /\
    length (decode_sequences (decode_batch_of l s)) = length l /\
    (forall d, d ∈ decode_sequences (decode_batch_of l s) ->
       handle_id (request_handle d) ∈ live w).
Proof.
  intros Hinv. revert t. induction l as [|p l IH]; intros t Hl Ht.
  { simpl. rewrite Z.add_0_r, Ht. split; [done|]. set_solver. }
  destruct (inv_decoding _ _ _ Hinv p) as (r & h & Hr & _ & Hh); [set_solver|].
  assert (decode_sequences (decode_batch_of (p :: l) s) =
    mkDecodeRequest h :: decode_sequences (decode_batch_of l s)) as ->.
  { unfold decode_batch_of, decode_request_of at 1. simpl. rewrite Hr. simpl. by rewrite Hh. }
  cbn [build_decode]. unfold deref. rewrite Hr. cbn [or_undef mbind outcome_bind]. rewrite Hh.
  cbn [or_throw mbind outcome_bind].
  destruct (IH (u64 (t + 1))) as (E & Hlen & Hlive); [set_solver|apply u64_idemp|].
  rewrite E. cbn [mbind outcome_bind]. split.
  { rewrite u64_add_l, size_of_cons, <- Z.add_assoc, (Z.add_comm 1). done. }
  split; [by rewrite length_cons, Hlen|]. intros d [->|Hd]%elem_of_cons; [|auto].
  simpl. apply (inv_live _ _ _ Hinv). left. exists (id_ r). by destruct h.
Qed.

(** Queues and handle table only lose entries, in place. *)
Definition shrinks s s' : Prop :=
  sublist (waiting_ s') (waiting_ s) /\ sublist (decoding_ s') (decoding_ s) /\
  handles_ s' ⊆ handles_ s.

#[local] Instance shrinks_preorder : PreOrder shrinks.
Proof.
  split; [done|]. intros s1 s2 s3 (? & ? & ?) (? & ? & ?). split_and!; by etrans.
Qed.

Lemma shrinks_removed s l p id :
  shrinks s (mkScheduler l (remove_first p (waiting_ s)) (remove_first p (decoding_ s))
               (delete id (handles_ s))).
Proof. split_and!; [apply remove_first_sublist..|apply delete_subseteq]. Qed.

Definition step_of (r : Request) (o : expected DecodedToken) : DecodeStep :=
  match o with
  | Value v =>
      if finished v || (max_output_tokens_ r <=? output_tokens_emitted_ r + 1)
      then StepCompleted else StepEmitted
  | Unexpected _ => StepFailed
  end.

(** One decode outcome: the token is emitted and the request completed when it
    must be, or the request fails; nothing else is touched. *)
Lemma decode_request_ok p o s w r :
  sched_inv ∅ s w -> p ∈ decoding_ s -> requests_ s !! p = Some r ->
  exists s' w', decode_request p o s w = Ok (step_of r o, s', w') /\
    sched_inv ∅ s' w' /\ world_ext w w' /\
    evolves (only [p] (fun _ => decode_effect o)) s s' /\
    shrinks s s' /\
    size_of (decoding_ s') =
      size_of (decoding_ s) - (match step_of r o with StepEmitted => 0 | _ => 1 end) /\
    (forall q, q <> p -> q ∈ decoding_ s' <-> q ∈ decoding_ s).
Proof.
  intros Hinv Hp Hr.
  destruct (inv_decoding _ _ _ Hinv p Hp) as (r' & h & Hr' & Hst & _). simplify_eq.
  pose proof (active_decoding _ _ Hp) as Hact.
  pose proof (inv_wf _ _ _ Hinv _ _ Hr) as Hwf.
  pose proof (inv_budget _ _ _ Hinv _ _ Hact Hr) as Hbud.
  destruct o as [v|e].
  - unfold decode_request, deref. rewrite Hr. simpl.
    destruct (emit_token_total (token_id v) r w Hst Hbud) as (r' & w1 & E1).
    pose proof (emit_token_spec _ _ _ _ _ Hwf E1) as
      (Hwf1 & Ht1 & _ & Hst1 & Hid & Hdl & Hmx & Hpr & Hem & Hout & Hkept).
    destruct (emit_token_ext _ _ _ _ _ E1) as [Hx1 Hl1].
    rewrite E1. simpl. rewrite Hmx, Hem.
    assert (Hgot : got_token (token_id v) r r') by done.
    destruct (finished v || _) eqn:Hfin.
    + destruct (retire_inv ∅ p kCompleted s (set_requests (<[p := r']> (requests_ s)) s) w w1 r r')
        as (lc & s' & w' & E2 & Hinv' & Hx2 & Hst2 & Hk2 & Hs'); try done; [by rewrite Hst1|].
      rewrite E2. simpl. do 2 eexists. split; [done|]. split; [done|]. split; [by etrans|].
      split; [|rewrite Hs'; split; [apply shrinks_removed|];
               simpl; split; [by apply size_remove_first|]].
      * eapply evolves_insert; [done|by rewrite Hs'|]. simpl. rewrite Hfin. split; [|done].
        eapply got_token_moved; [done|by apply moved_set_lifecycle].
      * intros q Hq. pose proof (inv_NoDup _ _ _ Hinv) as [_ ?].
        rewrite elem_of_remove_first by done. tauto.
    + do 2 eexists. split; [done|]. apply orb_false_iff in Hfin as [Hf Hfin].
      split; [|split; [done|]; split; [|split; [done|]; split; [|done]]].
      * apply Z.leb_gt in Hfin. eapply (inv_emit ∅ p s w _ w1 r r'); try done. lia.
      * eapply evolves_insert; [done|done|]. simpl. split; [done|].
        by rewrite Hf, Hfin.
      * simpl. lia.
  - destruct (retire_inv ∅ p kFailed s s w w r r)
      as (lc & s' & w' & E & Hinv' & Hx' & Hst' & Hk' & Hs'); try done.
    { rewrite list_insert_id by done. by destruct s. }
    { by rewrite Hst. }
    unfold decode_request. rewrite E. simpl. do 2 eexists. split; [done|].
    split; [done|]. split; [done|]. split.
    { eapply evolves_insert; [done|by rewrite Hs'|]. simpl. by rewrite <- Hst'. }
    rewrite Hs'. split; [apply shrinks_removed|].
    simpl. split; [by apply size_remove_first|].
    intros q Hq. pose proof (inv_NoDup _ _ _ Hinv) as [_ ?].
    rewrite elem_of_remove_first by done. tauto.
Qed.

Definition is_completed (st : DecodeStep) : bool :=
  match st with StepCompleted => true | _ => false end.
Definition is_failed (st : DecodeStep) : bool :=
  match st with StepFailed => true | _ => false end.

(** How many of the steps of a batch have a given kind. *)
Definition count_steps (f : DecodeStep -> bool) (steps : list DecodeStep) : Z :=
  size_of (filter (fun st => f st = true) steps).

Lemma count_steps_cons f st steps :
  count_steps f (st :: steps) = (if f st then 1 else 0) + count_steps f steps.
Proof.
  unfold count_steps. destruct (f st) eqn:E.
  - rewrite filter_cons_True, size_of_cons by done. lia.
  - rewrite filter_cons_False by congruence. done.
Qed.

(** The outcomes that are errors. *)
Definition is_error {T} (o : expected T) : bool :=
  match o with Unexpected _ => true | Value _ => false end.
Definition errors_of {T} (os : list (expected T)) : Z :=
  size_of (filter (fun o => is_error o = true) os).

Lemma errors_of_cons {T} (o : expected T) os :
  errors_of (o :: os) = (if is_error o then 1 else 0) + errors_of os.
Proof.
  unfold errors_of. destruct (is_error o) eqn:E.
  - rewrite filter_cons_True, size_of_cons by done. lia.
  - rewrite filter_cons_False by congruence. done.
Qed.

Lemma is_failed_step r (o : expected DecodedToken) : is_failed (step_of r o) = is_error o.
Proof. destruct o as [v|e]; simpl; [by destruct (_ || _)|done]. Qed.

(** The outcome loop of the decode phase. *)
Lemma decode_outcomes_loop_ok os pending i outcomes co fa s w :
  drop i outcomes = os -> length os = length pending -> NoDup pending ->
  (forall p, p ∈ pending -> p ∈ decoding_ s) -> sched_inv ∅ s w ->
  u64 co = co -> u64 fa = fa ->
  exists steps s' w', decode_outcomes_loop pending i outcomes co fa s w =
      Ok (u64 (co + count_steps is_completed steps),
          u64 (fa + count_steps is_failed steps), s', w') /\
    size_of (decoding_ s') + count_steps is_completed steps + count_steps is_failed steps
      = size_of (decoding_ s) /\
    count_steps is_failed steps = errors_of os /\
    sched_inv ∅ s' w' /\ world_ext w w' /\
    evolves (only pending (by_outcome decode_effect pending os)) s s' /\ shrinks s s'.
Proof.
  revert os i co fa s w. induction pending as [|p pending IH];
    intros os i co fa s w Hos Hlen Hnd Hin Hinv Hco Hfa.
  { destruct os; [|done]. exists [], s, w. simpl. unfold count_steps. simpl.
    change (size_of (@nil DecodeStep)) with 0. rewrite !Z.add_0_r, Hco, Hfa.
    split_and!; try done. apply evolves_refl, only_nil_refl. }
  destruct os as [|o os]; [done|]. apply drop_cons_lookup in Hos as [Ho Hos].
  apply NoDup_cons in Hnd as [Hp Hnd].
  assert (Hpd : p ∈ decoding_ s) by (apply Hin; set_solver).
  destruct (inv_decoding _ _ _ Hinv p Hpd) as (r & _ & Hr & _).
  destruct (decode_request_ok p o s w r Hinv Hpd Hr) as
    (s1 & w1 & E1 & Hinv1 & Hx1 & Hev1 & Hsub1 & Hsz1 & Hk1).
  set (co' := match step_of r o with StepCompleted => u64 (co + 1) | _ => co end).
  set (fa' := match step_of r o with StepFailed => u64 (fa + 1) | _ => fa end).
  destruct (IH os (S i) co' fa' s1 w1) as
    (steps & s' & w' & E & Hcnt & Herr & Hinv' & Hx' & Hev' & Hsub'); try done.
  { by injection Hlen. }
  { intros q Hq. apply Hk1; [set_solver|]. apply Hin. set_solver. }
  { unfold co'. destruct (step_of r o); rewrite ?u64_idemp; done. }
  { unfold fa'. destruct (step_of r o); rewrite ?u64_idemp; done. }
  exists (step_of r o :: steps), s', w'. simpl. rewrite Ho. simpl. rewrite E1. simpl.
  rewrite !count_steps_cons. split.
  - subst co' fa'. destruct (step_of r o); rewrite E; simpl; rewrite ?u64_add_l, ?Z.add_0_l,
      <- ?Z.add_assoc; done.
  - split; [|rewrite is_failed_step, errors_of_cons, Herr;
      split_and!; try done; [by etrans|by eapply evolves_by_outcome|by etrans]].
    destruct (step_of r o); simpl in *; lia.
Qed.

(** The decode phase gives every decoding request one token, or fails it. *)
Lemma decode_phase_ok s w :
  sched_inv ∅ s w -> fits_decode w ->
  exists rep os w2 steps s' w', decode_phase s w = Ok (rep, s', w') /\
    decode (decode_batch_of (decoding_ s) s) (clock_now w).2 = Ok (mkDecodeResult os, w2) /\
    sched_inv ∅ s' w' /\ time w <= time w' /\ 
    length os = length (decoding_ s) /\
    size_of (decoding_ s') + count_steps is_completed steps + count_steps is_failed steps
      = size_of (decoding_ s) /\ count_steps is_failed steps = errors_of os /\
    evolves (only (decoding_ s) (by_outcome decode_effect (decoding_ s) os)) s s' /\
    shrinks s s' /\
    decode_attempted rep = size_of (decoding_ s) /\
    decode_tokens rep = u64 (size_of (decoding_ s)) /\
    decode_completed rep = u64 (count_steps is_completed steps) /\
    decode_failed rep = u64 (count_steps is_failed steps).
Proof.
  intros Hinv Hfits. unfold decode_phase. destruct (clock_now w) as [t w1] eqn:E1.
  apply clock_now_ext in E1 as (Hx1 & Hl1 & _).
  pose proof (world_ext_time _ _ Hx1).
  assert (Hinv1 : sched_inv ∅ s w1) by (by eapply inv_later).
  destruct (build_decode_ok (decoding_ s) 0 s w1) as (Eb & Hlb & Hlive); [done..|].
  rewrite Eb. cbn [mbind outcome_bind].
  change (mkDecodeBatch (decode_sequences (decode_batch_of (decoding_ s) s)))
    with (decode_batch_of (decoding_ s) s).
  destruct (decode_contract (decode_batch_of (decoding_ s) s) w1) as
    ([os] & w2 & E2 & Hlen & Hl2 & Ht2); [by apply Hx1|done|].
  rewrite E2. cbn [mbind outcome_bind decode_outcomes] in *.
  pose proof (inv_NoDup _ _ _ Hinv) as [_ Hnd].
  destruct (decode_outcomes_loop_ok os (decoding_ s) 0 os 0 0 s w2) as
    (steps & s' & w' & E & Hcnt & Herr & Hinv' & Hx' & Hev & Hsub); try done.
  { by rewrite Hlen. }
  { by eapply inv_later. }
  rewrite E. simpl. eexists _, os, w2, steps, s', w'. split; [done|].
  pose proof (world_ext_time _ _ Hx').
  split_and!; try done; [lia|congruence].
Qed.

(** ** [tick] *)

(** The queues are determined by the states. *)
Lemma inv_state_waiting s w p r :
  sched_inv ∅ s w -> requests_ s !! p = Some r -> req_state r = kWaitingPrefill -> p ∈ waiting_ s.
Proof.
  intros Hinv Hr Hst. destruct (decide (active s p)) as [[Hd|?]%elem_of_app|Hna]; [|done|].
  - destruct (inv_decoding _ _ _ Hinv p Hd) as (r' & h & ? & ? & _). congruence.
  - pose proof (inv_rest _ _ _ Hinv p r Hr Hna) as Ht. by rewrite Hst in Ht.
Qed.

Lemma inv_state_decoding s w p r :
  sched_inv ∅ s w -> requests_ s !! p = Some r -> req_state r = kDecoding -> p ∈ decoding_ s.
Proof.
  intros Hinv Hr Hst. destruct (decide (active s p)) as [[?|Hw]%elem_of_app|Hna]; [done| |].
  - destruct (inv_waiting _ _ _ Hinv p Hw) as (r' & ? & ?). congruence.
  - pose proof (inv_rest _ _ _ Hinv p r Hr Hna) as Ht. by rewrite Hst in Ht.
Qed.

Lemma inv_active_not_terminal s w p r :
  sched_inv ∅ s w -> active s p -> requests_ s !! p = Some r -> is_terminal (req_state r) = false.
Proof.
  intros Hinv [Hd|Hw]%elem_of_app Hr.
  - destruct (inv_decoding _ _ _ Hinv p Hd) as (r' & h & ? & Hst & _). simplify_eq. by rewrite Hst.
  - destruct (inv_waiting _ _ _ Hinv p Hw) as (r' & ? & Hst). simplify_eq. by rewrite Hst.
Qed.

Lemma evolves_lookup (R : RequestPtr -> Request -> Request -> Prop) s s' p r :
  evolves R s s' -> requests_ s !! p = Some r ->
  exists r', requests_ s' !! p = Some r' /\ R p r r'.
Proof. intros [_ H]. apply H. Qed.

(** What the decode phase leaves in the queues and the handle table: a request
    is still in the decoding list, with the handle it had, exactly when its
    state is still Decoding; otherwise its handle is gone from the table. *)
Lemma decoded_handle s w s' w' p r r' :
  sched_inv ∅ s w -> sched_inv ∅ s' w' -> shrinks s s' -> p ∈ decoding_ s ->
  evolves (fun _ => same_meta) s s' ->
  requests_ s !! p = Some r -> requests_ s' !! p = Some r' ->
  (p ∈ decoding_ s' <-> req_state r' = kDecoding) /\
  handles_ s' !! id_ r =
    if decide (req_state r' = kDecoding) then handles_ s !! id_ r else None.
Proof.
  intros Hinv Hinv' (_ & Hsub & Hh) Hp Hev Hr Hr'.
  assert (Hiff : p ∈ decoding_ s' <-> req_state r' = kDecoding).
  { split; [|by eapply inv_state_decoding].
    intros Hd. by destruct (inv_decoding _ _ _ Hinv' p Hd) as (? & h & ? & ? & _); simplify_eq. }
  split; [done|]. destruct (evolves_lookup _ _ _ _ _ Hev Hr) as (r2 & ? & (Hid & _)).
  assert (r2 = r') by congruence. subst r2. rewrite <- Hid. case_decide as Hst.
  - destruct (inv_decoding _ _ _ Hinv' p) as (? & h & ? & _ & Hh'); [by apply Hiff|].
    simplify_eq. rewrite Hh'. symmetry. by eapply lookup_weaken.
  - destruct (handles_ s' !! id_ r') as [h|] eqn:E; [|done].
    destruct (inv_handles _ _ _ Hinv' _ _ E) as (q & rq' & Hq & Hrq' & Hidq).
    assert (Hqs : q ∈ decoding_ s) by (by eapply elem_of_sublist).
    destruct (inv_decoding _ _ _ Hinv q Hqs) as (rq & _ & Hrq & _).
    destruct (evolves_lookup _ _ _ _ _ Hev Hrq) as (? & ? & (Hid2 & _)). simplify_eq.
    assert (q = p) as ->.
    { eapply (inv_ids _ _ _ Hinv q p); eauto using active_decoding. congruence. }
    by destruct Hst; apply Hiff.
Qed.

(** After expiry the active requests are the ones that were not collected. *)
Lemma retired_list_active term l s w s' w' :
  sched_inv ∅ s w -> retired_list term l s w s' w' -> is_terminal term = true ->
  (forall p, p ∈ l -> active s p) ->
  forall p, active s' p <-> active s p /\ p ∉ l.
Proof.
  intros Hinv (Hinv' & _ & Hev & _ & _ & Hk) Hterm Hl p. unfold active. split.
  - intros Ha. assert (Hnl : p ∉ l).
    { intros Hp. destruct (inv_active_lookup _ _ _ _ Hinv (Hl p Hp)) as [r Hr].
      destruct (evolves_lookup _ _ _ _ _ Hev Hr) as (r' & Hr' & [[_ Hm]|[? _]]); [|done].
      pose proof (inv_active_not_terminal _ _ _ _ Hinv' Ha Hr') as Hnt.
      destruct Hm as (_ & Hm & _). congruence. }
    split; [|done]. destruct (Hk p Hnl). set_solver.
  - intros [Ha Hnl]. destruct (Hk p Hnl). set_solver.
Qed.

Lemma retired_list_count term l s w s' w' :
  sched_inv ∅ s w -> retired_list term l s w s' w' -> is_terminal term = true ->
  NoDup l -> (forall p, p ∈ l -> active s p) ->
  size_of l + size_of (decoding_ s' ++ waiting_ s') = size_of (decoding_ s ++ waiting_ s).
Proof.
  intros Hinv Hret Hterm Hnd Hl.
  pose proof (retired_list_active _ _ _ _ _ _ Hinv Hret Hterm Hl) as Hact.
  rewrite <- size_of_app. unfold size_of. f_equal. apply Permutation_length, NoDup_Permutation.
  - apply NoDup_app. split; [done|]. split.
    + intros p Hp Hp'. by destruct (proj1 (Hact p) Hp').
    + destruct Hret as [Hinv' _]. by eapply increasing_NoDup, inv_order.
  - by eapply increasing_NoDup, inv_order.
  - intros p. rewrite elem_of_app. specialize (Hact p). specialize (Hl p). unfold active in *.
    destruct (decide (p ∈ l)); tauto.
Qed.

(** The batch of the surviving requests does not depend on the expiry. *)
Lemma batch_of_survivors l s w s' w' :
  sched_inv ∅ s w -> retired_list kFailed l s w s' w' ->
  batch_of (waiting_ s') s' = batch_of (waiting_ s') s.
Proof.
  intros Hinv (Hinv' & _ & Hev & Hsw & _ & _). unfold batch_of. f_equal.
  assert (Hsame : forall p, p ∈ waiting_ s' -> requests_ s' !! p = requests_ s !! p).
  { intros p Hp. assert (Hpw : p ∈ waiting_ s) by by eapply elem_of_sublist.
    destruct (inv_waiting _ _ _ Hinv p Hpw) as (r & Hr & _).
    destruct (evolves_lookup _ _ _ _ _ Hev Hr) as (r' & Hr' & [[_ Hm]|[_ ->]]); [|congruence].
    destruct (inv_waiting _ _ _ Hinv' p Hp) as (r2 & ? & ?). destruct Hm as (_ & ? & _).
    congruence. }
  clear -Hsame. induction (waiting_ s') as [|p k IH]; [done|]. simpl.
  assert (prefill_request_of s' p = prefill_request_of s p) as ->
    by (unfold prefill_request_of; rewrite Hsame by set_solver; done).
  specialize (IH ltac:(set_solver)). destruct (prefill_request_of s p); [f_equal|]; exact IH.
Qed.

(** ** What a tick answers

    [answer] is what one request meets in a tick: nothing when it had finished
    before, its deadline, the error of its prefill, or what the backend's decode
    said about it.  [tick_answers] reads the answers off the backend itself, by
    running the phases of a tick up to each of its two calls. *)
Inductive answer :=
  | Unanswered
  | Late
  | Refused (e : BackendError)
  | Decoded (o : expected DecodedToken).

Definition answer_to s (prefilled : list (RequestPtr * expected PrefillOutcome))
    (decoded : list (RequestPtr * expected DecodedToken)) p : answer :=
  if decide (active s p) then
    match (list_to_map prefilled : gmap RequestPtr _) !! p with
    | Some (Unexpected e) => Refused e
    | _ => match (list_to_map decoded : gmap RequestPtr _) !! p with
           | Some o => Decoded o
           | None => Late
           end
    end
  else Unanswered.

Definition tick_answers s w : outcome (list answer) :=
  '(_, s1, w1) ← expire_deadlines s w;
  '(prefilled, _) ← prefill (batch_of (waiting_ s1) s1) (clock_now w1).2;
  '(_, s2, w2) ← prefill_phase s1 w1;
  '(decoded, _) ← decode (decode_batch_of (decoding_ s2) s2) (clock_now w2).2;
  Ok (answer_to s (zip (waiting_ s1) (prefill_outcomes prefilled))
        (zip (decoding_ s2) (decode_outcomes decoded)) <$> seq 0 (length (requests_ s))).

Definition answer_effect (a : answer) (r r' : Request) : Prop :=
  match a with
  | Unanswered => r' = r
  | Late | Refused _ => moved kFailed r r'
  | Decoded o => decode_effect o r r'
  end.

(** When each answer can be met: [t0] and [t1] are the times the tick began and
    ended. *)
Record answer_due s (t0 t1 : TimePoint) (a : answer) p r : Prop := {
  due_active : a = Unanswered <-> ~ active s p;
  due_late : a = Late -> deadline_at_ r < t1;
  due_in_time : active s p -> a <> Late -> t0 <= deadline_at_ r;
  due_refused e : a = Refused e -> p ∈ waiting_ s;
}.

Lemma decode_effect_moved st o r1 r2 r3 :
  moved st r1 r2 -> decode_effect o r2 r3 -> decode_effect o r1 r3.
Proof.
  intros Hm. destruct o as [v|e]; simpl; [|by eapply moved_trans].
  intros [Hg Hst]. split; [by eapply moved_got_token|].
  destruct Hm as ((_ & _ & <- & _) & _ & <- & _). done.
Qed.

Lemma answer_effect_tick a r r' :
  a <> Unanswered -> answer_effect a r r' -> tick_effect r r'.
Proof.
  intros Ha. destruct a as [| |e|[v|e]]; simpl; [done|by left|by left| |by left].
  intros [Hg Hst]. right. exists (token_id v). split; [done|].
  rewrite Hst. destruct (finished v || _); auto.
Qed.

Lemma lookup_zip {O} (l : list RequestPtr) (os : list O) p o :
  NoDup l -> length os = length l -> (p, o) ∈ zip l os ->
  (list_to_map (zip l os) : gmap RequestPtr O) !! p = Some o.
Proof. intros. apply elem_of_list_to_map_1; [|done]. rewrite fst_zip by lia. done. Qed.

Lemma lookup_zip_None {O} (l : list RequestPtr) (os : list O) p :
  length os = length l -> p ∉ l -> (list_to_map (zip l os) : gmap RequestPtr O) !! p = None.
Proof. intros. apply not_elem_of_list_to_map_1. rewrite fst_zip by lia. done. Qed.

(** What one phase leaves of the effect of the whole tick. *)
Section Effects.
Variables (s s1 s2 s3 : FifoScheduler) (w w1 w2 : W) (l : list RequestPtr)
  (os1 : list (expected PrefillOutcome)) (os2 : list (expected DecodedToken)).
Hypotheses (Hinv : sched_inv ∅ s w) (Hinv1 : sched_inv ∅ s1 w1) (Hinv2 : sched_inv ∅ s2 w2)
  (Hl : forall q, q ∈ l -> active s q)
  (Hev1 : evolves (only l (fun _ => moved kFailed)) s s1)
  (Hev2 : evolves (only (waiting_ s1) (by_outcome prefill_effect (waiting_ s1) os1)) s1 s2)
  (Hev3 : evolves (only (decoding_ s2) (by_outcome decode_effect (decoding_ s2) os2)) s2 s3)
  (Hact : forall q, active s1 q <-> active s q /\ q ∉ l)
  (Hlen1 : length os1 = length (waiting_ s1)) (Hlen2 : length os2 = length (decoding_ s2)).

#[local] Abbreviation answer_of := (answer_to s (zip (waiting_ s1) os1) (zip (decoding_ s2) os2)).

(** A request that is over before the decode phase keeps what it has. *)
Lemma effects_stay p r2 :
  requests_ s2 !! p = Some r2 -> is_terminal (req_state r2) = true ->
  (p ∉ decoding_ s2) /\ requests_ s3 !! p = Some r2.
Proof.
  intros Hr2 Ht. assert (Hn : p ∉ decoding_ s2).
  { intros Hd. pose proof (inv_active_not_terminal _ _ _ _ Hinv2 (active_decoding _ _ Hd) Hr2).
    congruence. }
  split; [done|]. by destruct (evolves_lookup _ _ _ _ _ Hev3 Hr2) as (r3 & ? & [[? _]|[_ ->]]).
Qed.

(** One that reaches the decode phase meets its decode outcome. *)
Lemma effects_decode p r2 :
  requests_ s2 !! p = Some r2 -> req_state r2 = kDecoding ->
  exists o r3, (list_to_map (zip (decoding_ s2) os2) : gmap _ _) !! p = Some o /\
    requests_ s3 !! p = Some r3 /\ decode_effect o r2 r3.
Proof.
  intros Hr2 Hst. pose proof (inv_state_decoding _ _ _ _ Hinv2 Hr2 Hst) as Hd.
  destruct (evolves_lookup _ _ _ _ _ Hev3 Hr2) as (r3 & Hr3 & [[_ (o & Hin & Heff)]|[? _]]); [|done].
  exists o, r3. split; [|done]. apply lookup_zip; [apply (inv_NoDup _ _ _ Hinv2)|done|done].
Qed.

(** An active request in time: it is prefilled if it waits, then decoded. *)
Lemma effects_in_time p r :
  requests_ s1 !! p = Some r -> active s p -> p ∉ l ->
  exists r', requests_ s3 !! p = Some r' /\ answer_effect (answer_of p) r r' /\
    answer_of p <> Unanswered /\ answer_of p <> Late /\
    (forall e, answer_of p = Refused e -> p ∈ waiting_ s1).
Proof.
  intros Hr1 Ha Hpl. unfold answer_to. rewrite decide_True by done.
  destruct (evolves_lookup _ _ _ _ _ Hev2 Hr1) as (r2 & Hr2 & [[Hw (o & Hin & Heff)]|[Hnw ->]]).
  - rewrite (lookup_zip _ _ _ o) by (done || apply (inv_NoDup _ _ _ Hinv1)).
    destruct o as [v|e]; simpl in Heff.
    + destruct (effects_decode p r2 Hr2) as (o & r3 & -> & Hr3 & He); [apply Heff|].
      exists r3. split; [done|]. split; [by eapply decode_effect_moved|done].
    + destruct (effects_stay p r2 Hr2) as [_ Hr3]; [by destruct Heff as (_ & -> & _)|].
      by exists r2.
  - rewrite lookup_zip_None by done.
    destruct (effects_decode p r Hr2) as (o & r3 & -> & Hr3 & He); [|by exists r3].
    assert (Ha1 : active s1 p) by (by rewrite Hact).
    apply elem_of_app in Ha1 as [Hd1|]; [|done].
    by destruct (inv_decoding _ _ _ Hinv1 p Hd1) as (r1' & h & ? & Hst & _); simplify_eq.
Qed.

Lemma tick_effects p r :
  requests_ s !! p = Some r ->
  exists r', requests_ s3 !! p = Some r' /\ answer_effect (answer_of p) r r' /\
    (answer_of p = Unanswered <-> ~ active s p) /\
    (answer_of p = Late <-> p ∈ l) /\
    (forall e, answer_of p = Refused e -> p ∈ waiting_ s1).
Proof.
  intros Hr. destruct (evolves_lookup _ _ _ _ _ Hev1 Hr) as (r1 & Hr1 & H1).
  assert (Hidle : ~ active s1 p -> requests_ s2 !! p = Some r1 /\ (p ∉ waiting_ s1)).
  { intros Hna. assert (p ∉ waiting_ s1) by (intros Hw; by apply Hna, active_waiting).
    split; [|done]. by destruct (evolves_lookup _ _ _ _ _ Hev2 Hr1) as (r2 & ? & [[? _]|[_ ->]]). }
  destruct (decide (active s p)) as [Ha|Hna].
  - destruct H1 as [[Hpl H1]|[Hpl ->]].
    + destruct Hidle as [Hr2 Hw]; [rewrite Hact; tauto|].
      destruct (effects_stay p r1 Hr2) as [Hd Hr3]; [by destruct H1 as (_ & -> & _)|].
      exists r1. unfold answer_to. rewrite decide_True, !lookup_zip_None by done. done.
    + destruct (effects_in_time p r) as (r' & ? & ? & ? & ? & ?); [done..|]. exists r'. tauto.
  - assert (Hpl : p ∉ l) by auto. destruct H1 as [[? _]|[_ ->]]; [done|].
    destruct Hidle as [Hr2 Hw]; [rewrite Hact; tauto|].
    destruct (effects_stay p r Hr2) as [Hd Hr3]; [by apply (inv_rest _ _ _ Hinv p)|].
    exists r. unfold answer_to. rewrite decide_False by done. done.
Qed.

End Effects.

(** Everything [tick] guarantees. *)
Record tick_post s w (rep : TickReport) s' w' : Prop := {
  post_inv : sched_inv ∅ s' w';
  post_time : time w <= time w';
  (** Nothing rests in the waiting queue across a tick boundary. *)
  post_waiting : waiting_ s' = [];
  (** Every request evolves as its answer says. *)
  post_answers : length (requests_ s') = length (requests_ s) /\
    exists ans, tick_answers s w = Ok (ans <$> seq 0 (length (requests_ s))) /\
      forall p r, requests_ s !! p = Some r ->
        exists r', requests_ s' !! p = Some r' /\ answer_effect (ans p) r r' /\
          answer_due s (time w) (time w') (ans p) p r;
  (** The report accounts for every active request exactly once. *)
  post_report :
    u64 (expired_count rep + prefill_attempted rep + decode_attempted rep
         - prefill_succeeded rep) = u64 (size_of (decoding_ s ++ waiting_ s)) /\
    u64 (prefill_succeeded rep + prefill_failed rep) = u64 (prefill_attempted rep) /\
    u64 (decode_attempted rep) = u64 (decode_tokens rep) /\
    u64 (decode_completed rep + decode_failed rep + size_of (decoding_ s'))
      = u64 (decode_attempted rep);
  (** The report is stamped at the end of the tick. *)
  post_stamp : time w <= timestamp rep <= time w';
}.

Lemma tick_ok s w :
  sched_inv ∅ s w -> (forall l, sublist l (waiting_ s) -> fits (batch_of l s) w) ->
  exists rep s' w', tick s w = Ok (rep, s', w') /\ tick_post s w rep s' w'.
Proof.
  intros Hinv Hfits. unfold tick.
  destruct (expire_deadlines_ok s w Hinv) as
    (rep1 & l & s1 & w1 & E1 & Hret & Hnd & Hl & Hexp & Hlate & Hkept).
  rewrite E1. cbn [mbind outcome_bind].
  pose proof (retired_list_active _ _ _ _ _ _ Hinv Hret eq_refl Hl) as Hact.
  pose proof (retired_list_count _ _ _ _ _ _ Hinv Hret eq_refl Hnd Hl) as Hcnt.
  pose proof (batch_of_survivors _ _ _ _ _ Hinv Hret) as Hbatch.
  destruct Hret as (Hinv1 & Hx1 & Hev1 & Hsw & _ & _).
  destruct (prefill_phase_ok s1 w1 Hinv1) as
    (rep2 & os1 & wp & s2 & w2 & E2 & Ep & _ & Hinv2 & Hfd & Ht2 & Hlen1 & Hev2 & Hwt2 & Hdc2 &
     Hpa & Hps & Hpf & Hpt).
  { rewrite Hbatch. by apply Hx1, Hfits. }
  rewrite E2. cbn [mbind outcome_bind].
  destruct (decode_phase_ok s2 w2 Hinv2 Hfd) as
    (rep3 & os2 & wd & steps & s3 & w3 & E3 & Ed & Hinv3 & Ht3 & Hlen2 & Hsteps & _ & Hev3 &
     [Hsub3 _] & Hda & Hdt & Hdcm & Hdf).
  rewrite E3. cbn [mbind outcome_bind].
  destruct (clock_now w3) as [t w4] eqn:Ec. apply clock_now_ext in Ec as (Hx4 & Hl4 & Hstamp).
  do 3 eexists. split; [done|].
  pose proof (world_ext_time _ _ Hx1). pose proof (world_ext_time _ _ Hx4).
  pose proof (tick_effects s s1 s2 s3 w w1 w2 l os1 os2
    Hinv Hinv1 Hinv2 Hl Hev1 Hev2 Hev3 Hact Hlen1 Hlen2) as Heff.
  split; simpl.
  - by eapply inv_later.
  - lia.
  - rewrite Hwt2 in Hsub3. by apply sublist_nil_r in Hsub3.
  - split; [by destruct Hev1 as [<- _], Hev2 as [<- _], Hev3 as [<- _]|].
    exists (answer_to s (zip (waiting_ s1) os1) (zip (decoding_ s2) os2)). split.
    { unfold tick_answers. rewrite E1. simpl. rewrite Ep. simpl. rewrite E2. simpl. by rewrite Ed. }
    intros p r Hr. destruct (Heff p r Hr) as (r' & ? & ? & Hun & Hlt & Href).
    exists r'. split; [done|]. split; [done|]. split; [done| | |].
    + intros Hp%Hlt. pose proof (Hlate p r Hp Hr). lia.
    + intros Ha Hp. apply (Hkept p r Ha); [tauto|done].
    + intros e He. eapply elem_of_sublist; [by eapply Href|done].
  - rewrite Hexp, Hpa, Hda, Hps, Hpf, Hdt, Hdcm, Hdf.
    rewrite <- Hcnt, Hdc2 in *. rewrite !size_of_app in *.
    rewrite (size_promoted (waiting_ s1) os1) in * by done.
    split_and!.
    + rewrite <- !Z.add_assoc, <- Z.add_sub_assoc, u64_add_l, !Z.add_sub_assoc, u64_sub_r.
      f_equal. lia.
    + rewrite u64_add_l, u64_add_r. f_equal. lia.
    + by rewrite u64_idemp.
    + rewrite <- Z.add_assoc, u64_add_l, (Z.add_comm (u64 _)), Z.add_assoc, u64_add_r.
      f_equal. lia.
  - lia.
Qed.

(** Active requests make progress or fail; finished ones are never touched. *)
Lemma post_evolves s w rep s' w' :
  tick_post s w rep s' w' ->
  evolves (fun p r r' => (active s p -> tick_effect r r') /\ (~ active s p -> r' = r)) s s'.
Proof.
  intros [_ _ _ [Hlen (ans & _ & H)] _ _]. split; [done|]. intros p r Hr.
  destruct (H p r Hr) as (r' & Hr' & Heff & Hdue). exists r'. split; [done|].
  destruct Hdue as [Hun _ _ _]. split.
  - intros Ha. apply (answer_effect_tick (ans p)); [tauto|done].
  - intros Hna. by rewrite (proj2 Hun Hna) in Heff.
Qed.

(** A request that was late when the tick began fails without output. *)
Lemma post_expired s w rep s' w' :
  tick_post s w rep s' w' -> forall p r,
  active s p -> requests_ s !! p = Some r -> deadline_at_ r < time w ->
  exists r', requests_ s' !! p = Some r' /\ moved kFailed r r'.
Proof.
  intros [_ _ _ [Hlen (ans & _ & H)] _ _] p r Ha Hr Hlate.
  destruct (H p r Hr) as (r' & Hr' & Heff & [_ _ Htime _]). exists r'. split; [done|].
  destruct (ans p) eqn:E; [|exact Heff|exact Heff|]; by specialize (Htime Ha ltac:(done)); lia.
Qed.

(** Across a tick requests keep their identity and their history. *)
Lemma tick_same_meta s w rep s' w' p r' :
  tick_post s w rep s' w' -> requests_ s' !! p = Some r' ->
  exists r, requests_ s !! p = Some r /\ same_meta r r'.
Proof.
  intros Hpost Hr'. destruct (post_evolves _ _ _ _ _ Hpost) as [Hlen Hev].
  destruct (lookup_lt_is_Some_2 (requests_ s) p) as [r Hr];
    [rewrite <- Hlen; by eapply lookup_lt_Some|].
  exists r. split; [done|]. destruct (Hev p r Hr) as (r2 & Hr2 & Hact & Hin).
  assert (r2 = r') by congruence. subst r2.
  destruct (decide (active s p)) as [Ha|Hn]; [|by rewrite Hin].
  by destruct (Hact Ha) as [[? _]|(tok & [? _] & _)].
Qed.

(** ** [cancel] *)

Lemma cancel_in_ok id queue s w :
  sched_inv ∅ s w -> (forall p, p ∈ queue -> active s p) ->
  exists s' w', cancel_in id queue s w = Ok (s', w') /\
    ((s' = s /\ w' = w /\
      forall p r, p ∈ queue -> requests_ s !! p = Some r -> id_ r <> id) \/
     (exists p r, p ∈ queue /\ requests_ s !! p = Some r /\ id_ r = id /\
      retired_list kCancelled [p] s w s' w')).
Proof.
  intros Hinv. induction queue as [|p queue IH]; intros Hq; simpl.
  { exists s, w. split; [done|]. left. set_solver. }
  assert (Ha : active s p) by (apply Hq; set_solver).
  destruct (inv_active_lookup _ _ _ _ Hinv Ha) as [r Hr].
  unfold deref. rewrite Hr. simpl. case_bool_decide as Hid.
  - pose proof (inv_active_not_terminal _ _ _ _ Hinv Ha Hr) as Ht.
    destruct (retire_unchanged p kCancelled s w r) as (s' & w' & E & Hret); try done.
    { by rewrite cancel_edge, Ht. }
    exists s', w'. split; [done|]. right. exists p, r. set_solver.
  - destruct IH as (s' & w' & E & [(-> & -> & Hno)|(q & rq & Hq' & Hrq & Hidq & Hret)]);
      [set_solver|..]; rewrite E.
    + exists s, w. split; [done|]. left. split; [done|]. split; [done|].
      intros q rq [->|?]%elem_of_cons Hrq; [by simplify_eq|eauto].
    + exists s', w'. split; [done|]. right. exists q, rq. set_solver.
Qed.

(** The effect of [cancel id] on the request at [p]. *)
Definition cancel_effect id s p r r' : Prop :=
  (active s p /\ id_ r = id /\ moved kCancelled r r') \/
  (~ (active s p /\ id_ r = id) /\ r' = r).

Lemma cancel_effect_hit id s p r s' w w' :
  sched_inv ∅ s w -> active s p -> requests_ s !! p = Some r -> id_ r = id ->
  retired_list kCancelled [p] s w s' w' -> evolves (cancel_effect id s) s s'.
Proof.
  intros Hinv Ha Hr Hid (_ & _ & [Hlen Hev] & _). split; [done|]. intros q rq Hrq.
  destruct (Hev q rq Hrq) as (r' & Hr' & [[->%list_elem_of_singleton Hm]|[Hq ->]]);
    eexists; (split; [done|]).
  - simplify_eq. by left.
  - right. split; [|done]. intros [Haq Hidq]. apply Hq, list_elem_of_singleton.
    eapply (inv_ids _ _ _ Hinv q p); eauto. congruence.
Qed.

Lemma cancel_effect_miss id s :
  (forall p r, active s p -> requests_ s !! p = Some r -> id_ r <> id) ->
  evolves (cancel_effect id s) s s.
Proof.
  intros Hno. split; [done|]. intros p r Hr. exists r. split; [done|]. right.
  split; [|done]. intros [Ha Hid]. by apply (Hno p r).
Qed.

Lemma cancel_ok id s w :
  sched_inv ∅ s w ->
  exists s' w', cancel id s w = Ok (s', w') /\ sched_inv ∅ s' w' /\ world_ext w w' /\
    evolves (cancel_effect id s) s s'.
Proof.
  intros Hinv. unfold cancel.
  destruct (cancel_in_ok id (waiting_ s) s w Hinv) as (s1 & w1 & E1 & H1);
    [by apply active_waiting|]. rewrite E1. simpl.
  destruct H1 as [(-> & -> & Hno)|(p & r & Hp & Hr & Hid & Hret)].
  - destruct (cancel_in_ok id (decoding_ s) s w Hinv) as (s2 & w2 & E2 & H2);
      [by apply active_decoding|]. exists s2, w2. split; [done|].
    destruct H2 as [(-> & -> & Hno2)|(p & r & Hp & Hr & Hid & Hret)].
    + split; [done|]. split; [done|]. apply cancel_effect_miss.
      intros p r [?|?]%elem_of_app; eauto.
    + split; [apply Hret|]. split; [apply Hret|].
      by eapply cancel_effect_hit; [|apply active_decoding| | |].
  - pose proof Hret as (Hinv1 & Hx1 & Hev1 & _).
    pose proof (retired_list_active _ _ _ _ _ _ Hinv Hret eq_refl) as Hact.
    destruct (cancel_in_ok id (decoding_ s1) s1 w1 Hinv1) as (s2 & w2 & E2 & H2);
      [by apply active_decoding|]. exists s2, w2. split; [done|].
    assert (Hnone : forall q rq, q ∈ decoding_ s1 -> requests_ s1 !! q = Some rq -> id_ rq <> id).
    { intros q rq Hq Hrq Hidq. apply active_decoding, Hact in Hq as [Haq Hqp].
      2:{ intros ? ->%list_elem_of_singleton. by apply active_waiting. }
      destruct (inv_active_lookup _ _ _ _ Hinv Haq) as [rq0 Hrq0].
      destruct (evolves_lookup _ _ _ _ _ Hev1 Hrq0) as (rq1 & ? & [[? _]|[_ ->]]); [done|].
      apply Hqp, list_elem_of_singleton.
      eapply (inv_ids _ _ _ Hinv q p); eauto using active_waiting. congruence. }
    destruct H2 as [(-> & -> & _)|(q & rq & Hq & Hrq & Hidq & _)]; [|by destruct (Hnone q rq)].
    split; [done|]. split; [done|].
    by eapply cancel_effect_hit; [|apply active_waiting| | |].
Qed.

End Correct.
