(* ===== verification/SchedulerSpec.v ===== *)
(** * An abstract specification of the scheduler and the refinement

    What a client of the scheduler sees: a list of tickets, one per submitted
    request, each queued, running or finished, with the tokens it received.
    [spec_step] is a deterministic labelled transition system over tickets: the
    label of a submission carries the ticket's terms, that of a cancellation the
    id, that of a tick what every ticket was answered ([answer], read off the
    backend by [tick_answers]).  It mentions no queue and no handle.
    [sched_step] is the concrete step relation over [submit], [tick], [cancel]
    and the passing of time, labelled by the call ([event]); [label_of] gives a
    concrete step its label, and [scheduler_refines_spec] is the forward
    simulation between the two along [abs]. *)

From S2P Require Import Prelude Clock RequestState RequestLifecycle Request Backend MockBackend FifoScheduler SchedulerInvariant SchedulerCorrect.

(** ** The specification *)

Inductive status :=
  | Queued
  | Running (emitted : Z)
  | Finished (final : RequestState) (emitted : Z).

Record ticket := mkTicket {
  tk_id : RequestId;
  tk_budget : Z;
  tk_deadline : TimePoint;
  tk_status : status;
  tk_output : list Z;
}.

Definition set_status (st : status) (k : ticket) : ticket :=
  mkTicket (tk_id k) (tk_budget k) (tk_deadline k) st (tk_output k).

Definition give_token (tok : Z) (st : status) (k : ticket) : ticket :=
  mkTicket (tk_id k) (tk_budget k) (tk_deadline k) st (tk_output k ++ [tok]).

Definition emitted_of (k : ticket) : Z :=
  match tk_status k with Queued => 0 | Running n => n | Finished _ n => n end.

Definition finished_ticket (k : ticket) : bool :=
  match tk_status k with Finished _ _ => true | _ => false end.

(** What a ticket becomes in a tick is determined by its answer: a late one, one
    whose prefill was refused and one whose decode failed are Failed with the
    output they have; one that is given a token receives exactly that token and
    is Completed exactly when the backend says the sequence is finished or the
    token exhausts the budget. *)
Definition answer_ticket (a : answer) (k : ticket) : ticket :=
  match a with
  | Unanswered => k
  | Late | Refused _ | Decoded (Unexpected _) =>
      set_status (Finished kFailed (emitted_of k)) k
  | Decoded (Value v) =>
      let n := emitted_of k + 1 in
      give_token (token_id v)
        (if finished v || (tk_budget k <=? n) then Finished kCompleted n else Running n) k
  end.

(** Which answers a ticket can get in a tick that lasts from [t0] to [t1]: only
    finished tickets get none, only a ticket whose deadline is before [t1] is
    late and one whose deadline is before [t0] must be, and only a queued
    ticket can be refused. *)
Record answer_ok (t0 t1 : TimePoint) (a : answer) (k : ticket) : Prop := {
  ok_finished : a = Unanswered <-> finished_ticket k = true;
  ok_late : a = Late -> tk_deadline k < t1;
  ok_in_time : finished_ticket k = false -> a <> Late -> t0 <= tk_deadline k;
  ok_refused e : a = Refused e -> tk_status k = Queued;
}.

Definition cancel_ticket (id : RequestId) (k : ticket) : ticket :=
  if negb (finished_ticket k) && bool_decide (tk_id k = id)
  then set_status (Finished kCancelled (emitted_of k)) k else k.

Inductive label :=
  | LSubmit (id : RequestId) (budget : Z) (deadline : TimePoint)
  | LTick (from until : TimePoint) (answers : list answer)
  | LCancel (id : RequestId)
  | LTime.

Inductive spec_step : label -> list ticket -> list ticket -> Prop :=
  | spec_submit l id m d :
      0 < m -> Forall (fun k => finished_ticket k = false -> tk_id k <> id) l ->
      spec_step (LSubmit id m d) l (l ++ [mkTicket id m d Queued []])
  | spec_tick l t0 t1 answers :
      Forall2 (answer_ok t0 t1) answers l ->
      spec_step (LTick t0 t1 answers) l (zip_with answer_ticket answers l)
  | spec_cancel l id : spec_step (LCancel id) l (cancel_ticket id <$> l)
  | spec_time l : spec_step LTime l l.

(** The specification leaves no choice beyond the label. *)
Lemma spec_step_deterministic lab l l1 l2 :
  spec_step lab l l1 -> spec_step lab l l2 -> l1 = l2.
Proof. by inversion 1; inversion 1. Qed.

(** The tokens still owed to unfinished tickets. *)
Definition ticket_work (k : ticket) : Z :=
  if finished_ticket k then 0 else tk_budget k - emitted_of k.
Definition work (l : list ticket) : Z := sum_Z (ticket_work <$> l).
Definition unfinished (l : list ticket) : Z := size_of (filter (fun k => finished_ticket k = false) l).

(** Every unfinished ticket is owed something. *)
Definition owed (l : list ticket) : Prop :=
  Forall (fun k => finished_ticket k = false -> 1 <= tk_budget k - emitted_of k) l.

Lemma unfinished_cons k l :
  unfinished (k :: l) = (if finished_ticket k then 0 else 1) + unfinished l.
Proof.
  unfold unfinished. destruct (finished_ticket k) eqn:E.
  - rewrite filter_cons_False by congruence. lia.
  - rewrite filter_cons_True by done. rewrite size_of_cons. lia.
Qed.

Lemma work_cons k l : work (k :: l) = ticket_work k + work l.
Proof. done. Qed.

Lemma work_bound l : owed l -> unfinished l <= work l.
Proof.
  induction 1 as [|k l Hk Hl IH]; [done|].
  rewrite unfinished_cons, work_cons. unfold ticket_work at 1.
  destruct (finished_ticket k); [lia|]. specialize (Hk eq_refl). lia.
Qed.

Lemma work_zero l : Forall (fun k => finished_ticket k = true) l -> work l <= 0.
Proof.
  induction 1 as [|k l Hk Hl IH]; [done|]. rewrite work_cons. unfold ticket_work.
  rewrite Hk. lia.
Qed.

(** A tick pays at least one token of work per unfinished ticket. *)
Lemma answer_pays t0 t1 a k :
  answer_ok t0 t1 a k -> (finished_ticket k = false -> 1 <= tk_budget k - emitted_of k) ->
  (finished_ticket (answer_ticket a k) = false ->
     1 <= tk_budget (answer_ticket a k) - emitted_of (answer_ticket a k)) /\
  ticket_work (answer_ticket a k) + (if finished_ticket k then 0 else 1) <= ticket_work k.
Proof.
  intros [Hf _ _ _] Ho. unfold ticket_work. destruct (finished_ticket k) eqn:E.
  { rewrite (proj2 Hf eq_refl). simpl. by rewrite E. }
  specialize (Ho eq_refl). destruct a as [| |e|[v|e]]; simpl; try (split; [done|lia]).
  { discriminate (proj1 Hf eq_refl). }
  destruct (finished v); simpl; [split; [done|lia]|].
  destruct (Z.leb_spec (tk_budget k) (emitted_of k + 1)); simpl; [split; [done|lia]|].
  change (emitted_of (give_token _ _ k)) with (emitted_of k + 1). split; [intros _|]; lia.
Qed.

Lemma tick_pays t0 t1 answers l l' :
  owed l -> spec_step (LTick t0 t1 answers) l l' -> owed l' /\ work l' + unfinished l <= work l.
Proof.
  intros Ho H. inversion H as [|? ? ? ? Hok| |]; subst. clear H.
  induction Hok as [|a k answers l Hk Hl IH]; [done|].
  apply Forall_cons in Ho as [Ho1 Ho]. destruct (IH Ho) as [Ho' Hw].
  destruct (answer_pays _ _ _ _ Hk Ho1). simpl.
  rewrite unfinished_cons, !work_cons. split; [by constructor|lia].
Qed.

(** ** The abstraction *)

Definition abs_status (r : Request) : status :=
  match req_state r with
  | kWaitingPrefill => Queued
  | kDecoding => Running (output_tokens_emitted_ r)
  | st => Finished st (output_tokens_emitted_ r)
  end.

Definition abs_request (r : Request) : ticket :=
  mkTicket (id_ r) (max_output_tokens_ r) (deadline_at_ r) (abs_status r) (output_token_ids_ r).

Definition abs (s : FifoScheduler) : list ticket := abs_request <$> requests_ s.

Lemma abs_moved st r r' :
  moved st r r' -> abs_request r' = set_status (abs_status r') (abs_request r).
Proof.
  intros ((Hid & Hd & Hm & _) & _ & _ & Ho). unfold abs_request, set_status. simpl. congruence.
Qed.

Lemma abs_got_token tok r r' :
  got_token tok r r' -> abs_request r' = give_token tok (abs_status r') (abs_request r).
Proof.
  intros ((Hid & Hd & Hm & _) & _ & Ho). unfold abs_request, give_token. simpl. congruence.
Qed.

(** ** The concrete step relation *)

Section Refinement.
Context {W : Type} `{!Clock W, !ClockLaws W, !InferenceBackend W, !BackendContract W}.
Implicit Types (w : W) (s : FifoScheduler) (p : RequestPtr) (r : Request).

(** The backend accepts the prefill of whatever survives the expiry. *)
Definition tick_fits s w : Prop := forall l, sublist l (waiting_ s) -> fits (batch_of l s) w.

(** No request the scheduler is still working on has the id. *)
Definition fresh_id (id : RequestId) s : Prop :=
  forall q r, active s q -> requests_ s !! q = Some r -> id_ r <> id.

(** After [cancel id] no active request has the id, ... *)
Lemma cancel_fresh id s w s' w' :
  sched_inv ∅ s w -> sched_inv ∅ s' w' -> evolves (cancel_effect id s) s s' -> fresh_id id s'.
Proof.
  intros Hinv Hinv' [Hlen Hev] p r' Ha Hr' Hid.
  destruct (lookup_lt_is_Some_2 (requests_ s) p) as [r Hr].
  { rewrite <- Hlen. by eapply lookup_lt_Some. }
  pose proof (inv_active_not_terminal _ _ _ _ Hinv' Ha Hr') as Hnt.
  destruct (Hev p r Hr) as (r2 & Hr2 & Hc). assert (r2 = r') by congruence. subst r2.
  destruct Hc as [(_ & _ & _ & Hst & _)|[Hn ->]]; [by rewrite Hst in Hnt|].
  apply Hn. split; [|done]. destruct (decide (active s p)) as [|Hna]; [done|].
  pose proof (inv_rest _ _ _ Hinv p _ Hr Hna). congruence.
Qed.

(** ... and cancelling an id that no active request has does nothing. *)
Lemma cancel_noop id s w :
  sched_inv ∅ s w -> fresh_id id s -> cancel id s w = Ok (s, w).
Proof.
  intros Hinv Hfresh. unfold cancel.
  assert (Hmiss : forall queue, (forall p, p ∈ queue -> active s p) ->
    cancel_in id queue s w = Ok (s, w)).
  { intros queue Hq. destruct (cancel_in_ok id queue s w Hinv Hq)
      as (s2 & w2 & E2 & [(-> & -> & _)|(p & r & Hp & Hr & Hid & _)]); [done|].
    by destruct (Hfresh p r (Hq p Hp) Hr). }
  rewrite Hmiss by apply active_waiting. simpl. by apply Hmiss, active_decoding.
Qed.

(** The scheduler as the engine and the simulation drive it: a request is built
    and submitted, a tick is run, a request is cancelled, or time passes.  The
    guards of a submission are those of a client that gives its request an id
    not in use and a non-empty budget. *)
Inductive event :=
  | ESubmit (id : RequestId) (budget : Z) (deadline : TimePoint)
  | ETick
  | ECancel (id : RequestId)
  | ETime.

Inductive sched_step : event -> FifoScheduler * W -> FifoScheduler * W -> Prop :=
  | step_submit id d m prompt priority r s w w1 p s' w' :
      0 < m < 2 ^ 64 -> fresh_id id s ->
      new_request id d m prompt priority w = Ok (r, w1) ->
      submit r s w1 = Ok (p, s', w') ->
      sched_step (ESubmit id m (deadline_at_ r)) (s, w) (s', w')
  | step_tick s w rep s' w' :
      tick_fits s w -> tick s w = Ok (rep, s', w') -> sched_step ETick (s, w) (s', w')
  | step_cancel id s w s' w' :
      cancel id s w = Ok (s', w') -> sched_step (ECancel id) (s, w) (s', w')
  | step_world s w w' :
      live w' = live w -> time w <= time w' -> sched_step ETime (s, w) (s, w').

Definition sched_steps : FifoScheduler * W -> FifoScheduler * W -> Prop :=
  rtc (fun x y => exists ev, sched_step ev x y).

Definition sched_reachable s w : Prop :=
  exists w0, live w0 = ∅ /\ sched_steps (new_scheduler, w0) (s, w).

(** One more step. *)
Lemma sched_reachable_step ev s w s' w' :
  sched_reachable s w -> sched_step ev (s, w) (s', w') -> sched_reachable s' w'.
Proof. intros (w0 & Hl & Hs) Hstep. exists w0. split; [done|]. eapply rtc_r; eauto. Qed.

(** The label of a concrete step: that of a tick is what the backend answered. *)
Definition label_of (ev : event) s w w' : outcome label :=
  match ev with
  | ESubmit id m d => Ok (LSubmit id m d)
  | ETick => answers ← tick_answers s w; Ok (LTick (time w) (time w') answers)
  | ECancel id => Ok (LCancel id)
  | ETime => Ok LTime
  end.

Lemma new_scheduler_inv w : live w = ∅ -> sched_inv ∅ new_scheduler w.
Proof.
  intros Hl. split; simpl; try (intros; set_solver).
  - constructor.
  - intros h. rewrite Hl. unfold owns. simpl. split; [set_solver|].
    intros [[id Hid]|?]; [by rewrite lookup_empty in Hid|set_solver].
Qed.

(** Building a request only reads the clock. *)
Lemma new_request_ext id d m prompt priority w r w' :
  new_request id d m prompt priority w = Ok (r, w') -> world_ext w w' /\ live w' = live w.
Proof.
  unfold new_request, new_lifecycle. destruct (clock_now w) as [t1 w1] eqn:E1.
  destruct (clock_now w1) as [t2 w2] eqn:E2. intros H. inv_ok.
  apply clock_now_ext in E1 as (? & ? & _), E2 as (? & ? & _).
  split; [by etrans|congruence].
Qed.

Lemma new_request_submit id d m prompt priority r s w w1 :
  sched_inv ∅ s w -> 0 < m < 2 ^ 64 -> fresh_id id s ->
  new_request id d m prompt priority w = Ok (r, w1) ->
  exists r' s' w', submit r s w1 = Ok (length (requests_ s), s', w') /\
    sched_inv ∅ s' w' /\ world_ext w w' /\ live w' = live w /\
    req_state r' = kWaitingPrefill /\ id_ r' = id /\ max_output_tokens_ r' = m /\
    deadline_at_ r' = deadline_at_ r /\ prompt_token_ids_ r' = prompt /\
    output_tokens_emitted_ r' = 0 /\ time w + d <= deadline_at_ r /\
    (exists a, entered_at kAdmitted (lifecycle_ r') = Some a /\ time w <= a) /\
    s' = mkScheduler (requests_ s ++ [r']) (waiting_ s ++ [length (requests_ s)])
           (decoding_ s) (handles_ s).
Proof.
  intros Hinv Hm Hid Hnew.
  pose proof (new_request_ext _ _ _ _ _ _ _ _ Hnew) as [Hx1 Hl1].
  pose proof (new_request_wf id d m prompt priority w r w1 ltac:(lia) Hnew) as Hwf.
  apply new_request_Ok in Hnew as (Hrid & Hst & Hrm & Hre & Hrp & _ & _ & Hd & _).
  pose proof (world_ext_time _ _ Hx1).
  destruct (submit_ok s w1 r) as (r' & s' & w' & E & Hinv' & Hx & Hl & (Hmeta & Hst' & He & _) & (a & Ha & Hat) & Hs');
    [by eapply inv_later|done|done|lia|intros; rewrite Hrid; by eapply Hid|].
  destruct Hmeta as (? & ? & ? & ? & _).
  exists r', s', w'. split_and!; try done; try congruence; try lia; [by etrans|]. exists a. split; [done|lia].
Qed.

Lemma sched_step_inv ev x y :
  sched_step ev x y -> sched_inv ∅ x.1 x.2 -> sched_inv ∅ y.1 y.2.
Proof.
  intros [id d m prompt pr r s w w1 p s' w' Hm Hid Hnew Hsub|s w rep s' w' Hfits Ht
         |id s w s' w' Hc|s w w' Hl Ht] Hinv; simpl in *.
  - destruct (new_request_submit _ _ _ _ _ _ _ _ _ Hinv Hm Hid Hnew)
      as (? & ? & ? & E & ? & _). rewrite E in Hsub. by simplify_eq.
  - destruct (tick_ok s w Hinv Hfits) as (? & ? & ? & E & Hpost).
    rewrite E in Ht. simplify_eq. apply Hpost.
  - destruct (cancel_ok id s w Hinv) as (? & ? & E & ? & _). rewrite E in Hc. by simplify_eq.
  - by eapply inv_later.
Qed.

Lemma sched_reachable_inv s w : sched_reachable s w -> sched_inv ∅ s w.
Proof.
  intros (w0 & Hl & Hsteps). apply new_scheduler_inv in Hl.
  change (sched_inv ∅ (s, w).1 (s, w).2).
  change (sched_inv ∅ (new_scheduler, w0).1 (new_scheduler, w0).2) in Hl.
  revert Hl. generalize dependent (s, w). generalize (new_scheduler, w0).
  induction 1 as [|x y z [ev Hstep] _ IH]; eauto using sched_step_inv.
Qed.

(** ** The simulation *)

Lemma waiting_emitted r t :
  request_wf t r -> req_state r = kWaitingPrefill -> output_tokens_emitted_ r = 0.
Proof.
  intros Hwf Hst. pose proof (req_budget _ _ Hwf).
  destruct (Z.eq_dec (output_tokens_emitted_ r) 0) as [|Hne]; [done|].
  destruct (proj1 (req_first _ _ Hwf)) as [f Hf]; [lia|].
  destruct (wf_first _ _ (req_lifecycle _ _ Hwf) f Hf) as (_ & _ & [Hd|[Ht _]]);
    unfold req_state in Hst; rewrite Hst in *; done.
Qed.

Lemma abs_finished extra s w p r :
  sched_inv extra s w -> requests_ s !! p = Some r ->
  finished_ticket (abs_request r) = true <-> ~ active s p.
Proof.
  intros Hinv Hr. unfold finished_ticket, abs_request, abs_status. simpl. split.
  - intros Hf [Hd|Hw]%elem_of_app.
    + destruct (inv_decoding _ _ _ Hinv p Hd) as (r' & h & ? & Hst & _). simplify_eq.
      by rewrite Hst in Hf.
    + destruct (inv_waiting _ _ _ Hinv p Hw) as (r' & ? & Hst). simplify_eq.
      by rewrite Hst in Hf.
  - intros Hn. pose proof (inv_rest _ _ _ Hinv p r Hr Hn). by destruct (req_state r).
Qed.

Lemma abs_unfinished extra s w p r :
  sched_inv extra s w -> requests_ s !! p = Some r ->
  active s p -> finished_ticket (abs_request r) = false.
Proof.
  intros Hinv Hr Ha. destruct (finished_ticket (abs_request r)) eqn:E; [|done].
  eapply abs_finished in E; [|done..]. done.
Qed.

Lemma abs_emitted extra s w p r :
  sched_inv extra s w -> requests_ s !! p = Some r ->
  emitted_of (abs_request r) = output_tokens_emitted_ r.
Proof.
  intros Hinv Hr. unfold emitted_of, abs_request, abs_status. simpl.
  pose proof (inv_wf _ _ _ Hinv p r Hr) as Hwf.
  destruct (req_state r) eqn:E; simpl; try done. symmetry. by eapply waiting_emitted.
Qed.

Lemma abs_owed extra s w : sched_inv extra s w -> owed (abs s).
Proof.
  intros Hinv. apply Forall_lookup. intros p k Hk.
  apply list_lookup_fmap_Some in Hk as (r & -> & Hr). intros Hf.
  rewrite (abs_emitted _ _ _ _ _ Hinv Hr). simpl.
  destruct (decide (active s p)) as [Ha|Hn].
  - pose proof (inv_budget _ _ _ Hinv p r Ha Hr). lia.
  - eapply abs_finished in Hn; [|done..]. congruence.
Qed.

Lemma abs_answer s w p r r' a :
  sched_inv ∅ s w -> requests_ s !! p = Some r -> answer_effect a r r' ->
  abs_request r' = answer_ticket a (abs_request r).
Proof.
  intros Hinv Hr. pose proof (abs_emitted _ _ _ _ _ Hinv Hr) as Hem.
  assert (Hfail : moved kFailed r r' ->
    abs_request r' = set_status (Finished kFailed (emitted_of (abs_request r))) (abs_request r)).
  { intros Hm. rewrite (abs_moved _ _ _ Hm), Hem. destruct Hm as (_ & Hst & He & _).
    unfold abs_status. by rewrite Hst, He. }
  destruct a as [| |e|[v|e]]; simpl; auto; [by intros ->|].
  intros [Hg Hst]. rewrite (abs_got_token _ _ _ Hg), Hem. destruct Hg as (_ & He & _).
  unfold abs_status. rewrite Hst, He. by destruct (finished v || _).
Qed.

Lemma abs_answer_ok s w w' p r a :
  sched_inv ∅ s w -> requests_ s !! p = Some r -> answer_due s (time w) (time w') a p r ->
  answer_ok (time w) (time w') a (abs_request r).
Proof.
  intros Hinv Hr [Hun Hlate Htime Href].
  pose proof (abs_finished _ _ _ _ _ Hinv Hr) as Hfin. split; [by rewrite Hfin|done| |].
  - intros Hf. apply Htime. destruct (decide (active s p)) as [|Hn]; [done|].
    apply Hfin in Hn. congruence.
  - intros e He. destruct (inv_waiting _ _ _ Hinv p (Href e He)) as (r' & ? & Hst). simplify_eq.
    simpl. unfold abs_status. by rewrite Hst.
Qed.

(** A tick is the tick of the specification with the backend's answers. *)
Lemma abs_tick s w rep s' w' :
  sched_inv ∅ s w -> tick_post s w rep s' w' ->
  exists answers, tick_answers s w = Ok answers /\
    spec_step (LTick (time w) (time w') answers) (abs s) (abs s').
Proof.
  intros Hinv [_ _ _ [Hlen (ans & E & H)] _ _].
  exists (ans <$> seq 0 (length (requests_ s))). split; [done|].
  assert (abs s' = zip_with answer_ticket (ans <$> seq 0 (length (requests_ s))) (abs s)) as ->.
  { apply list_eq_same_length with (length (abs s)); unfold abs;
      rewrite ?length_zip_with, ?length_fmap, ?length_seq; [lia|lia|].
    intros p k' k Hp Hk' Hk. apply list_lookup_fmap_Some in Hk' as (r' & -> & Hr').
    apply lookup_zip_with_Some in Hk as (a & k0 & -> & Ha & Hk0).
    apply list_lookup_fmap_Some in Ha as (q & -> & [-> _]%lookup_seq).
    apply list_lookup_fmap_Some in Hk0 as (r & -> & Hr).
    destruct (H p r Hr) as (r2 & ? & Heff & _). simplify_eq. by eapply abs_answer. }
  constructor. apply Forall2_same_length_lookup_2.
  { unfold abs. by rewrite !length_fmap, length_seq. }
  intros p a k Ha Hk. apply list_lookup_fmap_Some in Ha as (q & -> & [-> _]%lookup_seq).
  apply list_lookup_fmap_Some in Hk as (r & -> & Hr).
  destruct (H p r Hr) as (r2 & _ & _ & Hdue). by eapply abs_answer_ok.
Qed.

Lemma tick_post_pays s w rep s' w' :
  sched_inv ∅ s w -> tick_post s w rep s' w' ->
  owed (abs s') /\ work (abs s') + unfinished (abs s) <= work (abs s).
Proof.
  intros Hinv Hpost. destruct (abs_tick _ _ _ _ _ Hinv Hpost) as (answers & _ & Hspec).
  by eapply tick_pays, Hspec; eapply abs_owed.
Qed.

Lemma abs_cancel id s w s' :
  sched_inv ∅ s w -> evolves (cancel_effect id s) s s' ->
  abs s' = cancel_ticket id <$> abs s.
Proof.
  intros Hinv [Hlen Hev].
  assert (Hl : length (abs s') = length (cancel_ticket id <$> abs s))
    by (unfold abs; rewrite !length_fmap; exact Hlen).
  apply list_eq_same_length with (length (abs s')); [congruence|congruence|].
  intros p k' k Hp Hk' Hk. apply list_lookup_fmap_Some in Hk' as (r' & -> & Hr').
  apply list_lookup_fmap_Some in Hk as (k0 & -> & Hk).
  apply list_lookup_fmap_Some in Hk as (r & -> & Hr).
  destruct (Hev p r Hr) as (r2 & ? & Heff). simplify_eq. unfold cancel_ticket. simpl.
  destruct Heff as [(Ha & Hid & Hmv)|[Hn ->]].
  - rewrite (abs_unfinished _ _ _ _ _ Hinv Hr Ha), bool_decide_true by done. simpl.
    rewrite (abs_moved _ _ _ Hmv), (abs_emitted _ _ _ _ _ Hinv Hr).
    destruct Hmv as (_ & Hst & He & _). unfold abs_status.
    by rewrite Hst, He.
  - destruct (decide (active s p)) as [Ha|Hna].
    + rewrite bool_decide_false by tauto. by rewrite andb_false_r.
    + by rewrite (proj2 (abs_finished _ _ _ _ _ Hinv Hr) Hna).
Qed.

Lemma sched_step_abs ev s w s' w' :
  sched_inv ∅ s w -> sched_step ev (s, w) (s', w') ->
  exists lab, label_of ev s w w' = Ok lab /\ spec_step lab (abs s) (abs s').
Proof.
  intros Hinv Hstep.
  inversion Hstep as [id d m prompt pr r ? ? w1 p ? ? Hm Hid Hnew Hsub|? ? rep ? ? Hfits Ht
         |id ? ? ? ? Hc|? ? ? Hl Ht]; subst; simpl.
  - destruct (new_request_submit _ _ _ _ _ _ _ _ _ Hinv Hm Hid Hnew)
      as (r' & s2 & w2 & E & Hinv' & _ & _ & Hst & Hrid & Hrm & Hrd & _ & He & _ & _ & Hs').
    rewrite E in Hsub. injection Hsub as <- -> ->. subst s'. eexists. split; [done|].
    unfold abs. simpl. rewrite fmap_app. simpl.
    assert (output_token_ids_ r' = []) as Ho.
    { pose proof (req_output _ _ (inv_wf _ _ _ Hinv' _ r'
        (list_lookup_middle _ [] _ _ eq_refl))) as Hsz.
      rewrite He in Hsz. by destruct (output_token_ids_ r'). }
    assert (abs_request r' = mkTicket id m (deadline_at_ r) Queued []) as ->.
    { unfold abs_request, abs_status. rewrite Hst. by f_equal. }
    constructor; [lia|]. apply Forall_lookup. intros q k Hk Hf.
    apply list_lookup_fmap_Some in Hk as (rq & -> & Hrq). simpl.
    apply (Hid q); [|done]. destruct (decide (active s q)) as [|Hn]; [done|].
    rewrite (proj2 (abs_finished _ _ _ _ _ Hinv Hrq) Hn) in Hf. done.
  - destruct (tick_ok s w Hinv Hfits) as (? & ? & ? & E & Hpost).
    rewrite E in Ht. injection Ht as -> -> ->.
    destruct (abs_tick _ _ _ _ _ Hinv Hpost) as (answers & Ea & Hspec).
    rewrite Ea. simpl. eauto.
  - destruct (cancel_ok id s w Hinv) as (? & ? & E & _ & _ & Hev).
    rewrite E in Hc. injection Hc as -> ->. eexists. split; [done|].
    rewrite (abs_cancel _ _ _ _ Hinv Hev). apply spec_cancel.
  - eexists. split; [done|]. apply spec_time.
Qed.

(** ** Draining *)

Fixpoint ticks (n : nat) s w : outcome (FifoScheduler * W) :=
  match n with
  | O => Ok (s, w)
  | S n => '(_, s, w) ← tick s w; ticks n s w
  end.

Lemma unfinished_zero extra s w :
  sched_inv extra s w -> unfinished (abs s) <= 0 -> waiting_ s = [] /\ decoding_ s = [].
Proof.
  intros Hinv Hu.
  assert (Hnone : forall p, ~ active s p).
  { intros p Ha. destruct (inv_active_lookup _ _ _ _ Hinv Ha) as [r Hr].
    pose proof (abs_unfinished _ _ _ _ _ Hinv Hr Ha) as Hf.
    assert (Hin : abs_request r ∈ filter (fun k => finished_ticket k = false) (abs s)).
    { apply list_elem_of_filter. split; [done|]. apply list_elem_of_fmap.
      exists r. split; [done|]. by eapply list_elem_of_lookup_2. }
    unfold unfinished in Hu. destruct (filter _ (abs s)); [by apply not_elem_of_nil in Hin|].
    rewrite size_of_cons in Hu. pose proof (size_of_nonneg l). lia. }
  split.
  - destruct (waiting_ s) as [|p l] eqn:E; [done|].
    destruct (Hnone p). apply active_waiting. rewrite E. set_solver.
  - destruct (decoding_ s) as [|p l] eqn:E; [done|].
    destruct (Hnone p). apply active_decoding. rewrite E. set_solver.
Qed.

(** With nothing active no work is left, ... *)
Lemma work_idle extra s w : sched_inv extra s w -> (forall p, ~ active s p) -> work (abs s) <= 0.
Proof.
  intros Hinv Hnone. apply work_zero, Forall_lookup. intros p k Hk.
  apply list_lookup_fmap_Some in Hk as (r & -> & Hr). by apply (abs_finished _ _ _ _ _ Hinv Hr).
Qed.

(** ... and with no work left nothing is active. *)
Lemma work_done s w p : sched_inv ∅ s w -> work (abs s) <= 0 -> ~ active s p.
Proof.
  intros Hinv Hwork Ha. pose proof (work_bound _ (abs_owed _ _ _ Hinv)).
  destruct (unfinished_zero _ _ _ Hinv) as [Hwt Hdc]; [lia|].
  unfold active in Ha. rewrite Hwt, Hdc in Ha. set_solver.
Qed.

Lemma tick_pays_one s w rep s' w' n :
  sched_inv ∅ s w -> tick_post s w rep s' w' -> work (abs s) <= Z.of_nat (S n) ->
  work (abs s') <= Z.of_nat n.
Proof.
  intros Hinv Hpost Hwork.
  pose proof (tick_post_pays _ _ _ _ _ Hinv Hpost) as [_ Hpay].
  pose proof (size_of_nonneg (filter (fun k => finished_ticket k = false) (abs s))) as Hn0.
  fold (unfinished (abs s)) in Hn0.
  destruct (Z.eq_dec (unfinished (abs s)) 0) as [Hz|]; [|lia].
  destruct (unfinished_zero _ _ _ Hinv) as [Hwt Hdc]; [lia|].
  assert (work (abs s) <= 0); [|lia]. eapply work_idle; [exact Hinv|].
  intros p. unfold active. rewrite Hwt, Hdc. set_solver.
Qed.

(** A drained scheduler holds no backend sequence. *)
Lemma drained_clean s w :
  sched_inv ∅ s w -> decoding_ s = [] -> handles_ s = ∅ /\ live w = ∅.
Proof.
  intros Hinv Hd.
  assert (Hh : handles_ s = ∅).
  { apply map_eq. intros id. rewrite lookup_empty.
    destruct (handles_ s !! id) as [h|] eqn:E; [|done].
    destruct (inv_handles _ _ _ Hinv _ _ E) as (p & _ & Hp & _). rewrite Hd in Hp. set_solver. }
  split; [done|]. apply set_eq. intros h. rewrite (inv_live _ _ _ Hinv). unfold owns.
  rewrite Hh. split; [|set_solver]. intros [[id Hid]|?]; [by rewrite lookup_empty in Hid|done].
Qed.

Lemma ticks_drain n s w :
  sched_inv ∅ s w -> work (abs s) <= Z.of_nat n ->
  (forall k s' w', (k < n)%nat -> ticks k s w = Ok (s', w') -> tick_fits s' w') ->
  exists s' w', ticks n s w = Ok (s', w') /\ sched_inv ∅ s' w' /\
    waiting_ s' = [] /\ decoding_ s' = [].
Proof.
  revert s w. induction n as [|n IH]; intros s w Hinv Hwork Hfits.
  - exists s, w. split; [done|]. split; [done|].
    pose proof (work_bound _ (abs_owed _ _ _ Hinv)). eapply unfinished_zero; [done|lia].
  - destruct (tick_ok s w Hinv) as (rep & s1 & w1 & E & Hpost).
    { apply (Hfits 0%nat s w); [lia|done]. }
    pose proof (tick_pays_one _ _ _ _ _ _ Hinv Hpost Hwork) as Hw1.
    destruct (IH s1 w1 (post_inv _ _ _ _ _ Hpost) Hw1) as (s2 & w2 & E2 & H2).
    { intros k s' w' Hk Hrun. apply (Hfits (S k)); [lia|]. simpl. by rewrite E. }
    exists s2, w2. simpl. rewrite E. done.
Qed.

End Refinement.

(** ** Room for a tick on the simulated backend *)

(** [mock_wf] as a test, for concrete runs. *)
Definition mock_wfb (w : MockWorld) : bool :=
  forallb (fun e => e.1 <? next_sequence_id_ (mock w)) (map_to_list (sequences_ (mock w)))
  && (0 <=? next_sequence_id_ (mock w)) && (0 <=? per_token_prefill_cost_ (mock w))
  && (0 <=? per_decode_cost_ (mock w)) && (0 <=? current_ (mock_clock w)).

Lemma mock_wfb_wf (w : MockWorld) : mock_wfb w = true -> mock_wf w.
Proof.
  unfold mock_wfb. rewrite !andb_true_iff, !Z.leb_le, forallb_forall.
  intros [[[[Hid ?] ?] ?] ?]. split; try done.
  intros i [st Hi]%elem_of_dom. apply Z.ltb_lt.
  apply (Hid (i, st)), list_elem_of_In, elem_of_map_to_list. done.
Qed.

Lemma sublist_omap {A B} (f : A -> option B) (l k : list A) :
  sublist l k -> sublist (omap f l) (omap f k).
Proof.
  induction 1 as [|x l k Hs IH|x l k Hs IH]; simpl; [done| |];
    destruct (f x); [by apply sublist_skip|done|by apply sublist_cons|done].
Qed.

Lemma size_of_omap {A B} (f : A -> option B) (l : list A) : size_of (omap f l) <= size_of l.
Proof.
  induction l as [|x l IH]; [done|].
  change (omap f (x :: l)) with (match f x with Some y => y :: omap f l | None => omap f l end).
  destruct (f x); rewrite ?size_of_cons; lia.
Qed.

Lemma size_of_sublist {A} (l k : list A) : sublist l k -> size_of l <= size_of k.
Proof. intros H%sublist_length. unfold size_of. lia. Qed.

(** The survivors of the waiting queue cost no more than the queue. *)
Lemma batch_of_sublist (s : FifoScheduler) (l : list RequestPtr) :
  sublist l (waiting_ s) ->
  0 <= sum_Z (prompt_sizes (batch_of l s)) <= sum_Z (prompt_sizes (batch_of (waiting_ s) s)) /\
  size_of (prefill_sequences (batch_of l s)) <= size_of (waiting_ s).
Proof.
  intros Hl. split.
  - apply sum_Z_sublist; [|apply prompt_sizes_nonneg]. by apply fmap_sublist, sublist_omap.
  - etrans; [apply size_of_omap|]. by apply size_of_sublist.
Qed.

(** It is enough that the clock can pay for the whole waiting queue and one
    decode, and that the handle counter does not wrap. *)
Lemma mock_tick_fits (s : FifoScheduler) (w : MockWorld) :
  mock_wf w ->
  current_ (mock_clock w) + batch_cost w (batch_of (waiting_ s) s)
    + per_decode_cost_ (mock w) <= INT64_MAX ->
  next_sequence_id_ (mock w) + size_of (waiting_ s) < 2 ^ 64 ->
  tick_fits s w.
Proof.
  intros Hwf Hc Hn l Hl. simpl. split; [done|]. unfold batch_cost in *.
  destruct (batch_of_sublist s l Hl). destruct (mock_costs _ Hwf). split; [nia|lia].
Qed.
