(* ===== verification/SchedulerProperties.v ===== *)
(** * The properties of the scheduler

    The theorems about the scheduler as its clients meet it, each with a
    witness on a small run of the simulated backend.  They are consequences of
    the lemmas of [SchedulerCorrect] and [SchedulerSpec]. *)

From S2P Require Import Prelude Clock RequestState RequestLifecycle Request Backend MockBackend FifoScheduler SchedulerInvariant SchedulerCorrect SchedulerSpec.

Section Properties.
Context {W : Type} `{!Clock W, !ClockLaws W, !InferenceBackend W, !BackendContract W}.
Implicit Types (w : W) (s : FifoScheduler) (p : RequestPtr) (r : Request).

(** C1. The scheduler never faults: from every reachable state, a tick the
    backend has room for, any cancellation, and the submission of any request
    built with a non-empty budget and an id not in use all return - no panic
    from the lifecycle or from [emit_token], no [std::out_of_range] from
    [handles_.at], no index past the backend's outcomes - and they return in a
    reachable state. *)
Theorem scheduler_never_faults s w :
  sched_reachable s w ->
  (tick_fits s w -> exists rep s' w', tick s w = Ok (rep, s', w') /\ sched_reachable s' w') /\
  (forall id, exists s' w', cancel id s w = Ok (s', w') /\ sched_reachable s' w') /\
  (forall id d m prompt priority r w1, 0 < m < 2 ^ 64 -> fresh_id id s ->
     new_request id d m prompt priority w = Ok (r, w1) ->
     exists s' w', submit r s w1 = Ok (length (requests_ s), s', w') /\ sched_reachable s' w').
Proof.
  intros Hr. pose proof (sched_reachable_inv _ _ Hr) as Hinv.
  split; [|split].
  - intros Hf. destruct (tick_ok s w Hinv Hf) as (rep & s' & w' & E & _).
    exists rep, s', w'. split; [done|]. by eapply sched_reachable_step, step_tick.
  - intros id. destruct (cancel_ok id s w Hinv) as (s' & w' & E & _).
    exists s', w'. split; [done|]. by eapply sched_reachable_step, step_cancel.
  - intros id d m prompt pr r w1 Hm Hid Hnew.
    destruct (new_request_submit _ _ _ _ _ _ _ _ _ Hinv Hm Hid Hnew)
      as (r' & s' & w' & E & _).
    exists s', w'. split; [done|]. by eapply sched_reachable_step, step_submit.
Qed.

(** C2. The scheduler refines its specification: every concrete step from a
    reachable state has a label, and on the tickets clients see it is exactly
    the step of [spec_step] with that label, which leaves no choice.  A
    submission appends its ticket; a cancellation of [id] cancels the unfinished
    ticket with that id and nothing else; and a tick moves every ticket as the
    backend answered it in that tick ([tick_answers]): a finished one is never
    touched again, a late one and one the backend refused fail with the output
    they have, and every other receives exactly the token the backend decoded
    for it and is Completed exactly on the backend's end of sequence or at its
    budget.  A ticket is late only if its deadline has passed during the tick,
    and is late if it had passed before. *)
Theorem scheduler_refines_spec ev s w s' w' :
  sched_reachable s w -> sched_step ev (s, w) (s', w') ->
  exists lab, label_of ev s w w' = Ok lab /\ spec_step lab (abs s) (abs s') /\ owed (abs s').
Proof.
  intros Hr Hstep. pose proof (sched_reachable_inv _ _ Hr) as Hinv.
  destruct (sched_step_abs _ _ _ _ _ Hinv Hstep) as (lab & E & Hspec).
  exists lab. split; [done|]. split; [done|].
  pose proof (sched_step_inv _ _ _ Hstep Hinv) as Hinv'. simpl in Hinv'. by eapply abs_owed.
Qed.

(** C16. Handles are never leaked nor used after release: in every reachable
    state the sequences alive in the backend are exactly those the handle table
    records for the requests being decoded, two requests never share one, and a
    scheduler with nothing left to decode holds none. *)
Theorem scheduler_no_leaked_sequences s w :
  sched_reachable s w ->
  (forall h, h ∈ live w <-> exists p r, p ∈ decoding_ s /\ requests_ s !! p = Some r /\
                             handles_ s !! id_ r = Some (mkHandle h)) /\
  (forall p q r1 r2 h, p ∈ decoding_ s -> q ∈ decoding_ s ->
     requests_ s !! p = Some r1 -> requests_ s !! q = Some r2 ->
     handles_ s !! id_ r1 = Some h -> handles_ s !! id_ r2 = Some h -> p = q) /\
  (decoding_ s = [] -> handles_ s = ∅ /\ live w = ∅).
Proof.
  intros Hinv%sched_reachable_inv. split; [|split].
  - intros h. rewrite (inv_live _ _ _ Hinv). split.
    + intros [[id Hid]|?]; [|set_solver].
      destruct (inv_handles _ _ _ Hinv _ _ Hid) as (p & r & ? & ? & <-). eauto.
    + intros (p & r & _ & _ & Hh). left. by exists (id_ r).
  - intros p q r1 r2 h Hp Hq Hr1 Hr2 H1 H2.
    eapply (inv_ids _ _ _ Hinv p q); eauto using active_decoding.
    by eapply (inv_inj _ _ _ Hinv).
  - intros Hd. by apply (drained_clean s w).
Qed.

(** C21. FIFO order and placement: in every reachable state the decoding list
    followed by the waiting queue is in submission order without repetition,
    and a request is in the waiting queue exactly when its state is
    WaitingPrefill, in the decoding list exactly when it is Decoding, and in
    neither exactly when it is terminal. *)
Theorem scheduler_fifo_order s w :
  sched_reachable s w ->
  increasing (decoding_ s ++ waiting_ s) /\
  (forall p r, requests_ s !! p = Some r ->
     (p ∈ waiting_ s <-> req_state r = kWaitingPrefill) /\
     (p ∈ decoding_ s <-> req_state r = kDecoding) /\
     (~ active s p <-> is_terminal (req_state r) = true)).
Proof.
  intros Hinv%sched_reachable_inv. split; [apply Hinv|]. intros p r Hr.
  split; [|split].
  - split; [|by eapply inv_state_waiting].
    intros Hp. destruct (inv_waiting _ _ _ Hinv p Hp) as (r' & ? & ?). by simplify_eq.
  - split; [|by eapply inv_state_decoding].
    intros Hp. destruct (inv_decoding _ _ _ Hinv p Hp) as (r' & h & ? & ? & _). by simplify_eq.
  - split; [by apply (inv_rest _ _ _ Hinv)|]. intros Ht Ha.
    pose proof (inv_active_not_terminal _ _ _ _ Hinv Ha Hr). congruence.
Qed.

(** C19. Every request the scheduler holds is well-formed data: its counters are in
    the range of their machine type and agree with the tokens it stores, it is
    waiting, decoding or finished (never caught inside a transition), the stamp
    of its state is the recorded one and not in the future, and the milestones
    are recorded exactly when what they mark has happened. *)
Theorem scheduler_requests_well_formed s w p r :
  sched_reachable s w -> requests_ s !! p = Some r ->
  0 <= output_tokens_emitted_ r <= max_output_tokens_ r /\ max_output_tokens_ r < 2 ^ 64 /\
  size_of (output_token_ids_ r) = output_tokens_emitted_ r /\
  ((req_state r = kWaitingPrefill /\ output_tokens_emitted_ r = 0 \/
    req_state r = kDecoding /\ output_tokens_emitted_ r < max_output_tokens_ r) \/
   is_terminal (req_state r) = true) /\
  entered_at_ (lifecycle_ r) <= time w /\
  entered_at (req_state r) (lifecycle_ r) = Some (entered_at_ (lifecycle_ r)) /\
  (is_Some (first_token_at_ (lifecycle_ r)) <-> 0 < output_tokens_emitted_ r) /\
  (is_Some (completed_at_ (lifecycle_ r)) <-> req_state r = kCompleted).
Proof.
  intros Hinv%sched_reachable_inv Hr. pose proof (inv_wf _ _ _ Hinv p r Hr) as Hwf.
  pose proof (req_lifecycle _ _ Hwf) as Hlc.
  assert (Hst : (req_state r = kWaitingPrefill /\ output_tokens_emitted_ r = 0 \/
    req_state r = kDecoding /\ output_tokens_emitted_ r < max_output_tokens_ r) \/
    is_terminal (req_state r) = true).
  { destruct (decide (active s p)) as [Ha|Hna]; [left|right; by eapply inv_rest].
    pose proof (inv_budget _ _ _ Hinv p r Ha Hr). apply elem_of_app in Ha as [Hd|Hw].
    - destruct (inv_decoding _ _ _ Hinv p Hd) as (r1 & h & ? & ? & _). simplify_eq. right.
      by split; [|lia].
    - destruct (inv_waiting _ _ _ Hinv p Hw) as (r1 & ? & ?). simplify_eq. left.
      split; [done|]. by eapply waiting_emitted. }
  assert (Hcur : entered_at (req_state r) (lifecycle_ r) = Some (entered_at_ (lifecycle_ r))).
  { apply (wf_current _ _ Hlc). unfold req_state in *. intros E. rewrite E in Hst. naive_solver. }
  pose proof (wf_now _ _ Hlc). do 3 (split; [by apply Hwf|]). do 3 (split; [done|]). split; [by rewrite (req_first _ _ Hwf)|].
  rewrite (wf_completed _ _ Hlc). split.
  - intros [x Hx]. by destruct (entered_terminal _ _ kCompleted _ Hlc eq_refl Hx).
  - intros E. rewrite E in Hcur. eauto.
Qed.

(** C17. What one tick does to each request: an active request either fails
    with its output untouched or has exactly one token appended to it and is
    then Decoding or Completed; a request whose deadline had passed fails; a
    finished request is not touched; nothing is left waiting. *)
Theorem tick_effect_on_requests s w :
  sched_reachable s w -> tick_fits s w ->
  exists rep s' w', tick s w = Ok (rep, s', w') /\ waiting_ s' = [] /\
    forall p r, requests_ s !! p = Some r ->
      exists r', requests_ s' !! p = Some r' /\
        (active s p -> tick_effect r r') /\
        (active s p -> deadline_at_ r < time w -> moved kFailed r r') /\
        (~ active s p -> r' = r).
Proof.
  intros Hinv%sched_reachable_inv Hf.
  destruct (tick_ok s w Hinv Hf) as (rep & s' & w' & E & Hpost).
  exists rep, s', w'. split; [done|]. split; [apply Hpost|]. intros p r Hr.
  destruct (post_evolves _ _ _ _ _ Hpost) as [_ Hev].
  destruct (Hev p r Hr) as (r' & Hr' & Hact & Hrest). exists r'.
  split; [done|]. split; [done|]. split; [|done]. intros Ha Hd.
  destruct (post_expired _ _ _ _ _ Hpost p r Ha Hr Hd) as (r2 & ? & ?). by simplify_eq.
Qed.

(** C24. The report of a tick accounts for every active request exactly once:
    those that were active are the expired ones, the failed prefills and the
    decoded ones; every decoded one gives one token; what is not completed or
    failed is still decoding afterwards. *)
Theorem tick_report_accounts s w rep s' w' :
  sched_reachable s w -> tick_fits s w -> tick s w = Ok (rep, s', w') ->
  u64 (expired_count rep + prefill_failed rep + decode_attempted rep)
    = u64 (decoding_count s + waiting_count s) /\
  u64 (prefill_succeeded rep + prefill_failed rep) = u64 (prefill_attempted rep) /\
  u64 (decode_tokens rep) = u64 (decode_attempted rep) /\
  u64 (decode_completed rep + decode_failed rep + decoding_count s')
    = u64 (decode_attempted rep) /\
  waiting_count s' = 0.
Proof.
  intros Hinv%sched_reachable_inv Hf E.
  destruct (tick_ok s w Hinv Hf) as (? & ? & ? & E' & Hpost).
  rewrite E in E'. injection E' as <- <- <-.
  destruct (post_report _ _ _ _ _ Hpost) as (H1 & H2 & H3 & H4).
  unfold waiting_count, decoding_count. rewrite (post_waiting _ _ _ _ _ Hpost).
  split_and!; try done. rewrite <- size_of_app, <- H1.
  replace (expired_count rep + prefill_failed rep + decode_attempted rep) with
    (expired_count rep + decode_attempted rep - prefill_succeeded rep
       + (prefill_succeeded rep + prefill_failed rep)) by lia.
  rewrite <- u64_add_r, H2, u64_add_r. f_equal. lia.
Qed.

(** C25. [cancel] retires exactly the active request with the given id, with
    its output kept, leaves every other request alone, and cancelling the same
    id again changes nothing. *)
Theorem scheduler_cancel_exact id s w :
  sched_reachable s w ->
  exists s' w', cancel id s w = Ok (s', w') /\
    evolves (cancel_effect id s) s s' /\ fresh_id id s' /\
    cancel id s' w' = Ok (s', w').
Proof.
  intros Hinv%sched_reachable_inv.
  destruct (cancel_ok id s w Hinv) as (s' & w' & E & Hinv' & _ & Hev).
  exists s', w'. split; [done|].
  pose proof (cancel_fresh _ _ _ _ _ Hinv Hinv' Hev) as Hfresh.
  split; [done|]. split; [done|]. by apply cancel_noop.
Qed.

(** A submission appends the request to the store and to the waiting
    queue, in state WaitingPrefill with no output, and changes nothing else. *)
Theorem scheduler_submit_exact id d m prompt priority r s w w1 :
  sched_reachable s w -> 0 < m < 2 ^ 64 -> fresh_id id s ->
  new_request id d m prompt priority w = Ok (r, w1) ->
  exists r' s' w', submit r s w1 = Ok (length (requests_ s), s', w') /\
    requests_ s' = requests_ s ++ [r'] /\
    waiting_ s' = waiting_ s ++ [length (requests_ s)] /\
    decoding_ s' = decoding_ s /\ handles_ s' = handles_ s /\ live w' = live w /\
    req_state r' = kWaitingPrefill /\ id_ r' = id /\ max_output_tokens_ r' = m /\
    prompt_token_ids_ r' = prompt /\ output_tokens_emitted_ r' = 0 /\
    time w + d <= deadline_at_ r'.
Proof.
  intros Hinv%sched_reachable_inv Hm Hid Hnew.
  destruct (new_request_submit _ _ _ _ _ _ _ _ _ Hinv Hm Hid Hnew) as
    (r' & s' & w' & E & _ & _ & Hl & Hst & Hrid & Hrm & Hrd & Hp & He & Hd & _ & Hs').
  exists r', s', w'. split; [done|]. rewrite Hs', Hrd. done.
Qed.

(** C23. The prefill phase applies the backend's outcomes one to one: the
    backend is asked once, for the prompts of the waiting requests in queue
    order, and with the outcomes it returned every waiting request leaves the
    queue; those whose outcome is a handle are appended to the decoding list in
    queue order with exactly that handle recorded, the others are Failed, no
    other entry of the handle table changes, and the report counts both. *)
Theorem prefill_phase_outcomes s w :
  sched_reachable s w -> fits (batch_of (waiting_ s) s) w ->
  exists rep os w2 s' w', prefill_phase s w = Ok (rep, s', w') /\
    prefill (batch_of (waiting_ s) s) (clock_now w).2 = Ok (mkPrefillResult os, w2) /\
    length os = length (waiting_ s) /\
    evolves (only (waiting_ s) (by_outcome prefill_effect (waiting_ s) os)) s s' /\
    waiting_ s' = [] /\ decoding_ s' = decoding_ s ++ promoted (waiting_ s) os /\
    handles_minted (waiting_ s) os s s' /\
    prefill_attempted rep = size_of (waiting_ s) /\
    prefill_succeeded rep = u64 (size_of (minted os)) /\
    prefill_failed rep = u64 (size_of (waiting_ s) - size_of (minted os)) /\
    prefill_tokens rep = u64 (sum_Z (prompt_sizes (batch_of (waiting_ s) s))).
Proof.
  intros Hinv%sched_reachable_inv Hf.
  destruct (prefill_phase_ok s w Hinv Hf) as
    (rep & os & w2 & s' & w' & E & Ep & Hh & _ & _ & _ & ? & ? & ? & ? & ? & ? & ? & ?).
  by exists rep, os, w2, s', w'.
Qed.

(** C22. The decode phase gives every decoding request the token of its own
    outcome: the backend is asked once, for the recorded handles of the decoding
    requests in order, and with the outcomes it returned each request receives
    its token and is Completed exactly when the backend reports its end of
    sequence or its budget is reached; an error outcome fails it with the
    output it has.  A request stays in the decoding list with its handle
    exactly when it is still Decoding, else its handle leaves the table, and
    the report counts the attempts, the completions and the failures. *)
Theorem decode_phase_outcomes s w :
  sched_reachable s w -> fits_decode w ->
  exists rep os w2 s' w', decode_phase s w = Ok (rep, s', w') /\
    length (decode_sequences (decode_batch_of (decoding_ s) s)) = length (decoding_ s) /\
    decode (decode_batch_of (decoding_ s) s) (clock_now w).2 = Ok (mkDecodeResult os, w2) /\
    length os = length (decoding_ s) /\
    evolves (only (decoding_ s) (by_outcome decode_effect (decoding_ s) os)) s s' /\
    sublist (decoding_ s') (decoding_ s) /\
    (forall p r r', p ∈ decoding_ s -> requests_ s !! p = Some r -> requests_ s' !! p = Some r' ->
       (p ∈ decoding_ s' <-> req_state r' = kDecoding) /\
       handles_ s' !! id_ r =
         if decide (req_state r' = kDecoding) then handles_ s !! id_ r else None) /\
    decode_attempted rep = size_of (decoding_ s) /\
    decode_tokens rep = u64 (size_of (decoding_ s)) /\
    decode_failed rep = u64 (errors_of os) /\
    decode_completed rep = u64 (size_of (decoding_ s) - size_of (decoding_ s') - errors_of os).
Proof.
  intros Hinv%sched_reachable_inv Hf.
  destruct (decode_phase_ok s w Hinv Hf) as
    (rep & os & w2 & steps & s' & w' & E & Ed & Hinv' & _ & Hlen & Hcnt & Herr & Hev & Hsh &
     ? & ? & Hc & Hfl).
  destruct (build_decode_ok (decoding_ s) 0 s w Hinv) as (_ & Hb & _); [done..|].
  exists rep, os, w2, s', w'. split_and!; try done.
  - apply Hsh.
  - intros p r r' Hp Hr Hr'. eapply (decoded_handle s w s' w'); try done.
    eapply evolves_mono, Hev. intros q r1 r2 [[_ (o & _ & Ho)]|[_ ->]]; [|done].
    destruct o as [v|e]; [apply Ho|apply Ho].
  - by rewrite Hfl, Herr.
  - rewrite Hc. f_equal. lia.
Qed.

(** The expiry phase fails exactly requests whose deadline has passed, with
    their output untouched, keeps every request that was not late when it
    began reading the clock, and counts the failed ones. *)
Theorem expire_deadlines_exact s w :
  sched_reachable s w ->
  exists rep l s' w', expire_deadlines s w = Ok (rep, s', w') /\
    NoDup l /\ (forall p, p ∈ l -> active s p) /\ expired_count rep = u64 (size_of l) /\
    evolves (only l (fun _ => moved kFailed)) s s' /\
    (forall p r, p ∈ l -> requests_ s !! p = Some r -> deadline_at_ r < time w') /\
    (forall p r, active s p -> p ∉ l -> requests_ s !! p = Some r -> time w <= deadline_at_ r) /\
    (forall p, active s' p <-> active s p /\ p ∉ l).
Proof.
  intros Hinv%sched_reachable_inv.
  destruct (expire_deadlines_ok s w Hinv) as
    (rep & l & s' & w' & E & Hret & ? & Hl & ? & ? & ?).
  exists rep, l, s', w'. pose proof Hret as (_ & _ & Hev & _). split_and!; try done.
  by apply (retired_list_active _ _ _ _ _ _ Hinv Hret).
Qed.

(** C18. The scheduler drains: after as many ticks as tokens are owed to the
    unfinished requests (as long as the backend has room for each of them), the
    run has returned, no request is waiting or decoding, every request is
    terminal and the backend holds no sequence. *)
Theorem scheduler_drains n s w :
  sched_reachable s w -> work (abs s) <= Z.of_nat n ->
  (forall k s' w', (k < n)%nat -> ticks k s w = Ok (s', w') -> tick_fits s' w') ->
  exists s' w', ticks n s w = Ok (s', w') /\ waiting_ s' = [] /\ decoding_ s' = [] /\
    handles_ s' = ∅ /\ live w' = ∅ /\
    (forall p r, requests_ s' !! p = Some r -> is_terminal (req_state r) = true).
Proof.
  intros Hinv%sched_reachable_inv Hwork Hfits.
  destruct (ticks_drain n s w Hinv Hwork Hfits) as (s' & w' & E & Hinv' & Hw & Hd).
  exists s', w'. destruct (drained_clean s' w' Hinv' Hd). split_and!; try done.
  intros p r Hr. apply (inv_rest _ _ _ Hinv' p r Hr). unfold active.
  rewrite Hw, Hd. set_solver.
Qed.

End Properties.

(** ** A run of the scheduler on the simulated backend

    Two requests, one late before it is prefilled, and a cancelled one. *)
Definition demo_world : MockWorld := mkMockWorld fake_start (new_mock 1 5).

Definition demo_submit (id : RequestId) (d m : Z) (prompt : list Z)
    (x : FifoScheduler * MockWorld) : outcome (FifoScheduler * MockWorld) :=
  '(r, w) ← new_request id d m prompt 0 x.2;
  '(_, s, w) ← submit r x.1 w;
  Ok (s, w).

Definition demo_first : outcome (FifoScheduler * MockWorld) :=
  x ← demo_submit "a" 100 2 [7; 8] (new_scheduler, demo_world);
  demo_submit "b" 4 3 [9] x.

Definition demo_state (o : outcome (FifoScheduler * MockWorld)) : FifoScheduler * MockWorld :=
  match o with Ok x => x | _ => (new_scheduler, demo_world) end.

(** Both requests submitted. *)
Definition demo_s1 : FifoScheduler := Eval vm_compute in (demo_state demo_first).1.
Definition demo_w1 : MockWorld := Eval vm_compute in (demo_state demo_first).2.

(** After a first tick. *)
Definition demo_tick : outcome (FifoScheduler * MockWorld) :=
  '(_, s, w) ← tick demo_s1 demo_w1; Ok (s, w).
Definition demo_s2 : FifoScheduler := Eval vm_compute in (demo_state demo_tick).1.
Definition demo_w2 : MockWorld := Eval vm_compute in (demo_state demo_tick).2.


Lemma demo_w1_wf : mock_wf demo_w1.
Proof. apply mock_wfb_wf. vm_compute. reflexivity. Qed.

Lemma demo_fits : tick_fits demo_s1 demo_w1.
Proof. apply mock_tick_fits; [exact demo_w1_wf|vm_compute; discriminate|vm_compute; reflexivity]. Qed.

Lemma fresh_id_nil id : fresh_id id new_scheduler.
Proof. intros q r H. by apply not_elem_of_nil in H. Qed.

(** The first submission of the demo, and the request it builds. *)
Definition demo_request (id : RequestId) (d m : Z) (prompt : list Z) : Request :=
  mkRequest id (mkLifecycle kReceived 0 None None None ∅) d m 0 prompt 0 [].

Definition demo_s0 : FifoScheduler :=
  Eval vm_compute in (demo_state (demo_submit "a" 100 2 [7; 8] (new_scheduler, demo_world))).1.

Lemma demo_fresh_b : fresh_id "b" demo_s0.
Proof. intros q r Hq Hr. apply list_elem_of_singleton in Hq. subst q. injection Hr as <-. done. Qed.

Lemma demo_reachable0 : sched_reachable demo_s0 demo_world.
Proof.
  exists demo_world. split; [reflexivity|]. apply rtc_once. eexists.
  eapply (step_submit "a" 100 2 [7; 8] 0 (demo_request "a" 100 2 [7; 8]));
    [lia|apply fresh_id_nil|reflexivity|vm_compute; reflexivity].
Qed.

Lemma demo_reachable1 : sched_reachable demo_s1 demo_w1.
Proof.
  eapply sched_reachable_step; [exact demo_reachable0|].
  eapply (step_submit "b" 4 3 [9] 0 (demo_request "b" 4 3 [9]));
    [lia|exact demo_fresh_b|reflexivity|vm_compute; reflexivity].
Qed.

Lemma demo_step2 : sched_step ETick (demo_s1, demo_w1) (demo_s2, demo_w2).
Proof. eapply step_tick; [exact demo_fits|vm_compute; reflexivity]. Qed.

Lemma demo_reachable2 : sched_reachable demo_s2 demo_w2.
Proof. exact (sched_reachable_step _ _ _ _ _ demo_reachable1 demo_step2). Qed.

(** ** Witnesses *)

Lemma scheduler_never_faults_witness :
  exists rep s' w', tick demo_s1 demo_w1 = Ok (rep, s', w') /\ sched_reachable s' w'.
Proof. exact (proj1 (scheduler_never_faults demo_s1 demo_w1 demo_reachable1) demo_fits). Defined.

(** The first tick of the demo: both requests are prefilled and each is given
    the first token of its sequence. *)
Lemma scheduler_refines_spec_witness :
  exists lab, label_of ETick demo_s1 demo_w1 demo_w2 = Ok lab /\
    lab = LTick 0 8 [Decoded (Value (mkDecodedToken 1 false)); Decoded (Value (mkDecodedToken 1 false))] /\
    spec_step lab (abs demo_s1) (abs demo_s2) /\
    tk_output <$> abs demo_s2 = [[1]; [1]].
Proof.
  destruct (scheduler_refines_spec _ _ _ _ _ demo_reachable1 demo_step2) as (lab & E & Hspec & _).
  exists lab. split; [exact E|]. split; [|split; [exact Hspec|vm_compute; reflexivity]].
  vm_compute in E. injection E as <-. reflexivity.
Defined.

Lemma scheduler_no_leaked_sequences_witness :
  decoding_ demo_s2 = [0%nat; 1%nat] /\
  (forall h, h ∈ live demo_w2 <-> exists p r, p ∈ decoding_ demo_s2 /\
     requests_ demo_s2 !! p = Some r /\ handles_ demo_s2 !! id_ r = Some (mkHandle h)).
Proof.
  split; [reflexivity|].
  exact (proj1 (scheduler_no_leaked_sequences demo_s2 demo_w2 demo_reachable2)).
Defined.

Lemma scheduler_requests_well_formed_witness :
  exists r, requests_ demo_s2 !! 0%nat = Some r /\ size_of (output_token_ids_ r) = 1 /\
    output_tokens_emitted_ r <= max_output_tokens_ r.
Proof.
  destruct (requests_ demo_s2 !! 0%nat) as [r|] eqn:E; [|discriminate E].
  destruct (scheduler_requests_well_formed demo_s2 demo_w2 0%nat r demo_reachable2 E)
    as ((_ & Hmax) & _ & Hsize & _).
  exists r. injection E as <-. split; [reflexivity|]. split; [reflexivity|]. exact Hmax.
Defined.

Lemma scheduler_fifo_order_witness :
  waiting_ demo_s1 = [0%nat; 1%nat] /\ increasing (decoding_ demo_s1 ++ waiting_ demo_s1).
Proof.
  split; [reflexivity|]. exact (proj1 (scheduler_fifo_order demo_s1 demo_w1 demo_reachable1)).
Defined.

Lemma tick_effect_on_requests_witness :
  exists rep s' w', tick demo_s1 demo_w1 = Ok (rep, s', w') /\ waiting_ s' = [].
Proof.
  destruct (tick_effect_on_requests demo_s1 demo_w1 demo_reachable1 demo_fits)
    as (rep & s' & w' & E & Hw & _).
  exists rep, s', w'. exact (conj E Hw).
Defined.

Definition demo_report : TickReport := mkTickReport 8 0 2 2 0 3 2 2 0 0.

Lemma demo_tick_result : tick demo_s1 demo_w1 = Ok (demo_report, demo_s2, demo_w2).
Proof. vm_compute. reflexivity. Qed.

Lemma tick_report_accounts_witness :
  u64 (expired_count demo_report + prefill_failed demo_report + decode_attempted demo_report)
    = u64 (decoding_count demo_s1 + waiting_count demo_s1) /\ waiting_count demo_s2 = 0.
Proof.
  destruct (tick_report_accounts _ _ _ _ _ demo_reachable1 demo_fits demo_tick_result)
    as (H1 & _ & _ & _ & H5).
  exact (conj H1 H5).
Defined.

Lemma scheduler_cancel_exact_witness :
  exists s' w', cancel "b" demo_s2 demo_w2 = Ok (s', w') /\ fresh_id "b" s' /\
    cancel "b" s' w' = Ok (s', w').
Proof.
  destruct (scheduler_cancel_exact "b" demo_s2 demo_w2 demo_reachable2)
    as (s' & w' & E & _ & Hf & E2).
  exists s', w'. exact (conj E (conj Hf E2)).
Defined.

Lemma scheduler_submit_exact_witness :
  exists r' s' w', submit (demo_request "b" 4 3 [9]) demo_s0 demo_world = Ok (1%nat, s', w') /\
    requests_ s' = requests_ demo_s0 ++ [r'] /\ waiting_ s' = [0%nat; 1%nat].
Proof.
  destruct (scheduler_submit_exact "b" 4 3 [9] 0 (demo_request "b" 4 3 [9]) demo_s0 demo_world
    demo_world demo_reachable0 ltac:(lia) demo_fresh_b eq_refl)
    as (r' & s' & w' & E & Hr & Hw & _).
  exists r', s', w'. exact (conj E (conj Hr Hw)).
Defined.

(** The simulated backend mints the handles 0 and 1 for the two requests. *)
Lemma prefill_phase_outcomes_witness :
  exists rep s' w', prefill_phase demo_s1 demo_w1 = Ok (rep, s', w') /\
    handles_minted [0%nat; 1%nat]
      [Value (mkPrefillOutcome (mkHandle 0)); Value (mkPrefillOutcome (mkHandle 1))] demo_s1 s' /\
    decoding_ s' = [0%nat; 1%nat] /\ waiting_ s' = [].
Proof.
  destruct (prefill_phase_outcomes demo_s1 demo_w1 demo_reachable1)
    as (rep & os & w2 & s' & w' & E & Ep & _ & _ & Hw & Hd & Hh & _).
  { apply demo_fits. reflexivity. }
  vm_compute in Ep. injection Ep as <- _.
  exists rep, s', w'. exact (conj E (conj Hh (conj Hd Hw))).
Defined.

(** Each of the two is given the second token of its sequence: the budget of the
    first is used up by it. *)
Lemma decode_phase_outcomes_witness :
  exists rep s' w', decode_phase demo_s2 demo_w2 = Ok (rep, s', w') /\
    evolves (only [0%nat; 1%nat] (by_outcome decode_effect [0%nat; 1%nat]
      [Value (mkDecodedToken 2 false); Value (mkDecodedToken 2 false)])) demo_s2 s' /\
    decode_tokens rep = 2 /\ decode_failed rep = 0.
Proof.
  destruct (decode_phase_outcomes demo_s2 demo_w2 demo_reachable2)
    as (rep & os & w2 & s' & w' & E & _ & Ed & _ & Hev & _ & _ & _ & Ht & Hf & _).
  { split; [discriminate|]. split; vm_compute; discriminate. }
  vm_compute in Ed. injection Ed as <- _.
  exists rep, s', w'. exact (conj E (conj Hev (conj Ht Hf))).
Defined.

Lemma expire_deadlines_exact_witness :
  exists rep (l : list RequestPtr) s' w', expire_deadlines demo_s2 demo_w2 = Ok (rep, s', w') /\
    NoDup l /\ expired_count rep = u64 (size_of l).
Proof.
  destruct (expire_deadlines_exact demo_s2 demo_w2 demo_reachable2)
    as (rep & l & s' & w' & E & Hnd & _ & He & _).
  exists rep, l, s', w'. exact (conj E (conj Hnd He)).
Defined.

Lemma scheduler_drains_witness :
  exists s' w', ticks 5 demo_s1 demo_w1 = Ok (s', w') /\ decoding_ s' = [] /\ live w' = ∅.
Proof.
  destruct (scheduler_drains 5 demo_s1 demo_w1 demo_reachable1)
    as (s' & w' & E & _ & Hd & _ & Hl & _).
  - vm_compute. discriminate.
  - intros k s' w' Hk E.
    destruct k as [|[|[|[|[|k]]]]]; [..|lia]; vm_compute in E; injection E as <- <-;
      (apply mock_tick_fits;
         [apply mock_wfb_wf; vm_compute; reflexivity|vm_compute; discriminate|vm_compute; reflexivity]).
  - exists s', w'. exact (conj E (conj Hd Hl)).
Defined.
