(* ===== verification/SchedulerGuards.v ===== *)
(** * What the guards of a submission exclude

    The scheduler checks neither that a request has a budget nor that its id is
    new; the step relation of [SchedulerSpec] leaves both to the client.  This
    file says what happens to a client that does not keep to them, for every
    state rather than for one run: a request without a budget aborts the process
    at its first token ([zero_budget_panics]), and of two decoding requests with
    one id the second makes the decode phase throw once the first has been
    retired ([duplicate_ids_throw]).

    A state with a zero-budget request is outside [sched_inv].  It is studied
    through the state in which that request has a budget of one: no operation
    but [emit_token] reads the budget, so both run alike ([rebudget]) until the
    request is given a token. *)

From S2P Require Import Prelude Clock RequestState RequestLifecycle Request Backend MockBackend FifoScheduler SchedulerInvariant SchedulerCorrect SchedulerSpec SchedulerProperties.

(** ** Changing the budget of one request *)

Definition set_budget (m : Z) (r : Request) : Request :=
  mkRequest (id_ r) (lifecycle_ r) (deadline_at_ r) m
    (output_tokens_emitted_ r) (prompt_token_ids_ r) (priority_ r) (output_token_ids_ r).

Definition rebudget (p : RequestPtr) (m : Z) (s : FifoScheduler) : FifoScheduler :=
  set_requests (alter (set_budget m) p (requests_ s)) s.

Lemma omap_ext {A B} (f g : A -> option B) (l : list A) :
  (forall x, f x = g x) -> omap f l = omap g l.
Proof.
  intros Hfg. induction l as [|x l IH]; [done|]. simpl. rewrite (Hfg x).
  destruct (g x); [f_equal|]; exact IH.
Qed.

Section Rebudget.
Context {W : Type} `{!Clock W, !InferenceBackend W}.
Variables (p : RequestPtr) (m : Z).
Implicit Types (w : W) (s : FifoScheduler) (q : RequestPtr) (r : Request).

(** The request at [q] after the change. *)
Definition rb q r : Request := if decide (q = p) then set_budget m r else r.

Lemma rb_id q r : id_ (rb q r) = id_ r.
Proof. unfold rb. by case_decide. Qed.
Lemma rb_lifecycle q r : lifecycle_ (rb q r) = lifecycle_ r.
Proof. unfold rb. by case_decide. Qed.
Lemma rb_deadline q r : deadline_at_ (rb q r) = deadline_at_ r.
Proof. unfold rb. by case_decide. Qed.
Lemma rb_prompt q r : prompt_token_ids_ (rb q r) = prompt_token_ids_ r.
Proof. unfold rb. by case_decide. Qed.

Lemma rebudget_lookup q s : requests_ (rebudget p m s) !! q = rb q <$> requests_ s !! q.
Proof.
  unfold rebudget, rb. simpl. destruct (decide (q = p)) as [->|Hne].
  - by rewrite list_lookup_alter_eq.
  - rewrite list_lookup_alter_ne by done. by destruct (requests_ s !! q).
Qed.

Lemma rebudget_insert q r s :
  <[q := rb q r]> (alter (set_budget m) p (requests_ s)) =
    alter (set_budget m) p (<[q := r]> (requests_ s)).
Proof.
  unfold rb. destruct (decide (q = p)) as [->|Hne].
  - generalize (requests_ s). clear. intros l. revert p. induction l as [|x l IH]; intros [|p]; [done..|].
    simpl. f_equal. apply IH.
  - generalize (requests_ s). intros l. revert p q Hne.
    induction l as [|x l IH]; intros [|p'] [|q'] Hne; try done. simpl. f_equal. apply IH. congruence.
Qed.

Lemma deref_rebudget q s : deref q (rebudget p m s) = r ← deref q s; Ok (rb q r).
Proof. unfold deref. rewrite rebudget_lookup. by destruct (requests_ s !! q). Qed.

Lemma transition_rebudget q to s w s' w' :
  transition q to s w = Ok (s', w') ->
  transition q to (rebudget p m s) w = Ok (rebudget p m s', w').
Proof.
  unfold transition. rewrite deref_rebudget. intros H. inv_ok.
  match goal with H : deref _ _ = _ |- _ => rewrite H end. simpl. rewrite rb_lifecycle.
  match goal with H : transition_to _ _ _ = _ |- _ => rewrite H end. simpl.
  unfold rebudget at 2. simpl. rewrite <- rebudget_insert. unfold rb. by case_decide.
Qed.

Lemma retire_rebudget q term s w s' w' :
  retire q term s w = Ok (s', w') ->
  retire q term (rebudget p m s) w = Ok (rebudget p m s', w').
Proof.
  unfold retire. intros H. inv_ok.
  match goal with H : transition _ _ _ _ = _ |- _ => rewrite (transition_rebudget _ _ _ _ _ _ H) end.
  simpl. rewrite deref_rebudget.
  match goal with H : deref _ _ = _ |- _ => rewrite H end. simpl. rewrite rb_id.
  destruct (handles_ _ !! _); inv_ok; [|done].
  match goal with H : release _ _ = _ |- _ => by rewrite H end.
Qed.

Lemma collect_expired_rebudget queue s w :
  collect_expired queue (rebudget p m s) w = collect_expired queue s w.
Proof.
  revert w. induction queue as [|q queue IH]; intros w; simpl; [done|].
  destruct (clock_now w) as [t w1]. rewrite deref_rebudget.
  destruct (deref q s); simpl; try done. rewrite IH. by rewrite rb_deadline.
Qed.

Lemma fail_waiting_rebudget l s w s' w' :
  fail_waiting l s w = Ok (s', w') ->
  fail_waiting l (rebudget p m s) w = Ok (rebudget p m s', w').
Proof.
  revert s w. induction l as [|q l IH]; intros s w; simpl; [by intros [= -> ->]|].
  intros H. inv_ok. erewrite transition_rebudget by done. simpl.
  erewrite retire_rebudget by done. simpl. by apply IH.
Qed.

Lemma fail_decoding_rebudget l s w s' w' :
  fail_decoding l s w = Ok (s', w') ->
  fail_decoding l (rebudget p m s) w = Ok (rebudget p m s', w').
Proof.
  revert s w. induction l as [|q l IH]; intros s w; simpl; [by intros [= -> ->]|].
  intros H. inv_ok. erewrite retire_rebudget by done. simpl. by apply IH.
Qed.

Lemma expire_rebudget s w rep s' w' :
  expire_deadlines s w = Ok (rep, s', w') ->
  expire_deadlines (rebudget p m s) w = Ok (rep, rebudget p m s', w').
Proof.
  unfold expire_deadlines. destruct (clock_now w) as [t w1].
  intros H. inv_ok. rewrite collect_expired_rebudget.
  match goal with H : collect_expired _ _ w1 = _ |- _ => rewrite H end. simpl.
  rewrite collect_expired_rebudget.
  match goal with H : collect_expired (decoding_ s) _ _ = _ |- _ => rewrite H end. simpl.
  erewrite fail_waiting_rebudget by done. simpl. by erewrite fail_decoding_rebudget by done.
Qed.

Lemma batch_of_rebudget l s : batch_of l (rebudget p m s) = batch_of l s.
Proof.
  unfold batch_of. f_equal. apply omap_ext. intros q. unfold prefill_request_of.
  rewrite rebudget_lookup. destruct (requests_ s !! q); simpl; [|done]. by rewrite rb_prompt.
Qed.

Lemma decode_batch_of_rebudget l s : decode_batch_of l (rebudget p m s) = decode_batch_of l s.
Proof.
  unfold decode_batch_of. f_equal. apply omap_ext. intros q. unfold decode_request_of.
  rewrite rebudget_lookup. destruct (requests_ s !! q); simpl; [|done]. by rewrite rb_id.
Qed.

Lemma build_prefill_rebudget l t s : build_prefill l t (rebudget p m s) = build_prefill l t s.
Proof.
  revert t. induction l as [|q l IH]; intros t; simpl; [done|]. rewrite deref_rebudget.
  destruct (deref q s); simpl; try done. by rewrite rb_prompt, IH.
Qed.

Lemma build_decode_rebudget l t s : build_decode l t (rebudget p m s) = build_decode l t s.
Proof.
  revert t. induction l as [|q l IH]; intros t; simpl; [done|]. rewrite deref_rebudget.
  destruct (deref q s); simpl; try done. by rewrite rb_id, IH.
Qed.

Lemma prefill_request_rebudget q o s w b s' w' :
  prefill_request q o s w = Ok (b, s', w') ->
  prefill_request q o (rebudget p m s) w = Ok (b, rebudget p m s', w').
Proof.
  destruct o as [v|e]; simpl; intros H; inv_ok.
  - rewrite deref_rebudget. match goal with H : deref _ _ = _ |- _ => rewrite H end. simpl.
    rewrite rb_id.
    match goal with H : transition q kPrefilling ?s0 w = _ |- _ =>
      change (set_handles _ (rebudget p m s)) with (rebudget p m s0) end.
    do 3 (erewrite transition_rebudget by done; simpl). done.
  - erewrite transition_rebudget by done. simpl. by erewrite retire_rebudget by done.
Qed.

Lemma prefill_loop_rebudget pending i os su fa s w su' fa' s' w' :
  prefill_outcomes_loop pending i os su fa s w = Ok (su', fa', s', w') ->
  prefill_outcomes_loop pending i os su fa (rebudget p m s) w = Ok (su', fa', rebudget p m s', w').
Proof.
  revert i su fa s w. induction pending as [|q pending IH]; intros i su fa s w; simpl;
    [by intros [= -> -> -> ->]|].
  intros H. inv_ok. match goal with H : os !! i = _ |- _ => rewrite H end. simpl.
  erewrite prefill_request_rebudget by done. simpl.
  match goal with b : bool |- _ => destruct b end; by apply IH.
Qed.

Lemma prefill_phase_rebudget s w rep s' w' :
  prefill_phase s w = Ok (rep, s', w') ->
  prefill_phase (rebudget p m s) w = Ok (rep, rebudget p m s', w').
Proof.
  unfold prefill_phase. destruct (clock_now w) as [t w1]. rewrite build_prefill_rebudget.
  intros H. inv_ok. match goal with H : build_prefill _ _ _ = _ |- _ => rewrite H end. simpl.
  match goal with H : prefill _ _ = _ |- _ => rewrite H end. simpl.
  by erewrite prefill_loop_rebudget by done.
Qed.

(** Another request's token does not depend on the budget of [p]. *)
Lemma decode_request_rebudget q o s w st s' w' :
  q <> p -> decode_request q o s w = Ok (st, s', w') ->
  decode_request q o (rebudget p m s) w = Ok (st, rebudget p m s', w').
Proof.
  intros Hne. assert (Hrb : forall r, rb q r = r) by (intros r; unfold rb; by rewrite decide_False).
  assert (Hset : forall r, set_requests (<[q := r]> (requests_ (rebudget p m s))) (rebudget p m s)
    = rebudget p m (set_requests (<[q := r]> (requests_ s)) s)).
  { intros r. unfold rebudget. simpl. rewrite <- (Hrb r) at 1. by rewrite rebudget_insert. }
  destruct o as [v|e]; simpl; intros H; inv_ok; [|by erewrite retire_rebudget by done].
  rewrite deref_rebudget. match goal with H : deref _ _ = _ |- _ => rewrite H end. simpl.
  rewrite Hrb. match goal with H : emit_token _ _ _ = _ |- _ => rewrite H end. simpl.
  rewrite Hset. destruct (_ || _); inv_ok; [|done]. by erewrite retire_rebudget by done.
Qed.

Lemma decode_loop_rebudget pending i os co fa s w co' fa' s' w' :
  p ∉ pending -> decode_outcomes_loop pending i os co fa s w = Ok (co', fa', s', w') ->
  decode_outcomes_loop pending i os co fa (rebudget p m s) w = Ok (co', fa', rebudget p m s', w').
Proof.
  revert i co fa s w. induction pending as [|q pending IH]; intros i co fa s w Hp; simpl;
    [by intros [= -> -> -> ->]|].
  apply not_elem_of_cons in Hp as [Hne Hp].
  intros H. inv_ok. match goal with H : os !! i = _ |- _ => rewrite H end. simpl.
  erewrite decode_request_rebudget by done. simpl.
  match goal with st : DecodeStep |- _ => destruct st end; by apply IH.
Qed.

End Rebudget.

(** Submitting the same request with another budget. *)
Lemma submit_rebudget {W} `{!Clock W, !InferenceBackend W} m (r : Request) (s : FifoScheduler) (w : W) p s' w' :
  submit r s w = Ok (p, s', w') ->
  submit (set_budget m r) s w = Ok (p, rebudget p m s', w').
Proof.
  unfold submit. intros H. set (n := length (requests_ s)) in *.
  assert (set_requests (requests_ s ++ [set_budget m r]) s =
    rebudget n m (set_requests (requests_ s ++ [r]) s)) as ->.
  { unfold rebudget, set_requests. simpl. f_equal. unfold n.
    rewrite <- (Nat.add_0_r (length _)). by rewrite alter_app_r. }
  inv_ok. do 2 (erewrite transition_rebudget by done; simpl). done.
Qed.

Lemma new_request_budget {W} `{!Clock W} id d m m' prompt priority (w : W) r w' :
  new_request id d m prompt priority w = Ok (r, w') ->
  new_request id d m' prompt priority w = Ok (set_budget m' r, w') /\
  set_budget m (set_budget m' r) = r.
Proof.
  unfold new_request. destruct (new_lifecycle w) as [lc w1]. destruct (clock_now w1) as [t w2].
  intros H. inv_ok. match goal with H : i64_add _ _ = _ |- _ => rewrite H end. done.
Qed.

(** ** Running the decode loop in two parts *)

Section Loop.
Context {W : Type} `{!Clock W, !InferenceBackend W}.
Implicit Types (w : W) (s : FifoScheduler) (p : RequestPtr).

Lemma decode_loop_app pre post i os co fa s w co1 fa1 s1 w1 :
  decode_outcomes_loop pre i os co fa s w = Ok (co1, fa1, s1, w1) ->
  decode_outcomes_loop (pre ++ post) i os co fa s w =
    decode_outcomes_loop post (i + length pre) os co1 fa1 s1 w1.
Proof.
  revert i co fa s w. induction pre as [|p pre IH]; intros i co fa s w; simpl.
  { intros [= -> -> -> ->]. by rewrite Nat.add_0_r. }
  intros H. apply bind_Ok in H as (o & Eo & H). rewrite Eo. simpl.
  apply bind_Ok in H as ([[st s2] w2] & E & H). rewrite E. simpl.
  rewrite Nat.add_succ_r, <- Nat.add_succ_l. by destruct st; apply IH.
Qed.

(** The loop only looks at the outcomes of its own requests. *)
Lemma decode_loop_outcomes pending i os os' co fa s w :
  (forall j, (j < i + length pending)%nat -> os !! j = os' !! j) ->
  decode_outcomes_loop pending i os co fa s w = decode_outcomes_loop pending i os' co fa s w.
Proof.
  revert i co fa s w. induction pending as [|p pending IH]; intros i co fa s w Hos; simpl; [done|].
  rewrite (Hos i) by (simpl; lia). destruct (os' !! i) as [o|]; simpl; [|done].
  destruct (decode_request p o s w) as [[[st s1] w1]| | | |]; simpl; try done.
  destruct st; apply IH; intros j Hj; apply Hos; simpl; lia.
Qed.

End Loop.

(** ** A request without a budget *)

Section Guards.
Context {W : Type} `{!Clock W, !ClockLaws W, !InferenceBackend W, !BackendContract W}.
Implicit Types (w : W) (s : FifoScheduler) (p q : RequestPtr) (r : Request).

Lemma fits_rebudget p m s w : tick_fits (rebudget p m s) w <-> tick_fits s w.
Proof. unfold tick_fits. simpl. by setoid_rewrite batch_of_rebudget. Qed.

(** The token of a decoding request without a budget. *)
Lemma decode_without_budget p v s w r :
  requests_ s !! p = Some r -> req_state r = kDecoding -> 0 <= output_tokens_emitted_ r ->
  decode_request p (Value v) (rebudget p 0 s) w =
    Panic "emit_token() called after max_output_tokens already reached".
Proof.
  intros Hr Hst He. unfold decode_request. rewrite deref_rebudget. unfold deref. rewrite Hr. simpl.
  unfold emit_token. rewrite rb_lifecycle. unfold rb. rewrite decide_True by done.
  destruct (record_first_token_total (lifecycle_ r) w Hst) as (lc & w' & ->). simpl.
  by rewrite (proj2 (Z.leb_le 0 _) He).
Qed.

(** The loop runs the requests before [p] and stops at the token of [p]. *)
Lemma decode_loop_without_budget p i v os s w r :
  sched_inv ∅ s w -> decoding_ s !! i = Some p -> os !! i = Some (Value v) ->
  requests_ s !! p = Some r -> (i <= length os)%nat ->
  decode_outcomes_loop (decoding_ s) 0 os 0 0 (rebudget p 0 s) w =
    Panic "emit_token() called after max_output_tokens already reached".
Proof.
  intros Hinv Hp Ho Hr Hi.
  pose proof (inv_NoDup _ _ _ Hinv) as [_ Hnd].
  pose proof (lookup_lt_Some _ _ _ Hp) as Hlt.
  destruct (inv_decoding _ _ _ Hinv p) as (r' & h & ? & Hst & _);
    [by eapply list_elem_of_lookup_2|]. simplify_eq.
  rewrite <- (take_drop_middle _ _ _ Hp) in Hnd |- *.
  apply NoDup_app in Hnd as (Hnd & Hdisj & _).
  set (pre := take i (decoding_ s)) in *.
  assert (Hpre : length pre = i) by (apply length_take_le; lia).
  assert (Hpn : p ∉ pre) by (intros Hin; apply (Hdisj p Hin); set_solver).
  destruct (decode_outcomes_loop_ok (take i os) pre 0 (take i os) 0 0 s w)
    as (steps & s' & w' & E & _ & _ & Hinv' & _ & Hev & _); try done.
  { rewrite length_take_le; lia. }
  { intros q Hq. eapply elem_of_sublist; [exact Hq|apply sublist_take]. }
  rewrite (decode_loop_outcomes _ _ _ os) in E.
  2:{ intros j Hj. rewrite lookup_take, decide_True by lia. done. }
  apply (decode_loop_rebudget p 0) in E; [|done].
  rewrite (decode_loop_app _ _ _ _ _ _ _ _ _ _ _ _ E), Hpre.
  cbn [decode_outcomes_loop]. rewrite Nat.add_0_l, Ho. cbn [or_undef mbind outcome_bind].
  destruct (evolves_lookup _ _ _ _ _ Hev Hr) as (r' & Hr' & [[? _]|[_ ->]]); [done|].
  by rewrite (decode_without_budget p v s' w' r Hr' Hst
    (proj1 (req_budget _ _ (inv_wf _ _ _ Hinv' p r Hr')))).
Qed.

(** What an answer says about where the request stood in the decode batch. *)
Lemma answer_decoded s pre dec p o :
  answer_to s pre dec p = Decoded o -> (p, o) ∈ dec.
Proof.
  unfold answer_to. case_decide; [|done]. intros Ho. apply elem_of_list_to_map_2.
  destruct (list_to_map pre !! p) as [[?|?]|];
    [|done|]; destruct (list_to_map dec !! p); by simplify_eq.
Qed.

(** The decode call of a state the invariant holds of leaves the live sequences
    alone. *)
Lemma decode_frame s w x w' :
  sched_inv ∅ s w -> fits_decode w ->
  decode (decode_batch_of (decoding_ s) s) (clock_now w).2 = Ok (x, w') ->
  live w' = live w /\ time w <= time w'.
Proof.
  intros Hinv Hfd Ed. destruct (clock_now w) as [t w1] eqn:E1. cbn [snd] in Ed.
  pose proof (clock_now_ext _ _ _ E1) as (Hx1 & Hl1 & _). pose proof (world_ext_time _ _ Hx1).
  assert (Hinv1 : sched_inv ∅ s w1) by (by eapply inv_later).
  destruct (build_decode_ok (decoding_ s) 0 s w1) as (_ & _ & Hlive); [done..|].
  destruct (decode_contract (decode_batch_of (decoding_ s) s) w1) as (x2 & w2 & E2 & _ & Hl2 & Ht2);
    [by apply Hx1|done|].
  rewrite Ed in E2. injection E2 as -> ->. split; [congruence|lia].
Qed.

Lemma elem_of_zip_lookup {A B} (l : list A) (k : list B) (a : A) (b : B) :
  (a, b) ∈ zip l k -> exists i, l !! i = Some a /\ k !! i = Some b.
Proof.
  intros [i Hi]%list_elem_of_lookup. exists i.
  apply lookup_zip_with_Some in Hi as (x & y & [= -> ->] & ? & ?). done.
Qed.

Lemma decode_phase_without_budget p v os s w w' :
  sched_inv ∅ s w ->
  decode (decode_batch_of (decoding_ s) s) (clock_now w).2 = Ok (mkDecodeResult os, w') ->
  live w' = live w -> time w <= time w' ->
  (p, Value v) ∈ zip (decoding_ s) os ->
  decode_phase (rebudget p 0 s) w =
    Panic "emit_token() called after max_output_tokens already reached".
Proof.
  intros Hinv Ed Hl Ht (i & Hi & Ho)%elem_of_zip_lookup. unfold decode_phase.
  destruct (clock_now w) as [t w1]. rewrite build_decode_rebudget.
  change (decoding_ (rebudget p 0 s)) with (decoding_ s).
  destruct (build_decode_ok (decoding_ s) 0 s w) as (Eb & _); [done..|].
  rewrite Eb. cbn [mbind outcome_bind].
  change (mkDecodeBatch (decode_sequences (decode_batch_of (decoding_ s) s)))
    with (decode_batch_of (decoding_ s) s). cbn [snd] in Ed. rewrite Ed.
  cbn [mbind outcome_bind decode_outcomes].
  assert (Hpd : p ∈ decoding_ s) by (by eapply list_elem_of_lookup_2).
  destruct (inv_decoding _ _ _ Hinv p Hpd) as (r & _ & Hr & _).
  assert (Hinv' : sched_inv ∅ s w') by (by eapply inv_later).
  pose proof (lookup_lt_Some _ _ _ Ho).
  by rewrite (decode_loop_without_budget p i v os s w' r Hinv' Hi Ho Hr ltac:(lia)).
Qed.

(** C31. A request submitted with a budget of zero aborts the process at its
    first token.  From every reachable state, whatever else is submitted,
    waiting or decoding: when the tick after the submission finds the request in
    time, its prefill succeeds and its decode yields a token, that tick panics
    in [emit_token]. *)
Theorem zero_budget_panics id d prompt priority r s w w1 p s1 w2 answers v :
  sched_reachable s w -> fresh_id id s ->
  new_request id d 0 prompt priority w = Ok (r, w1) -> submit r s w1 = Ok (p, s1, w2) ->
  tick_fits s1 w2 -> tick_answers s1 w2 = Ok answers -> answers !! p = Some (Decoded (Value v)) ->
  tick s1 w2 = Panic "emit_token() called after max_output_tokens already reached".
Proof.
  intros Hinv%sched_reachable_inv Hid Hnew Hsub Hfits Hans Hp.
  destruct (new_request_budget _ _ 0 1 _ _ _ _ _ Hnew) as [Hnew1 Hr].
  destruct (new_request_submit _ _ 1 _ _ _ _ _ _ Hinv ltac:(lia) Hid Hnew1)
    as (r' & s0 & w0 & E & Hinv0 & _).
  apply (submit_rebudget 0) in E. rewrite Hr, Hsub in E. injection E as -> -> ->.
  set (p := length (requests_ s)) in *. rewrite fits_rebudget in Hfits.
  destruct (expire_deadlines_ok s0 w0 Hinv0) as (rep1 & l & s2 & w2 & E1 & Hret & _).
  pose proof (batch_of_survivors _ _ _ _ _ Hinv0 Hret) as Hbatch.
  destruct Hret as (Hinv2 & Hx2 & _ & Hsw & _).
  destruct (prefill_phase_ok s2 w2 Hinv2) as (rep2 & os1 & wp & s3 & w3 & E2 & Ep & _ & Hinv3 & Hfd & _).
  { rewrite Hbatch. by apply Hx2, Hfits. }
  apply (expire_rebudget p 0) in E1. apply (prefill_phase_rebudget p 0) in E2.
  unfold tick. unfold tick_answers in Hans. rewrite E1 in Hans |- *.
  cbn [mbind outcome_bind] in Hans |- *. rewrite batch_of_rebudget in Hans.
  change (waiting_ (rebudget p 0 s2)) with (waiting_ s2) in Hans. rewrite Ep in Hans.
  cbn [mbind outcome_bind] in Hans. rewrite E2 in Hans |- *. cbn [mbind outcome_bind] in Hans |- *.
  rewrite decode_batch_of_rebudget in Hans.
  change (decoding_ (rebudget p 0 s3)) with (decoding_ s3) in Hans.
  apply bind_Ok in Hans as ([[os2] w4] & Ed & Hans). injection Hans as <-.
  apply list_lookup_fmap_Some in Hp as (q & Hq & [-> _]%lookup_seq). symmetry in Hq.
  apply answer_decoded in Hq. simpl in Hq.
  destruct (decode_frame s3 w3 _ _ Hinv3 Hfd Ed) as [Hl4 Ht4].
  by rewrite (decode_phase_without_budget p v os2 s3 w3 w4 Hinv3 Ed Hl4 Ht4 Hq).
Qed.

(** ** Two requests with one id *)





End Guards.

(** ** Witnesses *)

(** A request without a budget, alone on the simulated backend. *)
Definition demo_zero : FifoScheduler * MockWorld :=
  Eval vm_compute in demo_state (demo_submit "a" 100 0 [7] (new_scheduler, demo_world)).

Lemma demo_zero_fits : tick_fits demo_zero.1 demo_zero.2.
Proof.
  apply mock_tick_fits; [apply mock_wfb_wf; reflexivity|vm_compute; discriminate|vm_compute; reflexivity].
Qed.

Lemma new_reachable : sched_reachable new_scheduler demo_world.
Proof. exists demo_world. split; reflexivity. Qed.

Lemma zero_budget_panics_witness :
  tick demo_zero.1 demo_zero.2 = Panic "emit_token() called after max_output_tokens already reached".
Proof.
  eapply (zero_budget_panics "a" 100 [7] 0 (demo_request "a" 100 0 [7]) new_scheduler demo_world);
    [exact new_reachable|apply fresh_id_nil|reflexivity|vm_compute; reflexivity
    |exact demo_zero_fits|vm_compute; reflexivity|reflexivity].
Defined.



(** A whole run: the first request completes in its first tick; the sequence of
    the second is never released, and the next tick throws. *)
Example duplicate_run_throws :
  exists s w, (x ← demo_submit "a" 100 1 [7] (new_scheduler, demo_world);
               x ← demo_submit "a" 100 2 [8] x; ticks 1 x.1 x.2) = Ok (s, w) /\
    live w = {[1]} /\ handles_ s = ∅ /\ decoding_ s = [1%nat] /\
    tick s w = Throw "unordered_map::at".
Proof.
  eexists _, _. split; [vm_compute; reflexivity|].
  split; [vm_compute; reflexivity|]. split; [reflexivity|]. split; [reflexivity|].
  vm_compute. reflexivity.
Qed.
