(* ===== verification/SchedulerOnMock.v ===== *)
(** * What the scheduler costs on the simulated backend

    Apart from the two backend calls of a tick, the scheduler leaves the
    simulated clock, the costs and the handle counter alone ([quiet]); hence a
    tick advances the clock by at most the prompt tokens that were waiting plus
    one decode step, and mints at most one handle per waiting request.  The
    milestones of a promotion fall on one instant ([promotion_takes_no_time]). *)

From S2P Require Import Prelude Clock RequestState RequestLifecycle Request Backend MockBackend MockProperties FifoScheduler SchedulerInvariant SchedulerCorrect SchedulerSpec.

Record quiet (w w' : MockWorld) : Prop := {
  quiet_clock : mock_clock w' = mock_clock w;
  quiet_prefill_cost : per_token_prefill_cost_ (mock w') = per_token_prefill_cost_ (mock w);
  quiet_decode_cost : per_decode_cost_ (mock w') = per_decode_cost_ (mock w);
  quiet_next : next_sequence_id_ (mock w') = next_sequence_id_ (mock w);
  quiet_wf : mock_wf w -> mock_wf w';
}.

#[export] Instance quiet_preorder : PreOrder quiet.
Proof.
  split; [intros w; by split|].
  intros w1 w2 w3 [] []. split; try congruence. auto.
Qed.

Section Quiet.
Implicit Types (s : FifoScheduler) (w : MockWorld) (p : RequestPtr).

Lemma transition_to_quiet to lc w lc' w' :
  transition_to to lc w = Ok (lc', w') -> quiet w w'.
Proof. unfold transition_to. destruct (negb _); [done|]. by intros [= _ <-]. Qed.

Lemma emit_token_quiet tok r w r' w' : emit_token tok r w = Ok (r', w') -> quiet w w'.
Proof.
  unfold emit_token, record_first_token. destruct (negb _); [done|].
  destruct (first_token_at_ _); simpl; destruct (_ <=? _); try done; by intros [= _ <-].
Qed.

Lemma release_quiet h w w' : mock_release h w = Ok w' -> quiet w w'.
Proof.
  intros E. split; [..|intros Hwf; by eapply mock_wf_release];
    unfold mock_release in E; destruct (sequences_ (mock w) !! _); try done;
    by injection E as <-.
Qed.

Lemma transition_quiet p to s w s' w' : transition p to s w = Ok (s', w') -> quiet w w'.
Proof. unfold transition. intros H. inv_ok. by eapply transition_to_quiet. Qed.

Lemma retire_quiet p term s w s' w' : retire p term s w = Ok (s', w') -> quiet w w'.
Proof.
  unfold retire. intros H. inv_ok.
  match goal with H : transition _ _ _ _ = _ |- _ => apply transition_quiet in H end.
  etrans; [done|].
  match goal with H : match ?h with Some _ => _ | None => _ end = _ |- _ => destruct h end;
    inv_ok; [by eapply release_quiet|done].
Qed.

Lemma collect_expired_quiet queue s w l w' :
  collect_expired queue s w = Ok (l, w') -> quiet w w'.
Proof.
  revert l w'. induction queue as [|p queue IH]; intros l w'; simpl; [naive_solver|].
  intros H. inv_ok. eauto.
Qed.

Lemma fail_waiting_quiet l s w s' w' : fail_waiting l s w = Ok (s', w') -> quiet w w'.
Proof.
  revert s w. induction l as [|p l IH]; intros s w; simpl; [naive_solver|].
  intros H. inv_ok. etrans; [by eapply transition_quiet|].
  etrans; [by eapply retire_quiet|]. by eapply IH.
Qed.

Lemma fail_decoding_quiet l s w s' w' : fail_decoding l s w = Ok (s', w') -> quiet w w'.
Proof.
  revert s w. induction l as [|p l IH]; intros s w; simpl; [naive_solver|].
  intros H. inv_ok. etrans; [by eapply retire_quiet|]. by eapply IH.
Qed.

Lemma expire_quiet s w rep s' w' : expire_deadlines s w = Ok (rep, s', w') -> quiet w w'.
Proof.
  unfold expire_deadlines. simpl. intros H. inv_ok.
  etrans; [by eapply collect_expired_quiet|]. etrans; [by eapply collect_expired_quiet|].
  etrans; [by eapply fail_waiting_quiet|]. by eapply fail_decoding_quiet.
Qed.

Lemma prefill_request_quiet p o s w b s' w' :
  prefill_request p o s w = Ok (b, s', w') -> quiet w w'.
Proof.
  destruct o as [v|e]; simpl; intros H; inv_ok.
  - etrans; [by eapply transition_quiet|]. etrans; [by eapply transition_quiet|].
    by eapply transition_quiet.
  - etrans; [by eapply transition_quiet|]. by eapply retire_quiet.
Qed.

Lemma prefill_loop_quiet pending i os su fa s w su' fa' s' w' :
  prefill_outcomes_loop pending i os su fa s w = Ok (su', fa', s', w') -> quiet w w'.
Proof.
  revert i su fa s w. induction pending as [|p pending IH]; intros i su fa s w; simpl;
    [naive_solver|].
  intros H. inv_ok. match goal with b : bool |- _ => destruct b end;
    (etrans; [by eapply prefill_request_quiet|by eapply IH]).
Qed.

Lemma decode_request_quiet p o s w st s' w' :
  decode_request p o s w = Ok (st, s', w') -> quiet w w'.
Proof.
  destruct o as [v|e]; simpl; intros H; inv_ok.
  - match goal with H : (if _ then _ else _) = _ |- _ => destruct (_ || _) in H end; inv_ok.
    + etrans; [by eapply emit_token_quiet|]. by eapply retire_quiet.
    + by eapply emit_token_quiet.
  - by eapply retire_quiet.
Qed.

Lemma decode_loop_quiet pending i os co fa s w co' fa' s' w' :
  decode_outcomes_loop pending i os co fa s w = Ok (co', fa', s', w') -> quiet w w'.
Proof.
  revert i co fa s w. induction pending as [|p pending IH]; intros i co fa s w; simpl;
    [naive_solver|].
  intros H. inv_ok. match goal with d : DecodeStep |- _ => destruct d end;
    (etrans; [by eapply decode_request_quiet|by eapply IH]).
Qed.

End Quiet.

Lemma decode_one_costs r b o b' :
  decode_one r b = Ok (o, b') ->
  per_token_prefill_cost_ b' = per_token_prefill_cost_ b /\
  per_decode_cost_ b' = per_decode_cost_ b.
Proof.
  unfold decode_one. destruct (pending_decode_errors_ b); [|naive_solver].
  destruct (sequences_ b !! _); naive_solver.
Qed.

Lemma decode_requests_costs rs b os b' :
  decode_requests rs b = Ok (os, b') ->
  per_token_prefill_cost_ b' = per_token_prefill_cost_ b /\
  per_decode_cost_ b' = per_decode_cost_ b.
Proof.
  revert b os b'. induction rs as [|r rs IH]; intros b os b'; simpl; [naive_solver|].
  intros H. inv_ok. apply decode_one_costs in H as [<- <-]. by eapply IH.
Qed.

(** One decode call, whatever its batch. *)
Lemma mock_decode_frame b w r w' :
  mock_decode b w = Ok (r, w') -> mock_wf w ->
  mock_wf w' /\ current_ (mock_clock w') = current_ (mock_clock w) + per_decode_cost_ (mock w) /\
  per_token_prefill_cost_ (mock w') = per_token_prefill_cost_ (mock w) /\
  per_decode_cost_ (mock w') = per_decode_cost_ (mock w) /\
  next_sequence_id_ (mock w') = next_sequence_id_ (mock w).
Proof.
  intros H Hwf. unfold mock_decode in H. inv_ok.
  match goal with H : advance _ _ = _ |- _ => apply advance_Ok in H as (Hd & Hc & _) end.
  match goal with H : decode_requests _ _ = _ |- _ =>
    pose proof (decode_requests_frame _ _ _ _ H) as [Hdom Hnext];
    pose proof (decode_requests_costs _ _ _ _ H) as [Hp Hdc] end.
  split; [|done]. destruct Hwf as [Hids Hn Hcost Ht]. split; simpl.
  - intros i. rewrite Hdom, Hnext. auto.
  - by rewrite Hnext.
  - by rewrite Hp, Hdc.
  - lia.
Qed.

(** The clock and the handle counter across a whole tick. *)
Lemma tick_on_mock (s : FifoScheduler) (w : MockWorld) rep s' w' :
  sched_inv ∅ s w -> mock_wf w ->
  current_ (mock_clock w) + batch_cost w (batch_of (waiting_ s) s)
    + per_decode_cost_ (mock w) <= INT64_MAX ->
  next_sequence_id_ (mock w) + size_of (waiting_ s) < 2 ^ 64 ->
  tick s w = Ok (rep, s', w') ->
  mock_wf w' /\
  per_token_prefill_cost_ (mock w') = per_token_prefill_cost_ (mock w) /\
  per_decode_cost_ (mock w') = per_decode_cost_ (mock w) /\
  current_ (mock_clock w) <= current_ (mock_clock w')
    <= current_ (mock_clock w) + batch_cost w (batch_of (waiting_ s) s)
       + per_decode_cost_ (mock w) /\
  next_sequence_id_ (mock w') <= next_sequence_id_ (mock w) + size_of (waiting_ s).
Proof.
  intros Hinv Hwf Hc Hn E. unfold tick in E.
  destruct (expire_deadlines_ok s w Hinv) as
    (rep1 & l & s1 & w1 & E1 & Hret & _ & _ & _ & _ & _).
  rewrite E1 in E. cbn [mbind outcome_bind] in E.
  pose proof (expire_quiet _ _ _ _ _ E1) as [Hq1 Hq2 Hq3 Hq4 Hq5].
  pose proof (batch_of_survivors _ _ _ _ _ Hinv Hret) as Hbatch.
  destruct Hret as (Hinv1 & _ & _ & Hsw & _ & _).
  unfold prefill_phase in E. cbn [clock_now MockWorld_Clock] in E.
  rewrite (build_prefill_ok (waiting_ s1) 0 s1) in E
    by eauto using inv_active_lookup, active_waiting.
  cbn [mbind outcome_bind] in E.
  set (b1 := batch_of (waiting_ s1) s1) in *.
  destruct (batch_of_sublist s (waiting_ s1) Hsw) as [Hsum Hlen].
  rewrite <- Hbatch in Hsum, Hlen. fold b1 in Hsum, Hlen.
  destruct (mock_costs _ Hwf) as [Hc1 Hc2]. unfold batch_cost in *.
  destruct (prefill_requests_spec (prefill_sequences b1) w1) as
    (os & w2 & E2 & _ & Hwf2 & Ht2 & Hpc2 & Hdc2 & _ & _ & Hnx2 & _);
    [by apply Hq5|change (mkPrefillBatch (prefill_sequences b1)) with b1;
     rewrite Hq1, Hq2; nia|rewrite Hq4; lia|].
  change (mkPrefillBatch (prefill_sequences b1)) with b1 in *.
  cbn [prefill MockWorld_backend] in E. unfold mock_prefill in E. rewrite E2 in E.
  cbn [mbind outcome_bind prefill_outcomes] in E.
  apply bind_Ok in E as ([[rep2 s3] w3] & E3 & E).
  apply bind_Ok in E3 as ([[[su fa] s2'] w2'] & E3 & [= <- <- <-]).
  apply prefill_loop_quiet in E3 as [Hr1 Hr2 Hr3 Hr4 Hr5].
  apply bind_Ok in E as ([[rep3 s4] w4] & E4 & [= _ _ <-]).
  unfold decode_phase in E4. cbn [clock_now MockWorld_Clock] in E4.
  apply bind_Ok in E4 as ([batch tokens] & _ & E4).
  apply bind_Ok in E4 as ([res w5] & E5 & E4).
  apply bind_Ok in E4 as ([[[co fl] s6] w6] & E6 & [= _ _ <-]).
  apply decode_loop_quiet in E6 as [Hd1 Hd2 Hd3 Hd4 Hd5].
  apply mock_decode_frame in E5 as (Hf1 & Hf2 & Hf3 & Hf4 & Hf5); [|by apply Hr5].
  rewrite Hd1, Hd2, Hd3, Hd4, Hf2, Hf3, Hf4, Hf5, Hr1, Hr2, Hr3, Hr4, Ht2, Hpc2, Hdc2, Hq1, Hq2, Hq3.
  rewrite Hq4 in Hnx2. split; [by apply Hd5|]. split; [done|]. split; [done|]. split; nia.
Qed.

(** ** The milestones of a promotion *)

(** Reading the simulated clock takes no time. *)
Lemma transition_at p st (s : FifoScheduler) (w : MockWorld) s' w' :
  transition p st s w = Ok (s', w') ->
  w' = w /\ exists r r', requests_ s !! p = Some r /\ requests_ s' !! p = Some r' /\
    entered_at st (lifecycle_ r') = Some (current_ (mock_clock w)) /\
    forall st', st' <> st -> entered_at st' (lifecycle_ r') = entered_at st' (lifecycle_ r).
Proof.
  unfold transition, deref. intros E. apply bind_Ok in E as (r & Hr & E).
  destruct (requests_ s !! p) as [r0|] eqn:Hp; [|done]. injection Hr as ->.
  apply bind_Ok in E as ([lc w1] & (_ & t & [= <- <-] & ->)%transition_to_inv & [= <- <-]).
  split; [done|]. exists r. eexists. split; [done|]. simpl.
  rewrite list_lookup_insert_eq by (by eapply lookup_lt_Some). split; [done|].
  unfold entered_at. simpl. split; [by rewrite lookup_insert_eq|].
  intros st' Hne. by rewrite lookup_insert_ne.
Qed.

(** On the simulated clock the three milestones of a promotion fall on one
    instant, the one at which the backend call has already returned: the span
    from [kPrefilling] to [kWaitingDecode] is always zero. *)
Theorem promotion_takes_no_time p v (s : FifoScheduler) (w : MockWorld) s' w' :
  prefill_request p (Value v) s w = Ok (true, s', w') ->
  exists r, requests_ s' !! p = Some r /\
    forall st, st ∈ [kPrefilling; kWaitingDecode; kDecoding] ->
      entered_at st (lifecycle_ r) = Some (current_ (mock_clock w)).
Proof.
  unfold prefill_request. intros E.
  apply bind_Ok in E as (r & _ & E). apply bind_Ok in E as ([s1 w1] & E1 & E).
  apply bind_Ok in E as ([s2 w2] & E2 & E). apply bind_Ok in E as ([s3 w3] & E3 & [= <- <-]).
  apply transition_at in E1 as (-> & _ & r1 & _ & H1 & Hp & _).
  apply transition_at in E2 as (-> & r1' & r2 & H1' & H2 & Hw & Hk2).
  apply transition_at in E3 as (-> & r2' & r3 & H2' & H3 & Hd & Hk3). simplify_eq.
  exists r3. split; [done|].
  intros st [->|[->|[->|[]%elem_of_nil]%elem_of_cons]%elem_of_cons]%elem_of_cons; [| |done].
  - by rewrite Hk3, Hk2.
  - by rewrite Hk3.
Qed.
