(* ===== verification/Telemetry.v ===== *)
(** * Telemetry: [include/tokamak/telemetry/], [src/telemetry/]

    The trace event of one tick, its JSON fields and the JSONL writer.  The
    JSON library is a parameter: how it builds an object from fields and how it
    prints one; the theorems that need it assume its documented behaviour (a
    compact dump has no newline, and parsing what was dumped gives it back). *)

From Stdlib Require Import Ascii.
From S2P Require Import Prelude Clock RequestState RequestLifecycle Request Backend MockBackend FifoScheduler SchedulerInvariant SchedulerCorrect SchedulerSpec SchedulerProperties.

Record TraceEvent := mkTraceEvent {
  iteration : Z;            (** [std::size_t], as the other counts *)
  timestamp_ns : Z;         (** [std::int64_t] *)
  policy : string;
  runnable_prefill : Z;
  runnable_decode : Z;
  selected_sequences : Z;
  trace_prefill_tokens : Z;
  trace_decode_tokens : Z;
}.

Definition make_trace_event (report : TickReport) (iteration : Z) (policy : string)
    (sim_start : TimePoint) : outcome TraceEvent :=
  ns ← i64_sub (timestamp report) sim_start;
  Ok (mkTraceEvent iteration ns policy
        (prefill_attempted report) (decode_attempted report) (decode_attempted report)
        (prefill_tokens report) (decode_tokens report)).

(** The values [to_json] stores. *)
Inductive json_field := JNumber (z : Z) | JString (s : string).

Definition to_json (event : TraceEvent) : list (string * json_field) :=
  [("iteration", JNumber (iteration event));
   ("timestamp_ns", JNumber (timestamp_ns event));
   ("policy", JString (policy event));
   ("runnable_prefill", JNumber (runnable_prefill event));
   ("runnable_decode", JNumber (runnable_decode event));
   ("selected_sequences", JNumber (selected_sequences event));
   ("prefill_tokens", JNumber (trace_prefill_tokens event));
   ("decode_tokens", JNumber (trace_decode_tokens event))].

(** Reading the fields back by key. *)
Definition field (key : string) (l : list (string * json_field)) : option json_field :=
  snd <$> List.find (fun kv => bool_decide (kv.1 = key)) l.

Definition number (key : string) (l : list (string * json_field)) : option Z :=
  match field key l with Some (JNumber z) => Some z | _ => None end.

Definition from_fields (l : list (string * json_field)) : option TraceEvent :=
  i ← number "iteration" l;
  ns ← number "timestamp_ns" l;
  p ← match field "policy" l with Some (JString s) => Some s | _ => None end;
  rp ← number "runnable_prefill" l;
  rd ← number "runnable_decode" l;
  sel ← number "selected_sequences" l;
  pt ← number "prefill_tokens" l;
  dt ← number "decode_tokens" l;
  Some (mkTraceEvent i ns p rp rd sel pt dt).

Lemma to_json_keys (event : TraceEvent) : NoDup (fst <$> to_json event).
Proof.
  change (fst <$> to_json event) with
    (fst <$> to_json (mkTraceEvent 0 0 "" 0 0 0 0 0)).
  eapply bool_decide_eq_true_1. vm_compute. reflexivity.
Qed.

(** ** [TraceWriter] *)

Section Writer.
Context {json : Type} (object : list (string * json_field) -> json) (dump : json -> string).

(** The stream after [write]. *)
Definition write (event : TraceEvent) (out : string) : string :=
  out +:+ dump (object (to_json event)) +:+ String newline EmptyString.

Definition write_all (events : list TraceEvent) (out : string) : string :=
  foldl (fun out event => write event out) out events.

Context (parse : string -> option json) (fields : json -> option (list (string * json_field))).
Hypothesis dump_one_line : forall j, no_newline (dump j) = true.
Hypothesis parse_dump : forall j, parse (dump j) = Some j.
Hypothesis object_fields : forall l, NoDup (fst <$> l) ->
  exists l', fields (object l) = Some l' /\ forall k, field k l' = field k l.

Definition read_event (line : string) : option TraceEvent :=
  j ← parse line; l ← fields j; from_fields l.

Lemma write_all_app events out : write_all events out = out +:+ write_all events "".
Proof.
  revert out. induction events as [|event events IH]; intros out; simpl.
  - by rewrite string_app_nil_r.
  - unfold write_all in *. simpl. rewrite IH. rewrite (IH (write event "")).
    unfold write. by rewrite !string_app_assoc.
Qed.

Lemma write_all_lines events :
  getlines (write_all events "") = (fun event => dump (object (to_json event))) <$> events.
Proof.
  induction events as [|event events IH]; [done|].
  unfold write_all. simpl. fold (write_all events (write event "")).
  rewrite write_all_app. unfold write.
  rewrite !string_app_assoc, string_app_nil_l, string_app_cons, string_app_nil_l.
  rewrite getlines_line by apply dump_one_line. by rewrite IH.
Qed.

Lemma from_fields_ext l l' :
  (forall k, field k l' = field k l) -> from_fields l' = from_fields l.
Proof. intros H. unfold from_fields, number. by rewrite !H. Qed.

(** C40. A trace is JSONL: the stream after writing any sequence of events has
    exactly one line per event, in order, and reading the lines back gives the
    events. *)
Theorem trace_roundtrip events :
  length (getlines (write_all events "")) = length events /\
  (read_event <$> getlines (write_all events "")) = (Some <$> events).
Proof.
  rewrite write_all_lines. split; [apply length_fmap|]. rewrite <- list_fmap_compose.
  apply list_fmap_ext. intros _ event _. unfold compose, read_event.
  rewrite parse_dump. simpl.
  destruct (object_fields (to_json event)) as (l' & Hf & Hk); [apply to_json_keys|].
  rewrite Hf. simpl. rewrite (from_fields_ext _ _ Hk). by destruct event.
Qed.

End Writer.

(** ** Properties of the trace of a scheduler *)

Section Trace.
Context {W : Type} `{!Clock W, !ClockLaws W, !InferenceBackend W, !BackendContract W}.

(** The trace event of a tick is honest: its decode fields agree with one
    another (every runnable sequence is selected and produces one token), its
    prefill fields are those of the waiting queue the expiry left, and its
    timestamp is the time since the start of the simulation, not before the
    instant the tick began. *)
Theorem trace_event_of_tick (s : FifoScheduler) (w : W) rep s' w' i p start ev :
  sched_reachable s w -> tick_fits s w -> tick s w = Ok (rep, s', w') ->
  make_trace_event rep i p start = Ok ev ->
  iteration ev = i /\ policy ev = p /\
  selected_sequences ev = runnable_decode ev /\
  u64 (trace_decode_tokens ev) = u64 (selected_sequences ev) /\
  u64 (runnable_prefill ev) = u64 (prefill_succeeded rep + prefill_failed rep) /\
  trace_prefill_tokens ev = prefill_tokens rep /\
  time w - start <= timestamp_ns ev <= time w' - start.
Proof.
  intros Hinv%sched_reachable_inv Hf E Hev.
  destruct (tick_ok s w Hinv Hf) as (? & ? & ? & E' & Hpost).
  rewrite E in E'. injection E' as <- <- <-.
  destruct (post_report _ _ _ _ _ Hpost) as (_ & H2 & H3 & _).
  pose proof (post_stamp _ _ _ _ _ Hpost) as [Ht1 Ht2].
  unfold make_trace_event in Hev. inv_ok. apply i64_sub_Ok in H as [-> _]. simpl.
  split_and!; try done; lia.
Qed.

End Trace.

(** ** Witnesses

    A JSON library for the witness: an object is its fields, printed as the
    bits of their encoding as a positive number. *)

#[export] Instance json_field_eq_dec : EqDecision json_field.
Proof. solve_decision. Defined.

#[export, refine] Instance json_field_countable : Countable json_field :=
  inj_countable' (fun f => match f with JNumber z => inl z | JString s => inr s end)
    (fun x => match x with inl z => JNumber z | inr s => JString s end) _.
Proof. by intros []. Defined.

Fixpoint bits (p : positive) : string :=
  match p with
  | xH => ""
  | xO p => String "0"%char (bits p)
  | xI p => String "1"%char (bits p)
  end.

Fixpoint unbits (s : string) : positive :=
  match s with
  | EmptyString => xH
  | String c s => if decide (c = "1"%char) then xI (unbits s) else xO (unbits s)
  end.

Lemma unbits_bits (p : positive) : unbits (bits p) = p.
Proof. induction p; simpl; try done; by rewrite IHp. Qed.

Lemma bits_one_line (p : positive) : no_newline (bits p) = true.
Proof. induction p; simpl; done. Qed.

Definition demo_event : TraceEvent := mkTraceEvent 0 8 "fifo" 2 2 2 3 2.

Lemma trace_roundtrip_witness :
  read_event (fun line => countable.decode (unbits line)) Some
    <$> getlines (write_all (fun l => l) (fun l => bits (countable.encode l)) [demo_event; demo_event] "")
  = [Some demo_event; Some demo_event].
Proof.
  apply (trace_roundtrip (fun l => l) (fun l => bits (countable.encode l))
           (fun line => countable.decode (unbits line)) Some).
  - intros j. apply bits_one_line.
  - intros j. rewrite unbits_bits. apply countable.decode_encode.
  - intros l _. exists l. split; reflexivity.
Defined.

Lemma trace_event_of_tick_witness :
  make_trace_event demo_report 0 "fifo" 0 = Ok demo_event /\
  selected_sequences demo_event = runnable_decode demo_event /\ 0 - 0 <= timestamp_ns demo_event.
Proof.
  destruct (trace_event_of_tick demo_s1 demo_w1 demo_report demo_s2 demo_w2 0 "fifo" 0 demo_event
    demo_reachable1 demo_fits demo_tick_result eq_refl) as (_ & _ & H1 & _ & _ & _ & H2 & _).
  exact (conj eq_refl (conj H1 H2)).
Defined.
