(* ===== verification/Double.v ===== *)
(** * [double]

    The IEEE-754 binary64 arithmetic of the workload, the simulation and the
    analysis.  A finite double is an integer number of units of [2^-1074] (the
    smallest subnormal), so comparison is comparison of integers; an operation
    is its exact rational result rounded to nearest, ties to even ([rnd]).
    Signed zeros are not distinguished.  The conversions between [double]
    milliseconds and nanosecond [Duration]s are the two [duration_cast]s the
    program uses. *)

From S2P Require Import Prelude Clock.
From Stdlib Require SpecFloat.

Inductive double :=
  | Finite (units : Z)
  | Infinite (negative : bool)
  | NotANumber.

Definition unit_exp : Z := 1074.
Definition one_units : Z := 2 ^ unit_exp.
(** The first magnitude that does not round to a finite double is past it. *)
Definition overflow_units : Z := 2 ^ (1024 + unit_exp).

(** Nearest integer to [n / d], ties to even ([0 < d]). *)
Definition rne (n d : Z) : Z :=
  let q := n / d in
  let r := n mod d in
  match (2 * r) ?= d with
  | Lt => q
  | Gt => q + 1
  | Eq => if Z.even q then q else q + 1
  end.

(** The exponent of the last kept bit of a magnitude whose integer part is [q]
    units: 53 significant bits, or all of them for a subnormal. *)
Definition ulp_exp (q : Z) : Z := Z.max 0 (Z.log2 q - 52).

(** The magnitude [n / d] units rounded ([0 <= n], [0 < d]). *)
Definition rnd_units (n d : Z) : Z :=
  let u := 2 ^ ulp_exp (n / d) in rne n (d * u) * u.

(** The exact value [n / d] units rounded, with overflow. *)
Definition rnd (n d : Z) : double :=
  let v := rnd_units (Z.abs n) d in
  if overflow_units <=? v then Infinite (n <? 0) else Finite (Z.sgn n * v).

Definition double_of_Z (z : Z) : double := rnd (z * one_units) 1.

Definition dneg (a : double) : double :=
  match a with Finite x => Finite (- x) | Infinite s => Infinite (negb s) | NotANumber => NotANumber end.

Definition dadd (a b : double) : double :=
  match a, b with
  | Finite x, Finite y => rnd (x + y) 1
  | Infinite s, Infinite t => if Bool.eqb s t then Infinite s else NotANumber
  | Infinite s, Finite _ | Finite _, Infinite s => Infinite s
  | _, _ => NotANumber
  end.

Definition dsub (a b : double) : double := dadd a (dneg b).

Definition dmul (a b : double) : double :=
  match a, b with
  | Finite x, Finite y => rnd (x * y) one_units
  | Infinite s, Infinite t => Infinite (xorb s t)
  | Infinite s, Finite x | Finite x, Infinite s =>
      if x =? 0 then NotANumber else Infinite (xorb s (x <? 0))
  | _, _ => NotANumber
  end.

Definition ddiv (a b : double) : double :=
  match a, b with
  | Finite x, Finite y =>
      if y =? 0 then (if x =? 0 then NotANumber else Infinite (x <? 0))
      else rnd (Z.sgn y * x * one_units) (Z.abs y)
  | Infinite s, Finite y => Infinite (xorb s (y <? 0))
  | Finite _, Infinite _ => Finite 0
  | _, _ => NotANumber
  end.

(** [<=] and [<]: false on NaN. *)
Definition dleb (a b : double) : bool :=
  match a, b with
  | Finite x, Finite y => x <=? y
  | Infinite true, Infinite _ | Infinite true, Finite _ => true
  | Infinite false, Infinite false | Finite _, Infinite false => true
  | _, _ => false
  end.

Definition dltb (a b : double) : bool :=
  match a, b with
  | Finite x, Finite y => x <? y
  | Infinite true, Infinite false | Infinite true, Finite _ => true
  | Finite _, Infinite false => true
  | _, _ => false
  end.

(** Conversion to [std::int64_t]: truncation; undefined out of range. *)
Definition double_to_i64 (a : double) : outcome Z :=
  match a with
  | Finite x =>
      let t := Z.quot x one_units in
      if in_i64 t then Ok t else Undef "double out of range of int64"
  | _ => Undef "double out of range of int64"
  end.

(** [static_cast<std::size_t>(std::floor(x))] and [std::ceil]. *)
Definition double_floor (a : double) : outcome Z :=
  match a with
  | Finite x =>
      let t := x / one_units in
      if (0 <=? t) && (t <? 2 ^ 64) then Ok t else Undef "double out of range of size_t"
  | _ => Undef "double out of range of size_t"
  end.

Definition double_ceil (a : double) : outcome Z :=
  match a with
  | Finite x =>
      let t := - (- x / one_units) in
      if (0 <=? t) && (t <? 2 ^ 64) then Ok t else Undef "double out of range of size_t"
  | _ => Undef "double out of range of size_t"
  end.

(** [std::chrono::duration<double, std::milli>(d).count()] *)
Definition to_ms (d : Duration) : double := ddiv (double_of_Z d) (double_of_Z 1000000).

(** [std::chrono::duration<double>(d).count()] *)
Definition to_sec (d : Duration) : double := ddiv (double_of_Z d) (double_of_Z 1000000000).

(** [duration_cast<Duration>(std::chrono::duration<double, std::milli>(x))] *)
Definition from_ms (x : double) : outcome Duration :=
  double_to_i64 (dmul x (double_of_Z 1000000)).

Lemma dleb_trans (a b c : double) : dleb a b = true -> dleb b c = true -> dleb a c = true.
Proof.
  destruct a as [x|[]|], b as [y|[]|], c as [z|[]|]; simpl; try done.
  rewrite !Z.leb_le. lia.
Qed.

(** The order of a sort: [<=] with NaN last. *)
Definition double_le (a b : double) : Prop :=
  dleb a b || match b with NotANumber => true | _ => false end = true.

#[export] Instance double_le_dec : RelDecision double_le.
Proof. intros a b. unfold double_le. apply _. Defined.

#[export] Instance double_le_trans : Transitive double_le.
Proof.
  intros a b c. unfold double_le.
  destruct a as [x|[]|], b as [y|[]|], c as [z|[]|]; simpl; try done; lia.
Qed.

#[export] Instance double_le_total : Total double_le.
Proof.
  intros a b. unfold double_le.
  destruct a as [x|[]|], b as [y|[]|]; simpl; auto. lia.
Qed.

Lemma double_le_finite (a : double) (y : Z) : double_le a (Finite y) -> dleb a (Finite y) = true.
Proof. unfold double_le. by rewrite orb_false_r. Qed.

(** ** Rounding is monotone *)

Lemma rne_bounds (n d : Z) : 0 < d -> n / d <= rne n d <= n / d + 1.
Proof. intros Hd. unfold rne. destruct (_ ?= _); [destruct (Z.even _)|..]; lia. Qed.

(** A bound that is an integer survives rounding. *)
Lemma rne_lower (n d k : Z) : 0 < d -> k * d <= n -> k <= rne n d.
Proof.
  intros Hd H. pose proof (rne_bounds n d Hd). pose proof (Z.div_le_lower_bound n d k Hd). lia.
Qed.

Lemma rne_upper (n d k : Z) : 0 < d -> n <= k * d -> rne n d <= k.
Proof.
  intros Hd H. pose proof (rne_bounds n d Hd) as Hb.
  destruct (Z.eq_dec n (k * d)) as [->|Hne].
  - unfold rne. rewrite Z.mod_mul, Z.div_mul by lia. rewrite Z.mul_0_r.
    destruct (Z.compare_spec 0 d); lia.
  - assert (n / d < k) by (apply Z.div_lt_upper_bound; lia). lia.
Qed.

Lemma div_mono_cross (n1 d1 n2 d2 : Z) :
  0 < d1 -> 0 < d2 -> n1 * d2 <= n2 * d1 -> n1 / d1 <= n2 / d2.
Proof.
  intros Hd1 Hd2 H. apply Z.div_le_lower_bound; [done|].
  pose proof (Z.mul_div_le n1 d1 Hd1). nia.
Qed.

Lemma rne_mono (n1 d1 n2 d2 : Z) :
  0 < d1 -> 0 < d2 -> n1 * d2 <= n2 * d1 -> rne n1 d1 <= rne n2 d2.
Proof.
  intros Hd1 Hd2 H.
  pose proof (Z.div_mod n1 d1 ltac:(lia)) as E1. pose proof (Z.mod_pos_bound n1 d1 Hd1) as R1.
  pose proof (Z.div_mod n2 d2 ltac:(lia)) as E2. pose proof (Z.mod_pos_bound n2 d2 Hd2) as R2.
  pose proof (rne_bounds n1 d1 Hd1) as B1. pose proof (rne_bounds n2 d2 Hd2) as B2.
  unfold rne in *. set (q1 := n1 / d1) in *. set (r1 := n1 mod d1) in *.
  set (q2 := n2 / d2) in *. set (r2 := n2 mod d2) in *.
  assert (Hq : q1 <= q2) by (by apply div_mono_cross).
  clearbody q1 r1 q2 r2.
  destruct (Z.eq_dec q1 q2) as [Heq|]; [|lia].
  subst q1. assert (Hr : r1 * d2 <= r2 * d1) by (subst n1 n2; lia). clear H.
  destruct (Z.compare_spec (2 * r1) d1), (Z.compare_spec (2 * r2) d2);
    try destruct (Z.even q2); try lia; exfalso; nia.
Qed.

Lemma ulp_exp_mono (q1 q2 : Z) : q1 <= q2 -> ulp_exp q1 <= ulp_exp q2.
Proof. intros H. unfold ulp_exp. pose proof (Z.log2_le_mono _ _ H). lia. Qed.

(** The magnitude before the last bit is below [2^53], and at least [2^52]
    unless it is subnormal. *)
Lemma ulp_exp_upper (q : Z) : 0 <= q -> q < 2 ^ (ulp_exp q + 53).
Proof.
  intros Hq. destruct (Z.eq_dec q 0) as [->|]; [done|].
  pose proof (Z.log2_spec q ltac:(lia)) as [_ H].
  eapply Z.lt_le_trans; [exact H|]. apply Z.pow_le_mono_r; unfold ulp_exp; lia.
Qed.

Lemma ulp_exp_lower (q : Z) : 0 <= q -> 0 < ulp_exp q -> 2 ^ (ulp_exp q + 52) <= q.
Proof.
  intros Hq Hu. destruct (Z.eq_dec q 0) as [->|]; [by unfold ulp_exp in Hu|].
  pose proof (Z.log2_spec q ltac:(lia)) as [H _].
  unfold ulp_exp in *. replace (Z.max 0 (Z.log2 q - 52) + 52) with (Z.log2 q) by lia. done.
Qed.

Lemma rnd_units_mono (n1 d1 n2 d2 : Z) :
  0 <= n1 -> 0 <= n2 -> 0 < d1 -> 0 < d2 -> n1 * d2 <= n2 * d1 ->
  rnd_units n1 d1 <= rnd_units n2 d2.
Proof.
  intros Hn1 Hn2 Hd1 Hd2 H. unfold rnd_units.
  pose proof (div_mono_cross _ _ _ _ Hd1 Hd2 H) as Hq.
  pose proof (ulp_exp_mono _ _ Hq) as Hu.
  assert (H1 : 0 <= n1 / d1) by (apply Z.div_pos; lia).
  assert (H2 : 0 <= n2 / d2) by (apply Z.div_pos; lia).
  pose proof (ulp_exp_upper _ H1) as Hup. pose proof (ulp_exp_lower _ H2) as Hlo.
  set (s1 := ulp_exp (n1 / d1)) in *. set (s2 := ulp_exp (n2 / d2)) in *.
  assert (Hs1 : 0 <= s1) by (unfold s1, ulp_exp; lia).
  assert (P1 : 0 < 2 ^ s1) by (apply Z.pow_pos_nonneg; lia).
  assert (P2 : 0 < 2 ^ s2) by (apply Z.pow_pos_nonneg; lia).
  destruct (Z.eq_dec s1 s2) as [Heq|Hne].
  - rewrite Heq. apply Z.mul_le_mono_nonneg_r; [lia|]. apply rne_mono; [nia|nia|].
    replace (n1 * (d2 * 2 ^ s2)) with (n1 * d2 * 2 ^ s2) by ring.
    replace (n2 * (d1 * 2 ^ s2)) with (n2 * d1 * 2 ^ s2) by ring.
    by apply Z.mul_le_mono_nonneg_r; [lia|].
  - assert (Hv1 : rne n1 (d1 * 2 ^ s1) <= 2 ^ 53).
    { apply rne_upper; [nia|]. rewrite Z.pow_add_r in Hup by lia.
      pose proof (Z.mul_div_le n1 d1 Hd1). pose proof (Z.mul_succ_div_gt n1 d1 Hd1). nia. }
    assert (Hv2 : 2 ^ 52 <= rne n2 (d2 * 2 ^ s2)).
    { apply rne_lower; [nia|]. specialize (Hlo ltac:(lia)). rewrite Z.pow_add_r in Hlo by lia.
      pose proof (Z.mul_div_le n2 d2 Hd2). nia. }
    assert (Hp : 2 * 2 ^ s1 <= 2 ^ s2).
    { replace (2 * 2 ^ s1) with (2 ^ (s1 + 1)) by (rewrite Z.pow_add_r by lia; lia).
      apply Z.pow_le_mono_r; lia. }
    change (2 ^ 53) with (2 * 2 ^ 52) in Hv1. nia.
Qed.

Lemma rnd_units_nonneg (n d : Z) : 0 <= n -> 0 < d -> 0 <= rnd_units n d.
Proof.
  intros Hn Hd. unfold rnd_units.
  assert (0 < 2 ^ ulp_exp (n / d)) by (apply Z.pow_pos_nonneg; unfold ulp_exp; lia).
  assert (0 <= rne n (d * 2 ^ ulp_exp (n / d))); [|nia]. apply rne_lower; nia.
Qed.

Lemma rnd_units_zero (d : Z) : 0 < d -> rnd_units 0 d = 0.
Proof.
  intros Hd. unfold rnd_units.
  assert (0 < 2 ^ ulp_exp (0 / d)) by (apply Z.pow_pos_nonneg; unfold ulp_exp; lia).
  assert (rne 0 (d * 2 ^ ulp_exp (0 / d)) = 0) as ->; [|done].
  apply Z.le_antisymm; [apply rne_upper|apply rne_lower]; nia.
Qed.

Lemma rnd_nonneg (n d : Z) :
  0 <= n -> 0 < d ->
  rnd n d = if overflow_units <=? rnd_units n d then Infinite false else Finite (rnd_units n d).
Proof.
  intros Hn Hd. unfold rnd. rewrite Z.abs_eq by done.
  destruct (Z.leb_spec overflow_units (rnd_units n d)).
  - by destruct (Z.ltb_spec n 0); [lia|].
  - destruct (Z.eq_dec n 0) as [->|].
    + by rewrite rnd_units_zero.
    + by rewrite Z.sgn_pos, Z.mul_1_l by lia.
Qed.

(** Rounding preserves the order of non-negative exact values. *)
Lemma rnd_mono (n1 d1 n2 d2 : Z) :
  0 <= n1 -> 0 <= n2 -> 0 < d1 -> 0 < d2 -> n1 * d2 <= n2 * d1 ->
  dleb (rnd n1 d1) (rnd n2 d2) = true.
Proof.
  intros Hn1 Hn2 Hd1 Hd2 H. rewrite !rnd_nonneg by done.
  pose proof (rnd_units_mono _ _ _ _ Hn1 Hn2 Hd1 Hd2 H).
  destruct (Z.leb_spec overflow_units (rnd_units n1 d1)),
    (Z.leb_spec overflow_units (rnd_units n2 d2)); simpl; try done; try lia.
Qed.

(** ** Exact results *)

(** A magnitude with at most 53 significant bits is its own rounding. *)
Lemma rnd_units_exact (m s d : Z) :
  0 <= m < 2 ^ 53 -> 0 <= s -> 0 < d -> rnd_units (m * 2 ^ s * d) d = m * 2 ^ s.
Proof.
  intros Hm Hs Hd. unfold rnd_units. rewrite Z.div_mul by lia.
  assert (P : 0 < 2 ^ s) by (apply Z.pow_pos_nonneg; lia).
  set (u := ulp_exp (m * 2 ^ s)).
  assert (Hu : 0 <= u <= s).
  { unfold u, ulp_exp. destruct (Z.eq_dec m 0) as [->|]; [simpl; lia|].
    rewrite Z.log2_mul_pow2 by lia.
    assert (Z.log2 m < 53) by (apply Z.log2_lt_pow2; lia). lia. }
  assert (Pu : 0 < 2 ^ u) by (apply Z.pow_pos_nonneg; lia).
  replace s with (s - u + u) by lia. rewrite Z.pow_add_r by lia.
  assert (H : rne (m * (2 ^ (s - u) * 2 ^ u) * d) (d * 2 ^ u) = m * 2 ^ (s - u)).
  { apply Z.le_antisymm; [apply rne_upper|apply rne_lower]; nia. }
  rewrite H. ring.
Qed.

Lemma rnd_exact (m s d : Z) :
  0 <= m < 2 ^ 53 -> 0 <= s -> 0 < d -> m * 2 ^ s < overflow_units ->
  rnd (m * 2 ^ s * d) d = Finite (m * 2 ^ s).
Proof.
  intros Hm Hs Hd Ho. assert (P : 0 < 2 ^ s) by (apply Z.pow_pos_nonneg; lia).
  rewrite rnd_nonneg by nia. rewrite rnd_units_exact by done.
  by destruct (Z.leb_spec overflow_units (m * 2 ^ s)); [lia|].
Qed.

Lemma one_units_pos : 0 < one_units.
Proof. reflexivity. Qed.

Lemma small_no_overflow (z : Z) : z < 2 ^ 64 -> z * one_units < overflow_units.
Proof.
  intros Hz. unfold overflow_units, one_units in *.
  rewrite Z.pow_add_r by (unfold unit_exp; lia).
  assert (0 < 2 ^ unit_exp) by reflexivity. assert (2 ^ 64 < 2 ^ 1024) by reflexivity. nia.
Qed.

(** Integers below [2^53] convert exactly. *)
Lemma double_of_Z_exact (z : Z) : 0 <= z < 2 ^ 53 -> double_of_Z z = Finite (z * one_units).
Proof.
  intros Hz. unfold double_of_Z.
  rewrite <- (Z.mul_1_r (z * one_units)). unfold one_units.
  rewrite rnd_exact; [by rewrite Z.mul_1_r|done|unfold unit_exp; lia|lia|].
  apply small_no_overflow. change (2 ^ 64) with (2 ^ 53 * 2048). lia.
Qed.

(** Integers up to [2^64] convert to a finite double, in order. *)
Lemma double_of_Z_finite (z : Z) :
  0 <= z < 2 ^ 64 -> double_of_Z z = Finite (rnd_units (z * one_units) 1) /\
    0 <= rnd_units (z * one_units) 1.
Proof.
  intros Hz. pose proof one_units_pos as P. unfold double_of_Z. rewrite rnd_nonneg by nia.
  pose proof (rnd_units_nonneg (z * one_units) 1 ltac:(nia) ltac:(lia)).
  destruct (Z.leb_spec overflow_units (rnd_units (z * one_units) 1)) as [Ho|]; [exfalso|done].
  assert (Hle : rnd_units (z * one_units) 1 <= rnd_units (1 * 2 ^ (64 + unit_exp) * 1) 1).
  { apply rnd_units_mono; try (lia || nia).
    rewrite Z.pow_add_r by (unfold unit_exp; lia). fold one_units. nia. }
  rewrite rnd_units_exact in Hle by (unfold unit_exp; lia).
  assert (1 * 2 ^ (64 + unit_exp) < overflow_units) by reflexivity. lia.
Qed.

Lemma double_of_Z_mono (a b : Z) :
  0 <= a <= b -> rnd_units (a * one_units) 1 <= rnd_units (b * one_units) 1.
Proof. intros H. pose proof one_units_pos. apply rnd_units_mono; nia. Qed.

(** Division by a positive integer constant keeps the order. *)
Lemma ddiv_mono (a b c : Z) :
  0 <= a -> a <= b -> 0 < c -> dleb (ddiv (Finite a) (Finite c)) (ddiv (Finite b) (Finite c)) = true.
Proof.
  intros Ha Hab Hc. simpl. destruct (Z.eqb_spec c 0); [lia|].
  rewrite Z.sgn_pos, !Z.mul_1_l, Z.abs_eq by lia. pose proof one_units_pos.
  apply rnd_mono; [nia|nia|done|done|].
  apply Z.mul_le_mono_nonneg_r; [lia|]. apply Z.mul_le_mono_nonneg_r; lia.
Qed.

Lemma million_exact : double_of_Z 1000000 = Finite (1000000 * one_units).
Proof. apply double_of_Z_exact. lia. Qed.

Lemma billion_exact : double_of_Z 1000000000 = Finite (1000000000 * one_units).
Proof. apply double_of_Z_exact. lia. Qed.

(** Converting simulated time to milliseconds never reverses the order of
    two instants, although both conversions round. *)
Theorem to_ms_monotone (t1 t2 : TimePoint) :
  0 <= t1 <= t2 -> t2 <= INT64_MAX -> dleb (to_ms t1) (to_ms t2) = true.
Proof.
  intros H Hmax. assert (INT64_MAX < 2 ^ 64) by reflexivity. unfold to_ms.
  destruct (double_of_Z_finite t1) as [-> H1]; [lia|].
  destruct (double_of_Z_finite t2) as [-> H2]; [lia|].
  rewrite million_exact. apply ddiv_mono; [done|by apply double_of_Z_mono|reflexivity].
Qed.

(** Whole milliseconds convert exactly in both directions. *)
Lemma to_ms_exact (k : Z) :
  0 <= k -> k * 1000000 < 2 ^ 53 -> to_ms (k * 1000000) = Finite (k * one_units).
Proof.
  intros Hk Hmax. unfold to_ms. rewrite double_of_Z_exact, million_exact by lia. simpl.
  rewrite Z.mul_1_l.
  replace (k * 1000000 * one_units * one_units) with
    (k * 2 ^ unit_exp * (1000000 * one_units)) by (unfold one_units; ring).
  apply rnd_exact; [lia|unfold unit_exp; lia|reflexivity|].
  apply small_no_overflow. change (2 ^ 64) with (2 ^ 53 * 2048). lia.
Qed.

Lemma from_ms_exact (k : Z) :
  0 <= k -> k * 1000000 < 2 ^ 53 -> from_ms (Finite (k * one_units)) = Ok (k * 1000000).
Proof.
  intros Hk Hmax. unfold from_ms. rewrite million_exact. cbn [dmul].
  replace (k * one_units * (1000000 * one_units)) with
    (k * 1000000 * 2 ^ unit_exp * one_units) by (unfold one_units; ring).
  rewrite rnd_exact; [|lia|unfold unit_exp; lia|reflexivity|].
  2:{ apply small_no_overflow. change (2 ^ 64) with (2 ^ 53 * 2048). lia. }
  cbn [double_to_i64]. fold one_units. rewrite Z.quot_mul by (pose proof one_units_pos; lia).
  assert (in_i64 (k * 1000000) = true) as ->; [|done].
  apply in_i64_spec. unfold INT64_MIN, INT64_MAX. lia.
Qed.

(** Times that are a whole number of milliseconds (below [2^53]
    nanoseconds, about 104 days) survive the two conversions exactly: the
    millisecond count of such an instant is that integer, and converting it
    back gives the instant. *)
Theorem whole_ms_roundtrip (k : Z) :
  0 <= k -> k * 1000000 < 2 ^ 53 ->
  to_ms (k * 1000000) = double_of_Z k /\ from_ms (to_ms (k * 1000000)) = Ok (k * 1000000).
Proof.
  intros Hk Hmax. rewrite to_ms_exact, double_of_Z_exact by lia. split; [done|].
  by apply from_ms_exact.
Qed.

(** ** Agreement with the Standard Library's model of binary64 *)

Definition of_spec (x : SpecFloat.spec_float) : double :=
  match x with
  | SpecFloat.S754_zero _ => Finite 0
  | SpecFloat.S754_infinity s => Infinite s
  | SpecFloat.S754_nan => NotANumber
  | SpecFloat.S754_finite s m e =>
      Finite ((if s then -1 else 1) * Z.pos m * 2 ^ (e + unit_exp))
  end.

Definition spec_of_Z (z : Z) : SpecFloat.spec_float :=
  SpecFloat.binary_normalize 53 1024 z 0 false.

(** The four operations on the quotients [a / b] and [c / d] of integers. *)
Definition agrees (abcd : Z * Z * Z * Z) : bool :=
  let '(a, b, c, d) := abcd in
  let x := ddiv (double_of_Z a) (double_of_Z b) in
  let y := ddiv (double_of_Z c) (double_of_Z d) in
  let x' := SpecFloat.SFdiv 53 1024 (spec_of_Z a) (spec_of_Z b) in
  let y' := SpecFloat.SFdiv 53 1024 (spec_of_Z c) (spec_of_Z d) in
  let same u v := match u, v with
                  | Finite m, Finite n => m =? n
                  | Infinite s, Infinite t => Bool.eqb s t
                  | NotANumber, NotANumber => true
                  | _, _ => false
                  end in
  same x (of_spec x') && same y (of_spec y') &&
  same (dadd x y) (of_spec (SpecFloat.SFadd 53 1024 x' y')) &&
  same (dsub x y) (of_spec (SpecFloat.SFsub 53 1024 x' y')) &&
  same (dmul x y) (of_spec (SpecFloat.SFmul 53 1024 x' y')) &&
  same (ddiv x y) (of_spec (SpecFloat.SFdiv 53 1024 x' y')).

Example double_agrees_specfloat :
  forallb agrees
    [(5000001, 1000000, -2, 7); (9223372036854775807, 1000000, 9007199254740993, 1);
     (0, 1, 1, 10)] = true.
Proof. vm_compute. reflexivity. Qed.

(** ** Witnesses *)

Lemma to_ms_monotone_witness : dleb (to_ms 9007199254740993) (to_ms 9007199254740994) = true.
Proof. apply to_ms_monotone; [lia|unfold INT64_MAX; lia]. Defined.

Lemma whole_ms_roundtrip_witness : from_ms (to_ms (125 * 1000000)) = Ok (125 * 1000000).
Proof. exact (proj2 (whole_ms_roundtrip 125 ltac:(lia) ltac:(lia))). Defined.

(** A quotient of integers [a <= b] below [2^53] rounds into [0, 1]. *)
Lemma ratio_bounds (a b : Z) :
  0 <= a <= b -> 0 < b < 2 ^ 53 ->
  dleb (Finite 0) (ddiv (Finite (a * one_units)) (Finite (b * one_units))) = true /\
  dleb (ddiv (Finite (a * one_units)) (Finite (b * one_units))) (Finite (1 * one_units)) = true.
Proof.
  intros Ha Hb. pose proof one_units_pos as P.
  assert (Hbu : 0 < b * one_units) by nia.
  cbn [ddiv]. destruct (Z.eqb_spec (b * one_units) 0); [lia|].
  rewrite Z.sgn_pos, Z.mul_1_l, Z.abs_eq by lia.
  assert (H1 : rnd (1 * 2 ^ unit_exp * (b * one_units)) (b * one_units) = Finite (1 * one_units)).
  { apply rnd_exact; [lia|unfold unit_exp; lia|done|reflexivity]. }
  assert (H0 : rnd 0 (b * one_units) = Finite 0).
  { rewrite rnd_nonneg by lia. rewrite rnd_units_zero by lia.
    by destruct (Z.leb_spec overflow_units 0). }
  split.
  - rewrite <- H0. apply rnd_mono; try done; [nia|]. rewrite Z.mul_0_l. nia.
  - rewrite <- H1. apply rnd_mono; try done; [nia|fold one_units; nia|].
    apply Z.mul_le_mono_nonneg_r; [lia|]. fold one_units. nia.
Qed.

Lemma rnd_units_below_2_64 (n d : Z) :
  0 <= n -> 0 < d -> n <= 2 ^ 64 * one_units * d -> rnd_units n d <= 2 ^ 64 * one_units.
Proof.
  intros Hn Hd H.
  assert (E : rnd_units (1 * 2 ^ (64 + unit_exp) * d) d = 1 * 2 ^ (64 + unit_exp))
    by (apply rnd_units_exact; unfold unit_exp; lia).
  rewrite Z.mul_1_l, Z.pow_add_r in E by (unfold unit_exp; lia). fold one_units in E.
  rewrite <- E. pose proof one_units_pos. apply rnd_units_mono; nia.
Qed.

(** A positive duration is a positive number of seconds. *)
Lemma to_sec_positive (d : Duration) :
  0 < d <= INT64_MAX -> exists w, to_sec d = Finite w /\ 0 < w.
Proof.
  intros Hd. assert (INT64_MAX < 2 ^ 64) as Hmax by reflexivity. unfold to_sec.
  pose proof one_units_pos as P.
  destruct (double_of_Z_finite d) as [-> H1]; [lia|]. rewrite billion_exact.
  assert (Hlow : 1 * one_units <= rnd_units (d * one_units) 1).
  { assert (rnd_units (1 * 2 ^ unit_exp * 1) 1 = 1 * 2 ^ unit_exp) as E
      by (apply rnd_units_exact; unfold unit_exp; lia).
    fold one_units in E. rewrite <- E. apply rnd_units_mono; nia. }
  assert (Hup : rnd_units (d * one_units) 1 <= 2 ^ 64 * one_units)
    by (apply rnd_units_below_2_64; nia).
  set (v := rnd_units (d * one_units) 1) in *. clearbody v.
  set (c := 1000000000 * one_units). assert (Hc : 1 <= c) by (unfold c; lia).
  cbn [ddiv]. destruct (Z.eqb_spec c 0); [lia|].
  rewrite Z.sgn_pos, Z.mul_1_l, Z.abs_eq by lia. rewrite rnd_nonneg by nia.
  assert (Hq : rnd_units (v * one_units) c <= 2 ^ 64 * one_units)
    by (apply rnd_units_below_2_64; [nia|lia|unfold c; nia]).
  assert (Hq0 : 1 <= rnd_units (v * one_units) c).
  { assert (rnd_units (1 * 2 ^ 0 * c) c = 1 * 2 ^ 0) as E by (apply rnd_units_exact; lia).
    change 1 with (1 * 2 ^ 0) at 1. rewrite <- E. apply rnd_units_mono; try nia.
    assert (1000000000 < one_units) by reflexivity.
    apply Z.mul_le_mono_nonneg_r; [lia|]. unfold c. nia. }
  assert (2 ^ 64 * one_units < overflow_units) by reflexivity.
  destruct (Z.leb_spec overflow_units (rnd_units (v * one_units) c)); [lia|].
  eexists. split; [done|lia].
Qed.

Lemma to_ms_finite (d : Duration) :
  0 <= d <= INT64_MAX -> exists v, to_ms d = Finite v /\ 0 <= v.
Proof.
  intros Hd. assert (INT64_MAX < 2 ^ 64) as Hmax by reflexivity. unfold to_ms.
  pose proof one_units_pos as P.
  destruct (double_of_Z_finite d) as [-> H1]; [lia|]. rewrite million_exact.
  assert (Hup : rnd_units (d * one_units) 1 <= 2 ^ 64 * one_units)
    by (apply rnd_units_below_2_64; nia).
  set (v := rnd_units (d * one_units) 1) in *. clearbody v.
  set (c := 1000000 * one_units). assert (Hc : 1 <= c) by (unfold c; lia).
  cbn [ddiv]. destruct (Z.eqb_spec c 0); [lia|].
  rewrite Z.sgn_pos, Z.mul_1_l, Z.abs_eq by lia. rewrite rnd_nonneg by nia.
  assert (Hq : rnd_units (v * one_units) c <= 2 ^ 64 * one_units)
    by (apply rnd_units_below_2_64; [nia|lia|unfold c; nia]).
  pose proof (rnd_units_nonneg (v * one_units) c ltac:(nia) ltac:(lia)).
  assert (2 ^ 64 * one_units < overflow_units) by reflexivity.
  destruct (Z.leb_spec overflow_units (rnd_units (v * one_units) c)); [lia|]. eauto.
Qed.
