(* ===== verification/Workload.v ===== *)
(** * The workload loader: [apps/tokamak/workload.h], [workload.cpp]

    A JSONL file, one request per line, sorted by arrival time.  The JSON
    library, the file system and the unspecified order [std::sort] gives to
    requests that arrive together are parameters. *)

From stdpp Require Import pretty.
From S2P Require Import Prelude Clock Double Request.

Record WorkloadRequest := mkWorkloadRequest {
  w_id : string;
  arrival_ms : double;
  w_prompt_token_ids : list Z;     (** [std::uint32_t] *)
  max_tokens : Z;                  (** [std::size_t] *)
  deadline_ms : double;
}.

(** What [nlohmann::json::parse] does: a value, its [parse_error], or another
    exception (a number too large for a double). *)
Inductive parse_result (json : Type) :=
  | Parsed (j : json)
  | ParseError
  | ParseThrows (what : string).
Arguments Parsed {json} j.
Arguments ParseError {json}.
Arguments ParseThrows {json} what.

(** The comparator of the sort. *)
Definition arrives_before (a b : WorkloadRequest) : bool := dltb (arrival_ms a) (arrival_ms b).

(** Sorted as [std::sort] promises: no later element is before an earlier one. *)
Definition sorted_by_arrival : list WorkloadRequest -> Prop :=
  StronglySorted (fun a b => arrives_before b a = false).

Section Loader.
(** The JSON library: parsing, and [obj.at(key).get<T>()], [None] when it throws
    (a missing key or a value of another type). *)
Context {json : Type} (parse : string -> parse_result json).
Context (get_string : string -> json -> option string).
Context (get_double : string -> json -> option double).
Context (get_u32s : string -> json -> option (list Z)).
Context (get_size : string -> json -> option Z).
(** The file system: the text of a file that opens. *)
Context (open_file : string -> option string).
(** [std::sort] with the comparator. *)
Context (std_sort : list WorkloadRequest -> list WorkloadRequest).

(** The fields of one object. *)
Definition read_fields (obj : json) : option WorkloadRequest :=
  id ← get_string "id" obj;
  arrival ← get_double "arrival_ms" obj;
  prompt ← get_u32s "prompt_token_ids" obj;
  max ← get_size "max_tokens" obj;
  deadline ← get_double "deadline_ms" obj;
  Some (mkWorkloadRequest id arrival prompt max deadline).

(** The body of the loop for one non-empty line. *)
Definition load_line (path : string) (line_number : N) (line : string)
  : outcome WorkloadRequest :=
  match parse line with
  | ParseThrows what => Throw what
  | ParseError =>
      Panic ("load_workload: malformed JSON on line " +:+ pretty line_number +:+ " of " +:+ path)
  | Parsed obj =>
      match read_fields obj with
      | Some req => Ok req
      | None => Panic ("load_workload: missing/wrong-typed field on line " +:+
                       pretty line_number +:+ " of " +:+ path)
      end
  end.

Fixpoint load_lines (path : string) (line_number : N) (lines : list string)
  : outcome (list WorkloadRequest) :=
  match lines with
  | [] => Ok []
  | line :: lines =>
      let line_number := (line_number + 1)%N in
      if bool_decide (line = "") then load_lines path line_number lines
      else
        req ← load_line path line_number line;
        requests ← load_lines path line_number lines;
        Ok (req :: requests)
  end.

Definition load_workload (path : string) : outcome (list WorkloadRequest) :=
  match open_file path with
  | None => Panic ("load_workload: could not open file: " +:+ path)
  | Some text =>
      requests ← load_lines path 0 (getlines text);
      Ok (std_sort requests)
  end.

(** ** Specification *)

(** The request a line stands for: none for a blank line. *)
Definition line_request (line : string) : option WorkloadRequest :=
  if bool_decide (line = "") then None
  else match parse line with Parsed obj => read_fields obj | _ => None end.

Definition good_line (line : string) : bool :=
  bool_decide (line = "") || match line_request line with Some _ => true | None => false end.

Lemma load_line_good path n line :
  good_line line = true ->
  line = "" /\ line_request line = None \/
  exists req, line <> "" /\ line_request line = Some req /\ load_line path n line = Ok req.
Proof.
  unfold good_line, line_request, load_line. case_bool_decide; [by left|]. simpl.
  destruct (parse line) as [obj| |what]; try done.
  destruct (read_fields obj) as [req|]; [|done]. intros _. right. by exists req.
Qed.

Lemma load_line_bad path n line :
  good_line line = false -> line <> "" /\ is_ok (load_line path n line) = false.
Proof.
  unfold good_line, line_request, load_line. case_bool_decide; [done|]. simpl.
  destruct (parse line) as [obj| |what]; try done. by destruct (read_fields obj).
Qed.

Lemma load_lines_good path n lines :
  Forall (fun line => good_line line = true) lines ->
  load_lines path n lines = Ok (omap line_request lines).
Proof.
  intros H. revert n. induction H as [|line lines Hl Hls IH]; intros n; [done|]. cbn.
  destruct (load_line_good path (n + 1) line Hl) as [[-> ->]|(req & Hne & -> & ->)].
  - rewrite bool_decide_true by done. apply IH.
  - rewrite bool_decide_false by done. cbn. by rewrite IH.
Qed.

Lemma load_lines_bad path n before line rest :
  Forall (fun line => good_line line = true) before -> good_line line = false ->
  load_lines path n (before ++ line :: rest) =
    match load_line path (n + N.of_nat (length before) + 1) line with
    | Ok _ => Ok [] | Panic m => Panic m | Throw m => Throw m
    | AssertFail m => AssertFail m | Undef m => Undef m
    end.
Proof.
  intros Hb Hbad. revert n. induction Hb as [|l before Hl Hls IH]; intros n.
  - destruct (load_line_bad path (n + 1) line Hbad) as [Hne Hnok]. simpl.
    rewrite bool_decide_false, N.add_0_r by done. by destruct (load_line path (n + 1) line).
  - destruct (load_line_bad path (n + N.of_nat (length (l :: before)) + 1) line Hbad) as [_ Hnok].
    replace (n + N.of_nat (length (l :: before)) + 1)%N with
      (n + 1 + N.of_nat (length before) + 1)%N in * by (simpl; lia).
    cbn -[N.of_nat].
    destruct (load_line_good path (n + 1) l Hl) as [[-> _]|(req & Hne & _ & ->)].
    + rewrite bool_decide_true by done. apply IH.
    + rewrite bool_decide_false by done. cbn -[N.of_nat]. rewrite IH.
      by destruct (load_line path (n + 1 + N.of_nat (length before) + 1) line).
Qed.

Hypothesis std_sort_sorts : forall l, Permutation (std_sort l) l /\ sorted_by_arrival (std_sort l).

(** C34. A well-formed workload file loads completely: one request per
    non-blank line, none invented or lost, in order of arrival. *)
Theorem load_workload_complete path text :
  open_file path = Some text ->
  Forall (fun line => good_line line = true) (getlines text) ->
  exists requests, load_workload path = Ok requests /\
    Permutation requests (omap line_request (getlines text)) /\ sorted_by_arrival requests.
Proof.
  intros Hopen Hgood. unfold load_workload. rewrite Hopen, load_lines_good by done. simpl.
  eexists. split; [done|]. apply std_sort_sorts.
Qed.

(** C35. A workload file that does not load never yields requests: a missing
    file and the first bad line stop the program, the latter by a panic that
    names its number (counted from one, blank lines included) or by an
    exception of the JSON library other than its [parse_error]. *)
Theorem load_workload_rejects path :
  (open_file path = None ->
     load_workload path = Panic ("load_workload: could not open file: " +:+ path)) /\
  (forall text before line rest, open_file path = Some text ->
     getlines text = before ++ line :: rest ->
     Forall (fun line => good_line line = true) before -> good_line line = false ->
     let n := pretty (N.of_nat (length before) + 1)%N in
     load_workload path =
       match parse line with
       | ParseThrows what => Throw what
       | ParseError => Panic ("load_workload: malformed JSON on line " +:+ n +:+ " of " +:+ path)
       | Parsed _ => Panic ("load_workload: missing/wrong-typed field on line " +:+
                            n +:+ " of " +:+ path)
       end).
Proof.
  split; [unfold load_workload; by intros ->|].
  intros text before line rest Hopen Hlines Hb Hbad n. unfold load_workload.
  rewrite Hopen, Hlines.
  rewrite (load_lines_bad path 0 before line rest Hb Hbad), N.add_0_l.
  destruct (load_line_bad path (N.of_nat (length before) + 1) line Hbad) as [_ Hnok].
  unfold load_line in *. destruct (parse line) as [obj| |what]; try done.
  by destruct (read_fields obj).
Qed.

End Loader.

(** ** A sorting function

    Stable merge sort by arrival time, NaN last: a concrete [std_sort]. *)

Definition arrival_le (a b : WorkloadRequest) : Prop := double_le (arrival_ms a) (arrival_ms b).

#[export] Instance arrival_le_dec : RelDecision arrival_le.
Proof. intros a b. unfold arrival_le. apply _. Defined.

#[export] Instance arrival_le_trans : Transitive arrival_le.
Proof. intros a b c. unfold arrival_le. apply transitivity. Qed.

#[export] Instance arrival_le_total : Total arrival_le.
Proof. intros a b. apply (total double_le). Qed.

Definition arrival_sort : list WorkloadRequest -> list WorkloadRequest := merge_sort arrival_le.

Lemma arrival_le_not_before a b : arrival_le a b -> arrives_before b a = false.
Proof.
  unfold arrival_le, arrives_before, double_le.
  destruct (arrival_ms a) as [x|[]|], (arrival_ms b) as [y|[]|]; simpl; try done; lia.
Qed.

Lemma StronglySorted_impl {A} (R1 R2 : A -> A -> Prop) (l : list A) :
  (forall a b, R1 a b -> R2 a b) -> StronglySorted R1 l -> StronglySorted R2 l.
Proof.
  intros H. induction 1 as [|a l Hs IH Ha]; constructor; [done|].
  eapply Forall_impl; [exact Ha|]. intros b. apply H.
Qed.

Lemma arrival_sort_sorts l :
  Permutation (arrival_sort l) l /\ sorted_by_arrival (arrival_sort l).
Proof.
  split; [apply merge_sort_Permutation|].
  eapply StronglySorted_impl; [apply arrival_le_not_before|].
  apply StronglySorted_merge_sort; apply _.
Qed.

(** ** Witnesses: a library that knows three lines *)

Definition request_a : WorkloadRequest := mkWorkloadRequest "a" (Finite (5 * one_units)) [1; 2] 2 (Finite (100 * one_units)).
Definition request_b : WorkloadRequest := mkWorkloadRequest "b" (Finite 0) [3] 1 (Finite (100 * one_units)).

Definition demo_parse (line : string) : parse_result (option WorkloadRequest) :=
  if bool_decide (line = "A") then Parsed (Some request_a)
  else if bool_decide (line = "B") then Parsed (Some request_b)
  else if bool_decide (line = "{}") then Parsed None else ParseError.

Definition demo_file (text : string) (path : string) : option string :=
  if bool_decide (path = "w.jsonl") then Some text else None.

Definition demo_string (_ : string) (r : option WorkloadRequest) : option string := w_id <$> r.
Definition demo_double (k : string) (r : option WorkloadRequest) : option double :=
  (fun r => if bool_decide (k = "arrival_ms") then arrival_ms r else deadline_ms r) <$> r.
Definition demo_u32s (_ : string) (r : option WorkloadRequest) : option (list Z) :=
  w_prompt_token_ids <$> r.
Definition demo_size (_ : string) (r : option WorkloadRequest) : option Z := max_tokens <$> r.

Definition demo_load (text : string) : string -> outcome (list WorkloadRequest) :=
  load_workload demo_parse demo_string demo_double demo_u32s demo_size (demo_file text) arrival_sort.

Definition two_lines : string := "A" +:+ String newline (String newline "B").

Lemma load_workload_complete_witness :
  exists requests, demo_load two_lines "w.jsonl" = Ok requests /\
    Permutation requests [request_a; request_b] /\ sorted_by_arrival requests.
Proof.
  destruct (load_workload_complete demo_parse demo_string demo_double demo_u32s demo_size
    (demo_file two_lines) arrival_sort arrival_sort_sorts "w.jsonl" two_lines)
    as (requests & E & Hp & Hs); [reflexivity|repeat constructor|].
  exists requests. exact (conj E (conj Hp Hs)).
Defined.

Lemma load_workload_rejects_witness :
  demo_load ("A" +:+ String newline "{") "w.jsonl" =
    Panic "load_workload: malformed JSON on line 2 of w.jsonl".
Proof.
  refine (proj2 (load_workload_rejects demo_parse demo_string demo_double demo_u32s demo_size
    (demo_file ("A" +:+ String newline "{")) arrival_sort "w.jsonl")
    ("A" +:+ String newline "{") ["A"] "{" [] eq_refl eq_refl _ eq_refl).
  repeat constructor.
Defined.
