(* ===== verification/Simulation.v ===== *)
(** * The simulation runner: [apps/tokamak/simulation.h], [simulation.cpp]

    [run_simulation] replays a sorted workload against the scheduler and the
    simulated backend.  The loop body is [sim_step], the loop condition
    [sim_running]; [sim_loop] runs the [while] with fuel, [None] when the fuel
    does not suffice.  The trace writer is a pointer that may be null:
    [trace_] is [None] then, and otherwise the events given to [write]. *)

From S2P Require Import Prelude Clock RequestState RequestLifecycle Request Backend MockBackend FifoScheduler Telemetry Double Workload.

Record RequestSummary := mkRequestSummary {
  summary_id : RequestId;
  final_state : RequestState;
  deadline_at : TimePoint;
  admitted_at : option TimePoint;
  waiting_prefill_at : option TimePoint;
  prefilling_at : option TimePoint;
  waiting_decode_at : option TimePoint;
  decoding_at : option TimePoint;
  first_token_at : option TimePoint;
  completed_at : option TimePoint;
  output_tokens_emitted : Z;       (** [std::size_t] *)
  max_output_tokens : Z;           (** [std::size_t] *)
}.

Record SimulationResult := mkSimulationResult {
  tick_reports : list TickReport;
  summaries : list RequestSummary;
}.

(** The local variables of [run_simulation]. *)
Record SimState := mkSimState {
  sim_world : MockWorld;           (** [clock] and [backend] *)
  scheduler : FifoScheduler;
  submitted : list RequestPtr;
  next_to_submit : nat;
  sim_iteration : Z;               (** [std::size_t] *)
  sim_reports : list TickReport;
  trace_ : option (list TraceEvent);
}.

(** 1ms per prompt token, 5ms per decode step. *)
Definition sim_start_state (trace_writer : bool) : SimState :=
  mkSimState (mkMockWorld fake_start (new_mock 1000000 5000000)) new_scheduler [] 0 0 []
    (if trace_writer then Some [] else None).

Definition sim_start_time : TimePoint := fake_now fake_start.

Definition now (st : SimState) : TimePoint := fake_now (mock_clock (sim_world st)).

(** The inner [while]: submit everything whose arrival has passed.  [pending]
    is the workload from [next_to_submit] on. *)
Fixpoint submit_arrived (pending : list WorkloadRequest) (elapsed_ms : double) (st : SimState)
  : outcome SimState :=
  match pending with
  | [] => Ok st
  | w :: pending =>
      if dleb (arrival_ms w) elapsed_ms then
        deadline_from_now ← from_ms (deadline_ms w);
        '(req, world) ← new_request (w_id w) deadline_from_now (max_tokens w)
                          (w_prompt_token_ids w) 0 (sim_world st);
        '(p, s, world) ← submit req (scheduler st) world;
        submit_arrived pending elapsed_ms
          (mkSimState world s (submitted st ++ [p]) (S (next_to_submit st))
             (sim_iteration st) (sim_reports st) (trace_ st))
      else Ok st
  end.

Definition has_work (st : SimState) : bool :=
  (0 <? waiting_count (scheduler st)) || (0 <? decoding_count (scheduler st)).

(** Branch 2 of the loop body: one tick, traced and reported. *)
Definition run_tick (st : SimState) : outcome SimState :=
  '(r, s, world) ← tick (scheduler st) (sim_world st);
  trace ← match trace_ st with
          | None => Ok None
          | Some events =>
              event ← make_trace_event r (sim_iteration st) "fifo" sim_start_time;
              Ok (Some (events ++ [event]))
          end;
  Ok (mkSimState world s (submitted st) (next_to_submit st) (u64 (sim_iteration st + 1))
        (sim_reports st ++ [r]) trace).

(** Branch 3: jump the clock to the next arrival. *)
Definition jump_to_arrival (w : WorkloadRequest) (st : SimState) : outcome SimState :=
  arrival ← from_ms (arrival_ms w);
  elapsed ← i64_sub (now st) 0;
  d ← i64_sub arrival elapsed;
  clock ← advance d (mock_clock (sim_world st));
  Ok (mkSimState (mkMockWorld clock (mock (sim_world st))) (scheduler st) (submitted st)
        (next_to_submit st) (sim_iteration st) (sim_reports st) (trace_ st)).

(** The loop body. *)
Definition sim_step (workload : list WorkloadRequest) (st : SimState) : outcome SimState :=
  elapsed ← i64_sub (now st) 0;
  st ← submit_arrived (drop (next_to_submit st) workload) (to_ms elapsed) st;
  if has_work st then run_tick st
  else match workload !! next_to_submit st with
       | Some w => jump_to_arrival w st
       | None => Ok st
       end.

Definition sim_running (workload : list WorkloadRequest) (st : SimState) : bool :=
  (next_to_submit st <? length workload)%nat || has_work st.

Fixpoint sim_loop (fuel : nat) (workload : list WorkloadRequest) (st : SimState)
  : option (outcome SimState) :=
  match fuel with
  | O => None
  | S fuel =>
      if sim_running workload st then
        match sim_step workload st with
        | Ok st => sim_loop fuel workload st
        | failure => Some failure
        end
      else Some (Ok st)
  end.

Definition summarize (r : Request) : RequestSummary :=
  mkRequestSummary (id_ r) (req_state r) (deadline_at_ r)
    (admitted_at_ (lifecycle_ r))
    (entered_at kWaitingPrefill (lifecycle_ r))
    (entered_at kPrefilling (lifecycle_ r))
    (entered_at kWaitingDecode (lifecycle_ r))
    (entered_at kDecoding (lifecycle_ r))
    (first_token_at_ (lifecycle_ r))
    (completed_at_ (lifecycle_ r))
    (output_tokens_emitted_ r) (max_output_tokens_ r).

(** The snapshot loop over [submitted]. *)
Fixpoint snapshot (ptrs : list RequestPtr) (s : FifoScheduler) : outcome (list RequestSummary) :=
  match ptrs with
  | [] => Ok []
  | p :: ptrs =>
      r ← deref p s;
      rest ← snapshot ptrs s;
      Ok (summarize r :: rest)
  end.

(** [run_simulation] on what [load_workload] gave. *)
Definition run_simulation (fuel : nat) (loaded : outcome (list WorkloadRequest))
    (trace_writer : bool) : option (outcome (SimulationResult * option (list TraceEvent))) :=
  match loaded with
  | Ok workload =>
      match sim_loop fuel workload (sim_start_state trace_writer) with
      | None => None
      | Some o =>
          Some (st ← o;
                l ← snapshot (submitted st) (scheduler st);
                Ok (mkSimulationResult (sim_reports st) l, trace_ st))
      end
  | Panic m => Some (Panic m)
  | Throw m => Some (Throw m)
  | AssertFail m => Some (AssertFail m)
  | Undef m => Some (Undef m)
  end.

(** More fuel never changes a result. *)
Lemma sim_loop_mono n m workload st o :
  (n <= m)%nat -> sim_loop n workload st = Some o -> sim_loop m workload st = Some o.
Proof.
  revert m st. induction n as [|n IH]; intros m st Hle; [done|].
  destruct m as [|m]; [lia|]. simpl. destruct (sim_running workload st); [|done].
  destruct (sim_step workload st); try done. apply IH. lia.
Qed.
