(* ===== verification/SimulationCorrect.v ===== *)
(** * The simulation terminates and serves the whole workload

    For a workload whose ids are distinct, whose budgets are positive, whose
    arrival times survive the conversion to nanoseconds and whose total cost
    keeps the simulated clock in range, the [while] loop of [run_simulation]
    ends, and it ends with every request submitted and terminal.  The measure
    is the number of tokens owed, two per request not yet submitted and one for
    a pending clock jump; the clock is bounded by the potential [potential]. *)

From S2P Require Import Prelude Clock RequestState RequestLifecycle Request Backend MockBackend FifoScheduler SchedulerInvariant SchedulerCorrect SchedulerSpec SchedulerOnMock Telemetry Double Workload Simulation.

(** ** Workloads the simulation can serve *)

(** What a request costs at most: its prompt and every token of its budget. *)
Definition request_cost (w : WorkloadRequest) : Z :=
  1000000 * size_of (w_prompt_token_ids w) + 5000000 * max_tokens w.
Definition total_cost (l : list WorkloadRequest) : Z := sum_Z (request_cost <$> l).

(** The arrival time is a non-negative instant up to [last] that the truncation
    to nanoseconds does not place before itself. *)
Definition arrival_fits (last : TimePoint) (w : WorkloadRequest) : Prop :=
  exists n, from_ms (arrival_ms w) = Ok n /\ 0 <= n <= last /\
    dleb (arrival_ms w) (to_ms n) = true.

Record good_workload (last : TimePoint) (l : list WorkloadRequest) : Prop := {
  gw_last : 0 <= last;
  gw_ids : NoDup (w_id <$> l);
  gw_budget : Forall (fun w => 0 < max_tokens w < 2 ^ 64) l;
  gw_arrival : Forall (arrival_fits last) l;
  gw_deadline : Forall (fun w => exists d, from_ms (deadline_ms w) = Ok d /\ 0 <= d /\
                          last + total_cost l + d <= INT64_MAX) l;
  gw_clock : last + total_cost l <= INT64_MAX;
  gw_length : size_of l < 2 ^ 64;
}.

(** ** Sums *)

Lemma total_cost_cons w l : total_cost (w :: l) = request_cost w + total_cost l.
Proof. done. Qed.

Lemma request_cost_nonneg w : 0 < max_tokens w -> 0 <= request_cost w.
Proof. intros H. unfold request_cost. pose proof (size_of_nonneg (w_prompt_token_ids w)). lia. Qed.

Lemma total_cost_nonneg l : Forall (fun w => 0 < max_tokens w < 2 ^ 64) l -> 0 <= total_cost l.
Proof.
  induction 1 as [|w l Hw Hl IH]; [done|]. rewrite total_cost_cons.
  pose proof (request_cost_nonneg w). lia.
Qed.

Lemma work_app l k : work (l ++ k) = work l + work k.
Proof. unfold work. rewrite fmap_app. apply sum_Z_app. Qed.

(** The prompt tokens waiting to be prefilled. *)
Definition waiting_tokens (s : FifoScheduler) : Z :=
  sum_Z (prompt_sizes (batch_of (waiting_ s) s)).

Lemma waiting_tokens_nonneg s : 0 <= waiting_tokens s.
Proof. apply sum_Z_nonneg, prompt_sizes_nonneg. Qed.

Lemma waiting_tokens_submit (s : FifoScheduler) (r : Request) :
  (forall p, p ∈ waiting_ s -> (p < length (requests_ s))%nat) ->
  waiting_tokens (mkScheduler (requests_ s ++ [r]) (waiting_ s ++ [length (requests_ s)])
                    (decoding_ s) (handles_ s))
  = waiting_tokens s + size_of (prompt_token_ids_ r).
Proof.
  intros Hlt. unfold waiting_tokens. cbn [waiting_ requests_].
  set (s' := mkScheduler _ _ _ _).
  assert (Hold : forall l, (forall p, p ∈ l -> (p < length (requests_ s))%nat) ->
    prompt_sizes (batch_of l s') = prompt_sizes (batch_of l s)).
  { intros l. induction l as [|p l IH]; intros Hl; [done|].
    destruct (lookup_lt_is_Some_2 (requests_ s) p) as [rp Hp]; [apply Hl; set_solver|].
    assert (Hp' : requests_ s' !! p = Some rp) by (by apply lookup_app_l_Some).
    rewrite (prompt_sizes_batch_cons _ _ _ _ Hp), (prompt_sizes_batch_cons _ _ _ _ Hp').
    rewrite IH; [done|]. intros q Hq. apply Hl. set_solver. }
  assert (Happ : forall l p rp, requests_ s' !! p = Some rp ->
    sum_Z (prompt_sizes (batch_of (l ++ [p]) s'))
      = sum_Z (prompt_sizes (batch_of l s')) + size_of (prompt_token_ids_ rp)).
  { intros l p rp Hp. unfold batch_of, prompt_sizes. simpl.
    rewrite omap_app, fmap_app, sum_Z_app. simpl. unfold prefill_request_of at 2.
    rewrite Hp. simpl. lia. }
  rewrite (Happ _ _ r); [|simpl; by apply list_lookup_middle]. by rewrite Hold.
Qed.

(** ** The trace and the reports *)

(** The trace has the event of every report, in order. *)
Definition traces (reports : list TickReport) (events : list TraceEvent) : Prop :=
  length events = length reports /\
  forall i rep ev, reports !! i = Some rep -> events !! i = Some ev ->
    make_trace_event rep (u64 (Z.of_nat i)) "fifo" sim_start_time = Ok ev.

Lemma traces_nil : traces [] [].
Proof. split; [done|]. intros i rep ev Hi. by rewrite lookup_nil in Hi. Qed.

Lemma traces_snoc reports events rep ev :
  traces reports events ->
  make_trace_event rep (u64 (size_of reports)) "fifo" sim_start_time = Ok ev ->
  traces (reports ++ [rep]) (events ++ [ev]).
Proof.
  intros [Hlen Htr] Hev. split; [rewrite !length_app; simpl; lia|].
  intros i rep' ev' [[Hl Hr]|[-> <-]]%lookup_snoc_Some [[Hl' He]|[Hi <-]]%lookup_snoc_Some;
    try lia; [exact (Htr _ _ _ Hr He)|exact Hev].
Qed.

(** ** The invariant of the loop *)

Section Loop.
Context (last : TimePoint) (workload : list WorkloadRequest).
Hypothesis Hgood : good_workload last workload.

Definition limit : TimePoint := last + total_cost workload.

(** An upper bound of every instant the simulated clock will still reach. *)
Definition potential (st : SimState) : Z :=
  Z.max (now st) last + 1000000 * waiting_tokens (scheduler st)
  + 5000000 * work (abs (scheduler st)) + total_cost (drop (next_to_submit st) workload).

Record sim_inv (st : SimState) : Prop := {
  si_sched : sched_inv ∅ (scheduler st) (sim_world st);
  si_mock : mock_wf (sim_world st);
  si_prefill_cost : per_token_prefill_cost_ (mock (sim_world st)) = 1000000;
  si_decode_cost : per_decode_cost_ (mock (sim_world st)) = 5000000;
  si_next : (next_to_submit st <= length workload)%nat;
  si_length : length (requests_ (scheduler st)) = next_to_submit st;
  si_submitted : submitted st = seq 0 (next_to_submit st);
  (** The requests are those of the workload, in order. *)
  si_requests p r : requests_ (scheduler st) !! p = Some r ->
    exists w, workload !! p = Some w /\ id_ r = w_id w /\ max_output_tokens_ r = max_tokens w /\
      prompt_token_ids_ r = w_prompt_token_ids w;
  (** They were admitted after the epoch of the clock. *)
  si_admitted p r : requests_ (scheduler st) !! p = Some r ->
    exists a, entered_at kAdmitted (lifecycle_ r) = Some a /\ 0 <= a;
  si_handles : next_sequence_id_ (mock (sim_world st)) + size_of (waiting_ (scheduler st))
               <= Z.of_nat (next_to_submit st);
  si_iteration : sim_iteration st = u64 (size_of (sim_reports st));
  si_stamps rep : rep ∈ sim_reports st -> 0 <= timestamp rep <= now st;
  si_trace events : trace_ st = Some events -> traces (sim_reports st) events;
  si_potential : potential st <= limit;
}.

Lemma sim_start_inv b : sim_inv (sim_start_state b).
Proof.
  split; try done.
  - by apply new_scheduler_inv.
  - simpl. lia.
  - simpl. intros rep Hrep. by apply not_elem_of_nil in Hrep.
  - simpl. intros events. destruct b; [|done]. intros [= <-]. apply traces_nil.
  - unfold potential. simpl. rewrite drop_0. unfold limit.
    assert (now (sim_start_state b) = 0) as -> by done.
    assert (waiting_tokens new_scheduler = 0) as -> by done.
    assert (work (abs new_scheduler) = 0) as -> by done.
    pose proof (gw_last _ _ Hgood). lia.
Qed.

Lemma sim_now_range st : sim_inv st -> 0 <= now st <= INT64_MAX.
Proof.
  intros Hinv. split; [apply (mock_time _ (si_mock _ Hinv))|].
  pose proof (si_potential _ Hinv) as Hp. unfold potential, limit in Hp.
  pose proof (waiting_tokens_nonneg (scheduler st)).
  pose proof (work_bound _ (abs_owed _ _ _ (si_sched _ Hinv))).
  pose proof (size_of_nonneg (filter (fun k => finished_ticket k = false) (abs (scheduler st)))) as Hu.
  fold (unfinished (abs (scheduler st))) in Hu.
  pose proof (total_cost_nonneg _ (Forall_drop _ (next_to_submit st) _ (gw_budget _ _ Hgood))).
  pose proof (gw_clock _ _ Hgood). lia.
Qed.

Lemma requests_ids st p w :
  sim_inv st -> (next_to_submit st <= p)%nat -> workload !! p = Some w ->
  fresh_id (w_id w) (scheduler st).
Proof.
  intros Hinv Hp Hw q rq _ Hq Heq.
  destruct (si_requests _ Hinv q rq Hq) as (wq & Hwq & Hid & _).
  apply lookup_lt_Some in Hq as Hlt. rewrite (si_length _ Hinv) in Hlt.
  assert (q = p); [|lia].
  eapply (NoDup_lookup _ _ _ (w_id w) (gw_ids _ _ Hgood)); rewrite list_lookup_fmap.
  - rewrite Hwq. simpl. congruence.
  - by rewrite Hw.
Qed.

(** On the simulated backend, reading the clock changes nothing. *)
Lemma new_request_mock id d m prompt pr (w : MockWorld) :
  INT64_MIN <= time w + d <= INT64_MAX ->
  new_request id d m prompt pr w =
    Ok (mkRequest id (mkLifecycle kReceived (time w) None None None ∅) (time w + d) m 0 prompt pr [], w).
Proof.
  intros H. unfold new_request. simpl. unfold fake_now in *. simpl in H.
  by rewrite (proj2 (i64_add_Ok (current_ (mock_clock w)) d _) (conj eq_refl H)).
Qed.

Lemma transition_mock_world p to s (w : MockWorld) s' w' :
  transition p to s w = Ok (s', w') -> w' = w.
Proof.
  unfold transition. intros H. inv_ok.
  match goal with H : transition_to _ _ _ = _ |- _ => unfold transition_to in H;
    destruct (negb _); [done|]; by injection H as _ <- end.
Qed.

Lemma submit_mock_world r s (w : MockWorld) p s' w' :
  submit r s w = Ok (p, s', w') -> w' = w.
Proof.
  unfold submit. intros H. inv_ok.
  repeat match goal with H : transition _ _ _ _ = _ |- _ => apply transition_mock_world in H end.
  congruence.
Qed.

(** The state after one submission. *)
Definition after_submit (s : FifoScheduler) (st : SimState) : SimState :=
  mkSimState (sim_world st) s (submitted st ++ [length (requests_ (scheduler st))])
    (S (next_to_submit st)) (sim_iteration st) (sim_reports st) (trace_ st).

Lemma has_work_active st : has_work st = true <-> waiting_ (scheduler st) <> [] \/ decoding_ (scheduler st) <> [].
Proof.
  unfold has_work, waiting_count, decoding_count, size_of. rewrite orb_true_iff, !Z.ltb_lt.
  destruct (waiting_ (scheduler st)), (decoding_ (scheduler st)); simpl; split;
    try (intros [?|?]; try done; lia); try (intros; lia); intros; try (by left; lia);
    try (by right; lia); auto.
Qed.

Lemma now_below_limit st : sim_inv st -> now st <= limit.
Proof.
  intros Hinv. pose proof (si_potential _ Hinv) as Hp. unfold potential in Hp.
  pose proof (waiting_tokens_nonneg (scheduler st)).
  pose proof (work_bound _ (abs_owed _ _ _ (si_sched _ Hinv))).
  pose proof (size_of_nonneg (filter (fun k => finished_ticket k = false) (abs (scheduler st)))) as Hu.
  fold (unfinished (abs (scheduler st))) in Hu.
  pose proof (total_cost_nonneg _ (Forall_drop _ (next_to_submit st) _ (gw_budget _ _ Hgood))). lia.
Qed.

(** A submitted request owes its whole budget. *)
Lemma work_submitted rs (r : Request) :
  req_state r = kWaitingPrefill -> output_tokens_emitted_ r = 0 ->
  work (abs_request <$> (rs ++ [r])) = work (abs_request <$> rs) + max_output_tokens_ r.
Proof.
  intros Hst Hem. rewrite fmap_app, work_app. f_equal.
  change (abs_request <$> [r]) with ([abs_request r]). rewrite work_cons.
  assert (work [] = 0) as -> by done.
  unfold ticket_work, emitted_of, finished_ticket, abs_request, abs_status. simpl.
  rewrite Hst. simpl. lia.
Qed.

Lemma submit_one st w rest :
  sim_inv st -> drop (next_to_submit st) workload = w :: rest ->
  exists d req s, from_ms (deadline_ms w) = Ok d /\
    new_request (w_id w) d (max_tokens w) (w_prompt_token_ids w) 0 (sim_world st)
      = Ok (req, sim_world st) /\
    submit req (scheduler st) (sim_world st)
      = Ok (length (requests_ (scheduler st)), s, sim_world st) /\
    sim_inv (after_submit s st) /\ has_work (after_submit s st) = true /\
    drop (next_to_submit (after_submit s st)) workload = rest /\
    work (abs s) = work (abs (scheduler st)) + max_tokens w.
Proof.
  intros Hinv Hdrop.
  assert (Hw : workload !! next_to_submit st = Some w).
  { rewrite <- (Nat.add_0_r (next_to_submit st)), <- lookup_drop. by rewrite Hdrop. }
  pose proof (proj1 (Forall_lookup _ _) (gw_deadline _ _ Hgood) _ _ Hw) as (d & Hd & Hd0 & Hdm).
  pose proof (proj1 (Forall_lookup _ _) (gw_budget _ _ Hgood) _ _ Hw) as Hm. cbn beta in *.
  pose proof (now_below_limit _ Hinv) as Hlim. pose proof (sim_now_range _ Hinv) as Hnow.
  unfold limit in Hlim.
  assert (Hrange : INT64_MIN <= time (sim_world st) + d <= INT64_MAX).
  { change (time (sim_world st)) with (now st). unfold INT64_MIN, INT64_MAX in *. lia. }
  pose proof (new_request_mock (w_id w) d (max_tokens w) (w_prompt_token_ids w) 0
    (sim_world st) Hrange) as Hnew.
  destruct (new_request_submit _ _ _ _ _ _ _ _ _ (si_sched _ Hinv) Hm
    (requests_ids _ _ _ Hinv (le_n _) Hw) Hnew) as
    (r & s & w' & E & Hinv' & _ & _ & Hst & Hid & Hrm & Hrd & Hrp & Hre & _ & Hadm & Hs).
  pose proof (submit_mock_world _ _ _ _ _ _ E). subst w'.
  assert (Hrest : drop (S (next_to_submit st)) workload = rest).
  { rewrite <- Nat.add_1_r, <- drop_drop, Hdrop. done. }
  assert (Hwork : work (abs s) = work (abs (scheduler st)) + max_tokens w).
  { subst s. unfold abs. simpl. by rewrite work_submitted, Hrm. }
  eexists d, _, s. split; [done|]. split; [exact Hnew|]. split; [exact E|].
  split; [|split; [|split; [exact Hrest|exact Hwork]]].
  2:{ apply has_work_active. left. subst s. simpl. by destruct (waiting_ (scheduler st)). }
  destruct Hinv as [Hi1 Hi2 Hi3 Hi4 Hi5 Hi6 Hi7 Hi8 Had Hi9 Hit Hstm Htrc Hi10]. split; simpl; try done.
  - apply lookup_lt_Some in Hw. lia.
  - subst s. simpl. rewrite length_app. simpl. lia.
  - rewrite Hi7, Hi6. symmetry. exact (seq_S (next_to_submit st) 0).
  - intros p rp. subst s. simpl. intros [Hp|[Hp1 Hp2]]%lookup_app_Some; [eauto|].
    apply list_lookup_singleton_Some in Hp2 as [Hp2 <-]. exists w.
    replace p with (next_to_submit st) by lia. done.
  - intros p rp. subst s. simpl. intros [Hp|[Hp1 Hp2]]%lookup_app_Some; [eauto|].
    apply list_lookup_singleton_Some in Hp2 as [Hp2 <-]. destruct Hadm as (a & Ha & Hat).
    exists a. split; [done|]. etrans; [|exact Hat]. apply Hnow.
  - subst s. simpl. rewrite size_of_app. unfold size_of at 2. simpl. lia.
  - unfold potential in *. simpl. rewrite Hrest, Hwork. rewrite Hdrop, total_cost_cons in Hi10.
    assert (waiting_tokens s = waiting_tokens (scheduler st) + size_of (w_prompt_token_ids w)) as ->.
    { subst s. rewrite waiting_tokens_submit, Hrp; [done|]. intros p Hp.
      destruct (inv_waiting _ _ _ Hi1 p Hp) as (rp & Hrp' & _). by eapply lookup_lt_Some. }
    unfold request_cost in Hi10. change (now (after_submit s st)) with (now st). lia.
Qed.

(** The tokens owed, and two units per request still to be submitted. *)
Definition units (st : SimState) : Z :=
  work (abs (scheduler st))
  + sum_Z ((fun w => max_tokens w + 2) <$> drop (next_to_submit st) workload).

Lemma units_submit s st w rest :
  drop (next_to_submit st) workload = w :: rest ->
  drop (next_to_submit (after_submit s st)) workload = rest ->
  work (abs s) = work (abs (scheduler st)) + max_tokens w ->
  units (after_submit s st) + 2 = units st.
Proof.
  intros H1 H2 Hw. unfold units. rewrite H1, H2. unfold after_submit at 1. cbn [scheduler].
  rewrite Hw. cbn [fmap list_fmap]. change (sum_Z (?x :: ?l)) with (x + sum_Z l). lia.
Qed.

Lemma submit_arrived_ok pending elapsed st :
  sim_inv st -> drop (next_to_submit st) workload = pending ->
  exists st', submit_arrived pending elapsed st = Ok st' /\ sim_inv st' /\
    sim_world st' = sim_world st /\
    (st' = st \/ (has_work st' = true /\ units st' + 2 <= units st)) /\
    (forall w, workload !! next_to_submit st' = Some w -> dleb (arrival_ms w) elapsed = false).
Proof.
  revert st. induction pending as [|w pending IH]; intros st Hinv Hdrop; simpl.
  - exists st. split; [done|]. split; [done|]. split; [done|]. split; [by left|].
    intros w Hw. apply lookup_lt_Some in Hw. apply (f_equal length) in Hdrop.
    rewrite length_drop in Hdrop. simpl in Hdrop. lia.
  - destruct (dleb (arrival_ms w) elapsed) eqn:Ha.
    + destruct (submit_one st w pending Hinv Hdrop) as
        (d & req & s & -> & Hnew & Hsub & Hinv1 & Hwork1 & Hdrop1 & Hw1).
      cbn [mbind outcome_bind]. rewrite Hnew. cbn [mbind outcome_bind]. rewrite Hsub.
      cbn [mbind outcome_bind]. fold (after_submit s st).
      pose proof (units_submit s st w pending Hdrop Hdrop1 Hw1).
      destruct (IH (after_submit s st) Hinv1 Hdrop1) as (st' & E & Hinv' & Hworld & Hor & Hhead).
      exists st'. split; [exact E|]. split; [done|]. split; [by rewrite Hworld|].
      split; [|done]. right. destruct Hor as [->|[? ?]]; (split; [done|lia]).
    + exists st. split; [done|]. split; [done|]. split; [done|]. split; [by left|].
      intros w' Hw'. assert (workload !! next_to_submit st = Some w).
      { rewrite <- (Nat.add_0_r (next_to_submit st)), <- lookup_drop. by rewrite Hdrop. }
      congruence.
Qed.

(** Tracing a report never fails on an instant of the simulated clock. *)
Lemma trace_step_ok st rep c :
  sim_inv st -> 0 <= timestamp rep <= current_ c -> current_ c <= INT64_MAX ->
  exists tr, match trace_ st with
             | None => Ok None
             | Some events =>
                 event ← make_trace_event rep (sim_iteration st) "fifo" sim_start_time;
                 Ok (Some (events ++ [event]))
             end = Ok tr /\
    forall events, tr = Some events -> traces (sim_reports st ++ [rep]) events.
Proof.
  intros Hinv Hstamp Hc. destruct (trace_ st) as [events|] eqn:Htr; [|by exists None].
  assert (exists ev, make_trace_event rep (sim_iteration st) "fifo" sim_start_time = Ok ev)
    as [ev Hev].
  { unfold make_trace_event.
    assert (sim_start_time = 0) as -> by done.
    rewrite (proj2 (i64_sub_Ok (timestamp rep) 0 (timestamp rep)))
      by (unfold INT64_MIN, INT64_MAX in *; lia).
    by eexists. }
  exists (Some (events ++ [ev])). rewrite Hev. split; [done|]. intros ? [= <-].
  apply traces_snoc; [by apply (si_trace _ Hinv)|by rewrite <- (si_iteration _ Hinv)].
Qed.

(** A scheduler with work owes at least one token. *)
Lemma has_work_unfinished st :
  sim_inv st -> has_work st = true -> 1 <= unfinished (abs (scheduler st)).
Proof.
  intros Hinv Hhas. destruct (Z.le_gt_cases 1 (unfinished (abs (scheduler st)))) as [|Hlt]; [done|].
  destruct (unfinished_zero _ _ _ (si_sched _ Hinv)) as [H1 H2]; [lia|].
  apply has_work_active in Hhas as [?|?]; done.
Qed.

(** The clock can pay for the next tick, and the handle counter does not wrap. *)
Lemma tick_room st :
  sim_inv st -> has_work st = true ->
  current_ (mock_clock (sim_world st)) + batch_cost (sim_world st)
      (batch_of (waiting_ (scheduler st)) (scheduler st)) + per_decode_cost_ (mock (sim_world st))
    <= INT64_MAX /\
  next_sequence_id_ (mock (sim_world st)) + size_of (waiting_ (scheduler st)) < 2 ^ 64.
Proof.
  intros Hinv Hhas. pose proof (has_work_unfinished _ Hinv Hhas) as Hunf.
  pose proof (work_bound _ (abs_owed _ _ _ (si_sched _ Hinv))) as Hwb.
  pose proof (total_cost_nonneg _ (Forall_drop _ (next_to_submit st) _ (gw_budget _ _ Hgood))) as Hrest.
  pose proof (gw_clock _ _ Hgood) as Hclock. pose proof (waiting_tokens_nonneg (scheduler st)) as Hwt.
  pose proof (gw_length _ _ Hgood) as Hlen. pose proof (si_handles _ Hinv). pose proof (si_next _ Hinv).
  pose proof (si_potential _ Hinv) as Hp. split.
  - unfold batch_cost. rewrite (si_prefill_cost _ Hinv), (si_decode_cost _ Hinv).
    fold (waiting_tokens (scheduler st)). unfold potential, limit, now, fake_now in *. lia.
  - unfold size_of in *. lia.
Qed.

(** One tick of a simulation with work. *)
Lemma run_tick_ok st :
  sim_inv st -> has_work st = true ->
  exists st', run_tick st = Ok st' /\ sim_inv st' /\ next_to_submit st' = next_to_submit st /\
    now st <= now st' /\ work (abs (scheduler st')) + 1 <= work (abs (scheduler st)).
Proof.
  intros Hinv Hhas. pose proof Hinv as [Hi1 Hi2 Hi3 Hi4 Hi5 Hi6 Hi7 Hi8 Had Hi9 Hit Hstm Htrc Hi10].
  pose proof (abs_owed _ _ _ Hi1) as Howed. pose proof (has_work_unfinished _ Hinv Hhas) as Hunf.
  pose proof (work_bound _ Howed) as Hwb. destruct (tick_room _ Hinv Hhas) as [Hcap Hids].
  pose proof (mock_tick_fits _ _ Hi2 Hcap Hids) as Hfits.
  destruct (tick_ok _ _ Hi1 Hfits) as (rep & s & w & E & Hpost).
  destruct (tick_on_mock _ _ _ _ _ Hi1 Hi2 Hcap Hids E) as (Hwf' & Hpc & Hdc & Hcl & Hnx).
  destruct (tick_post_pays _ _ _ _ _ Hi1 Hpost) as [Howed' Hpay].
  pose proof (work_bound _ Howed') as Hwb'.
  pose proof (post_stamp _ _ _ _ _ Hpost) as Hstamp.
  destruct (trace_step_ok st rep (mock_clock w)) as (tr & Htr & Htraces); [done| | |].
  1,2: change (time (sim_world st)) with (now st) in Hstamp;
    change (time w) with (current_ (mock_clock w)) in Hstamp;
    pose proof (sim_now_range _ Hinv); unfold batch_cost in *; lia.
  eexists. split.
  { unfold run_tick. rewrite E. cbn [mbind outcome_bind]. rewrite Htr. cbn [mbind outcome_bind].
    reflexivity. }
  pose proof (post_waiting _ _ _ _ _ Hpost) as Hempty.
  pose proof (post_evolves _ _ _ _ _ Hpost) as [Hlen' _].
  split; [|split; [done|split; [unfold now, fake_now; simpl; lia|simpl; lia]]].
  split; simpl; try done; try congruence.
  - apply Hpost.
  - intros p r' Hr'. destruct (tick_same_meta _ _ _ _ _ _ _ Hpost Hr') as (r & Hr & Hm).
    destruct (Hi8 p r Hr) as (wr & Hwr & ? & ? & ?). exists wr.
    destruct Hm as (? & ? & ? & ? & _). split_and!; congruence.
  - intros p r' Hr'. destruct (tick_same_meta _ _ _ _ _ _ _ Hpost Hr') as (r & Hr & Hm).
    destruct (Had p r Hr) as (a & Ha & Ha0). exists a. split; [by apply Hm|done].
  - rewrite Hempty. unfold size_of at 1. simpl. lia.
  - by rewrite Hit, u64_add_l, size_of_app.
  - change (time (sim_world st)) with (now st) in Hstamp.
    change (time w) with (current_ (mock_clock w)) in Hstamp. unfold now, fake_now in *. simpl.
    pose proof (sim_now_range _ Hinv) as Hrange. unfold now, fake_now in Hrange.
    intros rep' [Hrep| ->%list_elem_of_singleton]%elem_of_app; [|lia]. specialize (Hstm _ Hrep). lia.
  - unfold potential in *. simpl. assert (waiting_tokens s = 0) as ->.
    { unfold waiting_tokens. rewrite Hempty. done. }
    unfold now, fake_now, batch_cost, waiting_tokens in *. simpl. rewrite Hi3, Hi4 in *. lia.
Qed.

(** The next arrival, when there is one, and whether the clock has passed it. *)
Definition must_jump (st : SimState) : bool :=
  match workload !! next_to_submit st with
  | Some w => negb (dleb (arrival_ms w) (to_ms (now st)))
  | None => false
  end.

(** Jumping to an arrival the clock has not passed moves the clock forward to
    it, and the arrival is then seen as passed. *)
Lemma jump_ok st w :
  sim_inv st -> workload !! next_to_submit st = Some w ->
  dleb (arrival_ms w) (to_ms (now st)) = false ->
  exists st', jump_to_arrival w st = Ok st' /\ sim_inv st' /\
    scheduler st' = scheduler st /\ next_to_submit st' = next_to_submit st /\
    must_jump st' = false.
Proof.
  intros Hinv Hw Hnot. pose proof (sim_now_range _ Hinv) as Hnow.
  pose proof (proj1 (Forall_lookup _ _) (gw_arrival _ _ Hgood) _ _ Hw) as (n & Hn & Hnl & Hseen).
  pose proof (gw_clock _ _ Hgood) as Hclock.
  pose proof (total_cost_nonneg _ (gw_budget _ _ Hgood)).
  assert (Hfwd : now st <= n).
  { destruct (Z.le_gt_cases (now st) n) as [|Hgt]; [done|].
    assert (dleb (arrival_ms w) (to_ms (now st)) = true); [|congruence].
    eapply dleb_trans; [exact Hseen|]. apply to_ms_monotone; lia. }
  unfold jump_to_arrival. rewrite Hn. cbn [mbind outcome_bind].
  rewrite (proj2 (i64_sub_Ok (now st) 0 (now st))) by (unfold INT64_MIN; lia).
  cbn [mbind outcome_bind].
  rewrite (proj2 (i64_sub_Ok n (now st) (n - now st))) by (unfold INT64_MIN; lia).
  cbn [mbind outcome_bind].
  rewrite (proj2 (advance_Ok (n - now st) (mock_clock (sim_world st)) (mkFakeClock n)))
    by (unfold now, fake_now, INT64_MIN in *; simpl; lia).
  cbn [mbind outcome_bind]. eexists. split; [reflexivity|].
  pose proof Hinv as [Hi1 Hi2 Hi3 Hi4 Hi5 Hi6 Hi7 Hi8 Had Hi9 Hit Hstm Htrc Hi10].
  split; [|split; [done|split; [done|]]].
  - split; simpl; try done.
    + apply (inv_later _ _ (sim_world st)); [exact Hfwd|done|exact Hi1].
    + destruct Hi2. split; simpl; try done. lia.
    + intros rep Hrep. specialize (Hstm _ Hrep). unfold now, fake_now in *. simpl. lia.
    + unfold potential in *. simpl. unfold now, fake_now in *. simpl. lia.
  - unfold must_jump. simpl. rewrite Hw. unfold now, fake_now. simpl. by rewrite Hseen.
Qed.

Definition measure (st : SimState) : Z := units st + (if must_jump st then 1 else 0).

Lemma units_nonneg st : sim_inv st -> 0 <= units st.
Proof.
  intros Hinv. unfold units.
  pose proof (work_bound _ (abs_owed _ _ _ (si_sched _ Hinv))).
  pose proof (size_of_nonneg (filter (fun k => finished_ticket k = false) (abs (scheduler st)))) as Hu.
  fold (unfinished (abs (scheduler st))) in Hu.
  assert (0 <= sum_Z ((fun w => max_tokens w + 2) <$> drop (next_to_submit st) workload)); [|lia].
  apply sum_Z_nonneg, Forall_fmap. eapply Forall_impl; [apply Forall_drop, (gw_budget _ _ Hgood)|].
  intros w Hw. cbn beta in Hw. simpl. lia.
Qed.

Lemma must_jump_later st st' :
  next_to_submit st' = next_to_submit st -> now st <= now st' -> sim_inv st -> sim_inv st' ->
  must_jump st = false -> must_jump st' = false.
Proof.
  intros Hnext Hnow Hinv Hinv'. unfold must_jump. rewrite Hnext.
  destruct (workload !! next_to_submit st) as [w|]; [|done].
  rewrite !negb_false_iff. intros H. eapply dleb_trans; [exact H|].
  pose proof (sim_now_range _ Hinv). pose proof (sim_now_range _ Hinv').
  apply to_ms_monotone; lia.
Qed.

(** Every iteration of the loop returns, preserves the invariant and decreases
    the measure. *)
Lemma sim_step_ok st :
  sim_inv st -> sim_running workload st = true ->
  exists st', sim_step workload st = Ok st' /\ sim_inv st' /\ measure st' + 1 <= measure st.
Proof.
  intros Hinv Hrun. unfold sim_step. pose proof (sim_now_range _ Hinv) as Hnow.
  rewrite (proj2 (i64_sub_Ok (now st) 0 (now st))) by (unfold INT64_MIN; lia).
  cbn [mbind outcome_bind].
  destruct (submit_arrived_ok _ (to_ms (now st)) st Hinv eq_refl) as
    (st1 & -> & Hinv1 & Hworld & Hor & Hhead).
  cbn [mbind outcome_bind].
  assert (Hnow1 : now st1 = now st) by (unfold now; by rewrite Hworld).
  destruct (has_work st1) eqn:Hhas.
  - destruct (run_tick_ok st1 Hinv1 Hhas) as (st2 & E & Hinv2 & Hnext & Hlater & Hpay).
    exists st2. split; [done|]. split; [done|].
    assert (Hu : units st2 + 1 <= units st1) by (unfold units; rewrite Hnext; lia).
    unfold measure. destruct Hor as [->|[_ Hless]].
    + destruct (must_jump st2) eqn:Hj2; [|destruct (must_jump st); lia].
      destruct (must_jump st) eqn:Hj; [lia|].
      by rewrite (must_jump_later st st2) in Hj2.
    + destruct (must_jump st2), (must_jump st); lia.
  - destruct Hor as [->|[Hh _]]; [|congruence].
    unfold sim_running in Hrun. rewrite Hhas, orb_false_r in Hrun. apply Nat.ltb_lt in Hrun.
    destruct (lookup_lt_is_Some_2 workload (next_to_submit st) Hrun) as [w Hw]. rewrite Hw.
    destruct (jump_ok st w Hinv Hw (Hhead w Hw)) as (st2 & E & Hinv2 & Hs & Hnext & Hj).
    exists st2. split; [done|]. split; [done|]. unfold measure, units. rewrite Hs, Hnext, Hj.
    assert (must_jump st = true) as ->; [|lia].
    unfold must_jump. rewrite Hw. by rewrite (Hhead w Hw).
Qed.

Lemma sim_loop_ok fuel st :
  sim_inv st -> measure st < Z.of_nat fuel ->
  exists st', sim_loop fuel workload st = Some (Ok st') /\ sim_inv st' /\
    sim_running workload st' = false.
Proof.
  revert st. induction fuel as [|fuel IH]; intros st Hinv Hm; simpl.
  { pose proof (units_nonneg _ Hinv). unfold measure in Hm. destruct (must_jump st); lia. }
  destruct (sim_running workload st) eqn:Hrun; [|by exists st].
  destruct (sim_step_ok st Hinv Hrun) as (st' & -> & Hinv' & Hdec).
  apply IH; [done|lia].
Qed.

(** There is a trace at the end exactly when there was a writer. *)
Lemma submit_arrived_traced pending elapsed st st' :
  submit_arrived pending elapsed st = Ok st' -> trace_ st' = trace_ st.
Proof.
  revert st. induction pending as [|w pending IH]; intros st; simpl; [by intros [= <-]|].
  destruct (dleb _ _); [|by intros [= <-]]. intros H. inv_ok.
  match goal with H : submit_arrived _ _ _ = _ |- _ => by apply IH in H end.
Qed.

Lemma sim_step_traced st st' :
  sim_step workload st = Ok st' -> is_Some (trace_ st') <-> is_Some (trace_ st).
Proof.
  unfold sim_step. intros H. apply bind_Ok in H as (elapsed & _ & H).
  apply bind_Ok in H as (st1 & <-%submit_arrived_traced & H).
  destruct (has_work st1); [|destruct (workload !! next_to_submit st1)].
  - unfold run_tick in H. apply bind_Ok in H as ([[rep s] w] & _ & H).
    apply bind_Ok in H as (tr & Htr & [= <-]). simpl.
    destruct (trace_ st1); inv_ok; [|done]. split; eauto.
  - unfold jump_to_arrival in H. inv_ok. done.
  - by injection H as <-.
Qed.

Lemma sim_loop_traced fuel st st' :
  sim_loop fuel workload st = Some (Ok st') -> is_Some (trace_ st') <-> is_Some (trace_ st).
Proof.
  revert st. induction fuel as [|fuel IH]; intros st; simpl; [done|].
  destruct (sim_running workload st); [|by intros [= <-]].
  destruct (sim_step workload st) as [st1| | | |] eqn:E; try done.
  intros ->%IH. by apply sim_step_traced.
Qed.

(** The snapshot reads every submitted request. *)
Lemma snapshot_ok s k n :
  (k + n <= length (requests_ s))%nat ->
  snapshot (seq k n) s = Ok (summarize <$> take n (drop k (requests_ s))).
Proof.
  revert k. induction n as [|n IH]; intros k Hk; simpl; [done|].
  destruct (lookup_lt_is_Some_2 (requests_ s) k) as [r Hr]; [lia|].
  unfold deref. rewrite Hr. simpl. rewrite IH by lia. simpl.
  by rewrite (drop_S _ _ _ Hr).
Qed.

End Loop.

(** The iterations that suffice for a workload. *)
Definition sim_fuel (l : list WorkloadRequest) : nat :=
  Z.to_nat (sum_Z ((fun w => max_tokens w + 2) <$> l) + 2).
