(* ===== verification/Analysis.v ===== *)
(** * The post-run analysis: [apps/tokamak/analysis.h], [analysis.cpp]

    Invariant checks over the request summaries, latency percentiles and
    throughput.  Differences of instants are checked signed subtractions;
    indexing a vector out of range and converting an out-of-range double are
    undefined, so the statistics are [outcome]s and a theorem says they are
    defined. *)

From stdpp Require Import pretty.
From S2P Require Import Prelude Clock RequestState RequestLifecycle Request Double Simulation.

Record InvariantViolation := mkViolation { request_id : RequestId; description : string }.

Record LatencyStats := mkLatencyStats {
  ttft_p50 : double; ttft_p90 : double; ttft_p99 : double;
  ttft_min : double; ttft_mean : double; ttft_max : double;
  e2e_p50 : double; e2e_p90 : double; e2e_p99 : double;
  e2e_min : double; e2e_mean : double; e2e_max : double;
}.

Record ThroughputStats := mkThroughputStats {
  throughput_tokens_per_sec : double;
  goodput_tokens_per_sec : double;
  slo_attainment_rate : double;
}.

(** ** [check_invariants] *)

(** [a && b && *b < *a]: both present and out of order. *)
Definition out_of_order (a b : option TimePoint) : bool :=
  match a, b with Some a, Some b => b <? a | _, _ => false end.

(** The violations of one request, in the order of the checks. *)
Definition request_violations (r : RequestSummary) : list InvariantViolation :=
  (if negb (is_terminal (final_state r)) then
     [mkViolation (summary_id r)
        ("request did not reach a terminal state (final state: " +:+
         to_string (final_state r) +:+ ")")] else []) ++
  (if max_output_tokens r <? output_tokens_emitted r then
     [mkViolation (summary_id r)
        ("output_tokens_emitted (" +:+ pretty (output_tokens_emitted r) +:+
         ") exceeded max_output_tokens (" +:+ pretty (max_output_tokens r) +:+ ")")] else []) ++
  (if out_of_order (admitted_at r) (first_token_at r) then
     [mkViolation (summary_id r) "first_token_at occurred before admitted_at"] else []) ++
  (if out_of_order (first_token_at r) (completed_at r) then
     [mkViolation (summary_id r) "completed_at occurred before first_token_at"] else []) ++
  (if out_of_order (admitted_at r) (completed_at r) then
     [mkViolation (summary_id r) "completed_at occurred before admitted_at"] else []).

Fixpoint check_invariants (requests : list RequestSummary) : list InvariantViolation :=
  match requests with
  | [] => []
  | r :: requests => request_violations r ++ check_invariants requests
  end.

(** ** Latency *)

Definition nth_value (l : list double) (i : Z) : outcome double :=
  or_undef "vector index out of range" (l !! Z.to_nat i).

Definition percentile (sorted_values : list double) (p : double) : outcome double :=
  if size_of sorted_values =? 1 then nth_value sorted_values 0
  else
    let rank := dmul (ddiv p (double_of_Z 100))
                  (double_of_Z (u64 (size_of sorted_values - 1))) in
    lower ← double_floor rank;
    upper ← double_ceil rank;
    let weight := dsub rank (double_of_Z lower) in
    lo ← nth_value sorted_values lower;
    hi ← nth_value sorted_values upper;
    Ok (dadd lo (dmul weight (dsub hi lo))).

(** The two collecting loops of [compute_latency_stats]: the milliseconds from
    [from] to [to] of the requests that reached both. *)
Fixpoint collect_ms (from to : RequestSummary -> option TimePoint)
    (requests : list RequestSummary) : outcome (list double) :=
  match requests with
  | [] => Ok []
  | r :: requests =>
      match from r, to r with
      | Some a, Some b =>
          d ← i64_sub b a;
          rest ← collect_ms from to requests;
          Ok (to_ms d :: rest)
      | _, _ => collect_ms from to requests
      end
  end.

(** [std::sort] on doubles (none is NaN): the ascending order. *)
Definition sort_doubles : list double -> list double := merge_sort double_le.

(** [std::accumulate(begin, end, 0.0)] *)
Definition accumulate (l : list double) : double := foldl dadd (Finite 0) l.

(** p50, p90, p99, min, mean and max of a sorted list; all zero when empty. *)
Definition distribution (sorted : list double)
  : outcome (double * double * double * double * double * double) :=
  match sorted with
  | [] => Ok (Finite 0, Finite 0, Finite 0, Finite 0, Finite 0, Finite 0)
  | front :: _ =>
      p50 ← percentile sorted (double_of_Z 50);
      p90 ← percentile sorted (double_of_Z 90);
      p99 ← percentile sorted (double_of_Z 99);
      back ← nth_value sorted (size_of sorted - 1);
      Ok (p50, p90, p99, front,
          ddiv (accumulate sorted) (double_of_Z (size_of sorted)), back)
  end.

Definition compute_latency_stats (requests : list RequestSummary) : outcome LatencyStats :=
  ttft_ms ← collect_ms admitted_at first_token_at requests;
  e2e_ms ← collect_ms admitted_at completed_at requests;
  let ttft_ms := sort_doubles ttft_ms in
  let e2e_ms := sort_doubles e2e_ms in
  '(t50, t90, t99, tmin, tmean, tmax) ← distribution ttft_ms;
  '(e50, e90, e99, emin, emean, emax) ← distribution e2e_ms;
  Ok (mkLatencyStats t50 t90 t99 tmin tmean tmax e50 e90 e99 emin emean emax).

(** ** Throughput *)

Definition met_deadline (r : RequestSummary) : bool :=
  match completed_at r with Some c => c <=? deadline_at r | None => false end.

(** [std::size_t] sums: the tokens of all requests, the terminal requests, those
    that met their deadline and the tokens of the latter. *)
Fixpoint total_tokens (acc : Z) (requests : list RequestSummary) : Z :=
  match requests with
  | [] => acc
  | r :: requests => total_tokens (u64 (acc + output_tokens_emitted r)) requests
  end.

Fixpoint attainment (terminal attaining good : Z) (requests : list RequestSummary) : Z * Z * Z :=
  match requests with
  | [] => (terminal, attaining, good)
  | r :: requests =>
      if negb (is_terminal (final_state r)) then attainment terminal attaining good requests
      else if met_deadline r then
        attainment (u64 (terminal + 1)) (u64 (attaining + 1))
          (u64 (good + output_tokens_emitted r)) requests
      else attainment (u64 (terminal + 1)) attaining good requests
  end.

Definition compute_throughput_stats (requests : list RequestSummary) (sim_wall_time : Duration)
  : ThroughputStats :=
  let wall_time_sec := to_sec sim_wall_time in
  let total := total_tokens 0 requests in
  let '(terminal_count, attaining_count, good_tokens) := attainment 0 0 0 requests in
  let rate (tokens : Z) :=
    if dltb (Finite 0) wall_time_sec then ddiv (double_of_Z tokens) wall_time_sec
    else Finite 0 in
  mkThroughputStats (rate total) (rate good_tokens)
    (if 0 <? terminal_count then ddiv (double_of_Z attaining_count) (double_of_Z terminal_count)
     else Finite 0).

(** ** Properties *)

(** What the three invariants say of a request. *)
Definition healthy (r : RequestSummary) : Prop :=
  is_terminal (final_state r) = true /\
  output_tokens_emitted r <= max_output_tokens r /\
  (forall a f, admitted_at r = Some a -> first_token_at r = Some f -> a <= f) /\
  (forall f c, first_token_at r = Some f -> completed_at r = Some c -> f <= c) /\
  (forall a c, admitted_at r = Some a -> completed_at r = Some c -> a <= c).

Lemma out_of_order_false a b :
  out_of_order a b = false <-> forall x y, a = Some x -> b = Some y -> x <= y.
Proof.
  destruct a as [x|], b as [y|]; simpl; try naive_solver.
  rewrite Z.ltb_ge. naive_solver.
Qed.

Lemma app_nil_iff {A} (l k : list A) : l ++ k = [] <-> l = [] /\ k = [].
Proof. destruct l; naive_solver. Qed.

Lemma request_violations_nil r : request_violations r = [] <-> healthy r.
Proof.
  unfold request_violations, healthy. rewrite !app_nil_iff, <- !out_of_order_false.
  rewrite <- Z.ltb_ge.
  destruct (is_terminal (final_state r)), (max_output_tokens r <? output_tokens_emitted r),
    (out_of_order (admitted_at r) (first_token_at r)),
    (out_of_order (first_token_at r) (completed_at r)),
    (out_of_order (admitted_at r) (completed_at r)); simpl; naive_solver.
Qed.

Lemma check_invariants_app l k : check_invariants (l ++ k) = check_invariants l ++ check_invariants k.
Proof. induction l as [|r l IH]; [done|]. simpl. by rewrite IH, app_assoc. Qed.

Lemma check_invariants_nil l : check_invariants l = [] <-> Forall healthy l.
Proof.
  induction l as [|r l IH]; simpl; [done|].
  by rewrite app_nil_iff, request_violations_nil, IH, Forall_cons.
Qed.

(** C32. The invariant check is exact: it reports nothing exactly when every
    request is terminal, within its budget and has its milestones in order, and
    every violation it reports names a request of the run that breaks one of
    the three. *)
Theorem check_invariants_exact (requests : list RequestSummary) :
  (check_invariants requests = [] <-> Forall healthy requests) /\
  (forall v, v ∈ check_invariants requests ->
     exists r, r ∈ requests /\ request_id v = summary_id r /\ ~ healthy r).
Proof.
  split; [apply check_invariants_nil|]. intros v Hv.
  induction requests as [|r requests IH]; simpl in Hv; [by apply not_elem_of_nil in Hv|].
  apply elem_of_app in Hv as [Hv|Hv].
  - exists r. split; [set_solver|]. split.
    + unfold request_violations in Hv. rewrite !elem_of_app in Hv.
      destruct Hv as [Hv|[Hv|[Hv|[Hv|Hv]]]];
        match type of Hv with _ ∈ (if ?b then _ else _) => destruct b end;
        (apply list_elem_of_singleton in Hv as -> || by apply not_elem_of_nil in Hv); done.
    + intros Hh%request_violations_nil. rewrite Hh in Hv. by apply not_elem_of_nil in Hv.
  - destruct (IH Hv) as (r' & ? & ? & ?). exists r'. split; [set_solver|done].
Qed.

(** ** Throughput *)

Definition token_sum (l : list RequestSummary) : Z := sum_Z (output_tokens_emitted <$> l).

Lemma token_sum_cons r l : token_sum (r :: l) = output_tokens_emitted r + token_sum l.
Proof. done. Qed.

Lemma token_sum_nonneg l : Forall (fun r => 0 <= output_tokens_emitted r) l -> 0 <= token_sum l.
Proof. intros H. by apply sum_Z_nonneg, Forall_fmap. Qed.

Lemma total_tokens_exact acc l :
  0 <= acc -> Forall (fun r => 0 <= output_tokens_emitted r) l ->
  acc + token_sum l < 2 ^ 64 -> total_tokens acc l = acc + token_sum l.
Proof.
  intros Hacc Hl. revert acc Hacc. induction Hl as [|r l Hr Hl IH]; intros acc Hacc Hs; simpl.
  - unfold token_sum. simpl. lia.
  - rewrite token_sum_cons in *. pose proof (token_sum_nonneg l Hl).
    rewrite u64_small by lia. rewrite IH; lia.
Qed.

(** The counts of terminal and attaining requests and the good tokens. *)
Definition terminal_of (l : list RequestSummary) : list RequestSummary :=
  filter (fun r => is_terminal (final_state r) = true) l.
Definition attaining_of (l : list RequestSummary) : list RequestSummary :=
  filter (fun r => is_terminal (final_state r) && met_deadline r = true) l.

Lemma terminal_of_cons r l :
  terminal_of (r :: l) = if is_terminal (final_state r) then r :: terminal_of l else terminal_of l.
Proof.
  unfold terminal_of. destruct (is_terminal (final_state r)) eqn:E.
  - by apply filter_cons_True.
  - apply filter_cons_False. by rewrite E.
Qed.

Lemma attaining_of_cons r l :
  attaining_of (r :: l) =
    if is_terminal (final_state r) && met_deadline r then r :: attaining_of l else attaining_of l.
Proof.
  unfold attaining_of. destruct (is_terminal (final_state r) && met_deadline r) eqn:E.
  - by apply filter_cons_True.
  - apply filter_cons_False. by rewrite E.
Qed.

Lemma attainment_exact t a g l :
  0 <= t -> 0 <= a -> 0 <= g -> Forall (fun r => 0 <= output_tokens_emitted r) l ->
  t + size_of l < 2 ^ 64 -> a + size_of l < 2 ^ 64 -> g + token_sum l < 2 ^ 64 ->
  attainment t a g l =
    (t + size_of (terminal_of l), a + size_of (attaining_of l), g + token_sum (attaining_of l)).
Proof.
  intros Ht Ha Hg Hl. revert t a g Ht Ha Hg.
  induction Hl as [|r l Hr Hl IH]; intros t a g Ht Ha Hg Hs1 Hs2 Hs3.
  - unfold terminal_of, attaining_of, size_of, token_sum. simpl.
    by rewrite !Z.add_0_r.
  - rewrite size_of_cons in *. rewrite token_sum_cons in *. pose proof (token_sum_nonneg l Hl).
    pose proof (size_of_nonneg l). cbn [attainment].
    rewrite terminal_of_cons, attaining_of_cons.
    destruct (is_terminal (final_state r)), (met_deadline r); cbn [andb negb];
      rewrite ?u64_small by lia; rewrite IH by lia; rewrite ?size_of_cons, ?token_sum_cons;
      repeat match goal with |- (_, _) = (_, _) => apply f_equal2 end; lia.
Qed.

Lemma size_of_filter_le (P : RequestSummary -> Prop) `{!forall x, Decision (P x)} l :
  size_of (filter P l) <= size_of l.
Proof. unfold size_of. pose proof (length_filter P l). lia. Qed.

Lemma attaining_le_terminal l : size_of (attaining_of l) <= size_of (terminal_of l).
Proof.
  induction l as [|r l IH]; [done|]. rewrite terminal_of_cons, attaining_of_cons.
  destruct (is_terminal (final_state r)), (met_deadline r); cbn [andb];
    rewrite ?size_of_cons; lia.
Qed.

Lemma good_le_total l :
  Forall (fun r => 0 <= output_tokens_emitted r) l ->
  0 <= token_sum (attaining_of l) <= token_sum l.
Proof.
  induction 1 as [|r l Hr Hl IH]; [done|]. rewrite token_sum_cons, attaining_of_cons.
  destruct (is_terminal (final_state r) && met_deadline r); rewrite ?token_sum_cons; lia.
Qed.

(** C33. Throughput, goodput and attainment are the quotients ADR-010 names, and
    they are consistent: goodput never exceeds throughput and the attainment
    rate lies between zero and one, rounding included. *)
Theorem throughput_consistent (l : list RequestSummary) (wall : Duration) :
  Forall (fun r => 0 <= output_tokens_emitted r) l -> token_sum l < 2 ^ 64 ->
  size_of l < 2 ^ 53 -> 0 < wall <= INT64_MAX ->
  let st := compute_throughput_stats l wall in
  throughput_tokens_per_sec st = ddiv (double_of_Z (token_sum l)) (to_sec wall) /\
  goodput_tokens_per_sec st = ddiv (double_of_Z (token_sum (attaining_of l))) (to_sec wall) /\
  dleb (goodput_tokens_per_sec st) (throughput_tokens_per_sec st) = true /\
  dleb (Finite 0) (slo_attainment_rate st) = true /\
  dleb (slo_attainment_rate st) (double_of_Z 1) = true.
Proof.
  intros Hl Htok Hlen Hwall. unfold compute_throughput_stats. cbv zeta.
  rewrite total_tokens_exact by (done || lia).
  rewrite attainment_exact by (done || lia). rewrite !Z.add_0_l.
  destruct (to_sec_positive wall Hwall) as (w & Hw & Hpos). rewrite Hw.
  simpl dltb. rewrite (proj2 (Z.ltb_lt 0 w) Hpos).
  pose proof (good_le_total l Hl) as Hgood. pose proof (attaining_le_terminal l) as Hat.
  pose proof (size_of_nonneg (attaining_of l)) as Ha0.
  pose proof (size_of_filter_le (fun r => is_terminal (final_state r) = true) l) as Htl.
  fold (terminal_of l) in Htl. cbn -[ddiv double_of_Z dleb].
  split; [done|]. split; [done|]. split; [|].
  - destruct (double_of_Z_finite (token_sum l)) as [-> H1]; [lia|].
    destruct (double_of_Z_finite (token_sum (attaining_of l))) as [-> H2]; [lia|].
    apply ddiv_mono; [done|by apply double_of_Z_mono|done].
  - destruct (Z.ltb_spec 0 (size_of (terminal_of l))) as [Ht|Ht].
    + rewrite !double_of_Z_exact by lia. apply ratio_bounds; lia.
    + by rewrite double_of_Z_exact.
Qed.

(** ** Latency *)

Lemma between_finite (a b : Z) (d : double) :
  dleb (Finite a) d = true -> dleb d (Finite b) = true -> exists x, d = Finite x /\ a <= x <= b.
Proof.
  destruct d as [x|[]|]; simpl; try done. rewrite !Z.leb_le. eauto.
Qed.

(** The rank of a percentile stays within the indices of the vector. *)
Lemma rank_range (k m : Z) :
  0 <= k <= 100 -> 0 <= m < 2 ^ 53 ->
  exists x, dmul (ddiv (double_of_Z k) (double_of_Z 100)) (double_of_Z m) = Finite x /\
    0 <= x <= m * one_units.
Proof.
  intros Hk Hm. rewrite !double_of_Z_exact by lia. pose proof one_units_pos as P.
  destruct (ratio_bounds k 100) as [H1 H2]; [lia|lia|].
  destruct (between_finite _ _ _ H1 H2) as (v & -> & Hv). cbn [dmul].
  assert (E : rnd (m * 2 ^ unit_exp * one_units) one_units = Finite (m * one_units)).
  { apply rnd_exact; [lia|unfold unit_exp; lia|done|]. apply small_no_overflow.
    change (2 ^ 64) with (2 ^ 53 * 2048). lia. }
  apply between_finite.
  - assert (E0 : rnd 0 one_units = Finite 0)
      by (rewrite rnd_nonneg, rnd_units_zero by lia; by destruct (Z.leb_spec overflow_units 0)).
    rewrite <- E0. apply rnd_mono; try lia; nia.
  - rewrite <- E. fold one_units. apply rnd_mono; try lia; nia.
Qed.

Lemma nth_value_defined (l : list double) (i : Z) :
  0 <= i < size_of l -> exists v, nth_value l i = Ok v.
Proof.
  intros Hi. unfold nth_value, size_of in *.
  destruct (lookup_lt_is_Some_2 l (Z.to_nat i)) as [v ->]; [lia|]. simpl. eauto.
Qed.

Lemma percentile_defined (l : list double) (k : Z) :
  0 <= k <= 100 -> 0 < size_of l < 2 ^ 53 -> exists v, percentile l (double_of_Z k) = Ok v.
Proof.
  intros Hk Hn. unfold percentile. destruct (Z.eqb_spec (size_of l) 1) as [|Hne].
  { apply nth_value_defined. lia. }
  rewrite u64_small by lia. set (m := size_of l - 1) in *.
  destruct (rank_range k m Hk) as (x & -> & Hx); [lia|]. pose proof one_units_pos as P.
  assert (Hlo : 0 <= x / one_units <= m).
  { split; [apply Z.div_pos; lia|]. apply Z.div_le_upper_bound; lia. }
  assert (Hhi : 0 <= - (- x / one_units) <= m).
  { split.
    - assert (- x / one_units <= 0) by (apply Z.div_le_upper_bound; lia). lia.
    - assert (- m <= - x / one_units) by (apply Z.div_le_lower_bound; lia). lia. }
  assert (m < 2 ^ 64) by lia.
  cbv zeta. unfold double_floor, double_ceil. cbv zeta.
  rewrite (proj2 (Z.leb_le 0 (x / one_units))), (proj2 (Z.ltb_lt (x / one_units) (2 ^ 64))) by lia.
  cbn [andb mbind outcome_bind].
  rewrite (proj2 (Z.leb_le 0 (- (- x / one_units)))),
    (proj2 (Z.ltb_lt (- (- x / one_units)) (2 ^ 64))) by lia.
  cbn [andb mbind outcome_bind].
  destruct (nth_value_defined l (x / one_units)) as [lo ->]; [lia|]. cbn [mbind outcome_bind].
  destruct (nth_value_defined l (- (- x / one_units))) as [hi ->]; [lia|].
  cbn [mbind outcome_bind]. eauto.
Qed.

(** A milestone a 64-bit clock that starts at its epoch can record. *)
Definition valid_instant (o : option TimePoint) : Prop :=
  forall x, o = Some x -> 0 <= x <= INT64_MAX.

Lemma collect_ms_ok from to l :
  Forall (fun r => valid_instant (from r) /\ valid_instant (to r)) l ->
  exists vs, collect_ms from to l = Ok vs /\ size_of vs <= size_of l /\
    (forall v, v ∈ vs -> exists r a b, r ∈ l /\ from r = Some a /\ to r = Some b /\ v = to_ms (b - a)).
Proof.
  induction 1 as [|r l [Hf Ht] Hl IH]; simpl; [by exists []; set_solver|].
  destruct IH as (vs & E & Hlen & Hvs). rewrite size_of_cons.
  destruct (from r) as [a|] eqn:Ea; [|exists vs; set_solver by lia].
  destruct (to r) as [b|] eqn:Eb; [|exists vs; set_solver by lia].
  specialize (Hf a eq_refl). specialize (Ht b eq_refl).
  rewrite (proj2 (i64_sub_Ok b a (b - a))) by (unfold INT64_MIN, INT64_MAX in *; lia).
  cbn [mbind outcome_bind]. rewrite E. cbn [mbind outcome_bind].
  eexists. split; [done|]. rewrite size_of_cons. split; [lia|].
  intros v [->|Hv]%elem_of_cons; [exists r, a, b; set_solver|].
  destruct (Hvs v Hv) as (r' & a' & b' & ? & ? & ? & ?). exists r', a', b'. set_solver.
Qed.

(** A non-negative finite number of milliseconds. *)
Definition duration_value (v : double) : Prop := exists x, v = Finite x /\ 0 <= x.

Lemma distribution_ok (l : list double) :
  StronglySorted double_le l -> Forall duration_value l -> size_of l < 2 ^ 53 ->
  exists p50 p90 p99 mn mean mx, distribution l = Ok (p50, p90, p99, mn, mean, mx) /\
    dleb (Finite 0) mn = true /\ dleb mn mx = true.
Proof.
  intros Hs Hv Hlen. destruct l as [|front l]; [by eexists _, _, _, _, _, _|].
  assert (Hn : 0 < size_of (front :: l) < 2 ^ 53)
    by (rewrite size_of_cons in *; pose proof (size_of_nonneg l); lia).
  unfold distribution.
  destruct (percentile_defined (front :: l) 50 ltac:(lia) Hn) as [p50 ->].
  destruct (percentile_defined (front :: l) 90 ltac:(lia) Hn) as [p90 ->].
  destruct (percentile_defined (front :: l) 99 ltac:(lia) Hn) as [p99 ->].
  cbn [mbind outcome_bind].
  destruct (nth_value_defined (front :: l) (size_of (front :: l) - 1)) as [back E]; [lia|].
  rewrite E. cbn [mbind outcome_bind]. eexists _, _, _, _, _, _. split; [done|].
  apply or_undef_Ok in E. apply list_elem_of_lookup_2 in E.
  pose proof (proj1 (Forall_forall _ _) Hv) as Hval.
  destruct (Hval front ltac:(set_solver)) as (x & -> & Hx).
  destruct (Hval back E) as (y & -> & Hy). split; [by apply Z.leb_le|].
  apply elem_of_cons in E as [[= ->]|E]; [by apply Z.leb_le|].
  apply double_le_finite. apply StronglySorted_inv in Hs as [_ Hs].
  by apply (proj1 (Forall_forall _ _) Hs).
Qed.

Lemma sorted_durations_ok from to l :
  Forall (fun r => valid_instant (from r) /\ valid_instant (to r)) l ->
  Forall (fun r => forall a b, from r = Some a -> to r = Some b -> a <= b) l ->
  size_of l < 2 ^ 53 ->
  exists vs p50 p90 p99 mn mean mx, collect_ms from to l = Ok vs /\
    distribution (sort_doubles vs) = Ok (p50, p90, p99, mn, mean, mx) /\
    dleb (Finite 0) mn = true /\ dleb mn mx = true.
Proof.
  intros Hvalid Hord Hlen. destruct (collect_ms_ok from to l Hvalid) as (vs & E & Hl & Hvs).
  assert (Hperm : Permutation (sort_doubles vs) vs) by apply merge_sort_Permutation.
  destruct (distribution_ok (sort_doubles vs)) as (p50 & p90 & p99 & mn & mean & mx & H).
  - apply StronglySorted_merge_sort; apply _.
  - rewrite Hperm. apply Forall_forall. intros v Hv.
    destruct (Hvs v Hv) as (r & a & b & Hr & Ha & Hb & ->).
    pose proof (proj1 (Forall_forall _ _) Hvalid r Hr) as [Hva Hvb].
    pose proof (proj1 (Forall_forall _ _) Hord r Hr a b Ha Hb).
    specialize (Hva a Ha). specialize (Hvb b Hb). apply to_ms_finite. lia.
  - unfold size_of in *. rewrite Hperm. lia.
  - by exists vs, p50, p90, p99, mn, mean, mx.
Qed.

Lemma latency_stats_ok (l : list RequestSummary) :
  Forall healthy l ->
  Forall (fun r => valid_instant (admitted_at r) /\ valid_instant (first_token_at r) /\
                   valid_instant (completed_at r)) l ->
  size_of l < 2 ^ 53 ->
  exists st, compute_latency_stats l = Ok st /\
    dleb (Finite 0) (ttft_min st) = true /\ dleb (ttft_min st) (ttft_max st) = true /\
    dleb (Finite 0) (e2e_min st) = true /\ dleb (e2e_min st) (e2e_max st) = true.
Proof.
  intros Hh Hv Hlen.
  destruct (sorted_durations_ok admitted_at first_token_at l) as
    (v1 & a1 & a2 & a3 & mn1 & me1 & mx1 & E1 & D1 & H1 & H1'); [..|done|].
  { eapply Forall_impl; [exact Hv|]. naive_solver. }
  { eapply Forall_impl; [exact Hh|]. intros r Hr. apply Hr. }
  destruct (sorted_durations_ok admitted_at completed_at l) as
    (v2 & b1 & b2 & b3 & mn2 & me2 & mx2 & E2 & D2 & H2 & H2'); [..|done|].
  { eapply Forall_impl; [exact Hv|]. naive_solver. }
  { eapply Forall_impl; [exact Hh|]. intros r Hr. apply Hr. }
  unfold compute_latency_stats. rewrite E1, E2. cbn [mbind outcome_bind].
  rewrite D1, D2. cbn [mbind outcome_bind]. by eexists.
Qed.

(** The latency statistics of a healthy run are always defined - no index
    past the end of a vector, no undefined conversion or overflow, whatever the
    number of samples - and the reported minimum is non-negative and not above
    the reported maximum. *)
Theorem latency_stats_defined (l : list RequestSummary) :
  Forall healthy l ->
  Forall (fun r => valid_instant (admitted_at r) /\ valid_instant (first_token_at r) /\
                   valid_instant (completed_at r)) l ->
  size_of l < 2 ^ 53 ->
  exists st, compute_latency_stats l = Ok st /\
    dleb (Finite 0) (ttft_min st) = true /\ dleb (ttft_min st) (ttft_max st) = true /\
    dleb (Finite 0) (e2e_min st) = true /\ dleb (e2e_min st) (e2e_max st) = true.
Proof. apply latency_stats_ok. Qed.

(** ** Witnesses *)

Definition demo_summaries : list RequestSummary :=
  [mkRequestSummary "a" kCompleted 100000000 (Some 0) (Some 0) (Some 2000000) (Some 2000000)
     (Some 2000000) (Some 7000000) (Some 12000000) 2 2;
   mkRequestSummary "b" kFailed 1000000 (Some 0) (Some 0) (Some 7000000) None None None None 0 3].

Lemma demo_healthy : Forall healthy demo_summaries.
Proof. apply check_invariants_nil. reflexivity. Qed.

Lemma throughput_consistent_witness :
  dleb (goodput_tokens_per_sec (compute_throughput_stats demo_summaries 12000000))
       (throughput_tokens_per_sec (compute_throughput_stats demo_summaries 12000000)) = true.
Proof.
  destruct (throughput_consistent demo_summaries 12000000) as (_ & _ & H & _).
  - repeat constructor; simpl; lia.
  - vm_compute. reflexivity.
  - vm_compute. reflexivity.
  - unfold INT64_MAX. lia.
  - exact H.
Defined.

Lemma latency_stats_defined_witness :
  exists st, compute_latency_stats demo_summaries = Ok st /\
    dleb (ttft_min st) (ttft_max st) = true.
Proof.
  destruct (latency_stats_defined demo_summaries demo_healthy) as (st & E & _ & H & _).
  - unfold valid_instant, INT64_MAX.
    apply Forall_cons; split; [|apply Forall_cons; split; [|by apply Forall_nil]];
      simpl; split_and!; intros; simplify_eq; lia.
  - vm_compute. reflexivity.
  - exists st. exact (conj E H).
Defined.
