(* ===== verification/SimulationProperties.v ===== *)
(** * The properties of the simulation

    Termination and service of the whole run, the agreement of its summaries
    with the invariant check, and the workload on which the loop does not end. *)

From S2P Require Import Prelude Clock RequestState RequestLifecycle Request Backend MockBackend FifoScheduler SchedulerInvariant SchedulerCorrect SchedulerSpec Double Workload Simulation SimulationCorrect Analysis.

Section Run.
Context (last : TimePoint) (workload : list WorkloadRequest).
Hypothesis Hgood : good_workload last workload.

Lemma sim_start_measure b :
  measure workload (sim_start_state b) < Z.of_nat (sim_fuel workload).
Proof.
  unfold measure, units, sim_fuel. simpl. rewrite drop_0.
  assert (work (abs new_scheduler) = 0) as -> by done.
  assert (0 <= sum_Z ((fun w => max_tokens w + 2) <$> workload)).
  { apply sum_Z_nonneg, Forall_fmap. eapply Forall_impl; [apply (gw_budget _ _ Hgood)|].
    intros w Hw. cbn beta in Hw. simpl. lia. }
  destruct (must_jump _ _); lia.
Qed.

(** A request that is no longer active is healthy. *)
Lemma summary_healthy s w p r :
  sched_inv ∅ s w -> requests_ s !! p = Some r -> ~ active s p -> healthy (summarize r).
Proof.
  intros Hinv Hr Hn. pose proof (inv_wf _ _ _ Hinv p r Hr) as Hwf.
  pose proof (req_lifecycle _ _ Hwf) as Hlc. unfold healthy, summarize. simpl.
  split; [by apply (inv_rest _ _ _ Hinv p)|]. split; [apply (req_budget _ _ Hwf)|].
  split; [|split].
  - intros a f. by eapply first_after_admitted.
  - intros f c. by eapply completed_after_first.
  - intros a c. by eapply completed_after_admitted.
Qed.

Lemma sim_end_quiet st :
  sim_running workload st = false -> sim_inv last workload st ->
  next_to_submit st = length workload /\ forall p, ~ active (scheduler st) p.
Proof.
  unfold sim_running. intros [Hn Hw]%orb_false_iff Hinv.
  apply Nat.ltb_ge in Hn. pose proof (si_next _ _ _ Hinv). split; [lia|].
  intros p Hp.
  assert (has_work st = true); [|congruence].
  apply has_work_active. unfold active in Hp.
  destruct (waiting_ (scheduler st)); [|by left].
  destruct (decoding_ (scheduler st)); [by apply not_elem_of_nil in Hp|by right].
Qed.

(** The whole run: the loop ends in an idle state that has submitted the
    workload, and the result is read off that state. *)
Lemma run_ends (trace_writer : bool) :
  exists st, sim_inv last workload st /\ next_to_submit st = length workload /\
    (forall p, ~ active (scheduler st) p) /\
    (is_Some (trace_ st) <-> trace_writer = true) /\
    run_simulation (sim_fuel workload) (Ok workload) trace_writer =
      Some (Ok (mkSimulationResult (sim_reports st) (summarize <$> requests_ (scheduler st)),
                trace_ st)).
Proof.
  pose proof (sim_start_inv _ _ Hgood trace_writer) as Hstart.
  destruct (sim_loop_ok _ _ Hgood (sim_fuel workload) _ Hstart (sim_start_measure trace_writer))
    as (st & E & Hinv & Hrun).
  destruct (sim_end_quiet st Hrun Hinv) as [Hnext Hidle]. exists st.
  pose proof (si_length _ _ _ Hinv) as Hlen. rewrite Hnext in Hlen.
  split; [done|]. split; [done|]. split; [done|]. split.
  { rewrite (sim_loop_traced _ _ _ _ E). unfold sim_start_state. simpl.
    destruct trace_writer; split; try done. }
  unfold run_simulation. rewrite E. cbn [mbind outcome_bind].
  rewrite (si_submitted _ _ _ Hinv), Hnext, snapshot_ok, drop_0, take_ge by lia. done.
Qed.

Lemma run_healthy st : sim_inv last workload st -> (forall p, ~ active (scheduler st) p) ->
  Forall healthy (summarize <$> requests_ (scheduler st)).
Proof.
  intros Hinv Hidle. apply Forall_fmap, Forall_lookup. intros i r Hr.
  by eapply summary_healthy; [apply Hinv|..].
Qed.

(** C3. The simulation ends and serves the whole workload: within [sim_fuel]
    iterations the loop stops without panic, exception, failed assertion or
    undefined operation, the result has one summary per workload request, in
    order, with its id and budget, every one of them terminal, within budget
    and with ordered milestones, and the invariant check of the run is empty. *)
Theorem simulation_serves_workload (trace_writer : bool) :
  exists result trace,
    run_simulation (sim_fuel workload) (Ok workload) trace_writer = Some (Ok (result, trace)) /\
    length (summaries result) = length workload /\
    (forall i w, workload !! i = Some w -> exists sm, summaries result !! i = Some sm /\
       summary_id sm = w_id w /\ max_output_tokens sm = max_tokens w /\ healthy sm) /\
    check_invariants (summaries result) = [].
Proof.
  destruct (run_ends trace_writer) as (st & Hinv & Hnext & Hidle & _ & E).
  eexists _, _. split; [exact E|]. cbn [summaries].
  pose proof (si_length _ _ _ Hinv) as Hlen. rewrite Hnext in Hlen.
  rewrite length_fmap. split; [done|]. split; [|by apply check_invariants_nil, run_healthy].
  intros i w Hw. destruct (lookup_lt_is_Some_2 (requests_ (scheduler st)) i) as [r Hr].
  { rewrite Hlen. by eapply lookup_lt_Some. }
  exists (summarize r). rewrite list_lookup_fmap, Hr.
  destruct (si_requests _ _ _ Hinv i r Hr) as (w' & Hw' & Hid & Hm & _). simplify_eq.
  split_and!; try done. by eapply summary_healthy; [apply Hinv|..].
Qed.

End Run.

(** ** When the loop does not end *)

(** An iteration that finds the clock at the truncation of the next arrival,
    and the arrival not passed, changes nothing. *)
Lemma stalled_step workload st w :
  workload !! next_to_submit st = Some w -> has_work st = false ->
  0 <= now st <= INT64_MAX -> from_ms (arrival_ms w) = Ok (now st) ->
  dleb (arrival_ms w) (to_ms (now st)) = false ->
  sim_running workload st = true /\ sim_step workload st = Ok st.
Proof.
  intros Hw Hidle Hnow Ha Hlate. split.
  { unfold sim_running. apply orb_true_iff. left. apply Nat.ltb_lt. by eapply lookup_lt_Some. }
  assert (Hsub : Ok st = submit_arrived (drop (next_to_submit st) workload) (to_ms (now st)) st).
  { rewrite (drop_S _ _ _ Hw). simpl. by rewrite Hlate. }
  unfold sim_step.
  rewrite (proj2 (i64_sub_Ok (now st) 0 (now st))) by (unfold INT64_MIN; lia).
  cbn [mbind outcome_bind]. rewrite <- Hsub. cbn [mbind outcome_bind].
  rewrite Hidle, Hw. unfold jump_to_arrival. rewrite Ha. cbn [mbind outcome_bind].
  rewrite (proj2 (i64_sub_Ok (now st) 0 (now st))) by (unfold INT64_MIN; lia).
  cbn [mbind outcome_bind].
  rewrite (proj2 (i64_sub_Ok (now st) (now st) 0)) by (unfold INT64_MIN, INT64_MAX; lia).
  cbn [mbind outcome_bind].
  rewrite (proj2 (advance_Ok 0 (mock_clock (sim_world st)) (mock_clock (sim_world st))))
    by (unfold now, fake_now, INT64_MIN in *; lia).
  by destruct st as [[c m] s sub n i r t].
Qed.

(** A loop at a fixed point of its body never ends. *)
Lemma loop_at_fixpoint workload st fuel :
  sim_running workload st = true -> sim_step workload st = Ok st ->
  sim_loop fuel workload st = None.
Proof. intros Hr Hs. induction fuel as [|fuel IH]; [done|]. simpl. by rewrite Hr, Hs. Qed.

(** C29. The idle jump can stall: if the clock stands at the truncation of the
    next arrival but before the arrival itself, and nothing is running, no
    number of iterations ever submits it - the loop of [run_simulation] never
    ends. *)
Theorem idle_jump_stalls workload st w :
  workload !! next_to_submit st = Some w -> has_work st = false ->
  0 <= now st <= INT64_MAX -> from_ms (arrival_ms w) = Ok (now st) ->
  dleb (arrival_ms w) (to_ms (now st)) = false ->
  forall fuel, sim_loop fuel workload st = None.
Proof.
  intros Hw Hidle Hnow Ha Hlate fuel.
  destruct (stalled_step _ _ _ Hw Hidle Hnow Ha Hlate) as [Hrun Hstep].
  by apply loop_at_fixpoint.
Qed.

(** ** Witnesses *)

Definition ms (k : Z) : double := Finite (k * one_units).

Definition demo_workload : list WorkloadRequest :=
  [mkWorkloadRequest "a" (ms 0) [1; 2] 2 (ms 100); mkWorkloadRequest "b" (ms 25) [3] 1 (ms 100)].

Lemma ms_arrival_fits (k last : Z) (w : WorkloadRequest) :
  arrival_ms w = ms k -> 0 <= k -> k * 1000000 <= last -> k * 1000000 < 2 ^ 53 -> arrival_fits last w.
Proof.
  intros E Hk Hl Hm. unfold arrival_fits, ms in *. rewrite E. exists (k * 1000000).
  rewrite to_ms_exact, from_ms_exact by done. simpl. split; [done|]. split; [lia|].
  apply Z.leb_refl.
Qed.

Lemma demo_good : good_workload 25000000 demo_workload.
Proof.
  split; try done.
  - by apply (bool_decide_unpack _).
  - repeat constructor; simpl; lia.
  - apply Forall_cons; split; [apply (ms_arrival_fits 0); [done|lia..]|].
    apply Forall_cons; split; [apply (ms_arrival_fits 25); [done|lia..]|by apply Forall_nil].
  - apply Forall_cons; split; [|apply Forall_cons; split; [|by apply Forall_nil]];
      (exists 100000000; split; [by apply (from_ms_exact 100)|]; vm_compute; split; congruence).
Qed.

Lemma simulation_serves_workload_witness :
  exists result trace, run_simulation (sim_fuel demo_workload) (Ok demo_workload) true
      = Some (Ok (result, trace)) /\
    length (summaries result) = 2%nat /\ check_invariants (summaries result) = [].
Proof.
  destruct (simulation_serves_workload 25000000 demo_workload demo_good true)
    as (result & trace & E & Hl & _ & Hc).
  exists result, trace. exact (conj E (conj Hl Hc)).
Defined.

(** An arrival with a fraction of a nanosecond, 143.2837465 ms. *)
Definition fractional_arrival : double :=
  Eval vm_compute in ddiv (double_of_Z 1432837465) (double_of_Z 10000000).

Definition fractional_workload : list WorkloadRequest :=
  [mkWorkloadRequest "a" fractional_arrival [1] 1 (ms 100)].

(** The state after the first jump. *)
Definition stalled_state : SimState :=
  mkSimState (mkMockWorld (mkFakeClock 143283746) (new_mock 1000000 5000000)) new_scheduler [] 0 0 []
    None.

Lemma fractional_first_step :
  sim_step fractional_workload (sim_start_state false) = Ok stalled_state.
Proof. vm_compute. reflexivity. Qed.

Lemma fractional_run fuel :
  run_simulation (S fuel) (Ok fractional_workload) false =
    match sim_loop fuel fractional_workload stalled_state with
    | None => None
    | Some o => Some (st ← o; l ← snapshot (submitted st) (scheduler st);
                      Ok (mkSimulationResult (sim_reports st) l, trace_ st))
    end.
Proof.
  unfold run_simulation, sim_loop. fold sim_loop.
  change (sim_running fractional_workload (sim_start_state false)) with true.
  by rewrite fractional_first_step.
Qed.

(** The clock stands at 143283746 ns, the arrival is half a nanosecond later. *)
Lemma stalled_state_stalls :
  from_ms fractional_arrival = Ok 143283746 /\
  dleb fractional_arrival (to_ms 143283746) = false.
Proof. split; vm_compute; reflexivity. Qed.

(** The run on this one-line workload never ends. *)
Lemma fractional_workload_never_ends :
  forall fuel, run_simulation fuel (Ok fractional_workload) false = None.
Proof.
  intros [|fuel]; [reflexivity|]. rewrite fractional_run.
  destruct stalled_state_stalls as [Hf Hl].
  destruct (stalled_step fractional_workload stalled_state
    (mkWorkloadRequest "a" fractional_arrival [1] 1 (ms 100)) eq_refl eq_refl)
    as [Hrun Hstep]; [vm_compute; split; congruence|exact Hf|exact Hl|].
  by rewrite loop_at_fixpoint.
Qed.

Lemma idle_jump_stalls_witness :
  sim_loop 1000 fractional_workload stalled_state = None.
Proof.
  destruct stalled_state_stalls as [Hf Hl].
  apply (idle_jump_stalls fractional_workload stalled_state
           (mkWorkloadRequest "a" fractional_arrival [1] 1 (ms 100)) eq_refl eq_refl);
    [vm_compute; split; congruence|exact Hf|exact Hl].
Defined.
