(* ===== verification/Main.v ===== *)
(** * The command line: [apps/tokamak/main.cpp]

    [main] parses its arguments, opens the trace file, runs the simulation and
    prints the report.  What it writes is data: the text of the two standard
    streams, the trace file and the exit status.  The JSON library and the file
    system are the parameters of the components it calls; the fuel is that of
    the simulation. *)

From stdpp Require Import pretty.
From S2P Require Import Prelude Clock RequestState RequestLifecycle Request Backend FifoScheduler Telemetry Double Workload Simulation Analysis.

(** ** [operator<<] on [double]

    The default formatting of a stream: six significant digits, rounded to
    nearest, trailing zeros removed, the exponent form outside [1e-4, 1e6). *)

(** [10 ^ e <= a], for [a] units of [2 ^ -1074]. *)
Definition reaches (a e : Z) : bool :=
  if 0 <=? e then one_units * 10 ^ e <=? a else one_units <=? a * 10 ^ (- e).

(** The decimal exponent of [a > 0]: an estimate from the binary one, adjusted. *)
Definition decimal_exponent (a : Z) : Z :=
  let e := (Z.log2 a - unit_exp) * 30103 / 100000 in
  if reaches a (e + 1) then e + 1 else if reaches a e then e else e - 1.

(** The six digits of [a] at exponent [e], rounded. *)
Definition six_digits (a e : Z) : Z :=
  if 5 <=? e then rne a (one_units * 10 ^ (e - 5)) else rne (a * 10 ^ (5 - e)) one_units.

Fixpoint strip_zeros (s : string) : string :=
  match s with
  | EmptyString => EmptyString
  | String c s =>
      match strip_zeros s with
      | EmptyString => if decide (c = Ascii.ascii_of_nat 48) then EmptyString else String c EmptyString
      | t => String c t
      end
  end.

Definition with_fraction (whole fraction : string) : string :=
  match strip_zeros fraction with EmptyString => whole | f => whole +:+ "." +:+ f end.

Definition zeros (n : nat) : string := String.concat "" (replicate n "0").

(** At least two digits. *)
Definition exponent_digits (e : Z) : string :=
  (if e <? 0 then "-" else "+") +:+ (if Z.abs e <? 10 then "0" else "") +:+ pretty (Z.abs e).

Definition show_positive (a : Z) : string :=
  let e := decimal_exponent a in
  let d := six_digits a e in
  let '(d, e) := if d =? 10 ^ 6 then (10 ^ 5, e + 1) else (d, e) in
  let digits := pretty d in
  let n := Z.to_nat (e + 1) in
  if (-4 <=? e) && (e <? 6) then
    if 0 <=? e then with_fraction (String.substring 0 n digits) (String.substring n (6 - n) digits)
    else with_fraction "0" (zeros (Z.to_nat (- e - 1)) +:+ digits)
  else with_fraction (String.substring 0 1 digits) (String.substring 1 5 digits)
       +:+ "e" +:+ exponent_digits e.

Definition show_double (x : double) : string :=
  match x with
  | Finite a =>
      if a =? 0 then "0" else if a <? 0 then "-" +:+ show_positive (- a) else show_positive a
  | Infinite s => if s then "-inf" else "inf"
  | NotANumber => "nan"
  end.

(** ** The report *)

Definition endl : string := String newline EmptyString.

Definition duration_ms_or_nan (from to : option TimePoint) : outcome double :=
  match from, to with
  | Some a, Some b => d ← i64_sub b a; Ok (to_ms d)
  | _, _ => Ok NotANumber
  end.

Definition is_nan (x : double) : bool := match x with NotANumber => true | _ => false end.

Definition print_ms (label : string) (value_ms : double) : string :=
  "    " +:+ label +:+ ": " +:+
  (if is_nan value_ms then "N/A" else show_double value_ms +:+ "ms") +:+ endl.

Definition print_usage (program_name : string) : string :=
  "usage: " +:+ program_name +:+ " <workload.jsonl> [--trace-out <path>]" +:+ endl.

(** The loops over [result.requests], [result.tick_reports] and [violations]. *)
Definition print_request (r : RequestSummary) : outcome string :=
  queue ← duration_ms_or_nan (waiting_prefill_at r) (prefilling_at r);
  prefill ← duration_ms_or_nan (prefilling_at r) (waiting_decode_at r);
  decode ← duration_ms_or_nan (decoding_at r) (completed_at r);
  ttft ← duration_ms_or_nan (admitted_at r) (first_token_at r);
  e2e ← duration_ms_or_nan (admitted_at r) (completed_at r);
  Ok ("  " +:+ summary_id r +:+ " [" +:+ to_string (final_state r) +:+ "]" +:+ endl +:+
      print_ms "queue_time" queue +:+ print_ms "prefill_time" prefill +:+
      print_ms "decode_time" decode +:+ print_ms "ttft" ttft +:+ print_ms "e2e" e2e).

Fixpoint print_requests (requests : list RequestSummary) : outcome string :=
  match requests with
  | [] => Ok ""
  | r :: requests =>
      text ← print_request r;
      rest ← print_requests requests;
      Ok (text +:+ rest)
  end.

Definition print_iteration (i : Z) (tr : TickReport) : string :=
  "  iter " +:+ pretty i +:+
  ": prefill_attempted=" +:+ pretty (prefill_attempted tr) +:+
  " prefill_succeeded=" +:+ pretty (prefill_succeeded tr) +:+
  " prefill_failed=" +:+ pretty (prefill_failed tr) +:+
  " prefill_tokens=" +:+ pretty (prefill_tokens tr) +:+
  " decode_attempted=" +:+ pretty (decode_attempted tr) +:+
  " decode_tokens=" +:+ pretty (decode_tokens tr) +:+
  " decode_completed=" +:+ pretty (decode_completed tr) +:+
  " decode_failed=" +:+ pretty (decode_failed tr) +:+
  " expired=" +:+ pretty (expired_count tr) +:+ endl.

Fixpoint print_iterations (i : Z) (reports : list TickReport) : string :=
  match reports with
  | [] => ""
  | tr :: reports => print_iteration i tr +:+ print_iterations (u64 (i + 1)) reports
  end.

Definition print_distribution (label : string) (p50 p90 p99 dmin dmean dmax : double) : string :=
  label +:+ " p50=" +:+ show_double p50 +:+ " p90=" +:+ show_double p90 +:+
  " p99=" +:+ show_double p99 +:+ " min=" +:+ show_double dmin +:+
  " mean=" +:+ show_double dmean +:+ " max=" +:+ show_double dmax +:+ endl.

Definition print_latency (l : LatencyStats) : string :=
  endl +:+ "=== Latency (ms) ===" +:+ endl +:+
  print_distribution "  TTFT:" (ttft_p50 l) (ttft_p90 l) (ttft_p99 l) (ttft_min l) (ttft_mean l) (ttft_max l) +:+
  print_distribution "  E2E: " (e2e_p50 l) (e2e_p90 l) (e2e_p99 l) (e2e_min l) (e2e_mean l) (e2e_max l).

Definition print_throughput (t : ThroughputStats) : string :=
  endl +:+ "=== Throughput ===" +:+ endl +:+
  "  throughput: " +:+ show_double (throughput_tokens_per_sec t) +:+ " tok/s" +:+ endl +:+
  "  goodput:    " +:+ show_double (goodput_tokens_per_sec t) +:+ " tok/s" +:+ endl +:+
  "  SLO attainment: " +:+ show_double (dmul (slo_attainment_rate t) (double_of_Z 100)) +:+ "%" +:+ endl.

Fixpoint print_violation_lines (violations : list InvariantViolation) : string :=
  match violations with
  | [] => ""
  | v :: violations =>
      "    " +:+ request_id v +:+ ": " +:+ description v +:+ endl +:+ print_violation_lines violations
  end.

Definition print_violations (violations : list InvariantViolation) : string :=
  endl +:+ "=== Invariant check ===" +:+ endl +:+
  match violations with
  | [] => "  PASSED" +:+ endl
  | _ => "  FAILED (" +:+ pretty (size_of violations) +:+ " violation(s)):" +:+ endl +:+
         print_violation_lines violations
  end.

Definition sim_wall_time (reports : list TickReport) : outcome Duration :=
  match last reports with
  | None => Ok 0
  | Some back => i64_sub (timestamp back) 0
  end.

(** Everything [main] prints once the simulation has ended, and its status. *)
Definition report (result : SimulationResult) : outcome (string * Z) :=
  breakdown ← print_requests (summaries result);
  latency ← compute_latency_stats (summaries result);
  wall ← sim_wall_time (tick_reports result);
  let throughput := compute_throughput_stats (summaries result) wall in
  let violations := check_invariants (summaries result) in
  Ok ("=== Per-request breakdown ===" +:+ endl +:+ breakdown +:+
      endl +:+ "=== Batch composition per iteration ===" +:+ endl +:+
      print_iterations 0 (tick_reports result) +:+
      print_latency latency +:+ print_throughput throughput +:+ print_violations violations,
      match violations with [] => 0 | _ => 1 end).

(** ** [main] *)

(** The arguments from [argv[2]] on: the last [--trace-out] wins, anything else
    is refused. *)
Fixpoint parse_args (args : list string) (trace_out_path : option string)
  : option (option string) :=
  match args with
  | [] => Some trace_out_path
  | arg :: args =>
      if bool_decide (arg = "--trace-out") then
        match args with
        | [] => None
        | path :: args => parse_args args (Some path)
        end
      else None
  end.

Record MainResult := mkMainResult {
  exit_code : Z;
  std_out : string;
  std_err : string;
  trace_file : option (string * string);     (** path and contents *)
}.

Section Main.
Context {json : Type} (parse : string -> parse_result json).
Context (get_string : string -> json -> option string).
Context (get_double : string -> json -> option double).
Context (get_u32s : string -> json -> option (list Z)).
Context (get_size : string -> json -> option Z).
Context (object : list (string * json_field) -> json) (dump : json -> string).
Context (open_file : string -> option string).
Context (std_sort : list WorkloadRequest -> list WorkloadRequest).
(** Whether a file can be opened for writing. *)
Context (open_for_writing : string -> bool).

Definition load (path : string) : outcome (list WorkloadRequest) :=
  load_workload parse get_string get_double get_u32s get_size open_file std_sort path.

(** The text the trace writer wrote. *)
Definition trace_text (trace : option (list TraceEvent)) : string :=
  match trace with None => "" | Some events => write_all object dump events "" end.

Definition main (fuel : nat) (argv : list string) : option (outcome MainResult) :=
  let usage := match argv with
               | program :: _ => Ok (mkMainResult 1 "" (print_usage program) None)
               | [] => Undef "null program name"
               end in
  match argv with
  | _ :: workload_path :: args =>
      match parse_args args None with
      | None => Some usage
      | Some trace_out_path =>
          if match trace_out_path with None => true | Some path => open_for_writing path end then
            match run_simulation fuel (load workload_path) (bool_decide (is_Some trace_out_path)) with
            | None => None
            | Some o =>
                Some ('(result, trace) ← o;
                      '(text, code) ← report result;
                      Ok (mkMainResult code text ""
                            ((fun path => (path, trace_text trace)) <$> trace_out_path)))
            end
          else
            Some (Ok (mkMainResult 1 ""
                        ("error: could not open trace output file: " +:+
                         default "" trace_out_path +:+ endl) None))
      end
  | _ => Some usage
  end.

End Main.
