(* ===== verification/MainProperties.v ===== *)
(** * The program from its command line to its exit status

    The theorems of the components composed: what [main] does with its
    arguments, and that a good workload is served to the end and reported with
    exit status zero. *)

From stdpp Require Import pretty.
From S2P Require Import Prelude Clock RequestState RequestLifecycle Request Backend FifoScheduler SchedulerInvariant Telemetry Double Workload Simulation SimulationCorrect Analysis SimulationProperties Main.

(** ** The arguments *)

(** A sequence of [--trace-out <path>] options, from [argv[2]] on. *)
Definition trace_options (paths : list string) : list string :=
  concat ((fun path => ["--trace-out"; path]) <$> paths).

Lemma parse_args_options paths trace :
  parse_args (trace_options paths) trace
    = Some (match last paths with Some path => Some path | None => trace end).
Proof.
  revert trace. induction paths as [|path paths IH]; intros trace; [done|].
  simpl. rewrite IH, last_cons. by destruct (last paths).
Qed.

Lemma parse_args_inv n args trace result :
  (length args <= n)%nat -> parse_args args trace = Some result ->
  exists paths, args = trace_options paths.
Proof.
  revert args trace. induction n as [|n IH]; intros args trace Hn H.
  { destruct args; [|simpl in Hn; lia]. by exists []. }
  destruct args as [|arg [|path args]]; [by exists []| |]; simpl in H;
    case_bool_decide as Harg; try done.
  apply IH in H as [paths ->]; [|simpl in Hn; lia]. exists (path :: paths). by rewrite Harg.
Qed.

(** The command lines the usage message describes ([print_usage]: at most one
    option), with the trace file they ask for. *)
Inductive documented_args : list string -> option string -> Prop :=
  | doc_none : documented_args [] None
  | doc_trace path : documented_args ["--trace-out"; path] (Some path).

(** C36. What the argument loop accepts is exactly a sequence of [--trace-out
    <path>] options, of which the last one wins; an option without its path, an
    unknown option or an extra argument is refused.  Every command line of the
    usage message is accepted with its meaning, but the loop accepts more than
    the usage message says: exactly the command lines that repeat the option. *)
Theorem parse_args_grammar args result :
  (parse_args args None = Some result <->
     exists paths, args = trace_options paths /\ result = last paths) /\
  (documented_args args result -> parse_args args None = Some result) /\
  (parse_args args None = Some result ->
     documented_args args result \/
     exists p1 p2 paths, args = trace_options (p1 :: p2 :: paths) /\ result = last (p2 :: paths)).
Proof.
  assert (Hiff : parse_args args None = Some result <->
    exists paths, args = trace_options paths /\ result = last paths).
  { split.
    - intros H. destruct (parse_args_inv _ _ _ _ (le_n _) H) as [paths ->].
      exists paths. split; [done|]. rewrite parse_args_options in H. injection H as <-.
      by destruct (last paths).
    - intros (paths & -> & ->). rewrite parse_args_options. by destruct (last paths). }
  split; [done|]. split.
  - intros Hdoc. apply Hiff. destruct Hdoc as [|path]; [by exists []|by exists [path]].
  - intros ([|p1 [|p2 paths]] & -> & ->)%Hiff; [left; constructor|left; constructor|right].
    by exists p1, p2, paths.
Qed.

(** ** The instants of a run *)

(** Every milestone of a request of the simulation lies between the epoch of
    the clock and its last reading. *)
Lemma milestone_valid t r s a :
  lifecycle_wf t (lifecycle_ r) -> t <= INT64_MAX ->
  entered_at kAdmitted (lifecycle_ r) = Some a -> 0 <= a -> (0 < rank s)%nat ->
  valid_instant (entered_at s (lifecycle_ r)).
Proof.
  intros Hwf Ht Ha Ha0 Hs x Hx. destruct (wf_past _ _ Hwf s x Hx) as [Hle _].
  pose proof (wf_now _ _ Hwf). split; [|lia].
  destruct (decide (s = kAdmitted)) as [->|Hne]; [assert (x = a) by congruence; lia|].
  assert (a <= x); [|lia]. eapply (wf_order _ _ Hwf kAdmitted s); [done|done|].
  destruct s; simpl in *; lia || done.
Qed.

Definition valid_summary (sm : RequestSummary) : Prop :=
  valid_instant (admitted_at sm) /\ valid_instant (waiting_prefill_at sm) /\
  valid_instant (prefilling_at sm) /\ valid_instant (waiting_decode_at sm) /\
  valid_instant (decoding_at sm) /\ valid_instant (first_token_at sm) /\
  valid_instant (completed_at sm).

Lemma summary_valid last workload st p r :
  good_workload last workload -> sim_inv last workload st ->
  requests_ (scheduler st) !! p = Some r -> valid_summary (summarize r).
Proof.
  intros Hgood Hinv Hr. destruct (si_admitted _ _ _ Hinv p r Hr) as (a & Ha & Ha0).
  pose proof (sim_now_range _ _ Hgood _ Hinv) as [_ Hnow].
  pose proof (req_lifecycle _ _ (inv_wf _ _ _ (si_sched _ _ _ Hinv) p r Hr)) as Hwf.
  pose proof (fun s => milestone_valid _ r s a Hwf Hnow Ha Ha0) as Hvalid.
  unfold valid_summary, summarize. simpl. rewrite (wf_admitted _ _ Hwf), (wf_completed _ _ Hwf).
  split_and!; try (apply Hvalid; simpl; lia).
  intros f Hf. destruct (wf_first _ _ Hwf f Hf) as (Hft & (d & Hd & Hdf) & _).
  destruct (Hvalid kDecoding ltac:(simpl; lia) d Hd).
  change (time (sim_world st)) with (now st) in Hft. lia.
Qed.

(** ** The report *)

Lemma duration_ok from to :
  valid_instant from -> valid_instant to -> exists v, duration_ms_or_nan from to = Ok v.
Proof.
  intros Hf Ht. unfold duration_ms_or_nan.
  destruct from as [a|], to as [b|]; try by eexists.
  specialize (Hf a eq_refl). specialize (Ht b eq_refl).
  rewrite (proj2 (i64_sub_Ok b a (b - a))) by (unfold INT64_MIN, INT64_MAX in *; lia).
  by eexists.
Qed.

Lemma print_requests_ok l : Forall valid_summary l -> exists text, print_requests l = Ok text.
Proof.
  induction 1 as [|r l (H1 & H2 & H3 & H4 & H5 & H6 & H7) Hl [rest IH]]; [by eexists|].
  cbn [print_requests]. unfold print_request.
  destruct (duration_ok _ _ H2 H3) as [? ->], (duration_ok _ _ H3 H4) as [? ->],
    (duration_ok _ _ H5 H7) as [? ->], (duration_ok _ _ H1 H6) as [? ->],
    (duration_ok _ _ H1 H7) as [? ->].
  cbn [mbind outcome_bind]. rewrite IH. by eexists.
Qed.

(** The text of a passed invariant check. *)
Definition passed : string := endl +:+ "=== Invariant check ===" +:+ endl +:+ "  PASSED" +:+ endl.

Lemma report_ok result :
  Forall healthy (summaries result) -> Forall valid_summary (summaries result) ->
  size_of (summaries result) < 2 ^ 53 ->
  (forall rep, rep ∈ tick_reports result -> 0 <= timestamp rep <= INT64_MAX) ->
  exists text, report result = Ok (text +:+ passed, 0).
Proof.
  intros Hh Hv Hlen Hst. unfold report.
  destruct (print_requests_ok _ Hv) as [breakdown ->].
  destruct (latency_stats_ok (summaries result) Hh) as (lat & -> & _); [|done|].
  { eapply Forall_impl; [exact Hv|]. unfold valid_summary. naive_solver. }
  assert (Hwall : exists wall, sim_wall_time (tick_reports result) = Ok wall).
  { unfold sim_wall_time. destruct (last (tick_reports result)) as [back|] eqn:E; [|by eexists].
    apply last_Some_elem_of in E. specialize (Hst _ E).
    rewrite (proj2 (i64_sub_Ok (timestamp back) 0 (timestamp back)))
      by (unfold INT64_MIN, INT64_MAX in *; lia). by eexists. }
  destruct Hwall as [wall ->]. rewrite (proj2 (check_invariants_nil _) Hh).
  cbn [mbind outcome_bind print_violations]. fold passed. rewrite <- !string_app_assoc.
  by eexists.
Qed.

(** ** [main] *)

Section Main.
Context {json : Type} (parse : string -> parse_result json).
Context (get_string : string -> json -> option string).
Context (get_double : string -> json -> option double).
Context (get_u32s : string -> json -> option (list Z)).
Context (get_size : string -> json -> option Z).
Context (object : list (string * json_field) -> json) (dump : json -> string).
Context (open_file : string -> option string).
Context (std_sort : list WorkloadRequest -> list WorkloadRequest).
Context (open_for_writing : string -> bool).

#[local] Abbreviation run_main := (main parse get_string get_double get_u32s get_size object dump
  open_file std_sort open_for_writing).
#[local] Abbreviation load_file := (load parse get_string get_double get_u32s get_size open_file std_sort).

(** C4. A good workload is served from the command line to the exit status: with
    a workload file that loads to a good workload and any valid options, the
    program terminates with status zero and an empty error stream, its report
    ends with a passed invariant check, and a requested trace file holds one
    event per iteration of the run, in order, and nothing else. *)
Theorem main_good_workload last_arrival workload program path args trace :
  load_file path = Ok workload -> good_workload last_arrival workload ->
  size_of workload < 2 ^ 53 -> parse_args args None = Some trace ->
  (forall p, trace = Some p -> open_for_writing p = true) ->
  exists r text result events,
    run_simulation (sim_fuel workload) (Ok workload) (bool_decide (is_Some trace))
      = Some (Ok (result, events)) /\
    length (summaries result) = length workload /\
    run_main (sim_fuel workload) (program :: path :: args) = Some (Ok r) /\
    exit_code r = 0 /\ std_err r = "" /\ std_out r = text +:+ passed /\
    match trace with
    | None => trace_file r = None
    | Some p => exists l, events = Some l /\ traces (tick_reports result) l /\
        trace_file r = Some (p, write_all object dump l "")
    end.
Proof.
  intros Hload Hgood Hlen Hargs Hopen.
  destruct (run_ends _ _ Hgood (bool_decide (is_Some trace))) as
    (st & Hinv & Hnext & Hidle & Htraced & E).
  pose proof (si_length _ _ _ Hinv) as Hreq. rewrite Hnext in Hreq.
  destruct (report_ok (mkSimulationResult (sim_reports st) (summarize <$> requests_ (scheduler st))))
    as [text Ereport].
  - by eapply run_healthy.
  - apply Forall_fmap, Forall_lookup. intros i r Hr. by eapply summary_valid.
  - unfold size_of in *. cbn [summaries]. rewrite length_fmap. lia.
  - cbn [tick_reports]. intros rep Hrep. pose proof (si_stamps _ _ _ Hinv rep Hrep).
    pose proof (sim_now_range _ _ Hgood _ Hinv). lia.
  - eexists _, text, _, (trace_ st). split; [exact E|]. cbn [summaries tick_reports].
    rewrite length_fmap. split; [done|]. unfold main. rewrite Hargs, Hload, E.
    assert (match trace with None => true | Some p => open_for_writing p end = true) as ->
      by (destruct trace; auto).
    cbn [mbind outcome_bind]. rewrite Ereport. cbn [mbind outcome_bind].
    split; [done|]. do 3 (split; [done|]). rewrite bool_decide_eq_true in Htraced.
    destruct trace as [p|]; [|done]. destruct (proj2 Htraced ltac:(eauto)) as [l Hl].
    exists l. split; [done|]. split; [by apply (si_trace _ _ _ Hinv)|]. simpl. by rewrite Hl.
Qed.

(** C37. What stops [main] before or during the run: a command line outside the
    grammar prints the usage and exits with status one without touching a file;
    a trace file that does not open is reported on the error stream with status
    one before the workload is read; and a workload that does not load ends the
    process the way the loader ended, with nothing reported. *)
Theorem main_rejects fuel program path args :
  run_main fuel [program] = Some (Ok (mkMainResult 1 "" (print_usage program) None)) /\
  ((forall paths, args <> trace_options paths) ->
     run_main fuel (program :: path :: args)
       = Some (Ok (mkMainResult 1 "" (print_usage program) None))) /\
  (forall paths p, args = trace_options (paths ++ [p]) -> open_for_writing p = false ->
     run_main fuel (program :: path :: args)
       = Some (Ok (mkMainResult 1 "" ("error: could not open trace output file: " +:+ p +:+ endl) None))) /\
  (forall paths, args = trace_options paths -> (forall p, p ∈ paths -> open_for_writing p = true) ->
     is_ok (load_file path) = false ->
     exists o, run_main fuel (program :: path :: args) = Some o /\ is_ok o = false /\
       forall m, load_file path = Panic m -> o = Panic m).
Proof.
  split; [done|]. split; [|split].
  - intros Hno. unfold main. destruct (parse_args args None) as [trace|] eqn:E; [|done].
    destruct (parse_args_inv _ _ _ _ (le_n _) E) as [paths ->]. by destruct (Hno paths).
  - intros paths p -> Hopen. unfold main. rewrite parse_args_options, last_snoc, Hopen. done.
  - intros paths -> Hopen Hload. unfold main. rewrite parse_args_options.
    set (trace := match last paths with Some _ => _ | None => None end).
    assert (match trace with None => true | Some p => open_for_writing p end = true) as ->.
    { unfold trace. destruct (last paths) as [p|] eqn:E; [|done].
      apply Hopen. by apply last_Some_elem_of. }
    destruct (load_file path); [done|..]; eexists; (split; [done|]); split; try done; naive_solver.
Qed.

End Main.

(** ** Witnesses *)

Definition demo_open (path : string) : bool := bool_decide (path = "t.jsonl").

Definition demo_main (text : string) : nat -> list string -> option (outcome MainResult) :=
  main demo_parse demo_string demo_double demo_u32s demo_size (fun _ => None) (fun _ => "{}")
    (demo_file text) arrival_sort demo_open.

Lemma loaded_good : good_workload 5000000 [request_b; request_a].
Proof.
  split; try done.
  - by apply (bool_decide_unpack _).
  - repeat constructor; simpl; lia.
  - apply Forall_cons; split; [apply (ms_arrival_fits 0); [done|lia..]|].
    apply Forall_cons; split; [apply (ms_arrival_fits 5); [done|lia..]|by apply Forall_nil].
  - apply Forall_cons; split; [|apply Forall_cons; split; [|by apply Forall_nil]];
      (exists 100000000; split; [by apply (from_ms_exact 100)|]; vm_compute; split; congruence).
Qed.

Lemma main_good_workload_witness :
  exists r text, demo_main two_lines (sim_fuel [request_b; request_a])
      ["tokamak"; "w.jsonl"; "--trace-out"; "t.jsonl"] = Some (Ok r) /\
    exit_code r = 0 /\ std_out r = text +:+ passed.
Proof.
  destruct (main_good_workload demo_parse demo_string demo_double demo_u32s demo_size
    (fun _ => None) (fun _ => "{}") (demo_file two_lines) arrival_sort demo_open
    5000000 [request_b; request_a] "tokamak" "w.jsonl" ["--trace-out"; "t.jsonl"] (Some "t.jsonl"))
    as (r & text & _ & _ & _ & _ & E & Hcode & _ & Hout & _).
  - vm_compute. reflexivity.
  - exact loaded_good.
  - vm_compute. reflexivity.
  - reflexivity.
  - intros p Hp. injection Hp as <-. reflexivity.
  - exists r, text. exact (conj E (conj Hcode Hout)).
Defined.

Lemma parse_args_grammar_witness :
  parse_args ["--trace-out"; "a"] None = Some (Some "a") /\
  parse_args ["--trace-out"; "a"; "--trace-out"; "b"] None = Some (Some "b").
Proof.
  split.
  - exact (proj1 (proj2 (parse_args_grammar ["--trace-out"; "a"] (Some "a"))) (doc_trace "a")).
  - apply (proj2 (proj1 (parse_args_grammar ["--trace-out"; "a"; "--trace-out"; "b"] (Some "b")))).
    exists ["a"; "b"]. split; reflexivity.
Defined.

Lemma main_rejects_witness :
  demo_main two_lines 0 ["tokamak"; "w.jsonl"; "--trace-out"; "no/such"]
    = Some (Ok (mkMainResult 1 "" ("error: could not open trace output file: no/such" +:+ endl) None)).
Proof.
  exact (proj1 (proj2 (proj2 (main_rejects demo_parse demo_string demo_double demo_u32s demo_size
    (fun _ => None) (fun _ => "{}") (demo_file two_lines) arrival_sort demo_open
    0 "tokamak" "w.jsonl" ["--trace-out"; "no/such"]))) [] "no/such" eq_refl eq_refl).
Defined.
