(* ===== verification/TokenChannel.v ===== *)
(** * [TokenChannel]: [include/tokamak/http/token_channel.h],
    [src/http/token_channel.cpp]

    The bounded single-direction channel between the engine thread and a
    network consumer.  Every method holds the mutex for its whole body, so it
    is one atomic step; [pop] waits on the condition variable until it is
    enabled, which is the [None] of [pop] below.  [chan_run] is the labelled
    step relation of an arbitrary interleaving of producers, consumers and
    closers, and [channel_refines_fifo] relates it to the abstract contract:
    what comes out is what went in, in order. *)

From S2P Require Import Prelude.

Inductive FinishReason : Set := kNone | kStop | kLength.

Record TokenEvent := mkTokenEvent {
  event_token_id : Z;                (** [std::uint32_t] *)
  finish_reason : FinishReason;
}.

Record TokenChannel := mkChannel {
  buffer_ : list TokenEvent;
  closed_ : bool;
  capacity_ : Z;                     (** [std::size_t] *)
}.

Definition new_channel (capacity : Z) : TokenChannel := mkChannel [] false capacity.

Definition try_push (event : TokenEvent) (c : TokenChannel) : bool * TokenChannel :=
  if closed_ c || (capacity_ c <=? size_of (buffer_ c)) then (false, c)
  else (true, mkChannel (buffer_ c ++ [event]) (closed_ c) (capacity_ c)).

(** [None]: the wait predicate is false and the caller blocks. *)
Definition pop (c : TokenChannel) : option (option TokenEvent * TokenChannel) :=
  if negb (negb (bool_decide (buffer_ c = [])) || closed_ c) then None
  else match buffer_ c with
       | [] => Some (None, c)
       | event :: rest => Some (Some event, mkChannel rest (closed_ c) (capacity_ c))
       end.

Definition close (c : TokenChannel) : TokenChannel := mkChannel (buffer_ c) true (capacity_ c).

Definition is_closed (c : TokenChannel) : bool := closed_ c.
Definition size (c : TokenChannel) : Z := size_of (buffer_ c).
Definition capacity (c : TokenChannel) : Z := capacity_ c.

#[export] Instance FinishReason_eq_dec : EqDecision FinishReason.
Proof. solve_decision. Defined.
#[export] Instance TokenEvent_eq_dec : EqDecision TokenEvent.
Proof. solve_decision. Defined.

(** ** Runs *)

Inductive chan_label :=
  | LPush (event : TokenEvent)     (** [try_push] returned true *)
  | LReject (event : TokenEvent)   (** [try_push] returned false *)
  | LPop (event : TokenEvent)      (** [pop] returned an event *)
  | LEnd                           (** [pop] returned [nullopt] *)
  | LClose.

Inductive chan_step : TokenChannel -> chan_label -> TokenChannel -> Prop :=
  | cs_push e c c' : try_push e c = (true, c') -> chan_step c (LPush e) c'
  | cs_reject e c c' : try_push e c = (false, c') -> chan_step c (LReject e) c'
  | cs_pop e c c' : pop c = Some (Some e, c') -> chan_step c (LPop e) c'
  | cs_end c c' : pop c = Some (None, c') -> chan_step c LEnd c'
  | cs_close c : chan_step c LClose (close c).

Inductive chan_run : TokenChannel -> list chan_label -> TokenChannel -> Prop :=
  | run_nil c : chan_run c [] c
  | run_snoc c tr c1 l c2 : chan_run c tr c1 -> chan_step c1 l c2 -> chan_run c (tr ++ [l]) c2.

(** What a run accepted, delivered, and whether it closed the channel. *)
Definition accepted (tr : list chan_label) : list TokenEvent :=
  omap (fun l => match l with LPush e => Some e | _ => None end) tr.
Definition delivered (tr : list chan_label) : list TokenEvent :=
  omap (fun l => match l with LPop e => Some e | _ => None end) tr.
Definition was_closed (tr : list chan_label) : bool :=
  existsb (fun l => match l with LClose => true | _ => false end) tr.

Lemma try_push_cases e c :
  (try_push e c = (false, c) /\ (closed_ c = true \/ capacity_ c <= size_of (buffer_ c))) \/
  (try_push e c = (true, mkChannel (buffer_ c ++ [e]) false (capacity_ c)) /\
   closed_ c = false /\ size_of (buffer_ c) < capacity_ c).
Proof.
  unfold try_push. destruct (closed_ c); simpl; [by left; auto|].
  destruct (Z.leb_spec (capacity_ c) (size_of (buffer_ c))); [left|right]; auto.
Qed.

Lemma pop_cases c :
  (pop c = None /\ buffer_ c = [] /\ closed_ c = false) \/
  (pop c = Some (None, c) /\ buffer_ c = [] /\ closed_ c = true) \/
  (exists e rest, buffer_ c = e :: rest /\
     pop c = Some (Some e, mkChannel rest (closed_ c) (capacity_ c))).
Proof.
  unfold pop. destruct (buffer_ c) as [|e rest] eqn:E.
  - rewrite bool_decide_true by done. simpl. destruct (closed_ c); simpl; auto.
  - rewrite bool_decide_false by done. simpl. right. right. eauto.
Qed.

Lemma chan_run_inv cap tr c :
  0 <= cap -> chan_run (new_channel cap) tr c ->
  accepted tr = delivered tr ++ buffer_ c /\ capacity_ c = cap /\
  closed_ c = was_closed tr /\ size_of (buffer_ c) <= cap.
Proof.
  intros Hcap Hrun. remember (new_channel cap) as c0 eqn:E0.
  induction Hrun as [c|c tr c1 l c2 Hrun IH Hstep]; subst; [done|].
  destruct (IH eq_refl) as (Hd & Hc & Hcl & Hsz).
  unfold accepted, delivered, was_closed in *. rewrite !omap_app, existsb_app, <- Hcl, Hd.
  inversion Hstep as [e ? ? H|e ? ? H|e ? ? H|? ? H|?]; subst; simpl; rewrite ?app_nil_r.
  - destruct (try_push_cases e c1) as [[E _]|(E & Hf & Hlt)]; rewrite E in H; [done|].
    injection H as <-. simpl. rewrite Hf, app_assoc, size_of_app. unfold size_of in *. simpl.
    split_and!; try done. lia.
  - destruct (try_push_cases e c1) as [[E _]|(E & _)]; rewrite E in H; [|done].
    injection H as <-. by rewrite orb_false_r.
  - destruct (pop_cases c1) as [[E _]|[[E _]|(e' & rest & Hb & E)]]; rewrite E in H; try done.
    injection H as <- <-. simpl. rewrite Hb in *. rewrite size_of_cons in Hsz.
    rewrite orb_false_r, <- app_assoc. split_and!; try done. lia.
  - destruct (pop_cases c1) as [[E _]|[[E _]|(e' & rest & Hb & E)]]; rewrite E in H; try done.
    injection H as <-. by rewrite orb_false_r.
  - by rewrite orb_true_r.
Qed.

Lemma delivered_pops (k : list TokenEvent) : delivered (LPop <$> k) = k.
Proof. unfold delivered. induction k as [|e k IH]; simpl; [done|f_equal; exact IH]. Qed.

(** C20. The channel is a bounded FIFO under every interleaving: the events
    delivered are a prefix of the events accepted, in order and without loss or
    duplication, the rest is exactly what is buffered, and the buffer never
    exceeds the capacity. *)
Theorem channel_refines_fifo cap tr c :
  0 <= cap -> chan_run (new_channel cap) tr c ->
  accepted tr = delivered tr ++ buffer_ c /\ size c <= capacity c /\ capacity c = cap.
Proof.
  intros Hcap Hrun. destruct (chan_run_inv _ _ _ Hcap Hrun) as (? & ? & ? & ?).
  unfold size, capacity. split_and!; try done. lia.
Qed.

(** Closing: once closed a channel stays closed and accepts nothing more,
    but loses nothing: the consumer still receives everything buffered, in
    order, and is then told the end; it never blocks again. *)
Theorem channel_close_drains cap tr c :
  0 <= cap -> chan_run (new_channel cap) tr c -> was_closed tr = true ->
  is_closed c = true /\ (forall e, try_push e c = (false, c)) /\
  exists c', chan_run c ((LPop <$> buffer_ c) ++ [LEnd]) c' /\ buffer_ c' = [] /\
    delivered (tr ++ (LPop <$> buffer_ c) ++ [LEnd]) = accepted tr.
Proof.
  intros Hcap Hrun Hcl. destruct (chan_run_inv _ _ _ Hcap Hrun) as (Hd & _ & Hc & _).
  rewrite Hcl in Hc. split; [done|]. split.
  { intros e. unfold try_push. by rewrite Hc. }
  exists (mkChannel [] true (capacity_ c)).
  assert (Hdrain : forall k l, buffer_ c = k ++ l -> closed_ c = true ->
    chan_run c (LPop <$> k) (mkChannel l true (capacity_ c))).
  { intros k. induction k as [|e k IH] using rev_ind; intros l Hb Hcc.
    - simpl in Hb. subst l. destruct c as [b cl cp]. simpl in *. subst cl. constructor.
    - rewrite fmap_app. eapply run_snoc; [apply (IH (e :: l)); [|done]|].
      + by rewrite Hb, <- app_assoc.
      + apply cs_pop. by unfold pop. }
  split; [|split; [done|]].
  - eapply run_snoc; [apply Hdrain; [by rewrite app_nil_r|done]|]. by apply cs_end.
  - unfold delivered in *. rewrite !omap_app, Hd. simpl. rewrite app_nil_r. f_equal.
    apply delivered_pops.
Qed.

(** Blocking: [pop] blocks exactly on an empty open channel, and each of
    the two calls that notify the condition variable enables it: an accepted
    push hands over the pushed event, a close hands over the end. *)
Theorem channel_no_lost_wakeup c :
  (pop c = None <-> size c = 0 /\ is_closed c = false) /\
  (pop c = None -> forall e c', try_push e c = (true, c') ->
     exists c'', pop c' = Some (Some e, c'')) /\
  (pop c = None -> pop (close c) = Some (None, close c)).
Proof.
  unfold size, is_closed, size_of. split; [|split].
  - destruct (pop_cases c) as [(-> & -> & ->)|[(-> & -> & ->)|(e & rest & -> & ->)]]; simpl.
    + done.
    + by split; [|intros [_ ?]].
    + split; [done|]. intros [? _]. lia.
  - intros Hp e c' Hpush.
    destruct (pop_cases c) as [(_ & Hb & _)|[(E & _)|(? & ? & _ & E)]]; [|congruence..].
    destruct (try_push_cases e c) as [[E _]|(E & _)]; rewrite E in Hpush; [done|].
    injection Hpush as <-. rewrite Hb. eexists. done.
  - intros Hp.
    destruct (pop_cases c) as [(_ & Hb & _)|[(E & _)|(? & ? & _ & E)]]; [|congruence..].
    unfold pop, close. simpl. by rewrite Hb.
Qed.

(** ** Witnesses *)

Definition demo_channel_run : list chan_label :=
  [LPush (mkTokenEvent 1 kNone); LPush (mkTokenEvent 2 kLength);
   LReject (mkTokenEvent 3 kNone); LPop (mkTokenEvent 1 kNone); LClose].

Lemma demo_chan_run :
  chan_run (new_channel 2) demo_channel_run (mkChannel [mkTokenEvent 2 kLength] true 2).
Proof.
  change demo_channel_run with
    ((((([] ++ [LPush (mkTokenEvent 1 kNone)]) ++ [LPush (mkTokenEvent 2 kLength)])
      ++ [LReject (mkTokenEvent 3 kNone)]) ++ [LPop (mkTokenEvent 1 kNone)]) ++ [LClose]).
  set (full := mkChannel [mkTokenEvent 1 kNone; mkTokenEvent 2 kLength] false 2).
  apply run_snoc with (mkChannel [mkTokenEvent 2 kLength] false 2);
    [|exact (cs_close (mkChannel [mkTokenEvent 2 kLength] false 2))].
  apply run_snoc with full; [|by apply cs_pop].
  apply run_snoc with full; [|by apply cs_reject].
  apply run_snoc with (mkChannel [mkTokenEvent 1 kNone] false 2); [|by apply cs_push].
  apply run_snoc with (new_channel 2); [|by apply cs_push]. apply run_nil.
Qed.

Lemma channel_refines_fifo_witness :
  accepted demo_channel_run =
    delivered demo_channel_run ++ [mkTokenEvent 2 kLength].
Proof.
  exact (proj1 (channel_refines_fifo 2 demo_channel_run
    (mkChannel [mkTokenEvent 2 kLength] true 2) ltac:(lia) demo_chan_run)).
Defined.

Lemma channel_close_drains_witness :
  is_closed (mkChannel [mkTokenEvent 2 kLength] true 2) = true.
Proof.
  exact (proj1 (channel_close_drains 2 demo_channel_run
    (mkChannel [mkTokenEvent 2 kLength] true 2) ltac:(lia) demo_chan_run eq_refl)).
Defined.
