(* ===== verification/Engine.v ===== *)
(** * [Engine]: [include/tokamak/http/engine.h], [src/http/engine.cpp]

    The engine thread that drives the scheduler and streams tokens into the
    channels of network consumers.  The network threads only append to the two
    pending vectors (under the mutex) and pop from channels; everything else is
    engine-thread state.  A [TokenChannel *] is a key of the channel store,
    which the consumers share; a [Request *] is a position in the scheduler's
    store.  [active_] is an [unordered_map]: its iteration order is the
    parameter [order].  [std::chrono::steady_clock::now], which [push_tokens]
    and [check_backpressure] call directly, is the method [steady_now] of the
    environment. *)

From S2P Require Import Prelude Clock RequestState RequestLifecycle Request Backend FifoScheduler TokenChannel.

Record EngineConfig := mkEngineConfig {
  tick_interval : Duration;
  backpressure_timeout : Duration;
}.

(** 10 ms and 5000 ms. *)
Definition default_config : EngineConfig := mkEngineConfig 10000000 5000000000.

(** A [TokenChannel *]. *)
Abbreviation ChannelPtr := nat.

Record Submission := mkSubmission {
  sub_id : RequestId;
  sub_prompt_token_ids : list Z;
  sub_max_tokens : Z;
  sub_deadline : Duration;
  sub_channel : ChannelPtr;
}.

Record ActiveEntry := mkActiveEntry {
  entry_request : RequestPtr;
  entry_channel : ChannelPtr;
  last_seen_tokens : Z;
  backpressure_since : option TimePoint;
}.

Record Engine := mkEngine {
  config_ : EngineConfig;
  scheduler_ : FifoScheduler;
  running_ : bool;
  pending_submissions_ : list Submission;
  pending_cancels_ : list RequestId;
  active_ : gmap RequestId ActiveEntry;
}.

Definition new_engine (config : EngineConfig) : Engine :=
  mkEngine config new_scheduler false [] [] ∅.

Definition set_scheduler (s : FifoScheduler) (e : Engine) : Engine :=
  mkEngine (config_ e) s (running_ e) (pending_submissions_ e) (pending_cancels_ e) (active_ e).
Definition set_running (b : bool) (e : Engine) : Engine :=
  mkEngine (config_ e) (scheduler_ e) b (pending_submissions_ e) (pending_cancels_ e) (active_ e).
Definition set_pending (subs : list Submission) (cancels : list RequestId) (e : Engine) : Engine :=
  mkEngine (config_ e) (scheduler_ e) (running_ e) subs cancels (active_ e).
Definition set_active (m : gmap RequestId ActiveEntry) (e : Engine) : Engine :=
  mkEngine (config_ e) (scheduler_ e) (running_ e) (pending_submissions_ e) (pending_cancels_ e) m.

(** The channels the consumers own. *)
Abbreviation ChannelStore := (gmap ChannelPtr TokenChannel).

Definition deref_channel (p : ChannelPtr) (cs : ChannelStore) : outcome TokenChannel :=
  or_undef "dangling TokenChannel pointer" (cs !! p).

(** [channel->close()] *)
Definition close_channel (p : ChannelPtr) (cs : ChannelStore) : outcome ChannelStore :=
  c ← deref_channel p cs; Ok (<[p := close c]> cs).

(** ** The operations of the network threads *)

(** The two compare-and-exchange transitions of [running_]; [false] when the
    call returns at once. *)
Definition start (e : Engine) : bool * Engine :=
  if running_ e then (false, e) else (true, set_running true e).
Definition stop (e : Engine) : bool * Engine :=
  if running_ e then (true, set_running false e) else (false, e).
(** [~Engine]. *)
Definition engine_destroy (e : Engine) : Engine := if running_ e then (stop e).2 else e.
Definition is_running (e : Engine) : bool := running_ e.

Definition submit (submission : Submission) (e : Engine) : bool * Engine :=
  if running_ e then
    (true, set_pending (pending_submissions_ e ++ [submission]) (pending_cancels_ e) e)
  else (false, e).

Definition cancel (id : RequestId) (e : Engine) : Engine :=
  set_pending (pending_submissions_ e) (pending_cancels_ e ++ [id]) e.

(** ** The engine thread *)

Class SteadyClock (W : Type) := steady_now : W -> TimePoint * W.

Section EngineThread.
Context {W : Type} `{!Clock W, !InferenceBackend W, !SteadyClock W}.
Context (order : gmap RequestId ActiveEntry -> list RequestId).
Implicit Types (e : Engine) (cs : ChannelStore) (w : W).

(** The loop of [drain_submissions] over the swapped-out batch. *)
Fixpoint submit_batch (batch : list Submission) e w : outcome (Engine * W) :=
  match batch with
  | [] => Ok (e, w)
  | sub :: batch =>
      '(req, w) ← new_request (sub_id sub) (sub_deadline sub) (sub_max_tokens sub)
                    (sub_prompt_token_ids sub) 0 w;
      '(ref, s, w) ← FifoScheduler.submit req (scheduler_ e) w;
      let e := set_scheduler s e in
      submit_batch batch
        (set_active (emplace (sub_id sub) (mkActiveEntry ref (sub_channel sub) 0 None) (active_ e)) e) w
  end.

Definition drain_submissions e w : outcome (Engine * W) :=
  submit_batch (pending_submissions_ e) (set_pending [] (pending_cancels_ e) e) w.

Fixpoint cancel_batch (batch : list RequestId) e cs w : outcome (Engine * ChannelStore * W) :=
  match batch with
  | [] => Ok (e, cs, w)
  | id :: batch =>
      '(s, w) ← FifoScheduler.cancel id (scheduler_ e) w;
      let e := set_scheduler s e in
      match active_ e !! id with
      | Some entry =>
          cs ← close_channel (entry_channel entry) cs;
          cancel_batch batch (set_active (delete id (active_ e)) e) cs w
      | None => cancel_batch batch e cs w
      end
  end.

Definition drain_cancels e cs w : outcome (Engine * ChannelStore * W) :=
  cancel_batch (pending_cancels_ e) (set_pending (pending_submissions_ e) [] e) cs w.

(** The finish reason of token [i]. *)
Definition token_reason (r : Request) (i : Z) : FinishReason :=
  if is_terminal (req_state r) && (i =? u64 (output_tokens_emitted_ r - 1)) then
    if max_output_tokens_ r <=? output_tokens_emitted_ r then kLength else kStop
  else kNone.

(** The loop of [push_tokens] for one entry: [n] tokens are left, from index
    [i] on. *)
Fixpoint push_loop (r : Request) (n : nat) (i : Z) (entry : ActiveEntry) cs w
  : outcome (ActiveEntry * ChannelStore * W) :=
  match n with
  | O => Ok (entry, cs, w)
  | S n =>
      token ← or_undef "token_ids out of range" (output_token_ids_ r !! Z.to_nat i);
      c ← deref_channel (entry_channel entry) cs;
      let '(pushed, c) := try_push (mkTokenEvent token (token_reason r i)) c in
      let cs := <[entry_channel entry := c]> cs in
      if (pushed : bool) then
        push_loop r n (i + 1)
          (mkActiveEntry (entry_request entry) (entry_channel entry) (u64 (i + 1)) None) cs w
      else
        match backpressure_since entry with
        | Some _ => Ok (entry, cs, w)
        | None =>
            let '(t, w) := steady_now w in
            Ok (mkActiveEntry (entry_request entry) (entry_channel entry)
                  (last_seen_tokens entry) (Some t), cs, w)
        end
  end.

Definition push_entry (entry : ActiveEntry) (s : FifoScheduler) cs w
  : outcome (ActiveEntry * ChannelStore * W) :=
  r ← deref (entry_request entry) s;
  push_loop r (Z.to_nat (output_tokens_emitted_ r - last_seen_tokens entry))
    (last_seen_tokens entry) entry cs w.

Fixpoint push_all (ids : list RequestId) e cs w : outcome (Engine * ChannelStore * W) :=
  match ids with
  | [] => Ok (e, cs, w)
  | id :: ids =>
      entry ← or_undef "iterator" (active_ e !! id);
      '(entry, cs, w) ← push_entry entry (scheduler_ e) cs w;
      push_all ids (set_active (<[id := entry]> (active_ e)) e) cs w
  end.

Definition push_tokens e cs w : outcome (Engine * ChannelStore * W) :=
  push_all (order (active_ e)) e cs w.

(** The collecting loop of [check_backpressure]. *)
Fixpoint collect_stalled (ids : list RequestId) (now : TimePoint) e : outcome (list RequestId) :=
  match ids with
  | [] => Ok []
  | id :: ids =>
      entry ← or_undef "iterator" (active_ e !! id);
      stalled ← match backpressure_since entry with
                | Some t => d ← i64_sub now t; Ok (backpressure_timeout (config_ e) <=? d)
                | None => Ok false
                end;
      rest ← collect_stalled ids now e;
      Ok (if (stalled : bool) then id :: rest else rest)
  end.

Fixpoint cancel_stalled (ids : list RequestId) e cs w : outcome (Engine * ChannelStore * W) :=
  match ids with
  | [] => Ok (e, cs, w)
  | id :: ids =>
      '(s, w) ← FifoScheduler.cancel id (scheduler_ e) w;
      let e := set_scheduler s e in
      entry ← or_throw "unordered_map::at" (active_ e !! id);
      cs ← close_channel (entry_channel entry) cs;
      cancel_stalled ids (set_active (delete id (active_ e)) e) cs w
  end.

Definition check_backpressure e cs w : outcome (Engine * ChannelStore * W) :=
  let '(now, w) := steady_now w in
  to_cancel ← collect_stalled (order (active_ e)) now e;
  cancel_stalled to_cancel e cs w.

(** [reap_terminal] *)
Fixpoint collect_finished (ids : list RequestId) e : outcome (list RequestId) :=
  match ids with
  | [] => Ok []
  | id :: ids =>
      entry ← or_undef "iterator" (active_ e !! id);
      r ← deref (entry_request entry) (scheduler_ e);
      rest ← collect_finished ids e;
      Ok (if is_terminal (req_state r) && (output_tokens_emitted_ r <=? last_seen_tokens entry)
          then id :: rest else rest)
  end.

Fixpoint reap (ids : list RequestId) e cs : outcome (Engine * ChannelStore) :=
  match ids with
  | [] => Ok (e, cs)
  | id :: ids =>
      entry ← or_throw "unordered_map::at" (active_ e !! id);
      cs ← close_channel (entry_channel entry) cs;
      reap ids (set_active (delete id (active_ e)) e) cs
  end.

Definition reap_terminal e cs : outcome (Engine * ChannelStore) :=
  to_reap ← collect_finished (order (active_ e)) e;
  reap to_reap e cs.

(** One turn of the loop of [run], after the wait on the condition variable
    (which changes nothing). *)
Definition run_once e cs w : outcome (Engine * ChannelStore * W) :=
  if negb (running_ e) then Ok (e, cs, w)
  else
    '(e, w) ← drain_submissions e w;
    '(e, cs, w) ← drain_cancels e cs w;
    if bool_decide (active_ e = ∅) then Ok (e, cs, w)
    else
      '(_, s, w) ← tick (scheduler_ e) w;
      '(e, cs, w) ← push_tokens (set_scheduler s e) cs w;
      '(e, cs, w) ← check_backpressure e cs w;
      '(e, cs) ← reap_terminal e cs;
      Ok (e, cs, w).

End EngineThread.
