(* ===== verification/EngineInvariant.v ===== *)
(** * The invariant of the engine

    [engine_inv] ties every active entry to its request and to what its
    consumer has received: the events delivered so far followed by those still
    buffered are, one for one, the first [last_seen_tokens] tokens of the
    request with their finish reasons.  Each move of the engine thread and of
    the network threads has one lemma here. *)

From S2P Require Import Prelude Clock RequestState RequestLifecycle Request Backend FifoScheduler SchedulerInvariant SchedulerCorrect SchedulerSpec TokenChannel Engine.

(** ** One entry: the loop of [push_tokens] *)

(** The event of token [j]. *)
Definition event_at (r : Request) (j : nat) : option TokenEvent :=
  (fun t => mkTokenEvent t (token_reason r (Z.of_nat j))) <$> output_token_ids_ r !! j.

Definition events (r : Request) (i k : nat) : list TokenEvent := omap (event_at r) (seq i k).

Lemma events_S r i k t :
  output_token_ids_ r !! i = Some t ->
  events r i (S k) = mkTokenEvent t (token_reason r (Z.of_nat i)) :: events r (S i) k.
Proof. intros Ht. unfold events. simpl. unfold event_at at 1. by rewrite Ht. Qed.

(** The tokens of the events are the tokens of the request. *)
Lemma events_tokens r i k :
  event_token_id <$> events r i k = take k (drop i (output_token_ids_ r)).
Proof.
  revert i. induction k as [|k IH]; intros i; [by rewrite take_0|].
  destruct (output_token_ids_ r !! i) as [t|] eqn:Ht.
  - rewrite (events_S _ _ _ _ Ht), (drop_S _ _ _ Ht). simpl. by rewrite IH.
  - assert (events r i (S k) = events r (S i) k) as ->
      by (unfold events; simpl; unfold event_at at 1; by rewrite Ht).
    apply lookup_ge_None in Ht. rewrite IH, !drop_ge by lia. by rewrite !take_nil.
Qed.

Section Push.
Context {W : Type} `{!SteadyClock W}.

(** What the loop does to a channel: it appends the next [k] events in order;
    it stops early only on a full or closed channel, and then the entry is
    marked as under backpressure. *)
Lemma push_loop_ok (r : Request) (n i : nat) entry (cs : ChannelStore) (w : W) c :
  cs !! entry_channel entry = Some c -> (i + n <= length (output_token_ids_ r))%nat ->
  last_seen_tokens entry = Z.of_nat i -> size_of (output_token_ids_ r) < 2 ^ 64 ->
  exists k entry' w',
    push_loop r n (Z.of_nat i) entry cs w =
      Ok (entry', <[entry_channel entry :=
                    mkChannel (buffer_ c ++ events r i k) (closed_ c) (capacity_ c)]> cs, w') /\
    (k <= n)%nat /\ entry_request entry' = entry_request entry /\
    entry_channel entry' = entry_channel entry /\ last_seen_tokens entry' = Z.of_nat (i + k) /\
    ((k < n)%nat -> is_Some (backpressure_since entry') /\
       (closed_ c = true \/ capacity_ c <= size_of (buffer_ c ++ events r i k))) /\
    (k = n -> backpressure_since entry = None -> backpressure_since entry' = None) /\
    ((k = n /\ w' = w) \/ (k < n)%nat /\ (w' = w \/ exists t, steady_now w = (t, w'))).
Proof.
  revert i entry cs c. induction n as [|n IH]; intros i entry cs c Hc Hlen Hlast Hsize.
  { exists 0%nat, entry, w. simpl. unfold events. simpl. rewrite app_nil_r, Nat.add_0_r.
    split_and!; try done; [|lia|by left].
    f_equal. f_equal. f_equal. rewrite insert_id; [done|]. by destruct c. }
  destruct (lookup_lt_is_Some_2 (output_token_ids_ r) i) as [t Ht]; [lia|].
  cbn [push_loop]. rewrite Nat2Z.id, Ht. cbn [or_undef mbind outcome_bind].
  unfold deref_channel. rewrite Hc. cbn [or_undef mbind outcome_bind].
  destruct (try_push_cases (mkTokenEvent t (token_reason r (Z.of_nat i))) c)
    as [[-> Hfull]|(-> & Hopen & Hroom)].
  - exists 0%nat. unfold events. simpl. rewrite app_nil_r, Nat.add_0_r.
    assert (mkChannel (buffer_ c) (closed_ c) (capacity_ c) = c) as -> by (by destruct c).
    destruct (backpressure_since entry) eqn:Hbp.
    + exists entry, w. split; [done|]. split; [lia|]. do 2 (split; [done|]). split; [done|].
      split; [intros _; rewrite Hbp; eauto|]. split; [lia|]. right. split; [lia|by left].
    + destruct (steady_now w) as [now w'] eqn:Es. eexists _, w'. split; [done|]. simpl.
      split; [lia|]. do 2 (split; [done|]). split; [done|]. split; [by eauto|].
      split; [lia|]. right. split; [lia|]. right. eauto.
  - cbn [fst snd]. set (c1 := mkChannel _ _ _). set (entry1 := mkActiveEntry _ _ _ _).
    assert (Hu : u64 (Z.of_nat i + 1) = Z.of_nat (S i)).
    { rewrite u64_small; [lia|]. unfold size_of in Hsize. lia. }
    destruct (IH (S i) entry1 (<[entry_channel entry := c1]> cs) c1) as
      (k & entry' & w' & E & Hk & Hr & Hch & Hls & Hbp & Hnone & Hw').
    { apply lookup_insert_eq. } { lia. } { exact Hu. } { done. }
    replace (Z.of_nat i + 1) with (Z.of_nat (S i)) by lia.
    exists (S k), entry', w'. simpl in E. rewrite E. simpl in Hr, Hch.
    rewrite (events_S _ _ _ _ Ht). simpl in Hbp.
    rewrite <- app_assoc in *. simpl in *. rewrite insert_insert_eq, Hopen.
    split; [done|]. split; [lia|]. split; [done|]. split; [done|]. split; [rewrite Hls; lia|].
    split; [intros Hkn; apply Hbp; lia|]. split; [intros Hkn _; by apply Hnone; [lia|]|].
    destruct Hw' as [[-> ->]|[? ?]]; [by left|right]. split; [lia|done].
Qed.

End Push.

(** ** The invariant *)

(** What the consumers have popped so far, channel by channel. *)
Abbreviation DeliveryLog := (gmap ChannelPtr (list TokenEvent)).

Definition delivered_to (p : ChannelPtr) (log : DeliveryLog) : list TokenEvent :=
  default [] (log !! p).

(** The stream of a channel: what its consumer has received, then what it can
    still pop. *)
Definition stream (p : ChannelPtr) (c : TokenChannel) (log : DeliveryLog) : list TokenEvent :=
  delivered_to p log ++ buffer_ c.

(** The events are the first [n] tokens of the request.  Only the last token of
    a request that has ended can carry a finish reason, and on a completed
    request every event carries exactly the reason [push_tokens] computes. *)
Definition stream_ok (r : Request) (n : Z) (evs : list TokenEvent) : Prop :=
  0 <= n <= size_of (output_token_ids_ r) /\ size_of evs = n /\
  forall (j : nat) ev, evs !! j = Some ev ->
    output_token_ids_ r !! j = Some (event_token_id ev) /\
    (finish_reason ev = kNone \/
     is_terminal (req_state r) = true /\ S j = length (output_token_ids_ r)) /\
    (req_state r = kCompleted -> finish_reason ev = token_reason r (Z.of_nat j)).

(** An active entry: its request has its id, its channel is open. *)
Definition entry_ok (s : FifoScheduler) (cs : ChannelStore) (log : DeliveryLog)
    (id : RequestId) (entry : ActiveEntry) : Prop :=
  exists r c, requests_ s !! entry_request entry = Some r /\ id_ r = id /\
    cs !! entry_channel entry = Some c /\ closed_ c = false /\
    stream_ok r (last_seen_tokens entry) (stream (entry_channel entry) c log).

(** A submission that is still pending: a usable budget, an id not in use and an
    open channel of its own through which nothing has gone. *)
Definition pending_ok (m : gmap RequestId ActiveEntry) (cs : ChannelStore) (log : DeliveryLog)
    (sub : Submission) : Prop :=
  0 < sub_max_tokens sub < 2 ^ 64 /\ m !! sub_id sub = None /\
  (exists c, cs !! sub_channel sub = Some c /\ closed_ c = false /\
     stream (sub_channel sub) c log = []) /\
  (forall id entry, m !! id = Some entry -> entry_channel entry <> sub_channel sub).

(** What the scheduler does to a request: nothing, or, before it has ended, one
    more token or a move that does not complete it. *)
Definition grows (r r' : Request) : Prop :=
  r' = r \/
  is_terminal (req_state r) = false /\ id_ r' = id_ r /\
  (output_token_ids_ r' = output_token_ids_ r /\ req_state r' <> kCompleted \/
   exists tok, output_token_ids_ r' = output_token_ids_ r ++ [tok]).

Lemma token_reason_cases t r j :
  request_wf t r -> (j < length (output_token_ids_ r))%nat ->
  token_reason r (Z.of_nat j) = kNone \/
  is_terminal (req_state r) = true /\ S j = length (output_token_ids_ r).
Proof.
  intros Hwf Hj. pose proof (req_output _ _ Hwf) as Ho. pose proof (req_budget _ _ Hwf).
  pose proof (req_max _ _ Hwf). unfold token_reason, size_of in *.
  destruct (is_terminal (req_state r)); simpl; [|by left].
  rewrite u64_small by lia.
  destruct (Z.eqb_spec (Z.of_nat j) (output_tokens_emitted_ r - 1)); [|by left].
  right. split; [done|]. lia.
Qed.

Lemma stream_ok_grows t r r' n evs :
  request_wf t r' -> grows r r' -> stream_ok r n evs -> stream_ok r' n evs.
Proof.
  intros Hwf [->|(Hnt & _ & Hout)] (Hn & Hsz & Hev); [done|].
  assert (Hnone : forall (j : nat) ev, evs !! j = Some ev ->
    output_token_ids_ r !! j = Some (event_token_id ev) /\ finish_reason ev = kNone).
  { intros j ev Hj. destruct (Hev j ev Hj) as (? & [?|[? _]] & _); [done|congruence]. }
  destruct Hout as [[Ho Hst]|[tok Ho]].
  - split; [by rewrite Ho|]. split; [done|]. intros j ev Hj.
    destruct (Hnone j ev Hj). rewrite Ho. split_and!; [done|by left|done].
  - split; [rewrite Ho, size_of_app; pose proof (size_of_nonneg [tok]); lia|].
    split; [done|]. intros j ev Hj. destruct (Hnone j ev Hj) as [Htok Hr].
    split; [rewrite Ho; by apply lookup_app_l_Some|]. split; [by left|]. intros _.
    apply lookup_lt_Some in Hj. unfold size_of in *.
    destruct (token_reason_cases t r' j Hwf) as [->|[_ Hl]]; [rewrite Ho, length_app; simpl; lia|done|];
      rewrite Ho, length_app in *; simpl in *; lia.
Qed.

(** The next events of the loop continue a stream. *)
Lemma stream_ok_events t r i k evs :
  request_wf t r -> stream_ok r (Z.of_nat i) evs -> (i + k <= length (output_token_ids_ r))%nat ->
  stream_ok r (Z.of_nat (i + k)) (evs ++ events r i k).
Proof.
  intros Hwf. revert i evs. induction k as [|k IH]; intros i evs Hs Hk.
  { unfold events. simpl. by rewrite app_nil_r, Nat.add_0_r. }
  destruct (lookup_lt_is_Some_2 (output_token_ids_ r) i) as [tok Ht]; [lia|].
  rewrite (events_S _ _ _ _ Ht), cons_middle, app_assoc.
  replace (i + S k)%nat with (S i + k)%nat by lia. apply IH; [|lia].
  destruct Hs as (Hn & Hsz & Hev). unfold stream_ok, size_of in *. split; [lia|].
  split; [rewrite length_app; simpl; lia|]. intros j ev Hj.
  apply lookup_snoc_Some in Hj as [[_ Hj]|[-> <-]]; [by apply Hev|]. simpl.
  replace (length evs) with i by lia. split; [done|]. split; [|done].
  eapply token_reason_cases; [done|lia].
Qed.

Lemma stream_ok_tokens r n evs :
  stream_ok r n evs -> event_token_id <$> evs = take (Z.to_nat n) (output_token_ids_ r).
Proof.
  intros (Hn & Hsz & Hev). unfold size_of in *.
  apply (list_eq_same_length _ _ (length evs)); rewrite ?length_fmap, ?length_take; try lia.
  intros j x y Hj Hx Hy. rewrite list_lookup_fmap in Hx.
  destruct (evs !! j) as [ev|] eqn:E; [|done]. simplify_eq/=.
  apply lookup_take_Some in Hy as [Hy _]. destruct (Hev j ev E) as [? _]. congruence.
Qed.

(** Why a completed request ended. *)
Definition final_reason (r : Request) : FinishReason :=
  if max_output_tokens_ r <=? output_tokens_emitted_ r then kLength else kStop.

(** On a completed request the finish reasons are determined. *)
Lemma stream_ok_completed t r n evs (j : nat) ev :
  request_wf t r -> stream_ok r n evs -> req_state r = kCompleted -> evs !! j = Some ev ->
  finish_reason ev = if decide (S j = length (output_token_ids_ r)) then final_reason r else kNone.
Proof.
  intros Hwf (Hn & Hsz & Hev) Hc Hj. destruct (Hev j ev Hj) as (_ & _ & ->); [|done].
  pose proof (lookup_lt_Some _ _ _ Hj). pose proof (req_output _ _ Hwf).
  pose proof (req_budget _ _ Hwf). pose proof (req_max _ _ Hwf).
  unfold token_reason, final_reason, size_of in *. rewrite Hc, u64_small by lia. simpl.
  case_decide; destruct (Z.eqb_spec (Z.of_nat j) (output_tokens_emitted_ r - 1)); done || lia.
Qed.

Class SteadyLaws (W : Type) `{!Clock W, !ClockLaws W, !InferenceBackend W, !BackendContract W,
    !SteadyClock W} : Prop :=
  steady_contract (w w' : W) t : steady_now w = (t, w') -> time w <= time w' /\ live w' = live w.

Section Invariant.
Context {W : Type} `{!Clock W, !ClockLaws W, !InferenceBackend W, !BackendContract W,
  !SteadyClock W, !SteadyLaws W}.
Implicit Types (s : FifoScheduler) (cs : ChannelStore) (w : W) (log : DeliveryLog)
  (m : gmap RequestId ActiveEntry) (subs : list Submission).

Record engine_inv subs s m cs w log : Prop := {
  ei_sched : sched_inv ∅ s w;
  ei_entries id entry : m !! id = Some entry -> entry_ok s cs log id entry;
  ei_channels id1 id2 e1 e2 : m !! id1 = Some e1 -> m !! id2 = Some e2 ->
    entry_channel e1 = entry_channel e2 -> id1 = id2;
  (** Everything the scheduler works on has an entry. *)
  ei_active p r : active s p -> requests_ s !! p = Some r ->
    exists entry, m !! id_ r = Some entry /\ entry_request entry = p;
  ei_pending : Forall (pending_ok m cs log) subs;
  ei_pending_ids : NoDup (sub_id <$> subs);
  ei_pending_channels : NoDup (sub_channel <$> subs);
}.

(** Every request of [s] is still there and grew. *)
Definition store_grows s s' : Prop :=
  forall p r, requests_ s !! p = Some r -> exists r', requests_ s' !! p = Some r' /\ grows r r'.

Lemma grows_id r r' : grows r r' -> id_ r' = id_ r.
Proof. intros [->|(_ & ? & _)]; done. Qed.

Lemma entry_ok_grows s s' w' cs log id entry :
  sched_inv ∅ s' w' -> store_grows s s' -> entry_ok s cs log id entry ->
  entry_ok s' cs log id entry.
Proof.
  intros Hs Hg (r & c & Hr & Hid & Hc & Hop & Hst).
  destruct (Hg _ _ Hr) as (r' & Hr' & Hgr). exists r', c. rewrite (grows_id _ _ Hgr).
  split_and!; try done. eapply stream_ok_grows; [by eapply inv_wf|done|done].
Qed.

(** Operations that only touch active requests create no active request. *)
Lemma grows_active s s' w w' p :
  sched_inv ∅ s w -> sched_inv ∅ s' w' -> evolves (fun _ => grows) s s' ->
  active s' p -> active s p.
Proof.
  intros Hs Hs' [Hlen Hev] Ha. destruct (inv_active_lookup _ _ _ _ Hs' Ha) as [r' Hr'].
  destruct (lookup_lt_is_Some_2 (requests_ s) p) as [r Hr];
    [rewrite <- Hlen; by eapply lookup_lt_Some|].
  destruct (Hev p r Hr) as (r1 & Hr1 & Hg). assert (r1 = r') as -> by congruence.
  destruct (decide (active s p)) as [|Hna]; [done|exfalso].
  pose proof (inv_rest _ _ _ Hs p r Hr Hna) as Ht.
  pose proof (inv_active_not_terminal _ _ _ _ Hs' Ha Hr') as Ht'.
  destruct Hg as [->|(? & _)]; congruence.
Qed.

(** The scheduler moved on: no new active request, the old ones grew. *)
Lemma inv_scheduler subs s s' m cs w w' log :
  engine_inv subs s m cs w log -> sched_inv ∅ s' w' -> evolves (fun _ => grows) s s' ->
  engine_inv subs s' m cs w' log.
Proof.
  intros [] Hinv' Hev. split; try done.
  - intros id entry Hm. eapply entry_ok_grows; [done|exact (proj2 Hev)|eauto].
  - intros p r' Ha Hr'. pose proof (grows_active _ _ _ _ _ ei_sched0 Hinv' Hev Ha) as Ha0.
    destruct (inv_active_lookup _ _ _ _ ei_sched0 Ha0) as [r Hr].
    destruct (evolves_lookup _ _ _ _ _ Hev Hr) as (r1 & Hr1 & Hg%grows_id).
    assert (r1 = r') as -> by congruence. rewrite Hg. eauto.
Qed.

Lemma tick_grows s w rep s' w' : tick_post s w rep s' w' -> sched_inv ∅ s w ->
  evolves (fun _ => grows) s s'.
Proof.
  intros Hpost Hs. destruct (post_evolves _ _ _ _ _ Hpost) as [Hlen Hev]. split; [done|].
  intros p r Hr. destruct (Hev p r Hr) as (r' & Hr' & Hact & Hrest). exists r'.
  split; [done|]. destruct (decide (active s p)) as [Ha|Hna]; [|left; auto].
  right. split; [by eapply inv_active_not_terminal|].
  destruct (Hact Ha) as [((Hid & _) & Hst & _ & Ho)|(tok & ((Hid & _) & _ & Ho) & _)];
    (split; [done|]); [left|right; eauto]. split; [done|]. by rewrite Hst.
Qed.

Lemma cancel_grows id s w s' :
  sched_inv ∅ s w -> evolves (cancel_effect id s) s s' -> evolves (fun _ => grows) s s'.
Proof.
  intros Hs [Hlen Hev]. split; [done|]. intros p r Hr.
  destruct (Hev p r Hr) as (r' & Hr' & Hc). exists r'. split; [done|].
  destruct Hc as [(Ha & _ & (Hid & _) & Hst & _ & Ho)|[_ ->]]; [|by left].
  right. split; [by eapply inv_active_not_terminal|]. split; [done|]. left.
  split; [done|]. by rewrite Hst.
Qed.

(** An entry whose request the scheduler no longer works on is closed and
    forgotten. *)
Lemma inv_remove subs s m cs w log id entry :
  engine_inv subs s m cs w log -> m !! id = Some entry -> fresh_id id s ->
  exists c, cs !! entry_channel entry = Some c /\
    close_channel (entry_channel entry) cs = Ok (<[entry_channel entry := close c]> cs) /\
    engine_inv subs s (delete id m) (<[entry_channel entry := close c]> cs) w log.
Proof.
  intros Hinv Hm Hfresh. pose proof Hinv as [Hs Hen Hch Hac Hp Hpi Hpc].
  destruct (Hen _ _ Hm) as (_ & c0 & _ & _ & Hc0 & _). exists c0. split; [done|].
  unfold close_channel, deref_channel. rewrite Hc0. split; [done|]. split; try done.
  - intros id' entry' [Hne Hm']%lookup_delete_Some.
    destruct (Hen _ _ Hm') as (r & c & Hr & Hid & Hc & Hrest).
    exists r, c. split; [done|]. split; [done|]. split; [|done].
    rewrite lookup_insert_ne; [done|]. intros Heq. apply Hne. by eapply Hch.
  - intros id1 id2 e1 e2 [_ H1]%lookup_delete_Some [_ H2]%lookup_delete_Some. by eapply Hch.
  - intros p r Ha Hr. destruct (Hac p r Ha Hr) as (en & Hen' & Hp'). exists en.
    split; [|done]. rewrite lookup_delete_ne; [done|]. intros Heq. by apply (Hfresh p r).
  - eapply Forall_impl; [exact Hp|].
    intros sub (Hmax & Hnone & (c & Hc & Hrest) & Hother). split; [done|].
    split; [by apply lookup_delete_None; right|]. split.
    + exists c. split; [|done]. rewrite lookup_insert_ne; [done|]. by eapply Hother.
    + intros id' entry' [_ Hm']%lookup_delete_Some. by eapply Hother.
Qed.

(** The environment read the steady clock, or nothing happened to it. *)
Lemma inv_world subs s m cs w w' log :
  time w <= time w' -> live w' = live w ->
  engine_inv subs s m cs w log -> engine_inv subs s m cs w' log.
Proof. intros Ht Hl []. split; try done. by eapply inv_later. Qed.

(** An entry and its channel are replaced, the stream going on. *)
Lemma inv_replace subs s m cs w log log' id entry entry' c :
  engine_inv subs s m cs w log -> m !! id = Some entry ->
  entry_request entry' = entry_request entry -> entry_channel entry' = entry_channel entry ->
  (forall p, p <> entry_channel entry -> delivered_to p log' = delivered_to p log) ->
  entry_ok s (<[entry_channel entry := c]> cs) log' id entry' ->
  engine_inv subs s (<[id := entry']> m) (<[entry_channel entry := c]> cs) w log'.
Proof.
  intros Hinv Hm Hreq Hchan Hlog Hok. pose proof Hinv as [Hs Hen Hch Hac Hp Hpi Hpc].
  split; try done.
  - intros id' en' [[<- <-]|[Hne Hm']]%lookup_insert_Some; [done|].
    destruct (Hen _ _ Hm') as (r2 & c2 & Hr2 & Hid2 & Hc2 & Hop2 & Hst2).
    assert (Hne' : entry_channel en' <> entry_channel entry) by (intros Heq; apply Hne; by eapply Hch).
    exists r2, c2. rewrite lookup_insert_ne by done. split_and!; try done.
    unfold stream in *. by rewrite Hlog.
  - intros id1 id2 e1 e3 [[<- <-]|[? H1]]%lookup_insert_Some [[<- <-]|[? H2]]%lookup_insert_Some Heq;
      [done| | |by eapply Hch]; rewrite Hchan in Heq; by eapply Hch.
  - intros p rp Ha Hrp. destruct (Hac p rp Ha Hrp) as (en & Hen' & Hp').
    destruct (decide (id_ rp = id)) as [Heq|Hne].
    + exists entry'. rewrite Heq, lookup_insert_eq. split; [done|]. rewrite Heq in Hen'. congruence.
    + exists en. by rewrite lookup_insert_ne.
  - eapply Forall_impl; [exact Hp|].
    intros sub (Hmx & Hnone & (c2 & Hc2 & Hop2 & Hst2) & Hother). split; [done|].
    assert (Hne : sub_id sub <> id) by (intros Heq; rewrite Heq in Hnone; congruence).
    assert (Hne' : sub_channel sub <> entry_channel entry) by (intros Heq; by eapply Hother).
    split; [by rewrite lookup_insert_ne|]. split.
    + exists c2. rewrite lookup_insert_ne by done. split; [done|]. split; [done|].
      unfold stream in *. by rewrite Hlog.
    + intros id' en' [[<- <-]|[_ Hm']]%lookup_insert_Some; [rewrite Hchan|]; by eapply Hother.
Qed.

(** The loop of [push_tokens] on one entry, for any number of tokens. *)
Lemma inv_push subs s m cs w log id entry r n i :
  engine_inv subs s m cs w log -> m !! id = Some entry ->
  requests_ s !! entry_request entry = Some r -> last_seen_tokens entry = Z.of_nat i ->
  (i + n <= length (output_token_ids_ r))%nat ->
  exists entry' cs' w', push_loop r n (Z.of_nat i) entry cs w = Ok (entry', cs', w') /\
    (forall p, p <> entry_channel entry -> cs' !! p = cs !! p) /\
    engine_inv subs s (<[id := entry']> m) cs' w' log.
Proof.
  intros Hinv Hm Hr Hi Hn. destruct (ei_entries _ _ _ _ _ _ Hinv _ _ Hm)
    as (r0 & c & Hr0 & Hid & Hc & Hop & Hst). assert (r0 = r) by congruence. subst r0.
  pose proof (inv_wf _ _ _ (ei_sched _ _ _ _ _ _ Hinv) _ _ Hr) as Hwf.
  pose proof (req_output _ _ Hwf). pose proof (req_budget _ _ Hwf). pose proof (req_max _ _ Hwf).
  destruct (push_loop_ok r n i entry cs w c Hc) as
    (k & e2 & w2 & E & Hk & Hreq & Hchan & Hlast & _ & _ & Hw2); [done|done|lia|].
  do 3 eexists. split; [exact E|]. split; [intros p Hp; by apply lookup_insert_ne|].
  apply (inv_world subs s _ _ w w2).
  1,2: destruct Hw2 as [[_ ->]|[_ [->|[t Ht]]]]; try done;
    by destruct (steady_contract _ _ _ Ht).
  eapply inv_replace; try done. rewrite <- Hchan. exists r.
  eexists. rewrite Hreq, Hchan, lookup_insert_eq. do 3 (split; [done|]). split; [done|].
  rewrite Hlast. unfold stream. simpl. rewrite app_assoc.
  eapply stream_ok_events; [done| |lia]. rewrite <- Hi. exact Hst.
Qed.

(** The consumers and the creation of channels keep every stream. *)
Lemma inv_channels_ext subs s m cs cs' w log log' :
  (forall p c, cs !! p = Some c -> exists c', cs' !! p = Some c' /\ closed_ c' = closed_ c /\
     stream p c' log' = stream p c log) ->
  engine_inv subs s m cs w log -> engine_inv subs s m cs' w log'.
Proof.
  intros Hext []. split; try done.
  - intros id entry Hm. destruct (ei_entries0 _ _ Hm) as (r & c & Hr & Hid & Hc & Hop & Hst).
    destruct (Hext _ _ Hc) as (c' & Hc' & Hop' & Hs'). exists r, c'.
    split_and!; try done; congruence.
  - eapply Forall_impl; [exact ei_pending0|].
    intros sub (Hmx & Hnone & (c & Hc & Hop & Hst) & Hother).
    destruct (Hext _ _ Hc) as (c' & Hc' & Hop' & Hs').
    split; [done|]. split; [done|]. split; [|done].
    exists c'. split; [done|]. split; congruence.
Qed.

Lemma pop_stream p c c' ev log :
  pop c = Some (Some ev, c') ->
  closed_ c' = closed_ c /\
  stream p c' (<[p := delivered_to p log ++ [ev]]> log) = stream p c log.
Proof.
  intros E. destruct (pop_cases c) as [[E' _]|[[E' _]|(e & rest & Hb & E')]];
    rewrite E' in E; try done.
  injection E as -> <-. split; [done|]. unfold stream, delivered_to. rewrite lookup_insert_eq, Hb.
  simpl. by rewrite <- app_assoc.
Qed.

Lemma inv_pop subs s m cs w log p c c' ev :
  engine_inv subs s m cs w log -> cs !! p = Some c -> pop c = Some (Some ev, c') ->
  engine_inv subs s m (<[p := c']> cs) w (<[p := delivered_to p log ++ [ev]]> log).
Proof.
  intros Hinv Hc Hpop. destruct (pop_stream p c c' ev log Hpop) as [Hcl Hst].
  eapply inv_channels_ext; [|exact Hinv]. intros q c0 Hq.
  destruct (decide (q = p)) as [->|Hne].
  - assert (c0 = c) by congruence. subst c0. exists c'. by rewrite lookup_insert_eq.
  - exists c0. rewrite lookup_insert_ne by done. split; [done|]. split; [done|].
    unfold stream, delivered_to. by rewrite lookup_insert_ne.
Qed.

Lemma inv_submission subs s m cs w log sub :
  engine_inv subs s m cs w log -> pending_ok m cs log sub ->
  sub_id sub ∉ sub_id <$> subs -> sub_channel sub ∉ sub_channel <$> subs ->
  engine_inv (subs ++ [sub]) s m cs w log.
Proof.
  intros [] Hok Hid Hch. split; try done.
  - apply Forall_app. split; [done|]. by constructor.
  - rewrite fmap_app. apply NoDup_app. split; [done|]. split; [|apply NoDup_singleton].
    intros x Hx ->%list_elem_of_singleton. done.
  - rewrite fmap_app. apply NoDup_app. split; [done|]. split; [|apply NoDup_singleton].
    intros x Hx ->%list_elem_of_singleton. done.
Qed.

(** Nothing the scheduler works on has the id of a pending submission. *)
Lemma pending_fresh sub subs s m cs w log :
  engine_inv (sub :: subs) s m cs w log -> fresh_id (sub_id sub) s.
Proof.
  intros Hinv q r Ha Hr Hid. destruct (ei_active _ _ _ _ _ _ Hinv q r Ha Hr) as (en & Hen & _).
  pose proof (ei_pending _ _ _ _ _ _ Hinv) as Hp. apply Forall_cons in Hp as [(_ & Hn & _) _].
  congruence.
Qed.

(** One turn of the loop of [drain_submissions]. *)
Lemma inv_admit sub subs s m cs w log r w1 :
  engine_inv (sub :: subs) s m cs w log ->
  new_request (sub_id sub) (sub_deadline sub) (sub_max_tokens sub) (sub_prompt_token_ids sub) 0 w
    = Ok (r, w1) ->
  exists ref s' w', FifoScheduler.submit r s w1 = Ok (ref, s', w') /\
    store_grows s s' /\
    engine_inv subs s'
      (emplace (sub_id sub) (mkActiveEntry ref (sub_channel sub) 0 None) m) cs w' log /\
    m !! sub_id sub = None /\
    exists r', requests_ s' = requests_ s ++ [r'] /\ requests_ s' !! ref = Some r' /\
      max_output_tokens_ r' = sub_max_tokens sub /\ req_state r' = kWaitingPrefill.
Proof.
  intros Hinv Hnew. pose proof (pending_fresh _ _ _ _ _ _ _ Hinv) as Hfresh.
  pose proof Hinv as [Hs Hen Hch Hac Hp Hpi Hpc].
  apply Forall_cons in Hp as [(Hmax & Hnone & (c & Hc & Hop & Hst) & Hother) Hp].
  apply NoDup_cons in Hpi as [Hpi1 Hpi], Hpc as [Hpc1 Hpc].
  destruct (new_request_submit _ _ _ _ _ _ _ _ _ Hs Hmax Hfresh Hnew)
    as (r' & s' & w' & E & Hs' & _ & _ & Hst' & Hid' & Hbudget & _ & _ & Hem & _ & _ & Hdef).
  do 3 eexists. split; [exact E|]. rewrite (emplace_fresh _ _ _ Hnone).
  set (n := length (requests_ s)) in *. set (entry0 := mkActiveEntry _ _ _ _).
  assert (Hlook : forall p rp, requests_ s !! p = Some rp -> requests_ s' !! p = Some rp).
  { intros p rp Hrp. rewrite Hdef. simpl. by apply lookup_app_l_Some. }
  assert (Hn : requests_ s' !! n = Some r').
  { rewrite Hdef. simpl. by apply list_lookup_middle. }
  assert (Hg : store_grows s s') by (intros p rp Hrp; exists rp; split; [auto|by left]).
  split; [done|]. split; [|split; [done|exists r'; by rewrite Hdef in *]].
  split; try done.
  - intros id entry [[<- <-]|[_ Hm]]%lookup_insert_Some; [|eapply entry_ok_grows; eauto].
    exists r', c. split_and!; try done. simpl. rewrite Hst. split; [pose proof (size_of_nonneg (output_token_ids_ r')); lia|].
    split; [done|]. intros j ev Hj. by rewrite lookup_nil in Hj.
  - intros id1 id2 e1 e2 [[<- <-]|[? H1]]%lookup_insert_Some [[<- <-]|[? H2]]%lookup_insert_Some Heq;
      [done| | |by eapply Hch]; simpl in Heq; exfalso; by eapply Hother.
  - intros p rp Ha Hrp. destruct (decide (p = n)) as [->|Hpn].
    + assert (rp = r') by congruence. subst rp. exists entry0.
      by rewrite Hid', lookup_insert_eq.
    + assert (Ha0 : active s p).
      { unfold active in *. rewrite Hdef in Ha. simpl in Ha. set_solver. }
      destruct (inv_active_lookup _ _ _ _ Hs Ha0) as [r0 Hr0].
      assert (r0 = rp) by (specialize (Hlook _ _ Hr0); congruence). subst r0.
      destruct (Hac _ _ Ha0 Hr0) as (en & Hm & Hreq). exists en.
      rewrite lookup_insert_ne; [done|]. intros Heq. by apply (Hfresh p rp).
  - apply Forall_forall. intros sub' Hin. pose proof Hp as Hp'. rewrite Forall_forall in Hp'.
    destruct (Hp' sub' Hin) as (Hmx' & Hnone' & Hc' & Hother').
    split; [done|]. split; [|split; [done|]].
    + rewrite lookup_insert_ne; [done|]. intros Heq. apply Hpi1. rewrite Heq.
      by apply list_elem_of_fmap_2.
    + intros id entry [[<- <-]|[_ Hm]]%lookup_insert_Some; [|by eapply Hother'].
      simpl. intros Heq. apply Hpc1. rewrite Heq. by apply list_elem_of_fmap_2.
Qed.

End Invariant.
