(* ===== verification/EngineCorrect.v ===== *)
(** * The engine streams every request faithfully

    [engine_step] lets the methods of the engine thread, the calls of the
    network threads, the consumers and the clock interleave in any order, at
    the granularity of the critical sections of the program: one submission
    admitted, one cancellation processed, one [try_push], one entry reaped, one
    [pop].  A turn of [run] is one such sequence of steps
    ([run_once_runs]). *)

From S2P Require Import Prelude Clock RequestState RequestLifecycle Request Backend FifoScheduler SchedulerInvariant SchedulerCorrect SchedulerSpec TokenChannel Engine EngineInvariant.

(** The engine, the channels, the environment and what consumers received. *)
Record System (W : Type) := mkSystem {
  sys_engine : Engine;
  sys_channels : ChannelStore;
  sys_world : W;
  sys_log : DeliveryLog;
}.
Arguments mkSystem {W} _ _ _ _.
Arguments sys_engine {W} _.
Arguments sys_channels {W} _.
Arguments sys_world {W} _.
Arguments sys_log {W} _.

(** The collecting conditions of [check_backpressure] and [reap_terminal]. *)
Definition stalled (e : Engine) (now : TimePoint) (id : RequestId) : Prop :=
  exists entry t, active_ e !! id = Some entry /\ backpressure_since entry = Some t /\
    backpressure_timeout (config_ e) <= now - t.

Definition finished (e : Engine) (id : RequestId) : Prop :=
  exists entry r, active_ e !! id = Some entry /\
    requests_ (scheduler_ e) !! entry_request entry = Some r /\
    is_terminal (req_state r) = true /\ output_tokens_emitted_ r <= last_seen_tokens entry.

Section Steps.
Context {W : Type} `{!Clock W, !ClockLaws W, !InferenceBackend W, !BackendContract W,
  !SteadyClock W, !SteadyLaws W}.
Implicit Types (e : Engine) (cs : ChannelStore) (w : W) (log : DeliveryLog) (x y z : System W).

Inductive engine_step : System W -> System W -> Prop :=
  (** the network threads *)
  | es_start e cs w log :
      engine_step (mkSystem e cs w log) (mkSystem (start e).2 cs w log)
  | es_stop e cs w log :
      engine_step (mkSystem e cs w log) (mkSystem (stop e).2 cs w log)
  | es_channel p cap e cs w log : cs !! p = None -> log !! p = None ->
      engine_step (mkSystem e cs w log) (mkSystem e (<[p := new_channel cap]> cs) w log)
  | es_submit sub e cs w log : pending_ok (active_ e) cs log sub ->
      sub_id sub ∉ sub_id <$> pending_submissions_ e ->
      sub_channel sub ∉ sub_channel <$> pending_submissions_ e ->
      engine_step (mkSystem e cs w log) (mkSystem (submit sub e).2 cs w log)
  | es_request_cancel id e cs w log :
      engine_step (mkSystem e cs w log) (mkSystem (cancel id e) cs w log)
  | es_pop p c c' ev e cs w log : cs !! p = Some c -> pop c = Some (Some ev, c') ->
      engine_step (mkSystem e cs w log)
        (mkSystem e (<[p := c']> cs) w (<[p := delivered_to p log ++ [ev]]> log))
  (** the environment *)
  | es_world e cs w w' log : time w <= time w' -> live w' = live w ->
      engine_step (mkSystem e cs w log) (mkSystem e cs w' log)
  (** the engine thread *)
  | es_admit sub rest e e' cs w w' log : pending_submissions_ e = sub :: rest ->
      submit_batch [sub] (set_pending rest (pending_cancels_ e) e) w = Ok (e', w') ->
      engine_step (mkSystem e cs w log) (mkSystem e' cs w' log)
  | es_cancel id rest e e' cs cs' w w' log : pending_cancels_ e = id :: rest ->
      cancel_batch [id] (set_pending (pending_submissions_ e) rest e) cs w = Ok (e', cs', w') ->
      engine_step (mkSystem e cs w log) (mkSystem e' cs' w' log)
  | es_tick rep s' e cs w w' log : tick_fits (scheduler_ e) w ->
      tick (scheduler_ e) w = Ok (rep, s', w') ->
      engine_step (mkSystem e cs w log) (mkSystem (set_scheduler s' e) cs w' log)
  | es_push id entry entry' r e cs cs' w w' log : active_ e !! id = Some entry ->
      requests_ (scheduler_ e) !! entry_request entry = Some r ->
      last_seen_tokens entry < output_tokens_emitted_ r ->
      push_loop r 1 (last_seen_tokens entry) entry cs w = Ok (entry', cs', w') ->
      engine_step (mkSystem e cs w log)
        (mkSystem (set_active (<[id := entry']> (active_ e)) e) cs' w' log)
  | es_stalled id now e e' cs cs' w w' log : stalled e now id ->
      cancel_stalled [id] e cs w = Ok (e', cs', w') ->
      engine_step (mkSystem e cs w log) (mkSystem e' cs' w' log)
  | es_reap id e e' cs cs' w log : finished e id ->
      reap [id] e cs = Ok (e', cs') ->
      engine_step (mkSystem e cs w log) (mkSystem e' cs' w log).

Definition sys_inv x : Prop :=
  engine_inv (pending_submissions_ (sys_engine x)) (scheduler_ (sys_engine x))
    (active_ (sys_engine x)) (sys_channels x) (sys_world x) (sys_log x).

(** A closed channel stays closed and its stream is final. *)
Definition closed_kept x y : Prop :=
  forall p c, sys_channels x !! p = Some c -> closed_ c = true ->
    exists c', sys_channels y !! p = Some c' /\ closed_ c' = true /\
      stream p c' (sys_log y) = stream p c (sys_log x).

(** What every step guarantees. *)
Definition good_step x y : Prop :=
  sys_inv y /\ store_grows (scheduler_ (sys_engine x)) (scheduler_ (sys_engine y)) /\
  closed_kept x y.

Lemma store_grows_refl s : store_grows s s.
Proof. intros p r Hr. exists r. split; [done|by left]. Qed.

Lemma closed_kept_same e e' cs w w' log :
  closed_kept (mkSystem e cs w log) (mkSystem e' cs w' log).
Proof. intros p c Hc Hcl. eauto. Qed.

Lemma closed_kept_insert e e' cs w w' log p c :
  cs !! p = Some c ->
  closed_kept (mkSystem e cs w log) (mkSystem e' (<[p := close c]> cs) w' log).
Proof.
  intros Hc q c0 Hq Hcl. simpl in *. destruct (decide (q = p)) as [->|Hne].
  - assert (c0 = c) by congruence. subst c0. exists (close c).
    rewrite lookup_insert_eq. by split_and!.
  - exists c0. by rewrite lookup_insert_ne.
Qed.

(** A request that is cancelled by its id, its channel closed and its entry
    erased: the common part of [drain_cancels] and [check_backpressure]. *)
Lemma cancel_close_ok id subs s m cs w log :
  engine_inv subs s m cs w log ->
  exists s' w', FifoScheduler.cancel id s w = Ok (s', w') /\ store_grows s s' /\
    engine_inv subs s' m cs w' log /\
    forall entry, m !! id = Some entry ->
      exists c, cs !! entry_channel entry = Some c /\
        close_channel (entry_channel entry) cs = Ok (<[entry_channel entry := close c]> cs) /\
        engine_inv subs s' (delete id m) (<[entry_channel entry := close c]> cs) w' log.
Proof.
  intros Hinv. pose proof (ei_sched _ _ _ _ _ _ Hinv) as Hs.
  destruct (cancel_ok id s w Hs) as (s' & w' & E & Hs' & _ & Hev).
  pose proof (cancel_grows _ _ _ _ Hs Hev) as Hg.
  exists s', w'. split; [done|]. split; [exact (proj2 Hg)|].
  assert (Hinv' : engine_inv subs s' m cs w' log) by (by eapply inv_scheduler).
  split; [done|]. intros entry Hm. eapply inv_remove; [done|done|]. exact (cancel_fresh _ _ _ _ _ Hs Hs' Hev).
Qed.

(** Each kind of step keeps the invariant, grows the store and leaves closed
    channels final; [step_good] below puts the kinds together. *)
Lemma good_same e e' cs w w' log :
  sys_inv (mkSystem e' cs w' log) -> store_grows (scheduler_ e) (scheduler_ e') ->
  good_step (mkSystem e cs w log) (mkSystem e' cs w' log).
Proof. unfold good_step. auto using closed_kept_same. Qed.

Lemma good_channel p cap e cs w log :
  sys_inv (mkSystem e cs w log) -> cs !! p = None -> log !! p = None ->
  good_step (mkSystem e cs w log) (mkSystem e (<[p := new_channel cap]> cs) w log).
Proof.
  unfold good_step, sys_inv. simpl. intros Hinv Hp Hl.
  assert (Hne : forall q c, cs !! q = Some c -> q <> p) by (intros q c Hq ->; congruence).
  split; [eapply inv_channels_ext; [|exact Hinv]; intros q c Hq; exists c;
    rewrite lookup_insert_ne by (by apply not_eq_sym, (Hne q c)); by split_and!|].
  split; [apply store_grows_refl|]. intros q c Hq Hcl. simpl in *. exists c.
  rewrite lookup_insert_ne by (by apply not_eq_sym, (Hne q c)). by split_and!.
Qed.

Lemma good_pop p c c' ev e cs w log :
  sys_inv (mkSystem e cs w log) -> cs !! p = Some c -> pop c = Some (Some ev, c') ->
  good_step (mkSystem e cs w log)
    (mkSystem e (<[p := c']> cs) w (<[p := delivered_to p log ++ [ev]]> log)).
Proof.
  unfold good_step, sys_inv. simpl. intros Hinv Hc Hpop.
  split; [by eapply inv_pop|]. split; [apply store_grows_refl|].
  destruct (pop_stream p c c' ev log Hpop) as [Hcl Hst].
  intros q c0 Hq Hcl0. simpl in *. destruct (decide (q = p)) as [->|Hne].
  - assert (c0 = c) by congruence. subst c0. exists c'. rewrite lookup_insert_eq, Hcl. by split_and!.
  - exists c0. rewrite lookup_insert_ne by done. split_and!; try done.
    unfold stream, delivered_to. by rewrite lookup_insert_ne.
Qed.

Lemma good_admit sub rest e e' cs w w' log :
  sys_inv (mkSystem e cs w log) -> pending_submissions_ e = sub :: rest ->
  submit_batch [sub] (set_pending rest (pending_cancels_ e) e) w = Ok (e', w') ->
  good_step (mkSystem e cs w log) (mkSystem e' cs w' log).
Proof.
  unfold sys_inv. simpl. intros Hinv Hpend E. rewrite Hpend in Hinv.
  apply bind_Ok in E as ([r w1] & Hnew & E).
  destruct (inv_admit _ _ _ _ _ _ _ _ _ Hinv Hnew) as (ref & s' & w2 & Esub & Hg & Hinv' & _).
  rewrite Esub in E. simpl in E. injection E as <- <-. by apply good_same.
Qed.

Lemma good_cancel id rest e e' cs cs' w w' log :
  sys_inv (mkSystem e cs w log) ->
  cancel_batch [id] (set_pending (pending_submissions_ e) rest e) cs w = Ok (e', cs', w') ->
  good_step (mkSystem e cs w log) (mkSystem e' cs' w' log).
Proof.
  unfold sys_inv. simpl. intros Hinv E.
  destruct (cancel_close_ok id _ _ _ _ _ _ Hinv) as (s' & w1 & E1 & Hg & Hinv' & Hrem).
  rewrite E1 in E. simpl in E. destruct (active_ e !! id) as [entry|] eqn:Hm.
  - destruct (Hrem entry eq_refl) as (c & Hc & Ec & Hinv2). rewrite Ec in E.
    simpl in E. injection E as <- <- <-. split; [done|].
    split; [done|]. by apply closed_kept_insert.
  - injection E as <- <- <-. by apply good_same.
Qed.

Lemma good_tick rep s' e cs w w' log :
  sys_inv (mkSystem e cs w log) -> tick_fits (scheduler_ e) w ->
  tick (scheduler_ e) w = Ok (rep, s', w') ->
  good_step (mkSystem e cs w log) (mkSystem (set_scheduler s' e) cs w' log).
Proof.
  unfold sys_inv. simpl. intros Hinv Hf E. pose proof (ei_sched _ _ _ _ _ _ Hinv) as Hs.
  destruct (tick_ok _ _ Hs Hf) as (rep' & s1 & w1 & E1 & Hpost). rewrite E1 in E.
  injection E as <- <- <-. pose proof (tick_grows _ _ _ _ _ Hpost Hs) as Hg.
  apply good_same; [|exact (proj2 Hg)]. eapply inv_scheduler; [done|apply Hpost|done].
Qed.

Lemma good_push id entry entry' r e cs cs' w w' log :
  sys_inv (mkSystem e cs w log) -> active_ e !! id = Some entry ->
  requests_ (scheduler_ e) !! entry_request entry = Some r ->
  last_seen_tokens entry < output_tokens_emitted_ r ->
  push_loop r 1 (last_seen_tokens entry) entry cs w = Ok (entry', cs', w') ->
  good_step (mkSystem e cs w log)
    (mkSystem (set_active (<[id := entry']> (active_ e)) e) cs' w' log).
Proof.
  unfold sys_inv. intros Hinv Hm Hr Hlt E. simpl in Hinv. pose proof (ei_sched _ _ _ _ _ _ Hinv) as Hs.
  destruct (ei_entries _ _ _ _ _ _ Hinv _ _ Hm) as (r0 & c & Hr0 & _ & Hc & Hop & [Hn Hst]).
  assert (r0 = r) by congruence. subst r0.
  pose proof (req_output _ _ (inv_wf _ _ _ Hs _ _ Hr)) as Ho. unfold size_of in Ho.
  destruct (inv_push _ _ _ _ _ _ id entry r 1 (Z.to_nat (last_seen_tokens entry)) Hinv Hm Hr)
    as (en' & cs1 & w1 & E1 & Hcs1 & Hinv'); [lia|lia|].
  rewrite Z2Nat.id in E1 by lia. rewrite E1 in E. injection E as <- <- <-.
  split; [done|]. split; [apply store_grows_refl|]. intros q c0 Hq Hcl. simpl in *.
  exists c0. rewrite Hcs1 by (intros ->; congruence). by split_and!.
Qed.

Lemma good_stalled id now e e' cs cs' w w' log :
  sys_inv (mkSystem e cs w log) -> stalled e now id ->
  cancel_stalled [id] e cs w = Ok (e', cs', w') ->
  good_step (mkSystem e cs w log) (mkSystem e' cs' w' log).
Proof.
  unfold sys_inv. simpl. intros Hinv (entry & t & Hm & _) E.
  destruct (cancel_close_ok id _ _ _ _ _ _ Hinv) as (s' & w1 & E1 & Hg & _ & Hrem).
  destruct (Hrem entry Hm) as (c & Hc & Ec & Hinv2).
  rewrite E1 in E. simpl in E. rewrite Hm in E. simpl in E. rewrite Ec in E.
  simpl in E. injection E as <- <- <-. split; [done|].
  split; [done|]. by apply closed_kept_insert.
Qed.

(** A finished request is not active any more, so no active one has its id. *)
Lemma finished_fresh id subs e cs w log :
  engine_inv subs (scheduler_ e) (active_ e) cs w log -> finished e id ->
  fresh_id id (scheduler_ e).
Proof.
  intros Hinv (entry & r & Hm & Hr & Hterm & _) q rq Ha Hrq Hidq.
  destruct (ei_active _ _ _ _ _ _ Hinv q rq Ha Hrq) as (en & Hen & Hreq).
  assert (en = entry) by congruence. subst en.
  pose proof (inv_active_not_terminal _ _ _ _ (ei_sched _ _ _ _ _ _ Hinv) Ha Hrq) as Hnt.
  rewrite <- Hreq in Hrq. congruence.
Qed.

Lemma good_reap id e e' cs cs' w log :
  sys_inv (mkSystem e cs w log) -> finished e id -> reap [id] e cs = Ok (e', cs') ->
  good_step (mkSystem e cs w log) (mkSystem e' cs' w log).
Proof.
  unfold sys_inv. simpl. intros Hinv Hfin E.
  pose proof (finished_fresh _ _ _ _ _ _ Hinv Hfin) as Hfresh.
  destruct Hfin as (entry & r & Hm & _).
  destruct (inv_remove _ _ _ _ _ _ id entry Hinv Hm Hfresh) as (c & Hc & Ec & Hinv2).
  rewrite Hm in E. simpl in E. rewrite Ec in E. simpl in E. injection E as <- <-.
  split; [done|]. split; [apply store_grows_refl|]. by apply closed_kept_insert.
Qed.

Lemma step_good x y : sys_inv x -> engine_step x y -> good_step x y.
Proof.
  intros Hinv Hstep. destruct Hstep;
    eauto using good_channel, good_pop, good_admit, good_cancel, good_tick, good_push,
      good_stalled, good_reap;
    apply good_same; try done; unfold sys_inv in *; simpl in *.
  - unfold start. by destruct (running_ e).
  - unfold start. destruct (running_ e); apply store_grows_refl.
  - unfold stop. by destruct (running_ e).
  - unfold stop. destruct (running_ e); apply store_grows_refl.
  - unfold submit. destruct (running_ e); simpl; [by apply inv_submission|done].
  - unfold submit. destruct (running_ e); apply store_grows_refl.
  - apply store_grows_refl.
  - by eapply inv_world.
  - apply store_grows_refl.
Qed.

(** Ended requests and closed streams never change again. *)
Lemma steps_good x y : sys_inv x -> rtc engine_step x y ->
  sys_inv y /\ closed_kept x y /\
  forall p r, requests_ (scheduler_ (sys_engine x)) !! p = Some r ->
    is_terminal (req_state r) = true -> requests_ (scheduler_ (sys_engine y)) !! p = Some r.
Proof.
  intros Hinv Hxy. induction Hxy as [x|x y z Hxy Hyz IH].
  { split; [done|]. split; [|done]. intros p c Hc Hcl. eauto. }
  destruct (step_good _ _ Hinv Hxy) as (Hy & Hg & Hc1). destruct (IH Hy) as (Hz & Hc2 & Ht2).
  split; [done|]. split.
  - intros p c Hc Hcl. destruct (Hc1 p c Hc Hcl) as (c1 & Hc1' & Hcl1 & Hst1).
    destruct (Hc2 p c1 Hc1' Hcl1) as (c2 & Hc2' & Hcl2 & Hst2). exists c2.
    split_and!; [done|done|congruence].
  - intros p r Hr Ht. destruct (Hg p r Hr) as (r1 & Hr1 & [->|(Hnt & _)]); [auto|congruence].
Qed.

(** Request [p] has ended and channel [q], closed, carries its whole output. *)
Definition served (p : RequestPtr) (q : ChannelPtr) x : Prop :=
  exists r c, requests_ (scheduler_ (sys_engine x)) !! p = Some r /\
    is_terminal (req_state r) = true /\ sys_channels x !! q = Some c /\ closed_ c = true /\
    stream_ok r (size_of (output_token_ids_ r)) (stream q c (sys_log x)).

Lemma served_steps p q x y :
  sys_inv x -> rtc engine_step x y -> served p q x -> served p q y.
Proof.
  intros Hinv Hxy (r & c & Hr & Ht & Hc & Hcl & Hst).
  destruct (steps_good _ _ Hinv Hxy) as (_ & Hclosed & Hterm).
  destruct (Hclosed q c Hc Hcl) as (c' & Hc' & Hcl' & Hst').
  exists r, c'. rewrite Hst'. split_and!; auto.
Qed.

(** Reaping a finished entry leaves its request served. *)
Lemma reap_one id entry e cs w log :
  sys_inv (mkSystem e cs w log) -> active_ e !! id = Some entry -> finished e id ->
  exists c, cs !! entry_channel entry = Some c /\
    reap [id] e cs = Ok (set_active (delete id (active_ e)) e, <[entry_channel entry := close c]> cs) /\
    served (entry_request entry) (entry_channel entry)
      (mkSystem (set_active (delete id (active_ e)) e) (<[entry_channel entry := close c]> cs) w log).
Proof.
  intros Hinv Hm (entry0 & r & Hm0 & Hr & Hterm & Hlast). assert (entry0 = entry) by congruence.
  subst entry0. destruct (ei_entries _ _ _ _ _ _ Hinv _ _ Hm) as (r0 & c & Hr0 & _ & Hc & _ & Hst).
  simpl in Hr0, Hc, Hst. assert (r0 = r) by congruence. subst r0. exists c. split; [done|].
  split; [simpl; rewrite Hm; simpl; unfold close_channel, deref_channel; by rewrite Hc|].
  pose proof (req_output _ _ (inv_wf _ _ _ (ei_sched _ _ _ _ _ _ Hinv) _ _ Hr)) as Ho.
  exists r, (close c). simpl. rewrite lookup_insert_eq. do 4 (split; [done|]).
  replace (size_of (output_token_ids_ r)) with (last_seen_tokens entry); [exact Hst|].
  destruct Hst; lia.
Qed.

Definition engine_reachable x : Prop :=
  exists config w0, live w0 = ∅ /\
    rtc engine_step (mkSystem (new_engine config) ∅ w0 ∅) x.

Lemma reachable_inv x : engine_reachable x -> sys_inv x.
Proof.
  intros (config & w0 & Hl & Hsteps). eapply steps_good; [|exact Hsteps].
  split; simpl; [by apply new_scheduler_inv|intros; set_solver..|constructor|constructor|constructor].
Qed.

(** ** A turn of [run] *)

Definition overflow : string := "signed integer overflow".

(** The call [o], started in [x], returns and is a sequence of steps; [runs]: it
    does, unless a time computation overflows. *)
Definition returns (o : outcome (Engine * ChannelStore * W)) x : Prop :=
  exists e' cs' w', o = Ok (e', cs', w') /\ rtc engine_step x (mkSystem e' cs' w' (sys_log x)).

Definition runs (o : outcome (Engine * ChannelStore * W)) x : Prop :=
  returns o x \/ o = Undef overflow.

Lemma returns_Ok e cs w log : returns (Ok (e, cs, w)) (mkSystem e cs w log).
Proof. do 3 eexists. split; [done|]. apply rtc_refl. Qed.

Lemma runs_Ok e cs w log : runs (Ok (e, cs, w)) (mkSystem e cs w log).
Proof. left. apply returns_Ok. Qed.

(** A call known to return is a sequence of steps. *)
Lemma runs_steps e cs w x :
  runs (Ok (e, cs, w)) x -> rtc engine_step x (mkSystem e cs w (sys_log x)).
Proof. intros [(? & ? & ? & [= <- <- <-] & H)|?]; done. Qed.

(** One step, then the rest of the loop. *)
Lemma returns_step o x y :
  engine_step x y -> sys_log y = sys_log x -> returns o y -> returns o x.
Proof.
  intros Hxy Hlog (e' & cs' & w' & E & H).
  exists e', cs', w'. split; [done|]. rewrite <- Hlog. by eapply rtc_l.
Qed.

Lemma runs_step o x y : engine_step x y -> sys_log y = sys_log x -> runs o y -> runs o x.
Proof. intros Hxy Hlog [H|E]; [left; by eapply returns_step|by right]. Qed.

Lemma new_request_total id d m prompt priority w :
  (exists r w', new_request id d m prompt priority w = Ok (r, w')) \/
  new_request id d m prompt priority w = Undef overflow.
Proof.
  unfold new_request. destruct (new_lifecycle w) as [lc w1].
  destruct (clock_now w1) as [t w2]. unfold i64_add.
  destruct (in_i64 (t + d)); [left; by do 2 eexists|by right].
Qed.

Lemma submit_batch_runs batch e cs w log :
  pending_submissions_ e = [] ->
  sys_inv (mkSystem (set_pending batch (pending_cancels_ e) e) cs w log) ->
  runs ('(e, w) ← submit_batch batch e w; Ok (e, cs, w))
    (mkSystem (set_pending batch (pending_cancels_ e) e) cs w log).
Proof.
  revert e w. induction batch as [|sub batch IH]; intros e w Hnil Hinv.
  { simpl. rewrite <- Hnil. destruct e. apply runs_Ok. }
  cbn [submit_batch]. destruct (new_request_total (sub_id sub) (sub_deadline sub) (sub_max_tokens sub)
    (sub_prompt_token_ids sub) 0 w) as [(r & w1 & Hnew)|Hnew]; rewrite Hnew; [|by right].
  destruct (inv_admit _ _ _ _ _ _ _ _ _ Hinv Hnew) as (ref & s' & w2 & Esub & _ & Hinv' & _).
  simpl in Esub. cbn [mbind outcome_bind]. rewrite Esub. cbn [mbind outcome_bind].
  set (e1 := set_active _ _).
  assert (Hstep : engine_step
    (mkSystem (set_pending (sub :: batch) (pending_cancels_ e) e) cs w log)
    (mkSystem (set_pending batch (pending_cancels_ e1) e1) cs w2 log)).
  { eapply es_admit; [done|]. cbn [submit_batch]. rewrite Hnew. cbn [mbind outcome_bind].
    simpl. rewrite Esub. done. }
  eapply runs_step; [exact Hstep|done|]. apply IH; [done|]. by eapply step_good.
Qed.

Lemma cancel_batch_returns batch e cs w log :
  pending_cancels_ e = [] ->
  sys_inv (mkSystem (set_pending (pending_submissions_ e) batch e) cs w log) ->
  returns (cancel_batch batch e cs w)
    (mkSystem (set_pending (pending_submissions_ e) batch e) cs w log).
Proof.
  revert e cs w. induction batch as [|id batch IH]; intros e cs w Hnil Hinv.
  { simpl. rewrite <- Hnil. destruct e. apply returns_Ok. }
  cbn [cancel_batch].
  destruct (cancel_close_ok id _ _ _ _ _ _ Hinv) as (s' & w1 & E1 & _ & _ & Hrem).
  simpl in E1, Hrem. rewrite E1. cbn [mbind outcome_bind].
  assert (Hgo : forall e1 cs1,
    cancel_batch [id] (set_pending (pending_submissions_ e) batch e) cs w
      = Ok (set_pending (pending_submissions_ e1) batch e1, cs1, w1) ->
    pending_cancels_ e1 = [] ->
    returns (cancel_batch batch e1 cs1 w1)
      (mkSystem (set_pending (pending_submissions_ e) (id :: batch) e) cs w log)).
  { intros e1 cs1 E Hnil1.
    assert (Hstep : engine_step
      (mkSystem (set_pending (pending_submissions_ e) (id :: batch) e) cs w log)
      (mkSystem (set_pending (pending_submissions_ e1) batch e1) cs1 w1 log))
      by (by eapply es_cancel).
    eapply returns_step; [exact Hstep|done|]. apply IH; [done|]. by eapply step_good. }
  change (active_ (set_scheduler s' e)) with (active_ e).
  destruct (active_ e !! id) as [entry|] eqn:Hm.
  - destruct (Hrem entry eq_refl) as (c & _ & Ec & _). rewrite Ec. cbn [mbind outcome_bind].
    apply Hgo; [|done]. cbn [cancel_batch]. simpl. rewrite E1. simpl. rewrite Hm. simpl.
    by rewrite Ec.
  - apply Hgo; [|done]. cbn [cancel_batch]. simpl. rewrite E1. simpl. by rewrite Hm.
Qed.

Lemma drain_submissions_runs e cs w log :
  sys_inv (mkSystem e cs w log) ->
  runs ('(e, w) ← drain_submissions e w; Ok (e, cs, w)) (mkSystem e cs w log).
Proof.
  intros Hinv. unfold drain_submissions.
  pose proof (submit_batch_runs (pending_submissions_ e) (set_pending [] (pending_cancels_ e) e) cs w log) as H.
  simpl in H. destruct e. by apply H.
Qed.

(** It admits the whole batch, unless a deadline overflows. *)
Lemma drain_submissions_ok e cs w log :
  sys_inv (mkSystem e cs w log) ->
  (exists e1 w1, drain_submissions e w = Ok (e1, w1) /\ sys_inv (mkSystem e1 cs w1 log) /\
     rtc engine_step (mkSystem e cs w log) (mkSystem e1 cs w1 log)) \/
  drain_submissions e w = Undef overflow.
Proof.
  intros Hinv. pose proof (drain_submissions_runs e cs w log Hinv) as H.
  destruct (drain_submissions e w) as [[e1 w1]| | | |]; [left|right..].
  - apply runs_steps in H. exists e1, w1. split; [done|]. split; [|done]. by apply (steps_good _ _ Hinv H).
  - by destruct H as [(? & ? & ? & ? & _)|?].
  - by destruct H as [(? & ? & ? & ? & _)|?].
  - by destruct H as [(? & ? & ? & ? & _)|?].
  - by destruct H as [(? & ? & ? & ? & _)|[= ->]].
Qed.

Lemma drain_cancels_returns e cs w log :
  sys_inv (mkSystem e cs w log) -> returns (drain_cancels e cs w) (mkSystem e cs w log).
Proof.
  intros Hinv. unfold drain_cancels.
  pose proof (cancel_batch_returns (pending_cancels_ e) (set_pending (pending_submissions_ e) [] e) cs w log) as H.
  simpl in H. destruct e. by apply H.
Qed.

Lemma drain_cancels_runs e cs w log :
  sys_inv (mkSystem e cs w log) -> runs (drain_cancels e cs w) (mkSystem e cs w log).
Proof. left. by apply drain_cancels_returns. Qed.

(** The two drains together. *)
Lemma drained_inv e cs w log e1 w1 e2 cs2 w2 :
  sys_inv (mkSystem e cs w log) -> drain_submissions e w = Ok (e1, w1) ->
  drain_cancels e1 cs w1 = Ok (e2, cs2, w2) ->
  sys_inv (mkSystem e1 cs w1 log) /\ rtc engine_step (mkSystem e cs w log) (mkSystem e1 cs w1 log) /\
  sys_inv (mkSystem e2 cs2 w2 log).
Proof.
  intros Hinv E1 E2. pose proof (drain_submissions_runs e cs w log Hinv) as H1.
  rewrite E1 in H1. apply runs_steps in H1. pose proof (proj1 (steps_good _ _ Hinv H1)) as Hinv1.
  simpl in *. pose proof (drain_cancels_runs e1 cs w1 log Hinv1) as H2. rewrite E2 in H2.
  apply runs_steps in H2. split; [done|]. split; [done|]. by apply (steps_good _ _ Hinv1 H2).
Qed.

(** *** [push_tokens] *)

Lemma set_active_same e : set_active (active_ e) e = e.
Proof. by destruct e. Qed.

Lemma push_loop_runs id entry r n i e cs w log :
  sys_inv (mkSystem e cs w log) -> active_ e !! id = Some entry ->
  requests_ (scheduler_ e) !! entry_request entry = Some r ->
  last_seen_tokens entry = Z.of_nat i -> (i + n <= length (output_token_ids_ r))%nat ->
  exists entry' cs' w', push_loop r n (Z.of_nat i) entry cs w = Ok (entry', cs', w') /\
    rtc engine_step (mkSystem e cs w log)
      (mkSystem (set_active (<[id := entry']> (active_ e)) e) cs' w' log).
Proof.
  revert i entry e cs w. induction n as [|n IH]; intros i entry e cs w Hinv Hm Hr Hi Hn.
  { exists entry, cs, w. split; [done|]. rewrite insert_id, set_active_same by done.
    apply rtc_refl. }
  destruct (ei_entries _ _ _ _ _ _ Hinv _ _ Hm) as (r0 & c & Hr0 & _ & Hc & Hop & _).
  simpl in Hr0, Hc. assert (r0 = r) by congruence. subst r0.
  pose proof (inv_wf _ _ _ (ei_sched _ _ _ _ _ _ Hinv) _ _ Hr) as Hwf.
  pose proof (req_output _ _ Hwf) as Ho. pose proof (req_budget _ _ Hwf) as Hb.
  pose proof (req_max _ _ Hwf). unfold size_of in Ho.
  destruct (lookup_lt_is_Some_2 (output_token_ids_ r) i) as [t Ht]; [lia|].
  assert (Hone : forall entry1 cs1 w1, push_loop r 1 (Z.of_nat i) entry cs w = Ok (entry1, cs1, w1) ->
    engine_step (mkSystem e cs w log)
      (mkSystem (set_active (<[id := entry1]> (active_ e)) e) cs1 w1 log)).
  { intros entry1 cs1 w1 E. eapply es_push; [done|done| |by rewrite Hi]. lia. }
  cbn [push_loop] in *. rewrite Nat2Z.id, Ht in *. cbn [or_undef mbind outcome_bind] in *.
  unfold deref_channel in *. rewrite Hc in *. cbn [or_undef mbind outcome_bind] in *.
  destruct (try_push _ c) as [[] c1].
  - assert (Hu : u64 (Z.of_nat i + 1) = Z.of_nat (S i)) by (rewrite u64_small; lia).
    rewrite Hu in *. replace (Z.of_nat i + 1) with (Z.of_nat (S i)) by lia.
    specialize (Hone _ _ _ eq_refl). set (entry1 := mkActiveEntry _ _ _ _) in *.
    destruct (IH (S i) entry1 (set_active (<[id := entry1]> (active_ e)) e)
      (<[entry_channel entry := c1]> cs) w) as (entry' & cs' & w' & E & Hsteps);
      [by eapply step_good|simpl; apply lookup_insert_eq|done|done|lia|].
    do 3 eexists. split; [exact E|]. eapply rtc_l; [exact Hone|].
    simpl in Hsteps. by rewrite insert_insert_eq in Hsteps.
  - destruct (backpressure_since entry).
    + do 3 eexists. split; [done|]. by apply rtc_once, Hone.
    + destruct (steady_now w) as [t0 w1]. do 3 eexists. split; [done|]. by apply rtc_once, Hone.
Qed.

Lemma push_entry_runs id entry e cs w log :
  sys_inv (mkSystem e cs w log) -> active_ e !! id = Some entry ->
  exists entry' cs' w', push_entry entry (scheduler_ e) cs w = Ok (entry', cs', w') /\
    rtc engine_step (mkSystem e cs w log)
      (mkSystem (set_active (<[id := entry']> (active_ e)) e) cs' w' log).
Proof.
  intros Hinv Hm.
  destruct (ei_entries _ _ _ _ _ _ Hinv _ _ Hm) as (r & c & Hr & _ & _ & _ & [Hn _]).
  pose proof (inv_wf _ _ _ (ei_sched _ _ _ _ _ _ Hinv) _ _ Hr) as Hwf.
  pose proof (req_output _ _ Hwf). unfold size_of in *. simpl in *.
  unfold push_entry, deref. rewrite Hr. cbn [or_undef mbind outcome_bind].
  set (i := Z.to_nat (last_seen_tokens entry)).
  replace (last_seen_tokens entry) with (Z.of_nat i) by lia.
  eapply push_loop_runs; [done|done|done|lia|lia].
Qed.

Lemma push_all_returns ids e cs w log :
  (forall id, id ∈ ids -> is_Some (active_ e !! id)) -> sys_inv (mkSystem e cs w log) ->
  returns (push_all ids e cs w) (mkSystem e cs w log).
Proof.
  revert e cs w. induction ids as [|id ids IH]; intros e cs w Hids Hinv; [apply returns_Ok|].
  cbn [push_all]. destruct (Hids id) as [entry Hm]; [set_solver|]. rewrite Hm.
  cbn [or_undef mbind outcome_bind].
  destruct (push_entry_runs id entry e cs w log Hinv Hm) as (entry' & cs' & w' & E & Hsteps).
  rewrite E. cbn [mbind outcome_bind].
  destruct (IH (set_active (<[id := entry']> (active_ e)) e) cs' w') as
    (e2 & cs2 & w2 & E2 & H2).
  - intros id' Hid'. simpl. rewrite lookup_insert_is_Some'. right. apply Hids. set_solver.
  - by eapply steps_good.
  - do 3 eexists. split; [exact E2|]. by etrans.
Qed.

Lemma push_all_runs ids e cs w log :
  (forall id, id ∈ ids -> is_Some (active_ e !! id)) -> sys_inv (mkSystem e cs w log) ->
  runs (push_all ids e cs w) (mkSystem e cs w log).
Proof. left. by apply push_all_returns. Qed.

(** *** [check_backpressure] and [reap_terminal] *)

Lemma collect_stalled_runs ids now e :
  (forall id, id ∈ ids -> is_Some (active_ e !! id)) ->
  (exists l, collect_stalled ids now e = Ok l /\ sublist l ids /\ Forall (stalled e now) l /\
     forall id, id ∈ ids -> stalled e now id -> id ∈ l) \/
  collect_stalled ids now e = Undef overflow.
Proof.
  induction ids as [|id ids IH]; intros Hids; [left; exists []; split_and!; set_solver|]. simpl.
  destruct (Hids id) as [entry Hm]; [set_solver|]. rewrite Hm. cbn [or_undef mbind outcome_bind].
  assert (Hb : (exists b : bool,
    match backpressure_since entry with
    | Some t => d ← i64_sub now t; Ok (backpressure_timeout (config_ e) <=? d)
    | None => Ok false
    end = Ok b /\ (b = true <-> stalled e now id)) \/
    match backpressure_since entry with
    | Some t => d ← i64_sub now t; Ok (backpressure_timeout (config_ e) <=? d)
    | None => Ok false
    end = Undef overflow).
  { destruct (backpressure_since entry) as [t|] eqn:Hbp.
    - unfold i64_sub. destruct (in_i64 (now - t)); [left|by right]. eexists. split; [done|].
      rewrite Z.leb_le. split; [intros Hle; by exists entry, t|].
      intros (en & t' & ? & ? & ?). simplify_eq. congruence.
    - left. exists false. split; [done|]. split; [done|].
      intros (en & t' & ? & ? & ?). by simplify_eq. }
  destruct Hb as [(b & -> & Hb)| ->]; [|by right]. cbn [mbind outcome_bind].
  destruct IH as [(l & -> & Hsub & Hl & Hall)| ->]; [set_solver| |by right]. left.
  cbn [mbind outcome_bind]. destruct b; eexists; (split; [done|]).
  - split; [by apply sublist_skip|]. split; [constructor; [by apply Hb|done]|]. set_solver.
  - split; [by apply sublist_cons|]. split; [done|]. intros id' [->|Hin]%elem_of_cons Hst; [|auto].
    by apply Hb in Hst.
Qed.

Lemma stalled_delete e now id id' s :
  id <> id' -> stalled e now id' ->
  stalled (set_active (delete id (active_ e)) (set_scheduler s e)) now id'.
Proof.
  intros Hne (entry & t & Hm & ?). exists entry, t. simpl. by rewrite lookup_delete_ne.
Qed.

Lemma cancel_stalled_returns ids now e cs w log :
  NoDup ids -> Forall (stalled e now) ids -> sys_inv (mkSystem e cs w log) ->
  returns (cancel_stalled ids e cs w) (mkSystem e cs w log).
Proof.
  revert e cs w. induction ids as [|id ids IH]; intros e cs w Hnd Hst Hinv; [apply returns_Ok|].
  apply NoDup_cons in Hnd as [Hid Hnd]. apply Forall_cons in Hst as [Hst Hsts].
  pose proof Hst as (entry & t & Hm & _). cbn [cancel_stalled].
  destruct (cancel_close_ok id _ _ _ _ _ _ Hinv) as (s' & w1 & E1 & _ & _ & Hrem).
  simpl in E1, Hrem. destruct (Hrem entry Hm) as (c & _ & Ec & _).
  assert (Hone : cancel_stalled [id] e cs w =
    Ok (set_active (delete id (active_ e)) (set_scheduler s' e),
        <[entry_channel entry := close c]> cs, w1)).
  { simpl. rewrite E1. simpl. rewrite Hm. simpl. by rewrite Ec. }
  rewrite E1. cbn [mbind outcome_bind]. change (active_ (set_scheduler s' e)) with (active_ e).
  rewrite Hm. cbn [or_throw mbind outcome_bind]. rewrite Ec. cbn [mbind outcome_bind].
  assert (Hstep := es_stalled id now e _ cs _ w _ log Hst Hone).
  eapply returns_step; [exact Hstep|done|]. apply IH; [done| |by eapply step_good].
  apply Forall_forall. intros id' Hin. rewrite Forall_forall in Hsts.
  apply stalled_delete; [|auto]. by intros ->.
Qed.

Lemma collect_finished_ok ids e cs w log :
  sys_inv (mkSystem e cs w log) -> (forall id, id ∈ ids -> is_Some (active_ e !! id)) ->
  exists l, collect_finished ids e = Ok l /\ sublist l ids /\
    forall id, id ∈ ids -> id ∈ l <-> finished e id.
Proof.
  intros Hinv. induction ids as [|id ids IH]; intros Hids; [exists []; split_and!; set_solver|].
  destruct (Hids id) as [entry Hm]; [set_solver|]. simpl. rewrite Hm.
  cbn [or_undef mbind outcome_bind].
  destruct (ei_entries _ _ _ _ _ _ Hinv _ _ Hm) as (r & c & Hr & _). simpl in Hr.
  unfold deref. rewrite Hr. cbn [or_undef mbind outcome_bind].
  destruct IH as (l & -> & Hsub & Hl); [set_solver|]. cbn [mbind outcome_bind].
  set (b := is_terminal _ && _).
  assert (Hfin : finished e id <-> b = true).
  { unfold b. rewrite andb_true_iff, Z.leb_le. split.
    - intros (en & r' & Hm' & Hr' & ?). assert (en = entry) by congruence. subst en.
      assert (r' = r) by congruence. by subst r'.
    - intros [? ?]. by exists entry, r. }
  destruct b; eexists; (split; [done|]).
  - split; [by apply sublist_skip|]. set_solver.
  - split; [by apply sublist_cons|]. intros id' [->|Hin]%elem_of_cons; [|auto].
    split; [|by intros ?%Hfin]. intros Hin. apply Hl; [|done]. by eapply elem_of_sublist.
Qed.

Lemma foldr_delete_comm {A} (m : gmap RequestId A) id ids :
  foldr delete (delete id m) ids = delete id (foldr delete m ids).
Proof. induction ids as [|k ids IH]; [done|]. simpl. rewrite IH. apply delete_delete. Qed.

Lemma lookup_foldr_delete {A} (m : gmap RequestId A) id ids :
  id ∉ ids -> foldr delete m ids !! id = m !! id.
Proof.
  induction ids as [|k ids IH]; simpl; [done|]. intros [Hk Hn]%not_elem_of_cons.
  rewrite lookup_delete_ne by done. auto.
Qed.

Lemma lookup_foldr_delete_in {A} (m : gmap RequestId A) id ids :
  id ∈ ids -> foldr delete m ids !! id = None.
Proof.
  induction ids as [|k ids IH]; simpl; [set_solver|]. intros Hin.
  destruct (decide (k = id)) as [->|Hne]; [apply lookup_delete_eq|].
  rewrite lookup_delete_ne by done. apply IH. set_solver.
Qed.

Lemma finished_delete e id id' :
  id <> id' -> finished e id' -> finished (set_active (delete id (active_ e)) e) id'.
Proof.
  intros Hne (entry & r & Hm & ?). exists entry, r. simpl. by rewrite lookup_delete_ne.
Qed.

(** The channels of the entries [ids] are closed, the others are as before. *)
Definition closes (ids : list RequestId) (m : gmap RequestId ActiveEntry) cs cs' : Prop :=
  (forall id entry c, id ∈ ids -> m !! id = Some entry -> cs !! entry_channel entry = Some c ->
     cs' !! entry_channel entry = Some (close c)) /\
  (forall q, (forall id entry, id ∈ ids -> m !! id = Some entry -> entry_channel entry <> q) ->
     cs' !! q = cs !! q).

Lemma closes_cons id ids m cs cs' entry c :
  m !! id = Some entry -> cs !! entry_channel entry = Some c ->
  (forall id' en, m !! id' = Some en -> entry_channel en = entry_channel entry -> id' = id) ->
  closes ids (delete id m) (<[entry_channel entry := close c]> cs) cs' -> closes (id :: ids) m cs cs'.
Proof.
  intros Hm Hc Hch [Hin Hout]. split.
  - intros id' en c' Hi Hm' Hc'. destruct (decide (id' = id)) as [->|Hne].
    + simplify_eq. rewrite Hout; [apply lookup_insert_eq|].
      intros id2 en2 _ [Hne Hm2]%lookup_delete_Some Heq. apply Hne. symmetry. by eapply Hch.
    + assert (Hq : entry_channel en <> entry_channel entry) by (intros Heq; apply Hne; by eapply Hch).
      apply (Hin id' en c'); [set_solver|by rewrite lookup_delete_ne|by rewrite lookup_insert_ne].
  - intros q Hq. rewrite Hout.
    + apply lookup_insert_ne. apply (Hq id); [set_solver|done].
    + intros id' en Hi [_ Hm']%lookup_delete_Some. apply (Hq id'); [set_solver|done].
Qed.

Lemma reap_runs ids e cs w log :
  NoDup ids -> Forall (finished e) ids -> sys_inv (mkSystem e cs w log) ->
  exists cs', reap ids e cs = Ok (set_active (foldr delete (active_ e) ids) e, cs') /\
    rtc engine_step (mkSystem e cs w log)
      (mkSystem (set_active (foldr delete (active_ e) ids) e) cs' w log) /\
    (forall id entry, id ∈ ids -> active_ e !! id = Some entry ->
       served (entry_request entry) (entry_channel entry)
         (mkSystem (set_active (foldr delete (active_ e) ids) e) cs' w log)) /\
    closes ids (active_ e) cs cs'.
Proof.
  revert e cs. induction ids as [|id ids IH]; intros e cs Hnd Hf Hinv.
  { exists cs. simpl. rewrite set_active_same. split; [done|]. split; [apply rtc_refl|].
    split; [set_solver|]. split; [set_solver|done]. }
  apply NoDup_cons in Hnd as [Hid Hnd]. apply Forall_cons in Hf as [Hf Hfs].
  pose proof Hf as (entry & r & Hm & _).
  destruct (reap_one id entry e cs w log Hinv Hm Hf) as (c & Hc & Hone & Hserved).
  assert (Hstep := es_reap id e _ cs _ w log Hf Hone). set (x1 := mkSystem _ _ _ _) in Hserved.
  pose proof (proj1 (step_good _ _ Hinv Hstep)) as Hinv1.
  destruct (fun Hfs => IH _ _ Hnd Hfs Hinv1) as (cs' & E & Hsteps & Hall & Hbuf).
  { apply Forall_forall. intros id' Hin. rewrite Forall_forall in Hfs.
    apply finished_delete; [|auto]. by intros ->. }
  simpl in E, Hsteps, Hall, Hbuf. rewrite foldr_delete_comm in E, Hsteps, Hall.
  exists cs'. simpl. split; [|split; [by eapply rtc_l|split]].
  - simpl in Hone. rewrite Hm in *. cbn [or_throw mbind outcome_bind] in *.
    destruct (close_channel (entry_channel entry) cs); try discriminate.
    cbn [mbind outcome_bind] in *. injection Hone as ->. exact E.
  - intros id' en [->|Hin]%elem_of_cons Hm'.
    + assert (en = entry) by congruence. subst en. by eapply served_steps.
    + apply (Hall id'); [done|]. rewrite lookup_delete_ne; [done|]. by intros ->.
  - eapply closes_cons; [done|done| |exact Hbuf]. intros id' en Hm' Heq.
    by eapply (ei_channels _ _ _ _ _ _ Hinv).
Qed.

(** The order in which an [unordered_map] is iterated: every key once. *)
Definition iteration_order (order : gmap RequestId ActiveEntry -> list RequestId) : Prop :=
  forall m, NoDup (order m) /\ forall id, id ∈ order m <-> is_Some (m !! id).

Section Turn.
Context (order : gmap RequestId ActiveEntry -> list RequestId) (Horder : iteration_order order).

Lemma order_sound m id : id ∈ order m -> is_Some (m !! id).
Proof. apply Horder. Qed.

(** What [reap_terminal] keeps and what it closes. *)
Lemma reap_terminal_ok e cs w log :
  sys_inv (mkSystem e cs w log) ->
  exists m' cs', reap_terminal order e cs = Ok (set_active m' e, cs') /\
    rtc engine_step (mkSystem e cs w log) (mkSystem (set_active m' e) cs' w log) /\
    (forall id entry, m' !! id = Some entry <-> active_ e !! id = Some entry /\ ~ finished e id) /\
    (forall id entry, active_ e !! id = Some entry -> finished e id ->
       served (entry_request entry) (entry_channel entry) (mkSystem (set_active m' e) cs' w log)) /\
    exists ids, (forall id, id ∈ ids <-> finished e id) /\ closes ids (active_ e) cs cs'.
Proof.
  intros Hinv. unfold reap_terminal.
  destruct (collect_finished_ok (order (active_ e)) e cs w log Hinv) as (l & E & Hsub & Hl);
    [apply order_sound|]. rewrite E. cbn [mbind outcome_bind].
  assert (Hin : forall id, is_Some (active_ e !! id) -> id ∈ l <-> finished e id).
  { intros id Hid. apply Hl. by apply Horder. }
  assert (Hf : Forall (finished e) l).
  { apply Forall_forall. intros id Hid. apply Hl; [by eapply elem_of_sublist|done]. }
  destruct (reap_runs l e cs w log) as (cs' & E' & Hsteps & Hserved & Hbuf); [|done|done|].
  { eapply sublist_NoDup; [apply Horder|done]. }
  assert (Hl' : forall id, id ∈ l <-> finished e id).
  { intros id. split; [by rewrite Forall_forall in Hf; apply Hf|].
    intros Hfin. apply Hin; [|done]. destruct Hfin as (en & ? & ? & _). by eexists. }
  do 2 eexists. split; [exact E'|]. split; [done|]. split; [|split; [|by exists l]].
  - intros id entry. destruct (decide (id ∈ l)) as [Hid|Hid].
    + rewrite lookup_foldr_delete_in by done. rewrite Forall_forall in Hf.
      split; [done|]. intros [_ Hn]. by destruct (Hn (Hf id Hid)).
    + rewrite lookup_foldr_delete by done. split; [|by intros []]. intros Hm. split; [done|].
      contradict Hid. by apply Hin.
  - intros id entry Hm Hfin. apply (Hserved id); [by apply Hin|done].
Qed.

Lemma check_backpressure_runs e cs w log :
  sys_inv (mkSystem e cs w log) ->
  runs (check_backpressure order e cs w) (mkSystem e cs w log).
Proof.
  intros Hinv. unfold check_backpressure. destruct (steady_now w) as [now w1] eqn:Es.
  destruct (steady_contract _ _ _ Es) as [Ht Hl].
  assert (Hstep := es_world e cs w w1 log Ht Hl).
  eapply runs_step; [exact Hstep|done|].
  destruct (collect_stalled_runs (order (active_ e)) now e) as [(l & E & Hsub & Hst & _)|E];
    [apply order_sound| |rewrite E; by right].
  rewrite E. cbn [mbind outcome_bind]. left. eapply cancel_stalled_returns; [|done|by eapply step_good].
  eapply sublist_NoDup; [apply Horder|done].
Qed.

Lemma push_tokens_returns e cs w log :
  sys_inv (mkSystem e cs w log) -> returns (push_tokens order e cs w) (mkSystem e cs w log).
Proof. intros Hinv. by apply push_all_returns; [apply order_sound|]. Qed.

Lemma push_tokens_runs e cs w log :
  sys_inv (mkSystem e cs w log) -> runs (push_tokens order e cs w) (mkSystem e cs w log).
Proof. left. by apply push_tokens_returns. Qed.

(** The only two places where a turn can overflow: the deadline of a submission
    it admits, and the age of a stall it finds in a state it has reached. *)
Definition turn_overflows e cs w log : Prop :=
  drain_submissions e w = Undef overflow \/
  exists e' cs' w', rtc engine_step (mkSystem e cs w log) (mkSystem e' cs' w' log) /\
    check_backpressure order e' cs' w' = Undef overflow.

Lemma run_once_overflow e cs w log :
  sys_inv (mkSystem e cs w log) ->
  (forall e1 w1 e2 cs2 w2, drain_submissions e w = Ok (e1, w1) ->
     drain_cancels e1 cs w1 = Ok (e2, cs2, w2) -> tick_fits (scheduler_ e2) w2) ->
  returns (run_once order e cs w) (mkSystem e cs w log) \/
  (run_once order e cs w = Undef overflow /\ turn_overflows e cs w log).
Proof.
  intros Hinv Hfits. unfold run_once. destruct (running_ e); [|left; apply returns_Ok]. cbn [negb].
  destruct (drain_submissions_ok e cs w log Hinv) as [(e1 & w1 & E1 & Hinv1 & H1)|E1];
    rewrite E1 in *; [|by right; split; [|left]]. cbn [mbind outcome_bind].
  destruct (drain_cancels_returns e1 cs w1 log Hinv1) as (e2 & cs2 & w2 & E2 & H2). simpl in H2.
  pose proof (proj1 (steps_good _ _ Hinv1 H2)) as Hinv2. pose proof (Hfits _ _ _ _ _ eq_refl E2) as Hf.
  rewrite E2. cbn [mbind outcome_bind].
  case_bool_decide; [left; do 3 eexists; split; [done|]; by etrans|].
  destruct (tick_ok _ _ (ei_sched _ _ _ _ _ _ Hinv2) Hf) as (rep & s3 & w3 & E3 & _).
  simpl in E3. rewrite E3. cbn [mbind outcome_bind].
  assert (H3 := es_tick rep s3 e2 cs2 w2 w3 log Hf E3).
  pose proof (proj1 (step_good _ _ Hinv2 H3)) as Hinv3.
  destruct (push_tokens_returns _ _ _ _ Hinv3) as (e4 & cs4 & w4 & E4 & H4). simpl in H4.
  pose proof (proj1 (steps_good _ _ Hinv3 H4)) as Hinv4. rewrite E4. cbn [mbind outcome_bind].
  assert (Hto4 : rtc engine_step (mkSystem e cs w log) (mkSystem e4 cs4 w4 log)).
  { etrans; [exact H1|]. etrans; [exact H2|]. by eapply rtc_l. }
  destruct (check_backpressure_runs e4 cs4 w4 log Hinv4) as [(e5 & cs5 & w5 & E5 & H5)|E5];
    [|by rewrite E5; right; split; [|right; exists e4, cs4, w4]].
  pose proof (proj1 (steps_good _ _ Hinv4 H5)) as Hinv5. rewrite E5. cbn [mbind outcome_bind].
  destruct (reap_terminal_ok _ _ _ _ Hinv5) as (m6 & cs6 & E6 & H6 & _).
  rewrite E6. left. do 3 eexists. split; [done|]. etrans; [exact Hto4|]. by etrans.
Qed.

Lemma run_once_runs e cs w log :
  sys_inv (mkSystem e cs w log) ->
  (forall e1 w1 e2 cs2 w2, drain_submissions e w = Ok (e1, w1) ->
     drain_cancels e1 cs w1 = Ok (e2, cs2, w2) -> tick_fits (scheduler_ e2) w2) ->
  runs (run_once order e cs w) (mkSystem e cs w log).
Proof. intros Hinv Hfits. destruct (run_once_overflow _ _ _ _ Hinv Hfits) as [|[? _]]; [by left|by right]. Qed.

(** A turn leads from a reachable state to a reachable state. *)
Lemma reachable_turn e cs w log e' cs' w' :
  engine_reachable (mkSystem e cs w log) ->
  (forall e1 w1 e2 cs2 w2, drain_submissions e w = Ok (e1, w1) ->
     drain_cancels e1 cs w1 = Ok (e2, cs2, w2) -> tick_fits (scheduler_ e2) w2) ->
  run_once order e cs w = Ok (e', cs', w') -> engine_reachable (mkSystem e' cs' w' log).
Proof.
  intros Hreach Hfits E. pose proof (run_once_runs e cs w log (reachable_inv _ Hreach) Hfits) as H.
  rewrite E in H. apply runs_steps in H. destruct Hreach as (config & w0 & Hl & Hs).
  exists config, w0. split; [done|]. by etrans.
Qed.

Lemma reachable_step x y : engine_reachable x -> engine_step x y -> engine_reachable y.
Proof.
  intros (config & w0 & Hl & Hs) Hxy. exists config, w0. split; [done|]. by eapply rtc_r.
Qed.

End Turn.

End Steps.
