(* ===== verification/EngineTimes.v ===== *)
(** * When the times of a turn are representable

    The engine computes two times: the deadline of a submission (a reading of
    the clock plus the client's duration) and the age of a stall (the difference
    of two readings of the steady clock).  Both are signed 64-bit nanosecond
    counts.  Here are the conditions under which neither can overflow, and the
    proof that they are enough: [deadlines_fit] for the submissions pending at a
    turn, and [SteadyRange], the range of the steady clock.  [EngineCorrect]
    shows that a turn has no other way not to return. *)

From S2P Require Import Prelude Clock RequestState RequestLifecycle Request Backend FifoScheduler SchedulerInvariant SchedulerCorrect SchedulerSpec TokenChannel Engine EngineInvariant EngineCorrect.

(** Any two readings of the steady clock are less than 2^63 ns apart. *)
Class SteadyRange (W : Type) `{!SteadyClock W} : Prop :=
  steady_range (w1 w2 w1' w2' : W) t1 t2 :
    steady_now w1 = (t1, w1') -> steady_now w2 = (t2, w2') -> in_i64 (t2 - t1) = true.

(** The worlds reached by reading the clock. *)
Definition clock_reads {C} `{!Clock C} : C -> C -> Prop :=
  rtc (fun c c' => exists t, clock_now c = (t, c')).

(** Whatever the clock reads while the submissions are admitted, their deadlines
    are representable. *)
Definition deadlines_fit {C} `{!Clock C} (subs : list Submission) (c : C) : Prop :=
  forall sub c1 t c2, sub ∈ subs -> clock_reads c c1 -> clock_now c1 = (t, c2) ->
    in_i64 (t + sub_deadline sub) = true.

Section Times.
Context {W : Type} `{!Clock W, !ClockLaws W, !InferenceBackend W, !BackendContract W,
  !SteadyClock W, !SteadyLaws W}.
Implicit Types (e : Engine) (cs : ChannelStore) (w : W) (log : DeliveryLog) (x y z : System W).

(** ** Deadlines *)

Lemma clock_reads_once w t w' : clock_now w = (t, w') -> clock_reads w w'.
Proof. intros E. apply rtc_once. by exists t. Qed.

Lemma transition_reads p to (s : FifoScheduler) w s' w' :
  transition p to s w = Ok (s', w') -> clock_reads w w'.
Proof.
  unfold transition. intros H. inv_ok.
  match goal with H : transition_to _ _ _ = _ |- _ => revert H end. unfold transition_to.
  destruct (negb _); [done|]. destruct (clock_now w) as [t w1] eqn:E. intros [= _ <-].
  by eapply clock_reads_once.
Qed.

Lemma new_request_reads id d m prompt priority w :
  (exists r w', new_request id d m prompt priority w = Ok (r, w') /\ clock_reads w w') \/
  (exists w1 t w2, clock_reads w w1 /\ clock_now w1 = (t, w2) /\ in_i64 (t + d) = false).
Proof.
  unfold new_request, new_lifecycle. destruct (clock_now w) as [t1 w1] eqn:E1.
  destruct (clock_now w1) as [t2 w2] eqn:E2. unfold i64_add.
  destruct (in_i64 (t2 + d)) eqn:Ed.
  2:{ right. exists w1, t2, w2. split; [by eapply clock_reads_once|done]. }
  left. do 2 eexists. split; [done|]. etrans; by eapply clock_reads_once.
Qed.

Lemma transition_no_overflow p to (s : FifoScheduler) w : transition p to s w <> Undef overflow.
Proof.
  unfold transition, deref. destruct (requests_ s !! p); simpl; [|done].
  unfold transition_to. destruct (negb _); [done|]. by destruct (clock_now w).
Qed.

Lemma submit_no_overflow r (s : FifoScheduler) w : FifoScheduler.submit r s w <> Undef overflow.
Proof.
  unfold FifoScheduler.submit.
  destruct (transition _ kAdmitted _ w) as [[s1 w1]| | | |] eqn:E1; simpl; try done;
    [|intros [= ->]; by apply transition_no_overflow in E1].
  destruct (transition _ kWaitingPrefill s1 w1) as [[s2 w2]| | | |] eqn:E2; simpl; try done.
  intros [= ->]. by apply transition_no_overflow in E2.
Qed.

Lemma submit_batch_no_overflow batch e w :
  deadlines_fit batch w -> submit_batch batch e w <> Undef overflow.
Proof.
  revert e w. induction batch as [|sub batch IH]; intros e w Hfit; simpl; [done|].
  destruct (new_request_reads (sub_id sub) (sub_deadline sub) (sub_max_tokens sub)
    (sub_prompt_token_ids sub) 0 w) as [(r & w1 & -> & Hr)|(w1 & t & w2 & Hr & Et & Hno)].
  2:{ rewrite (Hfit sub w1 t w2) in Hno; [done|set_solver|done|done]. }
  simpl. destruct (FifoScheduler.submit r _ w1) as [[[ref s] w2]| | | |] eqn:Es; simpl; try done;
    [|intros [= ->]; by apply submit_no_overflow in Es].
  apply IH. intros sub' w3 t w4 Hin Hr3. apply Hfit; [set_solver|]. etrans; [exact Hr|].
  etrans; [|exact Hr3]. unfold FifoScheduler.submit in Es. inv_ok.
  etrans; by eapply transition_reads.
Qed.

(** ** Stalls *)

Context `{!SteadyRange W}.

(** The stamps the entries carry are readings of the steady clock. *)
Definition steady_reading (t : TimePoint) : Prop := exists (w w' : W), steady_now w = (t, w').

Definition since_ok e : Prop :=
  forall id entry t, active_ e !! id = Some entry -> backpressure_since entry = Some t ->
    steady_reading t.

Lemma push_loop_since r n i entry cs w entry' cs' w' t :
  push_loop r n i entry cs w = Ok (entry', cs', w') -> backpressure_since entry' = Some t ->
  backpressure_since entry = Some t \/ steady_reading t.
Proof.
  revert i entry cs w. induction n as [|n IH]; intros i entry cs w; simpl; [intros [= -> -> ->]; auto|].
  intros H. apply bind_Ok in H as (tok & _ & H). apply bind_Ok in H as (c & _ & H).
  destruct (try_push _ c) as [[] c1]; [intros Ht; destruct (IH _ _ _ _ H Ht); auto; done|].
  destruct (backpressure_since entry) as [t0|] eqn:Hb; [injection H as <- <- <-; rewrite Hb; auto|].
  destruct (steady_now w) as [t1 w1] eqn:Es. injection H as <- <- <-. intros [= <-].
  right. by exists w, w1.
Qed.

Lemma since_sub e e' :
  since_ok e -> (forall id entry, active_ e' !! id = Some entry ->
    active_ e !! id = Some entry \/ backpressure_since entry = None) -> since_ok e'.
Proof.
  intros He Hsub id entry t Hm Ht. destruct (Hsub id entry Hm) as [Hm'|Hn]; [by eapply He|congruence].
Qed.

#[local] Ltac from_entries He := eapply since_sub; [exact He|]; intros ? ?; simpl.

(** Every step keeps that. *)
Lemma step_since x y : engine_step x y -> since_ok (sys_engine x) -> since_ok (sys_engine y).
Proof.
  intros Hstep He. inversion Hstep; subst; try exact He.
  - from_entries He. unfold start. destruct (running_ e); auto.
  - from_entries He. unfold stop. destruct (running_ e); auto.
  - from_entries He. unfold submit. destruct (running_ e); auto.
  - simpl in *. inv_ok. from_entries He.
    unfold emplace. destruct (active_ e !! sub_id sub); [auto|].
    intros [[<- <-]|[_ ?]]%lookup_insert_Some; auto.
  - simpl in *. inv_ok. match goal with Hb : match ?o with Some _ => _ | None => _ end = _ |- _ => destruct o end;
      inv_ok; from_entries He; [intros [_ ?]%lookup_delete_Some; auto|auto].
  - intros i en t Hm Ht. simpl in Hm.
    apply lookup_insert_Some in Hm as [[<- <-]|[_ Hm]]; [|by eapply He].
    match goal with H : push_loop _ _ _ _ _ _ = _ |- _ =>
      destruct (push_loop_since _ _ _ _ _ _ _ _ _ _ H Ht); [by eapply He|done] end.
  - simpl in *. inv_ok. from_entries He. intros [_ ?]%lookup_delete_Some. auto.
  - simpl in *. inv_ok. from_entries He. intros [_ ?]%lookup_delete_Some. auto.
Qed.

Lemma steps_since x y :
  rtc engine_step x y -> since_ok (sys_engine x) -> since_ok (sys_engine y).
Proof. induction 1; eauto using step_since. Qed.

Lemma reachable_since x : engine_reachable x -> since_ok (sys_engine x).
Proof. intros (config & w0 & _ & Hs). eapply steps_since; [exact Hs|]. by intros id entry t. Qed.

Lemma collect_stalled_no_overflow ids now e :
  since_ok e -> steady_reading now -> collect_stalled ids now e <> Undef overflow.
Proof.
  intros He (wn & wn' & En). induction ids as [|id ids IH]; simpl; [done|].
  destruct (active_ e !! id) as [entry|] eqn:Hm; simpl; [|done].
  assert (Hb : exists b : bool, match backpressure_since entry with
    | Some t => d ← i64_sub now t; Ok (backpressure_timeout (config_ e) <=? d)
    | None => Ok false end = Ok b) by (destruct (backpressure_since entry) as [t|] eqn:Hb;
      [destruct (He _ _ _ Hm Hb) as (w & w' & Et); unfold i64_sub;
       rewrite (steady_range _ _ _ _ _ _ Et En)|]; eauto).
  destruct Hb as [b ->]. simpl. by destruct (collect_stalled ids now e).
Qed.

Context (order : gmap RequestId ActiveEntry -> list RequestId) (Horder : iteration_order order).

Lemma check_backpressure_no_overflow e cs w log :
  sys_inv (mkSystem e cs w log) -> since_ok e -> check_backpressure order e cs w <> Undef overflow.
Proof.
  intros Hinv He. unfold check_backpressure. destruct (steady_now w) as [now w1] eqn:Es.
  pose proof (collect_stalled_no_overflow (order (active_ e)) now e He
    (ex_intro _ w (ex_intro _ w1 Es))) as Hno.
  destruct (collect_stalled_runs (order (active_ e)) now e) as [(l & E & Hsub & Hst & _)|E];
    [by apply order_sound| |done].
  destruct (steady_contract _ _ _ Es) as [Ht Hl].
  rewrite E. cbn [mbind outcome_bind].
  destruct (cancel_stalled_returns l now e cs w1 log) as (? & ? & ? & -> & _); [|done| |done].
  - eapply sublist_NoDup; [apply Horder|done].
  - eapply step_good; [exact Hinv|]. by apply es_world.
Qed.

(** With representable times a turn returns. *)
Lemma run_once_returns e cs w log :
  engine_reachable (mkSystem e cs w log) -> deadlines_fit (pending_submissions_ e) w ->
  (forall e1 w1 e2 cs2 w2, drain_submissions e w = Ok (e1, w1) ->
     drain_cancels e1 cs w1 = Ok (e2, cs2, w2) -> tick_fits (scheduler_ e2) w2) ->
  returns (run_once order e cs w) (mkSystem e cs w log).
Proof.
  intros Hreach Hfit Hfits. pose proof (reachable_inv _ Hreach) as Hinv.
  destruct (run_once_overflow order Horder e cs w log Hinv Hfits)
    as [|[_ [E|(e' & cs' & w' & Hs & E)]]]; [done|..].
  - by apply submit_batch_no_overflow in E.
  - pose proof (proj1 (steps_good _ _ Hinv Hs)) as Hinv'.
    apply (check_backpressure_no_overflow _ _ _ _ Hinv') in E; [done|].
    apply (steps_since _ _ Hs). by apply reachable_since in Hreach.
Qed.

End Times.
