(* ===== verification/EngineProperties.v ===== *)
(** * What the engine guarantees

    The theorems about reachable engines, under every interleaving of
    [engine_step], and a concrete engine on the simulated backend. *)

From S2P Require Import Prelude Clock RequestState RequestLifecycle Request Backend MockBackend MockProperties FifoScheduler SchedulerInvariant SchedulerCorrect SchedulerSpec TokenChannel Engine EngineInvariant EngineCorrect EngineTimes.

Section Properties.
Context {W : Type} `{!Clock W, !ClockLaws W, !InferenceBackend W, !BackendContract W,
  !SteadyClock W, !SteadyLaws W}.
Implicit Types (e : Engine) (cs : ChannelStore) (w : W) (log : DeliveryLog) (x y z : System W).

(** C6. Streams are faithful.  However the engine thread, the network threads and
    the consumers interleave, every active entry has an open channel of its own,
    and the tokens its consumer has received followed by those it can still pop
    are exactly the first [last_seen_tokens] tokens of its request: nothing is
    lost, repeated or reordered, whatever the backpressure.  Every request the
    scheduler works on has such an entry. *)
Theorem engine_streams_faithfully x :
  engine_reachable x ->
  (forall id entry, active_ (sys_engine x) !! id = Some entry ->
     exists r c, requests_ (scheduler_ (sys_engine x)) !! entry_request entry = Some r /\
       id_ r = id /\ sys_channels x !! entry_channel entry = Some c /\ closed_ c = false /\
       last_seen_tokens entry <= output_tokens_emitted_ r /\
       event_token_id <$> stream (entry_channel entry) c (sys_log x)
         = take (Z.to_nat (last_seen_tokens entry)) (output_token_ids_ r)) /\
  (forall id1 id2 (e1 e2 : ActiveEntry), active_ (sys_engine x) !! id1 = Some e1 ->
     active_ (sys_engine x) !! id2 = Some e2 -> entry_channel e1 = entry_channel e2 -> id1 = id2) /\
  (forall p r, active (scheduler_ (sys_engine x)) p ->
     requests_ (scheduler_ (sys_engine x)) !! p = Some r ->
     exists entry, active_ (sys_engine x) !! id_ r = Some entry /\ entry_request entry = p).
Proof.
  intros Hinv%reachable_inv. split; [|split; [apply Hinv|apply Hinv]].
  intros id entry Hm.
  destruct (ei_entries _ _ _ _ _ _ Hinv _ _ Hm) as (r & c & Hr & Hid & Hc & Hop & Hst).
  pose proof (req_output _ _ (inv_wf _ _ _ (ei_sched _ _ _ _ _ _ Hinv) _ _ Hr)) as Ho.
  exists r, c. split_and!; try done; [destruct Hst; lia|by apply stream_ok_tokens].
Qed.

(** C7. A reaped stream is complete and final.  When an entry is reaped its channel
    is closed, and in every later state the channel is still closed and what its
    consumer has received or can still pop is the whole output of the request,
    which does not change any more.  For a completed request the finish reasons
    are determined too: only the last event has one, and it says whether the
    budget or the model ended the generation. *)
Theorem engine_reaped_stream_complete id entry r e cs w log e' cs' z :
  engine_reachable (mkSystem e cs w log) ->
  active_ e !! id = Some entry -> requests_ (scheduler_ e) !! entry_request entry = Some r ->
  is_terminal (req_state r) = true -> output_tokens_emitted_ r <= last_seen_tokens entry ->
  reap [id] e cs = Ok (e', cs') -> rtc engine_step (mkSystem e' cs' w log) z ->
  exists c, sys_channels z !! entry_channel entry = Some c /\ closed_ c = true /\
    requests_ (scheduler_ (sys_engine z)) !! entry_request entry = Some r /\
    event_token_id <$> stream (entry_channel entry) c (sys_log z) = output_token_ids_ r /\
    (req_state r = kCompleted -> forall (j : nat) ev,
       stream (entry_channel entry) c (sys_log z) !! j = Some ev ->
       finish_reason ev = if decide (S j = length (output_token_ids_ r))
                          then final_reason r else kNone).
Proof.
  intros Hinv%reachable_inv Hm Hr Hterm Hlast Hreap Hz.
  assert (Hfin : finished e id) by (by exists entry, r).
  assert (Hstep := es_reap id e e' cs cs' w log Hfin Hreap).
  pose proof (proj1 (step_good _ _ Hinv Hstep)) as Hinv1.
  destruct (reap_one id entry e cs w log Hinv Hm Hfin) as (c0 & _ & E & Hserved).
  rewrite E in Hreap. injection Hreap as <- <-.
  destruct (served_steps _ _ _ z Hinv1 Hz Hserved) as (r' & c & Hr' & _ & Hc & Hcl & Hst).
  destruct (steps_good _ z Hinv (rtc_l _ _ _ _ Hstep Hz)) as (Hinvz & _ & Hkept).
  pose proof (Hkept _ _ Hr Hterm). assert (r' = r) by congruence. subst r'.
  exists c. do 3 (split; [done|]). split.
  - rewrite (stream_ok_tokens _ _ _ Hst). unfold size_of. rewrite Nat2Z.id. apply firstn_all.
  - intros Hcomp j ev Hj. eapply stream_ok_completed; [|exact Hst|exact Hcomp|exact Hj].
    by eapply inv_wf; [apply Hinvz|].
Qed.

(** C8. A turn of the engine loop is safe: from every reachable state it returns,
    never through a dangling pointer, a missing map entry, a bad index, a panic
    or an overflow, and what it does is a sequence of engine steps, so every
    guarantee of the step relation carries over to [run].  The conditions are
    those of its environment: the deadlines of the pending submissions are
    representable when they are added to what the clock reads, two readings of
    the steady clock are less than 2^63 ns apart, and the backend has room for
    the tick of the drained scheduler. *)
Theorem engine_turn_safe `{!SteadyRange W} order e cs w log :
  engine_reachable (mkSystem e cs w log) -> iteration_order order ->
  deadlines_fit (pending_submissions_ e) w ->
  (forall e1 w1 e2 cs2 w2, drain_submissions e w = Ok (e1, w1) ->
     drain_cancels e1 cs w1 = Ok (e2, cs2, w2) -> tick_fits (scheduler_ e2) w2) ->
  exists e' cs' w', run_once order e cs w = Ok (e', cs', w') /\
    rtc engine_step (mkSystem e cs w log) (mkSystem e' cs' w' log).
Proof.
  intros Hreach Horder Hfit Hfits.
  exact (run_once_returns order Horder e cs w log Hreach Hfit Hfits).
Qed.

End Properties.

(** ** A concrete engine

    The steady clock of the demonstration reads the simulated clock, within the
    range of its type. *)

#[local] Instance demo_steady : SteadyClock MockWorld :=
  fun w => (Z.max 0 (Z.min INT64_MAX (current_ (mock_clock w))), w).

#[local] Instance demo_steady_laws : SteadyLaws MockWorld.
Proof. intros w w' t [= _ <-]. split; [lia|done]. Qed.

#[local] Instance demo_steady_range : SteadyRange MockWorld.
Proof.
  intros w1 w2 w1' w2' t1 t2 [= <- _] [= <- _]. apply in_i64_spec.
  unfold INT64_MIN, INT64_MAX. lia.
Qed.

Definition demo_order (m : gmap RequestId ActiveEntry) : list RequestId := (map_to_list m).*1.

Lemma demo_iteration_order : iteration_order demo_order.
Proof.
  intros m. split; [apply NoDup_fst_map_to_list|]. intros id. unfold demo_order.
  rewrite list_elem_of_fmap. split.
  - intros ([k v] & -> & H%elem_of_map_to_list). simpl. eauto.
  - intros [v H%elem_of_map_to_list]. by exists (id, v).
Qed.

Definition demo_engine_world : MockWorld := mkMockWorld fake_start (new_mock 1 5).

(** A running engine with one pending submission and its channel. *)
Definition demo_submission : Submission := mkSubmission "a" [7; 8] 2 1000 0%nat.
Definition demo_engine : Engine :=
  (submit demo_submission (start (new_engine default_config)).2).2.
Definition demo_channels : ChannelStore := {[ 0%nat := new_channel 4 ]}.

Lemma demo_engine_reachable :
  engine_reachable (mkSystem demo_engine demo_channels demo_engine_world ∅).
Proof.
  exists default_config, demo_engine_world. split; [reflexivity|].
  eapply rtc_l; [apply es_start|]. eapply rtc_l; [by apply (es_channel 0%nat 4)|].
  apply rtc_once. apply (es_submit demo_submission); [|set_solver|set_solver].
  split; [simpl; lia|]. split; [done|]. split; [|intros id en Hm; done].
  exists (new_channel 4). by split_and!.
Qed.

Lemma demo_engine_fits e1 w1 e2 cs2 w2 :
  drain_submissions demo_engine demo_engine_world = Ok (e1, w1) ->
  drain_cancels e1 demo_channels w1 = Ok (e2, cs2, w2) -> tick_fits (scheduler_ e2) w2.
Proof.
  intros E1. vm_compute in E1. injection E1 as <- <-. intros E2. vm_compute in E2.
  injection E2 as <- <- <-. apply mock_tick_fits; [apply mock_wfb_wf; reflexivity|by vm_compute|by vm_compute].
Qed.

(** Reading the simulated clock does not move it. *)
Lemma mock_reads (w w' : MockWorld) : clock_reads w w' -> w' = w.
Proof. induction 1 as [|w1 w2 w3 [t E] _ IH]; [done|]. injection E as _ ->. exact IH. Qed.

Lemma demo_deadlines_fit : deadlines_fit (pending_submissions_ demo_engine) demo_engine_world.
Proof.
  intros sub w1 t w2 Hsub ->%mock_reads E. apply list_elem_of_singleton in Hsub. subst sub.
  injection E as <- _. reflexivity.
Qed.

(** After one turn the first token has been streamed; after the next tick and
    push the request has completed and can be reaped. *)
Definition demo_turn : outcome (Engine * ChannelStore * MockWorld) :=
  run_once demo_order demo_engine demo_channels demo_engine_world.

Definition result {A} (default : A) (o : outcome A) : A :=
  match o with Ok a => a | _ => default end.

Definition demo_after_turn : Engine * ChannelStore * MockWorld :=
  Eval vm_compute in result (demo_engine, demo_channels, demo_engine_world) demo_turn.
Definition demo_e1 : Engine := demo_after_turn.1.1.
Definition demo_cs1 : ChannelStore := demo_after_turn.1.2.
Definition demo_turn_world : MockWorld := demo_after_turn.2.

Definition demo_after_tick : FifoScheduler * MockWorld :=
  Eval vm_compute in result (new_scheduler, demo_turn_world)
    ('(_, s, w) ← tick (scheduler_ demo_e1) demo_turn_world; Ok (s, w)).
Definition demo_e2 : Engine := set_scheduler demo_after_tick.1 demo_e1.

Definition demo_after_push : Engine * ChannelStore * MockWorld :=
  Eval vm_compute in result (demo_e2, demo_cs1, demo_turn_world)
    (push_all ["a"] demo_e2 demo_cs1 demo_after_tick.2).
Definition demo_e3 : Engine := demo_after_push.1.1.
Definition demo_cs3 : ChannelStore := demo_after_push.1.2.
Definition demo_w3 : MockWorld := demo_after_push.2.

Lemma demo_turn_reachable : engine_reachable (mkSystem demo_e1 demo_cs1 demo_turn_world ∅).
Proof.
  eapply (reachable_turn demo_order demo_iteration_order); [exact demo_engine_reachable|exact demo_engine_fits|].
  vm_compute. reflexivity.
Qed.

Lemma demo_push_reachable : engine_reachable (mkSystem demo_e3 demo_cs3 demo_w3 ∅).
Proof.
  pose proof demo_turn_reachable as Hreach. pose proof (reachable_inv _ Hreach) as Hinv1.
  destruct Hreach as (config & w0 & Hl & Hs).
  assert (Hfits : tick_fits (scheduler_ demo_e1) demo_turn_world).
  { apply mock_tick_fits; [apply mock_wfb_wf; reflexivity|by vm_compute|by vm_compute]. }
  assert (H2 : engine_step (mkSystem demo_e1 demo_cs1 demo_turn_world ∅)
    (mkSystem demo_e2 demo_cs1 demo_after_tick.2 ∅)).
  { eapply es_tick; [exact Hfits|]. vm_compute. reflexivity. }
  destruct (push_all_runs ["a"] demo_e2 demo_cs1 demo_after_tick.2 ∅) as [(e & cs & w & E & H)|E].
  - intros id ->%list_elem_of_singleton. eexists. vm_compute. reflexivity.
  - by eapply step_good.
  - exists config, w0. split; [done|]. etrans; [exact Hs|]. eapply rtc_l; [exact H2|].
    vm_compute in E. injection E as <- <- <-. exact H.
  - vm_compute in E. discriminate E.
Qed.

Definition demo_entry : ActiveEntry := mkActiveEntry 0 0 2 None.

Definition demo_finished : Request :=
  Eval vm_compute in match requests_ (scheduler_ demo_e3) with r :: _ => r
                     | [] => mkRequest "" (new_lifecycle fake_start).1 0 0 0 [] 0 [] end.

Definition demo_after_reap : Engine * ChannelStore :=
  Eval vm_compute in result (demo_e3, demo_cs3) (reap ["a"] demo_e3 demo_cs3).

(** The consumer pops the first event after the channel was closed. *)
Definition demo_popped : System MockWorld :=
  mkSystem demo_after_reap.1 (<[0%nat := mkChannel [mkTokenEvent 2 kLength] true 4]> demo_after_reap.2)
    demo_w3 {[ 0%nat := [mkTokenEvent 1 kNone] ]}.

(** ** Witnesses *)

Lemma engine_streams_faithfully_witness :
  active_ demo_e3 !! "a" = Some demo_entry /\
  exists r c, requests_ (scheduler_ demo_e3) !! 0%nat = Some r /\ demo_cs3 !! 0%nat = Some c /\
    event_token_id <$> stream 0%nat c ∅ = take 2 (output_token_ids_ r).
Proof.
  split; [reflexivity|].
  destruct (proj1 (engine_streams_faithfully _ demo_push_reachable) "a" demo_entry eq_refl)
    as (r & c & Hr & _ & Hc & _ & _ & Hst).
  exists r, c. exact (conj Hr (conj Hc Hst)).
Defined.

Lemma engine_reaped_stream_complete_witness :
  exists c, sys_channels demo_popped !! 0%nat = Some c /\ closed_ c = true /\
    event_token_id <$> stream 0%nat c (sys_log demo_popped) = output_token_ids_ demo_finished /\
    forall (j : nat) ev, stream 0%nat c (sys_log demo_popped) !! j = Some ev ->
      finish_reason ev = if decide (S j = 2%nat) then kLength else kNone.
Proof.
  destruct (engine_reaped_stream_complete "a" demo_entry demo_finished demo_e3 demo_cs3 demo_w3 ∅
    demo_after_reap.1 demo_after_reap.2 demo_popped demo_push_reachable) as (c & Hc & Hcl & _ & Ht & Hr).
  - reflexivity.
  - reflexivity.
  - reflexivity.
  - vm_compute. discriminate.
  - vm_compute. reflexivity.
  - apply rtc_once.
    exact (es_pop 0%nat (mkChannel [mkTokenEvent 1 kNone; mkTokenEvent 2 kLength] true 4)
      (mkChannel [mkTokenEvent 2 kLength] true 4) (mkTokenEvent 1 kNone)
      demo_after_reap.1 demo_after_reap.2 demo_w3 ∅ eq_refl eq_refl).
  - exists c. exact (conj Hc (conj Hcl (conj Ht (Hr eq_refl)))).
Defined.

Lemma engine_turn_safe_witness :
  exists e cs w, demo_turn = Ok (e, cs, w) /\
    rtc engine_step (mkSystem demo_engine demo_channels demo_engine_world ∅) (mkSystem e cs w ∅).
Proof.
  exact (engine_turn_safe demo_order demo_engine demo_channels demo_engine_world ∅
    demo_engine_reachable demo_iteration_order demo_deadlines_fit demo_engine_fits).
Defined.
