(* ===== verification/EngineRefinement.v ===== *)
(** * The engine refines independent streams

    What the network side can observe of the engine is one stream per channel:
    the events that went through it so far and whether it has ended.
    [stream_step] is the specification of such a stream: it is opened empty, it
    grows by the next token of its request with the reason of [push_tokens], and
    it ends once, when its request has ended.  Every step of the engine is a
    step of at most one stream and leaves the others alone. *)

From S2P Require Import Prelude Clock RequestState RequestLifecycle Request Backend MockBackend MockProperties FifoScheduler SchedulerInvariant SchedulerCorrect SchedulerSpec TokenChannel Engine EngineInvariant EngineCorrect EngineProperties.

Section Refinement.
Context {W : Type} `{!Clock W, !ClockLaws W, !InferenceBackend W, !BackendContract W,
  !SteadyClock W, !SteadyLaws W}.
Implicit Types (e : Engine) (cs : ChannelStore) (w : W) (log : DeliveryLog) (x y z : System W).

(** The stream of a channel and whether it has ended. *)
Definition view_of (p : ChannelPtr) cs log : option (list TokenEvent * bool) :=
  (fun c => (stream p c log, closed_ c)) <$> cs !! p.
Definition channel_view x (q : ChannelPtr) : option (list TokenEvent * bool) :=
  view_of q (sys_channels x) (sys_log x).

Inductive stream_step x y (q : ChannelPtr) : Prop :=
  | stream_opened :
      channel_view x q = None -> channel_view y q = Some ([], false) -> stream_step x y q
  | stream_event id entry r l tok :
      active_ (sys_engine x) !! id = Some entry -> entry_channel entry = q ->
      requests_ (scheduler_ (sys_engine x)) !! entry_request entry = Some r ->
      channel_view x q = Some (l, false) -> output_token_ids_ r !! length l = Some tok ->
      channel_view y q = Some (l ++ [mkTokenEvent tok (token_reason r (size_of l))], false) ->
      stream_step x y q
  | stream_ended id entry r l :
      active_ (sys_engine x) !! id = Some entry -> entry_channel entry = q ->
      active_ (sys_engine y) !! id = None ->
      requests_ (scheduler_ (sys_engine y)) !! entry_request entry = Some r ->
      is_terminal (req_state r) = true ->
      channel_view x q = Some (l, false) -> channel_view y q = Some (l, true) ->
      stream_step x y q.

(** The streams of all channels but [q] are the same. *)
Definition same_views x y : Prop := forall q, channel_view y q = channel_view x q.
Definition same_other_views x y q : Prop := forall q', q' <> q -> channel_view y q' = channel_view x q'.

Lemma view_insert_ne p q c cs log : q <> p -> view_of q (<[p := c]> cs) log = view_of q cs log.
Proof. intros Hne. unfold view_of. by rewrite lookup_insert_ne. Qed.

(** An entry is given up: its channel is closed and its request has ended. *)
Lemma given_up id entry e e' cs w w' log c :
  sys_inv (mkSystem e cs w log) -> active_ e !! id = Some entry ->
  cs !! entry_channel entry = Some c -> active_ e' !! id = None ->
  store_grows (scheduler_ e) (scheduler_ e') -> fresh_id id (scheduler_ e') ->
  sched_inv ∅ (scheduler_ e') w' ->
  let x := mkSystem e cs w log in
  let y := mkSystem e' (<[entry_channel entry := close c]> cs) w' log in
  stream_step x y (entry_channel entry) /\ same_other_views x y (entry_channel entry).
Proof.
  intros Hinv Hm Hc Hnone Hgrows Hfresh Hs' x y.
  destruct (ei_entries _ _ _ _ _ _ Hinv _ _ Hm) as (r & c0 & Hr & Hid & Hc0 & Hop & _).
  simpl in Hr, Hc0. assert (c0 = c) as -> by congruence.
  destruct (Hgrows _ _ Hr) as (r' & Hr' & Hg). split.
  - apply (stream_ended _ _ _ id entry r' (stream (entry_channel entry) c log)); try done.
    + apply (inv_rest _ _ _ Hs' _ _ Hr'). intros Ha. apply (Hfresh _ _ Ha Hr').
      rewrite (grows_id _ _ Hg). exact Hid.
    + unfold channel_view, view_of. simpl. by rewrite Hc, <- Hop.
    + unfold channel_view, view_of. simpl. by rewrite lookup_insert_eq.
  - intros q Hne. by apply view_insert_ne.
Qed.

Lemma cancelled_entry id entry e e' cs w w' log c :
  sys_inv (mkSystem e cs w log) -> active_ e !! id = Some entry ->
  cs !! entry_channel entry = Some c ->
  FifoScheduler.cancel id (scheduler_ e) w = Ok (scheduler_ e', w') ->
  active_ e' = delete id (active_ e) ->
  let x := mkSystem e cs w log in
  let y := mkSystem e' (<[entry_channel entry := close c]> cs) w' log in
  stream_step x y (entry_channel entry) /\ same_other_views x y (entry_channel entry).
Proof.
  intros Hinv Hm Hc E Hact. pose proof (ei_sched _ _ _ _ _ _ Hinv) as Hs. simpl in Hs.
  destruct (cancel_ok id _ w Hs) as (s1 & w1 & E1 & Hs1 & _ & Hev).
  rewrite E1 in E. injection E as -> ->. apply (given_up id); try done; [rewrite Hact; apply lookup_delete_eq| |].
  - exact (proj2 (cancel_grows _ _ _ _ Hs Hev)).
  - exact (cancel_fresh _ _ _ _ _ Hs Hs1 Hev).
Qed.

(** One [try_push]. *)
Lemma pushed_once id entry entry' r e cs cs' w w' log :
  sys_inv (mkSystem e cs w log) -> active_ e !! id = Some entry ->
  requests_ (scheduler_ e) !! entry_request entry = Some r ->
  last_seen_tokens entry < output_tokens_emitted_ r ->
  push_loop r 1 (last_seen_tokens entry) entry cs w = Ok (entry', cs', w') ->
  let x := mkSystem e cs w log in
  let y := mkSystem (set_active (<[id := entry']> (active_ e)) e) cs' w' log in
  same_views x y \/
  stream_step x y (entry_channel entry) /\ same_other_views x y (entry_channel entry).
Proof.
  intros Hinv Hm Hr Hlt E x y.
  destruct (ei_entries _ _ _ _ _ _ Hinv _ _ Hm) as (r0 & c & Hr0 & Hid & Hc & Hop & Hn & Hsz & _).
  simpl in Hr0, Hc, Hsz. assert (r0 = r) as -> by congruence.
  cbn [push_loop] in E. apply bind_Ok in E as (tok & Htok & E). apply bind_Ok in E as (c0 & Hc0 & E).
  destruct (output_token_ids_ r !! Z.to_nat (last_seen_tokens entry)) as [t|] eqn:Ht; [|done].
  injection Htok as ->. unfold deref_channel in Hc0. rewrite Hc in Hc0. injection Hc0 as <-.
  destruct (try_push_cases (mkTokenEvent tok (token_reason r (last_seen_tokens entry))) c)
    as [[Ep _]|(Ep & _)]; rewrite Ep in E.
  - left. assert (cs' = cs) as ->.
    { destruct (backpressure_since entry); [|destruct (steady_now w)]; injection E as <- <- <-;
        by apply insert_id. }
    done.
  - right. injection E as <- <- <-. split; [|intros q Hne; by apply view_insert_ne].
    apply (stream_event _ _ _ id entry r (stream (entry_channel entry) c log) tok); try done.
    + unfold channel_view, view_of. simpl. by rewrite Hc, <- Hop.
    + rewrite <- Ht. f_equal. rewrite <- Hsz. unfold size_of. lia.
    + unfold channel_view, view_of. simpl. rewrite lookup_insert_eq. simpl.
      rewrite Hsz. unfold stream. simpl. by rewrite app_assoc.
Qed.

(** C5. The engine refines a family of independent streams.  From every reachable
    state, a step of the engine thread, of a network thread, of a consumer or of
    the clock changes the stream of at most one channel, and only so: a new
    channel starts an empty open stream; an open stream of an active entry
    grows by the very next token of its request, with its finish reason; an open
    stream ends, without losing anything, when the entry is given up, and then
    its request has ended. *)
Theorem engine_refines_streams x y :
  engine_reachable x -> engine_step x y ->
  same_views x y \/ exists q, stream_step x y q /\ same_other_views x y q.
Proof.
  intros Hinv%reachable_inv Hstep. pose proof (proj1 (step_good _ _ Hinv Hstep)) as Hinv'.
  destruct Hstep as [e cs w log|e cs w log|p cap e cs w log Hp Hl|sub e cs w log Hok Hid Hch
    |id e cs w log|p c c' ev e cs w log Hc Hpop|e cs w w' log Ht Hlv
    |sub rest e e' cs w w' log Hpend E|id rest e e' cs cs' w w' log Hpend E
    |rep s' e cs w w' log Hf E|id entry entry' r e cs cs' w w' log Hm Hr Hlt E
    |id now e e' cs cs' w w' log (entry & t & Hm & _) E
    |id e e' cs cs' w log Hfin E]; try (left; intros q; done).
  - right. exists p. split; [|intros q Hne; by apply view_insert_ne].
    apply stream_opened; unfold channel_view, view_of; simpl; [by rewrite Hp|].
    rewrite lookup_insert_eq. simpl. unfold stream, delivered_to. by rewrite Hl.
  - left. intros q. unfold channel_view, view_of. simpl.
    destruct (pop_stream p c c' ev log Hpop) as [Hcl Hst].
    destruct (decide (q = p)) as [->|Hne].
    + rewrite lookup_insert_eq, Hc. simpl. by rewrite Hst, Hcl.
    + rewrite lookup_insert_ne by done. unfold stream, delivered_to. by rewrite lookup_insert_ne.
  - destruct (active_ e !! id) as [entry|] eqn:Hm.
    + destruct (cancel_close_ok id _ _ _ _ _ _ Hinv) as (s' & w1 & E1 & _ & _ & Hrem).
      destruct (Hrem entry Hm) as (c & Hc & Ec & _). simpl in E1, E, Ec, Hc. rewrite E1 in E. simpl in E.
      rewrite Hm in E. simpl in E. rewrite Ec in E. injection E as <- <- <-.
      right. exists (entry_channel entry).
      apply (cancelled_entry id entry e); [exact Hinv|exact Hm|exact Hc|exact E1|done].
    + left. simpl in E. apply bind_Ok in E as ([s' w1] & _ & E). simpl in E. rewrite Hm in E.
      by injection E as <- <- <-.
  - destruct (pushed_once id entry entry' r e cs cs' w w' log Hinv Hm Hr Hlt E) as [H|H]; [by left|right].
    by exists (entry_channel entry).
  - destruct (cancel_close_ok id _ _ _ _ _ _ Hinv) as (s' & w1 & E1 & _ & _ & Hrem).
    destruct (Hrem entry Hm) as (c & Hc & Ec & _). simpl in E1, E, Ec, Hc. rewrite E1 in E. simpl in E.
    rewrite Hm in E. simpl in E. rewrite Ec in E. injection E as <- <- <-.
    right. exists (entry_channel entry).
    apply (cancelled_entry id entry e); [exact Hinv|exact Hm|exact Hc|exact E1|done].
  - pose proof Hfin as (entry & r & Hm & Hr & Hterm & _).
    destruct (reap_one id entry e cs w log Hinv Hm Hfin) as (c & Hc & E1 & _).
    rewrite E1 in E. injection E as <- <-. right. exists (entry_channel entry).
    apply (given_up id); try done; [apply lookup_delete_eq|apply store_grows_refl| |apply Hinv].
    simpl. intros q rq Ha Hrq Hid. destruct (ei_active _ _ _ _ _ _ Hinv q rq Ha Hrq) as (en & Hen & Hreq).
    simpl in Hen. assert (en = entry) as -> by congruence.
    pose proof (inv_active_not_terminal _ _ _ _ (ei_sched _ _ _ _ _ _ Hinv) Ha Hrq). congruence.
Qed.

End Refinement.

(** ** A concrete step

    Reaping the finished entry of the demonstration ends its stream. *)

#[local] Existing Instance demo_steady.
#[local] Existing Instance demo_steady_laws.

Lemma demo_finishes : finished demo_e3 "a".
Proof. exists demo_entry, demo_finished. split_and!; (reflexivity || by vm_compute). Qed.

Lemma demo_reap : reap ["a"] demo_e3 demo_cs3 = Ok (demo_after_reap.1, demo_after_reap.2).
Proof. vm_compute. reflexivity. Qed.

Lemma engine_refines_streams_witness :
  exists q, stream_step (mkSystem demo_e3 demo_cs3 demo_w3 ∅)
    (mkSystem demo_after_reap.1 demo_after_reap.2 demo_w3 ∅) q.
Proof.
  destruct (engine_refines_streams _ _ demo_push_reachable
    (es_reap "a" demo_e3 _ demo_cs3 _ demo_w3 ∅ demo_finishes demo_reap)) as [H|(q & H & _)].
  - specialize (H 0%nat). vm_compute in H. discriminate H.
  - exists q. exact H.
Defined.
