(* ===== verification/EngineCancel.v ===== *)
(** * Cancelling: on request and for backpressure

    The exact effect of the two ways the engine gives a request up:
    [drain_cancels], for the ids its clients cancelled, and
    [check_backpressure], for the entries that have been unable to push for the
    configured time.  Both cancel the request in the scheduler, close its
    channel and forget its entry, and touch nothing else. *)

From S2P Require Import Prelude Clock RequestState RequestLifecycle Request Backend MockBackend MockProperties FifoScheduler SchedulerInvariant SchedulerCorrect SchedulerSpec TokenChannel Engine EngineInvariant EngineCorrect EngineProperties.

(** The requests at work whose id satisfies [P] become [kCancelled] and keep
    their output; the others do not change. *)
Definition cancels (P : RequestId -> Prop) (s s' : FifoScheduler) : Prop :=
  evolves (fun p r r' => (active s p /\ P (id_ r) /\ moved kCancelled r r') \/
                         (~ (active s p /\ P (id_ r)) /\ r' = r)) s s'.

Section Cancel.
Context {W : Type} `{!Clock W, !ClockLaws W, !InferenceBackend W, !BackendContract W,
  !SteadyClock W, !SteadyLaws W}.
Implicit Types (e : Engine) (cs : ChannelStore) (w : W) (log : DeliveryLog) (s : FifoScheduler).

Lemma cancels_nil s : cancels (fun id => id ∈ []) s s.
Proof.
  split; [done|]. intros p r Hr. exists r. split; [done|]. right. split; [|done]. set_solver.
Qed.

Lemma active_unchanged s s' w w' p r :
  sched_inv ∅ s w -> sched_inv ∅ s' w' -> requests_ s !! p = Some r -> requests_ s' !! p = Some r ->
  active s p <-> active s' p.
Proof.
  intros Hs Hs' Hr Hr'. split; intros Ha.
  - destruct (decide (active s' p)) as [|Hn]; [done|].
    pose proof (inv_rest _ _ _ Hs' p r Hr' Hn).
    pose proof (inv_active_not_terminal _ _ _ _ Hs Ha Hr). congruence.
  - destruct (decide (active s p)) as [|Hn]; [done|].
    pose proof (inv_rest _ _ _ Hs p r Hr Hn).
    pose proof (inv_active_not_terminal _ _ _ _ Hs' Ha Hr'). congruence.
Qed.

Lemma cancels_cons id ids s s1 s2 w w1 :
  sched_inv ∅ s w -> sched_inv ∅ s1 w1 -> evolves (cancel_effect id s) s s1 ->
  cancels (fun i => i ∈ ids) s1 s2 -> cancels (fun i => i ∈ id :: ids) s s2.
Proof.
  intros Hs Hs1 [Hlen1 H1] [Hlen2 H2]. split; [congruence|]. intros p r Hr.
  destruct (H1 p r Hr) as (r1 & Hr1 & Heff1). destruct (H2 p r1 Hr1) as (r2 & Hr2 & Heff2).
  exists r2. split; [done|]. destruct Heff1 as [(Ha & Hid & Hmv)|[Hn ->]].
  - left. split; [done|]. split; [set_solver|].
    destruct Heff2 as [(Ha1 & _)|[_ ->]]; [|done].
    pose proof (inv_active_not_terminal _ _ _ _ Hs1 Ha1 Hr1) as Hnt.
    destruct Hmv as (_ & Hst & _). by rewrite Hst in Hnt.
  - rewrite (active_unchanged _ _ _ _ _ _ Hs Hs1 Hr Hr1) in *.
    destruct Heff2 as [(Ha & Hid & Hmv)|[Hn2 ->]]; [left|right].
    + split; [done|]. split; [set_solver|done].
    + split; [|done]. intros [Ha [Hid|Hin]%elem_of_cons]; [by apply Hn|by apply Hn2].
Qed.

(** What the loop of [drain_cancels] does. *)
Lemma cancel_batch_exact ids e cs w log :
  sys_inv (mkSystem e cs w log) ->
  exists s' cs' w', cancel_batch ids e cs w =
      Ok (set_active (foldr delete (active_ e) ids) (set_scheduler s' e), cs', w') /\
    closes ids (active_ e) cs cs' /\ cancels (fun id => id ∈ ids) (scheduler_ e) s'.
Proof.
  revert e cs w. induction ids as [|id ids IH]; intros e cs w Hinv.
  { exists (scheduler_ e), cs, w. split; [by destruct e|]. split; [|apply cancels_nil].
    split; [set_solver|done]. }
  pose proof (ei_sched _ _ _ _ _ _ Hinv) as Hs. simpl in Hs.
  destruct (cancel_ok id _ w Hs) as (s0 & w0 & E0 & Hs1 & _ & Hev).
  destruct (cancel_close_ok id _ _ _ _ _ _ Hinv) as (s1 & w1 & E1 & _ & Hinv1 & Hrem).
  simpl in E1, Hinv1, Hrem. rewrite E1 in E0. injection E0 as <- <-.
  cbn [cancel_batch]. rewrite E1. cbn [mbind outcome_bind].
  change (active_ (set_scheduler s1 e)) with (active_ e).
  destruct (active_ e !! id) as [entry|] eqn:Hm.
  - destruct (Hrem entry eq_refl) as (c & Hc & Ec & Hinv2). rewrite Ec. cbn [mbind outcome_bind].
    destruct (IH (set_active (delete id (active_ e)) (set_scheduler s1 e)) _ _ Hinv2)
      as (s2 & cs2 & w2 & E2 & Hcl & Hcan).
    exists s2, cs2, w2. split; [|split; [|by eapply cancels_cons]].
    + rewrite E2. simpl. by rewrite foldr_delete_comm.
    + eapply closes_cons; [done|exact Hc| |exact Hcl]. intros id' en Hm' Heq.
      by eapply (ei_channels _ _ _ _ _ _ Hinv).
  - destruct (IH (set_scheduler s1 e) _ _ Hinv1) as (s2 & cs2 & w2 & E2 & [Hin Hout] & Hcan).
    exists s2, cs2, w2. split; [|split; [|by eapply cancels_cons]].
    + rewrite E2. simpl. do 3 f_equal. rewrite delete_id; [done|].
      destruct (decide (id ∈ ids)); [by apply lookup_foldr_delete_in|by rewrite lookup_foldr_delete].
    + split; [intros id' en c [->|Hi]%elem_of_cons Hm'; [congruence|eauto]|].
      intros q Hq. apply Hout. intros id' en Hi. apply Hq. set_solver.
Qed.

(** On ids that have entries, [check_backpressure] runs the same loop. *)
Lemma cancel_stalled_batch ids e cs w log :
  NoDup ids -> (forall id, id ∈ ids -> is_Some (active_ e !! id)) -> sys_inv (mkSystem e cs w log) ->
  cancel_stalled ids e cs w = cancel_batch ids e cs w.
Proof.
  revert e cs w. induction ids as [|id ids IH]; intros e cs w Hnd Hids Hinv; [done|].
  apply NoDup_cons in Hnd as [Hid Hnd]. destruct (Hids id) as [entry Hm]; [set_solver|].
  destruct (cancel_close_ok id _ _ _ _ _ _ Hinv) as (s1 & w1 & E1 & _ & _ & Hrem).
  simpl in E1, Hrem. destruct (Hrem entry Hm) as (c & Hc & Ec & Hinv2).
  cbn [cancel_stalled cancel_batch]. rewrite E1. cbn [mbind outcome_bind].
  change (active_ (set_scheduler s1 e)) with (active_ e). rewrite Hm.
  cbn [or_throw mbind outcome_bind]. rewrite Ec. cbn [mbind outcome_bind].
  apply IH; [done| |exact Hinv2]. intros id' Hin. simpl. rewrite lookup_delete_ne by (by intros ->).
  apply Hids. set_solver.
Qed.

Lemma lookup_removed (ids : list RequestId) (m : gmap RequestId ActiveEntry) id :
  foldr delete m ids !! id = if decide (id ∈ ids) then None else m !! id.
Proof. case_decide; [by apply lookup_foldr_delete_in|by apply lookup_foldr_delete]. Qed.

(** Nothing at work has a cancelled id. *)
Lemma cancels_fresh P s s' w w' id :
  sched_inv ∅ s w -> sched_inv ∅ s' w' -> cancels P s s' -> P id -> fresh_id id s'.
Proof.
  intros Hs Hs' [Hlen Hev] HP p r' Ha Hr' <-.
  destruct (lookup_lt_is_Some_2 (requests_ s) p) as [r Hr]; [rewrite <- Hlen; by eapply lookup_lt_Some|].
  destruct (Hev p r Hr) as (r1 & Hr1 & Heff). assert (r1 = r') as -> by congruence.
  pose proof (inv_active_not_terminal _ _ _ _ Hs' Ha Hr') as Hnt.
  destruct Heff as [(_ & _ & _ & Hst & _)|[Hn ->]]; [by rewrite Hst in Hnt|].
  apply Hn. split; [|done]. by apply (active_unchanged _ _ _ _ _ _ Hs Hs' Hr Hr').
Qed.

Lemma drain_cancels_spec e cs w log :
  sys_inv (mkSystem e cs w log) ->
  exists e' cs' w', drain_cancels e cs w = Ok (e', cs', w') /\ pending_cancels_ e' = [] /\
    pending_submissions_ e' = pending_submissions_ e /\ running_ e' = running_ e /\
    (forall id, active_ e' !! id = if decide (id ∈ pending_cancels_ e) then None else active_ e !! id) /\
    closes (pending_cancels_ e) (active_ e) cs cs' /\
    cancels (fun id => id ∈ pending_cancels_ e) (scheduler_ e) (scheduler_ e') /\
    forall id, id ∈ pending_cancels_ e -> fresh_id id (scheduler_ e').
Proof.
  intros Hinv. unfold drain_cancels.
  destruct (cancel_batch_exact (pending_cancels_ e) (set_pending (pending_submissions_ e) [] e)
    cs w log Hinv) as (s' & cs' & w' & E & Hcl & Hcan).
  pose proof (drain_cancels_runs e cs w log Hinv) as Hruns. unfold drain_cancels in Hruns.
  rewrite E in *. apply runs_steps in Hruns. pose proof (proj1 (steps_good _ _ Hinv Hruns)) as Hinv'.
  do 3 eexists. split; [done|]. do 3 (split; [done|]). split; [intros id; apply lookup_removed|].
  split; [done|]. split; [done|]. intros id Hid.
  exact (cancels_fresh _ _ _ _ _ _ (ei_sched _ _ _ _ _ _ Hinv) (ei_sched _ _ _ _ _ _ Hinv') Hcan Hid).
Qed.

Lemma check_backpressure_spec order e cs w log :
  sys_inv (mkSystem e cs w log) -> iteration_order order ->
  (exists e' cs' w' ids, check_backpressure order e cs w = Ok (e', cs', w') /\
     (forall id, id ∈ ids <-> stalled e (steady_now w).1 id) /\
     pending_cancels_ e' = pending_cancels_ e /\
     pending_submissions_ e' = pending_submissions_ e /\ running_ e' = running_ e /\
     (forall id, active_ e' !! id = if decide (id ∈ ids) then None else active_ e !! id) /\
     closes ids (active_ e) cs cs' /\ cancels (fun id => id ∈ ids) (scheduler_ e) (scheduler_ e') /\
     forall id, id ∈ ids -> fresh_id id (scheduler_ e')) \/
  check_backpressure order e cs w = Undef "signed integer overflow".
Proof.
  intros Hinv Horder. pose proof (check_backpressure_runs order Horder _ _ _ _ Hinv) as Hruns.
  unfold check_backpressure in *. destruct (steady_now w) as [now w1] eqn:Es. simpl in Es |- *.
  destruct (steady_contract _ _ _ Es) as [Ht Hl].
  destruct (collect_stalled_runs (order (active_ e)) now e) as [(ids & E & Hsub & Hst & Hall)|E];
    [apply (order_sound order Horder)|left|right; by rewrite E].
  rewrite E in *. cbn [mbind outcome_bind] in *. rewrite Forall_forall in Hst.
  assert (Hinv1 : sys_inv (mkSystem e cs w1 log)) by (by eapply inv_world).
  assert (Hsome : forall id, id ∈ ids -> is_Some (active_ e !! id)).
  { intros id Hid. destruct (Hst id Hid) as (en & t & Hm & _). by exists en. }
  rewrite (cancel_stalled_batch ids e cs w1 log) in * by
    (done || by eapply sublist_NoDup; [apply Horder|done]).
  destruct (cancel_batch_exact ids e cs w1 log Hinv1) as (s' & cs' & w' & E' & Hcl & Hcan).
  rewrite E' in *. apply runs_steps in Hruns. pose proof (proj1 (steps_good _ _ Hinv Hruns)) as Hinv'.
  do 3 eexists. exists ids. split; [done|]. split.
  { intros id. split; [auto|]. intros Hid. apply Hall; [|done]. apply Horder.
    destruct Hid as (en & t & Hm & _). by exists en. }
  do 3 (split; [done|]). split; [intros id; apply lookup_removed|]. split; [done|]. split; [done|].
  intros id Hid.
  exact (cancels_fresh _ _ _ _ _ _ (ei_sched _ _ _ _ _ _ Hinv) (ei_sched _ _ _ _ _ _ Hinv') Hcan Hid).
Qed.

(** C11. Cancelling on request is exact.  From every reachable state
    [drain_cancels] returns; every id that was cancelled loses its entry, its
    channel is closed with what it holds, its request, if it was still at work,
    becomes cancelled with the tokens it has, and nothing at work keeps the id;
    every other entry, channel and request is untouched. *)
Theorem drain_cancels_exact e cs w log :
  engine_reachable (mkSystem e cs w log) ->
  exists e' cs' w', drain_cancels e cs w = Ok (e', cs', w') /\ pending_cancels_ e' = [] /\
    pending_submissions_ e' = pending_submissions_ e /\ running_ e' = running_ e /\
    (forall id, active_ e' !! id = if decide (id ∈ pending_cancels_ e) then None else active_ e !! id) /\
    closes (pending_cancels_ e) (active_ e) cs cs' /\
    cancels (fun id => id ∈ pending_cancels_ e) (scheduler_ e) (scheduler_ e') /\
    forall id, id ∈ pending_cancels_ e -> fresh_id id (scheduler_ e').
Proof. intros Hinv%reachable_inv. by eapply drain_cancels_spec. Qed.

(** C12. Slow consumers are cut off, and nobody else.  From every reachable state
    [check_backpressure] gives up exactly the entries that have been unable to
    push for at least the configured time when the steady clock is read: their
    channels are closed with what they hold, their requests, if still at work,
    become cancelled; every other entry, channel and request is untouched.  Only
    a time span that cannot be represented stops it. *)
Theorem check_backpressure_exact order e cs w log :
  engine_reachable (mkSystem e cs w log) -> iteration_order order ->
  (exists e' cs' w' ids, check_backpressure order e cs w = Ok (e', cs', w') /\
     (forall id, id ∈ ids <-> stalled e (steady_now w).1 id) /\
     pending_cancels_ e' = pending_cancels_ e /\
     pending_submissions_ e' = pending_submissions_ e /\ running_ e' = running_ e /\
     (forall id, active_ e' !! id = if decide (id ∈ ids) then None else active_ e !! id) /\
     closes ids (active_ e) cs cs' /\ cancels (fun id => id ∈ ids) (scheduler_ e) (scheduler_ e') /\
     forall id, id ∈ ids -> fresh_id id (scheduler_ e')) \/
  check_backpressure order e cs w = Undef "signed integer overflow".
Proof. intros Hinv%reachable_inv. by eapply check_backpressure_spec. Qed.

End Cancel.

(** ** Concrete states *)

#[local] Existing Instance demo_steady.
#[local] Existing Instance demo_steady_laws.

(** After the first turn of the demonstration its request is cancelled. *)
Lemma demo_cancel_reachable :
  engine_reachable (mkSystem (Engine.cancel "a" demo_e1) demo_cs1 demo_turn_world ∅).
Proof. eapply reachable_step; [exact demo_turn_reachable|]. apply es_request_cancel. Qed.

Lemma drain_cancels_exact_witness :
  exists e' cs' w', drain_cancels (Engine.cancel "a" demo_e1) demo_cs1 demo_turn_world = Ok (e', cs', w') /\
    active_ e' !! "a" = None /\ fresh_id "a" (scheduler_ e').
Proof.
  destruct (drain_cancels_exact _ _ _ _ demo_cancel_reachable)
    as (e' & cs' & w' & E & _ & _ & _ & Hact & _ & _ & Hfresh).
  exists e', cs', w'. split; [exact E|].
  assert (Hin : "a" ∈ pending_cancels_ (Engine.cancel "a" demo_e1)) by (apply elem_of_cons; by left).
  split; [|exact (Hfresh _ Hin)]. rewrite Hact. by apply decide_True.
Defined.

(** A consumer that reads nothing: the channel holds one event, the timeout is
    five nanoseconds; after two turns the second token is held back. *)
Definition slow_submission : Submission := mkSubmission "a" [7; 8] 9 1000 0%nat.
Definition slow_engine : Engine :=
  (Engine.submit slow_submission (start (new_engine (mkEngineConfig 10 5))).2).2.
Definition slow_channels : ChannelStore := {[ 0%nat := new_channel 1 ]}.

Definition slow_turn (x : Engine * ChannelStore * MockWorld) : outcome (Engine * ChannelStore * MockWorld) :=
  let '(e, cs, w) := x in run_once demo_order e cs w.

Definition slow1 : Engine * ChannelStore * MockWorld :=
  Eval vm_compute in result (slow_engine, slow_channels, demo_engine_world)
    (slow_turn (slow_engine, slow_channels, demo_engine_world)).
Definition slow2 : Engine * ChannelStore * MockWorld :=
  Eval vm_compute in result slow1 (slow_turn slow1).
Definition slow_later : MockWorld := mkMockWorld (mkFakeClock 20) (mock slow2.2).

Ltac slow_fits :=
  intros ? ? ? ? ? E1; vm_compute in E1; injection E1 as <- <-; intros E2; vm_compute in E2;
  injection E2 as <- <- <-;
  apply mock_tick_fits; [apply mock_wfb_wf; reflexivity|by vm_compute|by vm_compute].

Lemma slow_reachable1 : engine_reachable (mkSystem slow1.1.1 slow1.1.2 slow1.2 ∅).
Proof.
  eapply (reachable_turn demo_order demo_iteration_order slow_engine slow_channels demo_engine_world);
    [|slow_fits|vm_compute; reflexivity].
  exists (mkEngineConfig 10 5), demo_engine_world. split; [reflexivity|].
  eapply rtc_l; [apply es_start|]. eapply rtc_l; [by apply (es_channel 0%nat 1)|].
  apply rtc_once. apply (es_submit slow_submission); [|set_solver|set_solver].
  split; [simpl; lia|]. split; [done|]. split; [|intros id en Hm; done].
  exists (new_channel 1). by split_and!.
Qed.

Lemma slow_reachable2 : engine_reachable (mkSystem slow2.1.1 slow2.1.2 slow_later ∅).
Proof.
  eapply (reachable_step _ _ ltac:(eapply (reachable_turn demo_order demo_iteration_order);
    [exact slow_reachable1|slow_fits|vm_compute; reflexivity])).
  by apply es_world.
Qed.

Lemma check_backpressure_exact_witness :
  exists e' cs' w', check_backpressure demo_order slow2.1.1 slow2.1.2 slow_later = Ok (e', cs', w') /\
    active_ e' !! "a" = None.
Proof.
  destruct (check_backpressure_exact demo_order _ _ _ _ slow_reachable2 demo_iteration_order)
    as [(e' & cs' & w' & ids & E & Hids & _ & _ & _ & Hact & _)|E]; [|vm_compute in E; discriminate E].
  exists e', cs', w'. split; [exact E|]. rewrite Hact. apply decide_True, Hids.
  eexists _, 12. split; [reflexivity|]. split; [reflexivity|]. vm_compute. discriminate.
Defined.
