(* ===== verification/EnginePush.v ===== *)
(** * What [push_tokens] does, exactly

    For every entry, whatever the room in its channel: as many tokens as the
    channel has room for, none twice and none skipped, and the start of the
    backpressure period. *)

From S2P Require Import Prelude Clock RequestState RequestLifecycle Request Backend MockBackend MockProperties FifoScheduler SchedulerInvariant SchedulerCorrect SchedulerSpec TokenChannel Engine EngineInvariant EngineCorrect EngineProperties EngineCancel.

(** The events the channel can still take. *)
Definition free_slots (c : TokenChannel) : nat := Z.to_nat (capacity_ c - size_of (buffer_ c)).

(** How many of the [n] tokens that are left go through. *)
Definition pushable (n : nat) (c : TokenChannel) : nat := Nat.min n (free_slots c).

(** The start of the backpressure period after [k] of [n] tokens went through,
    [now] being the steady clock: a token that goes through ends the period, a
    token that does not starts one unless one has begun. *)
Definition since_after (n k : nat) (now : TimePoint) (since : option TimePoint) : option TimePoint :=
  if decide (k < n)%nat then
    match k, since with O, Some t => Some t | _, _ => Some now end
  else match n with O => since | S _ => None end.

(** What is left to push of the request [r] for an entry. *)
Definition backlog (r : Request) (entry : ActiveEntry) : nat :=
  Z.to_nat (output_tokens_emitted_ r - last_seen_tokens entry).

Definition filled_entry (now : TimePoint) (n : nat) (c : TokenChannel) (entry : ActiveEntry)
  : ActiveEntry :=
  mkActiveEntry (entry_request entry) (entry_channel entry)
    (last_seen_tokens entry + Z.of_nat (pushable n c))
    (since_after n (pushable n c) now (backpressure_since entry)).

Definition filled_channel (r : Request) (i n : nat) (c : TokenChannel) : TokenChannel :=
  mkChannel (buffer_ c ++ events r i (pushable n c)) (closed_ c) (capacity_ c).

Section Push.
Context {W : Type} `{!Clock W, !ClockLaws W, !InferenceBackend W, !BackendContract W,
  !SteadyClock W, !SteadyLaws W}.
Implicit Types (e : Engine) (cs : ChannelStore) (w : W) (log : DeliveryLog) (s : FifoScheduler).

(** ** One entry *)

Lemma push_loop_exact (r : Request) (n i : nat) entry cs w c :
  cs !! entry_channel entry = Some c -> closed_ c = false ->
  (i + n <= length (output_token_ids_ r))%nat ->
  last_seen_tokens entry = Z.of_nat i -> size_of (output_token_ids_ r) < 2 ^ 64 ->
  exists w', push_loop r n (Z.of_nat i) entry cs w =
      Ok (filled_entry (steady_now w).1 n c entry,
          <[entry_channel entry := filled_channel r i n c]> cs, w') /\
    (w' = w \/ w' = (steady_now w).2).
Proof.
  revert i entry cs c. induction n as [|n IH]; intros i entry cs c Hc Hop Hlen Hlast Hsize.
  { exists w. split; [|by left]. simpl. unfold filled_entry, filled_channel, pushable. simpl.
    change (events r i 0) with (@nil TokenEvent). rewrite app_nil_r, Z.add_0_r, insert_id
      by (by destruct c). by destruct entry. }
  destruct (lookup_lt_is_Some_2 (output_token_ids_ r) i) as [t Ht]; [lia|].
  cbn [push_loop]. rewrite Nat2Z.id, Ht. cbn [or_undef mbind outcome_bind].
  unfold deref_channel. rewrite Hc. cbn [or_undef mbind outcome_bind].
  destruct (try_push_cases (mkTokenEvent t (token_reason r (Z.of_nat i))) c)
    as [[-> [?|Hfull]]|(-> & _ & Hroom)]; [congruence| |].
  - assert (Hk : pushable (S n) c = 0%nat) by (unfold pushable, free_slots; lia).
    unfold filled_entry, filled_channel. rewrite Hk. change (events r i 0) with (@nil TokenEvent).
    rewrite app_nil_r, Z.add_0_r. assert (mkChannel (buffer_ c) (closed_ c) (capacity_ c) = c) as ->
      by (by destruct c).
    unfold since_after. rewrite decide_True by lia.
    destruct (backpressure_since entry) eqn:Hbp.
    + exists w. split; [|by left]. destruct entry. simpl in *. by rewrite Hbp.
    + destruct (steady_now w) as [now w'] eqn:Es. exists w'. split; [done|by right].
  - set (c1 := mkChannel _ _ _). set (entry1 := mkActiveEntry _ _ _ _).
    assert (Hu : u64 (Z.of_nat i + 1) = Z.of_nat (S i)).
    { rewrite u64_small; [lia|]. unfold size_of in Hsize. lia. }
    destruct (IH (S i) entry1 (<[entry_channel entry := c1]> cs) c1) as (w' & E & Hw);
      [apply lookup_insert_eq|done|lia|exact Hu|done|].
    exists w'. split; [|done]. replace (Z.of_nat i + 1) with (Z.of_nat (S i)) by lia.
    rewrite E. simpl. rewrite insert_insert_eq.
    assert (Hk : pushable (S n) c = S (pushable n c1)).
    { unfold pushable, free_slots, c1. cbn [buffer_ capacity_]. rewrite size_of_app. unfold size_of in *.
      cbn [length buffer_ capacity_]. lia. }
    assert (Hentry : filled_entry (steady_now w).1 n c1 entry1 =
      filled_entry (steady_now w).1 (S n) c entry).
    { unfold filled_entry. rewrite Hk. subst entry1. cbn [entry_request entry_channel
        last_seen_tokens backpressure_since]. rewrite Hu. f_equal; [lia|]. unfold since_after.
      repeat case_decide; try lia; [by destruct (pushable n c1)|by destruct n]. }
    assert (Hchannel : filled_channel r (S i) n c1 = filled_channel r i (S n) c).
    { unfold filled_channel. rewrite Hk, (events_S _ _ _ _ Ht). simpl. by rewrite <- app_assoc, Hop. }
    by rewrite Hentry, Hchannel.
Qed.

(** The worlds a call that starts in [w] and ends in [w'] can read the steady
    clock in. *)
Definition between w w1 w' : Prop := time w <= time w1 <= time w'.

(** What became of the entry [id] and of its channel. *)
Definition pushed_exactly s (m m' : gmap RequestId ActiveEntry) cs cs' w w' (id : RequestId) : Prop :=
  forall entry, m !! id = Some entry ->
    exists r c w1, requests_ s !! entry_request entry = Some r /\ cs !! entry_channel entry = Some c /\
      between w w1 w' /\
      m' !! id = Some (filled_entry (steady_now w1).1 (backlog r entry) c entry) /\
      cs' !! entry_channel entry =
        Some (filled_channel r (Z.to_nat (last_seen_tokens entry)) (backlog r entry) c).

Lemma push_entry_exact id entry e cs w log :
  sys_inv (mkSystem e cs w log) -> active_ e !! id = Some entry ->
  exists r c w', requests_ (scheduler_ e) !! entry_request entry = Some r /\
    cs !! entry_channel entry = Some c /\ time w <= time w' /\
    push_entry entry (scheduler_ e) cs w =
      Ok (filled_entry (steady_now w).1 (backlog r entry) c entry,
          <[entry_channel entry :=
              filled_channel r (Z.to_nat (last_seen_tokens entry)) (backlog r entry) c]> cs, w').
Proof.
  intros Hinv Hm. destruct (ei_entries _ _ _ _ _ _ Hinv _ _ Hm) as (r & c & Hr & _ & Hc & Hop & [Hn _]).
  simpl in Hr, Hc. pose proof (inv_wf _ _ _ (ei_sched _ _ _ _ _ _ Hinv) _ _ Hr) as Hwf.
  pose proof (req_output _ _ Hwf). pose proof (req_budget _ _ Hwf). pose proof (req_max _ _ Hwf).
  destruct (push_loop_exact r (backlog r entry) (Z.to_nat (last_seen_tokens entry)) entry cs w c)
    as (w' & E & Hw); [done|done|unfold backlog, size_of in *; lia|lia|lia|].
  rewrite Z2Nat.id in E by lia. exists r, c, w'. split; [done|]. split; [done|]. split.
  - destruct Hw as [->| ->]; [lia|]. destruct (steady_now w) as [t w2] eqn:Es.
    by destruct (steady_contract _ _ _ Es).
  - unfold push_entry, deref. simpl in Hr. by rewrite Hr.
Qed.

(** ** All entries, in any order *)

Lemma push_all_exact ids e cs w log :
  NoDup ids -> (forall id, id ∈ ids -> is_Some (active_ e !! id)) -> sys_inv (mkSystem e cs w log) ->
  exists m' cs' w', push_all ids e cs w = Ok (set_active m' e, cs', w') /\ time w <= time w' /\
    (forall id, id ∈ ids -> pushed_exactly (scheduler_ e) (active_ e) m' cs cs' w w' id) /\
    (forall id, id ∉ ids -> m' !! id = active_ e !! id) /\
    forall q, (forall id entry, id ∈ ids -> active_ e !! id = Some entry -> entry_channel entry <> q) ->
      cs' !! q = cs !! q.
Proof.
  revert e cs w. induction ids as [|id ids IH]; intros e cs w Hnd Hids Hinv.
  { exists (active_ e), cs, w. rewrite set_active_same. split; [done|]. split; [lia|].
    split; [set_solver|]. by split. }
  apply NoDup_cons in Hnd as [Hid Hnd]. destruct (Hids id) as [entry Hm]; [set_solver|].
  destruct (push_entry_exact id entry e cs w log Hinv Hm) as (r & c & w1 & Hr & Hc & Ht1 & E).
  destruct (push_entry_runs id entry e cs w log Hinv Hm) as (en & cs1 & w1' & E' & Hsteps).
  rewrite E in E'. injection E' as <- <- <-. set (entry1 := filled_entry _ _ _ _) in *.
  set (cs1 := <[entry_channel entry := _]> cs) in *.
  assert (Hother : forall id' en', id' ∈ ids -> active_ e !! id' = Some en' ->
    entry_channel en' <> entry_channel entry /\ <[id := entry1]> (active_ e) !! id' = Some en').
  { intros id' en' Hid' Hm'. assert (id' <> id) by (by intros ->). split; [|by rewrite lookup_insert_ne].
    intros Heq. pose proof (ei_channels _ _ _ _ _ _ Hinv id' id en' entry Hm' Hm Heq). congruence. }
  destruct (IH (set_active (<[id := entry1]> (active_ e)) e) cs1 w1 Hnd)
    as (m' & cs' & w' & E2 & Ht2 & Hin & Hkeep & Hout).
  { intros id' Hid'. simpl. rewrite lookup_insert_is_Some'. right. apply Hids. set_solver. }
  { by eapply steps_good. }
  simpl in Hin, Hkeep, Hout. exists m', cs', w'. cbn [push_all]. rewrite Hm.
  cbn [or_undef mbind outcome_bind]. rewrite E. split; [exact E2|]. split; [lia|]. split; [|split].
  - intros id' [->|Hid']%elem_of_cons en' Hm'.
    + assert (en' = entry) as -> by congruence. exists r, c, w. split; [done|]. split; [done|].
      split; [split; lia|]. split; [rewrite Hkeep by done; apply lookup_insert_eq|].
      rewrite Hout; [apply lookup_insert_eq|]. intros id2 en2 Hin2 Hm2.
      rewrite lookup_insert_ne in Hm2 by (by intros ->). by destruct (Hother id2 en2 Hin2 Hm2).
    + destruct (Hother id' en' Hid' Hm') as [Hne Hm''].
      destruct (Hin id' Hid' en' Hm'') as (r' & c' & w2 & Hr' & Hc' & [? ?] & Hrest).
      exists r', c', w2. split; [done|]. unfold cs1 in Hc'. rewrite lookup_insert_ne in Hc' by done.
      split; [done|]. split; [split; lia|done].
  - intros id' Hid'. rewrite Hkeep by set_solver. apply lookup_insert_ne. set_solver.
  - intros q Hq. rewrite Hout.
    + apply lookup_insert_ne. apply (Hq id); [set_solver|done].
    + intros id2 en2 Hin2 Hm2. rewrite lookup_insert_ne in Hm2 by (by intros ->).
      apply (Hq id2); [set_solver|done].
Qed.

Lemma push_tokens_spec order e cs w log :
  iteration_order order -> sys_inv (mkSystem e cs w log) ->
  exists m' cs' w', push_tokens order e cs w = Ok (set_active m' e, cs', w') /\ time w <= time w' /\
    (forall id, pushed_exactly (scheduler_ e) (active_ e) m' cs cs' w w' id) /\
    (forall id, active_ e !! id = None -> m' !! id = None) /\
    forall q, (forall id entry, active_ e !! id = Some entry -> entry_channel entry <> q) ->
      cs' !! q = cs !! q.
Proof.
  intros Horder Hinv. destruct (Horder (active_ e)) as [Hnd Hkeys].
  destruct (push_all_exact (order (active_ e)) e cs w log Hnd (fun id => proj1 (Hkeys id)) Hinv)
    as (m' & cs' & w' & E & Ht & Hin & Hkeep & Hout).
  exists m', cs', w'. split; [done|]. split; [done|]. split; [|split].
  - intros id entry Hm. apply Hin; [|done]. apply Hkeys. by eexists.
  - intros id Hm. rewrite Hkeep; [done|]. rewrite Hkeys, Hm. by intros [].
  - intros q Hq. apply Hout. eauto.
Qed.

(** C14. [push_tokens] is exact.  From every reachable state it returns; every
    entry gets, in order and from the first token it has not seen, exactly as
    many tokens as are left or as its channel has room for, whichever is less;
    the backpressure period starts at the steady clock when a token is refused,
    goes on while none gets through and ends when all have; whatever the
    iteration order, no entry appears or goes and no other channel is touched. *)
Theorem push_tokens_exact order e cs w log :
  engine_reachable (mkSystem e cs w log) -> iteration_order order ->
  exists m' cs' w', push_tokens order e cs w = Ok (set_active m' e, cs', w') /\
    (forall id, pushed_exactly (scheduler_ e) (active_ e) m' cs cs' w w' id) /\
    (forall id, active_ e !! id = None -> m' !! id = None) /\
    forall q, (forall id entry, active_ e !! id = Some entry -> entry_channel entry <> q) ->
      cs' !! q = cs !! q.
Proof.
  intros Hinv%reachable_inv Horder.
  destruct (push_tokens_spec order e cs w log Horder Hinv) as (m' & cs' & w' & E & _ & H).
  by exists m', cs', w'.
Qed.

End Push.

(** ** A concrete push

    The second token of a consumer that reads nothing, whose channel holds one
    event: it is refused and the backpressure period starts. *)

#[local] Existing Instance demo_steady.
#[local] Existing Instance demo_steady_laws.

Definition slow_after_tick : FifoScheduler * MockWorld :=
  Eval vm_compute in result (new_scheduler, slow1.2)
    ('(_, s, w) ← tick (scheduler_ slow1.1.1) slow1.2; Ok (s, w)).
Definition slow_ticked : Engine := set_scheduler slow_after_tick.1 slow1.1.1.

Lemma slow_ticked_reachable :
  engine_reachable (mkSystem slow_ticked slow1.1.2 slow_after_tick.2 ∅).
Proof.
  eapply (reachable_step _ _ slow_reachable1), es_tick; [|vm_compute; reflexivity].
  apply mock_tick_fits; [apply mock_wfb_wf; reflexivity|by vm_compute|by vm_compute].
Qed.

Definition slow_entry : ActiveEntry := mkActiveEntry 0 0 1 None.
Definition slow_channel : TokenChannel := mkChannel [mkTokenEvent 1 kNone] false 1.

Lemma push_tokens_exact_witness :
  exists m' cs' w' now, push_tokens demo_order slow_ticked slow1.1.2 slow_after_tick.2 =
      Ok (set_active m' slow_ticked, cs', w') /\
    m' !! "a" = Some (mkActiveEntry 0 0 1 (Some now)) /\ cs' !! 0%nat = Some slow_channel.
Proof.
  destruct (push_tokens_exact demo_order slow_ticked slow1.1.2 slow_after_tick.2 ∅
    slow_ticked_reachable demo_iteration_order) as (m' & cs' & w' & E & Hin & _).
  destruct (Hin "a" slow_entry eq_refl) as (r & c & w1 & Hr & Hc & _ & Hm & Hch).
  exists m', cs', w', (steady_now w1).1. split; [exact E|].
  vm_compute in Hr. injection Hr as <-. vm_compute in Hc. injection Hc as <-. exact (conj Hm Hch).
Defined.
