(* ===== verification/EngineLiveness.v ===== *)
(** * Every submission is eventually served

    As long as the consumers leave room in their channels, the engine loop
    serves everything it was given: [turns_lead_to] says that whatever the
    consumers and the clock do between turns, every turn of [run] returns and
    after at most [n] of them the goal is reached.  The measure is the number of
    tokens still owed ([work] of the scheduler's specification), which every
    turn decreases. *)

From S2P Require Import Prelude Clock RequestState RequestLifecycle Request Backend MockBackend MockProperties FifoScheduler SchedulerInvariant SchedulerCorrect SchedulerSpec TokenChannel Engine EngineInvariant EngineCorrect EngineProperties.

(** The request and the channel of every entry. *)
Definition targets (m : gmap RequestId ActiveEntry) : gmap RequestId (RequestPtr * ChannelPtr) :=
  (fun entry => (entry_request entry, entry_channel entry)) <$> m.

Lemma lookup_targets m id p q :
  targets m !! id = Some (p, q) <->
  exists entry, m !! id = Some entry /\ entry_request entry = p /\ entry_channel entry = q.
Proof.
  unfold targets. rewrite lookup_fmap_Some. split; intros (entry & ? & ?); exists entry; naive_solver.
Qed.

(** Nothing is waiting for the engine thread. *)
Definition undisturbed (e : Engine) : Prop :=
  running_ e = true /\ pending_submissions_ e = [] /\ pending_cancels_ e = [].

(** The channel of the entry has room for all the tokens its request can still
    produce. *)
Definition roomy_entry (s : FifoScheduler) (cs : ChannelStore) (entry : ActiveEntry) : Prop :=
  backpressure_since entry = None /\
  exists r c, requests_ s !! entry_request entry = Some r /\
    cs !! entry_channel entry = Some c /\
    max_output_tokens_ r - last_seen_tokens entry <= capacity_ c - size_of (buffer_ c).

Definition roomy (e : Engine) (cs : ChannelStore) : Prop :=
  forall id entry, active_ e !! id = Some entry -> roomy_entry (scheduler_ e) cs entry.

(** The entry has streamed everything its request produced. *)
Definition caught_up (s : FifoScheduler) (entry : ActiveEntry) : Prop :=
  forall r, requests_ s !! entry_request entry = Some r ->
    last_seen_tokens entry = output_tokens_emitted_ r.

(** What [push_tokens] makes of an entry and of its channel when there is room. *)
Definition pushed_entry (s : FifoScheduler) (entry : ActiveEntry) : ActiveEntry :=
  match requests_ s !! entry_request entry with
  | Some r => mkActiveEntry (entry_request entry) (entry_channel entry) (output_tokens_emitted_ r) None
  | None => entry
  end.

Definition pushed_channel (s : FifoScheduler) (entry : ActiveEntry) (c : TokenChannel) : TokenChannel :=
  match requests_ s !! entry_request entry with
  | Some r =>
      mkChannel (buffer_ c ++ events r (Z.to_nat (last_seen_tokens entry))
                   (Z.to_nat (output_tokens_emitted_ r - last_seen_tokens entry)))
        (closed_ c) (capacity_ c)
  | None => c
  end.

Lemma pushed_entry_target s entry :
  entry_request (pushed_entry s entry) = entry_request entry /\
  entry_channel (pushed_entry s entry) = entry_channel entry.
Proof. unfold pushed_entry. by destruct (requests_ s !! _). Qed.

Lemma pushed_entry_caught_up s entry : caught_up s (pushed_entry s entry).
Proof.
  intros r. rewrite (proj1 (pushed_entry_target s entry)). intros Hr. unfold pushed_entry.
  by rewrite Hr.
Qed.

Lemma targets_pushed s m : targets (pushed_entry s <$> m) = targets m.
Proof.
  unfold targets. rewrite <- map_fmap_compose. apply map_fmap_ext. intros id entry _. simpl.
  by destruct (pushed_entry_target s entry) as [-> ->].
Qed.

(** Only requests the scheduler works on have an entry. *)
Definition settled (e : Engine) : Prop :=
  forall id entry, active_ e !! id = Some entry -> active (scheduler_ e) (entry_request entry).

Section Liveness.
Context {W : Type} `{!Clock W, !ClockLaws W, !InferenceBackend W, !BackendContract W,
  !SteadyClock W, !SteadyLaws W}.
Context (order : gmap RequestId ActiveEntry -> list RequestId) (Horder : iteration_order order).
Implicit Types (e : Engine) (cs : ChannelStore) (w : W) (log : DeliveryLog) (x y z : System W).

(** ** One entry pushes everything *)

Lemma push_entry_roomy e cs w log id entry :
  sys_inv (mkSystem e cs w log) -> active_ e !! id = Some entry ->
  roomy_entry (scheduler_ e) cs entry ->
  exists c, cs !! entry_channel entry = Some c /\
    push_entry entry (scheduler_ e) cs w = Ok (pushed_entry (scheduler_ e) entry,
      <[entry_channel entry := pushed_channel (scheduler_ e) entry c]> cs, w) /\
    roomy_entry (scheduler_ e) (<[entry_channel entry := pushed_channel (scheduler_ e) entry c]> cs)
      (pushed_entry (scheduler_ e) entry).
Proof.
  intros Hinv Hm (Hbp & r & c & Hr & Hc & Hroom).
  destruct (ei_entries _ _ _ _ _ _ Hinv _ _ Hm) as (r0 & c0 & Hr0 & _ & Hc0 & Hop & [Hn _]).
  simpl in *. assert (r0 = r /\ c0 = c) as [-> ->] by (split; congruence).
  pose proof (inv_wf _ _ _ (ei_sched _ _ _ _ _ _ Hinv) _ _ Hr) as Hwf.
  pose proof (req_output _ _ Hwf) as Ho. pose proof (req_budget _ _ Hwf) as Hb.
  pose proof (req_max _ _ Hwf) as Hmax. unfold size_of in Ho, Hn.
  unfold pushed_entry, pushed_channel, push_entry, deref. rewrite Hr. cbn [or_undef mbind outcome_bind].
  set (i := Z.to_nat (last_seen_tokens entry)).
  set (n := Z.to_nat (output_tokens_emitted_ r - last_seen_tokens entry)).
  destruct (push_loop_ok r n i entry cs w c) as
    (k & entry' & w' & E & Hk & Hreq & Hch & Hls & Hstop & Hnone & Hw); [done|lia|lia|unfold size_of; lia|].
  assert (Hlen : size_of (events r i k) = Z.of_nat k).
  { unfold size_of. rewrite <- (length_fmap event_token_id), events_tokens, length_take, length_drop. lia. }
  assert (k = n) as ->.
  { destruct (Nat.lt_trichotomy k n) as [Hlt|[|]]; [exfalso|done|lia].
    destruct (Hstop Hlt) as [_ [?|Hfull]]; [congruence|]. rewrite size_of_app in Hfull. lia. }
  destruct Hw as [[_ ->]|[? _]]; [|lia]. exists c. split; [done|].
  replace (mkActiveEntry _ _ _ _) with entry'; [split|].
  - replace (last_seen_tokens entry) with (Z.of_nat i) by lia. exact E.
  - split; [auto|]. do 2 eexists. rewrite Hreq, Hch, lookup_insert_eq.
    split; [done|]. split; [done|]. simpl. rewrite size_of_app, Hlen. lia.
  - specialize (Hnone eq_refl Hbp). destruct entry'. simpl in *. f_equal; [done|done|lia|done].
Qed.

(** Writing one entry's channel back leaves the others alone. *)
Lemma roomy_insert e cs w log id entry entry' c' :
  sys_inv (mkSystem e cs w log) -> roomy e cs -> active_ e !! id = Some entry ->
  roomy_entry (scheduler_ e) (<[entry_channel entry := c']> cs) entry' ->
  roomy (set_active (<[id := entry']> (active_ e)) e) (<[entry_channel entry := c']> cs).
Proof.
  intros Hinv Hroomy Hm Hroom id1 en Hm1. simpl in *.
  apply lookup_insert_Some in Hm1 as [[<- <-]|[Hne Hm1]]; [done|].
  destruct (Hroomy _ _ Hm1) as (Hbp & r & c & Hr & Hc & Hle). split; [done|].
  exists r, c. split; [done|]. split; [|done]. rewrite lookup_insert_ne; [done|].
  intros Heq. apply Hne. by eapply (ei_channels _ _ _ _ _ _ Hinv).
Qed.

(** The loop over the entries, in any order. *)
Lemma push_all_roomy ids e cs w log :
  NoDup ids -> (forall id, id ∈ ids -> is_Some (active_ e !! id)) ->
  sys_inv (mkSystem e cs w log) -> roomy e cs ->
  exists m' cs', push_all ids e cs w = Ok (set_active m' e, cs', w) /\ roomy (set_active m' e) cs' /\
    (forall id, m' !! id = if decide (id ∈ ids) then pushed_entry (scheduler_ e) <$> active_ e !! id
                          else active_ e !! id) /\
    (forall id entry c, id ∈ ids -> active_ e !! id = Some entry -> cs !! entry_channel entry = Some c ->
       cs' !! entry_channel entry = Some (pushed_channel (scheduler_ e) entry c)) /\
    forall q, (forall id entry, id ∈ ids -> active_ e !! id = Some entry -> entry_channel entry <> q) ->
      cs' !! q = cs !! q.
Proof.
  revert e cs. induction ids as [|id ids IH]; intros e cs Hnd Hids Hinv Hroomy.
  { exists (active_ e), cs. rewrite set_active_same. split; [done|]. split; [done|].
    split; [intros id; by rewrite decide_False by set_solver|]. split; [set_solver|done]. }
  apply NoDup_cons in Hnd as [Hid Hnd].
  destruct (Hids id) as [entry Hm]; [set_solver|].
  destruct (push_entry_roomy _ _ _ _ _ _ Hinv Hm (Hroomy _ _ Hm)) as (c1 & Hc1 & E & Hroom).
  set (entry1 := pushed_entry (scheduler_ e) entry) in *.
  set (cs1 := <[entry_channel entry := _]> cs) in *.
  destruct (push_entry_runs id entry e cs w log Hinv Hm) as (en & cs2 & w1 & E1 & Hsteps).
  rewrite E in E1. injection E1 as <- <- <-.
  destruct (IH (set_active (<[id := entry1]> (active_ e)) e) cs1 Hnd)
    as (m' & cs' & E2 & Hroomy' & Hentries & Hin & Hout); clear IH.
  { intros id' Hid'. simpl. rewrite lookup_insert_is_Some'. right. apply Hids. set_solver. }
  { by eapply steps_good. }
  { by eapply roomy_insert. }
  exists m', cs'. cbn [push_all]. rewrite Hm. cbn [or_undef mbind outcome_bind]. rewrite E.
  split; [exact E2|]. split; [exact Hroomy'|]. simpl in *.
  assert (Hother : forall id' en', id' ∈ ids -> active_ e !! id' = Some en' ->
    entry_channel en' <> entry_channel entry /\ <[id := entry1]> (active_ e) !! id' = Some en').
  { intros id' en' Hid' Hm'. assert (id' <> id) by (by intros ->). split; [|by rewrite lookup_insert_ne].
    intros Heq. pose proof (ei_channels _ _ _ _ _ _ Hinv id' id en' entry Hm' Hm Heq). congruence. }
  split; [|split].
  - intros id'. rewrite Hentries. destruct (decide (id' = id)) as [->|Hne].
    + by rewrite decide_False, decide_True, lookup_insert_eq, Hm by set_solver.
    + rewrite lookup_insert_ne by done. destruct (decide (id' ∈ ids)).
      * by rewrite decide_True by set_solver.
      * by rewrite decide_False by set_solver.
  - intros id' en' c' [->|Hin']%elem_of_cons Hm' Hc'.
    + assert (en' = entry /\ c' = c1) as [-> ->] by (split; congruence).
      rewrite Hout; [apply lookup_insert_eq|]. intros id2 en2 Hin2 Hm2 Heq.
      rewrite lookup_insert_ne in Hm2 by (by intros ->). by destruct (Hother id2 en2 Hin2 Hm2).
    + destruct (Hother id' en' Hin' Hm') as [Hne Hm'']. apply (Hin id' en' c' Hin' Hm'').
      unfold cs1. by rewrite lookup_insert_ne.
  - intros q Hq. rewrite Hout.
    + apply lookup_insert_ne. apply (Hq id); [set_solver|done].
    + intros id2 en2 Hin2 Hm2. rewrite lookup_insert_ne in Hm2 by (by intros ->).
      apply (Hq id2); [set_solver|done].
Qed.

(** [push_tokens] brings every entry up to date. *)
Lemma push_tokens_roomy e cs w log :
  sys_inv (mkSystem e cs w log) -> roomy e cs ->
  let m' := pushed_entry (scheduler_ e) <$> active_ e in
  exists cs', push_tokens order e cs w = Ok (set_active m' e, cs', w) /\ roomy (set_active m' e) cs' /\
    (forall id entry c, active_ e !! id = Some entry -> cs !! entry_channel entry = Some c ->
       cs' !! entry_channel entry = Some (pushed_channel (scheduler_ e) entry c)) /\
    forall q, (forall id entry, active_ e !! id = Some entry -> entry_channel entry <> q) ->
      cs' !! q = cs !! q.
Proof.
  intros Hinv Hroomy m'. destruct (Horder (active_ e)) as [Hnd Hkeys].
  assert (Hall : forall id entry, active_ e !! id = Some entry -> id ∈ order (active_ e))
    by (intros; apply Hkeys; by eexists).
  destruct (push_all_roomy (order (active_ e)) e cs w log) as (m & cs' & E & Hr & Hm & Hin & Hout);
    [done|by apply Hkeys|done|done|].
  assert (m = m') as ->.
  { apply map_eq. intros id. rewrite Hm. unfold m'. rewrite lookup_fmap. case_decide as Hid; [done|].
    destruct (active_ e !! id) eqn:E1; [|done]. destruct Hid. by eapply Hall. }
  exists cs'. split_and!; try done; eauto.
Qed.

(** ** One quiet turn *)

(** The entry [id] of [e] is still there, or its request has been served. *)
Definition kept_or_served e x : Prop :=
  forall id p q, targets (active_ e) !! id = Some (p, q) ->
    targets (active_ (sys_engine x)) !! id = Some (p, q) \/ served p q x.

(** The budget of a request never changes. *)
Lemma roomy_tick e cs w rep s' w' :
  roomy e cs -> tick_post (scheduler_ e) w rep s' w' -> roomy (set_scheduler s' e) cs.
Proof.
  intros Hroomy Hpost id entry Hm. destruct (Hroomy _ _ Hm) as (Hbp & r & c & Hr & Hc & Hle).
  split; [done|]. destruct (proj2 (post_evolves _ _ _ _ _ Hpost) _ _ Hr) as (r' & Hr' & Hact & Hin).
  exists r', c. split; [done|]. split; [done|].
  destruct (decide (active (scheduler_ e) (entry_request entry))) as [Ha|Hna];
    [|by rewrite (Hin Hna)].
  destruct (Hact Ha) as [((_ & _ & Hmax & _) & _)|(tok & ((_ & _ & Hmax & _) & _) & _)];
    by rewrite Hmax.
Qed.

(** Without backpressure nothing is stalled. *)
Lemma collect_stalled_none ids now e :
  (forall id, id ∈ ids -> exists entry, active_ e !! id = Some entry /\ backpressure_since entry = None) ->
  collect_stalled ids now e = Ok [].
Proof.
  induction ids as [|id ids IH]; intros Hids; [done|].
  destruct (Hids id) as (entry & Hm & Hbp); [set_solver|]. simpl. rewrite Hm.
  cbn [or_undef mbind outcome_bind]. rewrite Hbp. cbn [mbind outcome_bind].
  rewrite IH by set_solver. done.
Qed.

Lemma check_backpressure_roomy e cs w :
  roomy e cs -> exists w', check_backpressure order e cs w = Ok (e, cs, w').
Proof.
  intros Hroomy. unfold check_backpressure. destruct (steady_now w) as [now w'].
  exists w'. rewrite collect_stalled_none; [done|]. intros id Hid.
  destruct (order_sound order Horder _ _ Hid) as [entry Hm]. exists entry. split; [done|].
  by destruct (Hroomy _ _ Hm).
Qed.

(** [reap_terminal] after a complete push: what is left is what the scheduler
    works on, the rest is served. *)
Lemma reap_terminal_roomy e cs w log :
  sys_inv (mkSystem e cs w log) -> roomy e cs ->
  (forall id entry, active_ e !! id = Some entry -> caught_up (scheduler_ e) entry) ->
  exists m' cs', reap_terminal order e cs = Ok (set_active m' e, cs') /\
    roomy (set_active m' e) cs' /\ settled (set_active m' e) /\
    kept_or_served e (mkSystem (set_active m' e) cs' w log).
Proof.
  intros Hinv Hroomy Hup.
  destruct (reap_terminal_ok order Horder e cs w log Hinv) as (m' & cs' & E & _ & Hleft & Hserved & ids & Hids & _ & Hout).
  exists m', cs'. split; [done|].
  assert (Hfin : forall id entry, active_ e !! id = Some entry ->
    finished e id \/ ~ finished e id /\ active (scheduler_ e) (entry_request entry)).
  { intros id entry Hm. destruct (ei_entries _ _ _ _ _ _ Hinv _ _ Hm) as (r & _ & Hr & _).
    simpl in Hr. destruct (decide (active (scheduler_ e) (entry_request entry))) as [Ha|Hna]; [right|left].
    - split; [|done]. intros (en & r' & Hm' & Hr' & Ht & _). simplify_eq.
      pose proof (inv_active_not_terminal _ _ _ _ (ei_sched _ _ _ _ _ _ Hinv) Ha Hr). congruence.
    - exists entry, r. rewrite (Hup _ _ Hm r Hr). split_and!; [done|done| |lia].
      exact (inv_rest _ _ _ (ei_sched _ _ _ _ _ _ Hinv) _ r Hr Hna). }
  split; [|split].
  - intros id entry [Hm Hn]%Hleft. destruct (Hroomy _ _ Hm) as (Hbp & r & c & Hr & Hc & Hle).
    split; [done|]. exists r, c. split; [done|]. split; [|done]. rewrite Hout; [done|].
    intros id' en Hid'%Hids Hm' Heq. apply Hn.
    by rewrite (ei_channels _ _ _ _ _ _ Hinv id id' entry en Hm Hm' (eq_sym Heq)).
  - intros id entry [Hm Hn]%Hleft. by destruct (Hfin _ _ Hm) as [?|[_ ?]].
  - intros id p q (entry & Hm & <- & <-)%lookup_targets.
    destruct (Hfin _ _ Hm) as [Hf|[Hn _]]; [right; by apply (Hserved id)|left].
    apply lookup_targets. exists entry. split; [|done]. by apply Hleft.
Qed.

Lemma quiet_drains e cs w :
  undisturbed e -> drain_submissions e w = Ok (e, w) /\ drain_cancels e cs w = Ok (e, cs, w).
Proof.
  destruct e as [cf s run subs cancels m]. intros (Hr & Hs & Hc). simpl in *. by subst.
Qed.

Lemma quiet_turn n e cs w log :
  sys_inv (mkSystem e cs w log) -> undisturbed e -> roomy e cs -> tick_fits (scheduler_ e) w ->
  work (abs (scheduler_ e)) <= Z.of_nat (S n) ->
  exists e' cs' w', run_once order e cs w = Ok (e', cs', w') /\
    undisturbed e' /\ roomy e' cs' /\ settled e' /\ work (abs (scheduler_ e')) <= Z.of_nat n /\
    kept_or_served e (mkSystem e' cs' w' log).
Proof.
  intros Hinv Hquiet Hroomy Hfits Hwork. pose proof (ei_sched _ _ _ _ _ _ Hinv) as Hs.
  unfold run_once. destruct (quiet_drains e cs w Hquiet) as [-> Hd]. rewrite (proj1 Hquiet).
  cbn [negb mbind outcome_bind]. rewrite Hd. cbn [mbind outcome_bind].
  case_bool_decide as Hempty.
  { exists e, cs, w. split; [done|]. split; [done|]. split; [done|]. split; [|split; [|by left]].
    - intros id entry Hm. by rewrite Hempty in Hm.
    - assert (work (abs (scheduler_ e)) <= 0); [|lia]. eapply work_idle; [exact Hs|].
      intros p Ha. destruct (inv_active_lookup _ _ _ _ Hs Ha) as [r Hr].
      destruct (ei_active _ _ _ _ _ _ Hinv p r Ha Hr) as (entry & Hm & _).
      simpl in Hm. by rewrite Hempty in Hm. }
  destruct (tick_ok _ _ Hs Hfits) as (rep & s1 & w1 & E & Hpost). simpl in E, Hpost. rewrite E.
  cbn [mbind outcome_bind]. set (e1 := set_scheduler s1 e).
  pose proof (proj1 (step_good _ _ Hinv (es_tick rep s1 e cs w w1 log Hfits E))) as Hinv1.
  pose proof (roomy_tick _ _ _ _ _ _ Hroomy Hpost) as Hroomy1.
  destruct (push_tokens_roomy e1 cs w1 log Hinv1 Hroomy1) as (cs2 & E2 & Hroomy2 & _).
  pose proof (push_tokens_runs order Horder e1 cs w1 log Hinv1) as H2. rewrite E2 in *.
  apply runs_steps in H2. cbn [mbind outcome_bind]. set (m2 := pushed_entry _ <$> _) in *.
  pose proof (proj1 (steps_good _ _ Hinv1 H2)) as Hinv2.
  pose proof (check_backpressure_runs order Horder _ _ _ _ Hinv2) as H3.
  destruct (check_backpressure_roomy _ _ w1 Hroomy2) as [w3 E3]. rewrite E3 in *.
  apply runs_steps in H3. cbn [mbind outcome_bind]. pose proof (proj1 (steps_good _ _ Hinv2 H3)) as Hinv3.
  destruct (reap_terminal_roomy _ _ w3 log Hinv3 Hroomy2) as (m4 & cs4 & E4 & Hroomy4 & Hset & Hkept).
  { intros id entry Hm. simpl in Hm. unfold m2 in Hm.
    apply lookup_fmap_Some in Hm as (en & <- & _). apply pushed_entry_caught_up. }
  rewrite E4. cbn [mbind outcome_bind]. exists (set_active m4 (set_active m2 e1)), cs4, w3.
  split; [done|]. split; [exact Hquiet|]. split; [done|]. split; [done|].
  split; [by eapply tick_pays_one|]. intros id p q Ht. apply Hkept. simpl. unfold m2. by rewrite targets_pushed.
Qed.

(** ** Turns, with the consumers and the clock in between *)

Inductive idle_step : System W -> System W -> Prop :=
  | is_pop p c c' ev e cs w log : cs !! p = Some c -> pop c = Some (Some ev, c') ->
      idle_step (mkSystem e cs w log)
        (mkSystem e (<[p := c']> cs) w (<[p := delivered_to p log ++ [ev]]> log))
  | is_world e cs w w' log : time w <= time w' -> live w' = live w ->
      idle_step (mkSystem e cs w log) (mkSystem e cs w' log).

(** Popping only makes room. *)
Lemma roomy_entry_pop s cs entry p c c' ev :
  cs !! p = Some c -> pop c = Some (Some ev, c') -> roomy_entry s cs entry ->
  roomy_entry s (<[p := c']> cs) entry.
Proof.
  intros Hc Hpop (Hbp & r & c0 & Hr & Hc0 & Hle). split; [done|].
  destruct (decide (entry_channel entry = p)) as [Heq|Hne];
    [|exists r, c0; by rewrite lookup_insert_ne by done].
  exists r, c'. rewrite Heq, lookup_insert_eq. split; [done|]. split; [done|].
  destruct (pop_cases c) as [[E _]|[[E _]|(ev' & rest & Hb & E)]]; rewrite E in Hpop; try done.
  injection Hpop as -> <-. assert (c0 = c) by congruence. subst c0. simpl.
  rewrite Hb, size_of_cons in Hle. lia.
Qed.

Lemma idle_steps x y :
  rtc idle_step x y -> rtc engine_step x y /\ sys_engine y = sys_engine x /\
    (roomy (sys_engine x) (sys_channels x) -> roomy (sys_engine y) (sys_channels y)).
Proof.
  induction 1 as [x|x y z Hxy _ (IH1 & IH2 & IH3)]; [split; [apply rtc_refl|done]|].
  assert (Hstep : engine_step x y) by (destruct Hxy; [by eapply es_pop|by apply es_world]).
  assert (He : sys_engine y = sys_engine x) by (by destruct Hxy).
  split; [by eapply rtc_l|]. split; [by rewrite IH2|]. intros Hroomy. apply IH3. rewrite He.
  destruct Hxy as [p c c' ev e cs w log Hc Hpop|]; [|done]. simpl in *.
  intros id entry Hm. eapply roomy_entry_pop; eauto.
Qed.

(** The backend accepts the prefills of the turn that starts here. *)
Definition turn_fits e cs w : Prop :=
  forall e1 w1 e2 cs2 w2, drain_submissions e w = Ok (e1, w1) ->
    drain_cancels e1 cs w1 = Ok (e2, cs2, w2) -> tick_fits (scheduler_ e2) w2.

(** [n] turns of [run] from [x] all return and lead to [P], whatever the
    consumers and the clock do after each of them. *)
Fixpoint turns_lead_to (n : nat) (P : System W -> Prop) x : Prop :=
  match n with
  | O => P x
  | S n =>
      turn_fits (sys_engine x) (sys_channels x) (sys_world x) ->
      exists e' cs' w',
        run_once order (sys_engine x) (sys_channels x) (sys_world x) = Ok (e', cs', w') /\
        forall z, rtc idle_step (mkSystem e' cs' w' (sys_log x)) z -> turns_lead_to n P z
  end.

Lemma turns_lead_to_mono n (P Q : System W -> Prop) x :
  (forall y, P y -> Q y) -> turns_lead_to n P x -> turns_lead_to n Q x.
Proof.
  intros HPQ. revert x. induction n as [|n IH]; simpl; [by auto|]. intros x Hx Hf.
  destruct (Hx Hf) as (e' & cs' & w' & E & Hall). eauto 8.
Qed.

(** Everything [e] was working on has been served. *)
Definition all_served e y : Prop :=
  active_ (sys_engine y) = ∅ /\
  forall id p q, targets (active_ e) !! id = Some (p, q) -> served p q y.

(** One quiet turn, then the consumers and the clock. *)
Lemma quiet_turn_idle n x :
  sys_inv x -> undisturbed (sys_engine x) -> roomy (sys_engine x) (sys_channels x) ->
  work (abs (scheduler_ (sys_engine x))) <= Z.of_nat (S n) ->
  turn_fits (sys_engine x) (sys_channels x) (sys_world x) ->
  exists e' cs' w',
    run_once order (sys_engine x) (sys_channels x) (sys_world x) = Ok (e', cs', w') /\
    forall z, rtc idle_step (mkSystem e' cs' w' (sys_log x)) z ->
      rtc engine_step x z /\ sys_inv z /\ undisturbed (sys_engine z) /\
      roomy (sys_engine z) (sys_channels z) /\ settled (sys_engine z) /\
      work (abs (scheduler_ (sys_engine z))) <= Z.of_nat n /\ kept_or_served (sys_engine x) z.
Proof.
  destruct x as [e cs w log]. simpl. intros Hinv Hquiet Hroomy Hwork Hfits.
  destruct (quiet_drains e cs w Hquiet) as [Hd1 Hd2].
  destruct (quiet_turn n e cs w log Hinv Hquiet Hroomy (Hfits _ _ _ _ _ Hd1 Hd2) Hwork)
    as (e' & cs' & w' & E & Hquiet' & Hroomy' & Hset & Hwork' & Hkept).
  pose proof (run_once_runs order Horder e cs w log Hinv Hfits) as Hsteps. rewrite E in *.
  apply runs_steps in Hsteps. exists e', cs', w'. split; [done|]. intros z Hz.
  destruct (idle_steps _ _ Hz) as (Hsteps' & He & Hr). simpl in He, Hr. rewrite He in *.
  pose proof (proj1 (steps_good _ _ Hinv Hsteps)) as Hinv1.
  split; [by etrans|]. split; [by eapply steps_good|]. do 4 (split; [auto|]).
  intros id p q Ht. rewrite He. destruct (Hkept id p q Ht) as [?|?]; [by left|right].
  by eapply served_steps.
Qed.

Lemma quiet_serves n x :
  sys_inv x -> undisturbed (sys_engine x) -> roomy (sys_engine x) (sys_channels x) ->
  settled (sys_engine x) -> work (abs (scheduler_ (sys_engine x))) <= Z.of_nat n ->
  turns_lead_to n (fun y => rtc engine_step x y /\ all_served (sys_engine x) y) x.
Proof.
  revert x. induction n as [|n IH]; intros x Hinv Hquiet Hroomy Hset Hwork.
  - assert (Hempty : active_ (sys_engine x) = ∅).
    { apply map_eq. intros id. rewrite lookup_empty. destruct (_ !! id) as [entry|] eqn:Hm; [|done].
      exfalso. eapply work_done; [apply Hinv|exact Hwork|by eapply Hset]. }
    split; [apply rtc_refl|]. split; [done|]. intros id p q Ht. unfold targets in Ht.
    by rewrite Hempty in Ht.
  - intros Hfits. destruct (quiet_turn_idle n x Hinv Hquiet Hroomy Hwork Hfits) as (e' & cs' & w' & E & Hz).
    exists e', cs', w'. split; [done|]. intros z Hidle.
    destruct (Hz z Hidle) as (Hsteps & Hinv' & Hquiet' & Hroomy' & Hset' & Hwork' & Hkept).
    eapply turns_lead_to_mono; [|by apply IH]. intros y [Hzy [Hempty Hall]].
    split; [by etrans|]. split; [done|]. intros id p q Ht.
    destruct (Hkept id p q Ht) as [Hin|Hs]; [by eapply Hall|by eapply served_steps].
Qed.

(** ** Admitting the pending submissions *)

(** The channel of the submission can hold its whole budget. *)
Definition sub_roomy cs (sub : Submission) : Prop :=
  exists c, cs !! sub_channel sub = Some c /\ sub_max_tokens sub <= capacity_ c.

(** What one admitted submission adds to the work and to the entries. *)
Lemma admit_roomy sub s s' m r' ref e cs log :
  e = set_active m (set_scheduler s e) -> roomy e cs ->
  requests_ s' = requests_ s ++ [r'] -> requests_ s' !! ref = Some r' ->
  max_output_tokens_ r' = sub_max_tokens sub -> req_state r' = kWaitingPrefill ->
  pending_ok m cs log sub -> sub_roomy cs sub ->
  roomy (set_active (<[sub_id sub := mkActiveEntry ref (sub_channel sub) 0 None]> m)
           (set_scheduler s' e)) cs /\
  work (abs s') = work (abs s) + sub_max_tokens sub.
Proof.
  intros He Hroomy Hreqs Href Hmax Hst (_ & _ & (c0 & Hc0 & _ & Hst0) & _) (c & Hc & Hcap). split.
  - intros id entry Hm. simpl in Hm.
    apply lookup_insert_Some in Hm as [[<- <-]|[_ Hm]].
    + split; [done|]. exists r', c. split; [done|]. split; [done|]. simpl.
      assert (c0 = c) as -> by congruence. apply app_eq_nil in Hst0 as [_ ->].
      rewrite Hmax. unfold size_of. simpl. lia.
    + rewrite He in Hroomy. destruct (Hroomy id entry Hm) as (Hbp & r & c1 & Hr & Hrest).
      split; [done|]. exists r, c1. split; [|done]. simpl. rewrite Hreqs. by apply lookup_app_l_Some.
  - unfold abs. rewrite Hreqs, fmap_app. unfold work. rewrite fmap_app, sum_Z_app. simpl.
    unfold ticket_work, abs_request, emitted_of, finished_ticket, abs_status. simpl.
    rewrite Hst, Hmax. lia.
Qed.

Lemma submit_batch_roomy batch e cs w log e1 w1 :
  pending_submissions_ e = [] ->
  sys_inv (mkSystem (set_pending batch (pending_cancels_ e) e) cs w log) ->
  roomy e cs -> Forall (sub_roomy cs) batch -> submit_batch batch e w = Ok (e1, w1) ->
  running_ e1 = running_ e /\ pending_submissions_ e1 = [] /\
  pending_cancels_ e1 = pending_cancels_ e /\ roomy e1 cs /\
  work (abs (scheduler_ e1)) = work (abs (scheduler_ e)) + sum_Z (sub_max_tokens <$> batch) /\
  targets (active_ e) ⊆ targets (active_ e1) /\
  Forall (fun sub => exists p, targets (active_ e1) !! sub_id sub = Some (p, sub_channel sub)) batch.
Proof.
  revert e w. induction batch as [|sub batch IH]; intros e w Hnil Hinv Hroomy Hsubs E.
  { injection E as <- <-. split_and!; try done. simpl. lia. }
  apply Forall_cons in Hsubs as [Hsub Hsubs]. cbn [submit_batch] in E.
  apply bind_Ok in E as ([r wr] & Hnew & E).
  destruct (inv_admit _ _ _ _ _ _ _ _ _ Hinv Hnew)
    as (ref & s' & w2 & Esub & _ & Hinv' & Hfresh & r' & Hreqs & Href & Hmax & Hst).
  simpl in Esub, Hfresh, Hreqs. rewrite Esub in E. cbn [mbind outcome_bind] in E.
  change (active_ (set_scheduler s' e)) with (active_ e) in E.
  rewrite (emplace_fresh _ _ _ Hfresh) in E. simpl in Hinv'. rewrite (emplace_fresh _ _ _ Hfresh) in Hinv'.
  pose proof (ei_pending _ _ _ _ _ _ Hinv) as Hp. apply Forall_cons in Hp as [Hp _].
  set (entry0 := mkActiveEntry _ _ _ _) in *.
  destruct (admit_roomy sub (scheduler_ e) s' (active_ e) r' ref e cs log) as [Hroomy1 Hwork1];
    try done; [by destruct e|].
  destruct (IH (set_active (<[sub_id sub := entry0]> (active_ e)) (set_scheduler s' e)) w2
    Hnil Hinv' Hroomy1 Hsubs E) as (H1 & H2 & H3 & H4 & Hw & Hsub1 & Hall).
  simpl in Hsub1. split_and!; try done; [rewrite fmap_cons; simpl in *; lia| |].
  - etrans; [|exact Hsub1]. unfold targets. rewrite fmap_insert. apply insert_subseteq.
    by rewrite lookup_fmap, Hfresh.
  - constructor; [|done]. exists ref. eapply lookup_weaken; [|exact Hsub1].
    unfold targets. by rewrite fmap_insert, lookup_insert_eq.
Qed.

(** Steps keep the requests' names. *)
Lemma steps_id x y p r : sys_inv x -> rtc engine_step x y ->
  requests_ (scheduler_ (sys_engine x)) !! p = Some r ->
  exists r', requests_ (scheduler_ (sys_engine y)) !! p = Some r' /\ id_ r' = id_ r.
Proof.
  intros Hinv Hxy. revert r. induction Hxy as [x|x y z Hxy Hyz IH]; intros r Hr; [by exists r|].
  destruct (step_good _ _ Hinv Hxy) as (Hinv' & Hg & _).
  destruct (Hg p r Hr) as (r1 & Hr1 & Hgr). destruct (IH Hinv' r1 Hr1) as (r2 & Hr2 & Hid).
  exists r2. split; [done|]. by rewrite Hid, (grows_id _ _ Hgr).
Qed.

(** The request [id] has ended, and its channel [q] was closed after its whole
    output: what the consumer has received or can still pop. *)
Definition delivered_whole (id : RequestId) (q : ChannelPtr) y : Prop :=
  exists p r c, requests_ (scheduler_ (sys_engine y)) !! p = Some r /\ id_ r = id /\
    is_terminal (req_state r) = true /\ sys_channels y !! q = Some c /\ closed_ c = true /\
    event_token_id <$> stream q c (sys_log y) = output_token_ids_ r.

Lemma served_delivered x y id p q :
  sys_inv x -> rtc engine_step x y -> targets (active_ (sys_engine x)) !! id = Some (p, q) ->
  served p q y -> delivered_whole id q y.
Proof.
  intros Hinv Hxy (entry & Hm & <- & <-)%lookup_targets (r & c & Hr & Ht & Hc & Hcl & Hst).
  destruct (ei_entries _ _ _ _ _ _ Hinv _ _ Hm) as (r0 & _ & Hr0 & Hid & _).
  destruct (steps_id x y _ r0 Hinv Hxy Hr0) as (r1 & Hr1 & Hid1).
  assert (r1 = r) as -> by congruence. exists (entry_request entry), r, c.
  rewrite (stream_ok_tokens _ _ _ Hst). unfold size_of. rewrite Nat2Z.id, firstn_all.
  split_and!; try done. congruence.
Qed.

(** A turn that starts with pending submissions is the turn that starts with
    them admitted. *)
Lemma run_once_admitted e cs w e1 w1 :
  running_ e = true -> drain_submissions e w = Ok (e1, w1) ->
  running_ e1 = true -> pending_submissions_ e1 = [] ->
  run_once order e cs w = run_once order e1 cs w1 /\ (turn_fits e cs w -> turn_fits e1 cs w1).
Proof.
  intros Hrun E Hrun1 Hnil.
  assert (E1 : drain_submissions e1 w1 = Ok (e1, w1)).
  { unfold drain_submissions. rewrite Hnil. simpl. rewrite <- Hnil. by destruct e1. }
  split.
  - unfold run_once. by rewrite Hrun, E, E1, Hrun1.
  - intros Hf e2 w2 e3 cs3 w3 E2 E3. rewrite E1 in E2. injection E2 as <- <-. by eapply Hf.
Qed.

(** C9. Liveness of the engine.  If the channels have room for the tokens still
    to come, then, whatever the consumers pop and however the clock moves
    between turns, every turn of [run] returns, and after one turn more than
    there are tokens owed (to the requests at work and to the pending
    submissions) no entry is left and every request, old or just submitted, has
    ended and its consumer gets its whole output and then the end of the
    stream. *)
Theorem engine_serves_submissions n e cs w log e1 w1 :
  engine_reachable (mkSystem e cs w log) ->
  running_ e = true -> pending_cancels_ e = [] -> roomy e cs ->
  Forall (sub_roomy cs) (pending_submissions_ e) ->
  drain_submissions e w = Ok (e1, w1) ->
  work (abs (scheduler_ e)) + sum_Z (sub_max_tokens <$> pending_submissions_ e) <= Z.of_nat n ->
  turns_lead_to (S n) (fun y => active_ (sys_engine y) = ∅ /\
    (forall id entry, active_ e !! id = Some entry -> delivered_whole id (entry_channel entry) y) /\
    Forall (fun sub => delivered_whole (sub_id sub) (sub_channel sub) y) (pending_submissions_ e))
    (mkSystem e cs w log).
Proof.
  intros Hinv%reachable_inv Hrun Hcancels Hroomy Hsubs E Hwork.
  destruct (submit_batch_roomy (pending_submissions_ e) (set_pending [] (pending_cancels_ e) e)
    cs w log e1 w1 eq_refl) as (H1 & H2 & H3 & Hroomy1 & Hwork1 & Hsub & Hall); try done.
  simpl in *. pose proof (drain_submissions_runs e cs w log Hinv) as Hsteps1. rewrite E in Hsteps1.
  apply runs_steps in Hsteps1. pose proof (proj1 (steps_good _ _ Hinv Hsteps1)) as Hinv1.
  assert (Hquiet : undisturbed e1) by (split_and!; congruence).
  destruct (run_once_admitted e cs w e1 w1 Hrun E (proj1 Hquiet) H2) as [Hturn Hfits1]. intros Hfits. simpl in *.
  destruct (quiet_turn_idle n (mkSystem e1 cs w1 log) Hinv1 Hquiet Hroomy1) as (e' & cs' & w' & E' & Hz);
    [simpl; lia|by apply Hfits1|].
  exists e', cs', w'. split; [by rewrite Hturn|]. intros z Hidle.
  destruct (Hz z Hidle) as (Hsteps' & Hinv' & Hquiet' & Hroomy' & Hset' & Hwork' & Hkept).
  eapply turns_lead_to_mono; [|by apply quiet_serves]. intros y [Hzy [Hempty Hend]].
  assert (Hdone : forall id p q, targets (active_ e1) !! id = Some (p, q) -> delivered_whole id q y).
  { intros id p q Ht. eapply (served_delivered _ y _ p _ Hinv1); [by etrans|exact Ht|].
    destruct (Hkept id p q Ht) as [Hin|Hs]; [by eapply Hend|by eapply served_steps]. }
  split; [done|]. split.
  - intros id entry Hm. eapply (Hdone id (entry_request entry)). eapply lookup_weaken; [|exact Hsub].
    apply lookup_targets. eauto.
  - eapply Forall_impl; [exact Hall|]. intros sub [p Hp]. by eapply Hdone.
Qed.

End Liveness.

(** ** A concrete run

    The engine of the demonstration, with one pending submission of two
    tokens, serves it in two turns; the third finds nothing to do. *)

#[local] Existing Instance demo_steady.
#[local] Existing Instance demo_steady_laws.

Definition served_turn (x : Engine * ChannelStore * MockWorld) : outcome (Engine * ChannelStore * MockWorld) :=
  let '(e, cs, w) := x in run_once demo_order e cs w.

Definition served1 : Engine * ChannelStore * MockWorld := (demo_e1, demo_cs1, demo_turn_world).
Definition served2 : Engine * ChannelStore * MockWorld :=
  Eval vm_compute in result served1 (served_turn served1).

Lemma served_turn1 :
  run_once demo_order demo_engine demo_channels demo_engine_world = Ok (served1.1.1, served1.1.2, served1.2).
Proof. vm_compute. reflexivity. Qed.

Lemma served_turn2 :
  run_once demo_order served1.1.1 served1.1.2 served1.2 = Ok (served2.1.1, served2.1.2, served2.2).
Proof. vm_compute. reflexivity. Qed.

Lemma served_turn3 :
  run_once demo_order served2.1.1 served2.1.2 served2.2 = Ok (served2.1.1, served2.1.2, served2.2).
Proof. vm_compute. reflexivity. Qed.

Definition served_admitted : Engine * MockWorld :=
  Eval vm_compute in
    result (demo_engine, demo_engine_world) (drain_submissions demo_engine demo_engine_world).

Lemma served_admission :
  drain_submissions demo_engine demo_engine_world = Ok (served_admitted.1, served_admitted.2).
Proof. vm_compute. reflexivity. Qed.

(** Nothing is pending in the later turns. *)
Lemma served_fits (e : Engine) (cs : ChannelStore) (w : MockWorld) :
  undisturbed e -> tick_fits (scheduler_ e) w -> turn_fits e cs w.
Proof.
  intros Hq Hf e1 w1 e2 cs2 w2 E1. destruct (quiet_drains e cs w Hq) as [E _].
  rewrite E in E1. injection E1 as <- <-. intros E2.
  destruct (quiet_drains e cs w Hq) as [_ E']. rewrite E' in E2. by injection E2 as <- <- <-.
Qed.

Lemma served_fits1 : turn_fits served1.1.1 served1.1.2 served1.2.
Proof.
  apply served_fits; [by split_and!|].
  apply mock_tick_fits; [apply mock_wfb_wf; reflexivity|by vm_compute|by vm_compute].
Qed.

Lemma served_fits2 : turn_fits served2.1.1 served2.1.2 served2.2.
Proof.
  apply served_fits; [by split_and!|].
  apply mock_tick_fits; [apply mock_wfb_wf; reflexivity|by vm_compute|by vm_compute].
Qed.

Lemma served_work :
  work (abs (scheduler_ demo_engine)) +
    sum_Z (sub_max_tokens <$> pending_submissions_ demo_engine) <= Z.of_nat 2.
Proof. vm_compute. discriminate. Qed.

Lemma served_room : Forall (sub_roomy demo_channels) (pending_submissions_ demo_engine).
Proof. constructor; [|constructor]. exists (new_channel 4). by split; [|vm_compute]. Qed.

Lemma engine_serves_submissions_witness :
  exists y : System MockWorld, active_ (sys_engine y) = ∅ /\
    Forall (fun sub => delivered_whole (sub_id sub) (sub_channel sub) y) (pending_submissions_ demo_engine).
Proof.
  destruct (engine_serves_submissions demo_order demo_iteration_order 2
    demo_engine demo_channels demo_engine_world ∅ served_admitted.1 served_admitted.2
    demo_engine_reachable eq_refl eq_refl (fun id entry (Hm : ∅ !! id = Some entry) =>
      match lookup_empty_Some id entry Hm with end) served_room served_admission served_work
    demo_engine_fits) as (e & cs & w & E & H1).
  apply (eq_trans (eq_sym served_turn1)) in E. injection E as <- <- <-.
  destruct (H1 _ (rtc_refl _ _) served_fits1) as (e & cs & w & E & H2).
  apply (eq_trans (eq_sym served_turn2)) in E. injection E as <- <- <-.
  destruct (H2 _ (rtc_refl _ _) served_fits2) as (e & cs & w & E & H3).
  apply (eq_trans (eq_sym served_turn3)) in E. injection E as <- <- <-.
  destruct (H3 _ (rtc_refl _ _)) as (Hempty & _ & Hall).
  eexists. exact (conj Hempty Hall).
Defined.
