(* ===== verification/EngineFairness.v ===== *)
(** * No request starves

    One submission, followed while everything else happens: other network
    threads open channels, submit, cancel other requests and pop, other
    consumers stop reading and are cut off, the hash table is iterated in any
    order.  Batching is continuous and unbounded, so every turn gives the
    submission one token or ends it; after as many turns as its budget its
    consumer has the whole output.  [tracked] is what is known of the followed
    entry; each loop of a turn has one lemma. *)

From S2P Require Import Prelude Clock RequestState RequestLifecycle Request Backend MockBackend MockProperties FifoScheduler SchedulerInvariant SchedulerCorrect SchedulerSpec TokenChannel Engine EngineInvariant EngineCorrect EngineProperties EngineLiveness.

(** The followed entry is there and its channel has room for all its tokens. *)
Definition tracked (id : RequestId) (entry : ActiveEntry) (e : Engine) (cs : ChannelStore) : Prop :=
  active_ e !! id = Some entry /\ roomy_entry (scheduler_ e) cs entry.

(** The request of the entry, its entry and its channel are as before. *)
Definition untouched (id : RequestId) (entry : ActiveEntry) (e e' : Engine) (cs cs' : ChannelStore) : Prop :=
  active_ e' !! id = Some entry /\
  requests_ (scheduler_ e') !! entry_request entry = requests_ (scheduler_ e) !! entry_request entry /\
  cs' !! entry_channel entry = cs !! entry_channel entry /\ running_ e' = running_ e.

Lemma untouched_refl id entry e cs :
  active_ e !! id = Some entry -> untouched id entry e e cs cs.
Proof. intros Hm. unfold untouched. by split_and!. Qed.

Lemma untouched_trans id entry e1 e2 e3 cs1 cs2 cs3 :
  untouched id entry e1 e2 cs1 cs2 -> untouched id entry e2 e3 cs2 cs3 ->
  untouched id entry e1 e3 cs1 cs3.
Proof. intros (? & ? & ? & ?) (? & ? & ? & ?). unfold untouched. split_and!; congruence. Qed.

Lemma untouched_tracked id entry e e' cs cs' :
  untouched id entry e e' cs cs' -> tracked id entry e cs -> tracked id entry e' cs'.
Proof.
  intros (Hm & Hr & Hc & _) (_ & Hbp & r & c & Hr0 & Hc0 & Hle). split; [done|]. split; [done|].
  exists r, c. split_and!; congruence.
Qed.

(** The code that follows the two drains in a turn of [run]. *)
Definition turn_work {W : Type} `{!Clock W, !InferenceBackend W, !SteadyClock W}
    (order : gmap RequestId ActiveEntry -> list RequestId) (e : Engine) (cs : ChannelStore) (w : W)
  : outcome (Engine * ChannelStore * W) :=
  '(_, s, w) ← tick (scheduler_ e) w;
  '(e, cs, w) ← push_tokens order (set_scheduler s e) cs w;
  '(e, cs, w) ← check_backpressure order e cs w;
  '(e, cs) ← reap_terminal order e cs;
  Ok (e, cs, w).

Section Fairness.
Context {W : Type} `{!Clock W, !ClockLaws W, !InferenceBackend W, !BackendContract W,
  !SteadyClock W, !SteadyLaws W}.
Context (order : gmap RequestId ActiveEntry -> list RequestId) (Horder : iteration_order order).
Implicit Types (e : Engine) (cs : ChannelStore) (w : W) (log : DeliveryLog) (x y z : System W).

(** ** The drains *)

Lemma submit_batch_untouched id entry batch e cs w log e1 w1 :
  pending_submissions_ e = [] ->
  sys_inv (mkSystem (set_pending batch (pending_cancels_ e) e) cs w log) ->
  active_ e !! id = Some entry -> submit_batch batch e w = Ok (e1, w1) ->
  untouched id entry e e1 cs cs /\ pending_submissions_ e1 = [] /\ pending_cancels_ e1 = pending_cancels_ e.
Proof.
  revert e w. induction batch as [|sub batch IH]; intros e w Hnil Hinv Hm E.
  { injection E as <- <-. by split; [apply untouched_refl|]. }
  cbn [submit_batch] in E. apply bind_Ok in E as ([r wr] & Hnew & E).
  destruct (inv_admit _ _ _ _ _ _ _ _ _ Hinv Hnew)
    as (ref & s' & w2 & Esub & _ & Hinv' & Hfresh & r' & Hreqs & _).
  destruct (ei_entries _ _ _ _ _ _ Hinv id entry Hm) as (r0 & _ & Hr0 & _).
  simpl in Esub, Hfresh, Hreqs, Hr0. rewrite Esub in E. cbn [mbind outcome_bind] in E.
  change (active_ (set_scheduler s' e)) with (active_ e) in E.
  rewrite (emplace_fresh _ _ _ Hfresh) in E. simpl in Hinv'. rewrite (emplace_fresh _ _ _ Hfresh) in Hinv'.
  set (entry0 := mkActiveEntry _ _ _ _) in *.
  set (e2 := set_active (<[sub_id sub := entry0]> (active_ e)) (set_scheduler s' e)) in *.
  assert (Hu : untouched id entry e e2 cs cs).
  { split; [simpl; rewrite lookup_insert_ne; [done|congruence]|]. split; [|done]. simpl.
    rewrite Hreqs, Hr0. by apply lookup_app_l_Some. }
  destruct (IH e2 w2 Hnil Hinv' (proj1 Hu) E) as (Hu' & H2 & H3).
  split; [by eapply untouched_trans|done].
Qed.

(** Cancelling another request, with or without an entry of its own. *)
Lemma cancel_other id id' entry s s' m cs w w' log subs :
  engine_inv subs s m cs w log -> m !! id = Some entry -> id <> id' ->
  FifoScheduler.cancel id' s w = Ok (s', w') ->
  requests_ s' !! entry_request entry = requests_ s !! entry_request entry.
Proof.
  intros Hinv Hm Hne E. destruct (ei_entries _ _ _ _ _ _ Hinv id entry Hm) as (r & c & Hr & Hid & _).
  destruct (cancel_ok id' s w (ei_sched _ _ _ _ _ _ Hinv)) as (s1 & w1 & E1 & _ & _ & Hev).
  rewrite E1 in E. injection E as <- <-. destruct (proj2 Hev _ _ Hr) as (r' & Hr' & Heff).
  destruct Heff as [(_ & Hid' & _)|[_ ->]]; [congruence|]. congruence.
Qed.

Lemma cancel_close_untouched id id' entry entry' e s' cs w w' log c :
  sys_inv (mkSystem e cs w log) -> active_ e !! id = Some entry -> id <> id' ->
  active_ e !! id' = Some entry' -> FifoScheduler.cancel id' (scheduler_ e) w = Ok (s', w') ->
  untouched id entry e (set_active (delete id' (active_ e)) (set_scheduler s' e)) cs
    (<[entry_channel entry' := c]> cs).
Proof.
  intros Hinv Hm Hne Hm' E. split; [simpl; by rewrite lookup_delete_ne|].
  split; [exact (cancel_other _ _ _ _ _ _ _ _ _ _ _ Hinv Hm Hne E)|]. split; [|done].
  apply lookup_insert_ne. intros Heq. apply Hne. by eapply (ei_channels _ _ _ _ _ _ Hinv).
Qed.

Lemma cancel_batch_untouched id entry batch e cs w log e' cs' w' :
  sys_inv (mkSystem e cs w log) -> active_ e !! id = Some entry -> id ∉ batch ->
  cancel_batch batch e cs w = Ok (e', cs', w') ->
  untouched id entry e e' cs cs' /\ pending_cancels_ e' = pending_cancels_ e.
Proof.
  revert e cs w. induction batch as [|id' batch IH]; intros e cs w Hinv Hm Hid E.
  { injection E as <- <- <-. by split; [apply untouched_refl|]. }
  apply not_elem_of_cons in Hid as [Hne Hid]. cbn [cancel_batch] in E.
  destruct (cancel_close_ok id' _ _ _ _ _ _ Hinv) as (s1 & w1 & E1 & _ & Hinv1 & Hrem).
  simpl in E1, Hinv1, Hrem. rewrite E1 in E. cbn [mbind outcome_bind] in E.
  change (active_ (set_scheduler s1 e)) with (active_ e) in E.
  destruct (active_ e !! id') as [entry'|] eqn:Hm'.
  - destruct (Hrem entry' eq_refl) as (c & _ & Ec & Hinv2). rewrite Ec in E.
    cbn [mbind outcome_bind] in E.
    pose proof (cancel_close_untouched _ _ _ _ _ _ _ _ _ _ (close c) Hinv Hm Hne Hm' E1) as Hu.
    destruct (IH (set_active (delete id' (active_ e)) (set_scheduler s1 e)) _ _ Hinv2 (proj1 Hu) Hid E) as [Hu' Hp]. split; [by eapply untouched_trans|done].
  - assert (Hu : untouched id entry e (set_scheduler s1 e) cs cs).
    { split; [done|]. split; [|done]. exact (cancel_other _ _ _ _ _ _ _ _ _ _ _ Hinv Hm Hne E1). }
    destruct (IH (set_scheduler s1 e) _ _ Hinv1 (proj1 Hu) Hid E) as [Hu' Hp]. split; [by eapply untouched_trans|done].
Qed.

Lemma cancel_stalled_untouched id entry ids e cs w log e' cs' w' :
  sys_inv (mkSystem e cs w log) -> active_ e !! id = Some entry -> id ∉ ids ->
  cancel_stalled ids e cs w = Ok (e', cs', w') ->
  untouched id entry e e' cs cs' /\ pending_cancels_ e' = pending_cancels_ e.
Proof.
  revert e cs w. induction ids as [|id' ids IH]; intros e cs w Hinv Hm Hid E.
  { injection E as <- <- <-. by split; [apply untouched_refl|]. }
  apply not_elem_of_cons in Hid as [Hne Hid]. cbn [cancel_stalled] in E.
  destruct (cancel_close_ok id' _ _ _ _ _ _ Hinv) as (s1 & w1 & E1 & _ & Hinv1 & Hrem).
  simpl in E1, Hinv1, Hrem. rewrite E1 in E. cbn [mbind outcome_bind] in E.
  change (active_ (set_scheduler s1 e)) with (active_ e) in E.
  destruct (active_ e !! id') as [entry'|] eqn:Hm'; [|done].
  destruct (Hrem entry' eq_refl) as (c & _ & Ec & Hinv2). cbn [or_throw mbind outcome_bind] in E.
  rewrite Ec in E. cbn [mbind outcome_bind] in E.
  pose proof (cancel_close_untouched _ _ _ _ _ _ _ _ _ _ (close c) Hinv Hm Hne Hm' E1) as Hu.
  destruct (IH (set_active (delete id' (active_ e)) (set_scheduler s1 e)) _ _ Hinv2 (proj1 Hu) Hid E) as [Hu' Hp]. split; [by eapply untouched_trans|done].
Qed.

(** ** The three loops over the entries *)

Lemma push_loop_frame (r : Request) n i entry cs w entry' cs' w' :
  push_loop r n i entry cs w = Ok (entry', cs', w') ->
  forall q, q <> entry_channel entry -> cs' !! q = cs !! q.
Proof.
  revert i entry cs. induction n as [|n IH]; intros i entry cs E q Hq; [by injection E as <- <- <-|].
  cbn [push_loop] in E. apply bind_Ok in E as (token & _ & E). apply bind_Ok in E as (c & _ & E).
  destruct (try_push _ c) as [[] c1].
  - rewrite (IH _ _ _ E) by done. by apply lookup_insert_ne.
  - destruct (backpressure_since entry); [|destruct (steady_now w)]; injection E as <- <- <-;
      by apply lookup_insert_ne.
Qed.

Lemma push_all_tracked id entry ids e cs w log e' cs' w' :
  NoDup ids -> (forall i, i ∈ ids -> is_Some (active_ e !! i)) -> sys_inv (mkSystem e cs w log) ->
  tracked id entry e cs -> push_all ids e cs w = Ok (e', cs', w') ->
  scheduler_ e' = scheduler_ e /\ running_ e' = running_ e /\ pending_cancels_ e' = pending_cancels_ e /\
  tracked id (if decide (id ∈ ids) then pushed_entry (scheduler_ e) entry else entry) e' cs'.
Proof.
  revert entry e cs w. induction ids as [|i ids IH]; intros entry e cs w Hnd Hids Hinv Ht E.
  { injection E as <- <- <-. by rewrite decide_False by set_solver. }
  apply NoDup_cons in Hnd as [Hi Hnd]. destruct (Hids i) as [en Hm]; [set_solver|].
  cbn [push_all] in E. rewrite Hm in E. cbn [or_undef mbind outcome_bind] in E.
  destruct (push_entry_runs i en e cs w log Hinv Hm) as (en1 & cs1 & w1 & E1 & Hsteps).
  rewrite E1 in E. cbn [mbind outcome_bind] in E.
  set (e1 := set_active (<[i := en1]> (active_ e)) e) in *.
  assert (Hids1 : forall j, j ∈ ids -> is_Some (active_ e1 !! j)).
  { intros j Hj. simpl. rewrite lookup_insert_is_Some'. right. apply Hids. set_solver. }
  pose proof (proj1 (steps_good _ _ Hinv Hsteps)) as Hinv1.
  destruct (decide (i = id)) as [->|Hne].
  - destruct Ht as [Hm' Hroom]. assert (en = entry) by congruence. subst en.
    destruct (push_entry_roomy e cs w log id entry Hinv Hm Hroom) as (c & _ & E2 & Hroom').
    rewrite E2 in E1. injection E1 as <- <- <-.
    destruct (IH (pushed_entry (scheduler_ e) entry) e1 _ _ Hnd Hids1 Hinv1) with (2 := E) as (H1 & H2 & H3 & H4).
    { split; [apply lookup_insert_eq|exact Hroom']. }
    rewrite decide_False in H4 by done. by rewrite decide_True by set_solver.
  - assert (Hu : untouched id entry e e1 cs cs1).
    { destruct Ht as [Hm' _]. split; [simpl; by rewrite lookup_insert_ne|]. split; [done|].
      split; [|done]. unfold push_entry in E1. apply bind_Ok in E1 as (r & _ & E1).
      apply (push_loop_frame _ _ _ _ _ _ _ _ _ E1). intros Heq. apply Hne.
      by apply (ei_channels _ _ _ _ _ _ Hinv i id en entry). }
    destruct (IH entry e1 cs1 w1 Hnd Hids1 Hinv1 (untouched_tracked _ _ _ _ _ _ Hu Ht) E)
      as (H1 & H2 & H3 & H4).
    split_and!; try done. destruct (decide (id ∈ ids)).
    + by rewrite decide_True by set_solver.
    + by rewrite decide_False by set_solver.
Qed.

(** The followed entry is not under backpressure, so it is never cut off. *)
Lemma check_backpressure_tracked id entry e cs w log e' cs' w' :
  sys_inv (mkSystem e cs w log) -> tracked id entry e cs ->
  check_backpressure order e cs w = Ok (e', cs', w') ->
  untouched id entry e e' cs cs' /\ pending_cancels_ e' = pending_cancels_ e.
Proof.
  intros Hinv [Hm Hroom] E. unfold check_backpressure in E.
  destruct (steady_now w) as [now w1] eqn:Es. apply bind_Ok in E as (ids & E1 & E).
  destruct (collect_stalled_runs (order (active_ e)) now e) as [(l & E1' & _ & Hst & _)|E1'];
    [apply (order_sound order Horder)| |congruence].
  rewrite E1 in E1'. injection E1' as <-.
  destruct (steady_contract _ _ _ Es) as [Ht Hl].
  eapply cancel_stalled_untouched; [by eapply inv_world|done| |exact E].
  intros Hid. rewrite Forall_forall in Hst. destruct (Hst id Hid) as (en & t & Hm' & Hbp & _).
  destruct Hroom. congruence.
Qed.

(** A followed entry that is up to date is reaped exactly when its request has
    ended. *)
Lemma reap_terminal_tracked id entry e cs w log r :
  sys_inv (mkSystem e cs w log) -> tracked id entry e cs ->
  requests_ (scheduler_ e) !! entry_request entry = Some r ->
  last_seen_tokens entry = output_tokens_emitted_ r ->
  exists e' cs', reap_terminal order e cs = Ok (e', cs') /\
    scheduler_ e' = scheduler_ e /\ running_ e' = running_ e /\ pending_cancels_ e' = pending_cancels_ e /\
    (is_terminal (req_state r) = true /\
       served (entry_request entry) (entry_channel entry) (mkSystem e' cs' w log) \/
     is_terminal (req_state r) = false /\ tracked id entry e' cs').
Proof.
  intros Hinv Htr Hr Hup. pose proof Htr as [Hm _].
  destruct (reap_terminal_ok order Horder e cs w log Hinv)
    as (m' & cs' & E & _ & Hleft & Hserved & ids & Hids & _ & Hout).
  do 2 eexists. split; [exact E|]. do 3 (split; [done|]).
  destruct (is_terminal (req_state r)) eqn:Hterm; [left|right]; (split; [done|]).
  - apply (Hserved id); [done|]. exists entry, r. split_and!; try done. lia.
  - assert (Hn : ~ finished e id) by (intros (en & r' & ? & ? & ? & _); simplify_eq; congruence).
    eapply untouched_tracked; [|exact Htr]. split; [by apply Hleft|]. split; [done|]. split; [|done].
    apply Hout. intros id' en Hid'%Hids Hm' Heq. apply Hn.
    by rewrite (ei_channels _ _ _ _ _ _ Hinv id id' entry en Hm Hm' (eq_sym Heq)).
Qed.

(** ** One turn *)

(** The engine is running, the followed submission is not cancelled, its
    request is at work and at most [k] tokens are still to come. *)
Definition following (k : nat) (id : RequestId) (p : RequestPtr) (q : ChannelPtr)
    (e : Engine) (cs : ChannelStore) : Prop :=
  running_ e = true /\ (id ∉ pending_cancels_ e) /\
  exists entry r, tracked id entry e cs /\ entry_request entry = p /\ entry_channel entry = q /\
    active (scheduler_ e) p /\ requests_ (scheduler_ e) !! p = Some r /\
    max_output_tokens_ r - output_tokens_emitted_ r <= Z.of_nat k.

Lemma still_active s w p r :
  sched_inv ∅ s w -> requests_ s !! p = Some r -> is_terminal (req_state r) = false -> active s p.
Proof.
  intros Hinv Hr Ht. destruct (decide (active s p)) as [|Hna]; [done|].
  pose proof (inv_rest _ _ _ Hinv p r Hr Hna). congruence.
Qed.

Lemma following_untouched k id p q entry e e' cs cs' w w' log log' :
  untouched id entry e e' cs cs' -> entry_request entry = p -> entry_channel entry = q ->
  tracked id entry e cs -> sys_inv (mkSystem e cs w log) -> sys_inv (mkSystem e' cs' w' log') ->
  id ∉ pending_cancels_ e' -> following k id p q e cs -> following k id p q e' cs'.
Proof.
  intros Hu <- <- Htr Hinv Hinv' Hcan (Hrun & _ & en & r & Htr0 & _ & _ & Ha & Hr & Hk).
  pose proof Hu as (_ & Hreq & _ & Hrun'). split; [congruence|]. split; [done|].
  exists entry, r. split; [by eapply untouched_tracked|]. do 2 (split; [done|]).
  assert (Hr' : requests_ (scheduler_ e') !! entry_request entry = Some r) by congruence.
  split; [|done]. eapply still_active; [exact (ei_sched _ _ _ _ _ _ Hinv')|exact Hr'|].
  exact (inv_active_not_terminal _ _ _ _ (ei_sched _ _ _ _ _ _ Hinv) Ha Hr).
Qed.

(** From the tick on: one token fewer is to come, or the request is served. *)
Lemma following_work k id p q e cs w log :
  sys_inv (mkSystem e cs w log) -> tick_fits (scheduler_ e) w -> following (S k) id p q e cs ->
  pending_cancels_ e = [] ->
  turn_work order e cs w = Undef overflow \/
  exists e' cs' w', turn_work order e cs w = Ok (e', cs', w') /\
    (following k id p q e' cs' \/ served p q (mkSystem e' cs' w' log)).
Proof.
  intros Hinv Hfits (Hrun & _ & entry & r & Htr & <- & <- & Ha & Hr & Hk) Hcan.
  unfold turn_work.
  destruct (tick_ok _ _ (ei_sched _ _ _ _ _ _ Hinv) Hfits) as (rep & s & w1 & E & Hpost).
  simpl in E, Hpost. rewrite E. cbn [mbind outcome_bind]. set (e1 := set_scheduler s e).
  pose proof (proj1 (step_good _ _ Hinv (es_tick rep s e cs w w1 log Hfits E))) as Hinv1.
  destruct (proj2 (post_evolves _ _ _ _ _ Hpost) _ _ Hr) as (r1 & Hr1 & Hact & _).
  specialize (Hact Ha).
  assert (Htr1 : tracked id entry e1 cs).
  { destruct Htr as (Hm & Hbp & r0 & c & Hr0 & Hc & Hle). split; [done|]. split; [done|].
    exists r1, c. split; [done|]. split; [done|]. assert (r0 = r) as -> by congruence.
    destruct Hact as [((_ & _ & Hmax & _) & _)|(tok & ((_ & _ & Hmax & _) & _) & _)]; by rewrite Hmax. }
  assert (Hleft : is_terminal (req_state r1) = false ->
    max_output_tokens_ r1 - output_tokens_emitted_ r1 <= Z.of_nat k).
  { destruct Hact as [(_ & Hst & _)|(tok & ((_ & _ & Hmax & _) & Hem & _) & _)];
      [rewrite Hst; discriminate|rewrite Hmax, Hem; lia]. }
  pose proof (push_tokens_runs order Horder e1 cs w1 log Hinv1) as Hp.
  destruct (push_tokens order e1 cs w1) as [[[e2 cs2] w2]| | | |] eqn:E2;
    try (destruct Hp as [(? & ? & ? & ? & _)|?]; [done|left; done]).
  apply runs_steps in Hp. pose proof (proj1 (steps_good _ _ Hinv1 Hp)) as Hinv2.
  destruct (push_all_tracked id entry _ _ _ _ _ _ _ _ (proj1 (Horder _)) (order_sound order Horder _)
    Hinv1 Htr1 E2) as (Hs2 & Hrun2 & Hcan2 & Htr2).
  rewrite decide_True in Htr2 by (apply Horder; eexists; apply Htr1).
  cbn [mbind outcome_bind]. destruct (pushed_entry_target (scheduler_ e1) entry) as [Hp2 Hq2].
  pose proof (pushed_entry_caught_up (scheduler_ e1) entry) as Hup.
  set (entry2 := pushed_entry (scheduler_ e1) entry) in *.
  pose proof (check_backpressure_runs order Horder e2 cs2 w2 log Hinv2) as Hb.
  destruct (check_backpressure order e2 cs2 w2) as [[[e3 cs3] w3]| | | |] eqn:E3;
    try (destruct Hb as [(? & ? & ? & ? & _)|?]; [done|left; done]).
  apply runs_steps in Hb. pose proof (proj1 (steps_good _ _ Hinv2 Hb)) as Hinv3.
  destruct (check_backpressure_tracked id entry2 _ _ _ _ _ _ _ Hinv2 Htr2 E3) as [Hu Hcan3].
  pose proof (untouched_tracked _ _ _ _ _ _ Hu Htr2) as Htr3. cbn [mbind outcome_bind]. right.
  assert (Hr3 : requests_ (scheduler_ e3) !! entry_request entry2 = Some r1).
  { destruct Hu as (_ & Hreq & _). by rewrite Hreq, Hs2, Hp2. }
  destruct (reap_terminal_tracked id entry2 e3 cs3 w3 log r1 Hinv3 Htr3 Hr3)
    as (e4 & cs4 & E4 & Hs4 & Hrun4 & Hcan4 & Hend).
  { apply Hup. by rewrite Hp2. }
  rewrite E4. cbn [mbind outcome_bind]. do 3 eexists. split; [done|].
  destruct Hend as [[_ Hsv]|[Hnt Htr4]]; [right; by rewrite <- Hp2, <- Hq2|left].
  split; [destruct Hu as (_ & _ & _ & ?); simpl in *; congruence|].
  split; [rewrite Hcan4, Hcan3, Hcan2; simpl; rewrite Hcan; apply not_elem_of_nil|].
  exists entry2, r1. split; [done|]. split; [done|]. split; [done|]. rewrite Hs4, <- Hp2.
  split; [|split; [done|by apply Hleft]].
  by eapply still_active; [exact (ei_sched _ _ _ _ _ _ Hinv3)| |].
Qed.

(** A pending submission whose channel holds its budget is followed once
    admitted. *)
Lemma submit_batch_follows sub batch e cs w log e1 w1 :
  pending_submissions_ e = [] ->
  sys_inv (mkSystem (set_pending batch (pending_cancels_ e) e) cs w log) ->
  sub ∈ batch -> sub_roomy cs sub -> submit_batch batch e w = Ok (e1, w1) ->
  running_ e1 = running_ e /\ pending_submissions_ e1 = [] /\
  pending_cancels_ e1 = pending_cancels_ e /\
  exists entry r, tracked (sub_id sub) entry e1 cs /\ entry_channel entry = sub_channel sub /\
    requests_ (scheduler_ e1) !! entry_request entry = Some r /\ req_state r = kWaitingPrefill /\
    max_output_tokens_ r = sub_max_tokens sub.
Proof.
  revert e w. induction batch as [|sub' batch IH]; intros e w Hnil Hinv Hin Hroom E; [set_solver|].
  cbn [submit_batch] in E. apply bind_Ok in E as ([r wr] & Hnew & E).
  destruct (inv_admit _ _ _ _ _ _ _ _ _ Hinv Hnew)
    as (ref & s' & w2 & Esub & _ & Hinv' & Hfresh & r' & Hreqs & Href & Hmax & Hst).
  simpl in Esub, Hfresh, Hreqs. rewrite Esub in E. cbn [mbind outcome_bind] in E.
  change (active_ (set_scheduler s' e)) with (active_ e) in E.
  rewrite (emplace_fresh _ _ _ Hfresh) in E. simpl in Hinv'. rewrite (emplace_fresh _ _ _ Hfresh) in Hinv'.
  set (entry0 := mkActiveEntry _ _ _ _) in *.
  set (e2 := set_active (<[sub_id sub' := entry0]> (active_ e)) (set_scheduler s' e)) in *.
  apply elem_of_cons in Hin as [<-|Hin].
  - assert (Hm : active_ e2 !! sub_id sub = Some entry0) by apply lookup_insert_eq.
    destruct (submit_batch_untouched (sub_id sub) entry0 batch e2 cs w2 log e1 w1 Hnil Hinv' Hm E)
      as (Hu & Hnil' & Hcan). pose proof Hu as (_ & Hreq & _ & Hrun).
    do 3 (split; [done|]). exists entry0, r'.
    split; [|split; [done|]; split; [by rewrite Hreq|done]].
    eapply untouched_tracked; [exact Hu|]. split; [done|]. split; [done|].
    pose proof (ei_pending _ _ _ _ _ _ Hinv) as Hp. apply Forall_cons in Hp as [Hp _].
    destruct Hp as (_ & _ & (c0 & Hc0 & _ & Hst0) & _), Hroom as (c & Hc & Hcap). simpl in Hc0.
    exists r', c. split; [done|]. split; [done|]. simpl. assert (c0 = c) as -> by congruence.
    apply app_eq_nil in Hst0 as [_ ->]. rewrite Hmax. unfold size_of. simpl. lia.
  - exact (IH e2 w2 Hnil Hinv' Hin Hroom E).
Qed.

(** One whole turn, once the submissions are drained. *)
Lemma following_turn k id p q e cs w log e1 w1 :
  sys_inv (mkSystem e cs w log) -> running_ e = true -> turn_fits e cs w ->
  drain_submissions e w = Ok (e1, w1) -> following (S k) id p q e1 cs ->
  run_once order e cs w = Undef overflow \/
  exists e' cs' w', run_once order e cs w = Ok (e', cs', w') /\
    rtc engine_step (mkSystem e cs w log) (mkSystem e' cs' w' log) /\
    (following k id p q e' cs' \/ served p q (mkSystem e' cs' w' log)).
Proof.
  intros Hinv Hrun Hfits E1 Hfol.
  assert (H : run_once order e cs w = Undef overflow \/
    exists e' cs' w', run_once order e cs w = Ok (e', cs', w') /\
      (following k id p q e' cs' \/ served p q (mkSystem e' cs' w' log))).
  { unfold run_once. rewrite Hrun, E1. cbn [negb mbind outcome_bind].
    pose proof (drain_submissions_runs e cs w log Hinv) as H1. rewrite E1 in H1.
    apply runs_steps in H1. pose proof (proj1 (steps_good _ _ Hinv H1)) as Hinv1. simpl in Hinv1.
    pose proof (drain_cancels_runs e1 cs w1 log Hinv1) as H2.
    destruct (drain_cancels e1 cs w1) as [[[e2 cs2] w2]| | | |] eqn:E2;
      try (destruct H2 as [(? & ? & ? & ? & _)|?]; [done|left; done]).
    apply runs_steps in H2. pose proof (proj1 (steps_good _ _ Hinv1 H2)) as Hinv2. simpl in Hinv2.
    cbn [mbind outcome_bind]. pose proof Hfol as (_ & Hid & entry & r & Htr & Hp & Hq & _).
    destruct (cancel_batch_untouched id entry (pending_cancels_ e1)
      (set_pending (pending_submissions_ e1) [] e1) cs w1 log e2 cs2 w2 Hinv1 (proj1 Htr) Hid E2) as [Hu Hcan]. simpl in Hcan.
    assert (Hfol2 : following (S k) id p q e2 cs2).
    { eapply (following_untouched _ _ _ _ entry e1 e2); [exact Hu|done|done|done|exact Hinv1|exact Hinv2| |done].
      rewrite Hcan. apply not_elem_of_nil. }
    rewrite bool_decide_false by (intros Hempty; pose proof (proj1 Hu) as Hm; simpl in Hm;
      by rewrite Hempty in Hm).
    apply (following_work k id p q e2 cs2 w2 log Hinv2 (Hfits _ _ _ _ _ E1 E2) Hfol2 Hcan). }
  destruct H as [H|(e' & cs' & w' & E & H)]; [by left|right]. exists e', cs', w'.
  split; [done|]. split; [|done].
  pose proof (run_once_runs order Horder e cs w log Hinv Hfits) as Hr. rewrite E in Hr.
  by apply runs_steps in Hr.
Qed.

(** ** The rest of the world *)

(** What happens between two turns: the other network threads open channels,
    submit, and cancel any other request; consumers pop; time passes. *)
Inductive open_step (id : RequestId) : System W -> System W -> Prop :=
  | os_idle x y : idle_step x y -> open_step id x y
  | os_channel p cap e cs w log : cs !! p = None -> log !! p = None ->
      open_step id (mkSystem e cs w log) (mkSystem e (<[p := new_channel cap]> cs) w log)
  | os_submit sub e cs w log : pending_ok (active_ e) cs log sub ->
      sub_id sub ∉ sub_id <$> pending_submissions_ e ->
      sub_channel sub ∉ sub_channel <$> pending_submissions_ e ->
      open_step id (mkSystem e cs w log) (mkSystem (Engine.submit sub e).2 cs w log)
  | os_cancel id' e cs w log : id' <> id ->
      open_step id (mkSystem e cs w log) (mkSystem (Engine.cancel id' e) cs w log).

Lemma open_engine_step id x y : open_step id x y -> engine_step x y.
Proof.
  destruct 1 as [x y Hxy|p cap e cs w log Hp Hl|sub e cs w log Hok Hid Hch|id' e cs w log Hne].
  - destruct Hxy; [by eapply es_pop|by apply es_world].
  - by apply es_channel.
  - by apply es_submit.
  - apply es_request_cancel.
Qed.

Definition sys_following k id p q x : Prop := following k id p q (sys_engine x) (sys_channels x).

Lemma open_step_following k id p q x y :
  sys_inv x -> open_step id x y -> sys_following k id p q x -> sys_following k id p q y.
Proof.
  unfold sys_following. intros Hinv Hxy (Hrun & Hid & entry & r & [Hm Hroom] & Hp & Hq & Ha & Hr & Hk).
  destruct Hxy as [x y [p' c c' ev e cs w log Hc Hpop|e cs w w' log Ht Hl]|p' cap e cs w log Hp' Hl'
    |sub e cs w log _ _ _|id' e cs w log Hne]; simpl in *.
  - split; [done|]. split; [done|]. exists entry, r. split; [|done]. split; [done|].
    by eapply roomy_entry_pop.
  - split; [done|]. split; [done|]. by exists entry, r.
  - split; [done|]. split; [done|]. exists entry, r. split; [|done]. split; [done|].
    destruct Hroom as (Hbp & r0 & c & Hr0 & Hc & Hle). split; [done|]. exists r0, c.
    split; [done|]. split; [|done]. rewrite lookup_insert_ne; [done|congruence].
  - unfold Engine.submit. rewrite Hrun. split; [done|]. split; [done|]. by exists entry, r.
  - split; [done|]. split; [simpl; set_solver|]. by exists entry, r.
Qed.

Lemma open_steps_following k id p q x y :
  sys_inv x -> rtc (open_step id) x y -> sys_following k id p q x ->
  rtc engine_step x y /\ sys_following k id p q y.
Proof.
  intros Hinv Hxy. induction Hxy as [x|x y z Hxy Hyz IH]; intros Hf; [split; [apply rtc_refl|done]|].
  pose proof (open_engine_step _ _ _ Hxy) as Hstep. pose proof (proj1 (step_good _ _ Hinv Hstep)) as Hy.
  destruct (IH Hy (open_step_following _ _ _ _ _ _ Hinv Hxy Hf)) as [H1 H2].
  split; [by eapply rtc_l|done].
Qed.

Lemma open_steps_engine id x y : rtc (open_step id) x y -> rtc engine_step x y.
Proof. induction 1; [apply rtc_refl|]. eapply rtc_l; [by eapply open_engine_step|done]. Qed.

(** [n] turns of [run] from [x], the world acting between them, lead to [P],
    unless a time computation overflows. *)
Fixpoint open_turns (id : RequestId) (n : nat) (P : System W -> Prop) x : Prop :=
  match n with
  | O => P x
  | S n =>
      turn_fits (sys_engine x) (sys_channels x) (sys_world x) ->
      run_once order (sys_engine x) (sys_channels x) (sys_world x) = Undef overflow \/
      exists e' cs' w',
        run_once order (sys_engine x) (sys_channels x) (sys_world x) = Ok (e', cs', w') /\
        forall z, rtc (open_step id) (mkSystem e' cs' w' (sys_log x)) z -> open_turns id n P z
  end.

Lemma open_turns_mono id n (P Q : System W -> Prop) x :
  (forall y, P y -> Q y) -> open_turns id n P x -> open_turns id n Q x.
Proof.
  intros HPQ. revert x. induction n as [|n IH]; simpl; [by auto|]. intros x Hx Hf.
  destruct (Hx Hf) as [?|(e' & cs' & w' & E & Hall)]; [by left|right]. eauto 8.
Qed.

Definition served_from x p q y : Prop := rtc engine_step x y /\ served p q y.

(** What is served stays served. *)
Lemma served_open_turns id n p q x :
  sys_inv x -> served p q x -> open_turns id n (served_from x p q) x.
Proof.
  revert x. induction n as [|n IH]; intros x Hinv Hs; [by split; [apply rtc_refl|]|].
  intros Hfits. destruct x as [e cs w log].
  destruct (run_once_runs order Horder e cs w log Hinv Hfits) as [(e' & cs' & w' & E & H)|E];
    [right|by left].
  exists e', cs', w'. split; [done|]. intros z Hz%open_steps_engine.
  assert (Hxz : rtc engine_step (mkSystem e cs w log) z) by (by etrans).
  eapply open_turns_mono; [|apply IH; [by eapply steps_good|by eapply served_steps]].
  intros y [Hzy Hy]. split; [by etrans|done].
Qed.

(** The turns that start with pending submissions are those that start with
    them admitted. *)
Lemma open_turns_admitted id n P e cs w log e1 w1 :
  running_ e = true -> drain_submissions e w = Ok (e1, w1) ->
  running_ e1 = true -> pending_submissions_ e1 = [] ->
  open_turns id (S n) P (mkSystem e1 cs w1 log) -> open_turns id (S n) P (mkSystem e cs w log).
Proof.
  intros Hrun E Hrun1 Hnil Hopen Hfits. simpl in *.
  destruct (run_once_admitted order e cs w e1 w1 Hrun E Hrun1 Hnil) as [-> Hf]. auto.
Qed.

Lemma drain_overflow e cs w :
  running_ e = true -> drain_submissions e w = Undef overflow -> run_once order e cs w = Undef overflow.
Proof. intros Hrun E. unfold run_once. by rewrite Hrun, E. Qed.

Lemma following_open_turns id n p q x :
  sys_inv x -> sys_following n id p q x -> open_turns id n (served_from x p q) x.
Proof.
  revert x. induction n as [|n IH]; intros [e cs w log] Hinv Hf.
  { destruct Hf as (_ & _ & entry & r & _ & _ & _ & Ha & Hr & Hk).
    pose proof (inv_budget _ _ _ (ei_sched _ _ _ _ _ _ Hinv) p r Ha Hr). lia. }
  intros Hfits. pose proof Hf as (Hrun & Hid & entry & r & Htr & Hp & Hq & _). simpl in *.
  destruct (drain_submissions_ok e cs w log Hinv) as [(e1 & w1 & E1 & Hinv1 & _)|E1];
    [|left; by apply drain_overflow].
  destruct (submit_batch_untouched id entry (pending_submissions_ e)
    (set_pending [] (pending_cancels_ e) e) cs w log e1 w1 eq_refl) as (Hu & _ & Hcan);
    [by destruct e|apply Htr|exact E1|].
  assert (Hf1 : following (S n) id p q e1 cs).
  { eapply (following_untouched _ _ _ _ entry e e1 cs cs w w1 log log); try done. by rewrite Hcan. }
  destruct (following_turn n id p q e cs w log e1 w1 Hinv Hrun Hfits E1 Hf1)
    as [E|(e' & cs' & w' & E & H & Hend)]; [by left|right].
  exists e', cs', w'. split; [done|]. intros z Hz.
  pose proof (proj1 (steps_good _ _ Hinv H)) as Hinv2. pose proof (open_steps_engine _ _ _ Hz) as Hz'.
  pose proof (proj1 (steps_good _ _ Hinv2 Hz')) as Hinv3.
  assert (Hgo : open_turns id n (served_from z p q) z).
  { destruct Hend as [Hf2|Hs]; [|apply served_open_turns; [done|exact (served_steps _ _ _ _ Hinv2 Hz' Hs)]].
    apply IH; [done|]. by destruct (open_steps_following _ _ _ _ _ _ Hinv2 Hz Hf2). }
  eapply open_turns_mono; [|exact Hgo]. intros y [Hzy Hy]. split; [|done].
  etrans; [exact H|]. by etrans.
Qed.

(** C10. No submission starves.  Follow one accepted submission whose channel can
    hold its budget and which nobody cancels.  Whatever the other network
    threads submit or cancel, however many other requests there are, whether
    the other consumers read or are cut off, and in whatever order the entries
    are iterated, after as many turns of [run] as the submission's budget its
    request has ended and its consumer gets the whole output and then the end of
    the stream; only the overflow of a time computation can stop the loop. *)
Theorem engine_no_starvation n sub e cs w log :
  engine_reachable (mkSystem e cs w log) -> running_ e = true ->
  sub ∈ pending_submissions_ e -> (sub_id sub ∉ pending_cancels_ e) -> sub_roomy cs sub ->
  sub_max_tokens sub <= Z.of_nat n ->
  open_turns (sub_id sub) n (delivered_whole (sub_id sub) (sub_channel sub)) (mkSystem e cs w log).
Proof.
  intros Hinv%reachable_inv Hrun Hin Hcan Hroom Hn.
  pose proof (ei_pending _ _ _ _ _ _ Hinv) as Hp. rewrite Forall_forall in Hp.
  destruct n as [|n]; [destruct (Hp sub Hin) as ((? & _) & _); lia|].
  destruct (drain_submissions_ok e cs w log Hinv) as [(e1 & w1 & E1 & Hinv1 & _)|E1];
    [|intros _; left; by apply drain_overflow].
  destruct (submit_batch_follows sub (pending_submissions_ e) (set_pending [] (pending_cancels_ e) e)
    cs w log e1 w1 eq_refl) as (Hrun1 & Hnil & Hcan1 & entry & r & Htr & Hq & Hr & Hst & Hmax);
    [by destruct e|done|done|exact E1|].
  pose proof (req_budget _ _ (inv_wf _ _ _ (ei_sched _ _ _ _ _ _ Hinv1) _ _ Hr)) as Hb.
  simpl in Hrun1, Hcan1. rewrite Hrun in Hrun1.
  eapply open_turns_admitted; [done|exact E1|done|done|].
  eapply open_turns_mono; [|apply (following_open_turns _ _ (entry_request entry) (sub_channel sub)); [done|]].
  - intros y [Hxy Hs]. eapply (served_delivered _ y _ _ _ Hinv1 Hxy); [|exact Hs].
    apply lookup_targets. exists entry. split; [apply Htr|done].
  - split; [done|]. split; [simpl; by rewrite Hcan1|]. exists entry, r. do 3 (split; [done|]).
    split; [|split; [done|simpl in *; lia]].
    by eapply still_active; [exact (ei_sched _ _ _ _ _ _ Hinv1)|exact Hr|rewrite Hst].
Qed.

End Fairness.

(** ** A concrete run

    The followed submission of two tokens shares the engine with another one
    whose channel holds a single event; between the two turns the latter is
    cancelled. *)

#[local] Existing Instance demo_steady.
#[local] Existing Instance demo_steady_laws.

Definition crowd_submission : Submission := mkSubmission "b" [5] 3 1000 1%nat.
Definition crowd_engine : Engine := (Engine.submit crowd_submission demo_engine).2.
Definition crowd_channels : ChannelStore := <[1%nat := new_channel 1]> demo_channels.

Lemma crowd_reachable : engine_reachable (mkSystem crowd_engine crowd_channels demo_engine_world ∅).
Proof.
  destruct demo_engine_reachable as (config & w0 & Hl & Hs). exists config, w0. split; [done|].
  etrans; [exact Hs|]. eapply rtc_l; [by apply (es_channel 1%nat 1)|].
  apply rtc_once, (es_submit crowd_submission); [|set_solver|set_solver].
  split; [simpl; lia|]. split; [done|]. split; [|by intros id en Hm].
  exists (new_channel 1). by split_and!.
Qed.

Definition crowd_turn (x : Engine * ChannelStore * MockWorld) : outcome (Engine * ChannelStore * MockWorld) :=
  let '(e, cs, w) := x in run_once demo_order e cs w.

Definition crowd1 : Engine * ChannelStore * MockWorld :=
  Eval vm_compute in result (crowd_engine, crowd_channels, demo_engine_world)
    (crowd_turn (crowd_engine, crowd_channels, demo_engine_world)).
Definition crowd2 : Engine * ChannelStore * MockWorld :=
  Eval vm_compute in result crowd1 (crowd_turn (Engine.cancel "b" crowd1.1.1, crowd1.1.2, crowd1.2)).

Lemma crowd_turn1 : run_once demo_order crowd_engine crowd_channels demo_engine_world =
  Ok (crowd1.1.1, crowd1.1.2, crowd1.2).
Proof. vm_compute. reflexivity. Qed.

Lemma crowd_turn2 : run_once demo_order (Engine.cancel "b" crowd1.1.1) crowd1.1.2 crowd1.2 =
  Ok (crowd2.1.1, crowd2.1.2, crowd2.2).
Proof. vm_compute. reflexivity. Qed.

Ltac crowd_fits :=
  intros ? ? ? ? ? E1; vm_compute in E1; injection E1 as <- <-; intros E2; vm_compute in E2;
  injection E2 as <- <- <-;
  apply mock_tick_fits; [apply mock_wfb_wf; reflexivity|by vm_compute|by vm_compute].

Lemma crowd_fits1 : turn_fits crowd_engine crowd_channels demo_engine_world.
Proof. crowd_fits. Qed.

Lemma crowd_fits2 : turn_fits (Engine.cancel "b" crowd1.1.1) crowd1.1.2 crowd1.2.
Proof. crowd_fits. Qed.

Lemma crowd_room : sub_roomy crowd_channels demo_submission.
Proof. exists (new_channel 4). by split; [|vm_compute]. Qed.

Lemma engine_no_starvation_witness :
  delivered_whole "a" 0%nat (mkSystem crowd2.1.1 crowd2.1.2 crowd2.2 ∅).
Proof.
  assert (Hin : demo_submission ∈ pending_submissions_ crowd_engine) by (apply elem_of_cons; by left).
  assert (Hcan : sub_id demo_submission ∉ pending_cancels_ crowd_engine) by apply not_elem_of_nil.
  assert (Hn : sub_max_tokens demo_submission <= Z.of_nat 2) by (vm_compute; discriminate).
  destruct (engine_no_starvation demo_order demo_iteration_order 2 demo_submission crowd_engine
    crowd_channels demo_engine_world ∅ crowd_reachable eq_refl Hin Hcan crowd_room Hn crowd_fits1)
    as [E|(e & cs & w & E & H1)]; [apply (eq_trans (eq_sym crowd_turn1)) in E; discriminate E|].
  apply (eq_trans (eq_sym crowd_turn1)) in E. injection E as <- <- <-.
  specialize (H1 _ (rtc_once _ _ (os_cancel "a" "b" crowd1.1.1 crowd1.1.2 crowd1.2 ∅ ltac:(discriminate)))).
  destruct (H1 crowd_fits2) as [E|(e & cs & w & E & H2)];
    [apply (eq_trans (eq_sym crowd_turn2)) in E; discriminate E|].
  apply (eq_trans (eq_sym crowd_turn2)) in E. injection E as <- <- <-.
  exact (H2 _ (rtc_refl _ _)).
Defined.
