(* ===== verification/EngineBackpressure.v ===== *)
(** * A consumer that stops reading is cut off

    An entry whose channel is full holds its place until the configured time has
    passed on the steady clock; the first turn that reads the clock after that
    gives it up, whatever else the turn does.  [held] describes the entry,
    [given_up] what is left of it; each stage of a turn has one lemma. *)

From S2P Require Import Prelude Clock RequestState RequestLifecycle Request Backend MockBackend MockProperties FifoScheduler SchedulerInvariant SchedulerCorrect SchedulerSpec TokenChannel Engine EngineInvariant EngineCorrect EngineProperties EngineLiveness EngineFairness EngineCancel EnginePush.

(** Under backpressure since [t]: a token is due, the channel is full. *)
Definition held (id : RequestId) (entry : ActiveEntry) (t : TimePoint) (e : Engine) (cs : ChannelStore) : Prop :=
  active_ e !! id = Some entry /\ backpressure_since entry = Some t /\
  exists r c, requests_ (scheduler_ e) !! entry_request entry = Some r /\
    last_seen_tokens entry < output_tokens_emitted_ r /\
    cs !! entry_channel entry = Some c /\ capacity_ c <= size_of (buffer_ c).

Section Backpressure.
Context {W : Type} `{!Clock W, !ClockLaws W, !InferenceBackend W, !BackendContract W,
  !SteadyClock W, !SteadyLaws W}.
Context (order : gmap RequestId ActiveEntry -> list RequestId) (Horder : iteration_order order).
Implicit Types (e : Engine) (cs : ChannelStore) (w : W) (log : DeliveryLog) (x y : System W).

(** The request has ended, the channel is closed and its stream is final. *)
Definition given_up (p : RequestPtr) (q : ChannelPtr) (evs : list TokenEvent) x : Prop :=
  (exists r, requests_ (scheduler_ (sys_engine x)) !! p = Some r /\ is_terminal (req_state r) = true) /\
  exists c, sys_channels x !! q = Some c /\ closed_ c = true /\ stream q c (sys_log x) = evs.

Lemma given_up_steps p q evs x y :
  sys_inv x -> rtc engine_step x y -> given_up p q evs x -> given_up p q evs y.
Proof.
  intros Hinv Hxy ((r & Hr & Ht) & c & Hc & Hcl & Hst).
  destruct (steps_good _ _ Hinv Hxy) as (_ & Hclosed & Hterm).
  destruct (Hclosed q c Hc Hcl) as (c' & Hc' & Hcl' & Hst'). split; [eauto|].
  exists c'. split_and!; [done|done|congruence].
Qed.

(** From [w] on the steady clock reads at least the timeout past [t]. *)
Definition late (e : Engine) (t : TimePoint) w : Prop :=
  forall w1, time w <= time w1 -> backpressure_timeout (config_ e) <= (steady_now w1).1 - t.

(** ** What is kept by every stage *)

Lemma submit_batch_forward batch e cs w log e1 w1 :
  pending_submissions_ e = [] ->
  sys_inv (mkSystem (set_pending batch (pending_cancels_ e) e) cs w log) ->
  submit_batch batch e w = Ok (e1, w1) -> config_ e1 = config_ e /\ time w <= time w1.
Proof.
  revert e w. induction batch as [|sub batch IH]; intros e w Hnil Hinv E.
  { injection E as <- <-. split; [done|lia]. }
  cbn [submit_batch] in E. apply bind_Ok in E as ([r wr] & Hnew & E).
  destruct (inv_admit _ _ _ _ _ _ _ _ _ Hinv Hnew) as (ref & s' & w2 & Esub & _ & Hinv' & _).
  pose proof (ei_pending _ _ _ _ _ _ Hinv) as Hp. apply Forall_cons in Hp as [(Hmax & _) _].
  destruct (new_request_submit _ _ _ _ _ _ _ _ _ (ei_sched _ _ _ _ _ _ Hinv) Hmax
    (pending_fresh _ _ _ _ _ _ _ Hinv) Hnew) as (r' & s2 & w2' & Esub' & _ & Hx%world_ext_time & _).
  simpl in Esub, Esub', Hx. rewrite Esub in Esub'. injection Esub' as _ <- <-.
  rewrite Esub in E. cbn [mbind outcome_bind] in E.
  set (e2 := set_active _ (set_scheduler s' e)) in *.
  destruct (IH e2 w2 Hnil Hinv' E) as [Hcfg Ht]. split; [exact Hcfg|lia].
Qed.

Lemma cancel_batch_forward ids e cs w log e' cs' w' :
  sys_inv (mkSystem e cs w log) -> cancel_batch ids e cs w = Ok (e', cs', w') -> time w <= time w'.
Proof.
  revert e cs w. induction ids as [|id ids IH]; intros e cs w Hinv E; [injection E as _ _ <-; lia|].
  destruct (cancel_ok id _ w (ei_sched _ _ _ _ _ _ Hinv)) as (s0 & w0 & E0 & _ & Hx%world_ext_time & _).
  destruct (cancel_close_ok id _ _ _ _ _ _ Hinv) as (s1 & w1 & E1 & _ & Hinv1 & Hrem).
  simpl in E0, E1, Hinv1, Hrem. rewrite E1 in E0. injection E0 as <- <-.
  cbn [cancel_batch] in E. rewrite E1 in E. cbn [mbind outcome_bind] in E.
  change (active_ (set_scheduler s1 e)) with (active_ e) in E.
  destruct (active_ e !! id) as [entry|].
  - destruct (Hrem entry eq_refl) as (c & _ & Ec & Hinv2). rewrite Ec in E. cbn [mbind outcome_bind] in E.
    pose proof (IH (set_active (delete id (active_ e)) (set_scheduler s1 e)) _ _ Hinv2 E). lia.
  - pose proof (IH (set_scheduler s1 e) _ _ Hinv1 E). lia.
Qed.

Lemma held_untouched id entry t e e' cs cs' :
  untouched id entry e e' cs cs' -> held id entry t e cs -> held id entry t e' cs'.
Proof.
  intros (Hm & Hr & Hc & _) (_ & Hbp & r & c & ? & ? & ? & ?). split; [done|]. split; [done|].
  exists r, c. split_and!; congruence.
Qed.

(** Cancelling the id of an entry, in whatever batch. *)
Lemma cancelled_given_up id ids entry c e cs w log e' cs' w' :
  sys_inv (mkSystem e cs w log) -> sys_inv (mkSystem e' cs' w' log) ->
  active_ e !! id = Some entry -> cs !! entry_channel entry = Some c -> id ∈ ids ->
  closes ids (active_ e) cs cs' -> cancels (fun i => i ∈ ids) (scheduler_ e) (scheduler_ e') ->
  given_up (entry_request entry) (entry_channel entry) (stream (entry_channel entry) c log)
    (mkSystem e' cs' w' log).
Proof.
  intros Hinv Hinv' Hm Hc Hid [Hin _] [_ Hev].
  destruct (ei_entries _ _ _ _ _ _ Hinv id entry Hm) as (r & _ & Hr & Hrid & _).
  split; [|by exists (close c); split_and!; [eapply Hin|..]].
  destruct (Hev _ _ Hr) as (r' & Hr' & [(_ & _ & _ & Hst & _)|[Hn ->]]); simpl.
  - exists r'. by rewrite Hst.
  - exists r. split; [done|]. apply (inv_rest _ _ _ (ei_sched _ _ _ _ _ _ Hinv) _ _ Hr).
    intros Ha. apply Hn. split; [done|]. simpl in Hrid. by rewrite Hrid.
Qed.

(** ** The stages of the work of a turn *)

Lemma held_tick id entry t e cs w rep s' w' :
  held id entry t e cs -> tick_post (scheduler_ e) w rep s' w' -> held id entry t (set_scheduler s' e) cs.
Proof.
  intros (Hm & Hbp & r & c & Hr & Hlt & Hc & Hfull) Hpost. split; [done|]. split; [done|].
  destruct (proj2 (post_evolves _ _ _ _ _ Hpost) _ _ Hr) as (r' & Hr' & Hact & Hin).
  exists r', c. split; [done|]. split; [|done].
  destruct (decide (active (scheduler_ e) (entry_request entry))) as [Ha|Hna]; [|by rewrite (Hin Hna)].
  destruct (Hact Ha) as [(_ & _ & -> & _)|(tok & (_ & -> & _) & _)]; lia.
Qed.

Lemma held_push id entry t e cs w log e' cs' w' :
  sys_inv (mkSystem e cs w log) -> held id entry t e cs ->
  push_tokens order e cs w = Ok (e', cs', w') ->
  untouched id entry e e' cs cs' /\ config_ e' = config_ e /\ time w <= time w'.
Proof.
  intros Hinv (Hm & Hbp & r & c & Hr & Hlt & Hc & Hfull) E.
  destruct (push_tokens_spec order e cs w log Horder Hinv) as (m' & cs1 & w1 & E1 & Ht & Hall & _).
  rewrite E1 in E. injection E as <- <- <-. split; [|done].
  destruct (Hall id entry Hm) as (r0 & c0 & w2 & Hr0 & Hc0 & _ & Hm' & Hc').
  assert (r0 = r /\ c0 = c) as [-> ->] by (split; congruence).
  assert (Hk : pushable (backlog r entry) c = 0%nat) by (unfold pushable, free_slots; lia).
  split; [|split; [done|split; [|done]]].
  - simpl. rewrite Hm'. unfold filled_entry, since_after. rewrite Hk, Hbp, Z.add_0_r.
    rewrite decide_True by (unfold backlog; lia). f_equal. destruct entry. simpl in *. congruence.
  - rewrite Hc', Hc. unfold filled_channel. rewrite Hk. change (events r _ 0) with (@nil TokenEvent).
    rewrite app_nil_r. by destruct c.
Qed.

Lemma held_check id entry t c e cs w log e' cs' w' :
  sys_inv (mkSystem e cs w log) -> sys_inv (mkSystem e' cs' w' log) -> held id entry t e cs ->
  cs !! entry_channel entry = Some c -> check_backpressure order e cs w = Ok (e', cs', w') ->
  (held id entry t e' cs' /\ (steady_now w).1 - t < backpressure_timeout (config_ e)) \/
  active_ e' !! id = None /\
    given_up (entry_request entry) (entry_channel entry) (stream (entry_channel entry) c log)
      (mkSystem e' cs' w' log).
Proof.
  intros Hinv Hinv' Hheld Hc E.
  destruct (check_backpressure_spec order e cs w log Hinv Horder)
    as [(e1 & cs1 & w1 & ids & E1 & Hids & _ & _ & Hrun & Hact & Hcl & Hcan & _)|E1]; [|congruence].
  rewrite E1 in E. injection E as <- <- <-. pose proof Hheld as (Hm & Hbp & _).
  specialize (Hact id). destruct (decide (id ∈ ids)) as [Hin|Hout]; [right|left].
  - split; [done|]. by eapply (cancelled_given_up id ids entry c e cs w).
  - rewrite Hids in Hout. split.
    + eapply held_untouched; [|exact Hheld]. split; [congruence|]. split; [|split; [|done]].
      * destruct (ei_entries _ _ _ _ _ _ Hinv id entry Hm) as (r & _ & Hr & Hrid & _).
        destruct (proj2 Hcan _ _ Hr) as (r' & Hr' & [(_ & Hin & _)|[_ ->]]); simpl in *; [|congruence].
        rewrite Hrid, Hids in Hin. done.
      * apply Hcl. intros id' en Hin Hm' Heq. apply Hout, Hids.
        by rewrite (ei_channels _ _ _ _ _ _ Hinv id id' entry en Hm Hm' (eq_sym Heq)).
    + apply Z.nle_gt. intros Hle. apply Hout. by exists entry, t.
Qed.

Lemma held_reap id entry t e cs w log e' cs' :
  sys_inv (mkSystem e cs w log) -> held id entry t e cs ->
  reap_terminal order e cs = Ok (e', cs') -> held id entry t e' cs'.
Proof.
  intros Hinv Hheld E. pose proof Hheld as (Hm & _ & r & c & Hr & Hlt & Hc & _).
  destruct (reap_terminal_ok order Horder e cs w log Hinv)
    as (m' & cs1 & E1 & _ & Hleft & _ & ids & Hids & _ & Hout).
  rewrite E1 in E. injection E as <- <-.
  assert (Hn : ~ finished e id) by (intros (en & r' & ? & ? & ? & Hle); simplify_eq; lia).
  eapply held_untouched; [|exact Hheld]. split; [by apply Hleft|]. split; [done|]. split; [|done].
  apply Hout. intros id' en Hid'%Hids Hm' Heq. apply Hn.
  by rewrite (ei_channels _ _ _ _ _ _ Hinv id id' entry en Hm Hm' (eq_sym Heq)).
Qed.

(** Without an entry, the id gets none. *)
Lemma work_keeps_absent id e cs w log e1 cs1 w1 e2 cs2 w2 e3 cs3 :
  sys_inv (mkSystem e cs w log) -> active_ e !! id = None ->
  push_tokens order e cs w = Ok (e1, cs1, w1) ->
  sys_inv (mkSystem e1 cs1 w1 log) -> check_backpressure order e1 cs1 w1 = Ok (e2, cs2, w2) ->
  sys_inv (mkSystem e2 cs2 w2 log) -> reap_terminal order e2 cs2 = Ok (e3, cs3) ->
  active_ e3 !! id = None.
Proof.
  intros Hinv Hm E1 Hinv1 E2 Hinv2 E3.
  destruct (push_tokens_spec order e cs w log Horder Hinv) as (m' & ? & ? & E & _ & _ & Hnone & _).
  rewrite E in E1. injection E1 as <- <- <-. specialize (Hnone id Hm).
  destruct (check_backpressure_spec order _ _ _ log Hinv1 Horder)
    as [(? & ? & ? & ids & E' & _ & _ & _ & _ & Hact & _)|E']; [|congruence].
  rewrite E' in E2. injection E2 as <- <- <-. specialize (Hact id). simpl in Hact.
  rewrite Hnone in Hact. destruct (reap_terminal_ok order Horder _ _ _ log Hinv2) as (m4 & ? & E4 & _ & Hleft & _).
  rewrite E4 in E3. injection E3 as <- <-. simpl. destruct (m4 !! id) as [en|] eqn:Hm4; [|done].
  apply Hleft in Hm4 as [Hm4 _]. rewrite Hm4 in Hact. by destruct (decide (id ∈ ids)).
Qed.

(** What a stage sequence leaves of an entry that was held at its start. *)
Definition settled_hold id entry t c e w log e' cs' w' : Prop :=
  (is_Some (active_ e !! id) /\ held id entry t e' cs' /\ ~ late e t w) \/
  active_ e' !! id = None /\
    given_up (entry_request entry) (entry_channel entry) (stream (entry_channel entry) c log)
      (mkSystem e' cs' w' log).

(** The work of a turn on an id that is held, or that was given up before. *)
Lemma turn_work_hold id entry t c e cs w log :
  sys_inv (mkSystem e cs w log) -> tick_fits (scheduler_ e) w ->
  (held id entry t e cs /\ cs !! entry_channel entry = Some c) \/
  (active_ e !! id = None /\
    given_up (entry_request entry) (entry_channel entry) (stream (entry_channel entry) c log)
      (mkSystem e cs w log)) ->
  turn_work order e cs w = Undef overflow \/
  exists e' cs' w', turn_work order e cs w = Ok (e', cs', w') /\ sys_inv (mkSystem e' cs' w' log) /\
    settled_hold id entry t c e w log e' cs' w'.
Proof.
  intros Hinv Hfits Hcase. unfold turn_work.
  destruct (tick_ok _ _ (ei_sched _ _ _ _ _ _ Hinv) Hfits) as (rep & s & w1 & E & Hpost).
  simpl in E, Hpost. rewrite E. cbn [mbind outcome_bind]. set (e1 := set_scheduler s e).
  pose proof (es_tick rep s e cs w w1 log Hfits E) as H1. apply rtc_once in H1.
  pose proof (proj1 (steps_good _ _ Hinv H1)) as Hinv1. pose proof (post_time _ _ _ _ _ Hpost) as Ht1.
  pose proof (push_tokens_runs order Horder e1 cs w1 log Hinv1) as H2.
  destruct (push_tokens order e1 cs w1) as [[[e2 cs2] w2]| | | |] eqn:E2;
    try (destruct H2 as [(? & ? & ? & ? & _)|?]; [done|left; done]).
  apply runs_steps in H2. pose proof (proj1 (steps_good _ _ Hinv1 H2)) as Hinv2.
  cbn [mbind outcome_bind]. pose proof (check_backpressure_runs order Horder e2 cs2 w2 log Hinv2) as H3.
  destruct (check_backpressure order e2 cs2 w2) as [[[e3 cs3] w3]| | | |] eqn:E3;
    try (destruct H3 as [(? & ? & ? & ? & _)|?]; [done|left; done]).
  apply runs_steps in H3. pose proof (proj1 (steps_good _ _ Hinv2 H3)) as Hinv3. cbn [mbind outcome_bind].
  destruct (reap_terminal_ok order Horder e3 cs3 w3 log Hinv3) as (m4 & cs4 & E4 & H4 & Hleft & _).
  rewrite E4. cbn [mbind outcome_bind]. right. do 3 eexists. split; [done|].
  split; [by eapply steps_good|].
  destruct Hcase as [[Hheld Hc]|[Hm Hg]]; [|right].
  - pose proof (held_tick _ _ _ _ _ _ _ _ _ Hheld Hpost) as Hheld1.
    destruct (held_push _ _ _ _ _ _ _ _ _ _ Hinv1 Hheld1 E2) as (Hu & Hcfg & Ht2).
    pose proof (held_untouched _ _ _ _ _ _ _ Hu Hheld1) as Hheld2.
    assert (Hc2 : cs2 !! entry_channel entry = Some c) by (destruct Hu as (_ & _ & -> & _); done).
    destruct (held_check _ _ _ _ _ _ _ _ _ _ _ Hinv2 Hinv3 Hheld2 Hc2 E3) as [[Hheld3 Hearly]|[Hm3 Hg3]];
      [left|right].
    + split; [eexists; apply Hheld|]. split; [by eapply held_reap|]. intros Hlate. specialize (Hlate w2 ltac:(lia)).
      rewrite Hcfg in Hearly. simpl in Hearly. lia.
    + split; [|by eapply given_up_steps]. simpl. destruct (m4 !! id) as [en|] eqn:Hm4; [|done].
      apply Hleft in Hm4 as [Hm4 _]. congruence.
  - split; [by eapply (work_keeps_absent id e1)|].
    eapply given_up_steps; [exact Hinv| |exact Hg]. etrans; [exact H1|]. etrans; [exact H2|].
    etrans; [exact H3|exact H4].
Qed.

(** The drains keep the entry or cancel it. *)
Lemma drains_hold id entry t c e cs w log e1 w1 e2 cs2 w2 :
  sys_inv (mkSystem e cs w log) -> held id entry t e cs -> cs !! entry_channel entry = Some c ->
  drain_submissions e w = Ok (e1, w1) -> drain_cancels e1 cs w1 = Ok (e2, cs2, w2) ->
  time w <= time w2 /\ config_ e2 = config_ e /\
  if decide (id ∈ pending_cancels_ e)
  then active_ e2 !! id = None /\
    given_up (entry_request entry) (entry_channel entry) (stream (entry_channel entry) c log)
      (mkSystem e2 cs2 w2 log)
  else held id entry t e2 cs2 /\ cs2 !! entry_channel entry = Some c.
Proof.
  intros Hinv Hheld Hc E1 E2. destruct (drained_inv _ _ _ _ _ _ _ _ _ Hinv E1 E2) as (Hinv1 & _ & Hinv2).
  assert (He : sys_inv (mkSystem (set_pending (pending_submissions_ e)
    (pending_cancels_ (set_pending [] (pending_cancels_ e) e)) (set_pending [] (pending_cancels_ e) e))
    cs w log)) by (by destruct e).
  destruct (submit_batch_forward _ (set_pending [] (pending_cancels_ e) e) cs w log e1 w1 eq_refl He E1)
    as [Hcfg Ht1]. pose proof Hheld as (Hm & _).
  destruct (submit_batch_untouched id entry _ (set_pending [] (pending_cancels_ e) e) cs w log e1 w1
    eq_refl He Hm E1) as (Hu & _ & Hcan). simpl in Hcan, Hcfg.
  assert (Hu1 : untouched id entry e e1 cs cs) by exact Hu.
  pose proof (held_untouched _ _ _ _ _ _ _ Hu1 Hheld) as Hheld1. pose proof Hheld1 as (Hm1 & _).
  unfold drain_cancels in E2. set (e1' := set_pending (pending_submissions_ e1) [] e1) in *.
  destruct (cancel_batch_exact (pending_cancels_ e1) e1' cs w1 log Hinv1) as (s' & cs' & w' & E & Hcl & Hcanc).
  pose proof (cancel_batch_forward _ e1' cs w1 log _ _ _ Hinv1 E2) as Ht2.
  rewrite E in E2. injection E2 as <- <- <-. split; [lia|]. split; [exact Hcfg|]. rewrite Hcan in *.
  case_decide as Hid.
  - split; [by apply lookup_foldr_delete_in|].
    by eapply (cancelled_given_up id (pending_cancels_ e) entry c e1' cs w1).
  - destruct (cancel_batch_untouched id entry (pending_cancels_ e) e1' cs w1 log _ _ _ Hinv1 Hm1 Hid E)
      as [Hu2 _]. split; [by eapply held_untouched|]. destruct Hu2 as (_ & _ & -> & _). done.
Qed.

(** C13. A consumer that stops reading holds its place only until the timeout.
    Take any reachable state of a running engine with an entry under
    backpressure since [t].  Whatever else the next turn does (others submit,
    cancel, are served or cut off, in any iteration order), it leaves the entry
    exactly as it is or gives it up: no entry, the request ended, the channel
    closed with exactly what was streamed before, for ever.  It is given up
    when its client has cancelled it, and when from then on the steady clock
    reads at least the configured timeout past [t]. *)
Theorem slow_consumer_cut_off id entry t c e cs w log :
  engine_reachable (mkSystem e cs w log) -> running_ e = true -> turn_fits e cs w ->
  held id entry t e cs -> cs !! entry_channel entry = Some c ->
  run_once order e cs w = Undef overflow \/
  exists e' cs' w', run_once order e cs w = Ok (e', cs', w') /\
    ((held id entry t e' cs' /\ (id ∉ pending_cancels_ e) /\ ~ late e t w) \/
     active_ e' !! id = None /\
       forall z, rtc engine_step (mkSystem e' cs' w' log) z ->
         given_up (entry_request entry) (entry_channel entry) (stream (entry_channel entry) c log) z).
Proof.
  intros Hinv%reachable_inv Hrun Hfits Hheld Hc. unfold run_once. rewrite Hrun. cbn [negb].
  destruct (drain_submissions_ok e cs w log Hinv) as [(e1 & w1 & E1 & Hinv1 & _)|E1]; rewrite E1;
    [|by left]. cbn [mbind outcome_bind].
  pose proof (drain_cancels_runs e1 cs w1 log Hinv1) as H2.
  destruct (drain_cancels e1 cs w1) as [[[e2 cs2] w2]| | | |] eqn:E2;
    try (destruct H2 as [(? & ? & ? & ? & _)|?]; [done|left; done]).
  apply runs_steps in H2. pose proof (proj1 (steps_good _ _ Hinv1 H2)) as Hinv2. simpl in Hinv2.
  cbn [mbind outcome_bind].
  destruct (drains_hold _ _ _ _ _ _ _ _ _ _ _ _ _ Hinv Hheld Hc E1 E2) as (Ht & Hcfg & Hend).
  assert (Hlate : ~ late e2 t w2 -> ~ late e t w).
  { intros Hn Hlate. apply Hn. intros w3 Hw3. rewrite Hcfg. apply Hlate. lia. }
  case_bool_decide as Hempty.
  - right. do 3 eexists. split; [done|]. right. case_decide as Hid.
    + split; [apply Hend|]. intros z Hz. by eapply given_up_steps; [exact Hinv2| |apply Hend].
    + destruct Hend as [(Hm & _) _]. by rewrite Hempty in Hm.
  - destruct (turn_work_hold id entry t c e2 cs2 w2 log Hinv2 (Hfits _ _ _ _ _ E1 E2))
      as [E|(e' & cs' & w' & E & Hinv' & Hdone)]; [case_decide; [by right|by left]|by left|right].
    exists e', cs', w'. split; [exact E|]. destruct Hdone as [([en Hm] & Hheld' & Hn)|[Hm Hg]].
    + case_decide as Hid; [destruct Hend; congruence|by left; auto].
    + right. split; [done|]. intros z Hz. by eapply given_up_steps.
Qed.

End Backpressure.

(** ** A concrete cut-off

    The consumer of [slow_engine] reads nothing; its second token has been held
    back since the instant 12 and the clock stands at 20. *)

#[local] Existing Instance demo_steady.
#[local] Existing Instance demo_steady_laws.

Definition slow_held : ActiveEntry := mkActiveEntry 0 0 1 (Some 12).

Lemma slow_is_held : held "a" slow_held 12 slow2.1.1 slow2.1.2.
Proof.
  split; [reflexivity|]. split; [reflexivity|]. do 2 eexists. split; [vm_compute; reflexivity|].
  split; [vm_compute; reflexivity|]. split; [vm_compute; reflexivity|]. vm_compute. discriminate.
Qed.

Lemma slow_is_late : late slow2.1.1 12 slow_later.
Proof. intros w1 Hw. unfold steady_now, demo_steady, INT64_MAX. simpl in *. unfold fake_now in *. lia. Qed.

Lemma slow_turn_fits : turn_fits slow2.1.1 slow2.1.2 slow_later.
Proof. slow_fits. Qed.

Lemma slow_consumer_cut_off_witness :
  exists e' cs' w', run_once demo_order slow2.1.1 slow2.1.2 slow_later = Ok (e', cs', w') /\
    active_ e' !! "a" = None /\
    given_up 0%nat 0%nat [mkTokenEvent 1 kNone] (mkSystem e' cs' w' ∅).
Proof.
  destruct (slow_consumer_cut_off demo_order demo_iteration_order "a" slow_held 12 slow_channel
    slow2.1.1 slow2.1.2 slow_later ∅ slow_reachable2 eq_refl slow_turn_fits slow_is_held eq_refl)
    as [E|(e' & cs' & w' & E & [(_ & _ & Hn)|[Hm Hg]])].
  - vm_compute in E. discriminate E.
  - destruct (Hn slow_is_late).
  - exists e', cs', w'. exact (conj E (conj Hm (Hg _ (rtc_refl _ _)))).
Defined.
