(* ===== verification/EngineOrder.v ===== *)
(** * The iteration order of [active_] does not matter

    [push_tokens], [check_backpressure] and [reap_terminal] iterate over an
    [unordered_map].  While the channels have room, a turn of [run] gives the
    same engine, the same channels and the same environment whatever order the
    map is iterated in: each loop acts on one entry and its own channel. *)

From S2P Require Import Prelude Clock RequestState RequestLifecycle Request Backend MockBackend MockProperties FifoScheduler SchedulerInvariant SchedulerCorrect SchedulerSpec TokenChannel Engine EngineInvariant EngineCorrect EngineProperties EngineLiveness.

(** Some entry uses the channel. *)
Lemma used_or_free (P : RequestId -> Prop) (m : gmap RequestId ActiveEntry) q :
  (forall id, is_Some (m !! id) -> P id \/ ~ P id) ->
  (exists id entry, P id /\ m !! id = Some entry /\ entry_channel entry = q) \/
  (forall id entry, P id -> m !! id = Some entry -> entry_channel entry <> q).
Proof.
  induction m as [|id entry m Hid IH] using map_ind; intros Hdec; [right; by intros ? ? _ ?|].
  assert (Hdec' : forall id', is_Some (m !! id') -> P id' \/ ~ P id').
  { intros id' Hs. apply Hdec. rewrite lookup_insert_is_Some'. by right. }
  assert (HP : P id \/ ~ P id) by (apply Hdec; rewrite lookup_insert_eq; eauto).
  destruct (decide (entry_channel entry = q)) as [Heq|Hne]; [destruct HP as [HP|HP]|].
  - left. exists id, entry. by rewrite lookup_insert_eq.
  - destruct (IH Hdec') as [(id' & en & H1 & H2 & H3)|Hfree].
    + left. exists id', en. rewrite lookup_insert_ne; [done|]. intros ->. congruence.
    + right. intros id' en HP' [[<- <-]|[_ Hm]]%lookup_insert_Some; [done|by eapply Hfree].
  - destruct (IH Hdec') as [(id' & en & H1 & H2 & H3)|Hfree].
    + left. exists id', en. rewrite lookup_insert_ne; [done|]. intros ->. congruence.
    + right. intros id' en HP' [[<- <-]|[_ Hm]]%lookup_insert_Some; [done|by eapply Hfree].
Qed.

Section Order.
Context {W : Type} `{!Clock W, !ClockLaws W, !InferenceBackend W, !BackendContract W,
  !SteadyClock W, !SteadyLaws W}.
Context (order1 order2 : gmap RequestId ActiveEntry -> list RequestId).
Context (Horder1 : iteration_order order1) (Horder2 : iteration_order order2).
Implicit Types (e : Engine) (cs : ChannelStore) (w : W) (log : DeliveryLog).

(** The channel of an entry that exists is there. *)
Lemma entry_channel_there e cs w log id entry :
  sys_inv (mkSystem e cs w log) -> active_ e !! id = Some entry -> is_Some (cs !! entry_channel entry).
Proof.
  intros Hinv Hm. destruct (ei_entries _ _ _ _ _ _ Hinv _ _ Hm) as (r & c & _ & _ & Hc & _).
  by exists c.
Qed.

Lemma push_tokens_order e cs w log :
  sys_inv (mkSystem e cs w log) -> roomy e cs ->
  push_tokens order1 e cs w = push_tokens order2 e cs w.
Proof.
  intros Hinv Hroomy.
  destruct (push_tokens_roomy order1 Horder1 e cs w log Hinv Hroomy) as (cs1 & -> & _ & Hin1 & Hout1).
  destruct (push_tokens_roomy order2 Horder2 e cs w log Hinv Hroomy) as (cs2 & -> & _ & Hin2 & Hout2).
  assert (cs1 = cs2) as ->; [|done]. apply map_eq. intros q.
  destruct (used_or_free (fun _ => True) (active_ e) q) as [(id & entry & _ & Hm & <-)|Hfree]; [by left| |].
  - destruct (entry_channel_there _ _ _ _ _ _ Hinv Hm) as [c Hc].
    by rewrite (Hin1 _ _ _ Hm Hc), (Hin2 _ _ _ Hm Hc).
  - rewrite Hout1, Hout2; eauto.
Qed.

Lemma check_backpressure_order e cs w :
  roomy e cs -> check_backpressure order1 e cs w = check_backpressure order2 e cs w.
Proof.
  intros Hroomy. unfold check_backpressure. destruct (steady_now w) as [now w'].
  assert (Hnone : forall ids, (forall id, id ∈ ids -> is_Some (active_ e !! id)) ->
    collect_stalled ids now e = Ok []).
  { intros ids Hids. apply (collect_stalled_none order1 Horder1). intros id [entry Hm]%Hids. exists entry.
    by destruct (Hroomy _ _ Hm). }
  by rewrite !Hnone by (intros id; (apply (order_sound order1 Horder1) || apply (order_sound order2 Horder2))).
Qed.

(** Also without room: reaping never depends on the order. *)
Lemma reap_terminal_order e cs w log :
  sys_inv (mkSystem e cs w log) -> reap_terminal order1 e cs = reap_terminal order2 e cs.
Proof.
  intros Hinv.
  destruct (reap_terminal_ok order1 Horder1 e cs w log Hinv)
    as (m1 & cs1 & -> & _ & Hm1 & _ & ids1 & Hids1 & Hin1 & Hout1).
  destruct (reap_terminal_ok order2 Horder2 e cs w log Hinv)
    as (m2 & cs2 & -> & _ & Hm2 & _ & ids2 & Hids2 & Hin2 & Hout2).
  assert (m1 = m2) as ->.
  { apply map_eq. intros id. apply option_eq. intros entry. by rewrite Hm1, Hm2. }
  assert (cs1 = cs2) as ->; [|done]. apply map_eq. intros q.
  destruct (used_or_free (fun id => id ∈ ids1) (active_ e) q) as [(id & entry & Hid & Hm & <-)|Hfree];
    [intros id _; destruct (decide (id ∈ ids1)); [by left|by right]| |].
  - destruct (entry_channel_there _ _ _ _ _ _ Hinv Hm) as [c Hc].
    assert (Hid2 : id ∈ ids2) by by apply Hids2, Hids1.
    by rewrite (Hin1 _ _ _ Hid Hm Hc), (Hin2 _ _ _ Hid2 Hm Hc).
  - rewrite Hout1, Hout2; [done| |done]. intros id entry Hid. apply Hfree. by apply Hids1, Hids2.
Qed.

(** C15. A turn does not depend on the iteration order of the hash table: if,
    once the pending vectors are drained, the channels have room for what is
    still to come, any two iteration orders of [active_] give the same engine,
    the same channels and the same environment, or the same overflow. *)
Theorem engine_turn_order_irrelevant e cs w log :
  engine_reachable (mkSystem e cs w log) ->
  (forall e1 w1 e2 cs2 w2, drain_submissions e w = Ok (e1, w1) ->
     drain_cancels e1 cs w1 = Ok (e2, cs2, w2) -> tick_fits (scheduler_ e2) w2 /\ roomy e2 cs2) ->
  run_once order1 e cs w = run_once order2 e cs w.
Proof.
  intros Hinv%reachable_inv Hready. unfold run_once. destruct (running_ e); [|done]. cbn [negb].
  destruct (drain_submissions e w) as [[e1 w1]| | | |] eqn:E1; try done. cbn [mbind outcome_bind].
  destruct (drain_cancels e1 cs w1) as [[[e2 cs2] w2]| | | |] eqn:E2; try done. cbn [mbind outcome_bind].
  destruct (Hready _ _ _ _ _ eq_refl E2) as [Hfits Hroomy]. case_bool_decide; [done|].
  destruct (drained_inv e cs w log e1 w1 e2 cs2 w2 Hinv E1 E2) as (_ & _ & Hinv2).
  destruct (tick_ok _ _ (ei_sched _ _ _ _ _ _ Hinv2) Hfits) as (rep & s & w3 & E & Hpost).
  simpl in E, Hpost. rewrite E. cbn [mbind outcome_bind].
  pose proof (proj1 (step_good _ _ Hinv2 (es_tick rep s e2 cs2 w2 w3 log Hfits E))) as Hinv3.
  pose proof (roomy_tick _ _ _ _ _ _ Hroomy Hpost) as Hroomy3.
  rewrite (push_tokens_order _ _ _ _ Hinv3 Hroomy3).
  pose proof (push_tokens_runs order2 Horder2 _ _ _ _ Hinv3) as Hsteps.
  destruct (push_tokens_roomy order2 Horder2 _ _ _ _ Hinv3 Hroomy3) as (cs4 & E4 & Hroomy4 & _).
  rewrite E4 in *. apply runs_steps in Hsteps. pose proof (proj1 (steps_good _ _ Hinv3 Hsteps)) as Hinv4.
  cbn [mbind outcome_bind]. rewrite (check_backpressure_order _ _ _ Hroomy4).
  destruct (check_backpressure_roomy order2 Horder2 _ _ w3 Hroomy4) as [w5 ->].
  cbn [mbind outcome_bind]. by rewrite (reap_terminal_order _ _ _ _ Hinv4).
Qed.

End Order.

(** ** A concrete turn

    Two pending submissions, the entries iterated forwards and backwards. *)

#[local] Existing Instance demo_steady.
#[local] Existing Instance demo_steady_laws.

Lemma reversed_iteration_order : iteration_order (fun m => reverse (demo_order m)).
Proof.
  intros m. destruct (demo_iteration_order m) as [Hnd Hin]. split; [by rewrite reverse_Permutation|].
  intros id. by rewrite elem_of_reverse.
Qed.

Definition pair_submission : Submission := mkSubmission "b" [5] 3 1000 1%nat.
Definition pair_engine : Engine := (Engine.submit pair_submission demo_engine).2.
Definition pair_channels : ChannelStore := <[1%nat := new_channel 3]> demo_channels.

Lemma pair_reachable : engine_reachable (mkSystem pair_engine pair_channels demo_engine_world ∅).
Proof.
  destruct demo_engine_reachable as (config & w0 & Hl & Hs). exists config, w0. split; [done|].
  etrans; [exact Hs|]. eapply rtc_l; [by apply (es_channel 1%nat 3)|].
  apply rtc_once, (es_submit pair_submission); [|set_solver|set_solver].
  split; [simpl; lia|]. split; [done|]. split; [|by intros id en Hm].
  exists (new_channel 3). by split_and!.
Qed.

Lemma engine_turn_order_irrelevant_witness :
  run_once demo_order pair_engine pair_channels demo_engine_world =
  run_once (fun m => reverse (demo_order m)) pair_engine pair_channels demo_engine_world.
Proof.
  apply (engine_turn_order_irrelevant demo_order _ demo_iteration_order reversed_iteration_order
    pair_engine pair_channels demo_engine_world ∅ pair_reachable).
  intros e1 w1 e2 cs2 w2 E1 E2.
  vm_compute in E1. injection E1 as <- <-. vm_compute in E2. injection E2 as <- <- <-.
  split; [apply mock_tick_fits; [apply mock_wfb_wf; reflexivity|by vm_compute|by vm_compute]|].
  match goal with |- roomy ?e ?cs =>
    change (map_Forall (fun _ => roomy_entry (scheduler_ e) cs) (active_ e)) end.
  apply map_Forall_to_list. match goal with |- Forall ?P ?l =>
    let l' := eval vm_compute in l in change (Forall P l') end.
  repeat apply Forall_cons_2; try apply Forall_nil_2.
  all: split; [done|]; do 2 eexists; split; [reflexivity|]; split; [reflexivity|]; by vm_compute.
Defined.
