(* ===== verification/EngineLimits.v ===== *)
(** * What the engine does not promise

    The limits of the engine's guarantees, each as a theorem about the code as
    it is: a cancellation that overtakes its submission is lost, [stop] leaves
    the consumers blocked, and a request that failed behind a full channel is
    reported to its consumer like one that ended normally. *)

From S2P Require Import Prelude Clock RequestState RequestLifecycle Request Backend MockBackend MockProperties FifoScheduler SchedulerInvariant SchedulerCorrect SchedulerSpec TokenChannel Engine EngineInvariant EngineCorrect EngineProperties.

Section Limits.
Context {W : Type} `{!Clock W, !ClockLaws W, !InferenceBackend W, !BackendContract W,
  !SteadyClock W, !SteadyLaws W}.
Implicit Types (e : Engine) (cs : ChannelStore) (w : W) (log : DeliveryLog).

(** A cancellation that [drain_cancels] processes while its submission is still
    pending changes nothing, so the request is admitted by the next turn as if
    it had never been cancelled. *)
Theorem late_cancel_is_dropped sub e cs w log :
  engine_reachable (mkSystem e cs w log) -> sub ∈ pending_submissions_ e ->
  cancel_batch [sub_id sub] e cs w = Ok (e, cs, w).
Proof.
  intros Hinv%reachable_inv Hin. pose proof (ei_pending _ _ _ _ _ _ Hinv) as Hp. simpl in Hp.
  rewrite Forall_forall in Hp. destruct (Hp _ Hin) as (_ & Hnone & _).
  assert (Hfresh : fresh_id (sub_id sub) (scheduler_ e)).
  { intros q r Ha Hr Hid. destruct (ei_active _ _ _ _ _ _ Hinv q r Ha Hr) as (en & Hen & _).
    simpl in Hen. congruence. }
  pose proof (cancel_noop _ _ w (ei_sched _ _ _ _ _ _ Hinv) Hfresh) as E. simpl in *. rewrite E. simpl. rewrite Hnone.
  by destruct e.
Qed.

(** After [stop] the loop does nothing more, and a consumer that has read
    everything so far waits on an open channel. *)
Theorem stop_leaves_consumers_blocked order id entry c e cs w log :
  engine_reachable (mkSystem e cs w log) -> running_ e = false ->
  active_ e !! id = Some entry -> cs !! entry_channel entry = Some c -> buffer_ c = [] ->
  run_once order e cs w = Ok (e, cs, w) /\ pop c = None.
Proof.
  intros Hinv%reachable_inv Hrun Hm Hc Hb. unfold run_once. rewrite Hrun. split; [done|].
  destruct (ei_entries _ _ _ _ _ _ Hinv _ _ Hm) as (r & c0 & _ & _ & Hc0 & Hop & _).
  simpl in Hc0. assert (c0 = c) as -> by congruence. unfold pop. by rewrite Hb, Hop.
Qed.

End Limits.

(** ** The last token of a request that failed

    A channel of capacity one, a budget of three tokens and a deadline that
    passes after the second: the first token fills the channel, the second is
    held back, the request fails. *)

#[local] Existing Instance demo_steady.
#[local] Existing Instance demo_steady_laws.

Definition tight_submission : Submission := mkSubmission "a" [7; 8] 3 8 0%nat.
Definition tight_engine : Engine :=
  (Engine.submit tight_submission (start (new_engine default_config)).2).2.

Definition tight_turn (x : Engine * ChannelStore * MockWorld) : outcome (Engine * ChannelStore * MockWorld) :=
  let '(e, cs, w) := x in run_once demo_order e cs w.

(** The consumer pops one event. *)
Definition tight_pop (x : Engine * ChannelStore * MockWorld) : outcome (Engine * ChannelStore * MockWorld) :=
  let '(e, cs, w) := x in
  c ← deref_channel 0 cs;
  match pop c with
  | Some (_, c) => Ok (e, <[0%nat := c]> cs, w)
  | None => Undef "blocked"
  end.

(** Three turns, a pop, and the turn that delivers the held token: the request
    is [kFailed], the event says [kStop]. *)
Example failed_request_reported_as_stop :
  exists e cs w r,
    (x ← tight_turn (tight_engine, {[ 0%nat := new_channel 1 ]}, demo_engine_world);
     x ← tight_turn x; x ← tight_turn x; x ← tight_pop x; tight_turn x) = Ok (e, cs, w) /\
    requests_ (scheduler_ e) = [r] /\ req_state r = kFailed /\ output_tokens_emitted_ r = 2 /\
    cs !! 0%nat = Some (mkChannel [mkTokenEvent 2 kStop] true 1).
Proof. do 4 eexists. split; [vm_compute; reflexivity|]. by split_and!. Qed.

(** ** Two live submissions with one id

    Nothing rejects the second submission: [active_.emplace] ignores it, so its
    channel is never written or closed, and the scheduler's handle table holds
    one handle for the two requests.  When the first one ends, the next tick
    throws out of the engine thread, which ends the process. *)
Definition twin_engine : Engine :=
  (Engine.submit (mkSubmission "a" [9] 2 1000 1%nat)
     (Engine.submit (mkSubmission "a" [7; 8] 1 1000 0%nat) (start (new_engine default_config)).2).2).2.

Definition twin_channels : ChannelStore := {[ 0%nat := new_channel 4; 1%nat := new_channel 4 ]}.

Example duplicate_submission_kills_engine :
  exists e cs w,
    tight_turn (twin_engine, twin_channels, demo_engine_world) = Ok (e, cs, w) /\
    cs !! 1%nat = Some (new_channel 4) /\
    tight_turn ((Engine.submit (mkSubmission "b" [3] 1 1000 2%nat) e).2, <[2%nat := new_channel 4]> cs, w) =
      Throw "unordered_map::at".
Proof. do 3 eexists. split; [vm_compute; reflexivity|]. by split_and!. Qed.
