(* ===== verification/Server.v ===== *)
(** * The HTTP server: [include/tokamak/http/server.h], [src/http/server.cpp]

    The state of the server, its routing and the life of one connection.
    Boost is a parameter: the [io_context] with its two operations the server
    uses, the type of HTTP verbs, the acceptor.  A coroutine is its loop over
    what the socket delivers: each exchange says what [async_read] gave and
    whether [async_write] succeeded, and the readiness the atomic flag had when
    the request was routed. *)

From S2P Require Import Prelude.

Record ServerConfig := mkServerConfig {
  address : string;
  port_number : Z;               (** [std::uint16_t] *)
  num_threads : nat;
}.

Definition default_server_config : ServerConfig := mkServerConfig "0.0.0.0" 8080 1.

(** ** Routing *)

Inductive Status := status_ok | status_service_unavailable | status_not_found.

#[export] Instance Status_eq_dec : EqDecision Status.
Proof. solve_decision. Defined.

Section Server.
(** [http::verb], and [http::verb::get]. *)
Context {Verb : Type} `{!EqDecision Verb} (verb_get : Verb).

Record HttpRequest := mkHttpRequest {
  method : Verb;
  target : string;
  version : Z;
  request_keep_alive : bool;
}.

Record HttpResponse := mkHttpResponse {
  status : Status;
  response_version : Z;
  body : string;
  content_type : string;
  response_keep_alive : bool;
}.

(** A double quote. *)
Definition quote : string := String (Ascii.ascii_of_nat 34) EmptyString.
Definition json_pair (key value : string) : string :=
  "{" +:+ quote +:+ key +:+ quote +:+ ":" +:+ quote +:+ value +:+ quote +:+ "}".

(** The status and the body of the response. *)
Definition route (ready : bool) (req : HttpRequest) : Status * string :=
  if bool_decide (method req = verb_get) && bool_decide (target req = "/healthz") then
    (status_ok, json_pair "status" "ok")
  else if bool_decide (method req = verb_get) && bool_decide (target req = "/readyz") then
    if ready then (status_ok, json_pair "status" "ready")
    else (status_service_unavailable, json_pair "status" "not_ready")
  else (status_not_found, json_pair "error" "not_found").

(** The response [handle_connection] sends. *)
Definition respond (ready : bool) (req : HttpRequest) : HttpResponse :=
  let '(st, text) := route ready req in
  mkHttpResponse st (version req) text "application/json" (request_keep_alive req).

(** ** One connection *)

Record Exchange := mkExchange {
  read_result : option HttpRequest;      (** [None]: [read_ec] is set *)
  ready_flag : bool;
  write_ok : bool;                       (** [write_ec] is not set *)
}.

(** The responses handed to [async_write], each with whether it was written, and
    whether the loop was left (the socket is then shut down); [false]: the
    coroutine waits for the next request. *)
Fixpoint handle_connection (exchanges : list Exchange) : list (HttpResponse * bool) * bool :=
  match exchanges with
  | [] => ([], false)
  | ex :: exchanges =>
      match read_result ex with
      | None => ([], true)
      | Some req =>
          let response := respond (ready_flag ex) req in
          if negb (write_ok ex) || negb (request_keep_alive req)
          then ([(response, write_ok ex)], true)
          else
            let '(responses, closed) := handle_connection exchanges in
            ((response, write_ok ex) :: responses, closed)
      end
  end.

(** ** The server *)

Context {IoContext Socket : Type}.
(** [asio::co_spawn] of the listener and [io_context::stop]. *)
Context (co_spawn ioc_stop : IoContext -> IoContext).

Record Server := mkServer {
  config_ : ServerConfig;
  ioc_ : IoContext;
  threads_ : nat;
  running_ : bool;
  ready_ : bool;
  bound_port_ : Z;
}.

Definition new_server (config : ServerConfig) (ioc : IoContext) : Server :=
  mkServer config ioc 0 false true 0.

Definition server_start (s : Server) : Server :=
  if running_ s then s
  else mkServer (config_ s) (co_spawn (ioc_ s)) (threads_ s + num_threads (config_ s))
         true (ready_ s) (bound_port_ s).

Definition server_stop (s : Server) : Server :=
  if running_ s then
    mkServer (config_ s) (ioc_stop (ioc_ s)) 0 false (ready_ s) (bound_port_ s)
  else s.

(** [~Server]. *)
Definition server_destroy (s : Server) : Server := server_stop s.

Definition server_is_running (s : Server) : bool := running_ s.
Definition server_port (s : Server) : Z := bound_port_ s.
Definition set_ready (ready : bool) (s : Server) : Server :=
  mkServer (config_ s) (ioc_ s) (threads_ s) (running_ s) ready (bound_port_ s).

(** The port the acceptor is bound to, or the exception of [bind]. *)
Context (open_acceptor : string -> Z -> outcome Z).

Definition set_bound_port (port : Z) (s : Server) : Server :=
  mkServer (config_ s) (ioc_ s) (threads_ s) (running_ s) (ready_ s) port.

(** The accepting loop: [running_] when it is tested, and what [async_accept]
    gave ([None]: [ec] is set).  The sockets handed to [handle_connection]. *)
Fixpoint accept_loop (accepts : list (bool * option Socket)) : list Socket :=
  match accepts with
  | [] => []
  | (running, accepted) :: accepts =>
      if (running : bool) then
        match accepted with
        | None => []
        | Some socket => socket :: accept_loop accepts
        end
      else []
  end.

Definition listener (accepts : list (bool * option Socket)) (s : Server)
  : outcome (Server * list Socket) :=
  port ← open_acceptor (address (config_ s)) (port_number (config_ s));
  Ok (set_bound_port port s, accept_loop accepts).

(** ** What a connection does *)

(** The exchange after which the loop is left. *)
Definition ends (ex : Exchange) : bool :=
  match read_result ex with
  | None => true
  | Some req => negb (write_ok ex) || negb (request_keep_alive req)
  end.

(** The exchanges that are answered: those up to the one that ends the
    connection, that one included when its request was read. *)
Definition answered (exchanges : list Exchange) : list Exchange :=
  match list_find (fun ex => ends ex = true) exchanges with
  | None => exchanges
  | Some (i, ex) => take (match read_result ex with None => i | Some _ => S i end) exchanges
  end.

(** The response to an exchange, and whether it reaches the client. *)
Definition answer (ex : Exchange) : option (HttpResponse * bool) :=
  (fun req => (respond (ready_flag ex) req, write_ok ex)) <$> read_result ex.

(** C38. A connection answers its requests one for one, in order: the responses are
    those of the requests up to the first read error, write error or request
    that does not keep the connection alive, the latter still answered, and the
    socket is shut down exactly then.  Every response is the routing of its own
    request under the readiness of that moment, and all of them but possibly the
    last are written. *)
Theorem connection_answers_in_order exchanges :
  (handle_connection exchanges).1 = omap answer (answered exchanges) /\
  length (handle_connection exchanges).1 = length (answered exchanges) /\
  ((handle_connection exchanges).2 = true <-> exists ex, ex ∈ exchanges /\ ends ex = true) /\
  (forall i resp, (handle_connection exchanges).1 !! i = Some (resp, false) ->
     S i = length (handle_connection exchanges).1).
Proof.
  induction exchanges as [|ex exchanges (IH1 & IH2 & IH3 & IH4)]; [split_and!; set_solver|].
  unfold answered in *. cbn [list_find handle_connection].
  assert (Hends : ends ex = match read_result ex with
    None => true | Some req => negb (write_ok ex) || negb (request_keep_alive req) end) by done.
  destruct (decide (ends ex = true)) as [Hd|Hd].
  - assert (Hex : exists ex', ex' ∈ ex :: exchanges /\ ends ex' = true)
      by (exists ex; set_solver).
    rewrite Hends in Hd. destruct (read_result ex) as [req|] eqn:Hr; simpl.
    + rewrite Hd. unfold answer. simpl. rewrite Hr. split_and!; try done. by intros [|].
    + by split_and!.
  - destruct (read_result ex) as [req|] eqn:Hr; [|congruence].
    rewrite <- Hends, (not_true_is_false _ Hd).
    destruct (handle_connection exchanges) as [rs closed]. simpl in *.
    assert (Hex : (exists ex', ex' ∈ ex :: exchanges /\ ends ex' = true) <->
                  exists ex', ex' ∈ exchanges /\ ends ex' = true).
    { split; [|set_solver]. intros (ex' & [->|Hin]%elem_of_cons & Hend); [congruence|eauto]. }
    rewrite Hex.
    assert (Hw : write_ok ex = true).
    { rewrite Hends in Hd. by destruct (write_ok ex). }
    assert (Ha : answer ex = Some (respond (ready_flag ex) req, write_ok ex))
      by (unfold answer; by rewrite Hr).
    assert (Hlast : forall i resp, ((respond (ready_flag ex) req, write_ok ex) :: rs) !! i
      = Some (resp, false) -> S i = S (length rs)).
    { intros [|i] resp; simpl; [rewrite Hw; congruence|]. intros Hi. f_equal. by apply (IH4 i resp). }
    destruct (list_find _ exchanges) as [[i ex']|]; simpl;
      [destruct (read_result ex'); simpl|]; rewrite Ha; split_and!; simpl;
      exact Hlast || congruence || done || by rewrite IH1.
Qed.

(** ** The life of the server *)

Inductive ServerOp := OpStart | OpStop | OpReady (ready : bool).

Definition apply_op (s : Server) (op : ServerOp) : Server :=
  match op with
  | OpStart => server_start s
  | OpStop => server_stop s
  | OpReady ready => set_ready ready s
  end.

Definition apply_ops (ops : list ServerOp) (s : Server) : Server := foldl apply_op s ops.

(** [io_context::stopped]: set by [stop], untouched by spawning a coroutine, and
    cleared only by [io_context::restart], which the server never calls. *)
Context (stopped : IoContext -> bool).
Hypothesis stop_stops : forall c, stopped (ioc_stop c) = true.
Hypothesis spawn_keeps : forall c, stopped (co_spawn c) = stopped c.

Definition threads_ok (s : Server) : Prop :=
  threads_ s = if running_ s then num_threads (config_ s) else 0%nat.

Lemma apply_ops_threads ops s : threads_ok s -> threads_ok (apply_ops ops s).
Proof.
  revert s. induction ops as [|op ops IH]; intros s Hs; [done|]. apply IH.
  unfold threads_ok in *. destruct op; simpl; [| |done];
    unfold server_start, server_stop; destruct (running_ s) eqn:E; simpl; rewrite ?E; lia || done.
Qed.

Lemma apply_ops_stopped ops s :
  stopped (ioc_ s) = true -> stopped (ioc_ (apply_ops ops s)) = true.
Proof.
  revert s. induction ops as [|op ops IH]; intros s Hs; [done|]. apply IH.
  destruct op; simpl; [| |done]; unfold server_start, server_stop; destruct (running_ s); simpl;
    rewrite ?spawn_keeps, ?stop_stops; done.
Qed.

(** C39. The life of a server: whatever the sequence of [start], [stop] and
    [set_ready] calls, repeated ones included, the worker threads are exactly
    the configured ones while it runs and none otherwise; but a server that was
    stopped once never serves again: its [io_context] stays stopped for ever,
    although [start] reports it as running with all its threads. *)
Theorem server_lifecycle config ioc before after :
  let s := apply_ops before (new_server config ioc) in
  threads_ok s /\
  (running_ s = true ->
     let s' := apply_ops after (server_stop s) in
     stopped (ioc_ s') = true /\
     (server_is_running (server_start s') = true /\ stopped (ioc_ (server_start s')) = true)).
Proof.
  intros s. split; [by apply apply_ops_threads|]. intros Hrun s'.
  assert (Hs : stopped (ioc_ s') = true).
  { apply apply_ops_stopped. unfold server_stop. rewrite Hrun. apply stop_stops. }
  split; [done|]. split; [by unfold server_is_running, server_start; destruct (running_ s') eqn:E|].
  exact (apply_ops_stopped [OpStart] s' Hs).
Qed.

End Server.

(** ** Witnesses *)

(** Verbs as strings; a context that counts its coroutines. *)
Definition demo_http_request (target : string) (keep_alive : bool) : HttpRequest :=
  mkHttpRequest "GET" target 11 keep_alive.

Definition demo_connection : list Exchange :=
  [mkExchange (Some (demo_http_request "/healthz" true)) true true;
   mkExchange (Some (demo_http_request "/readyz" false)) false true;
   mkExchange (Some (demo_http_request "/" true)) true true].

Example demo_statuses :
  (status ∘ fst) <$> (handle_connection "GET" demo_connection).1 = [status_ok; status_service_unavailable].
Proof. reflexivity. Qed.

Definition spawn_demo (c : nat * bool) : nat * bool := (S c.1, c.2).
Definition stop_demo (c : nat * bool) : nat * bool := (c.1, true).

Definition restarted_demo : Server :=
  server_start spawn_demo (server_stop stop_demo
    (server_start spawn_demo (new_server default_server_config (0%nat, false)))).

Lemma server_lifecycle_witness :
  server_is_running restarted_demo = true /\ (ioc_ restarted_demo).2 = true.
Proof.
  exact (proj2 (proj2 (server_lifecycle spawn_demo stop_demo snd (fun _ => eq_refl)
    (fun _ => eq_refl) default_server_config (0%nat, false) [OpStart] []) eq_refl)).
Defined.
