(* ===== verification/Conformance.v ===== *)
(** * The repository's own tests, run on the model

    Scenarios of [tests/golden/golden_trace_test.cpp] and of the unit tests
    of the scheduler, the backend, the channel, the engine and the analysis,
    replayed on the definitions of this library: each [Example] evaluates the
    model on the inputs of a test and states what the test requires.  A
    scheduler test is a script of [action]s; an engine test is a sequence of
    turns of [run] with the calls of the test's thread between them. *)

From S2P Require Import Prelude Clock RequestState RequestLifecycle Request Backend MockBackend FifoScheduler Double Workload Simulation Analysis SimulationProperties TokenChannel Engine EngineInvariant EngineProperties.

(** 1ms. *)
Definition one_ms : Duration := 1000000.

(** ** Scripts *)

Inductive action :=
  | Submit (id : RequestId) (deadline : Duration) (budget : Z) (prompt : list Z)
  | Tick
  | Cancel (id : RequestId)
  | Advance (d : Duration)
  | ConfigureEos (handle after : Z)
  | FailNextPrefill
  | FailNextDecode.

Definition bench : Type := FifoScheduler * MockWorld * list TickReport.

Definition synthetic (category : BackendErrorCategory) : BackendError :=
  mkBackendError category "synthetic failure".

Definition perform (a : action) (b : bench) : outcome bench :=
  let '(s, w, reports) := b in
  match a with
  | Submit id deadline budget prompt =>
      '(r, w) ← new_request id deadline budget prompt 0 w;
      '(_, s, w) ← FifoScheduler.submit r s w;
      Ok (s, w, reports)
  | Tick => '(rep, s, w) ← tick s w; Ok (s, w, reports ++ [rep])
  | Cancel id => '(s, w) ← FifoScheduler.cancel id s w; Ok (s, w, reports)
  | Advance d => clock ← advance d (mock_clock w); Ok (s, mkMockWorld clock (mock w), reports)
  | ConfigureEos h n => w ← configure_eos (mkHandle h) n w; Ok (s, w, reports)
  | FailNextPrefill =>
      Ok (s, mkMockWorld (mock_clock w) (fail_next_prefill (synthetic kInvalidRequest) (mock w)), reports)
  | FailNextDecode =>
      Ok (s, mkMockWorld (mock_clock w) (fail_next_decode (synthetic kUnavailable) (mock w)), reports)
  end.

Fixpoint script (actions : list action) (b : bench) : outcome bench :=
  match actions with
  | [] => Ok b
  | a :: actions => b ← perform a b; script actions b
  end.

(** What a test looks at: the state and the tokens of every request, then the
    sizes of the two queues. *)
Definition view (b : bench) : list (RequestState * Z) * Z * Z :=
  let '(s, _, _) := b in
  ((fun r => (req_state r, output_tokens_emitted_ r)) <$> requests_ s, waiting_count s, decoding_count s).

Definition run_script (actions : list action) : outcome (list (RequestState * Z) * Z * Z) :=
  b ← script actions (new_scheduler, mkMockWorld fake_start (new_mock one_ms (5 * one_ms)), []);
  Ok (view b).

Definition reports_of (actions : list action) : outcome (list TickReport) :=
  '(_, _, reports) ← script actions (new_scheduler, mkMockWorld fake_start (new_mock one_ms (5 * one_ms)), []);
  Ok reports.

Definition submit1 (id : RequestId) (budget : Z) : action := Submit id (1000 * one_ms) budget [1].

(** ** [fifo_scheduler_test.cpp] *)

Example promotes_in_one_tick :
  run_script [Submit "req-1" (1000 * one_ms) 5 [1; 2; 3]; Tick] = Ok ([(kDecoding, 1)], 0, 1).
Proof. vm_compute. reflexivity. Qed.

Example promotes_whole_queue :
  run_script [submit1 "req-1" 5; submit1 "req-2" 5; Tick] = Ok ([(kDecoding, 1); (kDecoding, 1)], 0, 2).
Proof. vm_compute. reflexivity. Qed.

Example completes_on_budget :
  run_script [submit1 "req-1" 3; Tick; Tick] = Ok ([(kDecoding, 2)], 0, 1) /\
  run_script [submit1 "req-1" 3; Tick; Tick; Tick] = Ok ([(kCompleted, 3)], 0, 0).
Proof. vm_compute. done. Qed.

Example completes_on_eos :
  run_script [submit1 "req-1" 10; Tick; ConfigureEos 0 2; Tick] = Ok ([(kCompleted, 2)], 0, 0).
Proof. vm_compute. reflexivity. Qed.

Example cancel_while_waiting :
  run_script [submit1 "req-1" 5; Cancel "req-1"; Tick] = Ok ([(kCancelled, 0)], 0, 0).
Proof. vm_compute. reflexivity. Qed.

Example cancel_while_decoding :
  run_script [submit1 "req-1" 5; Tick; Cancel "req-1"; submit1 "req-2" 1; Tick] =
    Ok ([(kCancelled, 1); (kCompleted, 1)], 0, 0).
Proof. vm_compute. reflexivity. Qed.

Example cancel_unknown_or_twice :
  run_script [submit1 "req-1" 5; Cancel "does-not-exist"] = Ok ([(kWaitingPrefill, 0)], 1, 0) /\
  run_script [submit1 "req-1" 5; Cancel "req-1"; Cancel "req-1"] = Ok ([(kCancelled, 0)], 0, 0).
Proof. vm_compute. done. Qed.

Example expires_before_the_backend :
  run_script [Submit "req-1" 0 5 [1]; Advance one_ms; Tick] = Ok ([(kFailed, 0)], 0, 0).
Proof. vm_compute. reflexivity. Qed.

Example expires_while_decoding :
  run_script [Submit "req-1" (6 * one_ms) 5 [1]; Tick] = Ok ([(kDecoding, 1)], 0, 1) /\
  run_script [Submit "req-1" (6 * one_ms) 5 [1]; Tick; Advance one_ms; Tick] = Ok ([(kFailed, 1)], 0, 0).
Proof. vm_compute. done. Qed.

Example prefill_error_retires :
  run_script [submit1 "req-fail" 5; submit1 "req-ok" 5; FailNextPrefill; Tick] =
    Ok ([(kFailed, 0); (kDecoding, 1)], 0, 1).
Proof. vm_compute. reflexivity. Qed.

Example decode_error_retires :
  run_script [submit1 "req-1" 5; Tick; FailNextDecode; Tick] = Ok ([(kFailed, 1)], 0, 0).
Proof. vm_compute. reflexivity. Qed.

Example completes_in_order :
  let three := [submit1 "req-1" 1; submit1 "req-2" 2; submit1 "req-3" 3] in
  run_script (three ++ [Tick]) = Ok ([(kCompleted, 1); (kDecoding, 1); (kDecoding, 1)], 0, 2) /\
  run_script (three ++ [Tick; Tick]) = Ok ([(kCompleted, 1); (kCompleted, 2); (kDecoding, 2)], 0, 1) /\
  run_script (three ++ [Tick; Tick; Tick]) = Ok ([(kCompleted, 1); (kCompleted, 2); (kCompleted, 3)], 0, 0).
Proof. vm_compute. done. Qed.

(** The fields of a report: timestamp, expired; prefill attempted, succeeded,
    failed, tokens; decode attempted, tokens, completed, failed. *)
Example reports_success :
  reports_of [Submit "req-1" (1000 * one_ms) 5 [1; 2; 3]; submit1 "req-2" 5; Tick] =
    Ok [mkTickReport (9 * one_ms) 0 2 2 0 4 2 2 0 0].
Proof. vm_compute. reflexivity. Qed.

Example reports_expiry :
  reports_of [Submit "req-1" 0 5 [1]; Advance one_ms; Tick] =
    Ok [mkTickReport (6 * one_ms) 1 0 0 0 0 0 0 0 0].
Proof. vm_compute. reflexivity. Qed.

(** Its timestamp shows what the test does not look at: a tick with nothing left
    to decode still calls the backend with an empty batch, which costs a decode
    step on the simulated clock. *)
Example idle_tick_costs_a_decode_step :
  reports_of [submit1 "req-1" 5; Cancel "req-1"; Tick] = Ok [mkTickReport (5 * one_ms) 0 0 0 0 0 0 0 0 0].
Proof. vm_compute. reflexivity. Qed.

Example reports_failures :
  reports_of [submit1 "req-fail" 5; submit1 "req-ok" 5; FailNextPrefill; Tick; FailNextDecode; Tick] =
    Ok [mkTickReport (7 * one_ms) 0 2 1 1 2 1 1 0 0; mkTickReport (12 * one_ms) 0 0 0 0 0 1 1 0 1].
Proof. vm_compute. reflexivity. Qed.

(** ** [mock_backend_test.cpp] *)

Definition test_backend (prefill decode : Duration) : MockWorld := mkMockWorld fake_start (new_mock prefill decode).

Example tokenize_bytes :
  (mock_tokenize "AB" (test_backend one_ms (5 * one_ms))).1 = mkTokenizedPrompt [65; 66].
Proof. vm_compute. reflexivity. Qed.

Definition prompts (ls : list (list Z)) : PrefillBatch :=
  mkPrefillBatch ((fun l => mkPrefillRequest (mkTokenizedPrompt l)) <$> ls).

Example prefill_advances_the_clock :
  ('(res, w) ← mock_prefill (prompts [[1; 2; 3]; [1; 2]]) (test_backend (2 * one_ms) (5 * one_ms));
   Ok (prefill_outcomes res, fake_now (mock_clock w))) =
  Ok ([Value (mkPrefillOutcome (mkHandle 0)); Value (mkPrefillOutcome (mkHandle 1))], 10 * one_ms).
Proof. vm_compute. reflexivity. Qed.

(** Three decodes of one sequence, flagged finished from the third on when so
    configured; each costs the same. *)
Definition three_decodes (eos : option Z) : outcome (list (list (expected DecodedToken)) * TimePoint) :=
  let batch := mkDecodeBatch [mkDecodeRequest (mkHandle 0)] in
  '(_, w) ← mock_prefill (prompts [[1]]) (test_backend one_ms (5 * one_ms));
  w ← match eos with Some n => configure_eos (mkHandle 0) n w | None => Ok w end;
  '(r1, w) ← mock_decode batch w;
  '(r2, w) ← mock_decode batch w;
  '(r3, w) ← mock_decode batch w;
  w ← mock_release (mkHandle 0) w;
  Ok ([decode_outcomes r1; decode_outcomes r2; decode_outcomes r3], fake_now (mock_clock w)).

Example decodes_count_up :
  three_decodes None =
    Ok ([[Value (mkDecodedToken 1 false)]; [Value (mkDecodedToken 2 false)]; [Value (mkDecodedToken 3 false)]],
        16 * one_ms).
Proof. vm_compute. reflexivity. Qed.

Example eos_at_the_configured_count :
  three_decodes (Some 3) =
    Ok ([[Value (mkDecodedToken 1 false)]; [Value (mkDecodedToken 2 false)]; [Value (mkDecodedToken 3 true)]],
        16 * one_ms).
Proof. vm_compute. reflexivity. Qed.

(** ** [token_channel_test.cpp] *)

Definition ev (t : Z) : TokenEvent := mkTokenEvent t kNone.
Definition push_list (l : list TokenEvent) (c : TokenChannel) : TokenChannel :=
  foldl (fun c e => (try_push e c).2) c l.

(** Everything a consumer gets before the end of the stream or before it would
    block. *)
Fixpoint pop_list (n : nat) (c : TokenChannel) : list TokenEvent :=
  match n with
  | O => []
  | S n => match pop c with Some (Some e, c) => e :: pop_list n c | _ => [] end
  end.

Example channel_fifo :
  pop_list 3 (push_list [ev 1; ev 2; mkTokenEvent 3 kStop] (new_channel 4)) =
    [ev 1; ev 2; mkTokenEvent 3 kStop].
Proof. vm_compute. reflexivity. Qed.

Example channel_full :
  let c := push_list [ev 1; ev 2] (new_channel 2) in (try_push (ev 3) c).1 = false /\ size_of (buffer_ c) = 2.
Proof. vm_compute. done. Qed.

Example channel_blocks_until_push :
  pop (new_channel 4) = None /\ pop (push_list [ev 42] (new_channel 4)) = Some (Some (ev 42), new_channel 4).
Proof. vm_compute. done. Qed.

Example channel_close_wakes : pop (close (new_channel 4)) = Some (None, close (new_channel 4)).
Proof. vm_compute. reflexivity. Qed.

Example channel_closed_rejects : (try_push (ev 1) (close (new_channel 4))).1 = false.
Proof. vm_compute. reflexivity. Qed.

Example channel_drains_after_close :
  let c := close (push_list [ev 1; ev 2; mkTokenEvent 3 kLength] (new_channel 4)) in
  pop_list 4 c = [ev 1; ev 2; mkTokenEvent 3 kLength].
Proof. vm_compute. reflexivity. Qed.

(** ** [engine_test.cpp]

    The engine thread takes its turns; what the test's thread does falls between
    two of them.  The steady clock of the model world is its simulated one. *)

#[local] Existing Instance demo_steady.

Definition engine_bench : Type := Engine * ChannelStore * MockWorld.

Definition one_turn (b : engine_bench) : outcome engine_bench :=
  let '(e, cs, w) := b in run_once demo_order e cs w.

Fixpoint many_turns (n : nat) (b : engine_bench) : outcome engine_bench :=
  match n with O => Ok b | S n => b ← one_turn b; many_turns n b end.

Definition on_engine (f : Engine -> Engine) (b : engine_bench) : engine_bench :=
  let '(e, cs, w) := b in (f e, cs, w).

Definition test_engine (timeout : Duration) (capacity : Z) (subs : list Submission) : engine_bench :=
  (foldl (fun e sub => (Engine.submit sub e).2) (start (new_engine (mkEngineConfig 0 timeout))).2 subs,
   list_to_map ((fun sub => (sub_channel sub, new_channel capacity)) <$> subs),
   test_backend one_ms one_ms).

(** What the consumer of a channel gets in the end, and whether it is closed. *)
Definition received (q : ChannelPtr) (b : engine_bench) : option (list TokenEvent * bool) :=
  (fun c => (pop_list 100 c, closed_ c)) <$> b.1.2 !! q.

Definition after (o : outcome engine_bench) (q : ChannelPtr) : option (list TokenEvent * bool) :=
  match o with Ok b => received q b | _ => None end.

Definition sec10 : Duration := 10000 * one_ms.

Example engine_all_tokens :
  after (many_turns 3 (test_engine (5000 * one_ms) 64 [mkSubmission "req-1" [10; 20; 30] 3 sec10 0%nat])) 0%nat =
    Some ([ev 1; ev 2; mkTokenEvent 3 kLength], true).
Proof. vm_compute. reflexivity. Qed.

Example engine_cancel_closes :
  after (b ← one_turn (test_engine (5000 * one_ms) 64 [mkSubmission "req-cancel" [1; 2] 100 sec10 0%nat]);
         one_turn (on_engine (Engine.cancel "req-cancel") b)) 0%nat = Some ([ev 1], true).
Proof. vm_compute. reflexivity. Qed.

Example engine_three_requests :
  let o := many_turns 2 (test_engine (5000 * one_ms) 64
    [mkSubmission "r1" [1] 2 sec10 0%nat; mkSubmission "r2" [2] 2 sec10 1%nat; mkSubmission "r3" [3] 2 sec10 2%nat]) in
  after o 0%nat = Some ([ev 1; mkTokenEvent 2 kLength], true) /\
  after o 1%nat = Some ([ev 1; mkTokenEvent 2 kLength], true) /\
  after o 2%nat = Some ([ev 1; mkTokenEvent 2 kLength], true).
Proof. vm_compute. done. Qed.

Example engine_backpressure_cancels :
  after (many_turns 2 (test_engine 0 1 [mkSubmission "req-bp" [1; 2; 3] 10 sec10 0%nat])) 0%nat =
    Some ([ev 1], true).
Proof. vm_compute. reflexivity. Qed.

Example engine_start_stop :
  let e0 := new_engine default_config in
  let e1 := (start e0).2 in let e2 := (stop e1).2 in let e3 := (start e2).2 in let e4 := (stop e3).2 in
  (is_running e1, is_running e2, is_running e3, is_running e4, is_running (stop e4).2) =
    (true, false, true, false, false).
Proof. vm_compute. reflexivity. Qed.

(** ** [golden_trace_test.cpp]

    The fixtures are given as what the loader makes of them. *)

Definition golden (fuel : nat) (workload : list WorkloadRequest) : option SimulationResult :=
  match run_simulation fuel (Ok workload) false with
  | Some (Ok (result, _)) => Some result
  | _ => None
  end.

Definition check_golden {A} (fuel : nat) (workload : list WorkloadRequest) (f : SimulationResult -> A) : option A :=
  f <$> golden fuel workload.

(** [simple_single_request.jsonl] *)
Definition simple_single_request : list WorkloadRequest :=
  [mkWorkloadRequest "req-1" (ms 0) [1; 2; 3] 2 (ms 100000)].

Example golden_single_request :
  check_golden 10 simple_single_request (fun res =>
    (length (tick_reports res),
     (fun r => (summary_id r, final_state r, output_tokens_emitted r, max_output_tokens r,
                admitted_at r, first_token_at r, completed_at r)) <$> summaries res,
     check_invariants (summaries res))) =
  Some (2%nat, [("req-1", kCompleted, 2, 2, Some 0, Some (8 * one_ms), Some (13 * one_ms))], []).
Proof. vm_compute. reflexivity. Qed.

(** [deadline_miss.jsonl] *)
Definition deadline_miss : list WorkloadRequest :=
  [mkWorkloadRequest "big" (ms 0) (Z.of_nat <$> seq 1 20) 3 (ms 100000);
   mkWorkloadRequest "tight" (ms 0) [1] 2 (ms 25)].

Example golden_deadline_miss :
  check_golden 10 deadline_miss (fun res =>
    ((fun r => (summary_id r, final_state r, output_tokens_emitted r,
                first_token_at r, completed_at r)) <$> summaries res,
     (fun rep => (prefill_attempted rep, expired_count rep, decode_attempted rep, decode_completed rep))
       <$> tick_reports res,
     check_invariants (summaries res))) =
  Some ([("big", kCompleted, 3, Some (26 * one_ms), Some (36 * one_ms));
         ("tight", kFailed, 1, Some (26 * one_ms), None)],
        [(2, 0, 2, 0); (0, 1, 1, 0); (0, 0, 1, 1)], []).
Proof. vm_compute. reflexivity. Qed.

(** [empty_workload.jsonl] *)
Example golden_empty :
  check_golden 1 [] (fun res => (tick_reports res, summaries res, check_invariants (summaries res))) =
    Some ([], [], []).
Proof. vm_compute. reflexivity. Qed.

(** ** [analysis_test.cpp] *)

(** [make_clean_summary], with times in milliseconds. *)
Definition clean (id : RequestId) (first e2e deadline : Z) (emitted max : Z) : RequestSummary :=
  mkRequestSummary id kCompleted (deadline * one_ms) (Some 0) None None None None
    (Some (first * one_ms)) (Some (e2e * one_ms)) emitted max.

(** A summary that is zero but for the fields given. *)
Definition bare (id : RequestId) (st : RequestState) : RequestSummary :=
  mkRequestSummary id st (1000 * one_ms) None None None None None None None 0 0.

Example latency_excludes_unfinished :
  (stats ← compute_latency_stats [bare "failed-1" kFailed; clean "ok-1" 10 20 1000000 3 3];
   Ok (ttft_p50 stats, e2e_p50 stats)) = Ok (ms 10, ms 20).
Proof. vm_compute. reflexivity. Qed.

Example latency_empty :
  (stats ← compute_latency_stats []; Ok (ttft_p50 stats, ttft_mean stats, e2e_max stats)) =
    Ok (Finite 0, Finite 0, Finite 0).
Proof. vm_compute. reflexivity. Qed.

Definition rates (requests : list RequestSummary) (wall : Duration) : double * double * double :=
  let stats := compute_throughput_stats requests wall in
  (throughput_tokens_per_sec stats, goodput_tokens_per_sec stats, slo_attainment_rate stats).

Definition one_sec : Duration := 1000 * one_ms.

Example goodput_none_attains :
  rates [clean "r1" 5 600 500 8 8; clean "r2" 5 600 500 4 4] one_sec = (ms 12, ms 0, ms 0).
Proof. vm_compute. reflexivity. Qed.

Example goodput_mixed :
  rates [clean "hit" 5 100 500 8 8; clean "miss" 5 600 500 4 4] one_sec =
    (ms 12, ms 8, Finite (one_units / 2)).
Proof. vm_compute. reflexivity. Qed.

Example no_wall_time :
  rates [clean "r1" 5 30 1000000 8 8] 0 = (ms 0, ms 0, ms 1).
Proof. vm_compute. reflexivity. Qed.

(** The violations: their requests and descriptions. *)
Example invariants_flag_each :
  (request_id <$> check_invariants [clean "clean" 10 50 1000000 8 8]) = [] /\
  (request_id <$> check_invariants [bare "stuck" kDecoding]) = ["stuck"] /\
  (request_id <$> check_invariants [clean "over-budget" 10 50 1000000 9 8]) = ["over-budget"] /\
  (description <$> check_invariants [clean "time-travel-1" (-5) 50 1000000 3 3]) =
    ["first_token_at occurred before admitted_at"] /\
  (description <$> check_invariants [clean "time-travel-2" 50 10 1000000 3 3]) =
    ["completed_at occurred before first_token_at"] /\
  (request_id <$> check_invariants [clean "clean" 10 50 1000000 8 8; bare "stuck" kWaitingPrefill]) = ["stuck"] /\
  check_invariants [bare "cancelled-1" kCancelled; bare "failed-1" kFailed] = [].
Proof. vm_compute. done. Qed.
